(* ===== verification/_CoqProject ===== *)
-Q . S2P
Prelude.v
Interleave.v
Queue.v
QueueConc.v
QueueThms.v
Limit.v
Float.v
LimitAll.v
RateThms.v
Internal.v
Buf.v
Flow.v
Table.v
TableInv.v
TableThms.v
Stream.v
StreamThms.v
Writer.v
Lifecycle.v
LoopTime.v
Tcp.v
TcpKey.v
TcpAcct.v
TcpInv.v
TcpThms.v
TcpTerm.v
Sys.v
UdpDrops.v
Udp.v
UdpSend.v
UdpRead.v
UdpInv.v
UdpThms.v
UdpTerm.v
UdpEcho.v
Socket.v
Service.v
GroupRun.v
Leak.v
Mmsg.v
UdpLoop.v
UdpStats.v
Text.v
Socks5.v
Socks5Relay.v
Echo.v
Testdoc.v
TestdocSpec.v
TestdocTree.v
TestdocThms.v
