(* ===== verification/Prelude.v ===== *)
(** * Verification of go-netx

    go-netx is a Go library for network gateways. This development models its
    packages as executable definitions and proves what makes them correct.
    [Prelude] holds what the other files share: notations, tactics, the hint
    database [netx], and lemmas on lists, options and machine integers.

    ** The program and its model

    Sequential code is a pure function on a record of the code's fields; a
    function that can panic, or an index out of range, gives [None]. Code that
    goroutines run at the same time is a transition function
    [next : shared state → goroutine → list of results]: every lock-protected
    section, atomic operation, channel operation and callback is one action,
    and [Interleave] runs any number of goroutines in any order ([reach] is
    reachability, [step] one action of one goroutine, [drive] a schedule for
    concrete runs). A panic sets a flag or a program counter of its own, so
    that its absence is proved.

    - [src/queue/queue.go]: [Queue] has the ring and the critical sections of
      its methods, and refines it to a bounded list with an overflow policy;
      [QueueConc] is the ring under goroutines, with the blocking waits and the
      two signal channels; [QueueThms] the theorems on it.
    - [src/limit/limit.go]: [Limit] has Concurrency and Budget (compare and
      swap loops) and PerKey; [LimitAll] has Rate, in IEEE binary64, and All over
      the class [Limiter], which states what a limiter promises. [Float] relates
      binary64 operations to the reals, [RateThms] draws what Rate admits from it.
    - [src/internal/counter], [src/internal/backoff]: [Internal].
    - [src/buf]: [Buf], the size classes and the pool as a heap of buffer
      objects, for both builds (with and without the debug checks).
    - [src/flow]: [Flow] is one flow's state and last-seen words; [Table] the
      sharded table over a heap of flows, [TableInv] its invariant, [TableThms]
      the theorems.
    - [src/stream]: [Stream] and [StreamThms] for Reader, [Writer] for Writer.
      Both are proved against the class [BufPool], which the pool of [Buf]
      implements.
    - [src/lifecycle.go]: [Lifecycle], module [Server] (LoopContext with the
      goroutine in Serve, Stop, Shutdown, signals and context ends). [LoopTime]
      follows Loop and LoopContext on a clock, with ShutdownTimeout, AbortGrace,
      the signal channel and the time user code takes, and refines the state
      machine of [Lifecycle].
    - [src/tcp/server.go]: [Tcp] is the server: accept loop, connection
      goroutines, admission by [Limit]'s PerKey and an arbitrary limiter,
      Shutdown, Close, Stats. [TcpKey] is about client keys, [TcpAcct] counts
      slots and permits, [TcpInv] is the invariant, [TcpThms] has the theorems,
      [TcpTerm] bounds the length of runs.
    - [src/internal/sys]: [Sys], control messages, the answers of a batched
      read, sender addresses and error classes; [Mmsg] is BatchReader over its
      memory: message headers, vectors, name and control buffers.
    - [src/udp/udp.go]: [UdpDrops] is the drop counter shared by readers; [Udp]
      the Conn (Listen's options, readers, Serve, Shutdown, Close, writes);
      [UdpSend] is about Listen and writes, [UdpRead] about what a reader does
      with a batch, [UdpInv] is the invariant, [UdpThms] has the theorems,
      [UdpTerm] bounds the length of runs.
      [UdpLoop] is one reader as code over its memory, read and readBatch over
      [Mmsg]; [UdpStats] has Stats and the addresses and drop counting of
      Listen's sockets; [UdpEcho] has WriteTo and Reply as a whole.
    - The Service contract: [Service] states it as a class, which the server of
      [Tcp] and the Conn of [Udp] implement; [GroupRun] is Group over such
      services, its goroutines and theirs running together.
    - [src/socket], [src/tcp/dialer.go]: [Socket], in a monad with the kernel's
      state, a log of system calls and errors, for every platform.
    - [src/internal/leak]: [Leak].
    - [src/examples/socks5-server]: [Socks5] is the handshake and the handler,
      over a connection that delivers its bytes in pieces and whose writes
      complete, fail or block; [Socks5Relay] the two copying goroutines. The
      other examples: [Echo] has the TCP echo server with its client, over a
      connection with bounded windows that may break, and the HTTP handler;
      [UdpEcho] the UDP echo server over the Conn of [Udp].
    - [src/internal/tools/testdoc]: [Testdoc] is the tool over a tree of files;
      [TestdocSpec] says which lines of a document are rows and references,
      [TestdocTree] which paths of the tree are tests, packages and design
      documents, without the tool's code; [TestdocThms] has the theorems. [Text] has the functions of package strings
      that it and [Socks5] use, on byte strings.

    ** What the theorems show

    - Queue: the ring is a bounded FIFO for every sequence of calls; under
      goroutines items leave in the order they came, no index is out of range and
      no channel closed twice, no wakeup is lost, every discarded item reaches
      OnDrop once, and the statistics add up.
    - Table and Flow: OnClose runs exactly once per flow that leaves the table,
      Remove takes only the flow it names, results hold when they are given,
      states move forward, and only Touch refreshes a flow.
    - Reader and Writer: bytes are delivered in order, Peek shows the next
      bytes, memory is bounded and returned, Flush sends in order.
    - Pool: buffers are owned by at most one holder, fresh buffers have the
      size asked for, the budget is refunded once, copies hold the data.
    - Limits: never above the maximum, exact counts per key, All never leaks.
      In any window of calls Rate admits at most its burst plus its rate times
      the window's length, up to a stated rounding error, and it admits a call
      that waited for one event's time.
    - Lifecycle: hooks run once and in order, Serve at most once in its own
      goroutine, callers agree on the result, a run that is asked to stop ends; a
      signalled process exits within its timeouts and OnError's time even if Serve
      hangs; a run on the clock is a run of the machine with the same outcomes.
    - TCP: admission limits hold, nothing is left over when Serve returns,
      no deadlock, every run ends, and which clients share a key.
    - UDP: datagrams reach the handler unchanged and in order, drop counts are
      exact, Serve's end, no deadlock and the end of every run, whatever the
      contention on the drop counters, Listen's ranges; reading in batches
      changes nothing but the number of system calls; Stats adds up.
    - Services: runs of a Group of tcp servers and udp Conns are bounded; when
      it is shut down, its context ends or one Serve fails, its Serve returns with
      the errors of all joined.
    - Sockets: options a network cannot take are refused before the socket is
      touched; on success buffer sizes are verified, the port option is set, and
      Fast Open is set or left out where platform or kernel lack it.
    - SOCKS5: the handshake accepts exactly the encodings of CONNECT requests,
      only the protocol's replies are written, the relay delivers in order and
      waits only for a peer that is silent or does not read.
    - Echo: the TCP client reads back the line it sent unless the connection
      breaks, and every run is finite; the UDP server answers each datagram that fits with its own
      bytes, on the socket it came in on, to its sender.
    - testdoc: exactly the rows and references of a document are found; no
      problem is reported exactly when document, tests and design documents are in
      step; a regenerated document differs in test columns only and is a fixed
      point.
    - leak: Check decides within its timeout.

    ** Bounds and fuel

    Machine integers are [Z] with their wrap-around written out ([u32], [u64],
    [i32], [i64]). The search for a power of two has fuel 64, enough for sizes up
    to 2^62; draining a ring has fuel its number of items; Peek's loop has fuel
    one above the bytes asked for, since every turn adds a byte or ends; a read
    tries 100 times, as the code does; DropCount has fuel one above the length
    of the data, since every message takes at least one byte; a batched read has
    one turn per answer of the kernel; a search for ids has fuel the length of
    the string, since every turn takes a byte; leak's Check has fuel
    timeout/5ms + 2, which its theorem shows to be enough. Running out of fuel is
    a result of its own, and is proved not to happen. Schedules occur only in
    witnesses.

    ** Parameters

    The hash and the order of map iteration, the source and destination of
    streams, which buffer sync.Pool returns or drops, user hooks, handlers and
    services, the Admit limiter, what Accept and socket reads return, the
    kernel's setsockopt and getsockopt, net.InterfaceByIndex, the platform's
    classification of read errors, how the kernel lays out control data in the
    room it has, what the handler writes to its buffer, the upstream dial, what
    Go's parser finds in a file, and the counts and clock of leak's turns are
    arguments of the model. [put_fits] and [flags_apart] say what recvmsg(2)
    documents: control data fits its buffer, and the other flags are not
    MSG_TRUNC. On the clock of [LoopTime], [prompt] says what the Service
    contract documents of Shutdown and of OnStop: they return soon after their
    context ends; how long OnError takes is a budget of the bound. net/http is a parameter of the HTTP handler.

    ** Not modelled

    The times in dial events; how long timers run in [Lifecycle], [Tcp] and
    [Udp], where a timer may fire whenever its select waits ([LoopTime] has the
    durations of a Server's run; the steps of the Server itself take no time
    there); most texts of errors and messages, and what programs log; the stubs
    of platforms without batched reads; failures of file operations in testdoc,
    which end its run. [no_lost_wakeup] leaves out a Drain of an open ring with
    blocked producers. [UdpLoop] runs one reader alone; readers together are in
    [Udp]. Rate is modelled with its product and sum rounded separately; a
    platform that fuses them rounds once less. *)
From Stdlib Require Export ZArith Lia.
From stdpp Require Export base option list numbers gmap strings relations.

#[export] Set Default Proof Using "Type".
#[export] Set Warnings "-clear-no-such-hyp".

(** * Automation *)

Create HintDb netx.

(** Destructs the boolean comparisons and decisions of a goal. *)
Ltac bool_cases :=
  repeat first
    [ case_bool_decide
    | match goal with
      | |- context [Z.ltb ?a ?b] => destruct (Z.ltb_spec a b)
      | |- context [Z.leb ?a ?b] => destruct (Z.leb_spec a b)
      | |- context [Z.eqb ?a ?b] => destruct (Z.eqb_spec a b)
      | |- context [Nat.ltb ?a ?b] => destruct (Nat.ltb_spec a b)
      | |- context [Nat.leb ?a ?b] => destruct (Nat.leb_spec a b)
      | |- context [Nat.eqb ?a ?b] => destruct (Nat.eqb_spec a b)
      end ].

(** The same in a hypothesis. *)
Ltac bool_cases_in H :=
  repeat first
    [ case_bool_decide
    | match type of H with
      | context [Z.ltb ?a ?b] => destruct (Z.ltb_spec a b)
      | context [Z.leb ?a ?b] => destruct (Z.leb_spec a b)
      | context [Z.eqb ?a ?b] => destruct (Z.eqb_spec a b)
      | context [Nat.ltb ?a ?b] => destruct (Nat.ltb_spec a b)
      | context [Nat.leb ?a ?b] => destruct (Nat.leb_spec a b)
      | context [Nat.eqb ?a ?b] => destruct (Nat.eqb_spec a b)
      end ].

(** Turns membership in the literal successor lists of a transition
    function into equations. *)
Ltac inv_elem :=
  repeat match goal with
    | H : _ ∈ [] |- _ => by apply not_elem_of_nil in H
    | H : _ ∈ _ :: _ |- _ => apply elem_of_cons in H as [H|H]
    | H : _ ∈ _ ++ _ |- _ => apply elem_of_app in H as [H|H]
    | H : (_, _) = (_, _) |- _ => simplify_eq H; clear H; intros
    end; simplify_eq/=.

(** * Machine integers

    A Go integer of a fixed width is a [Z] in its range; every operation
    that can leave the range is followed by the wrap the language performs. *)
Section machine.
Local Open Scope Z_scope.

Definition wrap_u (w z : Z) : Z := z mod 2 ^ w.
Definition wrap_s (w z : Z) : Z := (z + 2 ^ (w - 1)) mod 2 ^ w - 2 ^ (w - 1).

Definition u16 (z : Z) : Z := wrap_u 16 z.
Definition u32 (z : Z) : Z := wrap_u 32 z.
Definition u64 (z : Z) : Z := wrap_u 64 z.
Definition i32 (z : Z) : Z := wrap_s 32 z.
(** Go's [int] is 64 bits wide on the platforms modelled. *)
Definition i64 (z : Z) : Z := wrap_s 64 z.

Definition max_int64 : Z := 2 ^ 63 - 1.
Definition min_int64 : Z := - 2 ^ 63.
Definition in_i64 (z : Z) : Prop := - 2 ^ 63 <= z < 2 ^ 63.
Definition in_u64 (z : Z) : Prop := 0 <= z < 2 ^ 64.

Lemma wrap_u_small w z : 0 <= z < 2 ^ w → wrap_u w z = z.
Proof. intros. by apply Z.mod_small. Qed.

Lemma u64_small z : in_u64 z → u64 z = z.
Proof. apply wrap_u_small. Qed.

Lemma u64_range z : in_u64 (u64 z).
Proof. by apply Z.mod_pos_bound. Qed.

Lemma u32_range z : 0 <= u32 z < 2 ^ 32.
Proof. by apply Z.mod_pos_bound. Qed.

Lemma wrap_s_small w z :
  0 < w → - 2 ^ (w - 1) <= z < 2 ^ (w - 1) → wrap_s w z = z.
Proof.
  intros Hw Hz. unfold wrap_s. rewrite Z.mod_small; [lia|].
  assert (2 ^ w = 2 * 2 ^ (w - 1)); [|lia].
  rewrite <- Z.pow_succ_r by lia. f_equal; lia.
Qed.

Lemma i64_small z : in_i64 z → i64 z = z.
Proof. intros. by apply wrap_s_small. Qed.

Lemma i32_small z : - 2 ^ 31 <= z < 2 ^ 31 → i32 z = z.
Proof. intros. by apply wrap_s_small. Qed.

Lemma i64_range z : in_i64 (i64 z).
Proof.
  unfold in_i64, i64, wrap_s.
  pose proof (Z.mod_pos_bound (z + 2 ^ (64 - 1)) (2 ^ 64) eq_refl). lia.
Qed.

Lemma u64_add_l a b : u64 (u64 a + b) = u64 (a + b).
Proof. unfold u64, wrap_u. by rewrite Zplus_mod_idemp_l. Qed.

Lemma u64_add_r a b : u64 (a + u64 b) = u64 (a + b).
Proof. unfold u64, wrap_u. by rewrite Zplus_mod_idemp_r. Qed.

Lemma i64_add_l a b : i64 (i64 a + b) = i64 (a + b).
Proof.
  unfold i64, wrap_s. f_equal.
  replace ((a + 2 ^ (64 - 1)) mod 2 ^ 64 - 2 ^ (64 - 1) + b + 2 ^ (64 - 1))
    with ((a + 2 ^ (64 - 1)) mod 2 ^ 64 + b) by lia.
  rewrite Zplus_mod_idemp_l. f_equal. lia.
Qed.

Lemma u64_add3 a b c : u64 (u64 a + u64 b + c) = u64 (a + b + c).
Proof.
  rewrite <- (u64_add_l (u64 a + u64 b) c), (u64_add_l a (u64 b)), u64_add_r.
  by rewrite u64_add_l.
Qed.
End machine.

#[export] Hint Resolve u64_range u32_range i64_range : netx.

(** * The doubling loop

    [size := 1; for size < n { size <<= 1 }], shared by [queue.New] and
    [flow.NewTable]. [None] means the loop has not ended within the fuel. *)
Section doubling.
Local Open Scope Z_scope.

Fixpoint pow2_from (fuel : nat) (size n : Z) : option Z :=
  match fuel with
  | O => None
  | S f => if size <? n then pow2_from f (i64 (Z.shiftl size 1)) n else Some size
  end.

Definition pow2_ceil (n : Z) : option Z := pow2_from 64 1 n.

Lemma pow2_from_spec (fuel : nat) (j n : Z) :
  0 <= j <= 62 → n <= 2 ^ 62 → 62 - j < Z.of_nat fuel →
  2 ^ j < 2 * n ∨ j = 0 →
  ∃ k, j <= k <= 62 ∧ pow2_from fuel (2 ^ j) n = Some (2 ^ k) ∧
       n <= 2 ^ k ∧ (2 ^ k < 2 * n ∨ k = 0).
Proof.
  revert j. induction fuel as [|f IH]; intros j Hj Hn Hf Hlow; [lia|].
  simpl. destruct (Z.ltb_spec (2 ^ j) n) as [Hlt|Hge]; [|exists j; auto with lia].
  assert (j < 62) by (apply (Z.pow_lt_mono_r_iff 2); lia).
  assert (Hp : Z.shiftl (2 ^ j) 1 = 2 ^ (j + 1)).
  { rewrite Z.shiftl_mul_pow2, Z.pow_add_r by lia. done. }
  rewrite Hp, i64_small.
  - destruct (IH (j + 1)) as (k & ? & ? & ?); [lia..| |].
    + left. rewrite Z.pow_add_r by lia. lia.
    + exists k. auto with lia.
  - unfold in_i64. split; [pose proof (Z.pow_nonneg 2 (j + 1)); lia|].
    apply Z.pow_lt_mono_r; lia.
Qed.

(** The loop ends with the smallest power of two not below [n]. *)
Lemma pow2_ceil_spec n :
  n <= 2 ^ 62 →
  ∃ k, 0 <= k <= 62 ∧ pow2_ceil n = Some (2 ^ k) ∧ n <= 2 ^ k ∧
       (2 ^ k < 2 * n ∨ k = 0).
Proof.
  intros Hn. destruct (pow2_from_spec 64 0 n) as (k & ? & ? & ?); [lia..|].
  exists k. auto.
Qed.
End doubling.

(** Indexing by a mask of ones is reduction modulo the power of two. *)
Lemma land_mask (a k : Z) : (0 ≤ k)%Z → Z.land a (2 ^ k - 1) = (a mod 2 ^ k)%Z.
Proof.
  intros. rewrite <- Z.land_ones by done. f_equal.
  rewrite Z.ones_equiv. lia.
Qed.

(** * Lists *)

Section lists.
Context {A : Type}.
Implicit Types l : list A.

Lemma insert_decompose l i x y :
  l !! i = Some x → ∃ l1 l2, l = l1 ++ x :: l2 ∧ <[i:=y]> l = l1 ++ y :: l2.
Proof.
  intros H. exists (take i l), (drop (S i) l). split.
  - symmetry. by apply take_drop_middle.
  - rewrite insert_take_drop; [done|]. by eapply lookup_lt_Some.
Qed.

Lemma elem_of_insert_list l i x y :
  y ∈ <[i:=x]> l → y = x ∨ y ∈ l.
Proof.
  intros [j Hj]%list_elem_of_lookup.
  destruct (decide (i = j)) as [->|Hne].
  - left. apply list_lookup_insert_Some in Hj as [(_ & -> & _)|(? & _)]; done.
  - right. rewrite list_lookup_insert_ne in Hj by done.
    apply list_elem_of_lookup. eauto.
Qed.

(** A property held by some element, when one element is replaced. *)
Lemma Exists_insert_l (P : A → Prop) l i x y :
  l !! i = Some x → Exists P l → P x ∨ Exists P (<[i:=y]> l).
Proof.
  intros (l1 & l2 & -> & ->)%(insert_decompose _ _ _ y).
  rewrite !Exists_app, !Exists_cons. tauto.
Qed.

Lemma Exists_insert_r (P : A → Prop) l i x y :
  l !! i = Some x → P y → Exists P (<[i:=y]> l).
Proof.
  intros (l1 & l2 & -> & ->)%(insert_decompose _ _ _ y).
  rewrite !Exists_app, !Exists_cons. tauto.
Qed.

Lemma Exists_insert_inv (P : A → Prop) l i x y :
  l !! i = Some x → Exists P (<[i:=y]> l) → P y ∨ Exists P l.
Proof.
  intros (l1 & l2 & -> & ->)%(insert_decompose _ _ _ y).
  rewrite !Exists_app, !Exists_cons. tauto.
Qed.
End lists.

(** Replacing one element of a list, seen through a flattening map. *)
Lemma bind_insert_perm {A B : Type} (f : A → list B) (l : list A) i x y :
  l !! i = Some x → (<[i:=y]> l ≫= f) ++ f x ≡ₚ (l ≫= f) ++ f y.
Proof.
  intros (l1 & l2 & -> & ->)%(insert_decompose _ _ _ y).
  rewrite !bind_app. csimpl. solve_Permutation.
Qed.

(** Sum of an integer measure over a list. *)
Section zsum.
Local Open Scope Z_scope.
Context {A : Type} (f : A → Z).

Definition zsum (l : list A) : Z := foldr (λ x acc, f x + acc) 0 l.

Lemma zsum_app l1 l2 : zsum (l1 ++ l2) = zsum l1 + zsum l2.
Proof. induction l1; simpl; lia. Qed.

Lemma zsum_insert l (i : nat) x y :
  l !! i = Some x → zsum (<[i:=y]> l) = zsum l - f x + f y.
Proof.
  intros (l1 & l2 & -> & ->)%(insert_decompose _ _ _ y).
  rewrite !zsum_app. simpl. lia.
Qed.

Lemma zsum_nonneg l : (∀ x, 0 <= f x) → 0 <= zsum l.
Proof. intros Hf. induction l as [|x l]; simpl; [lia|]. specialize (Hf x). lia. Qed.

Lemma zsum_le_length l : (∀ x, f x <= 1) → zsum l <= Z.of_nat (length l).
Proof. intros Hf. induction l as [|x l]; simpl; [lia|]. specialize (Hf x). lia. Qed.

Lemma zsum_perm l1 l2 : l1 ≡ₚ l2 → zsum l1 = zsum l2.
Proof. induction 1; simpl; lia. Qed.

Lemma zsum_ext (g : A → Z) l : (∀ x, x ∈ l → f x = g x) →
  zsum l = foldr (λ x acc, g x + acc) 0 l.
Proof.
  induction l as [|x l IH]; intros Hf; [done|]. simpl.
  rewrite (Hf x), IH; [done| |set_solver]. intros y ?. apply Hf. set_solver.
Qed.

Lemma zsum_zero l : (∀ x, x ∈ l → f x = 0) → zsum l = 0.
Proof.
  induction l as [|x l IH]; intros Hf; [done|]. simpl.
  rewrite (Hf x), IH; [done| |set_solver]. intros y ?. apply Hf. set_solver.
Qed.

Lemma zsum_pos_elem l : (∀ x, 0 <= f x) → 0 < zsum l → ∃ x, x ∈ l ∧ 0 < f x.
Proof.
  intros Hf. induction l as [|x l IH]; simpl; [lia|]. intros H.
  destruct (Z.ltb_spec 0 (f x)).
  - exists x. split; [left|done].
  - destruct IH as (y & ? & ?); [specialize (Hf x); lia|].
    exists y. split; [by right|done].
Qed.

Lemma zsum_elem_pos l x : (∀ x, 0 <= f x) → x ∈ l → f x <= zsum l.
Proof.
  intros Hf. induction 1 as [x l|x y l ? IH]; simpl.
  - pose proof (zsum_nonneg l Hf). lia.
  - specialize (Hf y). lia.
Qed.
End zsum.
