(* ===== verification/Interleave.v ===== *)
(** Interleaving semantics of goroutines over shared memory.

    A component with atomics, a mutex or channels is a shared state [S] and a
    local state [L] per goroutine; [next s l] lists the results of the
    goroutine's next atomic action, several when the code's [select] may
    choose, none when it is blocked or has finished. A configuration steps
    when any goroutine does. Schedules make runs executable. *)
From S2P Require Import Prelude.

Section interleave.
Context {S L : Type} (next : S → L → list (S * L)).

Record conf := Conf { shared : S; procs : list L }.

Inductive step : conf → conf → Prop :=
| step_at i l s s' l' ps :
    ps !! i = Some l →
    (s', l') ∈ next s l →
    step (Conf s ps) (Conf s' (<[i:=l']> ps)).

(** A schedule names, action by action, the goroutine that moves and which
    of its possible results it takes. *)
Definition run1 (c : conf) (ij : nat * nat) : option conf :=
  l ← procs c !! ij.1;
  sl ← next (shared c) l !! ij.2;
  Some (Conf sl.1 (<[ij.1:=sl.2]> (procs c))).

Fixpoint run (sched : list (nat * nat)) (c : conf) : option conf :=
  match sched with
  | [] => Some c
  | ij :: rest => c' ← run1 c ij; run rest c'
  end.

Lemma run1_sound c ij c' : run1 c ij = Some c' → step c c'.
Proof.
  destruct c as [s ps], ij as [i j]. unfold run1; simpl. intros H.
  destruct (ps !! i) as [l|] eqn:Hl; [|done]. simpl in H.
  destruct (next s l !! j) as [[s' l']|] eqn:Hn; [|done].
  simplify_eq/=. econstructor; [done|].
  apply list_elem_of_lookup. eauto.
Qed.

Lemma run_sound sched c c' : run sched c = Some c' → rtc step c c'.
Proof.
  revert c. induction sched as [|ij rest IH]; intros c; simpl.
  - intros [= ->]. constructor.
  - destruct (run1 c ij) as [c1|] eqn:H1; [|done]. simpl. intros H.
    econstructor; [by eapply run1_sound|by apply IH].
Qed.

Lemma run_nsteps sched c c' : run sched c = Some c' → nsteps step (length sched) c c'.
Proof.
  revert c. induction sched as [|ij rest IH]; intros c; simpl.
  - intros [= ->]. constructor.
  - destruct (run1 c ij) as [c1|] eqn:H1; [|done]. simpl. intros H.
    econstructor; [by eapply run1_sound|by apply IH].
Qed.

(** A scheduler: the first goroutine of [order] that can move takes its first
    possible action. *)
Fixpoint first_move (order : list nat) (c : conf) : option conf :=
  match order with
  | [] => None
  | i :: rest => match run1 c (i, 0) with Some c' => Some c' | None => first_move rest c end
  end.
Fixpoint drive (fuel : nat) (order : list nat) (c : conf) : conf :=
  match fuel with
  | O => c
  | Datatypes.S fuel =>
      match first_move order c with Some c' => drive fuel order c' | None => c end
  end.

Lemma drive_sound fuel order c : rtc step c (drive fuel order c).
Proof.
  assert (∀ o a b, first_move o a = Some b → step a b) as Hf.
  { induction o as [|i o IH]; intros a b; simpl; [done|].
    destruct (run1 a (i, 0)) eqn:E; [intros [= <-]; by eapply run1_sound|by apply IH]. }
  revert c. induction fuel as [|fuel IH]; intros c; simpl; [done|].
  destruct (first_move order c) eqn:E; [|done]. econstructor; [by apply Hf in E|apply IH].
Qed.

(** Invariants by rule induction. *)
Lemma inv_reachable (P : conf → Prop) c c' :
  P c → (∀ a b, P a → step a b → P b) → rtc step c c' → P c'.
Proof. intros Hc Hstep Hrtc. induction Hrtc; eauto. Qed.

Lemma step_length c c' : step c c' → length (procs c') = length (procs c).
Proof. destruct 1. simpl. by rewrite length_insert. Qed.
End interleave.

Arguments Conf {S L} _ _.
Arguments shared {S L} _.
Arguments procs {S L} _.
Arguments step {S L} next _ _.
Arguments run {S L} next _ _.
Arguments drive {S L} next _ _ _.

(** A property of the shared state alone that every action keeps. *)
Lemma shared_inv {S L : Type} (next : S → L → list (S * L)) (P : S → Prop) c c' :
  P (shared c) →
  (∀ s l s' l', P s → (s', l') ∈ next s l → P s') →
  rtc (step next) c c' → P (shared c').
Proof.
  intros Hc Hn. apply (inv_reachable next (λ c, P (shared c))); [done|].
  intros a b Ha Hab. destruct Hab. simpl in *. eauto.
Qed.

(** A relation between successive shared states that is a preorder. *)
Lemma shared_preorder {S L : Type} (next : S → L → list (S * L)) (R : relation S)
  `{!PreOrder R} c c' :
  (∀ s l s' l', (s', l') ∈ next s l → R s s') →
  rtc (step next) c c' → R (shared c) (shared c').
Proof.
  intros Hn. induction 1 as [|a b d Hab _ IH]; [done|].
  etrans; [|exact IH]. destruct Hab; simpl. eauto.
Qed.

(** ** Termination: a weight of the shared state and of every goroutine that
    each action makes smaller bounds the length of runs. *)
Lemma weight_insert {L : Type} (w : L → nat) (i : nat) l l' ps :
  ps !! i = Some l →
  (sum_list (w <$> <[i:=l']> ps) + w l = sum_list (w <$> ps) + w l')%nat.
Proof.
  revert i. induction ps as [|p ps IH]; intros [|i] Hi; simplify_eq/=; [lia|].
  specialize (IH i Hi). lia.
Qed.

Section runs.
Context {S L : Type} (next : S → L → list (S * L)).
Context (I : @conf S L → Prop) (W : S → nat) (w : L → nat).
Context (I_step : ∀ a b, I a → step next a b → I b).
Context (lighter : ∀ s ps i l s' l', I (Conf s ps) → ps !! i = Some l → (s', l') ∈ next s l →
  (W s' + w l' < W s + w l)%nat).

Definition total_weight (c : conf) : nat := W (shared c) + sum_list (w <$> procs c).

Lemma step_total c c' : I c → step next c c' → (total_weight c' < total_weight c)%nat.
Proof using lighter.
  intros HI Hs. destruct Hs as [i l s s' l' ps Hi Hn]. unfold total_weight. simpl.
  pose proof (lighter s ps i l s' l' HI Hi Hn). pose proof (weight_insert w i l l' ps Hi). lia.
Qed.

Lemma runs_bounded n c c' :
  I c → nsteps (step next) n c c' → (n + total_weight c' <= total_weight c)%nat.
Proof using I_step lighter.
  intros HI Hn. induction Hn as [|n c c1 c2 Hs _ IH]; [lia|].
  pose proof (step_total c c1 HI Hs). specialize (IH (I_step _ _ HI Hs)). lia.
Qed.
End runs.
