(* ===== verification/Queue.v ===== *)
(** Package queue: the bounded ring ([src/queue/queue.go]).

    [Ring] is the struct, the [_locked] functions are the critical sections
    the methods run under [r.mu], [Push], [Pop], ... the methods called one at
    a time, and [next] the methods run by any number of goroutines, one atomic
    action (a critical section, a channel operation, a callback) per step. *)
From S2P Require Import Prelude Interleave.

Local Open Scope Z_scope.

Inductive Policy := Reject | DropOldest.

#[export] Instance Policy_eq_dec : EqDecision Policy.
Proof. solve_decision. Defined.

Record Stats := mkStats {
  Len : Z;
  Pushed : Z;
  Popped : Z;
  Dropped : Z;
  Rejected : Z }.

Section queue.
Context {T : Type} (zero : T).
Implicit Types v : T.

(** [notEmpty] and [notFull] are channels of capacity one that carry no data:
    a boolean says whether the slot is taken. [done] says whether the channel
    has been closed. [onDrop] says whether the callback is non-nil. *)
Record Ring := mkRing {
  items : list T;
  mask : Z;
  head : Z;
  n : Z;
  closed : bool;
  policy : Policy;
  onDrop : bool;
  notEmpty : bool;
  notFull : bool;
  done : bool;
  stats : Stats }.

Record Options := mkOptions {
  Cap : Z;
  opt_policy : Policy;
  opt_onDrop : bool }.

(** [New] panics ([None]) on a non-positive capacity. *)
Definition New (o : Options) : option Ring :=
  if Cap o <=? 0 then None
  else
    size ← pow2_ceil (Cap o);
    Some {| items := replicate (Z.to_nat size) zero; mask := size - 1; head := 0; n := 0;
            closed := false; policy := opt_policy o; onDrop := opt_onDrop o;
            notEmpty := false; notFull := false; done := false;
            stats := mkStats 0 0 0 0 0 |}.

Definition len_items (r : Ring) : Z := Z.of_nat (length (items r)).

(** Slice accesses: [None] is Go's index-out-of-range panic. *)
Definition load_item (r : Ring) (i : Z) : option T :=
  if bool_decide (0 <= i < len_items r) then items r !! Z.to_nat i else None.

Definition store_item (r : Ring) (i : Z) (v : T) : option (list T) :=
  if bool_decide (0 <= i < len_items r) then Some (<[Z.to_nat i := v]> (items r)) else None.

Definition set_signals (r : Ring) (ne nf dn : bool) : Ring :=
  mkRing (items r) (mask r) (head r) (n r) (closed r) (policy r) (onDrop r) ne nf dn (stats r).

Definition set_stats (r : Ring) (s : Stats) : Ring :=
  mkRing (items r) (mask r) (head r) (n r) (closed r) (policy r) (onDrop r)
    (notEmpty r) (notFull r) (done r) s.

Definition set_window (r : Ring) (it : list T) (h k : Z) : Ring :=
  mkRing it (mask r) h k (closed r) (policy r) (onDrop r)
    (notEmpty r) (notFull r) (done r) (stats r).

Definition count_pushed (s : Stats) : Stats :=
  mkStats (Len s) (u64 (Pushed s + 1)) (Popped s) (Dropped s) (Rejected s).
Definition count_popped (s : Stats) : Stats :=
  mkStats (Len s) (Pushed s) (u64 (Popped s + 1)) (Dropped s) (Rejected s).
Definition count_dropped (k : Z) (s : Stats) : Stats :=
  mkStats (Len s) (Pushed s) (Popped s) (u64 (Dropped s + k)) (Rejected s).
Definition count_rejected (s : Stats) : Stats :=
  mkStats (Len s) (Pushed s) (Popped s) (Dropped s) (u64 (Rejected s + 1)).

(** [signal]: a send that is dropped when the slot is taken. *)
Definition signal_notEmpty (r : Ring) : Ring := set_signals r true (notFull r) (done r).
Definition signal_notFull (r : Ring) : Ring := set_signals r (notEmpty r) true (done r).

Definition popLocked (r : Ring) : option (T * Ring) :=
  v ← load_item r (head r);
  it ← store_item r (head r) zero;
  Some (v, set_window r it (Z.land (i64 (head r + 1)) (mask r)) (n r - 1)).

(** [r.items[(r.head+r.n)&r.mask] = v; r.n++; r.stats.Pushed++]. *)
Definition putLocked (r : Ring) (v : T) : option Ring :=
  it ← store_item r (Z.land (i64 (head r + n r)) (mask r)) v;
  Some (set_stats (set_window r it (head r) (n r + 1)) (count_pushed (stats r))).

(** Outcome of the critical section of [Push]. *)
Inductive push_res := Refused | Accepted (evicted : option T).

Definition push_locked (r : Ring) (v : T) : option (Ring * push_res) :=
  if closed r then Some (set_stats r (count_rejected (stats r)), Refused)
  else if n r =? len_items r then
    match policy r with
    | Reject => Some (set_stats r (count_rejected (stats r)), Refused)
    | DropOldest =>
        '(d, r1) ← popLocked r;
        r2 ← putLocked (set_stats r1 (count_dropped 1 (stats r1))) v;
        Some (r2, Accepted (Some d))
    end
  else r1 ← putLocked r v; Some (r1, Accepted None).

(** The calls to [OnDrop] that discarding [ds] makes. *)
Definition drop_calls (r : Ring) (ds : list T) : list T := if onDrop r then ds else [].

Definition Push (r : Ring) (v : T) : option (Ring * bool * list T) :=
  '(r1, res) ← push_locked r v;
  match res with
  | Refused => Some (r1, false, [])
  | Accepted d => Some (signal_notEmpty r1, true, drop_calls r1 (option_list d))
  end.

(** Critical section of [Pop]: the item and [more], or [None] when empty. *)
Definition pop_locked (r : Ring) : option (Ring * option (T * bool)) :=
  if n r =? 0 then Some (r, None)
  else
    '(v, r1) ← popLocked r;
    Some (set_stats r1 (count_popped (stats r1)), Some (v, bool_decide (0 < n r1))).

Definition Pop (r : Ring) : option (Ring * option T) :=
  '(r1, res) ← pop_locked r;
  match res with
  | None => Some (r1, None)
  | Some (v, more) =>
      let r2 := signal_notFull r1 in
      Some (if more : bool then signal_notEmpty r2 else r2, Some v)
  end.

(** Critical section of one turn of [PushWait]. *)
Inductive pushwait_res := PwClosed | PwDone (more : bool) | PwFull.

Definition pushwait_locked (r : Ring) (v : T) : option (Ring * pushwait_res) :=
  if closed r then Some (set_stats r (count_rejected (stats r)), PwClosed)
  else if n r <? len_items r then
    r1 ← putLocked r v; Some (r1, PwDone (bool_decide (n r1 < len_items r1)))
  else Some (r, PwFull).

(** Critical section of [Close]: whether this call is the one that closes. *)
Definition close_locked (r : Ring) : Ring * bool :=
  if closed r then (r, false)
  else (mkRing (items r) (mask r) (head r) (n r) true (policy r) (onDrop r)
          (notEmpty r) (notFull r) (done r) (stats r), true).

(** [close(r.done)]: [None] is Go's panic on closing a closed channel. *)
Definition close_done (r : Ring) : option Ring :=
  if done r then None else Some (set_signals r (notEmpty r) (notFull r) true).

Definition Close (r : Ring) : option Ring :=
  let '(r1, first) := close_locked r in if first then close_done r1 else Some r1.

(** [for r.n > 0 { items = append(items, r.popLocked()) }]; the fuel is the
    count the loop starts from. *)
Fixpoint drain_loop (fuel : nat) (r : Ring) (acc : list T) : option (Ring * list T) :=
  if 0 <? n r then
    match fuel with
    | O => None
    | S f => '(v, r1) ← popLocked r; drain_loop f r1 (acc ++ [v])
    end
  else Some (r, acc).

Definition drain_locked (r : Ring) : option (Ring * list T) :=
  '(r1, ds) ← drain_loop (Z.to_nat (n r)) r [];
  Some (set_stats r1 (count_dropped (Z.of_nat (length ds)) (stats r1)), ds).

Definition Drain (r : Ring) : option (Ring * Z * list T) :=
  '(r1, ds) ← drain_locked r;
  Some (r1, Z.of_nat (length ds), drop_calls r1 ds).

Definition ring_len (r : Ring) : Z := n r.
Definition ring_cap (r : Ring) : Z := len_items r.
Definition ring_stats (r : Ring) : Stats :=
  let s := stats r in mkStats (n r) (Pushed s) (Popped s) (Dropped s) (Rejected s).

(** * Well-formedness and contents *)

Record wf (r : Ring) : Prop := {
  wf_pow : ∃ k, 0 <= k <= 62 ∧ len_items r = 2 ^ k ∧ mask r = 2 ^ k - 1;
  wf_head : 0 <= head r < len_items r;
  wf_n : 0 <= n r <= len_items r;
  wf_zero : ∀ i, n r <= i < len_items r →
              items r !! Z.to_nat ((head r + i) mod len_items r) = Some zero }.

(** The queued items, oldest first. *)
Definition slot (r : Ring) (i : Z) : nat := Z.to_nat ((head r + i) mod len_items r).
Definition contents (r : Ring) : list T :=
  (λ i, default zero (items r !! slot r i)) <$> seqZ 0 (n r).
(** Two positions of the window never share a slot. *)
Lemma mod_window_inj (c h i j : Z) :
  0 <= i < c → 0 <= j < c → (h + i) mod c = (h + j) mod c → i = j.
Proof.
  intros Hi Hj Heq.
  pose proof (Z.div_mod (h + i) c ltac:(lia)) as H1.
  pose proof (Z.div_mod (h + j) c ltac:(lia)) as H2.
  assert (Hd : i - j = c * ((h + i) / c - (h + j) / c)) by lia.
  set (q := (h + i) / c - (h + j) / c) in *.
  assert (q = 0 ∨ 1 <= q ∨ q <= -1) as [->|[|]] by lia; nia.
Qed.

Lemma len_items_pos (r : Ring) : wf r → 0 < len_items r < 2 ^ 63.
Proof.
  intros [(k & Hk & -> & _) _ _ _]. split; [lia|]. apply Z.pow_lt_mono_r; lia.
Qed.

Lemma mask_index (r : Ring) (a : Z) :
  wf r → Z.land a (mask r) = a mod len_items r.
Proof. intros [(k & Hk & -> & ->) _ _ _]. apply land_mask. lia. Qed.

Lemma slot_lt (r : Ring) i : wf r → (slot r i < length (items r))%nat.
Proof.
  intros Hwf. pose proof (len_items_pos r Hwf). unfold slot, len_items in *.
  pose proof (Z.mod_pos_bound (head r + i) (Z.of_nat (length (items r)))). lia.
Qed.

Lemma slot_inj (r : Ring) i j :
  wf r → 0 <= i < len_items r → 0 <= j < len_items r → slot r i = slot r j → i = j.
Proof.
  intros Hwf Hi Hj. pose proof (len_items_pos r Hwf).
  pose proof (Z.mod_pos_bound (head r + i) (len_items r)).
  pose proof (Z.mod_pos_bound (head r + j) (len_items r)).
  unfold slot. intros Heq. apply (mod_window_inj (len_items r) (head r)); lia.
Qed.

Lemma slot_0 (r : Ring) : wf r → slot r 0 = Z.to_nat (head r).
Proof.
  intros Hwf. unfold slot. rewrite Z.add_0_r, Z.mod_small; [done|apply Hwf].
Qed.

Lemma contents_length (r : Ring) : wf r → Z.of_nat (length (contents r)) = n r.
Proof.
  intros [_ _ Hn _]. unfold contents. rewrite length_fmap, length_seqZ. lia.
Qed.

Lemma contents_nil (r : Ring) : n r = 0 → contents r = [].
Proof. unfold contents. by intros ->. Qed.

(** Storing [v] behind the window appends it. *)
Lemma putLocked_spec (r : Ring) v :
  wf r → n r < len_items r →
  ∃ it, putLocked r v = Some (set_stats (set_window r it (head r) (n r + 1))
                                (count_pushed (stats r)))
    ∧ length it = length (items r)
    ∧ wf (set_window r it (head r) (n r + 1))
    ∧ contents (set_window r it (head r) (n r + 1)) = contents r ++ [v].
Proof.
  intros Hwf Hlt. pose proof (len_items_pos r Hwf) as Hpos.
  pose proof (wf_head r Hwf). pose proof (wf_n r Hwf).
  pose proof (Z.mod_pos_bound (head r + n r) (len_items r) ltac:(lia)).
  exists (<[slot r (n r) := v]> (items r)).
  assert (Hlen : length (<[slot r (n r) := v]> (items r)) = length (items r)).
  { by rewrite length_insert. }
  split; [|split; [done|split]].
  - unfold putLocked, store_item. rewrite mask_index by done.
    rewrite i64_small by (unfold in_i64; destruct (wf_pow r Hwf) as (k & ? & Hk & _);
      pose proof (Z.pow_le_mono_r 2 k 62); lia).
    by rewrite bool_decide_eq_true_2 by lia.
  - split; simpl.
    + destruct (wf_pow r Hwf) as (k & ? & ? & ?). exists k.
      unfold len_items in *. simpl. rewrite Hlen. auto.
    + unfold len_items in *. simpl. rewrite Hlen. lia.
    + unfold len_items in *. simpl. rewrite Hlen. lia.
    + intros i Hi. unfold len_items in Hi |- *. simpl in *. rewrite Hlen in *.
      rewrite list_lookup_insert_ne; [apply (wf_zero r Hwf); unfold len_items; lia|].
      intros Heq. apply (slot_inj r) in Heq; [lia|done|unfold len_items; lia..].
  - unfold contents. simpl. rewrite seqZ_app by lia. rewrite fmap_app. f_equal.
    + apply list_fmap_ext. intros j i Hj. apply lookup_seqZ in Hj as [-> Hj].
      unfold slot at 1, len_items. simpl. rewrite Hlen.
      rewrite list_lookup_insert_ne; [done|].
      intros Heq. apply (slot_inj r) in Heq; [lia|done|lia..].
    + simpl. unfold slot at 1, len_items. simpl. rewrite Hlen.
      rewrite list_lookup_insert_eq; [done|]. by apply slot_lt.
Qed.

(** Removing at the head yields the oldest item and zeroes its slot. *)
Lemma popLocked_spec (r : Ring) :
  wf r → 0 < n r →
  ∃ v it h, popLocked r = Some (v, set_window r it h (n r - 1))
    ∧ length it = length (items r)
    ∧ wf (set_window r it h (n r - 1))
    ∧ contents r = v :: contents (set_window r it h (n r - 1)).
Proof.
  intros Hwf Hlt. pose proof (len_items_pos r Hwf) as Hpos.
  pose proof (wf_head r Hwf) as Hh. pose proof (wf_n r Hwf).
  assert (Hlk : is_Some (items r !! Z.to_nat (head r))).
  { apply lookup_lt_is_Some. unfold len_items in *. lia. }
  destruct Hlk as [v Hv].
  set (it := <[Z.to_nat (head r) := zero]> (items r)).
  set (h := (head r + 1) mod len_items r).
  assert (Hlen : length it = length (items r)) by apply length_insert.
  assert (Hslot : ∀ i, Z.to_nat ((h + i) mod len_items r) = slot r (i + 1)).
  { intros i. unfold h, slot. f_equal. rewrite Zplus_mod_idemp_l. f_equal. lia. }
  exists v, it, h. split; [|split; [done|split]].
  - unfold popLocked, load_item, store_item.
    rewrite !bool_decide_eq_true_2 by lia. simpl. rewrite Hv. simpl.
    rewrite mask_index by done. unfold h. rewrite i64_small; [done|].
    unfold in_i64. destruct (wf_pow r Hwf) as (k & ? & Hk & _).
    pose proof (Z.pow_le_mono_r 2 k 62). lia.
  - split; simpl; unfold len_items in *; simpl; rewrite ?Hlen.
    + destruct (wf_pow r Hwf) as (k & ? & ? & ?). exists k.
      unfold len_items in *; simpl; rewrite ?Hlen. auto.
    + unfold h. apply Z.mod_pos_bound. lia.
    + lia.
    + intros i Hi. rewrite Hslot. unfold it.
      destruct (decide (i = Z.of_nat (length (items r)) - 1)) as [->|].
      * replace (slot r _) with (Z.to_nat (head r)).
        { apply list_lookup_insert_eq. lia. }
        unfold slot, len_items. f_equal.
        replace (head r + _) with (head r + 1 * Z.of_nat (length (items r))) by lia.
        rewrite Z.mod_add, Z.mod_small; lia.
      * rewrite list_lookup_insert_ne; [apply (wf_zero r Hwf); unfold len_items; lia|].
        rewrite <- slot_0 by done. intros Heq.
        apply (slot_inj r) in Heq; [lia|done|unfold len_items; lia..].
  - unfold contents at 1. rewrite seqZ_cons by lia. simpl.
    rewrite slot_0, Hv by done. simpl. f_equal.
    unfold contents. simpl. replace (Z.succ 0) with 1 by lia.
    replace (Z.pred (n r)) with (n r - 1) by lia.
    rewrite <- (fmap_add_seqZ 1 0), <- list_fmap_compose.
    apply list_fmap_ext. intros j i Hj. apply lookup_seqZ in Hj as [-> Hj]. simpl.
    f_equal. unfold slot at 2, len_items. simpl. rewrite Hlen, Hslot.
    unfold it. rewrite list_lookup_insert_ne; [f_equal; f_equal; lia|].
    rewrite <- slot_0 by done. intros Heq.
    apply (slot_inj r) in Heq; [lia|done|lia..].
Qed.

(** * The abstract bounded queue *)

Record Spec := mkSpec {
  q : list T;
  cap : Z;
  sclosed : bool;
  spolicy : Policy;
  sonDrop : bool }.

Definition abs (r : Ring) : Spec :=
  mkSpec (contents r) (len_items r) (closed r) (policy r) (onDrop r).

Definition set_q (s : Spec) (l : list T) : Spec :=
  mkSpec l (cap s) (sclosed s) (spolicy s) (sonDrop s).

Definition is_full (s : Spec) : bool := bool_decide (Z.of_nat (length (q s)) = cap s).

Definition spec_push (s : Spec) (v : T) : Spec * push_res :=
  if sclosed s then (s, Refused)
  else if is_full s then
    match spolicy s, q s with
    | Reject, _ => (s, Refused)
    | DropOldest, d :: rest => (set_q s (rest ++ [v]), Accepted (Some d))
    | DropOldest, [] => (s, Refused)
    end
  else (set_q s (q s ++ [v]), Accepted None).

Definition spec_pop (s : Spec) : Spec * option (T * bool) :=
  match q s with
  | [] => (s, None)
  | v :: rest => (set_q s rest, Some (v, negb (bool_decide (length rest = 0%nat))))
  end.

Definition spec_pushwait (s : Spec) (v : T) : Spec * pushwait_res :=
  if sclosed s then (s, PwClosed)
  else if is_full s then (s, PwFull)
  else let s' := set_q s (q s ++ [v]) in (s', PwDone (negb (is_full s'))).

Definition spec_close (s : Spec) : Spec :=
  mkSpec (q s) (cap s) true (spolicy s) (sonDrop s).

(** Channel state is untouched by a critical section. *)
Definition same_chans (r r' : Ring) : Prop :=
  notEmpty r' = notEmpty r ∧ notFull r' = notFull r ∧ done r' = done r.

Lemma wf_set_stats r s : wf r → wf (set_stats r s).
Proof. intros []. by split. Qed.

Lemma wf_set_signals r a b c : wf r → wf (set_signals r a b c).
Proof. intros []. by split. Qed.

Lemma wf_close r : wf r → wf (close_locked r).1.
Proof. intros []. unfold close_locked. destruct (closed r); by split. Qed.

Lemma is_full_abs r : wf r → is_full (abs r) = (n r =? len_items r).
Proof.
  intros Hwf. unfold is_full. simpl. rewrite contents_length by done.
  bool_cases; lia.
Qed.

Lemma abs_window r it h k :
  length it = length (items r) →
  abs (set_window r it h k) = set_q (abs r) (contents (set_window r it h k)).
Proof. intros H. unfold abs, set_q, len_items. simpl. by rewrite H. Qed.

(** Closes the goals of a critical section that only counts. *)
Ltac locked_done :=
  eexists; split; [done|split; [done|split; [by auto using wf_set_stats|done]]].

Lemma push_locked_spec r v :
  wf r →
  ∃ r', push_locked r v = Some (r', (spec_push (abs r) v).2)
    ∧ abs r' = (spec_push (abs r) v).1 ∧ wf r' ∧ same_chans r r'.
Proof.
  intros Hwf. unfold push_locked, spec_push. rewrite is_full_abs by done. simpl.
  destruct (closed r); [locked_done|].
  pose proof (len_items_pos r Hwf) as Hpos. pose proof (wf_n r Hwf).
  destruct (Z.eqb_spec (n r) (len_items r)) as [Heq|Hne].
  - destruct (policy r); [locked_done|].
    destruct (popLocked_spec r Hwf) as (d & it & h & -> & Hl & Hwf1 & Hc); [lia|]. simpl.
    set (r1 := set_stats _ _).
    destruct (putLocked_spec r1 v) as (it' & -> & Hl' & Hwf2 & Hc2).
    { by apply wf_set_stats. }
    { unfold r1, len_items in *. simpl. lia. }
    simpl. rewrite Hc. eexists; split; [done|]. split; [|split; [|done]].
    + change (contents r1) with (contents (set_window r it h (n r - 1))) in Hc2.
      unfold abs, set_q. simpl. f_equal; [exact Hc2|].
      unfold len_items in *. simpl in *. lia.
    + by apply wf_set_stats.
  - destruct (putLocked_spec r v Hwf) as (it & -> & Hl & Hwf1 & Hc); [lia|]. simpl.
    eexists; split; [done|]. split; [|split; [by apply wf_set_stats|done]].
    rewrite <- Hc. by rewrite <- abs_window.
Qed.

Lemma pushwait_locked_spec r v :
  wf r →
  ∃ r', pushwait_locked r v = Some (r', (spec_pushwait (abs r) v).2)
    ∧ abs r' = (spec_pushwait (abs r) v).1 ∧ wf r' ∧ same_chans r r'.
Proof.
  intros Hwf. unfold pushwait_locked, spec_pushwait. rewrite is_full_abs by done. simpl.
  destruct (closed r); [locked_done|].
  pose proof (wf_n r Hwf).
  destruct (Z.ltb_spec (n r) (len_items r)), (Z.eqb_spec (n r) (len_items r)); try lia;
    [|by locked_done].
  destruct (putLocked_spec r v Hwf) as (it & -> & Hl & Hwf1 & Hc); [lia|]. simpl.
  rewrite <- Hc, <- abs_window, is_full_abs by done. eexists; split.
  - do 3 f_equal. pose proof (wf_n _ Hwf1). unfold len_items in *. simpl in *.
    bool_cases; simpl; try done; lia.
  - split; [done|split; [by apply wf_set_stats|done]].
Qed.

Lemma pop_locked_spec r :
  wf r →
  ∃ r', pop_locked r = Some (r', (spec_pop (abs r)).2)
    ∧ abs r' = (spec_pop (abs r)).1 ∧ wf r' ∧ same_chans r r'.
Proof.
  intros Hwf. unfold pop_locked, spec_pop. simpl. pose proof (wf_n r Hwf).
  destruct (Z.eqb_spec (n r) 0) as [Hz|Hz].
  - rewrite contents_nil by done. locked_done.
  - destruct (popLocked_spec r Hwf) as (v & it & h & -> & Hl & Hwf1 & Hc); [lia|].
    rewrite Hc. simpl. rewrite <- abs_window by done. eexists; split.
    + do 4 f_equal. pose proof (contents_length _ Hwf1) as Hn. simpl in Hn.
      repeat case_bool_decide; simpl; try done; lia.
    + split; [done|split; [by apply wf_set_stats|done]].
Qed.

Lemma drain_loop_spec (fuel : nat) r acc :
  wf r → n r <= Z.of_nat fuel →
  ∃ it h, drain_loop fuel r acc = Some (set_window r it h 0, acc ++ contents r)
    ∧ wf (set_window r it h 0) ∧ length it = length (items r).
Proof.
  revert r acc. induction fuel as [|f IH]; intros r acc Hwf Hf;
    pose proof (wf_n r Hwf); simpl.
  - destruct (Z.ltb_spec 0 (n r)); [lia|]. assert (Hn : n r = 0) by lia.
    exists (items r), (head r). rewrite contents_nil, app_nil_r by done.
    destruct r; simpl in *; subst. eauto.
  - destruct (Z.ltb_spec 0 (n r)).
    + destruct (popLocked_spec r Hwf) as (v & it & h & -> & Hl & Hwf1 & Hc); [lia|].
      simpl. destruct (IH _ (acc ++ [v]) Hwf1) as (it' & h' & -> & ? & ?); [simpl; lia|].
      exists it', h'. rewrite Hc, <- app_assoc. simpl in *. eauto with congruence.
    + assert (Hn : n r = 0) by lia. exists (items r), (head r).
      rewrite contents_nil, app_nil_r by done. destruct r; simpl in *; subst. eauto.
Qed.

Lemma drain_locked_spec r :
  wf r →
  ∃ r', drain_locked r = Some (r', contents r)
    ∧ abs r' = set_q (abs r) [] ∧ wf r' ∧ same_chans r r'.
Proof.
  intros Hwf. unfold drain_locked. pose proof (wf_n r Hwf).
  destruct (drain_loop_spec (Z.to_nat (n r)) r [] Hwf) as (it & h & -> & ? & Hl); [lia|].
  simpl. eexists; split; [done|]. split; [|split; [by apply wf_set_stats|done]].
  by rewrite <- (contents_nil (set_window r it h 0)), <- abs_window.
Qed.

(** * Methods called one at a time *)

Inductive op := OPush (v : T) | OPop | OClose | ODrain | OLen.
Inductive out :=
  | RPush (ok : bool) (drops : list T)
  | RPop (v : option T)
  | RClose
  | RDrain (k : Z) (drops : list T)
  | RLen (k : Z).

Definition exec (r : Ring) (o : op) : option (Ring * out) :=
  match o with
  | OPush v => '(r', ok, ds) ← Push r v; Some (r', RPush ok ds)
  | OPop => '(r', v) ← Pop r; Some (r', RPop v)
  | OClose => r' ← Close r; Some (r', RClose)
  | ODrain => '(r', k, ds) ← Drain r; Some (r', RDrain k ds)
  | OLen => Some (r, RLen (ring_len r))
  end.

Fixpoint exec_all (r : Ring) (os : list op) : option (Ring * list out) :=
  match os with
  | [] => Some (r, [])
  | o :: rest =>
      '(r1, x) ← exec r o; '(r2, xs) ← exec_all r1 rest; Some (r2, x :: xs)
  end.

Definition spec_drops (s : Spec) (ds : list T) : list T := if sonDrop s then ds else [].

Definition spec_exec (s : Spec) (o : op) : Spec * out :=
  match o with
  | OPush v =>
      match spec_push s v with
      | (s', Refused) => (s', RPush false [])
      | (s', Accepted d) => (s', RPush true (spec_drops s (option_list d)))
      end
  | OPop => let '(s', x) := spec_pop s in (s', RPop (fst <$> x))
  | OClose => (spec_close s, RClose)
  | ODrain => (set_q s [], RDrain (Z.of_nat (length (q s))) (spec_drops s (q s)))
  | OLen => (s, RLen (Z.of_nat (length (q s))))
  end.

Fixpoint spec_exec_all (s : Spec) (os : list op) : Spec * list out :=
  match os with
  | [] => (s, [])
  | o :: rest =>
      let '(s1, x) := spec_exec s o in
      let '(s2, xs) := spec_exec_all s1 rest in (s2, x :: xs)
  end.

Lemma spec_push_onDrop s v : sonDrop (spec_push s v).1 = sonDrop s.
Proof.
  unfold spec_push. repeat case_match; done.
Qed.

Lemma abs_set_signals r a b c : abs (set_signals r a b c) = abs r.
Proof. done. Qed.

(** Only [Close] closes [r.done], and it has set [r.closed] before. *)
Definition done_closed (r : Ring) : Prop := done r = true → closed r = true.

Lemma done_closed_locked r r' :
  done_closed r → same_chans r r' → sclosed (abs r') = sclosed (abs r) → done_closed r'.
Proof. unfold done_closed, same_chans. simpl. intros H (_ & _ & ->) ->. done. Qed.

Lemma spec_closed s v :
  sclosed (spec_push s v).1 = sclosed s ∧ sclosed (spec_pop s).1 = sclosed s.
Proof. unfold spec_push, spec_pop. split; repeat case_match; done. Qed.

Lemma exec_refines r o :
  wf r → done_closed r →
  ∃ r', exec r o = Some (r', (spec_exec (abs r) o).2)
    ∧ abs r' = (spec_exec (abs r) o).1 ∧ wf r' ∧ done_closed r'.
Proof.
  intros Hwf Hdc. destruct (spec_closed (abs r) zero) as [_ Hspop].
  destruct o as [v| | | |]; simpl.
  - unfold Push. destruct (push_locked_spec r v Hwf) as (r' & -> & Habs & Hwf' & Hch).
    pose proof (spec_push_onDrop (abs r) v) as Hod. rewrite <- Habs in Hod. simpl in *.
    assert (done_closed r').
    { eapply done_closed_locked; [done..|]. rewrite Habs. apply spec_closed. }
    destruct (spec_push (abs r) v) as [s' [|d]]; simpl in *; [by eauto|].
    unfold drop_calls, spec_drops. rewrite Hod. simpl.
    eexists; split; [done|]. split; [done|split; [by apply wf_set_signals|done]].
  - unfold Pop. destruct (pop_locked_spec r Hwf) as (r' & -> & Habs & Hwf' & Hch).
    assert (done_closed r').
    { eapply done_closed_locked; [done..|]. by rewrite Habs. }
    simpl. destruct (spec_pop (abs r)) as [s' [[v more]|]]; simpl in *; [|by eauto].
    eexists; split; [done|].
    destruct more; (split; [done|split; [by repeat apply wf_set_signals|done]]).
  - unfold Close, close_locked, close_done, spec_close, done_closed, abs in *. simpl.
    destruct (closed r) eqn:Hc; simpl; [eexists; split; [done|]; by rewrite Hc|].
    destruct (done r); [naive_solver|]. simpl.
    eexists; split; [done|]. split; [done|split; [|done]]. destruct Hwf. by split.
  - unfold Drain. destruct (drain_locked_spec r Hwf) as (r' & -> & Habs & Hwf' & Hch). simpl.
    exists r'. split; [|split; [done|split; [done|]]].
    + unfold drop_calls, spec_drops. simpl.
      by replace (onDrop r') with (onDrop r) by (unfold abs, set_q in Habs; simplify_eq/=; congruence).
    + eapply done_closed_locked; [done..|]. by rewrite Habs.
  - exists r. unfold ring_len. by rewrite contents_length.
Qed.

Lemma exec_all_refines os r :
  wf r → done_closed r →
  ∃ r', exec_all r os = Some (r', (spec_exec_all (abs r) os).2)
    ∧ abs r' = (spec_exec_all (abs r) os).1 ∧ wf r'.
Proof.
  revert r. induction os as [|o os IH]; intros r Hwf Hdc; simpl; [by eauto|].
  destruct (exec_refines r o Hwf Hdc) as (r1 & -> & Habs1 & Hwf1 & Hdc1). simpl.
  destruct (IH r1 Hwf1 Hdc1) as (r2 & -> & Habs2 & Hwf2). simpl.
  rewrite Habs1 in *. destruct (spec_exec (abs r) o) as [s1 x]. simpl in *.
  destruct (spec_exec_all s1 os) as [s2 xs]. simpl in *. eauto.
Qed.

Lemma New_spec (o : Options) :
  0 < Cap o <= 2 ^ 62 →
  ∃ r, New o = Some r ∧ wf r ∧ Cap o <= len_items r < 2 * Cap o
    ∧ abs r = mkSpec [] (len_items r) false (opt_policy o) (opt_onDrop o)
    ∧ notEmpty r = false ∧ notFull r = false ∧ done r = false
    ∧ stats r = mkStats 0 0 0 0 0.
Proof.
  intros Ho. unfold New. destruct (Z.leb_spec (Cap o) 0); [lia|].
  destruct (pow2_ceil_spec (Cap o)) as (k & Hk & -> & Hle & Hlt); [lia|]. simpl.
  assert (0 < 2 ^ k) by (apply Z.pow_pos_nonneg; lia).
  assert (Hlen : Z.of_nat (length (replicate (Z.to_nat (2 ^ k)) zero)) = 2 ^ k).
  { rewrite length_replicate. lia. }
  eexists; split; [done|]. split; [|split; [|done]].
  - split; unfold len_items; simpl; rewrite ?Hlen; [by eauto|lia..|].
    intros i Hi. apply lookup_replicate_2.
    apply Z2Nat.inj_lt; [apply Z.mod_pos_bound; lia|lia|]. apply Z.mod_pos_bound. lia.
  - unfold len_items; simpl; rewrite Hlen. split; [done|].
    destruct Hlt as [? | ->]; [lia|]. change (2 ^ 0) with 1 in *. lia.
Qed.

End queue.

Arguments Ring T : clear implicits.
Arguments Spec T : clear implicits.
Arguments op T : clear implicits.
Arguments out T : clear implicits.
Arguments push_res T : clear implicits.

(** C1: a ring built by [New] behaves, for every sequence of [Push], [Pop],
    [Close], [Drain] and [Len] calls, exactly as a bounded FIFO list with the
    configured overflow policy: every call returns (no index is ever out of
    range, no channel is closed twice), with the result, and the [OnDrop] calls, of the list; the capacity
    is the requested one rounded up by less than a factor of two. *)
Theorem ring_refines_fifo {T : Type} (zero : T) (o : Options) (os : list (op T)) :
  0 < Cap o <= 2 ^ 62 →
  ∃ r0 r' : Ring T,
    New zero o = Some r0 ∧ Cap o <= ring_cap r0 < 2 * Cap o ∧
    let '(s', outs) :=
      spec_exec_all (mkSpec [] (ring_cap r0) false (opt_policy o) (opt_onDrop o)) os in
    exec_all zero r0 os = Some (r', outs) ∧ abs zero r' = s' ∧ wf zero r'.
Proof.
  intros Ho. destruct (New_spec zero o Ho) as (r0 & HN & Hwf & Hcap & Habs & _ & _ & Hd & _).
  destruct (exec_all_refines zero os r0 Hwf) as (r' & He & Ha & Hw);
    [unfold done_closed; congruence|].
  exists r0, r'. split; [done|split; [done|]]. unfold ring_cap. rewrite <- Habs.
  by destruct (spec_exec_all _ os).
Qed.

Lemma ring_refines_fifo_witness :
  ∃ r0 r' : Ring Z,
    New 0 (mkOptions 3 DropOldest true) = Some r0 ∧ 3 <= ring_cap r0 < 6 ∧
    exec_all 0 r0 [OPush 1; OPush 2; OPush 3; OPush 4; OPush 5; OPop; OClose; OPush 6; ODrain]
      = Some (r', [RPush true []; RPush true []; RPush true []; RPush true [];
                   RPush true [1]; RPop (Some 2); RClose; RPush false [];
                   RDrain 3 [3; 4; 5]]).
Proof.
  destruct (ring_refines_fifo 0 (mkOptions 3 DropOldest true)
    [OPush 1; OPush 2; OPush 3; OPush 4; OPush 5; OPop; OClose; OPush 6; ODrain])
    as (r0 & r' & HN & Hc & H); [simpl; lia|].
  exists r0, r'. split; [exact HN|]. split; [exact Hc|].
  vm_compute in HN. injection HN as <-. apply H.
Defined.
