(* ===== verification/QueueConc.v ===== *)
(** Package queue under concurrency ([src/queue/queue.go]).

    Any number of goroutines run any sequences of the ring's methods,
    the blocking [PushWait] and [PopWait] included. A step is one critical
    section, one channel operation or one [OnDrop] call. The history fields
    of [Sh] record, in lock order, what was accepted and removed. *)
From S2P Require Import Prelude Interleave Queue.

Local Open Scope Z_scope.

Section conc.
Context {T : Type} (zero : T).

(** The methods. The flag of a wait says whether its context can end. *)
Inductive call :=
  | CPush (v : T)
  | CPushWait (cancellable : bool) (v : T)
  | CPop
  | CPopWait (cancellable : bool)
  | CClose
  | CDrain
  | CLen.

Inductive ret :=
  | RetPush (ok : bool)
  | RetPushWait (err : option string)
  | RetPop (v : option T)
  | RetPopWait (v : T + string)
  | RetClose
  | RetDrain (k : Z)
  | RetLen (k : Z).

Definition errClosed : string := "queue: closed".
Definition errCtx : string := "context".

(** Program counter of a goroutine inside a method. *)
Inductive pc :=
  | Ready
  | PushSig (evicted : option T)            (* Push: signal(r.notEmpty) *)
  | PushDrop (d : T)                        (* Push: r.onDrop(dropped) *)
  | PwLoop (c : bool) (v : T)               (* PushWait: top of the loop *)
  | PwSig1 (more : bool)                    (* PushWait: signal(r.notEmpty) *)
  | PwSig2                                  (* PushWait: signal(r.notFull) *)
  | PwSelect (c : bool) (v : T)             (* PushWait: select *)
  | PopSig1 (wait : bool) (v : T) (more : bool) (* Pop: signal(r.notFull) *)
  | PopSig2 (wait : bool) (v : T)           (* Pop: signal(r.notEmpty) *)
  | PopLoop (c : bool)                      (* PopWait: top of the loop *)
  | PopCheck (c : bool)                     (* PopWait: closed && n == 0 *)
  | PopSelect (c : bool)                    (* PopWait: select *)
  | CloseDone                               (* Close: close(r.done) *)
  | DrainCalls (ds : list T) (k : Z)        (* Drain: the OnDrop loop *)
  | Crashed.                                (* index out of range, or close of a closed channel *)

Record Local := mkLocal { at_pc : pc; todo : list call; rets : list ret }.

Record Sh := mkSh {
  ring : Ring T;
  accepted : list T;              (* items accepted, in lock order *)
  removed : list (bool * T);      (* items removed, in lock order; true: popped *)
  dropCalls : list T;             (* calls made to OnDrop *)
  openDrain : bool }.             (* Drain has run on a ring not yet closed *)

Definition goto (l : Local) (p : pc) : Local := mkLocal p (todo l) (rets l).
Definition return_ (l : Local) (x : ret) : Local := mkLocal Ready (todo l) (rets l ++ [x]).

Definition on_ring (s : Sh) (r : Ring T) : Sh :=
  mkSh r (accepted s) (removed s) (dropCalls s) (openDrain s).
Definition accept (s : Sh) (v : T) : Sh :=
  mkSh (ring s) (accepted s ++ [v]) (removed s) (dropCalls s) (openDrain s).
Definition remove (s : Sh) (popped : bool) (vs : list T) : Sh :=
  mkSh (ring s) (accepted s) (removed s ++ ((λ v, (popped, v)) <$> vs)) (dropCalls s) (openDrain s).
Definition call_drop (s : Sh) (v : T) : Sh :=
  mkSh (ring s) (accepted s) (removed s) (dropCalls s ++ [v]) (openDrain s).
Definition note_drain (s : Sh) : Sh :=
  mkSh (ring s) (accepted s) (removed s) (dropCalls s) (openDrain s || negb (closed (ring s))).

Definition ret_pop (wait : bool) (v : T) : ret :=
  if wait then RetPopWait (inl v) else RetPop (Some v).

(** The critical section of [Pop], called directly or from [PopWait]. *)
Definition do_pop (s : Sh) (l : Local) (wait : bool) (empty : Local) : list (Sh * Local) :=
  match pop_locked zero (ring s) with
  | None => [(s, goto l Crashed)]
  | Some (r, None) => [(on_ring s r, empty)]
  | Some (r, Some (v, more)) =>
      [(remove (on_ring s r) true [v], goto l (PopSig1 wait v more))]
  end.

(** The first action of a method call. *)
Definition start (s : Sh) (l : Local) (c : call) : list (Sh * Local) :=
  match c with
  | CPush v =>
      match push_locked zero (ring s) v with
      | None => [(s, goto l Crashed)]
      | Some (r, Refused) => [(on_ring s r, return_ l (RetPush false))]
      | Some (r, Accepted d) =>
          [(accept (remove (on_ring s r) false (option_list d)) v, goto l (PushSig d))]
      end
  | CPushWait c v => [(s, goto l (PwLoop c v))]
  | CPop => do_pop s l false (return_ l (RetPop None))
  | CPopWait c => [(s, goto l (PopLoop c))]
  | CClose =>
      let '(r, first) := close_locked (ring s) in
      [(on_ring s r, if first : bool then goto l CloseDone else return_ l RetClose)]
  | CDrain =>
      match drain_locked zero (ring s) with
      | None => [(s, goto l Crashed)]
      | Some (r, ds) =>
          [(remove (on_ring (note_drain s) r) false ds,
            goto l (DrainCalls (if onDrop r then ds else []) (Z.of_nat (length ds))))]
      end
  | CLen => [(s, return_ l (RetLen (ring_len (ring s))))]
  end.

(** A receive from a capacity-one channel. *)
Definition take_notEmpty (r : Ring T) : Ring T := set_signals r false (notFull r) (done r).
Definition take_notFull (r : Ring T) : Ring T := set_signals r (notEmpty r) false (done r).

Definition next (s : Sh) (l : Local) : list (Sh * Local) :=
  let r := ring s in
  match at_pc l with
  | Ready =>
      match todo l with
      | [] => []
      | c :: rest => start s (mkLocal Ready rest (rets l)) c
      end
  | PushSig d =>
      [(on_ring s (signal_notEmpty r),
        match d with
        | Some d => if onDrop r then goto l (PushDrop d) else return_ l (RetPush true)
        | None => return_ l (RetPush true)
        end)]
  | PushDrop d => [(call_drop s d, return_ l (RetPush true))]
  | PwLoop c v =>
      match pushwait_locked r v with
      | None => [(s, goto l Crashed)]
      | Some (r', PwClosed) => [(on_ring s r', return_ l (RetPushWait (Some errClosed)))]
      | Some (r', PwDone more) => [(accept (on_ring s r') v, goto l (PwSig1 more))]
      | Some (r', PwFull) => [(on_ring s r', goto l (PwSelect c v))]
      end
  | PwSig1 more =>
      [(on_ring s (signal_notEmpty r),
        if more then goto l PwSig2 else return_ l (RetPushWait None))]
  | PwSig2 => [(on_ring s (signal_notFull r), return_ l (RetPushWait None))]
  | PwSelect c v =>
      (if notFull r then [(on_ring s (take_notFull r), goto l (PwLoop c v))] else []) ++
      (if done r then [(s, goto l (PwLoop c v))] else []) ++
      (if c then [(s, return_ l (RetPushWait (Some errCtx)))] else [])
  | PopSig1 w v more =>
      [(on_ring s (signal_notFull r),
        if more then goto l (PopSig2 w v) else return_ l (ret_pop w v))]
  | PopSig2 w v => [(on_ring s (signal_notEmpty r), return_ l (ret_pop w v))]
  | PopLoop c => do_pop s l true (goto l (PopCheck c))
  | PopCheck c =>
      [(s, if closed r && (n r =? 0) then return_ l (RetPopWait (inr errClosed))
           else goto l (PopSelect c))]
  | PopSelect c =>
      (if notEmpty r then [(on_ring s (take_notEmpty r), goto l (PopLoop c))] else []) ++
      (if done r then [(s, goto l (PopLoop c))] else []) ++
      (if c then [(s, return_ l (RetPopWait (inr errCtx)))] else [])
  | CloseDone =>
      match close_done r with
      | None => [(s, goto l Crashed)]
      | Some r' => [(on_ring s r', return_ l RetClose)]
      end
  | DrainCalls [] k => [(s, return_ l (RetDrain k))]
  | DrainCalls (d :: ds) k => [(call_drop s d, goto l (DrainCalls ds k))]
  | Crashed => []
  end.

(** A fresh ring and goroutines about to run the given calls. *)
Definition init (r : Ring T) (progs : list (list call)) : conf :=
  Conf (mkSh r [] [] [] false) ((λ cs, mkLocal Ready cs []) <$> progs).

(** * Ring invariant and FIFO order *)

Definition fifo_inv (s : Sh) : Prop :=
  wf zero (ring s) ∧ accepted s = (removed s).*2 ++ contents zero (ring s).

Definition not_crashed (l : Local) : Prop := at_pc l ≠ Crashed.

(** What every critical section leaves alone. *)
Definition same_meta (r r' : Ring T) : Prop :=
  same_chans r r' ∧ closed r' = closed r ∧ len_items r' = len_items r ∧ onDrop r' = onDrop r.

Lemma spec_meta (s s' : Spec T) (r r' : Ring T) :
  abs zero r = s → abs zero r' = s' → same_chans r r' →
  cap s' = cap s → sclosed s' = sclosed s → sonDrop s' = sonDrop s → same_meta r r'.
Proof. intros <- <- ? ? ? ?. by repeat split; try apply H. Qed.

Lemma push_locked_facts r v r' res :
  wf zero r → push_locked zero r v = Some (r', res) →
  wf zero r' ∧ same_meta r r' ∧
  match res with
  | Refused => contents zero r' = contents zero r
  | Accepted d => contents zero r ++ [v] = option_list d ++ contents zero r' ∧ n r <= n r'
  end.
Proof.
  intros Hwf H. destruct (push_locked_spec zero r v Hwf) as (r1 & H1 & Habs & Hwf' & Hch).
  rewrite H in H1. injection H1 as <- ->. split; [done|].
  pose proof (f_equal q Habs) as Hq. simpl in Hq. split.
  - eapply spec_meta; [done|exact Habs|done| | |];
      unfold spec_push; repeat case_match; done.
  - rewrite <- (contents_length zero _ Hwf), <- (contents_length zero _ Hwf'), Hq.
    unfold spec_push, abs. simpl. destruct (closed r); [done|].
    destruct (is_full _); [|simpl; rewrite length_app; by split; [|lia]].
    destruct (policy r); [done|]. destruct (contents zero r); [done|]. simpl.
    rewrite length_app. simpl. split; [done|lia].
Qed.

Lemma pop_locked_facts r r' res :
  wf zero r → pop_locked zero r = Some (r', res) →
  wf zero r' ∧ same_meta r r' ∧
  match res with
  | None => contents zero r = [] ∧ contents zero r' = []
  | Some (v, more) =>
      contents zero r = v :: contents zero r' ∧ (more = false → n r' = 0)
  end.
Proof.
  intros Hwf H. destruct (pop_locked_spec zero r Hwf) as (r1 & H1 & Habs & Hwf' & Hch).
  rewrite H in H1. injection H1 as <- ->. split; [done|].
  pose proof (f_equal q Habs) as Hq. simpl in Hq. split.
  - eapply spec_meta; [done|exact Habs|done| | |];
      unfold spec_pop; repeat case_match; done.
  - pose proof (contents_length zero _ Hwf') as Hn. revert Hq Hn.
    unfold spec_pop, abs. simpl. destruct (contents zero r) as [|? l]; [done|].
    simpl. intros -> Hn. split; [done|]. by destruct l.
Qed.

Lemma pushwait_locked_facts r v r' res :
  wf zero r → pushwait_locked r v = Some (r', res) →
  wf zero r' ∧ same_meta r r' ∧
  match res with
  | PwClosed => contents zero r' = contents zero r ∧ closed r = true
  | PwFull => contents zero r' = contents zero r ∧ n r = len_items r
  | PwDone more =>
      contents zero r' = contents zero r ++ [v] ∧ (more = false → n r' = len_items r')
  end.
Proof.
  intros Hwf H.
  destruct (pushwait_locked_spec zero r v Hwf) as (r1 & H1 & Habs & Hwf' & Hch).
  rewrite H in H1. injection H1 as <- ->. split; [done|].
  pose proof (f_equal q Habs) as Hq. simpl in Hq. split.
  - eapply spec_meta; [done|exact Habs|done| | |];
      unfold spec_pushwait; repeat case_match; done.
  - rewrite Hq. revert Habs. unfold spec_pushwait. simpl.
    destruct (closed r); [done|]. destruct (is_full (abs zero r)) eqn:Hf; simpl.
    + rewrite is_full_abs in Hf by done. apply Z.eqb_eq in Hf. done.
    + intros <-. split; [done|]. rewrite is_full_abs by done.
      intros ?%negb_false_iff. by apply Z.eqb_eq.
Qed.

Lemma drain_locked_facts r r' ds :
  wf zero r → drain_locked zero r = Some (r', ds) →
  wf zero r' ∧ same_meta r r' ∧ contents zero r = ds ∧ contents zero r' = [].
Proof.
  intros Hwf H. destruct (drain_locked_spec zero r Hwf) as (r1 & H1 & Habs & Hwf' & Hch).
  rewrite H in H1. injection H1 as <- ->. split; [done|].
  split; [|split; [done|by apply (f_equal q) in Habs]].
  by eapply spec_meta.
Qed.

Lemma close_locked_facts r r' first :
  wf zero r → close_locked r = (r', first) →
  wf zero r' ∧ contents zero r' = contents zero r ∧
  (same_chans r r' ∧ n r' = n r ∧ len_items r' = len_items r ∧ onDrop r' = onDrop r) ∧
  closed r' = true ∧ closed r = negb first.
Proof.
  intros Hwf H. pose proof (wf_close zero r Hwf) as Hwf'. rewrite H in Hwf'.
  split; [done|]. clear Hwf'. unfold close_locked in H.
  destruct (closed r) eqn:Hc; injection H as <- <-; simpl; by rewrite ?Hc.
Qed.

Lemma locked_total r v :
  wf zero r →
  push_locked zero r v ≠ None ∧ pop_locked zero r ≠ None ∧
  pushwait_locked r v ≠ None ∧ drain_locked zero r ≠ None.
Proof.
  intros Hwf.
  destruct (push_locked_spec zero r v Hwf) as (? & -> & _).
  destruct (pop_locked_spec zero r Hwf) as (? & -> & _).
  destruct (pushwait_locked_spec zero r v Hwf) as (? & -> & _).
  destruct (drain_locked_spec zero r Hwf) as (? & -> & _). done.
Qed.

Lemma close_done_facts (r r' : Ring T) :
  close_done r = Some r' → done r = false ∧ r' = set_signals r (notEmpty r) (notFull r) true.
Proof. unfold close_done. destruct (done r); [done|]. by intros [= <-]. Qed.

Lemma close_done_total (r : Ring T) : done r = false → close_done r ≠ None.
Proof. unfold close_done. by intros ->. Qed.

(** Splits a step of a goroutine into its cases. *)
Ltac next_cases H :=
  unfold next, start, do_pop in H; repeat case_match; inv_elem;
  try match goal with
    | E : close_done _ = Some _ |- _ => apply close_done_facts in E as [? ->]
    end.

(** Brings the facts about the critical section a step ran into context. *)
Ltac locked_facts Hwf :=
  match goal with
  | H : push_locked _ _ _ = Some _ |- _ => apply push_locked_facts in H as (? & ? & ?); [|exact Hwf]
  | H : pop_locked _ _ = Some _ |- _ => apply pop_locked_facts in H as (? & ? & ?); [|exact Hwf]
  | H : pushwait_locked _ _ = Some _ |- _ => apply pushwait_locked_facts in H as (? & ? & ?); [|exact Hwf]
  | H : drain_locked _ _ = Some _ |- _ => apply drain_locked_facts in H as (? & ? & ?); [|exact Hwf]
  | H : close_locked _ = _ |- _ => apply close_locked_facts in H as (? & ? & ?); [|exact Hwf]
  end; destruct_and?.

(** Discharges the cases where a critical section would have panicked. *)
Ltac no_crash Hwf :=
  match goal with
  | H : push_locked _ ?r ?v = None |- _ => by destruct (locked_total r v Hwf) as (? & ? & ? & ?)
  | H : pushwait_locked ?r ?v = None |- _ => by destruct (locked_total r v Hwf) as (? & ? & ? & ?)
  | H : _ ?r = None |- _ => by destruct (locked_total r zero Hwf) as (? & ? & ? & ?)
  end.

Lemma snd_tagged {B} (b : B) (vs : list T) : ((λ v, (b, v)) <$> vs).*2 = vs.
Proof. induction vs; csimpl; congruence. Qed.

Lemma next_fifo s l s' l' :
  fifo_inv s → (s', l') ∈ next s l → fifo_inv s'.
Proof.
  intros [Hwf Ha] H.
  next_cases H; try done; try (locked_facts Hwf);
    split; simpl in *; try done;
    try (by apply wf_set_signals);
    rewrite ?fmap_app, ?snd_tagged, ?Ha, <- ?app_assoc; simpl; try congruence.
  all: replace (contents zero r) with (@nil T) by done; by rewrite app_nil_r; congruence.
Qed.

(** A goroutine on its way to [close(r.done)]. *)
Definition closing (l : Local) : Prop :=
  match at_pc l with CloseDone => True | _ => False end.

Lemma next_not_crashed s l s' l' :
  wf zero (ring s) → (closing l → done (ring s) = false) → (s', l') ∈ next s l → not_crashed l'.
Proof.
  intros Hwf Hcl H. unfold not_crashed, closing in *.
  next_cases H; simpl; try done; try (by repeat case_match); try (no_crash Hwf).
  all: by destruct (close_done_total (ring s)); [apply Hcl|].
Qed.

(** * No lost wake-ups *)

(** A goroutine that will signal [notEmpty], or pop and then signal it, before
    it can block. *)
Definition wakes_consumer (l : Local) : Prop :=
  match at_pc l with
  | PushSig _ | PwSig1 _ | PopSig1 _ _ true | PopSig2 _ _ | PopLoop _ => True
  | _ => False
  end.

Definition wakes_producer (l : Local) : Prop :=
  match at_pc l with
  | PopSig1 _ _ _ | PwSig1 true | PwSig2 | PwLoop _ _ => True
  | _ => False
  end.

Definition waiting_producer (l : Local) : Prop :=
  match at_pc l with PwSelect _ _ => True | _ => False end.

Lemma contents_n (r : Ring T) : wf zero r → n r = Z.of_nat (length (contents zero r)).
Proof. intros. by rewrite contents_length. Qed.

(** Replaces the counters by lengths of contents and closes by arithmetic. *)
Ltac by_lengths :=
  unfold same_meta, same_chans in *; destruct_and?;
  repeat match goal with
    | Hw : wf zero ?r |- _ =>
        lazymatch goal with
        | _ : n r = Z.of_nat (length (contents zero r)) |- _ => fail
        | _ => pose proof (contents_n r Hw)
        end
    | H : contents zero _ = _ |- _ => apply (f_equal length) in H; rewrite ?length_app in H
    | H : contents zero _ ++ _ = _ |- _ => apply (f_equal length) in H; rewrite ?length_app in H
    end; simpl in *.

(** Closes one case of the wake-up lemmas. *)
Ltac wake_goal :=
  repeat match goal with H : ?b = ?b → _ |- _ => specialize (H eq_refl) end;
  try match goal with
    | H : _ || negb _ = false |- _ => apply orb_false_iff in H as [? ?%negb_false_iff]
    end;
  first [ by left | by right; left | right; right; left; congruence
        | repeat first [ right | split ]; first [ tauto | congruence | lia ]
        | exfalso; lia ].

Lemma next_consumer s l s' l' :
  wf zero (ring s) → (s', l') ∈ next s l → 0 < n (ring s') →
  wakes_consumer l' ∨ notEmpty (ring s') = true ∨
  (¬ wakes_consumer l ∧ 0 < n (ring s) ∧ notEmpty (ring s') = notEmpty (ring s)).
Proof.
  intros Hwf H Hn. unfold wakes_consumer.
  next_cases H; simpl in *; try tauto; try (locked_facts Hwf); try (no_crash Hwf);
    repeat match goal with E : at_pc _ = _ |- _ => rewrite E end; simpl;
    try tauto; by_lengths; wake_goal.
Qed.

Lemma next_producer s l s' l' :
  wf zero (ring s) → (s', l') ∈ next s l →
  openDrain s' = false → n (ring s') < len_items (ring s') →
  wakes_producer l' ∨ notFull (ring s') = true ∨ closed (ring s') = true ∨
  (¬ wakes_producer l ∧ ¬ waiting_producer l' ∧ n (ring s) < len_items (ring s) ∧
   notFull (ring s') = notFull (ring s) ∧ closed (ring s') = closed (ring s)).
Proof.
  intros Hwf H Hod Hn. unfold wakes_producer, waiting_producer.
  next_cases H; simpl in *; try tauto; try (locked_facts Hwf); try (no_crash Hwf);
    repeat match goal with E : at_pc _ = _ |- _ => rewrite E end; simpl;
    try tauto; by_lengths; wake_goal.
Qed.

(** The one closer between [r.closed = true] and [close(r.done)]. *)
Definition closers (l : Local) : Z := match at_pc l with CloseDone => 1 | _ => 0 end.
Definition close_phase (r : Ring T) : Z := (if closed r then 1 else 0) - (if done r then 1 else 0).

Lemma closers_range l : 0 <= closers l <= 1.
Proof. unfold closers. case_match; lia. Qed.

Lemma closing_closers l : closing l ↔ 0 < closers l.
Proof. unfold closing, closers. case_match; split; (done || lia). Qed.

Lemma ring_next_closers s l s' l' :
  wf zero (ring s) → (closing l → done (ring s) = false) → (s', l') ∈ next s l →
  closers l' - closers l = close_phase (ring s') - close_phase (ring s).
Proof.
  intros Hwf Hcl H. pose proof (next_not_crashed _ _ _ _ Hwf Hcl H) as Hnc.
  next_cases H; try (locked_facts Hwf);
    unfold closers, closing, not_crashed, close_phase, same_meta, same_chans in *;
    destruct_and?; simpl in *; try done;
    repeat match goal with E : at_pc _ = _ |- _ => rewrite E end; simpl;
    repeat match goal with E : done _ = _ |- _ => rewrite E end;
    repeat match goal with E : closed _ = _ |- _ => rewrite E end; try lia.
Qed.

Lemma next_openDrain s l s' l' :
  (s', l') ∈ next s l → openDrain s' = false → openDrain s = false.
Proof.
  intros H Hod. next_cases H; simpl in *; try done; by apply orb_false_iff in Hod as [? _].
Qed.

Record conc_inv (c : @conf Sh Local) : Prop := {
  ci_fifo : fifo_inv (shared c);
  ci_run : Forall not_crashed (procs c);
  ci_consumer : 0 < n (ring (shared c)) →
    notEmpty (ring (shared c)) = true ∨ Exists wakes_consumer (procs c);
  ci_producer : openDrain (shared c) = false →
    n (ring (shared c)) < len_items (ring (shared c)) →
    Exists waiting_producer (procs c) →
    notFull (ring (shared c)) = true ∨ closed (ring (shared c)) = true ∨
    Exists wakes_producer (procs c);
  ci_close : zsum closers (procs c) = close_phase (ring (shared c)) }.

(** [close(r.done)] is only ahead of a goroutine while it is not done. *)
Lemma closing_open c l :
  zsum closers (procs c) = close_phase (ring (shared c)) → l ∈ procs c → closing l →
  done (ring (shared c)) = false.
Proof.
  intros Hz Hl Hc%closing_closers.
  pose proof (zsum_elem_pos closers (procs c) l ltac:(intros; apply closers_range) Hl).
  unfold close_phase in *. destruct (done _), (closed _); try done; lia.
Qed.

Lemma closed_wakes c :
  conc_inv c → closed (ring (shared c)) = true →
  done (ring (shared c)) = true ∨ Exists closing (procs c).
Proof.
  intros [_ _ _ _ Hz] Hc. destruct (done (ring (shared c))) eqn:Hd; [by left|right].
  destruct (zsum_pos_elem closers (procs c)) as (l & Hl & Hp).
  - intros. apply closers_range.
  - rewrite Hz. unfold close_phase. by rewrite Hc, Hd.
  - apply Exists_exists. exists l. by rewrite closing_closers.
Qed.

Lemma conc_inv_step c c' : conc_inv c → step next c c' → conc_inv c'.
Proof.
  intros [Hf Hr Hc Hp Hd] Hst. destruct Hst as [i l s s' l' ps Hi Hn]. simpl in *.
  pose proof (proj1 Hf) as Hwf.
  pose proof (closing_open (Conf s ps) l Hd (list_elem_of_lookup_2 _ _ _ Hi)) as Hop.
  simpl in Hop. split; simpl.
  - by eapply next_fifo.
  - apply Forall_insert; [done|by eapply next_not_crashed].
  - intros H. destruct (next_consumer _ _ _ _ Hwf Hn H) as [?|[?|(Hl & Hn0 & ->)]].
    + right. by eapply Exists_insert_r.
    + by left.
    + destruct (Hc Hn0) as [?|He]; [by left|].
      destruct (Exists_insert_l _ _ _ _ l' Hi He); [done|by right].
  - intros Hod H Hw.
    destruct (next_producer _ _ _ _ Hwf Hn Hod H) as [?|[?|[?|(Hl & Hl' & Hn0 & -> & ->)]]];
      [right; right; by eapply Exists_insert_r|by auto..|].
    destruct (Exists_insert_inv _ _ _ _ l' Hi Hw) as [|Hw']; [done|].
    destruct (Hp (next_openDrain _ _ _ _ Hn Hod) Hn0 Hw') as [?|[?|He]]; [by auto..|].
    destruct (Exists_insert_l _ _ _ _ l' Hi He); [done|by auto].
  - rewrite (zsum_insert _ _ _ _ _ Hi), Hd.
    pose proof (ring_next_closers _ _ _ _ Hwf Hop Hn). lia.
Qed.

Lemma init_not (P : Local → Prop) (progs : list (list call)) :
  (∀ cs, ¬ P (mkLocal Ready cs [])) → ¬ Exists P ((λ cs, mkLocal Ready cs []) <$> progs).
Proof.
  intros HP [l [Hl Hp]]%Exists_exists. apply list_elem_of_fmap in Hl as (cs & -> & _).
  by apply (HP cs).
Qed.

Lemma conc_inv_init o r progs :
  0 < Cap o <= 2 ^ 62 → New zero o = Some r → conc_inv (init r progs).
Proof.
  intros Ho HN. destruct (New_spec zero o Ho) as (r' & HN' & Hwf & _ & Habs & _ & _ & Hd & _).
  rewrite HN in HN'. injection HN' as <-.
  pose proof (f_equal q Habs) as Hq. pose proof (f_equal sclosed Habs) as Hc. simpl in *.
  assert (n r = 0) as Hz. { by rewrite <- (contents_length zero r Hwf), Hq. }
  split; simpl.
  - split; [done|]. simpl. by rewrite Hq.
  - apply Forall_fmap, Forall_true. done.
  - lia.
  - intros _ _ []%init_not. auto.
  - unfold close_phase. rewrite Hc, Hd. apply zsum_zero.
    by intros l (cs & -> & _)%list_elem_of_fmap.
Qed.

Lemma conc_inv_reachable o r progs c :
  0 < Cap o <= 2 ^ 62 → New zero o = Some r → rtc (step next) (init r progs) c → conc_inv c.
Proof.
  intros Ho HN. apply inv_reachable; [by eapply conc_inv_init|apply conc_inv_step].
Qed.

(** * Discarded items and counters *)

(** Items a goroutine still has to hand to [OnDrop]. *)
Definition pending (l : Local) : list T :=
  match at_pc l with
  | PushSig (Some d) | PushDrop d => [d]
  | DrainCalls ds _ => ds
  | _ => []
  end.

Definition popped_items (s : Sh) : list T := (filter (λ e, e.1 = true) (removed s)).*2.
Definition discarded_items (s : Sh) : list T := (filter (λ e, e.1 = false) (removed s)).*2.

Lemma filter_tagged (b b' : bool) (vs : list T) :
  (filter (λ e, e.1 = b) ((λ v, (b', v)) <$> vs)).*2 = if bool_decide (b = b') then vs else [].
Proof.
  induction vs as [|v vs IH]; csimpl; [by case_bool_decide|].
  rewrite filter_cons. simpl. repeat case_decide; repeat case_bool_decide; csimpl; congruence.
Qed.

Lemma next_drops s l s' l' :
  wf zero (ring s) → onDrop (ring s) = true → (s', l') ∈ next s l →
  onDrop (ring s') = true ∧
  ∃ new, discarded_items s' = discarded_items s ++ new ∧
         dropCalls s' ++ pending l' ≡ₚ dropCalls s ++ pending l ++ new.
Proof.
  intros Hwf Hod H. unfold discarded_items, pending.
  next_cases H; try (locked_facts Hwf); try (no_crash Hwf);
    try match goal with Hm : same_meta _ _ |- _ => destruct Hm as (_ & _ & _ & Hd) end;
    (split; [simpl; congruence|]);
    repeat match goal with E : at_pc _ = _ |- _ => rewrite E end; simpl;
    rewrite ?filter_app, ?fmap_app, ?filter_tagged; simpl; try congruence;
    first
      [ exists []; split; [by rewrite ?app_nil_r|];
        rewrite ?app_nil_r, <- ?app_assoc; done
      | eexists; split; [reflexivity|]; rewrite ?app_nil_r, <- ?app_assoc; done ].
Qed.

Definition drops_inv (c : @conf Sh Local) : Prop :=
  wf zero (ring (shared c)) ∧ onDrop (ring (shared c)) = true ∧
  dropCalls (shared c) ++ (procs c ≫= pending) ≡ₚ discarded_items (shared c).

Lemma drops_inv_step c c' : drops_inv c → step next c c' → drops_inv c'.
Proof.
  intros (Hwf & Hod & Hp) Hst. destruct Hst as [i l s s' l' ps Hi Hn]. simpl in *.
  assert (Hwf' : wf zero (ring s')).
  { clear -Hwf Hn. next_cases Hn; try done; try (locked_facts Hwf); simpl; try done;
      by apply wf_set_signals. }
  destruct (next_drops _ _ _ _ Hwf Hod Hn) as (Hod' & new & Hd & Hperm).
  split; [done|split; [done|]]. simpl. rewrite Hd, <- Hp.
  pose proof (bind_insert_perm pending ps i l l' Hi) as Hb.
  apply (Permutation_app_inv_r (pending l)). rewrite <- !app_assoc, Hb.
  rewrite (Permutation_app_comm (ps ≫= pending)), app_assoc, Hperm. solve_Permutation.
Qed.

(** The counters follow the history modulo their width. *)
Definition tally (s : Sh) : Prop :=
  Pushed (stats (ring s)) = u64 (Z.of_nat (length (accepted s))) ∧
  Popped (stats (ring s)) = u64 (Z.of_nat (length (popped_items s))) ∧
  Dropped (stats (ring s)) = u64 (Z.of_nat (length (discarded_items s))).

Lemma popLocked_stats (r r' : Ring T) v : popLocked zero r = Some (v, r') → stats r' = stats r.
Proof. intros (? & _ & (? & _ & [= _ <-])%bind_Some)%bind_Some. done. Qed.

Lemma putLocked_stats (r r' : Ring T) v :
  putLocked r v = Some r' → stats r' = count_pushed (stats r).
Proof. intros (? & _ & [= <-])%bind_Some. done. Qed.

Lemma push_locked_stats (r r' : Ring T) v res :
  push_locked zero r v = Some (r', res) →
  stats r' = match res with
             | Refused => count_rejected (stats r)
             | Accepted None => count_pushed (stats r)
             | Accepted (Some _) => count_pushed (count_dropped 1 (stats r))
             end.
Proof.
  unfold push_locked. destruct (closed r); [by intros [= <- <-]|].
  destruct (n r =? len_items r); [destruct (policy r); [by intros [= <- <-]|]|].
  - intros ([d r1] & E1%popLocked_stats & (r2 & E2%putLocked_stats & [= <- <-])%bind_Some)%bind_Some.
    simpl in *. congruence.
  - by intros (r2 & E2%putLocked_stats & [= <- <-])%bind_Some.
Qed.

Lemma pop_locked_stats (r r' : Ring T) res :
  pop_locked zero r = Some (r', res) →
  stats r' = match res with Some _ => count_popped (stats r) | None => stats r end.
Proof.
  unfold pop_locked. destruct (n r =? 0); [by intros [= <- <-]|].
  intros ([d r1] & E1%popLocked_stats & [= <- <-])%bind_Some. simpl. congruence.
Qed.

Lemma pushwait_locked_stats (r r' : Ring T) v res :
  pushwait_locked r v = Some (r', res) →
  stats r' = match res with
             | PwClosed => count_rejected (stats r)
             | PwDone _ => count_pushed (stats r)
             | PwFull => stats r
             end.
Proof.
  unfold pushwait_locked. destruct (closed r); [by intros [= <- <-]|].
  destruct (n r <? len_items r); [|by intros [= <- <-]].
  by intros (r1 & E1%putLocked_stats & [= <- <-])%bind_Some.
Qed.

Lemma drain_loop_stats (fuel : nat) (r r' : Ring T) acc ds :
  drain_loop zero fuel r acc = Some (r', ds) → stats r' = stats r.
Proof.
  revert r acc. induction fuel as [|f IH]; intros r acc; simpl; (case_match; [|by intros [= <- _]]).
  - done.
  - intros ([v r1] & E1%popLocked_stats & E2%IH)%bind_Some. congruence.
Qed.

Lemma drain_locked_stats (r r' : Ring T) ds :
  drain_locked zero r = Some (r', ds) →
  stats r' = count_dropped (Z.of_nat (length ds)) (stats r).
Proof.
  intros ([r1 ds1] & E1%drain_loop_stats & [= <- <-])%bind_Some. simpl. congruence.
Qed.

Lemma close_locked_stats (r r' : Ring T) b : close_locked r = (r', b) → stats r' = stats r.
Proof. unfold close_locked. by case_match; intros [= <- _]. Qed.

Lemma next_tally s l s' l' : tally s → (s', l') ∈ next s l → tally s'.
Proof.
  intros (Hpu & Hpo & Hdr) H. unfold tally, popped_items, discarded_items.
  next_cases H; try done;
    try match goal with
      | E : push_locked _ _ _ = Some _ |- _ => apply push_locked_stats in E
      | E : pop_locked _ _ = Some _ |- _ => apply pop_locked_stats in E
      | E : pushwait_locked _ _ = Some _ |- _ => apply pushwait_locked_stats in E
      | E : drain_locked _ _ = Some _ |- _ => apply drain_locked_stats in E
      | E : close_locked _ = _ |- _ => apply close_locked_stats in E
      end; try (destruct evicted); simpl in *;
    repeat match goal with E : stats _ = _ |- _ => rewrite E; clear E end; simpl;
    rewrite ?filter_app, ?fmap_app, ?filter_tagged; simpl;
    rewrite ?app_nil_r, ?length_app, ?Nat2Z.inj_add, ?Hpu, ?Hpo, ?Hdr, ?u64_add_l;
    done.
Qed.

Lemma removed_partition s :
  length (removed s) = (length (popped_items s) + length (discarded_items s))%nat.
Proof.
  unfold popped_items, discarded_items. rewrite !length_fmap.
  induction (removed s) as [|[[] v] l IH]; [done|..]; rewrite !filter_cons;
    repeat case_decide; simpl in *; try done; lia.
Qed.
End conc.

Arguments call T : clear implicits.
Arguments ret T : clear implicits.
Arguments pc T : clear implicits.
Arguments Local T : clear implicits.
Arguments Sh T : clear implicits.
