(* ===== verification/QueueThms.v ===== *)
(** Package queue: theorems about the concurrent ring ([src/queue/queue.go]):
    FIFO order and exactly-once delivery, no lost wake-ups, [OnDrop] and the
    counters, each with a concrete run of three goroutines. *)
From S2P Require Import Prelude Interleave Queue QueueConc.

Local Open Scope Z_scope.

Section theorems.
Context {T : Type} (zero : T).

(** A goroutine with no next action has finished, or sleeps in a [select]
    none of whose cases is ready. *)
Definition asleep (s : Sh T) (l : Local T) : Prop :=
  match at_pc l with
  | Ready => todo l = []
  | PopSelect c => notEmpty (ring s) = false ∧ done (ring s) = false ∧ c = false
  | PwSelect c _ => notFull (ring s) = false ∧ done (ring s) = false ∧ c = false
  | Crashed => True
  | _ => False
  end.

Lemma next_nil s l : next zero s l = [] → asleep s l.
Proof.
  unfold next, asleep. destruct (at_pc l) eqn:Hpc; try done.
  - destruct (todo l) as [|c ?]; [done|]. unfold start, do_pop. by repeat case_match.
  - by repeat case_match.
  - by repeat case_match.
  - unfold do_pop. by repeat case_match.
  - by repeat case_match.
  - by repeat case_match.
  - by destruct ds.
Qed.

Lemma asleep_not_waking s l :
  asleep s l → ¬ wakes_consumer l ∧ ¬ wakes_producer l ∧ ¬ closing l.
Proof. unfold asleep, wakes_consumer, wakes_producer, closing. destruct (at_pc l); tauto. Qed.

Lemma asleep_none s (P : Local T → Prop) ps :
  (∀ l, asleep s l → ¬ P l) → (∀ l, l ∈ ps → next zero s l = []) → ¬ Exists P ps.
Proof.
  intros HP Hq [l [Hl Hw]]%Exists_exists. by apply (HP l); [apply next_nil, Hq|].
Qed.

(** C2: whatever goroutines call [Push], [PushWait], [Pop], [PopWait],
    [Close], [Drain] and [Len] in whatever interleaving, no method panics
    (no index is out of range and [r.done] is closed at most once), the ring
    stays well formed, and the items accepted so far are, in order, the items
    removed so far followed by the items queued: none is lost, duplicated or
    reordered. *)
Theorem concurrent_fifo o r progs c :
  0 < Cap o <= 2 ^ 62 → New zero o = Some r → rtc (step (next zero)) (init r progs) c →
  wf zero (ring (shared c)) ∧
  accepted (shared c) = (removed (shared c)).*2 ++ contents zero (ring (shared c)) ∧
  Forall (λ l, at_pc l ≠ Crashed) (procs c).
Proof.
  intros Ho HN Hr. destruct (conc_inv_reachable zero _ _ _ _ Ho HN Hr) as [[] ? _ _ _]. auto.
Qed.

(** C3: no wake-up is lost. When no goroutine can take another step (and
    [Drain] was only used on a closed ring, as its documentation asks), every
    goroutine has finished its calls, or sleeps in [PopWait] on an empty open
    ring, or sleeps in [PushWait] on a full open ring. *)
Theorem no_lost_wakeup o r progs c :
  0 < Cap o <= 2 ^ 62 → New zero o = Some r → rtc (step (next zero)) (init r progs) c →
  openDrain (shared c) = false →
  (∀ l, l ∈ procs c → next zero (shared c) l = []) →
  ∀ l, l ∈ procs c →
    match at_pc l with
    | Ready => todo l = []
    | PopSelect _ => n (ring (shared c)) = 0 ∧ closed (ring (shared c)) = false
    | PwSelect _ _ =>
        n (ring (shared c)) = ring_cap (ring (shared c)) ∧ closed (ring (shared c)) = false
    | _ => False
    end.
Proof.
  intros Ho HN Hr Hod Hq l Hl.
  pose proof (conc_inv_reachable zero _ _ _ _ Ho HN Hr) as Hinv.
  pose proof (closed_wakes zero c Hinv) as Hd. destruct Hinv as [[Hwf _] Hrun Hc Hp _].
  pose proof (wf_n _ _ Hwf).
  assert (∀ P, (∀ l, asleep (shared c) l → ¬ P l) → ¬ Exists P (procs c)) as Hno.
  { intros P HP. by eapply asleep_none. }
  assert (done (ring (shared c)) = false → closed (ring (shared c)) = false) as Hcl.
  { intros Hd0. apply not_true_iff_false. intros Hc0.
    destruct (Hd Hc0) as [|[]%Hno]; [congruence|]. intros. by eapply asleep_not_waking. }
  pose proof (next_nil _ _ (Hq l Hl)) as Ha. unfold asleep in Ha.
  destruct (at_pc l) eqn:Hpc; try done.
  - destruct Ha as (Hnf & Hd0 & _). split; [|by auto].
    apply Z.le_antisymm; [unfold ring_cap; lia|]. apply Z.nlt_ge. intros Hlt.
    assert (Exists waiting_producer (procs c)) as Hw.
    { apply Exists_exists. exists l. unfold waiting_producer. by rewrite Hpc. }
    destruct (Hp Hod Hlt Hw) as [|[Hc0|[]%Hno]]; [congruence| |].
    + rewrite Hcl in Hc0; done.
    + intros. by eapply asleep_not_waking.
  - destruct Ha as (Hne & Hd0 & _). split; [|by auto].
    destruct (Z.ltb_spec 0 (n (ring (shared c)))) as [Hlt|]; [|lia].
    destruct (Hc Hlt) as [|[]%Hno]; [congruence|]. intros. by eapply asleep_not_waking.
  - by apply (proj1 (Forall_forall _ _) Hrun l Hl).
Qed.

(** C4: with an [OnDrop] callback, the items discarded so far, by eviction
    or by [Drain], are exactly the items [OnDrop] has received plus those that
    some goroutine is about to hand to it. *)
Theorem every_discard_reaches_OnDrop o r progs c :
  0 < Cap o <= 2 ^ 62 → New zero o = Some r → opt_onDrop o = true →
  rtc (step (next zero)) (init r progs) c →
  dropCalls (shared c) ++ (procs c ≫= pending) ≡ₚ discarded_items (shared c).
Proof.
  intros Ho HN Hod Hr.
  apply (inv_reachable (next zero) (drops_inv zero) (init r progs) c); [|apply drops_inv_step|done].
  destruct (New_spec zero o Ho) as (r' & HN' & Hwf & _ & Habs & _).
  rewrite HN in HN'. injection HN' as <-.
  split; [done|]. pose proof (f_equal sonDrop Habs) as Hd. simpl in *.
  split; [congruence|]. unfold discarded_items. simpl.
  clear. by induction progs.
Qed.

(** The counters account for every item: modulo their 64 bits, [Pushed]
    is [Popped] plus [Dropped] plus the current length. *)
Theorem stats_conservation o r progs c :
  0 < Cap o <= 2 ^ 62 → New zero o = Some r → rtc (step (next zero)) (init r progs) c →
  let s := ring_stats (ring (shared c)) in
  Pushed s = u64 (Popped s + Dropped s + Len s).
Proof.
  intros Ho HN Hr.
  destruct (conc_inv_reachable zero _ _ _ _ Ho HN Hr) as [[Hwf Ha] _ _ _ _].
  assert (tally (shared c)) as (Hpu & Hpo & Hdr).
  { apply (shared_inv (next zero) tally (init r progs) c); [|intros; by eapply next_tally|done].
    destruct (New_spec zero o Ho) as (r' & HN' & _ & _ & _ & _ & _ & _ & Hst).
    rewrite HN in HN'. injection HN' as <-. unfold tally. simpl. by rewrite Hst. }
  simpl. rewrite Hpu, Hpo, Hdr, Ha, length_app, length_fmap, removed_partition.
  rewrite <- (contents_length zero _ Hwf), !Nat2Z.inj_add.
  by rewrite u64_add3.
Qed.
End theorems.

(** Three goroutines on a ring of two slots. *)
Definition demo_ring : Ring Z :=
  default (mkRing [] 0 0 0 false Reject true false false false (mkStats 0 0 0 0 0))
    (New 0 (mkOptions 2 DropOldest true)).

Definition demo_progs : list (list (call Z)) :=
  [ [CPushWait false 1; CPushWait false 2; CPushWait false 3; CPushWait false 4]; [CPop]; [CPush 9; CPush 10] ].

(** The producer fills the ring and sleeps; the pop wakes it; two pushes
    evict; the producer sleeps again. *)
Definition demo_sched : list (nat * nat) :=
  (λ i, (i, 0%nat)) <$>
    ([0; 0; 0; 0; 0; 0; 0; 0; 0] ++ [1; 1; 1] ++ [0; 0; 0] ++ [2; 2; 2; 2; 2; 2] ++ [0; 0])%nat.

Definition demo_run : option (@conf (Sh Z) (Local Z)) :=
  run (next 0) demo_sched (init demo_ring demo_progs).

Definition demo_conf : @conf (Sh Z) (Local Z) :=
  Eval vm_compute in default (init demo_ring demo_progs) demo_run.

Lemma queue_demo_reachable : rtc (step (next 0)) (init demo_ring demo_progs) demo_conf.
Proof. apply (run_sound _ demo_sched). reflexivity. Qed.

Lemma concurrent_fifo_witness :
  0 < 2 <= 2 ^ 62 ∧ New 0 (mkOptions 2 DropOldest true) = Some demo_ring ∧
  rtc (step (next 0)) (init demo_ring demo_progs) demo_conf ∧
  accepted (shared demo_conf) =
    (removed (shared demo_conf)).*2 ++ contents 0 (ring (shared demo_conf)) ∧
  accepted (shared demo_conf) = [1; 2; 3; 9; 10].
Proof.
  split; [lia|split; [reflexivity|split; [apply queue_demo_reachable|split; [|reflexivity]]]].
  apply (concurrent_fifo 0 (mkOptions 2 DropOldest true) demo_ring demo_progs demo_conf);
    [simpl; lia|reflexivity|apply queue_demo_reachable].
Defined.

Lemma no_lost_wakeup_witness :
  at_pc <$> (procs demo_conf !! 0%nat) = Some (PwSelect false 4) ∧
  (n (ring (shared demo_conf)) = ring_cap (ring (shared demo_conf)) ∧
   closed (ring (shared demo_conf)) = false).
Proof.
  split; [reflexivity|].
  apply (no_lost_wakeup 0 (mkOptions 2 DropOldest true) demo_ring demo_progs demo_conf)
    with (l := mkLocal (PwSelect false 4) [] [RetPushWait None; RetPushWait None; RetPushWait None]);
    [simpl; lia|reflexivity|apply queue_demo_reachable|reflexivity| |].
  - intros l Hl. simpl in Hl. inv_elem; reflexivity.
  - simpl. left.
Defined.

Lemma every_discard_reaches_OnDrop_witness :
  dropCalls (shared demo_conf) ++ (procs demo_conf ≫= pending) ≡ₚ
    discarded_items (shared demo_conf) ∧ discarded_items (shared demo_conf) = [2; 3].
Proof.
  split; [|reflexivity].
  apply (every_discard_reaches_OnDrop 0 (mkOptions 2 DropOldest true) demo_ring demo_progs);
    [simpl; lia|reflexivity|reflexivity|apply queue_demo_reachable].
Defined.

Lemma stats_conservation_witness :
  Pushed (ring_stats (ring (shared demo_conf))) = 5 ∧
  let s := ring_stats (ring (shared demo_conf)) in
  Pushed s = u64 (Popped s + Dropped s + Len s).
Proof.
  split; [reflexivity|].
  apply (stats_conservation 0 (mkOptions 2 DropOldest true) demo_ring demo_progs);
    [simpl; lia|reflexivity|apply queue_demo_reachable].
Defined.
