(* ===== verification/Limit.v ===== *)
(** Package limit: counters that admit work ([src/limit/limit.go]).

    [Concurrency] and [Budget] are lock-free: their methods are split into
    single atomic actions and run by any number of goroutines. [PerKey] is
    guarded by a mutex, so each method is one function on its map. *)
From S2P Require Import Prelude Interleave.

Local Open Scope Z_scope.

(** * Concurrency *)
Module Concurrency.

(** [NewConcurrency] panics ([None]) unless [max] is positive. *)
Definition NewConcurrency (max : Z) : option Z := if max <=? 0 then None else Some max.

Inductive call := TryAcquire | Release | InUse | Max.
Inductive ret := RetTry (ok : bool) | RetRelease | RetInt (v : Z).

Inductive pc :=
  | Ready
  | TryLoop              (* TryAcquire: n := c.inUse.Load() *)
  | TryCas (n : Z)       (* TryAcquire: c.inUse.CompareAndSwap(n, n+1) *)
  | RelUndo              (* Release: c.inUse.Add(1), then panic *)
  | Panicked.

Record Local := mkLocal { at_pc : pc; todo : list call; rets : list ret }.

(** [granted] and [released] count the successful calls; [over] records that
    some [Release] found no permit to return. *)
Record Sh := mkSh {
  max : Z;
  inUse : Z;
  granted : Z;
  released : Z;
  over : bool }.

Definition goto (l : Local) (p : pc) : Local := mkLocal p (todo l) (rets l).
Definition return_ (l : Local) (x : ret) : Local := mkLocal Ready (todo l) (rets l ++ [x]).

Definition load (s : Sh) (l : Local) : list (Sh * Local) :=
  let n := inUse s in
  if max s <=? n then [(s, return_ l (RetTry false))] else [(s, goto l (TryCas n))].

Definition next (s : Sh) (l : Local) : list (Sh * Local) :=
  match at_pc l with
  | Ready =>
      match todo l with
      | [] => []
      | TryAcquire :: rest => load s (mkLocal Ready rest (rets l))
      | Release :: rest =>
          let l := mkLocal Ready rest (rets l) in
          let v := i64 (inUse s - 1) in
          if v <? 0 then [(mkSh (max s) v (granted s) (released s) true, goto l RelUndo)]
          else [(mkSh (max s) v (granted s) (released s + 1) (over s), return_ l RetRelease)]
      | InUse :: rest => [(s, return_ (mkLocal Ready rest (rets l)) (RetInt (inUse s)))]
      | Max :: rest => [(s, return_ (mkLocal Ready rest (rets l)) (RetInt (max s)))]
      end
  | TryLoop => load s l
  | TryCas n =>
      if inUse s =? n
      then [(mkSh (max s) (i64 (n + 1)) (granted s + 1) (released s) (over s),
             return_ l (RetTry true))]
      else [(s, goto l TryLoop)]
  | RelUndo =>
      [(mkSh (max s) (i64 (inUse s + 1)) (granted s) (released s) (over s), goto l Panicked)]
  | Panicked => []
  end.

Definition init (m : Z) (progs : list (list call)) : conf :=
  Conf (mkSh m 0 0 0 false) ((λ cs, mkLocal Ready cs []) <$> progs).

(** While no [Release] was unmatched: the bound, the accounting, and that a
    goroutine between its load and its CAS saw a value below the maximum. *)
Definition ok (m : Z) (c : @conf Sh Local) : Prop :=
  max (shared c) = m ∧
  (over (shared c) = false →
   0 <= inUse (shared c) <= m ∧ inUse (shared c) = granted (shared c) - released (shared c) ∧
   Forall (λ l, match at_pc l with
                | TryCas n => n < m
                | RelUndo | Panicked => False
                | _ => True
                end) (procs c)).

Lemma conc_ok_step m c c' :
  0 < m <= max_int64 → ok m c → step next c c' → ok m c'.
Proof.
  intros Hm [Hmax Hok] Hst. destruct Hst as [i l s s' l' ps Hi Hn].
  unfold ok, max_int64 in *; simpl in *.
  unfold next, load in Hn; repeat case_match; inv_elem; (split; [done|]); try done;
    intros Hov; destruct (Hok Hov) as (Hb & Ha & Hf);
    pose proof (Forall_lookup_1 _ _ _ _ Hf Hi) as Hl; simpl in Hl;
    repeat match goal with E : at_pc _ = _ |- _ => rewrite E in Hl end;
    try done;
    repeat match goal with
      | E : (_ <=? _) = _ |- _ => apply Z.leb_gt in E || apply Z.leb_le in E
      | E : (_ <? _) = _ |- _ => apply Z.ltb_ge in E || apply Z.ltb_lt in E
      | E : (_ =? _) = _ |- _ => apply Z.eqb_eq in E || apply Z.eqb_neq in E
      end;
    rewrite ?i64_small in * by (unfold in_i64; lia);
    (split; [lia|split; [lia|]]); apply Forall_insert; simpl; done || lia.
Qed.

Lemma conc_ok_reachable m progs c :
  0 < m <= max_int64 → rtc (step next) (init m progs) c → ok m c.
Proof.
  intros Hm. apply inv_reachable; [|intros; by eapply conc_ok_step].
  split; [done|]. simpl. intros _. split; [lia|split; [done|]].
  by apply Forall_fmap, Forall_true.
Qed.


(** Two goroutines on a limit of one: the second is refused until the first
    has released. *)
Definition demo : @conf Sh Local :=
  Eval vm_compute in
    default (init 1 []) (run next [(0, 0); (1, 0); (0, 0); (1, 0); (1, 0); (0, 0); (1, 0); (1, 0)]%nat
      (init 1 [[TryAcquire; Release]; [TryAcquire; TryAcquire]])).


(** While all releases were matched, a call to [Release] succeeds and
    returns one permit when one is held, and takes the panicking path when
    none is held. *)
Theorem release_checked m progs c l rest :
  0 < m <= max_int64 → rtc (step next) (init m progs) c → over (shared c) = false →
  at_pc l = Ready → todo l = Release :: rest →
  let s := shared c in
  next s l =
    if granted s =? released s
    then [(mkSh m (-1) (granted s) (released s) true, mkLocal RelUndo rest (rets l))]
    else [(mkSh m (inUse s - 1) (granted s) (released s + 1) false,
           mkLocal Ready rest (rets l ++ [RetRelease]))].
Proof.
  intros Hm Hr Hov Hpc Htd. destruct (conc_ok_reachable _ _ _ Hm Hr) as [Hmax H].
  destruct (H Hov) as (Hb & Ha & _). simpl. unfold next. rewrite Hpc, Htd, Hmax, Hov.
  rewrite i64_small by (unfold in_i64, max_int64 in *; lia).
  bool_cases; try lia; [|done]. repeat f_equal. lia.
Qed.

Lemma release_checked_witness :
  next (mkSh 1 0 0 0 false) (mkLocal Ready [Release] []) =
    [(mkSh 1 (-1) 0 0 true, mkLocal RelUndo [] [])].
Proof.
  apply (release_checked 1 [[Release]] (init 1 [[Release]])
           (mkLocal Ready [Release] []) []);
    [unfold max_int64; lia|constructor|reflexivity|reflexivity|reflexivity].
Defined.

(** An unmatched [Release] holds the count one too low until it undoes its
    subtraction; a permit granted in between leaves the count above [Max]. *)
Lemma unmatched_release_exceeds_max :
  ∃ c, rtc (step next) (init 1 [[Release]; [TryAcquire; TryAcquire]]) c ∧
       inUse (shared c) = 2 ∧ max (shared c) = 1 ∧ granted (shared c) = 2.
Proof.
  eexists. split; [apply (run_sound _ [(0, 0); (1, 0); (1, 0); (1, 0); (1, 0); (0, 0)]%nat);
                   vm_compute; reflexivity|done].
Qed.
End Concurrency.

(** * Budget *)
Module Budget.

Definition NewBudget (max : Z) : option Z := if max <=? 0 then None else Some max.

Inductive call := Reserve (n : Z) | Release (n : Z) | Used | Max.
Inductive ret := RetReserve (ok : bool) | RetRelease | RetInt (v : Z).

Inductive pc :=
  | Ready
  | ResLoop (n : Z)            (* Reserve: used := b.used.Load() *)
  | ResCas (n used : Z)        (* Reserve: b.used.CompareAndSwap(used, used+n) *)
  | Panicked.

Record Local := mkLocal { at_pc : pc; todo : list call; rets : list ret }.

(** [reserved] and [released] total the successful calls; [over] records that
    some [Release] returned more than was in use. *)
Record Sh := mkSh {
  max : Z;
  used : Z;
  reserved : Z;
  released : Z;
  over : bool }.

Definition goto (l : Local) (p : pc) : Local := mkLocal p (todo l) (rets l).
Definition return_ (l : Local) (x : ret) : Local := mkLocal Ready (todo l) (rets l ++ [x]).

Definition load (s : Sh) (l : Local) (n : Z) : list (Sh * Local) :=
  let u := used s in
  if i64 (max s - u) <? n then [(s, return_ l (RetReserve false))]
  else [(s, goto l (ResCas n u))].

Definition next (s : Sh) (l : Local) : list (Sh * Local) :=
  match at_pc l with
  | Ready =>
      match todo l with
      | [] => []
      | Reserve n :: rest =>
          let l := mkLocal Ready rest (rets l) in
          if n <? 0 then [(s, return_ l (RetReserve false))] else load s l n
      | Release n :: rest =>
          let l := mkLocal Ready rest (rets l) in
          if n <? 0 then [(s, goto l Panicked)]
          else
            let v := i64 (used s + i64 (- n)) in
            if v <? 0 then [(mkSh (max s) v (reserved s) (released s) true, goto l Panicked)]
            else [(mkSh (max s) v (reserved s) (released s + n) (over s), return_ l RetRelease)]
      | Used :: rest => [(s, return_ (mkLocal Ready rest (rets l)) (RetInt (used s)))]
      | Max :: rest => [(s, return_ (mkLocal Ready rest (rets l)) (RetInt (max s)))]
      end
  | ResLoop n => load s l n
  | ResCas n u =>
      if used s =? u
      then [(mkSh (max s) (i64 (u + n)) (reserved s + n) (released s) (over s),
             return_ l (RetReserve true))]
      else [(s, goto l (ResLoop n))]
  | Panicked => []
  end.

Definition init (m : Z) (progs : list (list call)) : conf :=
  Conf (mkSh m 0 0 0 false) ((λ cs, mkLocal Ready cs []) <$> progs).

(** The amounts callers pass are [int64] values. *)
Definition call_ok (c : call) : Prop :=
  match c with Reserve n | Release n => in_i64 n | _ => True end.

Definition local_ok (m : Z) (l : Local) : Prop :=
  Forall call_ok (todo l) ∧
  match at_pc l with
  | ResLoop n => 0 <= n <= max_int64
  | ResCas n u => 0 <= n <= m - u ∧ 0 <= u
  | _ => True
  end.

Definition ok (m : Z) (c : @conf Sh Local) : Prop :=
  max (shared c) = m ∧
  (over (shared c) = false →
   0 <= used (shared c) <= m ∧ used (shared c) = reserved (shared c) - released (shared c) ∧
   Forall (local_ok m) (procs c)).

Lemma budget_ok_step m c c' :
  0 < m <= max_int64 → ok m c → step next c c' → ok m c'.
Proof.
  intros Hm [Hmax Hok] Hst. destruct Hst as [i l s s' l' ps Hi Hn].
  unfold ok in *; simpl in *.
  unfold next, load in Hn; repeat case_match; inv_elem; (split; [done|]); try done;
    intros Hov; destruct (Hok Hov) as (Hb & Ha & Hf);
    destruct (Forall_lookup_1 _ _ _ _ Hf Hi) as [Ht Hl];
    repeat match goal with
      | E : at_pc _ = _ |- _ => rewrite E in Hl
      | E : todo _ = _ |- _ => rewrite E in Ht; apply Forall_cons in Ht as [Hc Ht]; simpl in Hc
      | E : (_ <=? _) = _ |- _ => apply Z.leb_gt in E || apply Z.leb_le in E
      | E : (_ <? _) = _ |- _ => apply Z.ltb_ge in E || apply Z.ltb_lt in E
      | E : (_ =? _) = _ |- _ => apply Z.eqb_eq in E || apply Z.eqb_neq in E
      end;
    unfold max_int64, in_i64 in *;
    rewrite ?(i64_small (- _)) in * by (unfold in_i64; lia);
    rewrite ?i64_small in * by (unfold in_i64; lia);
    (split; [lia|split; [lia|]]); apply Forall_insert; try done;
    split; simpl; first [done | unfold max_int64; lia].
Qed.

Lemma budget_ok_reachable m progs c :
  0 < m <= max_int64 → Forall (Forall call_ok) progs →
  rtc (step next) (init m progs) c → ok m c.
Proof.
  intros Hm Hp. apply inv_reachable; [|intros; by eapply budget_ok_step].
  split; [done|]. simpl. intros _. split; [lia|split; [done|]].
  apply Forall_fmap. eapply Forall_impl; [exact Hp|]. by split.
Qed.

(** C12: as long as no [Release] returned more than was in use, [Used] is the
    sum reserved minus the sum released and stays between zero and [Max] in
    every state, whatever 64-bit amounts the goroutines ask for: the check
    [n > b.max-used] never overflows. *)
Theorem used_within_budget m progs c :
  0 < m <= max_int64 → Forall (Forall call_ok) progs →
  rtc (step next) (init m progs) c → over (shared c) = false →
  used (shared c) = reserved (shared c) - released (shared c) ∧
  0 <= used (shared c) <= max (shared c) ∧ max (shared c) = m.
Proof.
  intros Hm Hp Hr Hov. destruct (budget_ok_reachable _ _ _ Hm Hp Hr) as [-> H].
  destruct (H Hov) as (? & ? & _). auto.
Qed.

Definition demo_progs : list (list call) :=
  [[Reserve 3; Release 2]; [Reserve max_int64; Reserve 2; Reserve (-1)]].
Definition demo_sched : list (nat * nat) :=
  [(0, 0); (1, 0); (1, 0); (0, 0); (1, 0); (0, 0); (1, 0); (1, 0); (1, 0)]%nat.
Definition demo : @conf Sh Local :=
  Eval vm_compute in default (init 4 []) (run next demo_sched (init 4 demo_progs)).

Lemma used_within_budget_witness :
  rets <$> procs demo !! 1%nat = Some [RetReserve false; RetReserve true; RetReserve false] ∧
  used (shared demo) = 3 ∧
  used (shared demo) = reserved (shared demo) - released (shared demo) ∧
  0 <= used (shared demo) <= max (shared demo) ∧ max (shared demo) = 4.
Proof.
  split; [done|split; [done|]].
  apply (used_within_budget 4 demo_progs demo); [unfold max_int64; lia| | |reflexivity].
  - unfold demo_progs, call_ok, in_i64, max_int64. repeat constructor; lia.
  - apply (run_sound _ demo_sched). reflexivity.
Defined.

(** A panicking [Release] leaves the count below zero (unlike
    [Concurrency.Release] it does not undo the subtraction), so a caller that
    recovers can afterwards reserve more than [Max]. *)
Lemma recovered_release_raises_limit :
  ∃ c, rtc (step next) (init 10 [[Release 5]; [Reserve 15]]) c ∧
       rets <$> procs c !! 1%nat = Some [RetReserve true] ∧ max (shared c) = 10.
Proof.
  eexists. split; [apply (run_sound _ [(0, 0); (1, 0); (1, 0)]%nat); vm_compute; reflexivity|done].
Qed.

(** The methods run to completion without interference. *)
Definition reserve (m u n : Z) : Z * bool :=
  if n <? 0 then (u, false)
  else if i64 (m - u) <? n then (u, false) else (i64 (u + n), true).
Definition release (u n : Z) : option Z :=
  if n <? 0 then None
  else let v := i64 (u + i64 (- n)) in if v <? 0 then None else Some v.

Lemma reserve_spec m u n :
  0 < m <= max_int64 → 0 <= u <= m → 0 <= n →
  reserve m u n = if u + n <=? m then (u + n, true) else (u, false).
Proof.
  unfold reserve, max_int64. intros. rewrite (i64_small (m - u)) by (unfold in_i64; lia).
  bool_cases; try lia; try done. by rewrite i64_small by (unfold in_i64; lia).
Qed.

Lemma release_spec u n :
  0 <= n <= u → u <= max_int64 → release u n = Some (u - n).
Proof.
  unfold release, max_int64. intros.
  rewrite (i64_small (- n)), i64_small by (unfold in_i64; lia).
  bool_cases; try lia. f_equal; lia.
Qed.
End Budget.

(** * PerKey *)
Module PerKey.
Section perkey.
Context {K : Type} `{Countable K}.

Record PerKey := mkPerKey { max : Z; n : gmap K Z }.

Definition NewPerKey (m : Z) : option PerKey :=
  if m <=? 0 then None else Some (mkPerKey m ∅).

(** Reading a missing key of a Go map yields the zero value. *)
Definition InUse (p : PerKey) (k : K) : Z := default 0 (n p !! k).

Definition TryAcquire (p : PerKey) (k : K) : PerKey * bool :=
  if max p <=? InUse p k then (p, false)
  else (mkPerKey (max p) (<[k := i64 (InUse p k + 1)]> (n p)), true).

(** [None]: the release of a key that holds no slot panics. *)
Definition Release (p : PerKey) (k : K) : option PerKey :=
  match n p !! k with
  | None => None
  | Some v =>
      if v =? 1 then Some (mkPerKey (max p) (delete k (n p)))
      else Some (mkPerKey (max p) (<[k := v - 1]> (n p)))
  end.

Definition Keys (p : PerKey) : Z := Z.of_nat (size (n p)).
Definition Max (p : PerKey) : Z := max p.

(** ** Specification: the multiset of holders *)

Definition held (hs : list K) (k : K) : nat := length (filter (λ k', k' = k) hs).

(** One holder of [k] leaves. *)
Fixpoint leave (hs : list K) (k : K) : option (list K) :=
  match hs with
  | [] => None
  | k' :: rest => if decide (k' = k) then Some rest else cons k' <$> leave rest k
  end.

(** The map counts the holders and has no other entries. *)
Definition counts (p : PerKey) (hs : list K) : Prop :=
  0 < max p <= max_int64 ∧
  (∀ k, n p !! k = if decide (held hs k = 0%nat) then None else Some (Z.of_nat (held hs k))) ∧
  ∀ k, Z.of_nat (held hs k) <= max p.

Inductive op := OTry (k : K) | ORelease (k : K) | OInUse (k : K) | OKeys.
Inductive out := RBool (b : bool) | RUnit | RInt (v : Z).

Definition exec (p : PerKey) (o : op) : option (PerKey * out) :=
  match o with
  | OTry k => let '(p', b) := TryAcquire p k in Some (p', RBool b)
  | ORelease k => p' ← Release p k; Some (p', RUnit)
  | OInUse k => Some (p, RInt (InUse p k))
  | OKeys => Some (p, RInt (Keys p))
  end.

Definition spec_exec (m : Z) (hs : list K) (o : op) : option (list K * out) :=
  match o with
  | OTry k => if bool_decide (Z.of_nat (held hs k) < m)
              then Some (k :: hs, RBool true) else Some (hs, RBool false)
  | ORelease k => hs' ← leave hs k; Some (hs', RUnit)
  | OInUse k => Some (hs, RInt (Z.of_nat (held hs k)))
  | OKeys => Some (hs, RInt (Z.of_nat (size (list_to_set hs : gset K))))
  end.

Fixpoint exec_all (p : PerKey) (os : list op) : option (PerKey * list out) :=
  match os with
  | [] => Some (p, [])
  | o :: rest => '(p1, x) ← exec p o; '(p2, xs) ← exec_all p1 rest; Some (p2, x :: xs)
  end.

Fixpoint spec_exec_all (m : Z) (hs : list K) (os : list op) : option (list K * list out) :=
  match os with
  | [] => Some (hs, [])
  | o :: rest =>
      '(h1, x) ← spec_exec m hs o; '(h2, xs) ← spec_exec_all m h1 rest; Some (h2, x :: xs)
  end.

Lemma held_cons hs k k' :
  held (k' :: hs) k = (if decide (k' = k) then S (held hs k) else held hs k).
Proof. unfold held. rewrite filter_cons. by case_decide. Qed.

Lemma held_leave hs k hs' k' :
  leave hs k = Some hs' →
  held hs k' = (if decide (k = k') then S (held hs' k') else held hs' k').
Proof.
  revert hs'. induction hs as [|a hs IH]; intros hs'; simpl; [done|].
  destruct (decide (a = k)) as [->|Ha]; [intros [= ->]; by rewrite held_cons|].
  intros (h & Hh & ->)%fmap_Some. specialize (IH _ Hh). rewrite !held_cons, IH.
  repeat case_decide; congruence.
Qed.

Lemma leave_None hs k : leave hs k = None ↔ held hs k = 0%nat.
Proof.
  induction hs as [|a hs IH]; simpl; [done|]. rewrite held_cons.
  case_decide; [done|]. by rewrite fmap_None.
Qed.

Lemma held_elem hs k : held hs k ≠ 0%nat ↔ k ∈ hs.
Proof.
  induction hs as [|a hs IH]; [unfold held; simpl; set_solver|].
  rewrite held_cons, elem_of_cons, <- IH. destruct (decide (a = k)) as [->|].
  - split; [by left|done].
  - split; [by right|]. intros [->|]; done.
Qed.

Lemma InUse_held p hs k : counts p hs → InUse p k = Z.of_nat (held hs k).
Proof. intros (_ & Hn & _). unfold InUse. rewrite Hn. case_decide; simpl; lia. Qed.

Lemma dom_held p hs : counts p hs → dom (n p) = list_to_set hs.
Proof.
  intros (_ & Hn & _). apply set_eq. intros k.
  rewrite elem_of_dom, Hn, elem_of_list_to_set, <- held_elem.
  destruct (decide (held hs k = 0%nat)) as [->|Hne]; split; try done; by intros [].
Qed.

Lemma perkey_exec_refines p hs o :
  counts p hs →
  match spec_exec (max p) hs o with
  | None => exec p o = None
  | Some (hs', x) => ∃ p', exec p o = Some (p', x) ∧ counts p' hs' ∧ max p' = max p
  end.
Proof.
  intros Hc. pose proof Hc as (Hm & Hn & Hle). destruct o as [k|k|k|]; simpl.
  - unfold TryAcquire. rewrite (InUse_held p hs) by done. specialize (Hle k) as Hk.
    case_bool_decide; destruct (Z.leb_spec (max p) (Z.of_nat (held hs k))); try lia;
      simpl; eexists; (split; [done|]); [|done].
    split; [|done]. split; [done|]. simpl. split; intros k'; rewrite held_cons.
    + rewrite lookup_insert, i64_small by (unfold in_i64, max_int64 in *; lia).
      repeat case_decide; subst; try done; [f_equal; lia|by rewrite Hn, decide_True|].
      by rewrite Hn, decide_False.
    + case_decide; subst; [lia|apply Hle].
  - unfold Release. destruct (leave hs k) as [hs'|] eqn:Hl; simpl.
    + pose proof (λ k', held_leave _ _ _ k' Hl) as Hh.
      rewrite Hn. pose proof (Hh k) as Hk. rewrite decide_True in Hk by done.
      rewrite decide_False by lia.
      assert (∀ m', m' !! k = (if decide (held hs' k = 0%nat) then None
                               else Some (Z.of_nat (held hs' k))) →
                (∀ k', k ≠ k' → m' !! k' = n p !! k') → counts (mkPerKey (max p) m') hs') as Hok.
      { intros m' Hk' Hne. split; [done|]. simpl. split; intros k'.
        - destruct (decide (k = k')) as [<-|]; [done|].
          rewrite Hne, Hn, Hh by done. by rewrite (decide_False (P := k = k')).
        - specialize (Hle k'). rewrite Hh in Hle. destruct (decide (k = k')); lia. }
      destruct (Z.eqb_spec (Z.of_nat (held hs k)) 1); eexists; (split; [done|]);
        (split; [|done]); apply Hok.
      * rewrite lookup_delete_eq. rewrite decide_True by lia. done.
      * intros. by apply lookup_delete_ne.
      * rewrite lookup_insert_eq, decide_False by lia. f_equal. lia.
      * intros. by apply lookup_insert_ne.
    + apply leave_None in Hl. by rewrite Hn, Hl.
  - exists p. by rewrite (InUse_held p hs).
  - exists p. split; [|done]. unfold Keys. by rewrite <- size_dom, (dom_held p hs).
Qed.

Lemma perkey_exec_all_refines os p hs :
  counts p hs →
  match spec_exec_all (max p) hs os with
  | None => exec_all p os = None
  | Some (hs', xs) => ∃ p', exec_all p os = Some (p', xs) ∧ counts p' hs' ∧ max p' = max p
  end.
Proof.
  revert p hs. induction os as [|o os IH]; intros p hs Hc; simpl; [by eauto|].
  pose proof (perkey_exec_refines p hs o Hc) as He.
  destruct (spec_exec (max p) hs o) as [[h1 x]|]; simpl in *; [|by rewrite He].
  destruct He as (p1 & -> & Hc1 & Hm1). simpl. specialize (IH p1 h1 Hc1). rewrite Hm1 in IH.
  destruct (spec_exec_all (max p) h1 os) as [[h2 xs]|]; simpl in *; [|by rewrite IH].
  destruct IH as (p2 & -> & ? & ?). eauto with congruence.
Qed.

Lemma counts_New m : 0 < m <= max_int64 → NewPerKey m = Some (mkPerKey m ∅) ∧ counts (mkPerKey m ∅) [].
Proof.
  intros. unfold NewPerKey. destruct (Z.leb_spec m 0); [lia|].
  split; [done|]. split; [done|]. simpl. split; [|unfold held; simpl; lia].
  intros k. by rewrite lookup_empty.
Qed.
End perkey.
Arguments PerKey K {_ _}.
Arguments op K : clear implicits.
Arguments out : clear implicits.

(** C13: for every sequence of calls, [PerKey] answers as the multiset of
    current holders does: a key is admitted exactly when fewer than [max] of
    its slots are held, [Release] panics exactly when the key holds none,
    [InUse] is the number held and [Keys] the number of keys that hold a slot;
    the map has entries for those keys only, so it forgets the others. *)
Theorem perkey_counts_holders {K} `{Countable K} (m : Z) (os : list (op K)) :
  0 < m <= max_int64 →
  ∃ p0 : PerKey K, NewPerKey m = Some p0 ∧
  match spec_exec_all m [] os with
  | None => exec_all p0 os = None
  | Some (hs, xs) =>
      ∃ p, exec_all p0 os = Some (p, xs) ∧ dom (n p) = list_to_set hs ∧
           ∀ k, InUse p k = Z.of_nat (held hs k) ∧ InUse p k <= m
  end.
Proof.
  intros Hm. destruct (counts_New (K := K) m Hm) as [HN Hc].
  exists (mkPerKey m ∅). split; [done|]. pose proof (perkey_exec_all_refines os _ _ Hc) as He.
  simpl in He. destruct (spec_exec_all m [] os) as [[hs xs]|]; [|done].
  destruct He as (p & He & Hcp & Hmp). exists p. split; [done|].
  split; [by apply dom_held|]. intros k. rewrite (InUse_held p hs) by done.
  split; [done|]. destruct Hcp as (_ & _ & Hle). rewrite <- Hmp. apply Hle.
Qed.

Lemma perkey_counts_holders_witness :
  ∃ p0 p : PerKey nat, NewPerKey 2 = Some p0 ∧
    exec_all p0 [OTry 7%nat; OTry 7%nat; OTry 7%nat; OTry 8%nat; OKeys; ORelease 7%nat;
                 ORelease 7%nat; OInUse 7%nat; OKeys]
    = Some (p, [RBool true; RBool true; RBool false; RBool true; RInt 2; RUnit; RUnit;
                RInt 0; RInt 1]) ∧ dom (n p) = {[8%nat]}.
Proof.
  destruct (perkey_counts_holders 2
    [OTry 7%nat; OTry 7%nat; OTry 7%nat; OTry 8%nat; OKeys; ORelease 7%nat;
     ORelease 7%nat; OInUse 7%nat; OKeys]) as (p0 & HN & p & He & Hd & _);
    [unfold max_int64; lia|].
  exists p0, p. split; [exact HN|split; [exact He|rewrite Hd; reflexivity]].
Defined.
End PerKey.
