(* ===== verification/Float.v ===== *)
(** Binary64 arithmetic against the real numbers.

    The token bucket of package limit computes with the floats of the language
    ([Stdlib]'s executable [SpecFloat], with 53 digits and exponents up to
    1024). This file relates the operations the bucket uses, on nonnegative
    operands, to real arithmetic: every result is canonical and within one
    unit in the last place of the exact one, overflow happens only above
    2^1023, and comparison of canonical floats is comparison of their values.
    The location bits that choose between two neighbours are not analysed: one
    unit is enough for the bounds drawn from it. *)
From Stdlib Require Import SpecFloat Reals Lra.
From S2P Require Import Prelude.

Local Open Scope Z_scope.


(** * Digits and exponents *)
Definition fexp64 (e : Z) : Z := fexp 53 1024 e.

Lemma fexp64_eq e : fexp64 e = Z.max (e - 53) (-1074).
Proof. reflexivity. Qed.

Lemma digits_log2 p : Zpos (digits2_pos p) = Z.log2 (Zpos p) + 1.
Proof.
  induction p as [p IH|p IH|]; cbn [digits2_pos]; [| |done].
  - rewrite Pos2Z.inj_succ, IH, Pos2Z.inj_xI.
    rewrite Z.log2_succ_double by lia. lia.
  - rewrite Pos2Z.inj_succ, IH, Pos2Z.inj_xO.
    rewrite Z.log2_double by lia. lia.
Qed.

Lemma Zdigits2_log2 m : 0 < m → Zdigits2 m = Z.log2 m + 1.
Proof. destruct m; intros; try lia. apply digits_log2. Qed.

Lemma Zdigits2_shift m k : 0 < m → 0 <= k → Zdigits2 (m * 2 ^ k) = Zdigits2 m + k.
Proof.
  intros Hm Hk. pose proof (Z.pow_pos_nonneg 2 k).
  rewrite !Zdigits2_log2, Z.log2_mul_pow2 by nia. lia.
Qed.

Lemma Zdigits2_spec m : 0 < m → 0 < Zdigits2 m ∧ 2 ^ (Zdigits2 m - 1) <= m < 2 ^ Zdigits2 m.
Proof.
  intros Hm. destruct m as [|p|p]; try lia. cbn [Zdigits2].
  rewrite digits_log2. pose proof (Z.log2_spec (Zpos p) Hm).
  pose proof (Z.log2_nonneg (Zpos p)).
  replace (Z.log2 (Zpos p) + 1 - 1) with (Z.log2 (Zpos p)) by lia.
  rewrite <- Z.add_1_r in *. lia.
Qed.

Lemma Zdigits2_le m k : 0 <= m → 0 <= k → m < 2 ^ k → Zdigits2 m <= k.
Proof.
  intros Hm Hk Hlt. destruct (decide (m = 0)) as [->|]; [done|].
  destruct (Zdigits2_spec m) as (Hd & Hlo & _); [lia|].
  destruct (Z_le_gt_dec (Zdigits2 m) k); [done|exfalso].
  assert (2 ^ k <= 2 ^ (Zdigits2 m - 1)) by (apply Z.pow_le_mono_r; lia). lia.
Qed.

Lemma Zdigits2_ge m k : 0 <= k → 2 ^ k <= m → k + 1 <= Zdigits2 m.
Proof.
  intros Hk Hle. assert (0 < 2 ^ k) by (apply Z.pow_pos_nonneg; lia).
  destruct (Zdigits2_spec m) as (Hd & _ & Hhi); [lia|].
  destruct (Z_le_gt_dec (k + 1) (Zdigits2 m)); [done|exfalso].
  assert (2 ^ Zdigits2 m <= 2 ^ k) by (apply Z.pow_le_mono_r; lia). lia.
Qed.

(** * Shifting a mantissa right *)
Lemma shr_1_m mrs : 0 <= shr_m mrs → shr_m (shr_1 mrs) = shr_m mrs / 2.
Proof.
  destruct mrs as [m r s]. cbn [shr_m]. intros Hm.
  destruct m as [|[p|p|]|p]; simpl; try done; try lia.
  - apply (Z.div_unique _ _ _ 1); lia.
  - apply (Z.div_unique _ _ _ 0); lia.
Qed.

Lemma iter_shr_m p : ∀ mrs, 0 <= shr_m mrs → shr_m (SpecFloat.iter_pos shr_1 p mrs) = shr_m mrs / 2 ^ Zpos p.
Proof.
  assert (Hnn : ∀ x k, 0 <= x → 0 <= k → 0 <= x / 2 ^ k)
    by (intros; apply Z.div_pos; [|apply Z.pow_pos_nonneg]; lia).
  induction p as [p IH|p IH|]; intros mrs Hm; cbn [SpecFloat.iter_pos].
  - assert (H1 : 0 <= shr_m (shr_1 mrs))
      by (rewrite shr_1_m by done; apply (Hnn _ 1); lia).
    assert (H2 : 0 <= shr_m (SpecFloat.iter_pos shr_1 p (shr_1 mrs)))
      by (rewrite IH by done; apply Hnn; lia).
    rewrite IH, IH, shr_1_m by done.
    rewrite !Z.div_div by (try apply Z.pow_pos_nonneg; try apply Z.pow_nonzero; lia).
    f_equal. replace (Zpos p~1) with (1 + (Zpos p + Zpos p)) by lia.
    rewrite !Z.pow_add_r by lia. lia.
  - assert (H2 : 0 <= shr_m (SpecFloat.iter_pos shr_1 p mrs))
      by (rewrite IH by done; apply Hnn; lia).
    rewrite IH, IH by done.
    rewrite !Z.div_div by (try apply Z.pow_pos_nonneg; try apply Z.pow_nonzero; lia).
    f_equal. replace (Zpos p~0) with (Zpos p + Zpos p) by lia.
    rewrite Z.pow_add_r by lia. lia.
  - by rewrite shr_1_m.
Qed.

Lemma shr_record_m m l : shr_m (shr_record_of_loc m l) = m.
Proof. by destruct l as [|[]]. Qed.

Lemma shr_fexp_m m e l :
  0 <= m →
  let n := Z.max 0 (fexp64 (Zdigits2 m + e) - e) in
  shr_m (shr_fexp 53 1024 m e l).1 = m / 2 ^ n ∧ (shr_fexp 53 1024 m e l).2 = e + n.
Proof.
  intros Hm n. unfold shr_fexp, n, fexp64, shr.
  destruct (fexp 53 1024 (Zdigits2 m + e) - e) as [|p|p]; simpl fst; simpl snd.
  - by rewrite shr_record_m, Z.div_1_r, Z.add_0_r.
  - rewrite iter_shr_m; rewrite shr_record_m; [|done]. done.
  - rewrite shr_record_m. simpl Z.max. by rewrite Z.div_1_r, Z.add_0_r.
Qed.

Lemma round_even_step m l : m <= round_nearest_even m l <= m + 1.
Proof. destruct l as [|[]]; simpl; try case_match; lia. Qed.

(** Canonical mantissas: 53 digits, or fewer at the smallest exponent. *)
Lemma canonical_intro m e :
  fexp64 (Zdigits2 (Zpos m) + e) = e → canonical_mantissa 53 1024 m e = true.
Proof. intros H. apply Z.eqb_eq. exact H. Qed.

Lemma canonical_elim m e :
  canonical_mantissa 53 1024 m e = true →
  -1074 <= e ∧ Zpos m < 2 ^ 53 ∧ (e = -1074 ∨ 2 ^ 52 <= Zpos m).
Proof.
  intros H. apply Z.eqb_eq in H. change (fexp64 (Zdigits2 (Zpos m) + e) = e) in H.
  rewrite fexp64_eq in H. destruct (Zdigits2_spec (Zpos m)) as (Hd & Hlo & Hhi); [lia|].
  assert (2 ^ Zdigits2 (Zpos m) <= 2 ^ 53) by (apply Z.pow_le_mono_r; lia).
  split_and!; [lia|lia|]. destruct (decide (e = -1074)); [by left|right].
  replace (Zdigits2 (Zpos m)) with 53 in Hlo by lia. lia.
Qed.

(** Rounding: the mantissa is cut to the target exponent and at most one unit
    is added; a carry into a 54th digit moves to the next exponent. *)
Lemma cut_bounds m e :
  0 <= m → e <= fexp64 (Zdigits2 m + e) →
  let E := fexp64 (Zdigits2 m + e) in
  0 <= m / 2 ^ (E - e) < 2 ^ 53 ∧ (E = -1074 ∨ 2 ^ 52 <= m / 2 ^ (E - e)).
Proof.
  intros Hm He E. assert (HE : E = Z.max (Zdigits2 m + e - 53) (-1074)) by apply fexp64_eq.
  fold E in He. clearbody E.
  assert (Hp : 0 < 2 ^ (E - e)) by (apply Z.pow_pos_nonneg; lia).
  destruct (decide (m = 0)) as [->|Hm0].
  { rewrite Z.div_0_l by lia. simpl in HE. lia. }
  destruct (Zdigits2_spec m) as (Hd & Hlo & Hhi); [lia|].
  split; [split; [apply Z.div_pos; lia|]|].
  - apply Z.div_lt_upper_bound; [done|]. rewrite <- Z.pow_add_r by lia.
    assert (2 ^ Zdigits2 m <= 2 ^ (E - e + 53)) by (apply Z.pow_le_mono_r; lia). lia.
  - destruct (decide (E = -1074)); [by left|right].
    apply Z.div_le_lower_bound; [done|]. rewrite <- Z.pow_add_r by lia.
    replace (E - e + 52) with (Zdigits2 m - 1) by lia. done.
Qed.

Lemma renorm_shape m E :
  0 <= m <= 2 ^ 53 → -1074 <= E → (E = -1074 ∨ 2 ^ 52 <= m) →
  let r := shr_fexp 53 1024 m E loc_Exact in
  (m = 0 ∧ shr_m r.1 = 0) ∨
  ∃ p k, shr_m r.1 = Zpos p ∧ r.2 = E + k ∧ 0 <= k ∧ Zpos p * 2 ^ k = m ∧
         canonical_mantissa 53 1024 p (E + k) = true.
Proof.
  intros Hm HE Hc r. destruct (shr_fexp_m m E loc_Exact) as [H1 H2]; [lia|].
  fold r in H1, H2. rewrite fexp64_eq in H1, H2.
  destruct (decide (m = 0)) as [->|Hm0]; [left; split; [done|]; rewrite H1; by apply Z.div_0_l, Z.pow_nonzero; lia|].
  right. destruct (decide (m = 2 ^ 53)) as [->|Hne].
  - change (Zdigits2 (2 ^ 53)) with 54 in *.
    replace (Z.max 0 (Z.max (54 + E - 53) (-1074) - E)) with 1 in * by lia.
    exists (Z.to_pos (2 ^ 52)), 1. split_and!; try done; try lia.
    apply canonical_intro. change (Zdigits2 (Zpos (Z.to_pos (2 ^ 52)))) with 53.
    rewrite fexp64_eq. lia.
  - assert (Hd : Zdigits2 m <= 53) by (apply Zdigits2_le; lia).
    replace (Z.max 0 (Z.max (Zdigits2 m + E - 53) (-1074) - E)) with 0 in * by lia.
    destruct m as [|p|p]; try lia. exists p, 0. rewrite Z.pow_0_r, Z.div_1_r in *.
    split_and!; try done; try lia. rewrite Z.add_0_r. apply canonical_intro.
    rewrite fexp64_eq. destruct Hc as [->|Hc]; [lia|].
    pose proof (Zdigits2_ge (Zpos p) 52 ltac:(lia) Hc). lia.
Qed.

Definition packed (s : bool) (p : positive) (e : Z) : spec_float :=
  if e <=? 971 then S754_finite s p e else S754_infinity s.

Lemma round_aux_shape s m e l :
  0 <= m → e <= fexp64 (Zdigits2 m + e) →
  let E := fexp64 (Zdigits2 m + e) in
  let q := m / 2 ^ (E - e) in
  let res := binary_round_aux 53 1024 s m e l in
  ∃ m1, q <= m1 <= q + 1 ∧
    ((m1 = 0 ∧ res = S754_zero s) ∨
     ∃ p k, 0 <= k ∧ Zpos p * 2 ^ k = m1 ∧
            canonical_mantissa 53 1024 p (E + k) = true ∧ res = packed s p (E + k)).
Proof.
  intros Hm He E q res. destruct (cut_bounds m e Hm He) as [Hq Hc]. fold E q in Hq, Hc.
  destruct (shr_fexp_m m e l Hm) as [H1 H2]. fold E in H1, H2.
  rewrite Z.max_r in H1, H2 by lia. fold q in H1. unfold res, binary_round_aux.
  destruct (shr_fexp 53 1024 m e l) as [mrs' e'] eqn:E1. cbn [fst snd] in H1, H2.
  replace e' with E by lia. rewrite H1.
  set (m1 := round_nearest_even q (loc_of_shr_record mrs')).
  pose proof (round_even_step q (loc_of_shr_record mrs')) as Hs. fold m1 in Hs.
  exists m1. split; [done|].
  pose proof (renorm_shape m1 E) as Hr. cbv zeta in Hr.
  destruct (shr_fexp 53 1024 m1 E loc_Exact) as [mrs2 e2]. cbn [fst snd] in Hr.
  assert (HE : -1074 <= E) by (unfold E; rewrite fexp64_eq; lia).
  destruct Hr as [[-> ->]|(p & k & -> & -> & Hk & Hp & Hcan)]; [lia|done|lia|by left|].
  right. exists p, k. done.
Qed.

(** * Values *)
Local Open Scope R_scope.

Definition bp (e : Z) : R := powerRZ 2 e.

Lemma bp_pos e : 0 < bp e.
Proof. apply powerRZ_lt. lra. Qed.
Lemma bp_add a b : bp (a + b) = bp a * bp b.
Proof. apply powerRZ_add. lra. Qed.
Lemma bp_pow k : (0 <= k)%Z → bp k = IZR (2 ^ k).
Proof.
  intros Hk. unfold bp. rewrite <- (Z2Nat.id k Hk) at 1.
  rewrite <- pow_powerRZ. rewrite pow_IZR, Z2Nat.id by done. done.
Qed.
Lemma bp_ge_1 k : (0 <= k)%Z → 1 <= bp k.
Proof.
  intros Hk. rewrite bp_pow by done. apply IZR_le.
  pose proof (Z.pow_pos_nonneg 2 k). lia.
Qed.
Lemma bp_mono a b : (a <= b)%Z → bp a <= bp b.
Proof.
  intros H. replace b with (a + (b - a))%Z by lia. rewrite bp_add.
  pose proof (bp_pos a). assert (1 <= bp (b - a)) by (apply bp_ge_1; lia). nra.
Qed.

(** The value of a float; infinities and NaN have none, and are 0 here. *)
Definition V (x : spec_float) : R :=
  match x with
  | S754_finite s m e => (if s then -1 else 1) * (IZR (Zpos m) * bp e)
  | _ => 0
  end.

(** Nonnegative canonical floats. *)
Definition ok (x : spec_float) : Prop :=
  match x with
  | S754_zero _ => True
  | S754_finite false m e => SpecFloat.bounded 53 1024 m e = true
  | _ => False
  end.

(** The rounding unit and the smallest positive float. *)
Definition eps : R := bp (-52).
Definition eta : R := bp (-1074).

(** [r] is the exact nonnegative value [x], rounded. *)
Definition near (x : R) (r : spec_float) : Prop :=
  (ok r ∧ x - (eps * x + eta) <= V r <= x + (eps * x + eta)) ∨
  (r = S754_infinity false ∧ bp 1023 <= x).

Lemma V_nonneg x : ok x → 0 <= V x.
Proof.
  destruct x as [| | |[] m e]; simpl; try done; intros; try lra.
  pose proof (bp_pos e). assert (0 < IZR (Zpos m)) by (apply IZR_lt; lia). nra.
Qed.

Lemma ok_finite m e : ok (S754_finite false m e) ↔ canonical_mantissa 53 1024 m e = true ∧ (e <= 971)%Z.
Proof. simpl. unfold SpecFloat.bounded. rewrite andb_true_iff, Z.leb_le. done. Qed.

Lemma eps_eta_pos : 0 < eps ∧ 0 < eta.
Proof. split; apply bp_pos. Qed.

Lemma near_exact x : ok x → near (V x) x.
Proof.
  intros H. left. split; [done|]. pose proof (V_nonneg x H). destruct eps_eta_pos. nra.
Qed.

Lemma near_zero s : near 0 (S754_zero s).
Proof. by apply (near_exact (S754_zero s)). Qed.

(** * Rounding is near *)
Lemma cut_value m e E :
  (0 <= m)%Z → (e <= E)%Z →
  IZR (m / 2 ^ (E - e)) * bp E <= IZR m * bp e ∧
  (IZR m + 1) * bp e <= (IZR (m / 2 ^ (E - e)) + 1) * bp E.
Proof.
  intros Hm He. set (n := (E - e)%Z). replace E with (e + n)%Z by lia. rewrite bp_add.
  assert (Hn : (0 < 2 ^ n)%Z) by (apply Z.pow_pos_nonneg; lia).
  rewrite (bp_pow n) by lia. pose proof (bp_pos e) as Hb.
  pose proof (Z.mod_pos_bound m (2 ^ n) Hn) as Hr. pose proof (Z.div_mod m (2 ^ n)) as Hdm.
  set (q := (m / 2 ^ n)%Z) in *. set (w := (2 ^ n)%Z) in *.
  assert (H1 : (q * w <= m)%Z) by lia. assert (H2 : (m + 1 <= (q + 1) * w)%Z) by lia.
  apply IZR_le in H1, H2. rewrite !mult_IZR, !plus_IZR in *. nra.
Qed.

Lemma lead_digit m : (0 < m)%Z → bp (Zdigits2 m - 1) <= IZR m.
Proof.
  intros Hm. destruct (Zdigits2_spec m Hm) as (Hd & Hlo & _).
  rewrite bp_pow by lia. by apply IZR_le.
Qed.

Lemma unit_small m e :
  (0 <= m)%Z → (e <= fexp64 (Zdigits2 m + e))%Z →
  bp (fexp64 (Zdigits2 m + e)) <= eps * (IZR m * bp e) + eta.
Proof.
  rewrite fexp64_eq. intros Hm He. destruct eps_eta_pos as [H1 H2].
  pose proof (bp_pos e). assert (0 <= IZR m) by (by apply IZR_le).
  assert (0 <= IZR m * bp e) by nra.
  destruct (Z.max_spec (Zdigits2 m + e - 53) (-1074)) as [[_ Hx]|[Hle Hx]];
    rewrite Hx in *; [unfold eta in *; nra|].
  destruct (decide (m = 0)%Z) as [->|Hm0]; [simpl Zdigits2 in *; lia|].
  pose proof (lead_digit m ltac:(lia)) as Hl.
  replace (Zdigits2 m + e - 53)%Z with (-52 + (Zdigits2 m - 1) + e)%Z by lia.
  rewrite !bp_add. fold eps.
  assert (bp (Zdigits2 m - 1) * bp e <= IZR m * bp e) by nra. nra.
Qed.

Lemma round_aux_near m e l x :
  (0 <= m)%Z → (e <= fexp64 (Zdigits2 m + e))%Z →
  IZR m * bp e <= x < (IZR m + 1) * bp e →
  near x (binary_round_aux 53 1024 false m e l).
Proof.
  intros Hm He Hx. destruct eps_eta_pos as [Hep Het].
  pose proof (unit_small m e Hm He) as Hu.
  destruct (cut_value m e (fexp64 (Zdigits2 m + e)) Hm He) as [Hc1 Hc2].
  destruct (cut_bounds m e Hm He) as [Hq Hqc]. 
  destruct (round_aux_shape false m e l Hm He) as (m1 & Hm1 & Hres).
  set (E := fexp64 (Zdigits2 m + e)) in *. set (q := (m / 2 ^ (E - e))%Z) in *.
  destruct Hm1 as [Ha Hb]. apply IZR_le in Ha, Hb. rewrite plus_IZR in Hb.
  pose proof (bp_pos E) as HbE.
  assert (Hval : x - (eps * x + eta) <= IZR m1 * bp E <= x + (eps * x + eta)) by nra.
  destruct Hres as [[-> ->]|(p & k & Hk & Hp & Hcan & ->)].
  { left. split; [done|]. simpl V. lra. }
  assert (HV : IZR (Zpos p) * bp (E + k) = IZR m1 * bp E).
  { rewrite <- Hp, bp_add, mult_IZR, <- bp_pow by done. lra. }
  unfold packed. destruct (Z.leb_spec (E + k) 971) as [Hle|Hgt].
  - left. split; [by apply ok_finite|]. unfold V. rewrite HV. lra.
  - right. split; [done|].
    destruct (canonical_elim _ _ Hcan) as (_ & Hhi & _).
    assert (Hk1 : (E + k <= E + 1)%Z).
    { destruct (Z_le_gt_dec k 1); [lia|exfalso].
      destruct (canonical_elim _ _ Hcan) as (_ & _ & [?|Hlo]); [lia|].
      assert (2 ^ 2 <= 2 ^ k)%Z by (apply Z.pow_le_mono_r; lia).
      assert (IZR (2 ^ 54) <= IZR m1) by (apply IZR_le; change (2 ^ 2)%Z with 4%Z in *; nia).
      assert (IZR q + 1 <= IZR (2 ^ 53)) by (rewrite <- plus_IZR; apply IZR_le; lia). 
      change (2 ^ 54)%Z with (2 * 2 ^ 53)%Z in *. rewrite mult_IZR in *.
      assert (0 < IZR (2 ^ 53)) by (apply IZR_lt; lia). lra. }
    destruct Hqc as [HE|Hlo]; [lia|]. apply IZR_le in Hlo.
    rewrite <- (bp_pow 52) in Hlo by lia.
    assert (bp 1023 <= bp 52 * bp E) by (rewrite <- bp_add; apply bp_mono; lia). nra.
Qed.

(** * The operations *)
Lemma shl_align_value m e e' :
  let r := shl_align m e e' in
  IZR (Zpos r.1) * bp r.2 = IZR (Zpos m) * bp e ∧ r.2 = Z.min e e' ∧
  (Zdigits2 (Zpos r.1) + r.2 = Zdigits2 (Zpos m) + e)%Z ∧
  (Zpos r.1 = Zpos m * 2 ^ (e - r.2))%Z.
Proof.
  unfold shl_align. destruct (e' - e)%Z as [|d|d] eqn:Hd; simpl fst; simpl snd.
  1,2: split_and!; try done; try lia; by rewrite Z.sub_diag, Z.mul_1_r.
  assert (He : e' = (e - Zpos d)%Z) by lia.
  assert (Hit : Zpos (Pos.iter xO m d) = (Zpos m * 2 ^ Zpos d)%Z).
  { clear. revert m. induction d as [|d IH] using Pos.peano_ind; intros m; [simpl; lia|].
    rewrite Pos.iter_succ, Pos2Z.inj_xO, IH, Pos2Z.inj_succ, Z.pow_succ_r by lia. lia. }
  split_and!; [|lia| |].
  - rewrite Hit, He, mult_IZR, <- bp_pow, Rmult_assoc, <- bp_add by lia.
    do 2 f_equal. lia.
  - rewrite Hit, Zdigits2_shift by lia. lia.
  - rewrite Hit. do 2 f_equal. lia.
Qed.

Lemma pos_value m e : 0 < IZR (Zpos m) * bp e.
Proof. pose proof (bp_pos e). assert (0 < IZR (Zpos m)) by (apply IZR_lt; lia). nra. Qed.

Lemma round_near m e : near (IZR (Zpos m) * bp e) (binary_round 53 1024 false m e).
Proof.
  unfold binary_round. pose proof (shl_align_value m e (fexp64 (Zdigits2 (Zpos m) + e))) as H.
  cbv zeta in H. unfold fexp64 in H. cbn [Zdigits2] in *.
  destruct (shl_align m e _) as [mz ez]. cbn [fst snd] in H.
  destruct H as (HV & He & Hd & _). rewrite <- HV.
  pose proof (pos_value mz ez). pose proof (bp_pos ez).
  apply round_aux_near; [lia| |lra].
  cbn [Zdigits2]. rewrite Hd. unfold fexp64. lia.
Qed.

Lemma normalize_near m e :
  (0 <= m)%Z → near (IZR m * bp e) (binary_normalize 53 1024 m e false).
Proof.
  intros Hm. destruct m as [|p|p]; [|apply round_near|lia].
  rewrite Rmult_0_l. apply near_zero.
Qed.

Lemma V_finite m e : V (S754_finite false m e) = IZR (Zpos m) * bp e.
Proof. simpl. lra. Qed.

(** Bringing two floats to the smaller exponent. *)
Lemma align_value m e ez :
  (ez <= e)%Z → IZR (Zpos (shl_align m e ez).1) * bp ez = IZR (Zpos m) * bp e.
Proof.
  intros H. destruct (shl_align_value m e ez) as (HV & He & _).
  rewrite <- HV, He. do 2 f_equal. lia.
Qed.

Lemma add_near x y : ok x → ok y → near (V x + V y) (SFadd 53 1024 x y).
Proof.
  intros Hx Hy.
  destruct x as [sx| | |[] mx ex]; try done; destruct y as [sy| | |[] my ey]; try done.
  - rewrite Rplus_0_l. destruct sx, sy; apply near_zero.
  - rewrite Rplus_0_l. by apply near_exact.
  - rewrite Rplus_0_r. by apply near_exact.
  - rewrite !V_finite. unfold SFadd, cond_Zopp.
    rewrite <- (align_value mx ex (Z.min ex ey)), <- (align_value my ey (Z.min ex ey)) by lia.
    rewrite <- Rmult_plus_distr_r, <- plus_IZR. apply normalize_near. lia.
Qed.

Lemma sub_near x y : ok x → ok y → V y <= V x → near (V x - V y) (SFsub 53 1024 x y).
Proof.
  intros Hx Hy Hle.
  destruct x as [sx| | |[] mx ex]; try done; destruct y as [sy| | |[] my ey]; try done.
  - replace (V (S754_zero sx) - V (S754_zero sy)) with 0 by (simpl; lra).
    destruct sx, sy; apply near_zero.
  - rewrite V_finite in Hle. pose proof (pos_value my ey). simpl in Hle. lra.
  - rewrite Rminus_0_r. by apply near_exact.
  - rewrite !V_finite in *. unfold SFsub, cond_Zopp.
    rewrite <- (align_value mx ex (Z.min ex ey)), <- (align_value my ey (Z.min ex ey)) in * by lia.
    rewrite <- Rmult_minus_distr_r, <- minus_IZR. apply normalize_near.
    apply Rmult_le_reg_r in Hle; [|apply bp_pos]. apply le_IZR in Hle. lia.
Qed.

Lemma mul_near x y : ok x → ok y → near (V x * V y) (SFmul 53 1024 x y).
Proof.
  intros Hx Hy.
  destruct x as [sx| | |[] mx ex]; try done; destruct y as [sy| | |[] my ey]; try done.
  1,2: rewrite Rmult_0_l; apply near_zero.
  { rewrite Rmult_0_r. apply near_zero. }
  rewrite !V_finite. unfold SFmul, xorb.
  apply ok_finite in Hx as [Hx _], Hy as [Hy _].
  apply canonical_elim in Hx as (Hex & Hmx & Hcx), Hy as (Hey & Hmy & Hcy).
  replace (IZR (Zpos mx) * bp ex * (IZR (Zpos my) * bp ey))
    with (IZR (Zpos (mx * my)) * bp (ex + ey)) by (rewrite Pos2Z.inj_mul, mult_IZR, bp_add; lra).
  pose proof (bp_pos (ex + ey)). apply round_aux_near; [lia| |lra].
  rewrite fexp64_eq. destruct (Z_le_gt_dec (ex + ey) (-1074)); [lia|].
  pose proof (Zdigits2_ge (Zpos (mx * my)) 52 ltac:(lia)). nia.
Qed.

(** Division of mantissas at an exponent small enough to keep the digits. *)
Lemma quotient_digits m1 s m2 :
  (0 < m1)%Z → (0 < m2)%Z → (0 <= s)%Z → 
  (Zdigits2 m1 + s - Zdigits2 m2 <= Zdigits2 (m1 * 2 ^ s / m2))%Z ∨
  (Zdigits2 m1 + s - Zdigits2 m2 <= 0)%Z.
Proof.
  intros H1 H2 Hs. destruct (Z_le_gt_dec (Zdigits2 m1 + s - Zdigits2 m2) 0); [by right|left].
  destruct (Zdigits2_spec m1 H1) as (Hd1 & Hlo & _).
  destruct (Zdigits2_spec m2 H2) as (Hd2 & _ & Hhi).
  set (k := (Zdigits2 m1 + s - Zdigits2 m2 - 1)%Z) in *.
  replace (Zdigits2 m1 + s - Zdigits2 m2)%Z with (k + 1)%Z by lia.
  apply Zdigits2_ge; [lia|]. apply Z.div_le_lower_bound; [done|].
  assert (Hp : (2 ^ Zdigits2 m2 * 2 ^ k = 2 ^ (Zdigits2 m1 - 1) * 2 ^ s)%Z)
    by (rewrite <- !Z.pow_add_r by lia; f_equal; lia).
  pose proof (Z.pow_pos_nonneg 2 s). pose proof (Z.pow_pos_nonneg 2 k). nia.
Qed.

Lemma div_near mx ex my ey :
  near (IZR (Zpos mx) * bp ex / (IZR (Zpos my) * bp ey))
       (SFdiv 53 1024 (S754_finite false mx ex) (S754_finite false my ey)).
Proof.
  unfold SFdiv, SFdiv_core_binary, xorb. fold (fexp64 (Zdigits2 (Zpos mx) + ex - (Zdigits2 (Zpos my) + ey))).
  set (D := (Zdigits2 (Zpos mx) + ex - (Zdigits2 (Zpos my) + ey))%Z).
  set (e' := Z.min (fexp64 D) (ex - ey)). set (s := (ex - ey - e')%Z).
  assert (Hs : (0 <= s)%Z) by lia.
  replace (match s with 0%Z => Zpos mx | Zpos _ => Z.shiftl (Zpos mx) s | Zneg _ => 0%Z end)
    with (Zpos mx * 2 ^ s)%Z
    by (destruct s; [lia|by rewrite Z.shiftl_mul_pow2|lia]).
  set (n := (Zpos mx * 2 ^ s)%Z).
  assert (Hn : (0 < n)%Z) by (unfold n; pose proof (Z.pow_pos_nonneg 2 s); nia).
  pose proof (Z.div_mod n (Zpos my) ltac:(lia)) as Hdm.
  pose proof (Z.mod_pos_bound n (Zpos my) ltac:(lia)) as Hr.
  pose proof (Z.div_pos n (Zpos my) ltac:(lia) ltac:(lia)) as Hq0.
  pose proof (quotient_digits (Zpos mx) s (Zpos my) ltac:(lia) ltac:(lia) Hs) as Hdig. fold n in Hdig.
  unfold Z.div, Z.modulo in Hdm, Hr, Hdig, Hq0. destruct (Z.div_eucl n (Zpos my)) as [q r].
  apply round_aux_near; [done| |].
  - pose proof (fexp64_eq D) as HfD. rewrite fexp64_eq. lia.
  - pose proof (bp_pos e'). pose proof (bp_pos ey).
    assert (Hmy : 0 < IZR (Zpos my)) by (apply IZR_lt; lia).
    assert (Hx : IZR (Zpos mx) * bp ex / (IZR (Zpos my) * bp ey) = IZR n / IZR (Zpos my) * bp e').
    { unfold n. rewrite mult_IZR, <- bp_pow by done.
      replace ex with (ey + s + e')%Z by lia. rewrite !bp_add. field. lra. }
    rewrite Hx. assert (IZR q <= IZR n / IZR (Zpos my) < IZR q + 1); [|nra].
    rewrite Hdm, plus_IZR, mult_IZR. destruct Hr as [Hr0 Hr1].
    apply IZR_le in Hr0. apply IZR_lt in Hr1.
    replace ((IZR (Zpos my) * IZR q + IZR r) / IZR (Zpos my)) with (IZR q + IZR r / IZR (Zpos my)) by (field; lra).
    assert (0 <= IZR r / IZR (Zpos my) < 1); [|lra].
    split; [apply Rmult_le_pos; [lra|left; by apply Rinv_0_lt_compat]|apply Rmult_lt_reg_r with (IZR (Zpos my)); [lra|]].
    unfold Rdiv. rewrite Rmult_assoc, Rinv_l; lra.
Qed.

(** * Comparison *)
Lemma lower_exponent_less m1 e1 m2 e2 :
  ok (S754_finite false m1 e1) → ok (S754_finite false m2 e2) → (e1 < e2)%Z →
  IZR (Zpos m1) * bp e1 < IZR (Zpos m2) * bp e2.
Proof.
  rewrite !ok_finite. intros [(? & Hm1 & _)%canonical_elim _] [(? & _ & Hc2)%canonical_elim _] He.
  destruct Hc2 as [?|Hm2]; [lia|]. replace e2 with (1 + (e1 + (e2 - e1 - 1)))%Z by lia.
  rewrite !bp_add. pose proof (bp_ge_1 (e2 - e1 - 1) ltac:(lia)). pose proof (bp_pos e1).
  apply IZR_lt in Hm1. apply IZR_le in Hm2. change (2 ^ 53)%Z with (2 ^ 52 * 2)%Z in Hm1.
  rewrite mult_IZR in Hm1. replace (bp 1) with 2 by (unfold bp; simpl; lra).
  assert (0 < IZR (2 ^ 52)) by (apply IZR_lt; lia).
  set (a := IZR (Zpos m1)) in *. set (b := IZR (Zpos m2)) in *. set (c := bp (e2 - e1 - 1)) in *.
  assert (bp e1 <= bp e1 * c) by nra.
  assert (a * bp e1 < b * 2 * bp e1) by nra. nra.
Qed.

Lemma ltb_value x y : ok x → ok y → SFltb x y = true ↔ V x < V y.
Proof.
  intros Hx Hy.
  destruct x as [sx| | |[] mx ex]; try done; destruct y as [sy| | |[] my ey]; try done.
  - simpl. split; [done|lra].
  - rewrite V_finite. pose proof (pos_value my ey). simpl. done.
  - rewrite V_finite. pose proof (pos_value mx ex). simpl. split; [done|lra].
  - rewrite !V_finite. unfold SFltb, SFcompare.
    destruct (Z.compare_spec ex ey) as [<-|Hlt|Hgt].
    + pose proof (bp_pos ex). change (Pos.compare_cont Eq mx my) with (mx ?= my)%positive.
      destruct (Pos.compare_spec mx my) as [->|Hl|Hg]; (split; [|try done]; try lra).
      * intros _. apply Rmult_lt_compat_r; [done|]. by apply IZR_lt.
      * intros Hv%Rmult_lt_reg_r; [|done]. apply lt_IZR in Hv. lia.
    + pose proof (lower_exponent_less _ _ _ _ Hx Hy Hlt). done.
    + pose proof (lower_exponent_less _ _ _ _ Hy Hx Hgt). split; [done|lra].
Qed.

Lemma ltb_false_value x y : ok x → ok y → SFltb x y = false → V y <= V x.
Proof.
  intros Hx Hy Hf. pose proof (ltb_value x y Hx Hy) as [_ H].
  destruct (Rlt_le_dec (V x) (V y)) as [Hlt|]; [|done]. rewrite H in Hf; done.
Qed.

