(* ===== verification/LimitAll.v ===== *)
(** Package limit: the token bucket and the conjunction of limiters
    ([src/limit/limit.go]).

    [Rate] is modelled on the binary64 arithmetic of the language, its mutex
    making every call one function. [Limiter] is the interface of the package
    as a class of operations with laws; [all_TryAcquire] is proved against
    the interface, and worlds made of [Concurrency] and [Rate] limiters are an
    instance of it. *)
From Stdlib Require Import SpecFloat.
From S2P Require Import Prelude Limit.

Local Open Scope Z_scope.

(** * Rate *)
Module Rate.

Definition add (x y : spec_float) : spec_float := SFadd 53 1024 x y.
Definition sub (x y : spec_float) : spec_float := SFsub 53 1024 x y.
Definition mul (x y : spec_float) : spec_float := SFmul 53 1024 x y.
Definition div (x y : spec_float) : spec_float := SFdiv 53 1024 x y.
Definition of_int (z : Z) : spec_float := binary_normalize 53 1024 z 0 false.
Definition lt (x y : spec_float) : bool := SFltb x y.
Definition le (x y : spec_float) : bool := SFleb x y.

(** Monotonic instants are nanosecond counts; [None] is the zero [time.Time]. *)
Record Rate := mkRate { perSec : spec_float; burst : spec_float; tokens : spec_float; last : option Z }.

Definition NewRate (ps : spec_float) (b : Z) : option Rate :=
  if le ps (of_int 0) || (b <=? 0) then None
  else Some (mkRate ps (of_int b) (of_int b) None).

(** [time.Time.Sub] saturates; [time.Duration.Seconds] splits the duration
    into whole seconds and nanoseconds. *)
Definition time_sub (a b : Z) : Z := Z.max min_int64 (Z.min max_int64 (a - b)).
Definition second : Z := 1000000000.
Definition Seconds (d : Z) : spec_float :=
  add (of_int (Z.quot d second)) (div (of_int (Z.rem d second)) (of_int second)).

Definition refill (r : Rate) (now : Z) : spec_float :=
  match last r with
  | None => tokens r
  | Some l =>
      let t := add (tokens r) (mul (Seconds (time_sub now l)) (perSec r)) in
      if lt (burst r) t then burst r else t
  end.

Definition TryAcquire (r : Rate) (now : Z) : Rate * bool :=
  let t := refill r now in
  if lt t (of_int 1) then (mkRate (perSec r) (burst r) t (Some now), false)
  else (mkRate (perSec r) (burst r) (sub t (of_int 1)) (Some now), true).

Definition Release (r : Rate) : Rate := r.

(** Two tokens, one per second: the third call is refused, half a second
    later still, and one second later admitted. *)
Example bucket_of_two :
  (λ r, let '(r, a) := TryAcquire r 1000 in
        let '(r, b) := TryAcquire r 1000 in
        let '(r, c) := TryAcquire r 1000 in
        let '(r, d) := TryAcquire r (1000 + 500000000) in
        let '(r, e) := TryAcquire r (1000 + second) in
        let '(_, f) := TryAcquire r (1000 + second) in
        [a; b; c; d; e; f]) <$> NewRate (of_int 1) 2
  = Some [true; true; false; false; true; false].
Proof. vm_compute. reflexivity. Qed.

(** [NewRate] lets a NaN rate through, and such a bucket, once it has been
    asked twice, never refuses: both of its comparisons are false. *)
Lemma nan_rate_admits b now l t :
  TryAcquire (mkRate S754_nan b t (Some l)) now = (mkRate S754_nan b S754_nan (Some now), true).
Proof.
  unfold TryAcquire, refill. simpl.
  assert (mul (Seconds (time_sub now l)) S754_nan = S754_nan) as ->.
  { unfold mul, SFmul. by destruct (Seconds _). }
  assert (add t S754_nan = S754_nan) as ->.
  { unfold add, SFadd. by destruct t. }
  unfold lt, SFltb, SFcompare. by destruct b.
Qed.
End Rate.

(** * The Limiter interface *)

(** [H] names limiters, [W] is the state they live in. [Release] may panic
    ([None]). *)
Class Limiter (H W : Type) := {
  TryAcquire : H → W → W * bool;
  Release : H → W → option W }.

(** The laws: [permits h w] is how many permits the limiter [h] has out;
    limiters that do not count ([Rate]) have none. *)
Class LimiterLaws (H W : Type) `{!EqDecision H} `{!Limiter H W} := {
  lim_ok : W → Prop;
  counted : H → W → bool;
  permits : H → W → Z;
  try_false h w w' : lim_ok w → TryAcquire h w = (w', false) →
    lim_ok w' ∧ (∀ k, counted k w' = counted k w) ∧ (∀ k, permits k w' = permits k w);
  try_true h w w' : lim_ok w → TryAcquire h w = (w', true) →
    lim_ok w' ∧ (∀ k, counted k w' = counted k w) ∧
    (∀ k, permits k w' = permits k w + (if bool_decide (k = h) && counted h w then 1 else 0));
  release_ok h w : lim_ok w → counted h w = false ∨ 0 < permits h w →
    ∃ w', Release h w = Some w' ∧ lim_ok w' ∧ (∀ k, counted k w' = counted k w) ∧
    (∀ k, permits k w' = permits k w - (if bool_decide (k = h) && counted h w then 1 else 0));
  permits_nonneg h w : lim_ok w → 0 <= permits h w }.

(** * All *)
Section all.
Context {H W : Type} `{Limiter H W}.

(** [for j := i - 1; j >= 0; j-- { a[j].Release() }]: the limiters acquired so
    far, most recent first. *)
Fixpoint release_each (hs : list H) (w : W) : option W :=
  match hs with
  | [] => Some w
  | h :: rest => w' ← Release h w; release_each rest w'
  end.

Fixpoint all_try_from (acquired rest : list H) (w : W) : option (W * bool) :=
  match rest with
  | [] => Some (w, true)
  | h :: rest =>
      let '(w', ok) := TryAcquire h w in
      if ok : bool then all_try_from (h :: acquired) rest w'
      else w'' ← release_each acquired w'; Some (w'', false)
  end.

Definition all_TryAcquire (a : list H) (w : W) : option (W * bool) := all_try_from [] a w.
Definition all_Release (a : list H) (w : W) : option W := release_each a w.
End all.

Section all_laws.
Context {H W : Type} `{LimiterLaws H W}.

(** How many permits of [k] a list of limiters accounts for. *)
Definition share (w : W) (k : H) (hs : list H) : Z :=
  zsum (λ h, if bool_decide (k = h) && counted h w then 1 else 0) hs.

Lemma share_nonneg w k hs : 0 <= share w k hs.
Proof. apply zsum_nonneg. intros h. by case_match. Qed.

Lemma share_ext w w' k hs :
  (∀ h, counted h w' = counted h w) → share w' k hs = share w k hs.
Proof. intros E. unfold share. induction hs; simpl; [done|]. by rewrite E, IHhs. Qed.

Lemma release_each_spec hs w :
  lim_ok w → (∀ k, share w k hs <= permits k w) →
  ∃ w', release_each hs w = Some w' ∧ lim_ok w' ∧ (∀ k, counted k w' = counted k w) ∧
        ∀ k, permits k w' = permits k w - share w k hs.
Proof.
  revert w. induction hs as [|h hs IH]; intros w Hok Hle; simpl.
  - exists w. repeat split; try done. intros k. unfold share. simpl. lia.
  - destruct (release_ok h w Hok) as (w1 & -> & Hok1 & Hc1 & Hp1).
    { specialize (Hle h). unfold share in Hle. simpl in Hle.
      pose proof (share_nonneg w h hs). unfold share in *.
      rewrite bool_decide_eq_true_2 in Hle by done.
      destruct (counted h w); [right|by left]. simpl in Hle. lia. }
    simpl. destruct (IH w1 Hok1) as (w2 & -> & Hok2 & Hc2 & Hp2).
    { intros k. rewrite (share_ext w), Hp1 by done. specialize (Hle k).
      unfold share in *. simpl in Hle. lia. }
    exists w2. repeat split; try done; [intros; by rewrite Hc2|].
    intros k. rewrite Hp2, Hp1, (share_ext w) by done. unfold share. simpl. lia.
Qed.

Lemma all_try_from_spec rest acquired w :
  lim_ok w → (∀ k, share w k acquired <= permits k w) →
  ∃ w' b, all_try_from acquired rest w = Some (w', b) ∧ lim_ok w' ∧
    (∀ k, counted k w' = counted k w) ∧
    ∀ k, permits k w' =
      if b : bool then permits k w + share w k rest else permits k w - share w k acquired.
Proof.
  revert acquired w. induction rest as [|h rest IH]; intros acquired w Hok Hle; simpl.
  - exists w, true. repeat split; try done. intros k. unfold share. simpl. lia.
  - destruct (TryAcquire h w) as [w1 []] eqn:Ht.
    + destruct (try_true h w w1 Hok Ht) as (Hok1 & Hc1 & Hp1).
      destruct (IH (h :: acquired) w1 Hok1) as (w2 & b & -> & Hok2 & Hc2 & Hp2).
      { intros k. rewrite (share_ext w), Hp1 by done. specialize (Hle k).
        unfold share in *. simpl. lia. }
      exists w2, b. repeat split; try done; [intros; by rewrite Hc2|].
      intros k. rewrite Hp2. destruct b; rewrite Hp1, (share_ext w w1) by done;
        unfold share; simpl; lia.
    + destruct (try_false h w w1 Hok Ht) as (Hok1 & Hc1 & Hp1).
      destruct (release_each_spec acquired w1 Hok1) as (w2 & -> & Hok2 & Hc2 & Hp2).
      { intros k. rewrite (share_ext w), Hp1 by done. apply Hle. }
      simpl. exists w2, false. repeat split; try done; [intros; by rewrite Hc2|].
      intros k. by rewrite Hp2, Hp1, (share_ext w).
Qed.

(** C14: against the limiter interface, [All] never leaks a permit and never
    panics: a refused call leaves every limiter with the permits it had, also
    when the same limiter occurs several times, and a granted call takes one
    permit of each counting limiter per occurrence, all of which [Release]
    then returns. *)
Theorem all_never_leaks (a : list H) (w : W) :
  lim_ok w →
  ∃ w' b, all_TryAcquire a w = Some (w', b) ∧ lim_ok w' ∧
    (∀ k, permits k w' = permits k w + if b : bool then share w k a else 0) ∧
    (b = true →
     ∃ w'', all_Release a w' = Some w'' ∧ ∀ k, permits k w'' = permits k w).
Proof.
  intros Hok.
  destruct (all_try_from_spec a [] w Hok) as (w' & b & Hf & Hok' & Hc & Hp).
  { intros k. by apply permits_nonneg. }
  exists w', b. repeat split; try done.
  - intros k. rewrite Hp. destruct b; unfold share; simpl; lia.
  - intros ->. destruct (release_each_spec a w' Hok') as (w'' & ? & _ & _ & Hp'').
    { intros k. rewrite Hp, (share_ext w w') by done. pose proof (permits_nonneg k w Hok). lia. }
    exists w''. split; [done|]. intros k. rewrite Hp'', Hp, (share_ext w w') by done. lia.
Qed.
End all_laws.

(** * Concrete limiters *)

(** A world of [Concurrency] limiters (their maximum and count) and [Rate]
    limiters, addressed by position, with the instant [time.Now] returns. *)
Inductive lim := LConc (max inUse : Z) | LRate (r : Rate.Rate).
Record World := mkWorld { lims : list lim; clock : Z }.

Definition set_lim (h : nat) (x : lim) (w : World) : World :=
  mkWorld (<[h := x]> (lims w)) (clock w).

(** The methods of [Concurrency], run without interference. *)
Definition conc_TryAcquire (m u : Z) : Z * bool :=
  if m <=? u then (u, false) else (i64 (u + 1), true).
Definition conc_Release (u : Z) : option Z :=
  let v := i64 (u - 1) in if v <? 0 then None else Some v.

Definition world_try (h : nat) (w : World) : World * bool :=
  match lims w !! h with
  | Some (LConc m u) => let '(u', b) := conc_TryAcquire m u in (set_lim h (LConc m u') w, b)
  | Some (LRate r) => let '(r', b) := Rate.TryAcquire r (clock w) in (set_lim h (LRate r') w, b)
  | None => (w, false)
  end.

Definition world_release (h : nat) (w : World) : option World :=
  match lims w !! h with
  | Some (LConc m u) => u' ← conc_Release u; Some (set_lim h (LConc m u') w)
  | Some (LRate r) => Some (set_lim h (LRate (Rate.Release r)) w)
  | None => Some w
  end.

#[export] Instance world_limiter : Limiter nat World := {|
  TryAcquire := world_try;
  Release := world_release |}.

Definition world_ok (w : World) : Prop :=
  Forall (λ x, match x with LConc m u => 0 <= u <= m ∧ m <= max_int64 | LRate _ => True end) (lims w).
Definition is_conc (x : lim) : bool := match x with LConc _ _ => true | LRate _ => false end.
Definition count_of (x : lim) : Z := match x with LConc _ u => u | LRate _ => 0 end.

Lemma set_lim_at h x y w (k : nat) :
  lims w !! h = Some x →
  lims (set_lim h y w) !! k = (if decide (k = h) then Some y else lims w !! k).
Proof.
  intros Hx. simpl. case_decide; subst.
  - apply list_lookup_insert_eq. by eapply lookup_lt_Some.
  - by apply list_lookup_insert_ne.
Qed.

(** Replacing a limiter by one of the same kind. *)
Lemma set_lim_facts h x y w :
  world_ok w → lims w !! h = Some x → is_conc y = is_conc x →
  match y with LConc m u => 0 <= u <= m ∧ m <= max_int64 | LRate _ => True end →
  world_ok (set_lim h y w) ∧
  (∀ k, from_option is_conc false (lims (set_lim h y w) !! k) = from_option is_conc false (lims w !! k)) ∧
  (∀ k, from_option count_of 0 (lims (set_lim h y w) !! k) =
        from_option count_of 0 (lims w !! k) + if bool_decide (k = h) then count_of y - count_of x else 0).
Proof.
  intros Hok Hx Hk Hy. split; [by apply Forall_insert|].
  split; intros k; rewrite (set_lim_at _ _ _ _ _ Hx); case_decide; subst; simpl.
  - by rewrite Hx.
  - done.
  - rewrite Hx, bool_decide_eq_true_2 by done. simpl. lia.
  - rewrite bool_decide_eq_false_2 by done. lia.
Qed.

#[export] Program Instance world_laws : LimiterLaws nat World := {|
  lim_ok := world_ok;
  counted h w := from_option is_conc false (lims w !! h);
  permits h w := from_option count_of 0 (lims w !! h) |}.
Next Obligation.
  intros h w w' Hok. simpl. unfold world_try.
  destruct (lims w !! h) as [[m u|r]|] eqn:Hh; [| |by intros [= <-]].
  - unfold conc_TryAcquire. destruct (Z.leb_spec m u); intros [= <-].
    pose proof (Forall_lookup_1 _ _ _ _ Hok Hh) as Hmu.
    destruct (set_lim_facts h _ (LConc m u) w Hok Hh) as (? & ? & Hp); [done|done|].
    split; [done|split; [done|]]. intros k. rewrite Hp. case_bool_decide; simpl; lia.
  - destruct (Rate.TryAcquire r (clock w)) as [r' b]. intros [= <- ->].
    destruct (set_lim_facts h _ (LRate r') w Hok Hh) as (? & ? & Hp); [done|done|].
    split; [done|split; [done|]]. intros k. rewrite Hp. case_bool_decide; simpl; lia.
Qed.
Next Obligation.
  intros h w w' Hok. simpl. unfold world_try.
  destruct (lims w !! h) as [[m u|r]|] eqn:Hh; [| |done].
  - unfold conc_TryAcquire. destruct (Z.leb_spec m u); intros [= <-].
    pose proof (Forall_lookup_1 _ _ _ _ Hok Hh) as Hmu. simpl in Hmu.
    rewrite i64_small by (unfold in_i64, max_int64 in *; lia).
    destruct (set_lim_facts h _ (LConc m (u + 1)) w Hok Hh) as (? & ? & Hp); [done|simpl; lia|].
    split; [done|split; [done|]]. intros k. rewrite Hp. case_bool_decide; simpl; lia.
  - destruct (Rate.TryAcquire r (clock w)) as [r' b]. intros [= <- ->].
    destruct (set_lim_facts h _ (LRate r') w Hok Hh) as (? & ? & Hp); [done|done|].
    split; [done|split; [done|]]. intros k. rewrite Hp. simpl.
    rewrite andb_false_r. case_bool_decide; lia.
Qed.
Next Obligation.
  intros h w Hok. simpl. unfold world_release.
  destruct (lims w !! h) as [[m u|r]|] eqn:Hh; simpl.
  - intros [?|Hu]; [done|]. pose proof (Forall_lookup_1 _ _ _ _ Hok Hh) as Hmu. simpl in Hmu.
    unfold conc_Release. rewrite i64_small by (unfold in_i64, max_int64 in *; lia).
    destruct (Z.ltb_spec (u - 1) 0); [lia|]. simpl.
    destruct (set_lim_facts h _ (LConc m (u - 1)) w Hok Hh) as (? & ? & Hp); [done|simpl; lia|].
    eexists; split; [done|]. split; [done|split; [done|]].
    intros k. rewrite Hp. case_bool_decide; simpl; lia.
  - intros _. destruct (set_lim_facts h _ (LRate r) w Hok Hh) as (? & ? & Hp); [done|done|].
    eexists; split; [done|]. split; [done|split; [done|]].
    intros k. rewrite Hp, andb_false_r. case_bool_decide; simpl; lia.
  - intros _. exists w. split; [done|split; [done|split; [done|]]].
    intros k. rewrite andb_false_r. lia.
Qed.
Next Obligation.
  intros h w Hok. simpl. destruct (lims w !! h) as [[m u|r]|] eqn:Hh; simpl; try lia.
  by pose proof (Forall_lookup_1 _ _ _ _ Hok Hh) as [[? _] _].
Qed.

(** Two slots of one limiter, listed twice beside an exhausted one. *)
Definition demo_world : World := mkWorld [LConc 2 0; LConc 1 1] 0.

Lemma all_never_leaks_witness :
  lim_ok demo_world ∧
  ∃ w' b, all_TryAcquire [0; 0; 1]%nat demo_world = Some (w', b) ∧
    ∀ k, permits k w' = permits k demo_world.
Proof.
  assert (lim_ok demo_world) as Hok.
  { unfold max_int64. repeat constructor; unfold max_int64; lia. }
  split; [exact Hok|].
  destruct (all_never_leaks [0; 0; 1]%nat demo_world Hok) as (w' & b & Ht & _ & Hp & _).
  exists w', b. split; [exact Ht|]. vm_compute in Ht. injection Ht as <- <-.
  intros k. rewrite Hp. lia.
Defined.
