(* ===== verification/RateThms.v ===== *)
(** Package limit: what the token bucket admits ([src/limit/limit.go], [Rate]).

    The bucket of [LimitAll.Rate] computes in binary64; here its token count
    is followed in the real numbers through [Float]. In any window of
    consecutive calls it admits at most its burst, plus its rate times the
    length of the window, plus a rounding error per call; and a call that
    comes late enough after the previous one is admitted. *)
From Stdlib Require Import SpecFloat Sorting.Sorted Reals Lra.
From S2P Require Import Prelude Limit Float LimitAll.

Local Open Scope R_scope.


(** * Relative error *)
(** [y] is [x] up to [c] rounding units. *)
Definition rel (c x y : R) : Prop := x * (1 - c * eps) <= y <= x * (1 + c * eps).

Lemma eps_unit : eps * IZR (2 ^ 52) = 1.
Proof. unfold eps. rewrite <- bp_pow, <- bp_add by lia. done. Qed.

Lemma eps_small : 0 < eps <= / 1000000000000.
Proof.
  split; [apply bp_pos|]. pose proof eps_unit as H. change (2 ^ 52)%Z with 4503599627370496%Z in H. lra.
Qed.

Lemma eta_small : 0 < eta <= eps * eps.
Proof. split; [apply bp_pos|]. unfold eps, eta. rewrite <- bp_add. apply bp_mono. lia. Qed.

Ltac small := pose proof eps_small; pose proof eta_small.

Lemma rel_trans c d x y z :
  0 <= x → 0 <= c <= 100 → 0 <= d <= 100 → rel c x y → rel d y z → rel (c + d + 1) x z.
Proof.
  intros Hx Hc Hd [H1 H2] [H3 H4]. small. set (u := c * eps) in *. set (v := d * eps) in *.
  assert (0 <= u <= / 10000) by (unfold u; nra). assert (0 <= v <= / 10000) by (unfold v; nra).
  assert (u <= 100 * eps) by (unfold u; nra). assert (u * v <= eps) by nra.
  unfold rel. replace ((c + d + 1) * eps) with (u + v + eps) by (unfold u, v; ring).
  split.
  - assert (x * ((1 - u) * (1 - v)) <= y * (1 - v)) by nra. nra.
  - assert (y * (1 + v) <= x * ((1 + u) * (1 + v))) by nra. nra.
Qed.

Lemma rel_add c x y x' y' : rel c x y → rel c x' y' → rel c (x + x') (y + y').
Proof. unfold rel. nra. Qed.

Lemma rel_scale c k x y : 0 <= k → rel c x y → rel c (x * k) (y * k).
Proof.
  unfold rel. intros Hk [H1 H2].
  apply (Rmult_le_compat_r k) in H1; [|done]. apply (Rmult_le_compat_r k) in H2; [|done]. lra.
Qed.

Lemma rel_nonneg c x y : 0 <= x → 0 <= c <= 100 → rel c x y → 0 <= y.
Proof. intros Hx Hc [H1 _]. small. assert (c * eps <= 1) by nra. nra. Qed.

(** Away from underflow and overflow, one operation costs two units. *)
Lemma near_rel x r : bp (-1000) <= x < bp 1023 → near x r → ok r ∧ rel 2 x (V r).
Proof.
  intros [Hlo Hhi] [[Hok [H1 H2]]|[_ H]]; [|lra]. split; [done|].
  assert (eta <= eps * x).
  { small. assert (eta <= eps * bp (-1000)); [|nra].
    unfold eps, eta. rewrite <- bp_add. apply bp_mono. lia. }
  unfold rel. lra.
Qed.

Lemma int_range z : (0 < z <= max_int64)%Z → bp (-1000) <= 1 <= IZR z ∧ IZR z < bp 64.
Proof.
  intros Hz. split_and!.
  - apply (bp_mono (-1000) 0). lia.
  - apply IZR_le. lia.
  - rewrite bp_pow by lia. apply IZR_lt. unfold max_int64 in Hz. lia.
Qed.

Lemma bp_64_1023 : bp 64 <= bp 1023.
Proof. apply bp_mono. lia. Qed.

Lemma bp_64_big : 1000000000000 <= bp 64.
Proof. rewrite bp_pow by lia. apply IZR_le. lia. Qed.

Lemma bp_tiny : bp (-1000) <= / 1000000000000.
Proof. pose proof eps_small. assert (bp (-1000) <= eps) by (apply bp_mono; lia). lra. Qed.

Lemma of_int_rel z :
  (0 <= z <= max_int64)%Z → ok (Rate.of_int z) ∧ rel 2 (IZR z) (V (Rate.of_int z)).
Proof.
  intros Hz. destruct (decide (z = 0)%Z) as [->|Hne].
  { split; [done|]. unfold rel. simpl. lra. }
  pose proof (int_range z ltac:(lia)). pose proof bp_64_1023.
  apply near_rel; [lra|]. rewrite <- (Rmult_1_r (IZR z)). apply (normalize_near z 0). lia.
Qed.

Lemma V_one : ok (Rate.of_int 1) ∧ V (Rate.of_int 1) = 1.
Proof.
  split; [done|]. 
  change (V (Rate.of_int 1)) with (1 * (IZR (2 ^ 52) * bp (-52))). pose proof eps_unit. unfold eps in *. lra.
Qed.

(** * Seconds *)
(** The quotient by a second of fewer nanoseconds. *)
Lemma div_second_rel z :
  (0 <= z < Rate.second)%Z →
  ok (Rate.div (Rate.of_int z) (Rate.of_int Rate.second)) ∧
  rel 5 (IZR z / IZR Rate.second) (V (Rate.div (Rate.of_int z) (Rate.of_int Rate.second))).
Proof.
  intros Hz. destruct (decide (z = 0)%Z) as [->|Hne].
  { split; [done|]. unfold rel. simpl. lra. }
  unfold Rate.second in *.
  destruct (of_int_rel z ltac:(unfold max_int64; lia)) as [Hok Hrel].
  assert (Hz1 : 1 <= IZR z < 1000000000) by (split; [apply IZR_le|apply IZR_lt]; lia).
  assert (Hpos : / 2 < V (Rate.of_int z) < 2000000000).
  { destruct Hrel as [Hlo Hhi]. small. nra. }
  assert (Hsec : IZR 8388608000000000 * bp (-23) = 1000000000).
  { replace (IZR 8388608000000000) with (1000000000 * bp 23)
      by (rewrite bp_pow, <- mult_IZR by lia; done).
    rewrite Rmult_assoc, <- bp_add. simpl. lra. }
  change (Rate.of_int 1000000000) with (S754_finite false 8388608000000000 (-23)).
  destruct (Rate.of_int z) as [| | |[] m e]; simpl in Hok; try done; [simpl in Hpos; lra|].
  rewrite V_finite in *.
  pose proof (div_near m e 8388608000000000 (-23)) as Hn. rewrite Hsec in Hn.
  apply near_rel in Hn as [Hok' Hrel'].
  - split; [done|]. replace 5 with (2 + 2 + 1) by lra.
    refine (rel_trans 2 2 _ _ _ _ _ _ _ Hrel'); try lra.
    apply rel_scale; [lra|done].
  - pose proof bp_tiny. pose proof bp_64_1023. pose proof bp_64_big. lra.
Qed.

Lemma quot_rem_second d :
  (0 <= d <= max_int64)%Z →
  (0 <= Z.quot d Rate.second <= max_int64)%Z ∧ (0 <= Z.rem d Rate.second < Rate.second)%Z ∧
  IZR d / IZR Rate.second = IZR (Z.quot d Rate.second) + IZR (Z.rem d Rate.second) / IZR Rate.second.
Proof.
  unfold Rate.second. intros Hd.
  rewrite Z.quot_div_nonneg, Z.rem_mod_nonneg by lia.
  pose proof (Z.div_mod d 1000000000). pose proof (Z.mod_pos_bound d 1000000000).
  pose proof (Z.div_pos d 1000000000). split_and!; try lia.
  rewrite (Z.div_mod d 1000000000) at 1 by lia. rewrite plus_IZR, mult_IZR. lra.
Qed.

Lemma Seconds_rel d :
  (0 <= d <= max_int64)%Z →
  ok (Rate.Seconds d) ∧ rel 8 (IZR d / IZR Rate.second) (V (Rate.Seconds d)).
Proof.
  intros Hd. destruct (decide (d = 0)%Z) as [->|Hne].
  { split; [done|]. unfold rel. change (V (Rate.Seconds 0)) with 0. lra. }
  destruct (quot_rem_second d Hd) as (Hq & Hr & Heq).
  unfold Rate.Seconds.
  destruct (of_int_rel _ Hq) as [Hok1 [Hlo1 Hhi1]].
  destruct (div_second_rel _ Hr) as [Hok2 Hrel2].
  set (x := V (Rate.of_int (Z.quot d Rate.second))) in *.
  set (y := V (Rate.div _ _)) in *.
  assert (Hs : rel 5 (IZR d / IZR Rate.second) (x + y)).
  { rewrite Heq. apply rel_add; [|done]. small.
    assert (0 <= IZR (Z.quot d Rate.second)) by (apply IZR_le; lia). unfold rel. nra. }
  pose proof (int_range d ltac:(lia)) as [Hd1 Hd64].
  pose proof (add_near _ _ Hok1 Hok2) as Hn. fold x y in Hn.
  unfold Rate.second in *.
  apply near_rel in Hn as [Hok Hrel].
  - split; [done|]. replace 8 with (5 + 2 + 1) by lra.
    refine (rel_trans 5 2 _ _ _ _ _ _ Hs Hrel); lra.
  - destruct Hs as [Hs1 Hs2]. small.
    pose proof bp_tiny. pose proof bp_64_1023. split; nra.
Qed.

(** * One call *)
(** A run of calls at the given instants, and how many were admitted. *)
Fixpoint calls (r : Rate.Rate) (ts : list Z) : Rate.Rate * Z :=
  match ts with
  | [] => (r, 0%Z)
  | t :: ts =>
      let '(r1, a) := Rate.TryAcquire r t in
      let '(r2, n) := calls r1 ts in (r2, ((if a : bool then 1 else 0) + n)%Z)
  end.

(** Seconds between two instants, exactly. *)
Definition elapsed (l now : Z) : R := IZR (now - l) / IZR Rate.second.

Section bucket.
Context (ps : spec_float) (b : Z).
Context (ps_ok : ok ps) (b_ok : (0 < b <= max_int64)%Z).

Definition size : R := V (Rate.of_int b).

(** The invariant of a bucket built by [NewRate ps b]. *)
Definition bucket (r : Rate.Rate) : Prop :=
  Rate.perSec r = ps ∧ Rate.burst r = Rate.of_int b ∧ ok (Rate.tokens r) ∧
  (Rate.last r = None → V (Rate.tokens r) <= size).

(** The clock does not go back. *)
Definition not_before (r : Rate.Rate) (now : Z) : Prop :=
  ∀ l, Rate.last r = Some l → (l <= now)%Z.

Lemma size_bounds : ok (Rate.of_int b) ∧ 1 <= size <= IZR b * (1 + 2 * eps) ∧ size < bp 1023.
Proof using b_ok.
  destruct (of_int_rel b ltac:(lia)) as [Hok [Hlo Hhi]]. fold size in Hlo, Hhi. small.
  pose proof (int_range b b_ok) as [Hb1 Hb2].
  assert (2 * bp 64 <= bp 1023)
    by (replace 2 with (bp 1) by (simpl; lra); rewrite <- bp_add; apply bp_mono; lia).
  split_and!; try done; [|nra]. destruct (decide (b = 1)%Z) as [Hb|].
  - assert (Hs : size = 1) by (unfold size; rewrite Hb; apply V_one). lra.
  - assert (2 <= IZR b) by (apply IZR_le; lia). nra.
Qed.

(** A duration times the rate. *)
Lemma earned_near d :
  (0 <= d <= max_int64)%Z →
  let x := IZR d / IZR Rate.second * V ps in
  let p := Rate.mul (Rate.Seconds d) ps in
  0 <= x ∧
  ((ok p ∧ x * (1 - 10 * eps) - eta <= V p <= x * (1 + 10 * eps) + eta) ∨
   (p = S754_infinity false ∧ size <= x * (1 + 10 * eps))).
Proof using ps_ok b_ok.
  intros Hd x p. destruct (Seconds_rel d Hd) as [Hok Hrel].
  pose proof (V_nonneg _ ps_ok) as Hps. 
  assert (Hx : 0 <= x).
  { unfold x, Rate.second. assert (0 <= IZR d) by (apply IZR_le; lia). apply Rmult_le_pos; lra. }
  split; [done|]. apply (rel_scale _ _ _ _ Hps) in Hrel. fold x in Hrel. destruct Hrel as [H1 H2].
  small. destruct (mul_near _ _ Hok ps_ok) as [[Hokp [H3 H4]]|[Hinf Hbig]].
  - left. split; [done|]. change (SFmul 53 1024 (Rate.Seconds d) ps) with p in H3, H4.
    set (y := V (Rate.Seconds d) * V ps) in *. assert (y <= 2 * x) by nra. split; nra.
  - right. split; [done|]. pose proof size_bounds. nra.
Qed.

(** What the refill leaves, against the exact sum [t + x]. *)
Lemma clip_bounds t x p a :
  0 <= t → 0 <= x → 0 <= p → x * (1 - 10 * eps) - eta <= p <= x * (1 + 10 * eps) + eta →
  (t + p) - (eps * (t + p) + eta) <= a <= (t + p) + (eps * (t + p) + eta) →
  Rmin size a <= t + x * (1 + 10 * eps) + 3 * eps * (size + 1).
Proof using b_ok.
  intros Ht Hx Hp0 Hp Ha. small. destruct size_bounds as (_ & Hs & _).
  destruct (Rle_lt_dec (t + p) (2 * size)) as [Hle|Hlt].
  - pose proof (Rmin_r size a). nra.
  - pose proof (Rmin_l size a). nra.
Qed.

(** The clipping of a sum that did not overflow is the real minimum. *)
Lemma clip_value a :
  ok a → let t := if Rate.lt (Rate.of_int b) a then Rate.of_int b else a in
  ok t ∧ V t = Rmin size (V a).
Proof using b_ok.
  intros Ha. destruct size_bounds as [Hb _]. simpl. unfold Rate.lt.
  destruct (SFltb (Rate.of_int b) a) eqn:E.
  - split; [done|]. apply ltb_value in E; [|done..]. unfold size in *.
    rewrite Rmin_left by lra. done.
  - split; [done|]. apply ltb_false_value in E; [|done..]. unfold size in *.
    rewrite Rmin_right by lra. done.
Qed.

Lemma time_sub_range now l :
  (l <= now)%Z → (0 <= Rate.time_sub now l <= max_int64)%Z ∧ (Rate.time_sub now l <= now - l)%Z.
Proof. unfold Rate.time_sub, min_int64, max_int64. lia. Qed.

Lemma refill_bounds r l now :
  bucket r → Rate.last r = Some l → (l <= now)%Z →
  let t := Rate.refill r now in
  ok t ∧ V t <= size ∧
  V t <= V (Rate.tokens r) + elapsed l now * V ps * (1 + 10 * eps) + 3 * eps * (size + 1) ∧
  (size <= V t ∨
   IZR (Rate.time_sub now l) / IZR Rate.second * V ps * (1 - 10 * eps) * (1 - eps) - 2 * eta <= V t).
Proof using ps_ok b_ok.
  intros (Hps & Hb & Htok & _) Hl Hle t.
  destruct (time_sub_range now l Hle) as [Hd Hdle].
  destruct (earned_near _ Hd) as [Hx Hp]. destruct size_bounds as (Hbok & Hs & Hsinf).
  pose proof (V_nonneg _ Htok) as Ht0. pose proof (V_nonneg _ ps_ok) as Hps0. small.
  set (x := IZR (Rate.time_sub now l) / IZR Rate.second * V ps) in *.
  assert (Hxe : x * (1 + 10 * eps) <= elapsed l now * V ps * (1 + 10 * eps)).
  { apply Rmult_le_compat_r; [lra|]. apply Rmult_le_compat_r; [done|]. unfold elapsed, Rate.second.
    apply IZR_le in Hdle. lra. }
  assert (Hfull : size <= V (Rate.tokens r) + x * (1 + 10 * eps) + 3 * eps * (size + 1) →
    t = Rate.of_int b → ok t ∧ V t <= size ∧
    V t <= V (Rate.tokens r) + elapsed l now * V ps * (1 + 10 * eps) + 3 * eps * (size + 1) ∧
    (size <= V t ∨ x * (1 - 10 * eps) * (1 - eps) - 2 * eta <= V t)).
  { intros Hf ->. fold size. split_and!; try done; lra. }
  assert (Ht : t = if Rate.lt (Rate.of_int b)
      (Rate.add (Rate.tokens r) (Rate.mul (Rate.Seconds (Rate.time_sub now l)) ps))
    then Rate.of_int b
    else Rate.add (Rate.tokens r) (Rate.mul (Rate.Seconds (Rate.time_sub now l)) ps)).
  { unfold t, Rate.refill. rewrite Hl, Hps, Hb. done. }
  assert (Hinf : Rate.lt (Rate.of_int b) (S754_infinity false) = true)
    by (destruct (Rate.of_int b) as [| | |[]]; done).
  destruct Hp as [[Hpok Hp]|[Hpinf Hbig]].
  - pose proof (V_nonneg _ Hpok) as Hp0.
    destruct (add_near _ _ Htok Hpok) as [[Haok Ha]|[Hainf Hbig]].
    + fold (Rate.add (Rate.tokens r) (Rate.mul (Rate.Seconds (Rate.time_sub now l)) ps)) in Haok, Ha.
      pose proof (clip_bounds _ _ _ _ Ht0 Hx Hp0 Hp Ha) as Hc.
      destruct (clip_value _ Haok) as [Hok Hv]. rewrite <- Ht in Hok, Hv. rewrite Hv.
      pose proof (Rmin_l size (V (Rate.add (Rate.tokens r) (Rate.mul (Rate.Seconds (Rate.time_sub now l)) ps)))).
      split_and!; [done|done|lra|].
      unfold Rmin in *. destruct (Rle_dec _ _); [left; lra|right].
      set (p := V (Rate.mul _ _)) in *.
      assert ((x * (1 - 10 * eps) - eta) * (1 - eps) <= (V (Rate.tokens r) + p) * (1 - eps))
        by (apply Rmult_le_compat_r; lra).
      assert (0 <= eta * eps) by (apply Rmult_le_pos; lra). lra.
    + apply Hfull; [|rewrite Ht; unfold Rate.add at 1; by rewrite Hainf, Hinf]. nra.
  - apply Hfull; [nra|]. rewrite Ht, Hpinf.
    replace (Rate.add (Rate.tokens r) (S754_infinity false)) with (S754_infinity false); [by rewrite Hinf|].
    destruct (Rate.tokens r) as [| | |[]]; done.
Qed.

(** One call: what it admits is paid for by tokens or by elapsed time. *)
Lemma take_bounds r now t :
  ok t → V t <= size → t = Rate.refill r now → bucket r →
  let r' := (Rate.TryAcquire r now).1 in
  bucket r' ∧ Rate.last r' = Some now ∧
  V (Rate.tokens r') + IZR (if (Rate.TryAcquire r now).2 then 1 else 0) <= V t + eps * size + eta.
Proof using b_ok.
  intros Hok Hle -> (Hps & Hb & Htok & _). unfold Rate.TryAcquire.
  destruct V_one as [Hok1 HV1]. destruct size_bounds as (_ & Hs & Hsinf). small.
  unfold Rate.lt. destruct (SFltb (Rate.refill r now) (Rate.of_int 1)) eqn:E; cbn [fst snd Rate.tokens Rate.last].
  - split_and!; [by split_and!|done|nra].
  - apply ltb_false_value in E; [|done..]. rewrite HV1 in E.
    destruct (sub_near (Rate.refill r now) (Rate.of_int 1)) as [[Hsok [_ Hs2]]|[_ Hbig]]; try done; [lra| |lra].
    fold (Rate.sub (Rate.refill r now) (Rate.of_int 1)) in Hsok, Hs2. rewrite HV1 in Hs2.
    split_and!; [by split_and!|done|nra].
Qed.

(** Before its first call the bucket is full; afterwards a call at [now]
    adds what was earned since the last one. *)
Lemma step_bounds r l now :
  bucket r → Rate.last r = Some l → (l <= now)%Z →
  let r' := (Rate.TryAcquire r now).1 in
  bucket r' ∧ Rate.last r' = Some now ∧
  V (Rate.tokens r') + IZR (if (Rate.TryAcquire r now).2 then 1 else 0) <=
  V (Rate.tokens r) + elapsed l now * V ps * (1 + 10 * eps) + 5 * eps * (size + 1).
Proof using ps_ok b_ok.
  intros Hr Hl Hle. destruct (refill_bounds r l now Hr Hl Hle) as (Hok & Hs & Hup & _).
  destruct (take_bounds r now _ Hok Hs eq_refl Hr) as (Hr' & Hl' & Hv).
  split_and!; [done..|]. small. destruct size_bounds as (_ & ? & _). nra.
Qed.

Lemma first_bounds r now :
  bucket r → not_before r now →
  let r' := (Rate.TryAcquire r now).1 in
  bucket r' ∧ Rate.last r' = Some now ∧
  V (Rate.tokens r') + IZR (if (Rate.TryAcquire r now).2 then 1 else 0) <=
  size + 5 * eps * (size + 1).
Proof using ps_ok b_ok.
  intros Hr Hnb. small. destruct size_bounds as (_ & ? & _).
  assert (ok (Rate.refill r now) ∧ V (Rate.refill r now) <= size) as [Hok Hs].
  { destruct (Rate.last r) as [l|] eqn:Hl.
    - destruct (refill_bounds r l now Hr Hl (Hnb l Hl)) as (? & ? & _). done.
    - unfold Rate.refill. rewrite Hl. destruct Hr as (_ & _ & ? & Hf). auto. }
  destruct (take_bounds r now _ Hok Hs eq_refl Hr) as (Hr' & Hl' & Hv).
  split_and!; [done..|]. nra.
Qed.

(** * Runs *)
Lemma last_cons_default (x : Z) l d : List.last (x :: l) d = List.last l x.
Proof.
  revert x d. induction l as [|y l IH]; intros x d; [done|].
  change (List.last (x :: y :: l) d) with (List.last (y :: l) d). by rewrite !IH.
Qed.

Lemma elapsed_split a c d : elapsed a d = elapsed a c + elapsed c d.
Proof. unfold elapsed. rewrite !minus_IZR. lra. Qed.

Lemma elapsed_refl a : elapsed a a = 0.
Proof. unfold elapsed. rewrite Z.sub_diag. lra. Qed.

Lemma calls_cons r t ts :
  calls r (t :: ts) =
  ((calls (Rate.TryAcquire r t).1 ts).1,
   ((if (Rate.TryAcquire r t).2 then 1 else 0) + (calls (Rate.TryAcquire r t).1 ts).2)%Z).
Proof. simpl. destruct (Rate.TryAcquire r t) as [r1 []]; simpl; by destruct (calls r1 ts). Qed.

Lemma calls_app r pre post :
  calls r (pre ++ post) =
  ((calls (calls r pre).1 post).1, ((calls r pre).2 + (calls (calls r pre).1 post).2)%Z).
Proof.
  revert r. induction pre as [|t pre IH]; intros r.
  - simpl. by destruct (calls r post).
  - rewrite <- app_comm_cons, !calls_cons, IH. simpl. f_equal. lia.
Qed.

(** The calls of a run keep the invariant, and leave the time of the last. *)
Lemma calls_bucket ts : ∀ r,
  bucket r → Sorted Z.le ts → (∀ l, Rate.last r = Some l → HdRel Z.le l ts) →
  bucket (calls r ts).1 ∧
  Rate.last (calls r ts).1 = match ts with [] => Rate.last r | t :: ts => Some (List.last ts t) end.
Proof using ps_ok b_ok.
  induction ts as [|t ts IH]; intros r Hr Hs Hhd; [done|].
  apply Sorted_inv in Hs as [Hs Hh]. rewrite calls_cons. cbn [fst].
  destruct (first_bounds r t Hr) as (Hr' & Hl' & _).
  { intros l Hl. specialize (Hhd l Hl). by inversion Hhd. }
  destruct (IH _ Hr' Hs) as [Hb Hla]; [intros l; rewrite Hl'; by intros [= <-]|].
  split; [done|]. rewrite Hla, Hl'. destruct ts as [|t' ts]; [done|]. by rewrite last_cons_default.
Qed.

Lemma run_bounds ts : ∀ r l,
  bucket r → Rate.last r = Some l → Sorted Z.le ts → HdRel Z.le l ts →
  IZR (calls r ts).2 <=
  V (Rate.tokens r) + elapsed l (List.last ts l) * V ps * (1 + 10 * eps)
  + INR (length ts) * (5 * eps * (size + 1)).
Proof using ps_ok b_ok.
  induction ts as [|t ts IH]; intros r l Hr Hl Hs Hhd.
  - simpl. rewrite elapsed_refl. destruct Hr as (_ & _ & Htok & _).
    pose proof (V_nonneg _ Htok). lra.
  - apply Sorted_inv in Hs as [Hs Hh]. inversion Hhd; subst. rewrite calls_cons. cbn [snd].
    destruct (step_bounds r l t Hr Hl) as (Hr' & Hl' & Hv); [done|].
    specialize (IH _ _ Hr' Hl' Hs Hh). rewrite plus_IZR.
    rewrite last_cons_default, (elapsed_split l t), length_cons, S_INR. lra.
Qed.

(** A bucket fresh from [NewRate]. *)
Lemma NewRate_bucket r :
  Rate.NewRate ps b = Some r → bucket r ∧ Rate.last r = None.
Proof using b_ok.
  unfold Rate.NewRate. destruct (Rate.le _ _ || _); [done|]. intros [= <-].
  destruct size_bounds as [Hok _]. split; [|done]. by split_and!.
Qed.

End bucket.

Lemma NewRate_burst ps b r : Rate.NewRate ps b = Some r → (0 < b)%Z.
Proof.
  unfold Rate.NewRate. destruct (Rate.le _ _); [done|]. simpl. destruct (Z.leb_spec b 0); [done|]. lia.
Qed.

Lemma sorted_app_parts pre a post :
  Sorted Z.le (pre ++ a :: post) →
  Sorted Z.le pre ∧ Sorted Z.le post ∧ HdRel Z.le a post ∧
  match pre with [] => True | t :: pre => (List.last pre t <= a)%Z end.
Proof.
  induction pre as [|t pre IH]; simpl; intros [Hs Hh]%Sorted_inv; [by split_and!; try apply Sorted_nil|].
  destruct (IH Hs) as (H1 & H2 & H3 & H4). split_and!; try done.
  - apply Sorted_cons; [done|]. destruct pre; [done|]. apply HdRel_cons. by inversion Hh.
  - destruct pre as [|t' pre]; [by inversion Hh|]. by rewrite last_cons_default.
Qed.

Lemma last_not_before a post :
  Sorted Z.le post → HdRel Z.le a post → (a <= List.last post a)%Z.
Proof.
  revert a. induction post as [|t post IH]; intros a Hs Hh; [done|].
  rewrite last_cons_default. apply Sorted_inv in Hs as [Hs Ht]. inversion Hh; subst.
  specialize (IH t Hs Ht). lia.
Qed.

(** The slack of the run lemmas in the units of the statements. *)
Lemma slack_bounds b n x :
  (0 < b <= max_int64)%Z → 0 <= x →
  size b + 5 * eps * (size b + 1) + x * (1 + 10 * eps) + INR n * (5 * eps * (size b + 1)) <=
  IZR b + x * (1 + bp (-48)) + INR (S n) * ((IZR b + 1) * bp (-49)).
Proof.
  intros Hb Hx. destruct (size_bounds b Hb) as (_ & Hs & _). small.
  assert (bp (-48) = 16 * eps) as ->
    by (replace 16 with (bp 4) by (simpl; lra); unfold eps; by rewrite <- bp_add).
  assert (bp (-49) = 8 * eps) as ->
    by (replace 8 with (bp 3) by (simpl; lra); unfold eps; by rewrite <- bp_add).
  pose proof (int_range b Hb) as [? _]. rewrite S_INR. pose proof (pos_INR n).
  assert (5 * (size b + 1) <= 6 * (IZR b + 1)) by nra.
  assert (5 * eps * (size b + 1) <= 6 * (eps * (IZR b + 1))) by nra.
  set (w := eps * (IZR b + 1)) in *. assert (0 <= w) by (unfold w; nra).
  assert (INR n * (5 * eps * (size b + 1)) <= INR n * (8 * w)) by (apply Rmult_le_compat_l; lra).
  assert (size b <= IZR b + 2 * w) by (unfold w; nra).
  assert (x * (1 + 10 * eps) <= x * (1 + 16 * eps)) by (apply Rmult_le_compat_l; lra).
  replace ((IZR b + 1) * (8 * eps)) with (8 * w) by (unfold w; ring). lra.
Qed.

(** C15: Whatever calls came before, in a window of consecutive calls to
    [TryAcquire] of a bucket built by [NewRate] with a finite rate, on a clock
    that does not go back, at most burst calls plus rate times the length of
    the window are admitted, up to a relative error of 2^-48 on the rate and
    an absolute error of (burst+1) 2^-49 per call from the floating-point
    arithmetic. *)
Theorem rate_window_bound ps b r pre a post :
  ok ps → (b <= max_int64)%Z → Rate.NewRate ps b = Some r →
  Sorted Z.le (pre ++ a :: post) →
  IZR (calls (calls r pre).1 (a :: post)).2 <=
  IZR b + elapsed a (List.last post a) * V ps * (1 + bp (-48))
  + INR (length (a :: post)) * ((IZR b + 1) * bp (-49)).
Proof.
  intros Hps Hb Hnew Hsort. pose proof (NewRate_burst _ _ _ Hnew) as Hb0.
  assert (b_ok : (0 < b <= max_int64)%Z) by lia.
  destruct (sorted_app_parts pre a post Hsort) as (Hpre & Hpost & Hhd & Hla).
  destruct (NewRate_bucket ps b b_ok r Hnew) as [Hr Hl].
  destruct (calls_bucket ps b Hps b_ok pre r Hr Hpre) as [Hr1 Hl1]; [by rewrite Hl|].
  destruct (first_bounds ps b Hps b_ok (calls r pre).1 a Hr1) as (Hr2 & Hl2 & Hv).
  { intros l. rewrite Hl1. destruct pre; [by rewrite Hl|]. by intros [= <-]. }
  pose proof (run_bounds ps b Hps b_ok post _ a Hr2 Hl2 Hpost Hhd) as Hrun.
  assert (0 <= elapsed a (List.last post a) * V ps) as Hx.
  { pose proof (last_not_before a post Hpost Hhd) as Hle.
    assert (0 <= IZR (List.last post a - a)) by (apply IZR_le; lia).
    apply Rmult_le_pos; [unfold elapsed, Rate.second; lra|by apply V_nonneg]. }
  pose proof (slack_bounds b (length post) _ b_ok Hx).
  rewrite calls_cons. cbn [snd]. rewrite plus_IZR, length_cons. lra.
Qed.

(** Three calls within a nanosecond to a bucket of two tokens, one per
    second: the bound is the burst, up to rounding. *)
Lemma rate_window_bound_witness :
  IZR (calls (calls (Rate.mkRate (Rate.of_int 1) (Rate.of_int 2) (Rate.of_int 2) None) [0%Z]).1
         [5%Z; 5%Z; 6%Z]).2 <=
  IZR 2 + elapsed 5 6 * V (Rate.of_int 1) * (1 + bp (-48)) + INR 3 * ((IZR 2 + 1) * bp (-49)).
Proof.
  apply (rate_window_bound (Rate.of_int 1) 2 _ [0%Z] 5 [5%Z; 6%Z]).
  - exact (proj1 V_one).
  - unfold max_int64. lia.
  - reflexivity.
  - repeat constructor; lia.
Defined.

(** C16: A bucket never starves a caller who waits: after any calls, the last
    at [l], a call at [now] is admitted when the rate times the time since [l]
    is at least one event, up to a relative error of 2^-48. *)
Theorem rate_wait_admits ps b r pre l now :
  ok ps → (b <= max_int64)%Z → Rate.NewRate ps b = Some r →
  Sorted Z.le (pre ++ [l]) → (l <= now <= l + max_int64)%Z →
  1 + bp (-48) <= elapsed l now * V ps →
  (Rate.TryAcquire (calls r (pre ++ [l])).1 now).2 = true.
Proof.
  intros Hps Hb Hnew Hsort Hnow Hwait. pose proof (NewRate_burst _ _ _ Hnew) as Hb0.
  assert (b_ok : (0 < b <= max_int64)%Z) by lia.
  destruct (NewRate_bucket ps b b_ok r Hnew) as [Hr Hl].
  destruct (calls_bucket ps b Hps b_ok (pre ++ [l]) r Hr Hsort) as [Hr1 Hl1]; [by rewrite Hl|].
  assert (Hl2 : Rate.last (calls r (pre ++ [l])).1 = Some l).
  { rewrite Hl1. destruct pre as [|t pre]; [done|]. simpl. by rewrite List.last_last. }
  destruct (refill_bounds ps b Hps b_ok _ l now Hr1 Hl2) as (Hok & _ & _ & Hlo); [lia|].
  replace (Rate.time_sub now l) with (now - l)%Z in Hlo
    by (unfold Rate.time_sub, min_int64, max_int64 in *; lia).
  fold (elapsed l now) in Hlo. destruct V_one as [Hok1 HV1].
  unfold Rate.TryAcquire, Rate.lt. destruct (SFltb _ _) eqn:E; [exfalso|done].
  apply ltb_value in E; [|done..]. rewrite HV1 in E.
  destruct (size_bounds b b_ok) as (_ & Hs & _). destruct Hlo as [Hlo|Hlo]; [lra|].
  assert (bp (-48) = 16 * eps) as Hbp
    by (replace 16 with (bp 4) by (simpl; lra); unfold eps; by rewrite <- bp_add).
  small. set (x := elapsed l now * V ps) in *. assert (1 + 16 * eps <= x) by lra.
  assert (x * (1 - 12 * eps) <= x * (1 - 10 * eps) * (1 - eps)) by nra. nra.
Qed.

(** A bucket of one token, two per second, after two calls: half a second and
    a bit later there is a token. *)
Lemma rate_wait_admits_witness :
  (Rate.TryAcquire (calls (Rate.mkRate (Rate.of_int 2) (Rate.of_int 1) (Rate.of_int 1) None)
     ([0%Z] ++ [1%Z])).1 (1 + Rate.second)).2 = true.
Proof.
  apply (rate_wait_admits (Rate.of_int 2) 1 _ [0%Z] 1).
  - exact (proj1 (of_int_rel 2 ltac:(unfold max_int64; lia))).
  - unfold max_int64. lia.
  - reflexivity.
  - repeat constructor; lia.
  - unfold Rate.second, max_int64. lia.
  - destruct (of_int_rel 2 ltac:(unfold max_int64; lia)) as [_ [H _]]. small.
    assert (bp (-48) <= bp (-10)) by (apply bp_mono; lia).
    assert (bp (-10) * bp 10 = 1) as Hten by (rewrite <- bp_add; done).
    rewrite (bp_pow 10) in Hten by lia. change (2 ^ 10)%Z with 1024%Z in Hten.
    change (elapsed 1 (1 + Rate.second)) with (1000000000 / 1000000000). lra.
Defined.

