(* ===== verification/Internal.v ===== *)
(** The internal packages counter and backoff
    ([src/internal/counter/counter.go], [src/internal/backoff/backoff.go]). *)
From S2P Require Import Prelude Interleave.

Local Open Scope Z_scope.

(** * Counter: an atomic uint64 *)
Module Counter.

Definition Add (v n : Z) : Z := u64 (v + n).
Definition Inc (v : Z) : Z := u64 (v + 1).
Definition Load (v : Z) : Z := v.
Definition Store (n : Z) : Z := n.
(** [Add(^uint64(0))]. *)
Definition Dec (v : Z) : Z := u64 (v + (2 ^ 64 - 1)).

Inductive call := CAdd (n : Z) | CInc | CDec | CLoad | CStore (n : Z) | CMax (n : Z).
Inductive pc := Ready | MaxLoop (n : Z) | MaxCas (n cur : Z).

Record Local := mkLocal { at_pc : pc; todo : list call; loads : list Z }.
Definition goto (l : Local) (p : pc) : Local := mkLocal p (todo l) (loads l).

(** [cur := c.v.Load(); n <= cur || ...]. *)
Definition max_load (v : Z) (l : Local) (n : Z) : list (Z * Local) :=
  if n <=? v then [(v, goto l Ready)] else [(v, goto l (MaxCas n v))].

Definition next (v : Z) (l : Local) : list (Z * Local) :=
  match at_pc l with
  | Ready =>
      match todo l with
      | [] => []
      | c :: rest =>
          let l := mkLocal Ready rest (loads l) in
          match c with
          | CAdd n => [(Add v n, l)]
          | CInc => [(Inc v, l)]
          | CDec => [(Dec v, l)]
          | CLoad => [(v, mkLocal Ready rest (loads l ++ [Load v]))]
          | CStore n => [(Store n, l)]
          | CMax n => max_load v l n
          end
      end
  | MaxLoop n => max_load v l n
  | MaxCas n cur => if v =? cur then [(n, goto l Ready)] else [(v, goto l (MaxLoop n))]
  end.

Definition init (v : Z) (progs : list (list call)) : conf :=
  Conf v ((λ cs, mkLocal Ready cs []) <$> progs).

(** The values a goroutine has yet to raise the counter to. *)
Definition maxima (cs : list call) : list Z :=
  omap (λ c, match c with CMax n => Some n | _ => None end) cs.
Definition owed (l : Local) : list Z :=
  match at_pc l with
  | Ready => maxima (todo l)
  | MaxLoop n | MaxCas n _ => n :: maxima (todo l)
  end.
Definition max_or_load (c : call) : Prop :=
  match c with CMax _ | CLoad => True | _ => False end.

Definition zmax (l : list Z) (v : Z) : Z := foldr Z.max v l.

Lemma zmax_app l1 l2 v : zmax (l1 ++ l2) v = Z.max (zmax l1 v) (zmax l2 v).
Proof.
  induction l1 as [|x l1 IH]; simpl; [|lia].
  assert (v <= zmax l2 v); [|lia]. induction l2; simpl; lia.
Qed.

Lemma zmax_ge l v : v <= zmax l v.
Proof. induction l; simpl; lia. Qed.

Lemma zmax_max l v w : zmax l (Z.max v w) = Z.max (zmax l v) w.
Proof. induction l; simpl; lia. Qed.

Definition ok (m : Z) (c : @conf Z Local) : Prop :=
  Forall (λ l, Forall max_or_load (todo l) ∧
               match at_pc l with MaxCas n cur => cur < n | _ => True end) (procs c) ∧
  zmax (procs c ≫= owed) (shared c) = m.

Lemma counter_next_ok v l v' l' :
  Forall max_or_load (todo l) →
  match at_pc l with MaxCas n cur => cur < n | _ => True end →
  (v', l') ∈ next v l →
  (Forall max_or_load (todo l') ∧
   match at_pc l' with MaxCas n cur => cur < n | _ => True end) ∧
  v <= v' ∧ zmax (owed l') v' = zmax (owed l) v.
Proof.
  intros Ht Hl Hn. unfold owed, next, max_load in *.
  repeat case_match; inv_elem; try (apply Forall_cons in Ht as [? Ht]; simpl in *; try done);
    repeat match goal with
      | E : (_ <=? _) = _ |- _ => apply Z.leb_gt in E || apply Z.leb_le in E
      | E : (_ =? _) = _ |- _ => apply Z.eqb_eq in E || apply Z.eqb_neq in E
      end; subst; (split; [by split; [|try lia]|]);
    try (split; [lia|done]); simpl; split; try lia.
  all: try match goal with |- zmax ?l ?v = Z.max _ _ => pose proof (zmax_ge l v); lia end.
  rewrite <- (Z.max_r cur n) at 1 by lia. rewrite zmax_max. lia.
Qed.

Lemma counter_ok_step m c c' : ok m c → step next c c' → ok m c'.
Proof.
  intros [Hf Hm] Hst. destruct Hst as [i l v v' l' ps Hi Hn]. unfold ok. simpl in *.
  destruct (Forall_lookup_1 _ _ _ _ Hf Hi) as [Ht Hl].
  destruct (counter_next_ok _ _ _ _ Ht Hl Hn) as (Hl' & Hle & Hz).
  split; [by apply Forall_insert|]. rewrite <- Hm.
  destruct (insert_decompose ps i l l' Hi) as (l1 & l2 & -> & ->).
  rewrite !bind_app. csimpl. rewrite !zmax_app, Hz.
  rewrite <- (Z.max_r v v' Hle) at 1 2. rewrite !zmax_max.
  pose proof (zmax_ge (owed l') v'). pose proof (zmax_ge (l1 ≫= owed) v). lia.
Qed.

(** When goroutines that only raise and read the counter have all
    finished, the counter holds the largest value any of them raised it to
    (or its initial value): no concurrent raise is lost. *)
Theorem max_keeps_largest v0 (progs : list (list call)) c :
  Forall (Forall max_or_load) progs → rtc (step next) (init v0 progs) c →
  (∀ l, l ∈ procs c → next (shared c) l = []) →
  shared c = zmax (progs ≫= maxima) v0.
Proof.
  intros Hp Hr Hq.
  assert (ok (zmax (progs ≫= maxima) v0) c) as [_ <-].
  { apply (inv_reachable next (ok _) (init v0 progs) c); [|intros; by eapply counter_ok_step|done].
    split; simpl.
    - apply Forall_fmap. eapply Forall_impl; [exact Hp|]. by split.
    - f_equal. clear. induction progs; csimpl; [done|]. by rewrite IHprogs. }
  assert (procs c ≫= owed = []) as ->; [|done].
  clear -Hq. induction (procs c) as [|l ps IH]; [done|]. csimpl.
  rewrite IH by (intros; apply Hq; by right). rewrite app_nil_r.
  specialize (Hq l ltac:(by left)). unfold next, max_load in Hq. unfold owed.
  by repeat case_match.
Qed.

Definition demo : @conf Z Local :=
  Eval vm_compute in
    default (init 0 []) (run next [(0, 0); (1, 0); (1, 0); (0, 0); (0, 0); (0, 0); (0, 0)]%nat
      (init 3 [[CMax 9; CLoad]; [CMax 7]])).

Lemma max_keeps_largest_witness :
  shared demo = zmax ([[CMax 9; CLoad]; [CMax 7]] ≫= maxima) 3 ∧ shared demo = 9.
Proof.
  split; [|reflexivity].
  apply (max_keeps_largest 3 [[CMax 9; CLoad]; [CMax 7]] demo).
  - repeat constructor.
  - apply (run_sound _ [(0, 0); (1, 0); (1, 0); (0, 0); (0, 0); (0, 0); (0, 0)]%nat). reflexivity.
  - intros l Hl. simpl in Hl. inv_elem; reflexivity.
Defined.

(** A gauge driven by [Inc] and [Dec] is their difference, modulo the width. *)
Lemma gauge v (k : nat) : Nat.iter k Dec (Nat.iter k Inc v) = u64 v ∨ k = 0%nat.
Proof.
  destruct k as [|k]; [by right|left]. unfold Inc, Dec.
  assert (∀ j, Nat.iter (S j) (λ v, u64 (v + 1)) v = u64 (v + Z.of_nat (S j))) as ->.
  { induction j as [|j IH]; [done|].
    change (Nat.iter (S (S j)) ?f v) with (f (Nat.iter (S j) f v)). cbv beta.
    rewrite IH, u64_add_l. f_equal. lia. }
  assert (∀ j, Nat.iter j (λ v, u64 (v + (2 ^ 64 - 1))) (u64 (v + Z.of_nat (S k)))
             = u64 (v + Z.of_nat (S k) - Z.of_nat j)) as ->; [|f_equal; lia].
  induction j as [|j IH]; [simpl; f_equal; lia|].
  change (Nat.iter (S j) ?f ?x) with (f (Nat.iter j f x)). cbv beta.
  rewrite IH, u64_add_l. unfold u64, wrap_u.
  replace (v + Z.of_nat (S k) - Z.of_nat j + (2 ^ 64 - 1))
    with (v + Z.of_nat (S k) - Z.of_nat (S j) + 1 * 2 ^ 64) by lia.
  by rewrite Z.mod_add.
Qed.
End Counter.

(** * Backoff *)
Module Backoff.

Definition millisecond : Z := 1000000.
Definition Min : Z := 5 * millisecond.
Definition Max : Z := 1000 * millisecond.

Definition Next (d : Z) : Z := Z.min (Z.max (i64 (d * 2)) Min) Max.

(** [Wait]: the timer fires, or [stop] is closed first. Both may be ready, and
    then the [select] may take either: the results that are possible. *)
Definition Wait (fired stopped : bool) : list bool :=
  (if fired then [true] else []) ++ (if stopped then [false] else []).

(** The delays of consecutive failures are 5ms, 10ms, 20ms, ...,
    doubling up to the cap of one second and staying there; a success resets
    the sequence by passing zero. *)
Theorem delays_double_to_cap (k : nat) :
  Nat.iter (S k) Next 0 = Z.min (Min * 2 ^ Z.of_nat k) Max.
Proof.
  induction k as [|k IH]; [done|].
  change (Nat.iter (S (S k)) Next 0) with (Next (Nat.iter (S k) Next 0)). rewrite IH.
  rewrite Nat2Z.inj_succ, Z.pow_succ_r by lia.
  assert (1 <= 2 ^ Z.of_nat k) by (pose proof (Z.pow_pos_nonneg 2 (Z.of_nat k)); lia).
  unfold Next, Min, Max, millisecond. rewrite i64_small by (unfold in_i64; lia). lia.
Qed.

(** Whatever the previous delay, the next one is within the limits. *)
Lemma Next_range d : Min <= Next d <= Max.
Proof. unfold Next, Min, Max, millisecond. lia. Qed.
End Backoff.
