(* ===== verification/Buf.v ===== *)
(** Package buf: pooled byte buffers with explicit ownership
    ([src/buf/buf.go], [src/buf/debug.go], [src/buf/nodebug.go]).

    Buffers live in a heap, because the pool hands the same object out again
    after a release. [debug] selects the build: [true] is [-tags netxdebug]. *)
From S2P Require Import Prelude Limit.

Local Open Scope Z_scope.

(** * Size classes *)

Definition MinSize : Z := 64.
Definition Small : Z := Z.shiftl 2 10.
Definition Medium : Z := Z.shiftl 16 10.
Definition Large : Z := Z.shiftl 64 10.
Definition minShift : Z := 6.
Definition numClasses : Z := 11.

(** [math/bits.Len]. *)
Definition bits_len (x : Z) : Z := if x =? 0 then 0 else Z.log2 x + 1.

Definition classOf (n : Z) : Z :=
  if Large <? n then -1
  else if n <=? MinSize then 0
  else bits_len (n - 1) - minShift.

Definition Capacity (n : Z) : Z :=
  let c := classOf n in
  if 0 <=? c then Z.shiftl MinSize c else n.

Lemma classOf_range n : -1 <= classOf n < numClasses.
Proof.
  unfold classOf, bits_len, minShift, numClasses, MinSize. change Large with 65536.
  bool_cases; try lia.
  assert (6 <= Z.log2 (n - 1) < 16); [|lia]. split.
  - apply (Z.log2_le_mono 64). lia.
  - apply Z.log2_lt_pow2; lia.
Qed.

Lemma class_size c : 0 <= c → Z.shiftl 64 c = 2 ^ (c + 6).
Proof. intros. rewrite Z.shiftl_mul_pow2, Z.pow_add_r by lia. lia. Qed.

Lemma classOf_mid n :
  MinSize < n <= Large →
  0 <= classOf n ∧ 2 ^ (classOf n + 5) < n <= 2 ^ (classOf n + 6).
Proof.
  unfold classOf, bits_len, minShift, MinSize. change Large with 65536. intros Hn.
  bool_cases; try lia. replace (Z.log2 (n - 1) + 1 - 6 + 5) with (Z.log2 (n - 1)) by lia.
  replace (Z.log2 (n - 1) + 1 - 6 + 6) with (Z.succ (Z.log2 (n - 1))) by lia.
  pose proof (Z.log2_spec (n - 1)). split; [|lia].
  pose proof (Z.log2_le_mono 64 (n - 1)). change (Z.log2 64) with 6 in *. lia.
Qed.

Lemma Capacity_cases n :
  (Large < n ∧ Capacity n = n ∧ classOf n = -1) ∨
  (n <= MinSize ∧ Capacity n = MinSize ∧ classOf n = 0) ∨
  (MinSize < n <= Large ∧ 0 <= classOf n ∧ Capacity n = 2 ^ (classOf n + 6) ∧
   2 ^ (classOf n + 5) < n <= 2 ^ (classOf n + 6)).
Proof.
  destruct (Z.ltb_spec Large n).
  { left. unfold Capacity, classOf. destruct (Z.ltb_spec Large n); [done|lia]. }
  destruct (Z.leb_spec n MinSize).
  { right; left. unfold Capacity, classOf. destruct (Z.ltb_spec Large n); [lia|].
    destruct (Z.leb_spec n MinSize); [done|lia]. }
  right; right. destruct (classOf_mid n) as [? ?]; [lia|].
  split; [lia|]. split; [done|]. split; [|done]. unfold Capacity.
  destruct (Z.leb_spec 0 (classOf n)); [|lia]. by apply class_size.
Qed.

(** [Capacity n] holds [n]; up to [Large] it is one of the eleven class
    sizes 64, 128, ..., 64K and the smallest of them that holds [n], less than
    twice [n] above [MinSize]; above [Large] it is [n] itself; and a buffer's
    capacity is a fixed point, so a capacity requests exactly its own class. *)
Theorem capacity_smallest_class n :
  n <= Capacity n ∧
  (n <= Large →
     Capacity n = Z.shiftl MinSize (classOf n) ∧ 0 <= classOf n < numClasses ∧
     ∀ c, 0 <= c < numClasses → n <= Z.shiftl MinSize c → Capacity n <= Z.shiftl MinSize c) ∧
  (MinSize < n → Capacity n < 2 * n) ∧
  (Large < n → Capacity n = n) ∧
  Capacity (Capacity n) = Capacity n.
Proof.
  pose proof (classOf_range n) as Hr. change Large with 65536 in *.
  destruct (Capacity_cases n) as [(Hn & Hc & Hk)|[(Hn & Hc & Hk)|(Hn & Hk & Hc & Hlo)]];
    change Large with 65536 in *; unfold MinSize in *.
  - rewrite !Hc. repeat split; lia.
  - rewrite !Hc, Hk. change (Capacity 64) with 64. change (Z.shiftl 64 0) with 64.
    repeat split; try lia. intros c ? _. rewrite (class_size c) by lia.
    replace (2 ^ (c + 6)) with (2 ^ c * 64) by (rewrite Z.pow_add_r; lia).
    pose proof (Z.pow_pos_nonneg 2 c). lia.
  - assert (Hd : 2 ^ (classOf n + 6) = 2 * 2 ^ (classOf n + 5)).
    { rewrite <- Z.pow_succ_r by lia. f_equal. lia. }
    rewrite Hc. rewrite (class_size (classOf n)) by lia. repeat split; try lia.
    + intros c ? Hle. rewrite class_size in * by lia. apply Z.pow_le_mono_r; [lia|].
      assert (classOf n + 5 < c + 6); [|lia].
      apply (Z.pow_lt_mono_r_iff 2); lia.
    + assert (classOf n + 6 <= 16) by (unfold numClasses in Hr; lia).
      pose proof (Z.pow_le_mono_r 2 (classOf n + 6) 16 ltac:(lia) ltac:(lia)) as Hle.
      destruct (Capacity_cases (2 ^ (classOf n + 6))) as [(? & _)|[(? & _)|(Hn' & Hk' & -> & Hlo')]];
        change Large with 65536 in *; unfold MinSize in *; [lia..|].
      f_equal.
      assert (classOf (2 ^ (classOf n + 6)) + 5 < classOf n + 6)
        by (apply (Z.pow_lt_mono_r_iff 2); lia).
      assert (classOf n + 6 <= classOf (2 ^ (classOf n + 6)) + 6)
        by (apply (Z.pow_le_mono_r_iff 2); lia).
      lia.
Qed.

(** * The pool *)

Definition Poison : Z := 219.   (* 0xDB *)

(** A buffer object: the backing array, [len(B)] ([None] when [B] is nil), its
    class, and the debug build's [live] flag. [B] is always a prefix of the
    backing array. *)
Record Buf := mkBuf { full : list Z; B : option Z; class : Z; live : bool }.

(** [free] holds, per class, the objects put into its [sync.Pool];
    [outstanding] is the debug build's package variable. *)
Record Pool := mkPool {
  heap : gmap nat Buf;
  free : list (list nat);
  budget : option (Z * Z);       (* max and used of the limit.Budget *)
  outstanding : Z }.

Definition cap (b : Buf) : Z := Z.of_nat (length (full b)).

Definition NewPool (bud : option (Z * Z)) : Pool :=
  mkPool ∅ (replicate (Z.to_nat numClasses) []) bud 0.

Definition set_heap (p : Pool) (h : gmap nat Buf) : Pool :=
  mkPool h (free p) (budget p) (outstanding p).
Definition set_budget (p : Pool) (x : option (Z * Z)) : Pool :=
  mkPool (heap p) (free p) x (outstanding p).
Definition set_free (p : Pool) (x : list (list nat)) : Pool :=
  mkPool (heap p) x (budget p) (outstanding p).
Definition set_outstanding (p : Pool) (x : Z) : Pool :=
  mkPool (heap p) (free p) (budget p) x.

(** [if p.budget != nil && !p.budget.Reserve(int64(capacity))]. *)
Definition charge (p : Pool) (c : Z) : Pool * bool :=
  match budget p with
  | None => (p, true)
  | Some (m, u) =>
      let '(u', ok) := Limit.Budget.reserve m u c in (set_budget p (Some (m, u')), ok)
  end.

Definition refund (p : Pool) (c : Z) : option Pool :=
  match budget p with
  | None => Some p
  | Some (m, u) => u' ← Limit.Budget.release u c; Some (set_budget p (Some (m, u')))
  end.

Definition zeroes (n : Z) : list Z := replicate (Z.to_nat n) 0.

(** A new object at an unused address. *)
Definition alloc (p : Pool) (b : Buf) : nat * Pool :=
  let a := fresh (dom (heap p)) in (a, set_heap p (<[a := b]> (heap p))).

(** [sync.Pool.Get]: any object that was put and not collected, or the result
    of [New]. [pick] is that choice. *)
Definition pool_get (p : Pool) (c : nat) (pick : option nat) : nat * Pool :=
  match (i ← pick; l ← free p !! c; a ← l !! i; Some (a, delete i l)) with
  | Some (a, l) => (a, set_free p (<[c := l]> (free p)))
  | None => alloc p (mkBuf (zeroes (Z.shiftl MinSize (Z.of_nat c))) None (Z.of_nat c) false)
  end.

Definition pool_put (p : Pool) (c : nat) (a : nat) : Pool :=
  set_free p (alter (cons a) c (free p)).

(** The garbage collector may empty a [sync.Pool] of any object. *)
Definition pool_gc (p : Pool) (c i : nat) : Pool := set_free p (alter (delete i) c (free p)).

Section build.
Context (debug : bool).

(** [onGet] and [onRelease] of the two builds. *)
Definition onGet (p : Pool) (a : nat) : Pool :=
  if debug then
    set_outstanding
      (set_heap p (alter (λ b, mkBuf (full b) (B b) (class b) true) a (heap p)))
      (i64 (outstanding p + 1))
  else p.

Definition onRelease (p : Pool) (a : nat) : option Pool :=
  if debug then
    b ← heap p !! a;
    if live b then
      Some (set_outstanding
        (set_heap p (<[a := mkBuf (replicate (length (full b)) Poison) (B b) (class b) false]> (heap p)))
        (i64 (outstanding p - 1)))
    else None
  else Some p.

(** [None] is a panic; the result [None] inside is the nil buffer. *)
Definition Get (p : Pool) (n : Z) (pick : option nat) : option (Pool * option nat) :=
  if n <? 0 then None
  else
    let c := classOf n in
    let capacity := if 0 <=? c then Z.shiftl MinSize c else n in
    let '(p1, ok) := charge p capacity in
    if ok : bool then
      let '(a, p2) := if 0 <=? c then pool_get p1 (Z.to_nat c) pick
                      else alloc p1 (mkBuf (zeroes n) None (-1) false) in
      b ← heap p2 !! a;
      if Z.of_nat (length (full b)) <? n then None     (* b.full[:n] out of range *)
      else
        let p3 := set_heap p2 (<[a := mkBuf (full b) (Some n) (class b) (live b)]> (heap p2)) in
        Some (onGet p3 a, Some a)
    else Some (p, None).

(** [copy(b.B, data)] into the prefix of the backing array. *)
Definition copy_into (p : Pool) (a : nat) (data : list Z) : Pool :=
  set_heap p (alter (λ b, mkBuf (data ++ drop (length data) (full b)) (B b) (class b) (live b))
                a (heap p)).

Definition Copy (p : Pool) (data : list Z) (pick : option nat) : option (Pool * option nat) :=
  '(p1, r) ← Get p (Z.of_nat (length data)) pick;
  match r with
  | Some a => Some (copy_into p1 a data, Some a)
  | None => Some (p1, None)
  end.

(** [Release] of a nil buffer does nothing. *)
Definition Release (p : Pool) (r : option nat) : option Pool :=
  match r with
  | None => Some p
  | Some a =>
      p1 ← onRelease p a;
      b ← heap p1 !! a;
      p2 ← refund p1 (cap b);
      let p3 := set_heap p2 (<[a := mkBuf (full b) None (class b) (live b)]> (heap p2)) in
      Some (if 0 <=? class b then pool_put p3 (Z.to_nat (class b)) a else p3)
  end.

Definition Outstanding (p : Pool) : Z := if debug then outstanding p else 0.

(** The bytes of [b.B]. *)
Definition bytes (p : Pool) (a : nat) : option (list Z) :=
  b ← heap p !! a; n ← B b; Some (take (Z.to_nat n) (full b)).

(** * Ownership *)

(** [own] is the set of buffers obtained and not yet released. *)
Definition owned_caps (p : Pool) (own : gset nat) : Z :=
  zsum (λ a, from_option cap 0 (heap p !! a)) (elements own).

(** A pooled object has the size of its class. *)
Definition buf_ok (b : Buf) : Prop :=
  class b = -1 ∨ (0 <= class b < numClasses ∧ cap b = Z.shiftl MinSize (class b)).

(** The objects waiting in the pools are sound, distinct and owned by nobody. *)
Record pools_ok (p : Pool) (own : gset nat) : Prop := {
  po_len : length (free p) = Z.to_nat numClasses;
  po_free : ∀ c l a, free p !! c = Some l → a ∈ l →
    ∃ b, heap p !! a = Some b ∧ class b = Z.of_nat c ∧ (a ∉ own);
  po_nodup : NoDup (concat (free p));
  po_buf : ∀ a b, heap p !! a = Some b → buf_ok b;
  po_live : ∀ a b, debug = true → heap p !! a = Some b → live b = bool_decide (a ∈ own) }.

Definition holds_buf (p : Pool) (a : nat) (n : Z) : Prop :=
  ∃ b, heap p !! a = Some b ∧ B b = Some n ∧ 0 <= n ∧ cap b = Capacity n ∧ class b = classOf n.

Record owns (p : Pool) (own : gset nat) : Prop := {
  ow_pools : pools_ok p own;
  ow_own : ∀ a, a ∈ own → ∃ n, holds_buf p a n;
  ow_budget : ∀ m u, budget p = Some (m, u) →
    0 < m <= max_int64 ∧ 0 <= u <= m ∧ u = owned_caps p own;
  ow_out : debug = true → outstanding p = i64 (Z.of_nat (size own)) }.

Lemma Capacity_ge n : n <= Capacity n.
Proof.
  destruct (Capacity_cases n) as [(? & -> & _)|[(? & -> & _)|(? & _ & -> & ?)]]; lia.
Qed.

Lemma Capacity_pos n : 0 <= n → 0 < Capacity n.
Proof.
  intros. destruct (Capacity_cases n) as [(? & -> & _)|[(? & -> & _)|(? & _ & -> & ?)]];
    change Large with 65536 in *; unfold MinSize in *; lia.
Qed.

Lemma owned_caps_add p p' own a b :
  a ∉ own → heap p' !! a = Some b → (∀ a', a' ∈ own → heap p' !! a' = heap p !! a') →
  owned_caps p' ({[a]} ∪ own) = cap b + owned_caps p own.
Proof.
  intros Ha Hb Hsame. unfold owned_caps.
  rewrite (zsum_perm _ _ _ (elements_union_singleton own a Ha)). simpl. rewrite Hb. simpl.
  f_equal. apply zsum_ext. intros a' Ha'%elem_of_elements. by rewrite Hsame.
Qed.

Lemma owned_caps_nonneg p own : 0 <= owned_caps p own.
Proof. apply zsum_nonneg. intros a. destruct (heap p !! a); simpl; unfold cap; lia. Qed.

Lemma concat_elem (ls : list (list nat)) a :
  a ∈ concat ls ↔ ∃ c l, ls !! c = Some l ∧ a ∈ l.
Proof.
  rewrite list_elem_of_In, in_concat. split.
  - intros (l & [c Hc]%list_elem_of_In%list_elem_of_lookup & Ha%list_elem_of_In). eauto.
  - intros (c & l & Hc & Ha). exists l. split; apply list_elem_of_In; [|done].
    apply list_elem_of_lookup. eauto.
Qed.

(** What taking an object out of its [sync.Pool], or making one, leaves. *)
Definition taken (p p' : Pool) (own : gset nat) (a : nat) (c sz : Z) : Prop :=
  pools_ok p' own ∧ (a ∉ own) ∧ (a ∉ concat (free p')) ∧ budget p' = budget p ∧
  outstanding p' = outstanding p ∧
  (∃ b, heap p' !! a = Some b ∧ class b = c ∧ cap b = sz) ∧
  (∀ a', a' ≠ a → heap p' !! a' = heap p !! a').

Lemma alloc_taken p own b c sz :
  pools_ok p own → (∀ a, a ∈ own → is_Some (heap p !! a)) →
  class b = c → cap b = sz → buf_ok b → live b = false →
  ∃ a p', alloc p b = (a, p') ∧ taken p p' own a c sz.
Proof.
  intros [Hlen Hfree Hnd Hbuf Hlive] Hown Hc Hsz Hok Hl. unfold alloc.
  set (a := fresh (dom (heap p))).
  assert (Ha : heap p !! a = None) by (apply not_elem_of_dom, is_fresh).
  assert (Hao : a ∉ own). { intros ?%Hown. rewrite Ha in *. by destruct H. }
  exists a, (set_heap p (<[a:=b]> (heap p))). split; [done|].
  split; [|split; [done|split; [|split; [done|split; [done|split]]]]]; simpl.
  - split; simpl; try done.
    + intros c' l a' Hl' Ha'. destruct (Hfree _ _ _ Hl' Ha') as (b' & Hb' & ?).
      exists b'. rewrite lookup_insert_ne by congruence. done.
    + intros a' b' [[<- <-]|[? ?]]%lookup_insert_Some; [done|by eauto].
    + intros a' b' Hd [[<- <-]|[? ?]]%lookup_insert_Some; [|by eauto].
      by rewrite bool_decide_eq_false_2.
  - rewrite concat_elem. intros (c' & l & Hl' & Ha').
    destruct (Hfree _ _ _ Hl' Ha') as (b' & Hb' & _). congruence.
  - exists b. by rewrite lookup_insert_eq.
  - intros. by apply lookup_insert_ne.
Qed.

Lemma concat_insert_perm (ls : list (list nat)) c l i a :
  ls !! c = Some l → l !! i = Some a →
  concat ls ≡ₚ a :: concat (<[c := delete i l]> ls).
Proof.
  intros Hc Hi. destruct (insert_decompose _ _ _ (delete i l) Hc) as (l1 & l2 & -> & ->).
  rewrite !concat_app. simpl. rewrite (delete_Permutation l i a Hi) at 1.
  rewrite Permutation_middle. done.
Qed.

Lemma pool_get_taken p own (c : nat) pick :
  pools_ok p own → (∀ a, a ∈ own → is_Some (heap p !! a)) → Z.of_nat c < numClasses →
  ∃ a p', pool_get p c pick = (a, p') ∧
          taken p p' own a (Z.of_nat c) (Z.shiftl MinSize (Z.of_nat c)).
Proof.
  intros Hp Hown Hc. unfold pool_get.
  destruct (pick ≫= _) as [[a l']|] eqn:Hpick; last first.
  { assert (Hcap : cap (mkBuf (zeroes (Z.shiftl MinSize (Z.of_nat c))) None (Z.of_nat c) false)
                   = Z.shiftl MinSize (Z.of_nat c)).
    { unfold cap, zeroes. simpl. rewrite length_replicate, Z2Nat.id; [done|].
      unfold MinSize. rewrite class_size by lia. lia. }
    apply alloc_taken; try done. right. simpl. split; [lia|done]. }
  apply bind_Some in Hpick as (i & -> & (l & Hl & (a' & Hi & [= -> <-])%bind_Some)%bind_Some).
  destruct Hp as [Hlen Hfree Hnd Hbuf Hlive].
  pose proof (list_elem_of_lookup_2 _ _ _ Hi) as Hel.
  destruct (Hfree _ _ _ Hl Hel) as (b & Hb & Hcl & Hna).
  pose proof (concat_insert_perm _ _ _ _ _ Hl Hi) as Hperm.
  rewrite Hperm in Hnd. apply NoDup_cons in Hnd as [Hnin Hnd].
  eexists _, _. split; [done|].
  split; [|split; [done|split; [done|split; [done|split; [done|split; [|done]]]]]].
  - split; simpl; try done; [by rewrite length_insert|].
    intros c' l' a' Hl' Ha'. apply list_lookup_insert_Some in Hl' as [(<- & <- & _)|(_ & Hl')];
      [|by eapply Hfree].
    apply (Hfree c l); [done|]. rewrite (delete_Permutation l i a Hi). by right.
  - exists b. split; [done|]. split; [done|].
    destruct (Hbuf _ _ Hb) as [?|[_ Hs]]; [lia|by rewrite Hs, Hcl].
Qed.

(** Handing out a taken object makes its taker the only owner. *)
Lemma taken_owned p p1 p2 own a c sz n :
  taken p p1 own a c sz → 0 <= n → c = classOf n → sz = Capacity n →
  (∀ a, a ∈ own → ∃ n, holds_buf p a n) →
  heap p1 !! a = Some p2 →
  let p3 := set_heap p1 (<[a := mkBuf (full p2) (Some n) (class p2) (live p2)]> (heap p1)) in
  let p' := onGet p3 a in
  pools_ok p' ({[a]} ∪ own) ∧ (∀ a', a' ∈ {[a]} ∪ own → ∃ n, holds_buf p' a' n) ∧
  holds_buf p' a n ∧ budget p' = budget p1 ∧
  (∀ a', a' ≠ a → heap p' !! a' = heap p !! a') ∧
  (debug = true → outstanding p' = i64 (outstanding p1 + 1)).
Proof.
  intros (Hp & Hao & Haf & _ & _ & (b & Hb & Hcl & Hcap) & Hsame) Hn Hc Hsz Hown Hb2 p3 p'.
  rewrite Hb2 in Hb. injection Hb as <-.
  assert (Hheap : ∃ lv, (debug = true → lv = true) ∧
            heap p' = <[a := mkBuf (full p2) (Some n) (class p2) lv]> (heap p1)).
  { unfold p', p3, onGet. destruct debug; [|by exists (live p2)]. exists true. split; [done|].
    simpl. apply map_eq. intros k. rewrite lookup_alter, !lookup_insert.
    repeat case_decide; subst; done. }
  assert (Hfree : free p' = free p1) by (unfold p', p3, onGet; by destruct debug).
  destruct Hheap as (lv & Hlv & Hheap).
  assert (Ha' : holds_buf p' a n).
  { exists (mkBuf (full p2) (Some n) (class p2) lv). rewrite Hheap, lookup_insert_eq.
    repeat split; try done; unfold cap in *; simpl; congruence. }
  assert (Hne : ∀ a', a' ≠ a → heap p' !! a' = heap p !! a').
  { intros. rewrite Hheap, lookup_insert_ne, Hsame by done. done. }
  destruct Hp as [Hlen Hf Hnd Hbuf Hlive].
  split; [|split; [|split; [done|split; [unfold p', p3, onGet; by destruct debug|split; [done|]]]]].
  - split; rewrite ?Hfree, ?Hheap; try done.
    + intros c0 l a' Hl Ha. destruct (Hf _ _ _ Hl Ha) as (b' & Hb' & ? & ?).
      assert (a' ≠ a). { intros ->. apply Haf, concat_elem. eauto. }
      exists b'. rewrite lookup_insert_ne by done. split; [done|split; [done|]].
      rewrite elem_of_union, elem_of_singleton. by intros [|].
    + intros a' b' [[<- <-]|[? ?]]%lookup_insert_Some; [|by eauto]. apply (Hbuf a p2 Hb2).
    + intros a' b' Hd [[<- <-]|[? Hb']]%lookup_insert_Some; simpl.
      * rewrite bool_decide_eq_true_2 by set_solver. by apply Hlv.
      * rewrite (Hlive _ _ Hd Hb'). apply bool_decide_ext.
        rewrite elem_of_union, elem_of_singleton. split; [by right|by intros [|]].
  - intros a' [->%elem_of_singleton|Ho]%elem_of_union; [by eauto|].
    destruct (Hown a' Ho) as (n' & b' & Hb' & ?). exists n', b'.
    rewrite Hne; [done|]. intros ->. done.
  - intros Hd. unfold p', p3, onGet. by rewrite Hd.
Qed.

Lemma owned_live p own a : owns p own → a ∈ own → is_Some (heap p !! a).
Proof. intros [_ Ho _ _] (n & b & -> & _)%Ho. done. Qed.

Lemma charge_spec p own c :
  owns p own → 0 <= c →
  (∃ p1, charge p c = (p1, true) ∧ heap p1 = heap p ∧ free p1 = free p ∧
     outstanding p1 = outstanding p ∧
     ∀ m u, budget p1 = Some (m, u) →
       budget p = Some (m, u - c) ∧ u <= m) ∨
  (∃ m u, budget p = Some (m, u) ∧ charge p c = (p, false) ∧ m < u + c).
Proof.
  intros [_ _ Hb _] Hc. unfold charge.
  destruct (budget p) as [[m u]|] eqn:Hbud; [|left; exists p; by rewrite Hbud].
  destruct (Hb m u eq_refl) as (Hm & Hu & _). rewrite Limit.Budget.reserve_spec by done.
  destruct (Z.leb_spec (u + c) m).
  - left. eexists; split; [done|]. simpl. repeat split; try done; intros; simplify_eq.
    + repeat f_equal. lia.
    + lia.
  - right. exists m, u. split; [done|split; [|lia]].
    unfold set_budget. rewrite <- Hbud. by destruct p.
Qed.

Lemma Get_spec p own n pick :
  owns p own → 0 <= n →
  ∃ p' r, Get p n pick = Some (p', r) ∧
    match r with
    | None => p' = p ∧ ∃ m u, budget p = Some (m, u) ∧ m < u + Capacity n
    | Some a => (a ∉ own) ∧ owns p' ({[a]} ∪ own) ∧ holds_buf p' a n ∧
                (∀ a', a' ≠ a → heap p' !! a' = heap p !! a') ∧
                ∀ m u, budget p' = Some (m, u) → budget p = Some (m, u - Capacity n)
    end.
Proof.
  intros Ho Hn. unfold Get. destruct (Z.ltb_spec n 0); [lia|].
  change (if 0 <=? classOf n then Z.shiftl MinSize (classOf n) else n) with (Capacity n).
  pose proof (Capacity_pos n Hn) as Hpos.
  destruct (charge_spec p own (Capacity n) Ho) as [(p1 & -> & Hh & Hf & Hout & Hbud)|(m & u & Hb & -> & Hlt)];
    [lia| |exists p, None; split; [done|split; [done|by exists m, u]]].
  assert (Hp1 : pools_ok p1 own).
  { destruct Ho as [[] _ _ _]. split; rewrite ?Hh, ?Hf; done. }
  assert (Hlive : ∀ a, a ∈ own → is_Some (heap p1 !! a)).
  { rewrite Hh. intros. by eapply owned_live. }
  assert (∃ a p2, (if 0 <=? classOf n then pool_get p1 (Z.to_nat (classOf n)) pick
                   else alloc p1 (mkBuf (zeroes n) None (-1) false)) = (a, p2) ∧
                  taken p1 p2 own a (classOf n) (Capacity n)) as (a & p2 & -> & Ht).
  { pose proof (classOf_range n). destruct (Z.leb_spec 0 (classOf n)).
    - destruct (pool_get_taken p1 own (Z.to_nat (classOf n)) pick) as (a & p2 & -> & Ht); [done..|lia|].
      rewrite Z2Nat.id in Ht by lia. exists a, p2. split; [done|]. unfold Capacity.
      by destruct (Z.leb_spec 0 (classOf n)); [|lia].
    - assert (classOf n = -1) as Hcl by lia. rewrite Hcl. apply alloc_taken; try done.
      + unfold cap, zeroes, Capacity. simpl. rewrite length_replicate, Hcl. simpl. lia.
      + by left. }
  pose proof Ht as (_ & Hao & _ & Hb2 & Ho2 & (b & Hb & Hcl & Hcap) & _).
  rewrite Hb. simpl. pose proof (Capacity_cases n) as Hcc.
  destruct (Z.ltb_spec (Z.of_nat (length (full b))) n).
  { unfold cap in Hcap. lia. }
  eexists _, _. split; [done|]. cbv zeta beta.
  destruct (taken_owned p1 p2 b own a _ _ n Ht Hn eq_refl eq_refl) as (Hpo & Hho & Hha & Hbu & Hne & Hou);
    [|done|].
  { intros a' Ha'. destruct (ow_own _ _ Ho a' Ha') as (n' & b' & Hb' & ?). exists n', b'. by rewrite Hh. }
  rewrite Hh in Hne. split; [done|]. split; [|split; [done|split; [done|]]].
  - split; [done|done| |].
    + intros m u. rewrite Hbu, Hb2. intros Hm. destruct (Hbud m u Hm) as (Hm' & Hle).
      destruct (ow_budget _ _ Ho _ _ Hm') as (? & ? & Hu). split; [done|].
      destruct Hha as (b' & Hb' & _ & _ & Hc' & _).
      rewrite (owned_caps_add p _ own a b'); [lia|done|done|].
      intros a' Ha'. apply Hne. intros ->. done.
    + intros Hd. rewrite (Hou Hd), Ho2, Hout, (ow_out _ _ Ho Hd), i64_add_l.
      rewrite size_union, size_singleton by set_solver. f_equal. lia.
  - intros m u. rewrite Hbu, Hb2. intros Hm. by apply Hbud.
Qed.

Lemma alter_cons_perm (ls : list (list nat)) (c a : nat) :
  (c < length ls)%nat → concat (alter (cons a) c ls) ≡ₚ a :: concat ls.
Proof.
  revert c. induction ls as [|l ls IH]; intros [|c] Hc; simpl in *; try lia; [done|].
  transitivity (l ++ a :: concat ls).
  - apply Permutation_app_head, IH. lia.
  - by rewrite Permutation_middle.
Qed.

(** A buffer [a] leaving its owner for the pool of its class. *)
Lemma pool_put_ok p own a b :
  pools_ok p own → heap p !! a = Some b → a ∉ own → a ∉ concat (free p) →
  pools_ok (if 0 <=? class b then pool_put p (Z.to_nat (class b)) a else p) own.
Proof.
  intros Hp Hb Hao Haf. destruct (Z.leb_spec 0 (class b)); [|done].
  destruct Hp as [Hlen Hf Hnd Hbuf Hlive]. pose proof (Hbuf a b Hb) as [?|[? _]]; [lia|].
  split; simpl; try done.
  - by rewrite length_alter.
  - intros c l a'. rewrite list_lookup_alter. case_decide as Hc; [|by apply Hf].
    intros (l0 & Hl0 & ->)%fmap_Some. subst c.
    intros [->|Ha']%elem_of_cons; [|by eapply Hf].
    exists b. split; [done|split; [lia|done]].
  - rewrite alter_cons_perm by (unfold numClasses in *; lia). by apply NoDup_cons.
Qed.

(** The object of a released buffer: same size and class, no [B], not live. *)
Lemma Release_heap p own a n :
  owns p own → a ∈ own → holds_buf p a n →
  ∃ p2 bF, 
    Release p (Some a) =
      Some (if 0 <=? class bF then pool_put p2 (Z.to_nat (class bF)) a else p2) ∧
    heap p2 = <[a := bF]> (heap p) ∧ free p2 = free p ∧
    (class bF = classOf n ∧ cap bF = Capacity n ∧ B bF = None ∧ (debug = true → live bF = false)) ∧
    (∀ m u, budget p2 = Some (m, u) → budget p = Some (m, u + Capacity n) ∧ 0 <= u) ∧
    (debug = true → outstanding p2 = i64 (outstanding p - 1)).
Proof.
  intros Ho Ha (b & Hb & HB & Hn & Hcap & Hcl). unfold Release.
  assert (∃ p1 b1, onRelease p a = Some p1 ∧ heap p1 = <[a := b1]> (heap p) ∧
            free p1 = free p ∧ budget p1 = budget p ∧ class b1 = classOf n ∧
            cap b1 = Capacity n ∧ (debug = true → live b1 = false) ∧
            (debug = true → outstanding p1 = i64 (outstanding p - 1)))
    as (p1 & b1 & -> & Hh1 & Hf1 & Hb1 & Hc1 & Hs1 & Hl1 & Ho1).
  { unfold onRelease. destruct debug eqn:Hd.
    - rewrite Hb. simpl. rewrite (po_live _ _ (ow_pools _ _ Ho) a b Hd Hb).
      rewrite bool_decide_eq_true_2 by done. eexists _, _. split; [done|].
      split; [done|]. repeat split; try done. unfold cap in *. simpl. by rewrite length_replicate.
    - exists p, b. by rewrite insert_id. }
  simpl. rewrite Hh1, lookup_insert_eq. simpl. unfold refund. rewrite Hb1.
  assert (∃ p2, (match budget p with
                 | None => Some p1
                 | Some (m, u) => u' ← Limit.Budget.release u (cap b1);
                     Some (set_budget p1 (Some (m, u'))) end) = Some p2 ∧
            heap p2 = heap p1 ∧ free p2 = free p1 ∧ outstanding p2 = outstanding p1 ∧
            (∀ m u, budget p2 = Some (m, u) → budget p = Some (m, u + Capacity n) ∧ 0 <= u))
    as (p2 & -> & Hh2 & Hf2 & Ho2 & Hb2).
  { destruct (budget p) as [[m u]|] eqn:Hbud.
    - destruct (ow_budget _ _ Ho m u Hbud) as (Hm & Hu & Hsum).
      assert (Capacity n <= u).
      { rewrite Hsum, <- Hcap. unfold owned_caps.
        replace (cap b) with (from_option cap 0 (heap p !! a)) by (by rewrite Hb).
        apply (zsum_elem_pos (λ a, from_option cap 0 (heap p !! a))); [|by apply elem_of_elements].
        intros x. destruct (heap p !! x); simpl; unfold cap; lia. }
      pose proof (Capacity_pos n Hn).
      rewrite Hs1, Limit.Budget.release_spec by lia. simpl. eexists; split; [done|].
      repeat split; try done; intros; simplify_eq/=; [repeat f_equal; lia|lia].
    - exists p1. by rewrite Hb1. }
  simpl. rewrite Hh2, Hh1, insert_insert_eq.
  exists (set_heap p2 (<[a := mkBuf (full b1) None (class b1) (live b1)]> (heap p))),
         (mkBuf (full b1) None (class b1) (live b1)).
  split; [done|]. simpl. repeat split; try done; try congruence; try (by apply Hb2).
  - by eapply Hb2.
  - intros Hd. rewrite Ho2. by apply Ho1.
Qed.

Lemma Release_spec p own a :
  owns p own → a ∈ own →
  ∃ p' n, Release p (Some a) = Some p' ∧ owns p' (own ∖ {[a]}) ∧ holds_buf p a n ∧
    (∀ a', a' ≠ a → heap p' !! a' = heap p !! a') ∧
    (∀ m u, budget p' = Some (m, u) → budget p = Some (m, u + Capacity n)).
Proof.
  intros Ho Ha. destruct (ow_own _ _ Ho a Ha) as (n & Hh).
  destruct (Release_heap p own a n Ho Ha Hh) as (p2 & bF & -> & Hh2 & Hf2 & (Hc & Hs & _ & Hl) & Hb2 & Hout).
  set (p' := if 0 <=? class bF then _ else _).
  assert (heap p' = heap p2 ∧ budget p' = budget p2 ∧ outstanding p' = outstanding p2)
    as (Hp1 & Hp2 & Hp3) by (unfold p'; by case_match).
  assert (Hne : ∀ a', a' ≠ a → heap p' !! a' = heap p !! a').
  { intros. rewrite Hp1, Hh2. by apply lookup_insert_ne. }
  exists p', n. split; [done|]. split; [|split; [done|split; [done|]]].
  2: { intros m u. rewrite Hp2. by apply Hb2. }
  assert (Hown : ∀ a', a' ∈ own ∖ {[a]} → a' ≠ a ∧ a' ∈ own) by set_solver.
  destruct Hh as (b & Hb & _ & Hn & Hcap & Hcl).
  split.
  - apply pool_put_ok; [|by rewrite Hh2, lookup_insert_eq|set_solver|].
    + destruct (ow_pools _ _ Ho) as [Hlen Hf Hnd Hbuf Hlive].
      split; rewrite ?Hf2, ?Hh2; try done.
      * intros c l a' Hl' Ha'. destruct (Hf _ _ _ Hl' Ha') as (b' & Hb' & ? & ?).
        exists b'. rewrite lookup_insert_ne by congruence. set_solver.
      * intros a' b' [[<- <-]|[? ?]]%lookup_insert_Some; [|by eauto].
        destruct (Hbuf a b Hb) as [?|[? Hsz]]; [left|right]; congruence || (split; congruence).
      * intros a' b' Hd [[<- <-]|[? Hb']]%lookup_insert_Some.
        -- rewrite bool_decide_eq_false_2 by set_solver. by apply Hl.
        -- rewrite (Hlive _ _ Hd Hb'). apply bool_decide_ext. set_solver.
    + rewrite Hf2, concat_elem. intros (c & l & Hl' & Ha').
      by destruct (po_free _ _ (ow_pools _ _ Ho) _ _ _ Hl' Ha') as (? & _ & _ & ?).
  - intros a' [Hna Ha']%Hown. destruct (ow_own _ _ Ho a' Ha') as (n' & b' & Hb' & ?).
    exists n', b'. by rewrite Hne.
  - intros m u. rewrite Hp2. intros Hbu. destruct (Hb2 _ _ Hbu) as [Hm ?].
    destruct (ow_budget _ _ Ho _ _ Hm) as (? & ? & Hsum).
    pose proof (Capacity_pos n Hn). split; [done|split; [lia|]].
    assert (own = {[a]} ∪ (own ∖ {[a]})) as Heq by (by apply union_difference_singleton_L).
    rewrite Heq, (owned_caps_add p' p (own ∖ {[a]}) a b) in Hsum; [lia|set_solver|done|].
    intros a' [? ?]%Hown. by rewrite Hne.
  - intros Hd. rewrite Hp3, (Hout Hd), (ow_out _ _ Ho Hd), size_difference, size_singleton by set_solver.
    unfold Z.sub. rewrite i64_add_l. f_equal.
    assert (size own ≠ 0)%nat by (intros ?%size_empty_inv; set_solver). lia.
Qed.

(** Writing into a buffer keeps everything but its contents. *)
Lemma owns_write p own a data :
  owns p own → a ∈ own → (∀ b, heap p !! a = Some b → (length data <= length (full b))%nat) →
  owns (copy_into p a data) own ∧ ∀ a', a' ≠ a → heap (copy_into p a data) !! a' = heap p !! a'.
Proof.
  intros Ho Ha Hlen. destruct (ow_own _ _ Ho a Ha) as (n & b & Hb & HB & Hn & Hcap & Hcl).
  set (b' := mkBuf (data ++ drop (length data) (full b)) (B b) (class b) (live b)).
  assert (Hcb : cap b' = cap b).
  { unfold cap, b'. simpl. rewrite length_app, length_drop. specialize (Hlen b Hb). lia. }
  assert (Hh : heap (copy_into p a data) = <[a := b']> (heap p)).
  { unfold copy_into. simpl. apply map_eq. intros k.
    rewrite lookup_alter, lookup_insert. case_decide; subst; [by rewrite Hb|done]. }
  assert (Hne : ∀ a', a' ≠ a → heap (copy_into p a data) !! a' = heap p !! a').
  { intros. rewrite Hh. by apply lookup_insert_ne. }
  split; [|done]. destruct Ho as [[Hlf Hf Hnd Hbuf Hlive] Hown Hbud Hout].
  split; [split| | |]; rewrite ?Hh; try done.
  - intros c l a' Hl Ha'. destruct (Hf _ _ _ Hl Ha') as (b0 & Hb0 & ?).
    destruct (decide (a' = a)) as [->|]; [|exists b0; by rewrite lookup_insert_ne].
    exists b'. rewrite lookup_insert_eq. split; [done|]. simplify_eq. done.
  - intros a' b0 [[<- <-]|[? ?]]%lookup_insert_Some; [|by eauto].
    unfold buf_ok. rewrite Hcb. apply (Hbuf a b Hb).
  - intros a' b0 Hd [[<- <-]|[? ?]]%lookup_insert_Some; [|by eauto]. by apply (Hlive a b).
  - intros a' Ha'. destruct (decide (a' = a)) as [->|].
    + exists n, b'. rewrite Hh, lookup_insert_eq, Hcb. done.
    + destruct (Hown a' Ha') as (n' & b0 & ? & ?). exists n', b0. by rewrite Hne.
  - intros m u Hmu. destruct (Hbud m u Hmu) as (? & ? & ->). split; [done|split; [done|]].
    unfold owned_caps. apply zsum_ext. intros a' _. rewrite Hh, lookup_insert.
    case_decide; subst; [|done]. rewrite Hb. simpl. by rewrite Hcb.
Qed.

Lemma owns_gc p own c i : owns p own → owns (pool_gc p c i) own.
Proof.
  intros [[Hlf Hf Hnd Hbuf Hlive] Hown Hbud Hout]. split; [split| | |]; try done; simpl.
  - by rewrite length_alter.
  - intros c' l a. rewrite list_lookup_alter. case_decide; [|by apply Hf].
    subst c'. intros (l0 & Hl0 & ->)%fmap_Some Ha. apply (Hf c l0); [done|].
    eapply elem_of_submseteq; [done|]. apply sublist_submseteq, sublist_delete.
  - eapply sublist_NoDup; [exact Hnd|]. clear. revert c.
    induction (free p) as [|l ls IH]; intros [|c]; simpl; try done.
    + apply sublist_app; [apply sublist_delete|done].
    + apply sublist_app; [done|apply IH].
Qed.

(** What a program that respects the ownership rules of the package can do. *)
Inductive client : Pool * gset nat → Pool * gset nat → Prop :=
  | client_get p own n pick p' a :
      Get p n pick = Some (p', Some a) → client (p, own) (p', {[a]} ∪ own)
  | client_refused p own n pick p' :
      Get p n pick = Some (p', None) → client (p, own) (p', own)
  | client_release p own a p' :
      a ∈ own → Release p (Some a) = Some p' → client (p, own) (p', own ∖ {[a]})
  | client_write p own a data :
      a ∈ own → (∀ b, heap p !! a = Some b → (length data <= length (full b))%nat) →
      client (p, own) (copy_into p a data, own)
  | client_gc p own c i : client (p, own) (pool_gc p c i, own).

Lemma owns_client x y : owns x.1 x.2 → client x y → owns y.1 y.2.
Proof.
  intros Ho Hc. destruct Hc as [p own n pick p' a Hg|p own n pick p' Hg|p own a p' Ha Hr|p own a data Ha Hd|p own c i];
    cbn [fst snd] in *.
  - destruct (Z.ltb_spec n 0) as [Hn|Hn].
    { unfold Get in Hg. by destruct (Z.ltb_spec n 0); [|lia]. }
    destruct (Get_spec p own n pick Ho Hn) as (p1 & r & Hg' & Hr). rewrite Hg in Hg'. simplify_eq.
    by destruct Hr as (_ & ? & _).
  - destruct (Z.ltb_spec n 0) as [Hn|Hn].
    { unfold Get in Hg. by destruct (Z.ltb_spec n 0); [|lia]. }
    destruct (Get_spec p own n pick Ho Hn) as (p1 & r & Hg' & Hr). rewrite Hg in Hg'. simplify_eq.
    by destruct Hr as [-> _].
  - destruct (Release_spec p own a Ho Ha) as (p1 & n & Hr' & ? & _). rewrite Hr in Hr'. by simplify_eq.
  - by apply owns_write.
  - by apply owns_gc.
Qed.

Lemma owns_NewPool bud :
  (∀ m u, bud = Some (m, u) → 0 < m <= max_int64 ∧ u = 0) → owns (NewPool bud) ∅.
Proof.
  intros Hb. split; [split| | |]; try done.
  - intros c l a Hl Ha. cbn [free NewPool] in Hl.
    apply lookup_replicate in Hl as [-> _]. by apply not_elem_of_nil in Ha.
  - apply NoDup_nil_2.
  - intros m u Hm. destruct (Hb m u Hm) as [? ->]. simpl in *. split; [done|]. split; [lia|].
    done.
Qed.

Lemma owns_reachable bud p own :
  (∀ m u, bud = Some (m, u) → 0 < m <= max_int64 ∧ u = 0) →
  rtc client (NewPool bud, ∅) (p, own) → owns p own.
Proof.
  intros Hb Hr. change (owns (p, own).1 (p, own).2).
  set (x := (NewPool bud, ∅)) in Hr. assert (owns x.1 x.2) as Hx by by apply owns_NewPool.
  clearbody x. induction Hr as [|x y z Hxy _ IH]; [done|]. apply IH. by eapply owns_client.
Qed.

(** C10: in every program that releases only what it owns, whatever objects
    the [sync.Pool]s return or lose: the buffers waiting in the pools are
    owned by nobody, every owned buffer has the capacity promised for its
    length, the budget's [Used] is exactly the sum of the owned capacities and
    at most its maximum, and (debug build) [Outstanding] counts the owned
    buffers. *)
Theorem pool_ownership bud p own :
  (∀ m u, bud = Some (m, u) → 0 < m <= max_int64 ∧ u = 0) →
  rtc client (NewPool bud, ∅) (p, own) →
  (∀ a, a ∈ concat (free p) → a ∉ own) ∧ NoDup (concat (free p)) ∧
  (∀ a, a ∈ own → ∃ n, holds_buf p a n) ∧
  (∀ m u, budget p = Some (m, u) → 0 <= u <= m ∧ u = owned_caps p own) ∧
  (debug = true → Outstanding p = i64 (Z.of_nat (size own))).
Proof.
  intros Hb Hr. destruct (owns_reachable bud p own Hb Hr) as [[Hlf Hf Hnd Hbuf _] Hown Hbud Hout].
  split; [|split; [done|split; [done|split]]].
  - intros a (c & l & Hl & Ha)%concat_elem. by destruct (Hf _ _ _ Hl Ha) as (? & _ & _ & ?).
  - intros m u Hm. by destruct (Hbud m u Hm) as (_ & ? & ?).
  - intros Hd. unfold Outstanding. rewrite Hd. by apply Hout.
Qed.

(** In such a program [Get] never panics on a size that is not negative
    and gives nobody else's buffer: either the budget cannot take the
    capacity, nothing changes and the result is nil, or the result is a buffer
    not owned before, of the requested length and promised capacity, the
    budget is charged that capacity, and no other object changes. *)
Theorem get_fresh_buffer bud p own n pick :
  (∀ m u, bud = Some (m, u) → 0 < m <= max_int64 ∧ u = 0) →
  rtc client (NewPool bud, ∅) (p, own) → 0 <= n →
  ∃ p' r, Get p n pick = Some (p', r) ∧
    match r with
    | None => p' = p ∧ ∃ m u, budget p = Some (m, u) ∧ m < u + Capacity n
    | Some a => (a ∉ own) ∧ holds_buf p' a n ∧
                (∀ a', a' ≠ a → heap p' !! a' = heap p !! a') ∧
                ∀ m u, budget p' = Some (m, u) → budget p = Some (m, u - Capacity n)
    end.
Proof.
  intros Hb Hr Hn. pose proof (owns_reachable bud p own Hb Hr) as Ho.
  destruct (Get_spec p own n pick Ho Hn) as (p' & r & Hg & Hs). exists p', r.
  split; [done|]. destruct r; [|done]. by destruct Hs as (? & _ & ? & ? & ?).
Qed.

(** [Release] of an owned buffer succeeds, refunds its capacity, and
    afterwards the releaser owns it no more; in the debug build releasing it a
    second time before it is handed out again panics. *)
Theorem release_refunds_once bud p own a :
  (∀ m u, bud = Some (m, u) → 0 < m <= max_int64 ∧ u = 0) →
  rtc client (NewPool bud, ∅) (p, own) → a ∈ own →
  ∃ p' n, Release p (Some a) = Some p' ∧ holds_buf p a n ∧
    client (p, own) (p', own ∖ {[a]}) ∧
    (∀ m u, budget p' = Some (m, u) → budget p = Some (m, u + Capacity n)) ∧
    (debug = true → Release p' (Some a) = None).
Proof.
  intros Hb Hr Ha. pose proof (owns_reachable bud p own Hb Hr) as Ho.
  destruct (Release_spec p own a Ho Ha) as (p' & n & Hrel & Ho' & Hh & _ & Hbud).
  exists p', n. split; [done|]. split; [done|]. split; [by constructor|]. split; [done|].
  intros Hd. simpl. unfold onRelease. rewrite Hd.
  destruct (heap p' !! a) as [b|] eqn:Hb'; [|done]. simpl.
  rewrite (po_live _ _ (ow_pools _ _ Ho') a b Hd Hb').
  by rewrite bool_decide_eq_false_2 by set_solver.
Qed.

(** [Copy] returns nil or an owned buffer holding exactly the data, and
    leaves the bytes of every buffer somebody owns as they were. *)
Theorem copy_holds_data bud p own data pick :
  (∀ m u, bud = Some (m, u) → 0 < m <= max_int64 ∧ u = 0) →
  rtc client (NewPool bud, ∅) (p, own) →
  ∃ p' r, Copy p data pick = Some (p', r) ∧
    match r with
    | None => p' = p
    | Some a => (a ∉ own) ∧ bytes p' a = Some data ∧
                ∀ a', a' ∈ own → bytes p' a' = bytes p a'
    end.
Proof.
  intros Hb Hr. pose proof (owns_reachable bud p own Hb Hr) as Ho. unfold Copy.
  destruct (Get_spec p own (Z.of_nat (length data)) pick Ho) as (p1 & r & -> & Hs); [lia|].
  simpl. destruct r as [a|]; [|destruct Hs as [-> _]; by exists p, None].
  destruct Hs as (Hao & Ho1 & (b & Hb1 & HB & _ & Hcap & _) & Hne & _).
  pose proof (Capacity_ge (Z.of_nat (length data))) as Hle.
  destruct (owns_write p1 ({[a]} ∪ own) a data Ho1) as [_ Hne2]; [set_solver| |].
  { intros b'. rewrite Hb1. intros [= <-]. unfold cap in Hcap. lia. }
  eexists _, _. split; [done|]. split; [done|]. split.
  - unfold bytes, copy_into. simpl. rewrite lookup_alter_eq, Hb1. simpl. rewrite HB. simpl.
    f_equal. rewrite Nat2Z.id. by rewrite take_app_length.
  - intros a' Ha'. assert (a' ≠ a) by (intros ->; done). unfold bytes.
    by rewrite Hne2, Hne.
Qed.
End build.

(** ** Concrete pools *)

(** A budget of 300: 100 bytes cost 128, a second 128 leave 44. *)
Definition demo_bud : option (Z * Z) := Some (300, 0).

Lemma demo_bud_ok m u : demo_bud = Some (m, u) → 0 < m <= max_int64 ∧ u = 0.
Proof. intros [= <- <-]. unfold max_int64. lia. Qed.

Definition demo_pool (debug : bool) : Pool * nat :=
  match Get debug (NewPool demo_bud) 100 None with
  | Some (p, Some a) => (p, a)
  | _ => (NewPool None, 0%nat)
  end.

Lemma buf_demo_reachable debug :
  rtc (client debug) (NewPool demo_bud, ∅) ((demo_pool debug).1, {[(demo_pool debug).2]}).
Proof.
  apply rtc_once.
  replace {[(demo_pool debug).2]} with ({[(demo_pool debug).2]} ∪ (∅ : gset nat)) by set_solver.
  apply (client_get debug _ _ 100 None). destruct debug; vm_compute; reflexivity.
Qed.

Lemma pool_ownership_witness :
  budget (demo_pool true).1 = Some (300, 128) ∧
  ∀ m u, budget (demo_pool true).1 = Some (m, u) →
         0 <= u <= m ∧ u = owned_caps (demo_pool true).1 {[(demo_pool true).2]}.
Proof.
  split; [vm_compute; reflexivity|].
  apply (pool_ownership true demo_bud _ _ demo_bud_ok (buf_demo_reachable true)).
Defined.

Lemma get_fresh_buffer_witness :
  ∃ p' a, Get false (demo_pool false).1 120 None = Some (p', Some a) ∧
    (a ∉ ({[(demo_pool false).2]} : gset nat)) ∧ budget p' = Some (300, 256).
Proof.
  destruct (get_fresh_buffer false demo_bud _ _ 120 None demo_bud_ok (buf_demo_reachable false))
    as (p' & r & Hg & Hr); [lia|].
  destruct r as [a|]; [|vm_compute in Hg; discriminate Hg].
  exists p', a. split; [exact Hg|]. destruct Hr as (Ha & _). split; [exact Ha|].
  vm_compute in Hg. by injection Hg as <- _.
Defined.

Lemma release_refunds_once_witness :
  ∃ p', Release true (demo_pool true).1 (Some (demo_pool true).2) = Some p' ∧
        budget p' = Some (300, 0) ∧ Release true p' (Some (demo_pool true).2) = None.
Proof.
  destruct (release_refunds_once true demo_bud _ _ (demo_pool true).2 demo_bud_ok (buf_demo_reachable true))
    as (p' & n & Hr & _ & _ & _ & Hd); [set_solver|].
  exists p'. split; [exact Hr|]. split; [|apply (Hd eq_refl)].
  vm_compute in Hr. by injection Hr as <-.
Defined.

Lemma copy_holds_data_witness :
  ∃ p' a, Copy false (demo_pool false).1 [7; 8; 9] None = Some (p', Some a) ∧
    bytes p' a = Some [7; 8; 9].
Proof.
  destruct (copy_holds_data false demo_bud _ _ [7; 8; 9] None demo_bud_ok (buf_demo_reachable false))
    as (p' & r & Hg & Hr).
  destruct r as [a|]; [|vm_compute in Hg; discriminate Hg].
  exists p', a. split; [exact Hg|]. by destruct Hr as (_ & Hb & _).
Defined.

(** In the release build a second [Release] is not noticed: the pool then
    hands the same object to two owners. *)
Lemma double_release_aliases :
  ∃ p1 p2 p3 p4 a, Release false (demo_pool false).1 (Some (demo_pool false).2) = Some p1 ∧
    Release false (set_budget p1 None) (Some (demo_pool false).2) = Some p2 ∧
    Get false p2 100 (Some 0%nat) = Some (p3, Some a) ∧
    Get false p3 100 (Some 0%nat) = Some (p4, Some a).
Proof. do 5 eexists. repeat split; vm_compute; reflexivity. Qed.
