(* ===== verification/Flow.v ===== *)
(** Package flow: one flow under concurrency ([src/flow/flow.go]).

    The state word and the [seen] word are atomics. Every method is split into
    its atomic actions; goroutines run any sequences of methods, and the clock
    the flow reads may be set to any value at any time. *)
From S2P Require Import Prelude Interleave.

Local Open Scope Z_scope.

Inductive State := Open | Closing | Closed.

#[global] Instance State_eq_dec : EqDecision State.
Proof. solve_decision. Defined.

Definition State_String (s : State) : string :=
  match s with Open => "open" | Closing => "closing" | Closed => "closed" end.

Definition rank (s : State) : Z := match s with Open => 0 | Closing => 1 | Closed => 2 end.

(** The bit of [seen] that stops [Touch]. *)
Definition frozen : Z := 1.
Definition and_not (a b : Z) : Z := Z.ldiff a b.
Definition is_frozen (v : Z) : bool := negb (Z.land v frozen =? 0).

(** [lastID.Add(1)]. *)
Definition NextID (lastID : Z) : Z := u64 (lastID + 1).

Record Flow := mkFlow { id : Z; state : State; seen : Z }.

(** [New] and [newInTable]: [now] is the wall clock or the table's clock. *)
Definition newFlow (lastID now : Z) : Flow * Z :=
  let i := NextID lastID in (mkFlow i Open (and_not now frozen), i).

Definition LastSeen (f : Flow) : Z := and_not (seen f) frozen.
Definition freeze (f : Flow) : Flow := mkFlow (id f) (state f) (Z.lor (seen f) frozen).
Definition set_state (f : Flow) (s : State) : Flow := mkFlow (id f) s (seen f).
Definition set_seen (f : Flow) (v : Z) : Flow := mkFlow (id f) (state f) v.

(** * The methods, action by action *)

Inductive call :=
  | CBeginClose
  | CClose
  | CTouch
  | CFreeze                (* f.freeze() by Table.Remove *)
  | CExpire (cutoff : Z)
  | CTick (t : Z).         (* the clock changes *)

Inductive ret :=
  | RetBegin (ok : bool)
  | RetClose (ok : bool)
  | RetTouch (now : Z)               (* the time it meant to record *)
  | RetExpire (cutoff : Z) (ok : bool).

Inductive pc :=
  | Ready
  | BcFreeze               (* BeginClose: f.freeze() *)
  | ClLoop                 (* Close: s := f.state.Load() *)
  | ClCas (s : State)      (* Close: f.state.CompareAndSwap(s, Closed) *)
  | ClFreeze               (* Close: f.freeze() *)
  | ToLoop (now : Z)       (* Touch: v := f.seen.Load() *)
  | ToCas (now v : Z)      (* Touch: f.seen.CompareAndSwap(v, now) *)
  | ExCas (cutoff v : Z).  (* expire: f.seen.CompareAndSwap(v, v|frozen) *)

Record Local := mkLocal { at_pc : pc; todo : list call; rets : list ret }.
Record Sh := mkSh { flow : Flow; clock : Z }.

Definition goto (l : Local) (p : pc) : Local := mkLocal p (todo l) (rets l).
Definition return_ (l : Local) (x : ret) : Local := mkLocal Ready (todo l) (rets l ++ [x]).
Definition on_flow (s : Sh) (f : Flow) : Sh := mkSh f (clock s).

Definition close_load (s : Sh) (l : Local) : list (Sh * Local) :=
  if bool_decide (state (flow s) = Closed) then [(s, return_ l (RetClose false))]
  else [(s, goto l (ClCas (state (flow s))))].

Definition touch_load (s : Sh) (l : Local) (now : Z) : list (Sh * Local) :=
  let v := seen (flow s) in
  if is_frozen v || (now <=? v) then [(s, return_ l (RetTouch now))] else [(s, goto l (ToCas now v))].

Definition next (s : Sh) (l : Local) : list (Sh * Local) :=
  let f := flow s in
  match at_pc l with
  | Ready =>
      match todo l with
      | [] => []
      | c :: rest =>
          let l := mkLocal Ready rest (rets l) in
          match c with
          | CBeginClose =>
              if bool_decide (state f = Open)
              then [(on_flow s (set_state f Closing), goto l BcFreeze)]
              else [(s, return_ l (RetBegin false))]
          | CClose => close_load s l
          | CTouch => [(s, goto l (ToLoop (and_not (clock s) frozen)))]
          | CFreeze => [(on_flow s (freeze f), l)]
          | CExpire cutoff =>
              let v := seen f in
              if cutoff <=? and_not v frozen then [(s, return_ l (RetExpire cutoff false))]
              else if is_frozen v then [(s, return_ l (RetExpire cutoff true))]
              else [(s, goto l (ExCas cutoff v))]
          | CTick t => [(mkSh f t, l)]
          end
      end
  | BcFreeze => [(on_flow s (freeze f), return_ l (RetBegin true))]
  | ClLoop => close_load s l
  | ClCas st =>
      if bool_decide (state f = st) then [(on_flow s (set_state f Closed), goto l ClFreeze)]
      else [(s, goto l ClLoop)]
  | ClFreeze => [(on_flow s (freeze f), return_ l (RetClose true))]
  | ToLoop now => touch_load s l now
  | ToCas now v =>
      if seen f =? v then [(on_flow s (set_seen f now), return_ l (RetTouch now))]
      else [(s, goto l (ToLoop now))]
  | ExCas cutoff v =>
      if seen f =? v
      then [(on_flow s (set_seen f (Z.lor v frozen)), return_ l (RetExpire cutoff true))]
      else [(s, return_ l (RetExpire cutoff false))]
  end.

Definition init (f : Flow) (clk : Z) (progs : list (list call)) : conf :=
  Conf (mkSh f clk) ((λ cs, mkLocal Ready cs []) <$> progs).

(** * Bit facts *)

Lemma and_not_frozen v : is_frozen (and_not v frozen) = false.
Proof.
  unfold is_frozen, and_not, frozen. apply negb_false_iff, Z.eqb_eq.
  apply Z.bits_inj'. intros i Hi. rewrite Z.land_spec, Z.ldiff_spec, Z.bits_0.
  by destruct (Z.testbit v i), (Z.testbit 1 i).
Qed.

Lemma lor_frozen v : is_frozen (Z.lor v frozen) = true.
Proof.
  unfold is_frozen, frozen. apply negb_true_iff, Z.eqb_neq. intros H.
  apply (f_equal (λ z, Z.testbit z 0)) in H.
  rewrite Z.land_spec, Z.lor_spec in H. simpl in H. by rewrite orb_true_r in H.
Qed.

Lemma and_not_lor v : and_not (Z.lor v frozen) frozen = and_not v frozen.
Proof.
  unfold and_not, frozen. apply Z.bits_inj'. intros i Hi.
  rewrite !Z.ldiff_spec, Z.lor_spec. by destruct (Z.testbit v i), (Z.testbit 1 i).
Qed.

Lemma and_not_idem v : is_frozen v = false → and_not v frozen = v.
Proof.
  unfold is_frozen, and_not, frozen. intros H%negb_false_iff%Z.eqb_eq.
  apply Z.bits_inj'. intros i Hi. apply (f_equal (λ z, Z.testbit z i)) in H.
  rewrite Z.land_spec, Z.bits_0 in H. rewrite Z.ldiff_spec.
  by destruct (Z.testbit v i), (Z.testbit 1 i).
Qed.

Lemma lor_idem v : is_frozen v = true → Z.lor v frozen = v.
Proof.
  unfold is_frozen, frozen. intros H%negb_true_iff%Z.eqb_neq.
  apply Z.bits_inj'. intros i Hi. rewrite Z.lor_spec.
  destruct (decide (i = 0)) as [->|Hne].
  - destruct (Z.testbit v 0) eqn:Hv; [done|]. exfalso. apply H.
    apply Z.bits_inj'. intros j Hj. rewrite Z.land_spec, Z.bits_0.
    destruct (decide (j = 0)) as [->|]; [by rewrite Hv|].
    rewrite (Z.bits_above_log2 1) by (simpl; lia). by rewrite andb_false_r.
  - rewrite (Z.bits_above_log2 1) by (simpl; lia). by rewrite orb_false_r.
Qed.

(** * Invariants *)

(** How one flow may change: the state only moves forward, [LastSeen] never
    moves back, and a frozen [seen] word does not change at all. *)
Record advances (f f' : Flow) : Prop := {
  adv_id : id f' = id f;
  adv_state : rank (state f) <= rank (state f');
  adv_seen : LastSeen f <= LastSeen f';
  adv_frozen : is_frozen (seen f) = true → seen f' = seen f }.

#[global] Instance advances_preorder : PreOrder advances.
Proof.
  split; [split; done || lia|].
  intros f g h [? ? ? H1] [? ? ? H2]. split; try congruence || lia.
  intros Hf. rewrite H2, H1; try done. by rewrite H1.
Qed.

Definition local_ok (f : Flow) (l : Local) : Prop :=
  match at_pc l with
  | BcFreeze => 1 <= rank (state f)
  | ClFreeze => state f = Closed
  | ClCas st => st ≠ Closed
  | ToLoop now => is_frozen now = false
  | ToCas now v => is_frozen now = false ∧ is_frozen v = false ∧ v < now
  | ExCas cutoff v => is_frozen v = false ∧ and_not v frozen < cutoff
  | _ => True
  end.

(** What a result tells about the flow, from then on. *)
Definition ret_ok (f : Flow) (r : ret) : Prop :=
  match r with
  | RetBegin ok => 1 <= rank (state f) ∧ (ok = true → is_frozen (seen f) = true)
  | RetClose ok => state f = Closed ∧ (ok = true → is_frozen (seen f) = true)
  | RetTouch now => is_frozen (seen f) = true ∨ now <= LastSeen f
  | RetExpire cutoff true => is_frozen (seen f) = true ∧ LastSeen f < cutoff
  | _ => True
  end.

Lemma advances_freeze f : advances f (freeze f).
Proof.
  split; simpl; try done; unfold LastSeen; simpl.
  - by rewrite and_not_lor.
  - apply lor_idem.
Qed.

Lemma advances_touch f now :
  is_frozen now = false → is_frozen (seen f) = false → seen f < now → advances f (set_seen f now).
Proof.
  intros Hn Hf Hlt. split; simpl; try done; [|congruence].
  unfold LastSeen. simpl. rewrite !and_not_idem by done. lia.
Qed.

Lemma rank_closed st : 2 <= rank st ↔ st = Closed.
Proof. by destruct st. Qed.

Lemma advances_closed f f' : advances f f' → state f = Closed → state f' = Closed.
Proof. intros [? Hr ? ?] E. rewrite E in Hr. by apply rank_closed. Qed.

Lemma advances_is_frozen f f' :
  advances f f' → is_frozen (seen f) = true → is_frozen (seen f') = true ∧ LastSeen f' = LastSeen f.
Proof. intros [? ? ? Hfr] Hf. unfold LastSeen. by rewrite !Hfr. Qed.

Lemma local_ok_advances f f' l : advances f f' → local_ok f l → local_ok f' l.
Proof.
  intros Hadv. unfold local_ok. destruct (at_pc l); try done.
  - destruct Hadv. lia.
  - by apply advances_closed.
Qed.

Lemma ret_ok_advances f f' r : advances f f' → ret_ok f r → ret_ok f' r.
Proof.
  intros Hadv. pose proof (advances_is_frozen _ _ Hadv) as Hf.
  pose proof (advances_closed _ _ Hadv) as Hc. destruct Hadv as [_ ? ? _].
  destruct r as [ok|ok|now|cutoff []]; simpl; try done.
  - intros [? Hok]. split; [lia|]. intros [? _]%Hok%Hf. done.
  - intros [? Hok]. split; [auto|]. intros [? _]%Hok%Hf. done.
  - intros [[? _]%Hf|?]; [by left|right; lia].
  - intros [[? ?]%Hf ?]. split; [done|lia].
Qed.

Ltac flow_facts :=
  repeat match goal with
    | E : bool_decide _ = true |- _ => apply bool_decide_eq_true in E
    | E : bool_decide _ = false |- _ => apply bool_decide_eq_false in E
    | E : (_ =? _) = true |- _ => apply Z.eqb_eq in E
    | E : (_ <=? _) = true |- _ => apply Z.leb_le in E
    | E : (_ <=? _) = false |- _ => apply Z.leb_gt in E
    | E : (_ || _) = false |- _ => apply orb_false_iff in E as [? ?]
    | E : (_ || _) = true |- _ => apply orb_true_iff in E
    end.

Lemma advances_state f st : rank (state f) <= rank st → advances f (set_state f st).
Proof. by split. Qed.

(** The three ways a result is established. *)
Lemma touch_noop_ok f now :
  is_frozen now = false → is_frozen (seen f) = true ∨ now <= seen f → ret_ok f (RetTouch now).
Proof.
  intros Hn [?|Hle]; [by left|]. destruct (is_frozen (seen f)) eqn:E; [by left|].
  right. unfold LastSeen. by rewrite and_not_idem.
Qed.

Lemma touch_cas_ok f now : is_frozen now = false → ret_ok (set_seen f now) (RetTouch now).
Proof. intros. right. unfold LastSeen. simpl. by rewrite and_not_idem. Qed.

Lemma expire_cas_ok f cutoff :
  LastSeen f < cutoff → ret_ok (freeze f) (RetExpire cutoff true).
Proof.
  intros. split; [apply lor_frozen|]. unfold LastSeen in *. simpl. by rewrite and_not_lor.
Qed.

Lemma begin_false_ok f : state f ≠ Open → ret_ok f (RetBegin false).
Proof. intros. split; [|done]. by destruct (state f). Qed.

Lemma begin_true_ok f : 1 <= rank (state f) → ret_ok (freeze f) (RetBegin true).
Proof. intros. split; [done|]. intros _. apply lor_frozen. Qed.

Lemma close_false_ok f : state f = Closed → ret_ok f (RetClose false).
Proof. by split. Qed.

Lemma close_true_ok f : state f = Closed → ret_ok (freeze f) (RetClose true).
Proof. intros. split; [done|]. intros _. apply lor_frozen. Qed.

#[export] Hint Resolve advances_freeze advances_touch advances_state and_not_frozen
  touch_noop_ok touch_cas_ok expire_cas_ok begin_false_ok begin_true_ok close_false_ok
  close_true_ok : netx.

Lemma next_effect s l s' l' :
  local_ok (flow s) l → (s', l') ∈ next s l →
  local_ok (flow s') l' ∧ advances (flow s) (flow s') ∧
  (rets l' = rets l ∨ ∃ r, rets l' = rets l ++ [r] ∧ ret_ok (flow s') r).
Proof.
  intros Hl H. unfold next, close_load, touch_load in H.
  repeat case_match; inv_elem; flow_facts; unfold local_ok in *; simpl in *;
    repeat match goal with E : at_pc _ = _ |- _ => rewrite E in Hl end;
    destruct_and?; subst.
  all: (split; [by eauto with netx|]).
  all: (split; [first [done | by eauto with netx | apply advances_state; by destruct (state _)]|]).
  all: first [by left | right; eexists; split; [done|]].
  all: try destruct_or!; flow_facts; first [done | by eauto with netx].
Qed.

Definition locals_ok (c : conf) : Prop := Forall (local_ok (flow (shared c))) (procs c).

Lemma locals_ok_init f clk progs : locals_ok (init f clk progs).
Proof. by apply Forall_fmap, Forall_true. Qed.

Lemma locals_ok_step c c' :
  locals_ok c → step next c c' → locals_ok c' ∧ advances (flow (shared c)) (flow (shared c')).
Proof.
  intros Hc Hab. destruct Hab as [i l s s' l' ps Hl Hn]. unfold locals_ok in *. simpl in *.
  destruct (next_effect s l s' l') as (? & Hadv & _); [by eapply Forall_lookup_1|done|].
  split; [|done]. apply Forall_insert; [|done].
  eapply Forall_impl; [exact Hc|]. intros. by eapply local_ok_advances.
Qed.

(** From any reachable configuration on. *)
Lemma reach_advances c c' :
  locals_ok c → rtc (step next) c c' →
  advances (flow (shared c)) (flow (shared c')) ∧ locals_ok c'.
Proof.
  intros Hc. apply (inv_reachable next (λ c',
    advances (flow (shared c)) (flow (shared c')) ∧ locals_ok c')); [done|].
  intros a b [Ha Hok] Hab. destruct (locals_ok_step a b); [done..|]. split; [by etrans|done].
Qed.

Definition results_ok (c : conf) : Prop :=
  ∀ l r, l ∈ procs c → r ∈ rets l → ret_ok (flow (shared c)) r.

Lemma reach_results c c' :
  locals_ok c → results_ok c → rtc (step next) c c' → results_ok c'.
Proof.
  intros Hok Hr H. induction H as [|a b d Hab Hbd IH]; [done|].
  apply IH.
  - eapply reach_advances; [done|]. by apply rtc_once.
  - destruct Hab as [i l s s' l' ps Hl Hn]. intros m r Hm Hin. simpl in *.
    destruct (next_effect s l s' l') as (_ & Hadv & Hrets); [by eapply Forall_lookup_1|done|].
    assert (∀ m, m ∈ ps → r ∈ rets m → ret_ok (flow s') r) as Hold
      by (intros ???; eapply ret_ok_advances; [done|by eapply Hr]).
    apply elem_of_insert_list in Hm as [->|Hm]; [|by eapply Hold].
    apply list_elem_of_lookup_2 in Hl.
    destruct Hrets as [E|(r' & E & Hr')]; rewrite E in Hin; [by eapply Hold|].
    apply elem_of_app in Hin as [?| ->%list_elem_of_singleton]; [by eapply Hold|done].
Qed.

(** ** Close succeeds once *)

Definition count_close (rs : list ret) : Z :=
  zsum (λ r, match r with RetClose true => 1 | _ => 0 end) rs.

(** The [true]s of [Close], returned or about to be. *)
Definition closers (l : Local) : Z :=
  count_close (rets l) + match at_pc l with ClFreeze => 1 | _ => 0 end.

Definition closed_count (f : Flow) : Z := if bool_decide (state f = Closed) then 1 else 0.

Lemma count_close_snoc rs r :
  count_close (rs ++ [r]) = count_close rs + match r with RetClose true => 1 | _ => 0 end.
Proof. unfold count_close. rewrite zsum_app. simpl. lia. Qed.

Lemma next_closers s l s' l' :
  local_ok (flow s) l → (s', l') ∈ next s l →
  closers l' - closers l = closed_count (flow s') - closed_count (flow s).
Proof.
  intros Hl H. unfold next, close_load, touch_load in H. unfold closers, closed_count.
  repeat case_match; inv_elem; flow_facts; unfold local_ok in *; simpl in *;
    repeat match goal with E : at_pc _ = _ |- _ => rewrite E in Hl; try rewrite E end;
    rewrite ?count_close_snoc; repeat case_bool_decide; simpl; try lia; congruence.
Qed.

Definition close_inv (c : conf) : Prop :=
  locals_ok c ∧ zsum closers (procs c) = closed_count (flow (shared c)).

Lemma close_inv_init lastID now clk progs :
  close_inv (init (newFlow lastID now).1 clk progs).
Proof.
  split; simpl; [apply locals_ok_init|].
  apply zsum_zero. intros l (cs & -> & _)%list_elem_of_fmap. done.
Qed.

Lemma close_inv_reach c c' : close_inv c → rtc (step next) c c' → close_inv c'.
Proof.
  intros Hc. apply (inv_reachable next close_inv); [done|].
  intros a b [Hok Hz] Hab. split; [by eapply locals_ok_step|].
  destruct Hab as [i l s s' l' ps Hl Hn]. simpl in *.
  assert (local_ok (flow s) l) as Hol by (by eapply Forall_lookup_1).
  rewrite (zsum_insert _ _ _ _ _ Hl). pose proof (next_closers _ _ _ _ Hol Hn). lia.
Qed.

(** * Properties *)

(** Under any interleaving of [BeginClose], [Close], [Touch], [freeze] and
    [expire] with a clock that may move any way, one flow only moves forward:
    its ID is fixed, its state follows Open, Closing, Closed, [LastSeen] never
    moves back, and once frozen the [seen] word never changes. *)
Theorem flow_moves_forward f clk progs c c' :
  rtc (step next) (init f clk progs) c → rtc (step next) c c' →
  let g := flow (shared c) in
  let g' := flow (shared c') in
  id g' = id g ∧ rank (state g) <= rank (state g') ∧ LastSeen g <= LastSeen g' ∧
  (is_frozen (seen g) = true → seen g' = seen g).
Proof.
  intros Hc H. destruct (reach_advances _ _ (locals_ok_init f clk progs) Hc) as [_ Hok].
  destruct (reach_advances c c' Hok H) as [[? ? ? ?] _]. done.
Qed.

(** A result keeps its meaning at any later moment. After [BeginClose] the
    flow is past Open, and frozen if it returned true; after [Close] it is
    Closed, and frozen if it returned true; after [Touch] the time it read is
    recorded, unless the flow is frozen; once [expire] has returned true the
    flow is frozen and was last seen before the cutoff. *)
Theorem results_keep_meaning f clk progs c c' l r :
  rtc (step next) (init f clk progs) c → l ∈ procs c → r ∈ rets l →
  rtc (step next) c c' → ret_ok (flow (shared c')) r.
Proof.
  intros Hc Hl Hr H. pose proof (locals_ok_init f clk progs) as Hi.
  assert (results_ok (init f clk progs)) as Hri.
  { intros m x (cs & -> & _)%list_elem_of_fmap. intros []%not_elem_of_nil. }
  destruct (reach_advances _ _ Hi Hc) as [_ Hok].
  pose proof (reach_results _ _ Hi Hri Hc _ _ Hl Hr).
  eapply ret_ok_advances; [by eapply reach_advances|done].
Qed.

(** At most one call of [Close] returns true, and when every goroutine has
    finished a closed flow has exactly one such call. *)
Theorem close_true_once lastID now clk progs c :
  rtc (step next) (init (newFlow lastID now).1 clk progs) c →
  zsum (λ l, count_close (rets l)) (procs c) <= 1 ∧
  (Forall (λ l, at_pc l = Ready) (procs c) →
   zsum (λ l, count_close (rets l)) (procs c) = closed_count (flow (shared c))).
Proof.
  intros H. destruct (close_inv_reach _ _ (close_inv_init lastID now clk progs) H) as [_ Hz].
  split.
  - assert (zsum (λ l, count_close (rets l)) (procs c) <= zsum closers (procs c)).
    { clear. unfold closers. induction (procs c) as [|l ls]; simpl; [lia|].
      destruct (at_pc l); lia. }
    unfold closed_count in *. case_bool_decide; lia.
  - intros Hready. rewrite <- Hz. symmetry. apply zsum_ext. intros l Hl.
    rewrite Forall_forall in Hready. unfold closers. rewrite Hready by done. lia.
Qed.

(** * Witnesses *)

Definition demo_flow : Flow := (newFlow 6 1000).1.
Definition demo_progs : list (list call) :=
  [[CTick 2000; CTouch; CClose]; [CExpire 1500; CClose]].
(** The touch lands between [expire]'s load and its swap; then both close. *)
Definition demo_sched : list (nat * nat) :=
  [(1, 0); (0, 0); (0, 0); (0, 0); (0, 0); (1, 0); (0, 0); (1, 0); (0, 0); (1, 0); (1, 0); (0, 0)]%nat.
Definition demo_mid : conf := Eval vm_compute in
  default (init demo_flow 0 demo_progs) (run next (take 6 demo_sched) (init demo_flow 0 demo_progs)).
Definition demo : conf := Eval vm_compute in
  default (init demo_flow 0 demo_progs) (run next demo_sched (init demo_flow 0 demo_progs)).

Lemma flow_moves_forward_witness :
  LastSeen (flow (shared demo_mid)) = 2000 ∧ state (flow (shared demo)) = Closed ∧
  LastSeen (flow (shared demo_mid)) <= LastSeen (flow (shared demo)).
Proof.
  split; [reflexivity|split; [reflexivity|]].
  apply (flow_moves_forward demo_flow 0 demo_progs demo_mid demo).
  - apply (run_sound _ (take 6 demo_sched)). reflexivity.
  - apply (run_sound _ (drop 6 demo_sched)). reflexivity.
Defined.

Lemma results_keep_meaning_witness :
  ret_ok (flow (shared demo)) (RetTouch 2000).
Proof.
  apply (results_keep_meaning demo_flow 0 demo_progs demo_mid demo
    (mkLocal Ready [CClose] [RetTouch 2000])).
  - apply (run_sound _ (take 6 demo_sched)). reflexivity.
  - left.
  - left.
  - apply (run_sound _ (drop 6 demo_sched)). reflexivity.
Defined.

Lemma close_true_once_witness :
  zsum (λ l, count_close (rets l)) (procs demo) = 1.
Proof.
  destruct (close_true_once 6 1000 0 demo_progs demo) as [_ H].
  - apply (run_sound _ demo_sched). reflexivity.
  - apply H. repeat constructor.
Defined.
