(* ===== verification/Table.v ===== *)
(** Package flow: the sharded table of flows ([src/flow/table.go]).

    The table's shards are maps from keys to flows behind a mutex each; the
    flows live in a heap and are changed by the actions of [Flow.next], so a
    goroutine that holds a flow can touch or close it while another sweeps.
    Keys, values and the hash are parameters. Go's map iteration order is
    unspecified: a loop over a map picks any remaining entry at each turn. *)
From S2P Require Import Prelude Interleave Flow.

Local Open Scope Z_scope.

Section table.
Context {K : Type} `{Countable K} {V : Type}.
(** [maphash.Comparable(t.seed, k)] and the zero value of [V]. *)
Context (hash : K → Z) (zero : V).

(** * Data *)

Record TableOptions := mkOptions { optShards : Z; IdleTimeout : Z; optOnClose : bool }.

(** [locks] are the shards' mutexes: true when held. *)
Record Table := mkTable {
  shards : list (gmap K nat); locks : list bool;
  mask : Z; idle : Z; onClose : bool; now : Z }.

(** A flow of the table in the heap, with the key it was opened for. *)
Record Entry := mkEntry { key : K; body : Flow.Flow; Value : V }.

(** [called] are the calls of OnClose, oldest first. *)
Record Sh := mkSh { table : Table; heap : list Entry; lastID : Z; called : list (K * nat) }.

Definition NewTable (o : TableOptions) (clk : Z) : option Table :=
  let n := if optShards o <=? 0 then 64 else optShards o in
  size ← pow2_ceil n;
  Some (mkTable (replicate (Z.to_nat size) ∅) (replicate (Z.to_nat size) false)
    (u64 (size - 1)) (IdleTimeout o) (optOnClose o) clk).

(** The index of [t.shard(k)]. *)
Definition shard (t : Table) (k : K) : nat := Z.to_nat (Z.land (u64 (hash k)) (mask t)).

(** The argument of GetOrOpen: nil, or a function that returns or panics. *)
Inductive new_value := NilFn | Returns (v : V) | Panics.

Inductive call :=
  | CGet (k : K)
  | CGetAndTouch (k : K)
  | CGetOrOpen (k : K) (nv : new_value)
  | CRemove (k : K) (id : Z)
  | CLen
  | CRange (fn : K → nat → option bool)  (* None: fn panics *)
  | CSweep (ns : Z)
  | CCloseTable
  | CRun (ticks : list Z)                (* the ticks the ticker will deliver *)
  | CNextID                              (* an ID taken outside the table *)
  | CTouchFlow (a : nat)                 (* a held flow is touched or closed *)
  | CBeginCloseFlow (a : nat)
  | CCloseFlow (a : nat).

Inductive ret :=
  | RetGet (k : K) (a : option nat)
  | RetOpen (k : K) (a : nat) (created : bool)
  | RetOpenPanic (k : K)
  | RetRemove (k : K) (id : Z) (ok : bool)
  | RetLen (n : Z)
  | RetRange (seen : list (K * nat)) (panicked : bool)
  | RetSweep (cutoff : Z) (victims : list (K * nat))
  | RetCloseTable
  | RetFlow (a : nat) (r : list Flow.ret)
  | RetIndexPanic.

(** What follows a call of [t.closed]. *)
Inductive job :=
  | JRemove (k : K) (id : Z)
  | JSweep (cutoff : Z) (rem all : list (K * nat))
  | JClose (i : nat) (rem : list (K * nat)).

Inductive pc :=
  | Ready
  | GoNew (k : K) (nv : V)                     (* lock held: NextID() *)
  | GoStore (k : K) (nv : V) (id : Z)          (* lock held: clock, insert, unlock *)
  | InTouch (k : K) (a : nat) (fl : Flow.Local)  (* GetAndTouch: f.Touch() *)
  | InFlow (a : nat) (fl : Flow.Local)           (* a method of a held flow *)
  | InClosed (k : K) (a : nat) (fl : Flow.Local) (j : job)  (* closed: f.Close() *)
  | InOnClose (k : K) (a : nat) (j : job)        (* closed: t.onClose(k, f) *)
  | Job (j : job)
  | LenAt (i : nat) (n : Z)
  | RaLock (fn : K → nat → option bool) (i : nat) (seen : list (K * nat))
  | RaScan (fn : K → nat → option bool) (i : nat) (rem seen : list (K * nat))
  | AdvLoad (ns : Z)                             (* Sweep: advance, load *)
  | AdvCas (ns cur : Z)                          (* Sweep: advance, swap *)
  | SwLock (cutoff : Z) (i : nat) (victims : list (K * nat))
  | SwScan (cutoff : Z) (i : nat) (rem victims : list (K * nat))  (* lock held *)
  | SwExpire (cutoff : Z) (i : nat) (k : K) (a : nat) (fl : Flow.Local)
      (rem victims : list (K * nat))                               (* lock held *)
  | ClLock (i : nat).

Record Local := mkLocal { at_pc : pc; todo : list call; rets : list ret }.

Definition goto (l : Local) (p : pc) : Local := mkLocal p (todo l) (rets l).
Definition return_ (l : Local) (x : ret) : Local := mkLocal Ready (todo l) (rets l ++ [x]).

(** * Updates of the shared state *)

Definition set_shard (s : Sh) (i : nat) (m : gmap K nat) : Sh :=
  let t := table s in
  mkSh (mkTable (<[i:=m]> (shards t)) (locks t) (mask t) (idle t) (onClose t) (now t))
    (heap s) (lastID s) (called s).
Definition set_lock (s : Sh) (i : nat) (b : bool) : Sh :=
  let t := table s in
  mkSh (mkTable (shards t) (<[i:=b]> (locks t)) (mask t) (idle t) (onClose t) (now t))
    (heap s) (lastID s) (called s).
Definition set_now (s : Sh) (ns : Z) : Sh :=
  let t := table s in
  mkSh (mkTable (shards t) (locks t) (mask t) (idle t) (onClose t) ns)
    (heap s) (lastID s) (called s).
Definition set_lastID (s : Sh) (i : Z) : Sh := mkSh (table s) (heap s) i (called s).
Definition alloc (s : Sh) (e : Entry) : Sh := mkSh (table s) (heap s ++ [e]) (lastID s) (called s).
Definition set_body (s : Sh) (a : nat) (f : Flow.Flow) : Sh :=
  mkSh (table s) (alter (λ e, mkEntry (key e) f (Value e)) a (heap s)) (lastID s) (called s).
Definition call_onClose (s : Sh) (k : K) (a : nat) : Sh :=
  mkSh (table s) (heap s) (lastID s)
    (if onClose (table s) then called s ++ [(k, a)] else called s).

(** * Actions *)

(** [s.mu.Lock()] on shard [i]: a critical section runs when the lock is free. *)
Definition with_shard (s : Sh) (l : Local) (i : nat)
    (f : gmap K nat → list (Sh * Local)) : list (Sh * Local) :=
  match shards (table s) !! i, locks (table s) !! i with
  | Some m, Some false => f m
  | Some _, Some true => []
  | _, _ => [(s, return_ l RetIndexPanic)]
  end.

(** The choices of a loop over a map for the next entry. *)
Fixpoint picks {A : Type} (l : list A) : list (A * list A) :=
  match l with
  | [] => []
  | x :: xs => (x, xs) :: ((λ p, (p.1, x :: p.2)) <$> picks xs)
  end.

(** One action of a flow's method; [k] says where the goroutine goes on. *)
Definition flow_action (s : Sh) (a : nat) (fl : Flow.Local)
    (k : Flow.Local → Local) : list (Sh * Local) :=
  match heap s !! a with
  | Some e =>
      (λ p, (set_body s a (Flow.flow p.1), k p.2)) <$>
        Flow.next (Flow.mkSh (body e) (now (table s))) fl
  | None => []
  end.

Definition flow_call (c : Flow.call) : Flow.Local := Flow.mkLocal Flow.Ready [c] [].
Definition flow_done (fl : Flow.Local) : option (list Flow.ret) :=
  match Flow.at_pc fl, Flow.todo fl with Flow.Ready, [] => Some (Flow.rets fl) | _, _ => None end.

(** A held flow is one that was put into a table. *)
Definition use_flow (s : Sh) (l : Local) (a : nat) (c : Flow.call) : list (Sh * Local) :=
  match heap s !! a with Some _ => [(s, goto l (InFlow a (flow_call c)))] | None => [] end.

Definition start_closed (k : K) (a : nat) (j : job) : pc := InClosed k a (flow_call Flow.CClose) j.

(** Run's select: ctx.Done(), then Close; or a tick, then Sweep. *)
Definition run_select (s : Sh) (l : Local) (ticks : list Z) : list (Sh * Local) :=
  (s, mkLocal Ready (CCloseTable :: todo l) (rets l)) ::
  match ticks with
  | [] => []
  | ns :: rest => [(s, mkLocal Ready (CSweep ns :: CRun rest :: todo l) (rets l))]
  end.

Definition start (s : Sh) (l : Local) (c : call) : list (Sh * Local) :=
  let t := table s in
  match c with
  | CGet k => with_shard s l (shard t k) (λ m, [(s, return_ l (RetGet k (m !! k)))])
  | CGetAndTouch k =>
      with_shard s l (shard t k) (λ m,
        match m !! k with
        | Some a => [(s, goto l (InTouch k a (flow_call Flow.CTouch)))]
        | None => [(s, return_ l (RetGet k None))]
        end)
  | CGetOrOpen k nv =>
      with_shard s l (shard t k) (λ m,
        match m !! k, nv with
        | Some a, _ => [(s, return_ l (RetOpen k a false))]
        | None, NilFn => [(set_lock s (shard t k) true, goto l (GoNew k zero))]
        | None, Returns v => [(set_lock s (shard t k) true, goto l (GoNew k v))]
        | None, Panics => [(s, return_ l (RetOpenPanic k))]
        end)
  | CRemove k id =>
      with_shard s l (shard t k) (λ m,
        match m !! k with
        | None => [(s, return_ l (RetRemove k id false))]
        | Some a =>
            match heap s !! a with
            | None => []
            | Some e =>
                if Flow.id (body e) =? id
                then [(set_shard (set_body s a (Flow.freeze (body e))) (shard t k) (delete k m),
                       goto l (start_closed k a (JRemove k id)))]
                else [(s, return_ l (RetRemove k id false))]
            end
        end)
  | CLen => [(s, goto l (LenAt 0 0))]
  | CRange fn => [(s, goto l (RaLock fn 0 []))]
  | CSweep ns => [(s, goto l (AdvLoad ns))]
  | CCloseTable => [(s, goto l (ClLock 0))]
  | CRun ticks => run_select s l ticks
  | CNextID => [(set_lastID s (Flow.NextID (lastID s)), l)]
  | CTouchFlow a => use_flow s l a Flow.CTouch
  | CBeginCloseFlow a => use_flow s l a Flow.CBeginClose
  | CCloseFlow a => use_flow s l a Flow.CClose
  end.

(** Past [advance]: [if t.idle <= 0 { return 0 }], then the cutoff. *)
Definition sweep_body (s : Sh) (l : Local) (ns : Z) : list (Sh * Local) :=
  if idle (table s) <=? 0 then [(s, return_ l (RetSweep ns []))]
  else [(s, goto l (SwLock (i64 (ns - idle (table s))) 0 []))].

(** [advance]: the load, with the comparison, and the swap. *)
Definition advance_load (s : Sh) (l : Local) (ns : Z) : list (Sh * Local) :=
  if ns <=? now (table s) then sweep_body s l ns else [(s, goto l (AdvCas ns (now (table s))))].
Definition advance_cas (s : Sh) (l : Local) (ns cur : Z) : list (Sh * Local) :=
  if now (table s) =? cur then sweep_body (set_now s ns) l ns else [(s, goto l (AdvLoad ns))].

(** Len, one shard. *)
Definition len_shard (s : Sh) (l : Local) (i : nat) (n : Z) : list (Sh * Local) :=
  if (i <? length (shards (table s)))%nat
  then with_shard s l i (λ m, [(s, goto l (LenAt (S i) (i64 (n + Z.of_nat (size m)))))])
  else [(s, return_ l (RetLen n))].
(** Sweep: lock the next shard, or close the victims. *)
Definition sweep_shard (s : Sh) (l : Local) (cutoff : Z) (i : nat) (victims : list (K * nat)) : list (Sh * Local) :=
  if (i <? length (shards (table s)))%nat
  then with_shard s l i (λ m, [(set_lock s i true, goto l (SwScan cutoff i (map_to_list m) victims))])
  else [(s, goto l (Job (JSweep cutoff victims victims)))].
(** Close: take the map of the next shard, under its lock. *)
Definition close_shard (s : Sh) (l : Local) (i : nat) : list (Sh * Local) :=
  if (i <? length (shards (table s)))%nat
  then with_shard s l i (λ m, [(set_shard s i ∅, goto l (Job (JClose i (map_to_list m))))])
  else [(s, return_ l RetCloseTable)].

Definition job_next (s : Sh) (l : Local) (j : job) : list (Sh * Local) :=
  match j with
  | JRemove k id => [(s, return_ l (RetRemove k id true))]
  | JSweep cutoff [] all => [(s, return_ l (RetSweep cutoff all))]
  | JSweep cutoff ((k, a) :: rem) all => [(s, goto l (start_closed k a (JSweep cutoff rem all)))]
  | JClose i [] => [(s, goto l (ClLock (S i)))]
  | JClose i rem =>
      (λ p : K * nat * list (K * nat),
         (s, goto l (start_closed p.1.1 p.1.2 (JClose i p.2)))) <$> picks rem
  end.

Definition range_next (s : Sh) (l : Local) (fn : K → nat → option bool) (i : nat)
    (rem seen : list (K * nat)) : list (Sh * Local) :=
  match rem with
  | [] => [(set_lock s i false, goto l (RaLock fn (S i) seen))]
  | _ =>
      (λ p : K * nat * list (K * nat),
         let seen' := seen ++ [p.1] in
         match fn p.1.1 p.1.2 with
         | Some true => (s, goto l (RaScan fn i p.2 seen'))
         | Some false => (set_lock s i false, return_ l (RetRange seen' false))
         | None => (set_lock s i false, return_ l (RetRange seen' true))
         end) <$> picks rem
  end.

Definition sweep_next (s : Sh) (l : Local) (cutoff : Z) (i : nat)
    (rem victims : list (K * nat)) : list (Sh * Local) :=
  match rem with
  | [] => [(set_lock s i false, goto l (SwLock cutoff (S i) victims))]
  | _ =>
      (λ p : K * nat * list (K * nat),
         (s, goto l (SwExpire cutoff i p.1.1 p.1.2 (flow_call (Flow.CExpire cutoff)) p.2 victims)))
        <$> picks rem
  end.

Definition expired (rs : list Flow.ret) : bool :=
  match rs with [Flow.RetExpire _ ok] => ok | _ => false end.

Definition delete_in (s : Sh) (i : nat) (k : K) : Sh :=
  match shards (table s) !! i with Some m => set_shard s i (delete k m) | None => s end.

(** The insertion that ends GetOrOpen, and its deferred unlock. *)
Definition store_new (s : Sh) (l : Local) (k : K) (v : V) (id : Z) : list (Sh * Local) :=
  let i := shard (table s) k in
  let f := Flow.mkFlow id Flow.Open (Flow.and_not (now (table s)) Flow.frozen) in
  let a := length (heap s) in
  match shards (table s) !! i with
  | Some m =>
      [(set_lock (set_shard (alloc s (mkEntry k f v)) i (<[k:=a]> m)) i false,
        return_ l (RetOpen k a true))]
  | None => []
  end.

Definition next (s : Sh) (l : Local) : list (Sh * Local) :=
  let t := table s in
  match at_pc l with
  | Ready =>
      match todo l with
      | [] => []
      | c :: rest => start s (mkLocal Ready rest (rets l)) c
      end
  | GoNew k v =>
      let id := Flow.NextID (lastID s) in [(set_lastID s id, goto l (GoStore k v id))]
  | GoStore k v id => store_new s l k v id
  | InTouch k a fl =>
      match flow_done fl with
      | Some _ => [(s, return_ l (RetGet k (Some a)))]
      | None => flow_action s a fl (λ fl', goto l (InTouch k a fl'))
      end
  | InFlow a fl =>
      match flow_done fl with
      | Some r => [(s, return_ l (RetFlow a r))]
      | None => flow_action s a fl (λ fl', goto l (InFlow a fl'))
      end
  | InClosed k a fl j =>
      match flow_done fl with
      | Some _ => [(s, goto l (InOnClose k a j))]
      | None => flow_action s a fl (λ fl', goto l (InClosed k a fl' j))
      end
  | InOnClose k a j => [(call_onClose s k a, goto l (Job j))]
  | Job j => job_next s l j
  | LenAt i n => len_shard s l i n
  | RaLock fn i seen =>
      if (i <? length (shards t))%nat
      then with_shard s l i (λ m, [(set_lock s i true, goto l (RaScan fn i (map_to_list m) seen))])
      else [(s, return_ l (RetRange seen false))]
  | RaScan fn i rem seen => range_next s l fn i rem seen
  | AdvLoad ns => advance_load s l ns
  | AdvCas ns cur => advance_cas s l ns cur
  | SwLock cutoff i victims => sweep_shard s l cutoff i victims
  | SwScan cutoff i rem victims => sweep_next s l cutoff i rem victims
  | SwExpire cutoff i k a fl rem victims =>
      match flow_done fl with
      | Some r =>
          if expired r
          then [(delete_in s i k, goto l (SwScan cutoff i rem (victims ++ [(k, a)])))]
          else [(s, goto l (SwScan cutoff i rem victims))]
      | None => flow_action s a fl (λ fl', goto l (SwExpire cutoff i k a fl' rem victims))
      end
  | ClLock i => close_shard s l i
  end.

(** A new table used by goroutines with these calls to make. *)
Definition init (t : Table) (last : Z) (progs : list (list call)) : conf :=
  Conf (mkSh t [] last []) ((λ cs, mkLocal Ready cs []) <$> progs).

(** The tick of [Run]: a quarter of IdleTimeout between 10ms and 1s. *)
Definition run_tick (idle : Z) : Z :=
  if 0 <? idle then Z.min (Z.max (idle ÷ 4) 10000000) 1000000000 else 1000000000.
End table.

(** Opens a step of a table down to its first effects. *)
Ltac open_table H :=
  unfold Table.next, advance_load, advance_cas, len_shard, sweep_shard, close_shard, run_select in H.
