(* ===== verification/TableInv.v ===== *)
(** The flow table under concurrency: the invariant of [Table.next].

    Every action is one of a few effects on the shared state; a lemma per
    effect says it keeps the invariant, and one lemma per group of program
    points says which effect it has. *)
From S2P Require Import Prelude Interleave Flow Table.

Local Open Scope Z_scope.

(** * One method of a flow as a sub-machine *)

(** A goroutine inside [f.Close()], and inside [f.expire(cutoff)]. *)
Definition in_close (fl : Flow.Local) : Prop :=
  match Flow.at_pc fl with
  | Flow.Ready =>
      (Flow.todo fl = [Flow.CClose] ∧ Flow.rets fl = []) ∨
      (Flow.todo fl = [] ∧ ∃ ok, Flow.rets fl = [Flow.RetClose ok])
  | Flow.ClLoop | Flow.ClCas _ | Flow.ClFreeze => Flow.todo fl = [] ∧ Flow.rets fl = []
  | _ => False
  end.

Definition in_expire (cutoff : Z) (fl : Flow.Local) : Prop :=
  match Flow.at_pc fl with
  | Flow.Ready =>
      (Flow.todo fl = [Flow.CExpire cutoff] ∧ Flow.rets fl = []) ∨
      (Flow.todo fl = [] ∧ ∃ ok, Flow.rets fl = [Flow.RetExpire cutoff ok])
  | Flow.ExCas c _ => c = cutoff ∧ Flow.todo fl = [] ∧ Flow.rets fl = []
  | _ => False
  end.

Ltac flow_shape :=
  intros Hin Hn; unfold Flow.next, Flow.close_load in Hn;
  match type of Hin with context [Flow.at_pc ?fl] => destruct fl as [[] td rs] end;
  simpl in *; destruct_or?; destruct_and?; simplify_eq/=; try done;
  repeat case_match; inv_elem; eauto 10.

Lemma in_close_next f clk fl s' fl' :
  in_close fl → (s', fl') ∈ Flow.next (Flow.mkSh f clk) fl → in_close fl'.
Proof. unfold in_close. flow_shape. Qed.

Lemma in_expire_next cutoff f clk fl s' fl' :
  in_expire cutoff fl → (s', fl') ∈ Flow.next (Flow.mkSh f clk) fl → in_expire cutoff fl'.
Proof. unfold in_expire. flow_shape. Qed.

(** A flow's sub-machine is sound on a flow. *)
Definition fl_ok (fl : Flow.Local) (f : Flow.Flow) : Prop :=
  Flow.local_ok f fl ∧ Forall (Flow.ret_ok f) (Flow.rets fl).

Lemma fl_ok_call c f : fl_ok (flow_call c) f.
Proof. split; [done|constructor]. Qed.

Lemma fl_ok_advances fl f f' : Flow.advances f f' → fl_ok fl f → fl_ok fl f'.
Proof.
  intros Hadv [? Hr]. split; [by eapply Flow.local_ok_advances|].
  eapply Forall_impl; [exact Hr|]. intros. by eapply Flow.ret_ok_advances.
Qed.

Lemma fl_ok_next f clk fl s' fl' :
  fl_ok fl f → (s', fl') ∈ Flow.next (Flow.mkSh f clk) fl →
  fl_ok fl' (Flow.flow s') ∧ Flow.advances f (Flow.flow s').
Proof.
  intros [Hl Hr] Hn.
  destruct (Flow.next_effect (Flow.mkSh f clk) fl s' fl') as (Hl' & Hadv & Hrets); [done..|].
  simpl in *. split; [|done]. split; [done|].
  destruct (fl_ok_advances fl _ _ Hadv (conj Hl Hr)) as [_ Hr'].
  destruct Hrets as [->|(r & -> & ?)]; [done|]. by apply Forall_app_2; [|constructor].
Qed.

Lemma fl_done_close fl r f : in_close fl → fl_ok fl f → flow_done fl = Some r →
  Flow.state f = Flow.Closed.
Proof.
  intros Hin [_ Hr] Hd. unfold flow_done in Hd. unfold in_close in Hin.
  repeat case_match; try done. destruct Hin as [[? _]|(_ & ok & E)]; [congruence|].
  rewrite E in Hr. by apply Forall_singleton in Hr as [? _].
Qed.

Lemma fl_done_expire cutoff fl r f :
  in_expire cutoff fl → fl_ok fl f → flow_done fl = Some r → expired r = true →
  Flow.is_frozen (Flow.seen f) = true ∧ Flow.LastSeen f < cutoff.
Proof.
  intros Hin [_ Hr] Hd He. unfold flow_done in Hd. unfold in_expire in Hin.
  repeat case_match; try done. destruct Hin as [[? _]|(_ & ok & E)]; [congruence|].
  simplify_eq. rewrite E in *. simpl in He. subst. exact (Forall_inv Hr).
Qed.

Section inv.
Context {K : Type} `{Countable K} {V : Type}.
Context (hash : K → Z) (zero : V).

Implicit Types (s : Sh (K:=K) (V:=V)) (l : Local (K:=K) (V:=V)).
Local Abbreviation next := (next hash zero).
Local Abbreviation shard := (shard hash).

(** * The invariant *)

(** The entries of the maps, the flows a goroutine has taken out and not yet
    reported, and the flows ever put in. *)
Definition entries s : list (K * nat) := shards (table s) ≫= map_to_list.
Definition opened s : list (K * nat) := imap (λ a e, (key e, a)) (heap s).

Definition pend_job (j : job (K:=K)) : list (K * nat) :=
  match j with JRemove _ _ => [] | JSweep _ rem _ => rem | JClose _ rem => rem end.

Definition pend l : list (K * nat) :=
  match at_pc l with
  | InClosed k a _ j | InOnClose k a j => (k, a) :: pend_job j
  | Job j => pend_job j
  | SwLock _ _ vs | SwScan _ _ _ vs | SwExpire _ _ _ _ _ _ vs => vs
  | _ => []
  end.

(** The shard whose lock the goroutine holds. *)
Definition holds s l : option nat :=
  match at_pc l with
  | GoNew k _ | GoStore k _ _ => Some (shard (table s) k)
  | RaScan _ i _ _ | SwScan _ i _ _ | SwExpire _ i _ _ _ _ _ => Some i
  | _ => None
  end.

Definition flow_at s (a : nat) (P : Flow.Flow → Prop) : Prop :=
  ∃ e, heap s !! a = Some e ∧ P (body e).
Definition has_key s (k : K) (a : nat) : Prop := ∃ e, heap s !! a = Some e ∧ key e = k.

Definition victims_ok s (cutoff : Z) (vs : list (K * nat)) : Prop :=
  ∀ k a, (k, a) ∈ vs →
  flow_at s a (λ f, Flow.is_frozen (Flow.seen f) = true ∧ Flow.LastSeen f < cutoff).

(** Flow [id] of key [k] has left the table, is Closed and was reported. *)
Definition removed s (k : K) (id : Z) : Prop :=
  ∃ a e, heap s !! a = Some e ∧ key e = k ∧ Flow.id (body e) = id ∧
    Flow.state (body e) = Flow.Closed ∧ (onClose (table s) = true → (k, a) ∈ called s).

(** A job whose flow [a] of key [k] is still being closed. *)
Definition job_for s (k : K) (a : nat) (j : job) : Prop :=
  match j with
  | JRemove k' id => k' = k ∧ has_key s k a ∧ flow_at s a (λ f, Flow.id f = id)
  | JSweep cutoff _ all => victims_ok s cutoff all
  | JClose _ _ => True
  end.

Definition job_ok s (j : job) : Prop :=
  match j with
  | JRemove k id => removed s k id
  | JSweep cutoff _ all => victims_ok s cutoff all
  | JClose _ _ => True
  end.

(** The entries a sweep has still to look at are in the locked shard. *)
Definition scan_ok s (i : nat) (rem : list (K * nat)) : Prop :=
  ∃ m, shards (table s) !! i = Some m ∧ NoDup rem.*1 ∧ ∀ k a, (k, a) ∈ rem → m !! k = Some a.

Definition absent s (k : K) : Prop :=
  ∃ m, shards (table s) !! shard (table s) k = Some m ∧ m !! k = None.

Definition local_ok s l : Prop :=
  match at_pc l with
  | GoNew k _ | GoStore k _ _ => absent s k
  | InTouch k a fl => flow_at s a (fl_ok fl) ∧ has_key s k a
  | InFlow a fl => flow_at s a (fl_ok fl)
  | InClosed k a fl j => in_close fl ∧ flow_at s a (fl_ok fl) ∧ job_for s k a j
  | InOnClose k a j => flow_at s a (λ f, Flow.state f = Flow.Closed) ∧ job_for s k a j
  | Job j => job_ok s j
  | AdvCas ns cur => cur < ns
  | SwLock cutoff _ vs => victims_ok s cutoff vs
  | SwScan cutoff i rem vs => scan_ok s i rem ∧ victims_ok s cutoff vs
  | SwExpire cutoff i k a fl rem vs =>
      scan_ok s i ((k, a) :: rem) ∧ in_expire cutoff fl ∧ flow_at s a (fl_ok fl) ∧
      victims_ok s cutoff vs
  | _ => True
  end.

Definition result_ok s (r : ret (K:=K)) : Prop :=
  match r with
  | RetGet k (Some a) | RetOpen k a _ => has_key s k a
  | RetRemove k id true => removed s k id
  | RetSweep cutoff vs => victims_ok s cutoff vs
  | RetIndexPanic => False
  | _ => True
  end.

Record shared_ok s : Prop := {
  ok_locks : length (locks (table s)) = length (shards (table s));
  ok_index : ∀ k, (shard (table s) k < length (shards (table s)))%nat;
  ok_place : ∀ i m k a, shards (table s) !! i = Some m → m !! k = Some a →
    shard (table s) k = i ∧ has_key s k a }.

Definition held s l : Prop := ∀ i, holds s l = Some i → locks (table s) !! i = Some true.

(** ** How the shared state may change *)

Record evolves s s' : Prop := {
  ev_heap : ∀ a e, heap s !! a = Some e → ∃ e', heap s' !! a = Some e' ∧ key e' = key e ∧
    Value e' = Value e ∧ Flow.advances (body e) (body e');
  ev_called : ∀ x, x ∈ called s → x ∈ called s';
  ev_mask : mask (table s') = mask (table s);
  ev_onClose : onClose (table s') = onClose (table s);
  ev_idle : idle (table s') = idle (table s);
  ev_shards : length (shards (table s')) = length (shards (table s));
  ev_locks : length (locks (table s')) = length (locks (table s));
  ev_now : now (table s) <= now (table s') }.

#[export] Instance evolves_preorder : PreOrder evolves.
Proof.
  split.
  - intros s. split; try done. intros a e He. exists e. split_and!; done.
  - intros s1 s2 s3 A B. destruct A as [A1 A2], B as [B1 B2]. split; try congruence || lia; eauto.
    intros a e (e' & He' & ? & ? & ?)%A1. apply B1 in He' as (e'' & ? & ? & ? & ?).
    exists e''. split_and!; try congruence. by etrans.
Qed.

Lemma flow_at_evolves s s' a (P : Flow.Flow → Prop) :
  (∀ f f', Flow.advances f f' → P f → P f') → evolves s s' → flow_at s a P → flow_at s' a P.
Proof.
  intros HP Hev (e & He & ?). destruct (ev_heap _ _ Hev a e He) as (e' & ? & ? & ? & ?).
  exists e'. eauto.
Qed.

Lemma has_key_evolves s s' k a : evolves s s' → has_key s k a → has_key s' k a.
Proof.
  intros Hev (e & He & ?). destruct (ev_heap _ _ Hev a e He) as (e' & ? & ? & ? & ?).
  exists e'. split; congruence.
Qed.

Lemma victims_ok_evolves s s' cutoff vs :
  evolves s s' → victims_ok s cutoff vs → victims_ok s' cutoff vs.
Proof.
  intros Hev Hv k a Hin. eapply flow_at_evolves; [|done|by eapply Hv].
  intros f f' Hadv [Hf ?]. destruct (Flow.advances_is_frozen _ _ Hadv Hf) as [? ->]. done.
Qed.

Lemma removed_evolves s s' k id : evolves s s' → removed s k id → removed s' k id.
Proof.
  intros Hev (a & e & He & ? & ? & ? & Hc).
  destruct (ev_heap _ _ Hev a e He) as (e' & ? & ? & ? & Hadv).
  exists a, e'. split_and!; try congruence.
  - destruct Hadv. congruence.
  - by eapply Flow.advances_closed.
  - rewrite (ev_onClose _ _ Hev). intros. apply (ev_called _ _ Hev). auto.
Qed.

Lemma job_for_evolves s s' k a j : evolves s s' → job_for s k a j → job_for s' k a j.
Proof.
  intros Hev. destruct j; simpl; eauto using victims_ok_evolves.
  intros (? & ? & ?). split; [done|]. split; [by eapply has_key_evolves|].
  eapply flow_at_evolves; [|done..]. intros f f' [? _ _ _]. congruence.
Qed.

Lemma job_ok_evolves s s' j : evolves s s' → job_ok s j → job_ok s' j.
Proof. intros Hev. destruct j; simpl; eauto using victims_ok_evolves, removed_evolves. Qed.

Lemma result_ok_evolves s s' r : evolves s s' → result_ok s r → result_ok s' r.
Proof.
  intros Hev. destruct r as [k [a|]|k a c|k|k id []| | | | | |]; simpl;
    eauto using victims_ok_evolves, removed_evolves, has_key_evolves.
Qed.

Lemma shard_evolves s s' k : evolves s s' → shard (table s') k = shard (table s) k.
Proof. intros Hev. unfold Table.shard. by rewrite (ev_mask _ _ Hev). Qed.

Lemma holds_evolves s s' l : evolves s s' → holds s' l = holds s l.
Proof. intros Hev. unfold holds. destruct (at_pc l); try done; by rewrite (shard_evolves s s'). Qed.

(** What another goroutine relies on survives a step that leaves the shard it
    has locked alone. *)
Lemma local_ok_evolves s s' l :
  evolves s s' →
  (∀ i, holds s l = Some i → shards (table s') !! i = shards (table s) !! i) →
  local_ok s l → local_ok s' l.
Proof.
  intros Hev Hsh. unfold local_ok, holds in *.
  destruct (at_pc l); try done; unfold absent, scan_ok;
    rewrite ?(shard_evolves _ _ _ Hev), ?(Hsh _ eq_refl); intros; destruct_and?; split_and?;
    eauto using victims_ok_evolves, job_for_evolves, job_ok_evolves, has_key_evolves.
  all: eapply flow_at_evolves; [|done..]; eauto using fl_ok_advances, Flow.advances_closed.
Qed.

(** ** What a step does *)

Definition hold_count s (i : nat) l : Z := if bool_decide (holds s l = Some i) then 1 else 0.
Definition lock_count s (i : nat) : Z :=
  if bool_decide (locks (table s) !! i = Some true) then 1 else 0.

(** [entries ++ pend ++ called] and [opened] grow by the same elements. *)
Definition conserves s l s' l' : Prop :=
  onClose (table s) = true →
  entries s' ++ pend l' ++ called s' ++ opened s ≡ₚ entries s ++ pend l ++ called s ++ opened s'.

(** The flows taken out are flows of the heap. *)
Definition pend_known s l : Prop := ∀ k a, (k, a) ∈ pend l → has_key s k a.

Lemma pend_known_evolves s s' l l' :
  evolves s s' → (∀ x, x ∈ pend l' → x ∈ pend l) → pend_known s l → pend_known s' l'.
Proof. intros Hev Hsub Hk k a Hin. eapply has_key_evolves; [done|]. by apply Hk, Hsub. Qed.

Record step_ok s l s' l' : Prop := {
  so_ev : evolves s s';
  so_shared : shared_ok s';
  so_local : local_ok s' l';
  so_perm : conserves s l s' l';
  so_pend : pend_known s l → pend_known s' l';
  so_frame : ∀ i, holds s l ≠ Some i → locks (table s) !! i = Some true →
    shards (table s') !! i = shards (table s) !! i;
  so_lock : ∀ i, hold_count s' i l' - hold_count s i l = lock_count s' i - lock_count s i;
  so_called : called s' = called s ∨ ∃ k a, called s' = called s ++ [(k, a)] ∧
    flow_at s' a (λ f, Flow.state f = Flow.Closed);
  so_rets : rets l' = rets l ∨ ∃ r, rets l' = rets l ++ [r] ∧ result_ok s' r }.

(** The result part, for the cases of [next]. *)
Definition rets_ok s l l' : Prop :=
  rets l' = rets l ∨ ∃ r, rets l' = rets l ++ [r] ∧ result_ok s r.

Lemma rets_ok_goto s l p : rets_ok s l (goto l p).
Proof. by left. Qed.

Lemma rets_ok_return s l r : result_ok s r → rets_ok s l (return_ l r).
Proof. intros. right. eauto. Qed.

(** Nothing shared changes. *)
Lemma step_ok_same s l l' :
  shared_ok s → pend l' ≡ₚ pend l → holds s l' = holds s l → local_ok s l' →
  rets_ok s l l' → step_ok s l s l'.
Proof.
  intros Hs Hp Hh Hl Hr. split; try done.
  - intros _. by rewrite Hp.
  - apply pend_known_evolves; [done|]. intros x. by rewrite Hp.
  - intros i. unfold hold_count. rewrite Hh. lia.
  - by left.
Qed.

(** A lock is taken or released. *)
Lemma shared_ok_lock s i b : shared_ok s → shared_ok (set_lock s i b).
Proof. intros [Hl Hi Hp]. split; simpl; try done. by rewrite length_insert. Qed.

Lemma evolves_lock s i b : evolves s (set_lock s i b).
Proof.
  split; simpl; rewrite ?length_insert; try done.
  intros a e ?. exists e. split_and!; done.
Qed.

Lemma lock_count_set s i b j :
  (i < length (locks (table s)))%nat →
  lock_count (set_lock s i b) j = if decide (i = j) then (if b then 1 else 0) else lock_count s j.
Proof.
  intros Hlt. unfold lock_count. simpl. destruct (decide (i = j)) as [->|Hne].
  - rewrite list_lookup_insert_eq by done. destruct b; by case_bool_decide.
  - by rewrite list_lookup_insert_ne.
Qed.

Lemma step_ok_acquire s l l' i :
  shared_ok s → locks (table s) !! i = Some false → pend l' = pend l →
  holds s l = None → holds (set_lock s i true) l' = Some i → local_ok (set_lock s i true) l' →
  rets_ok (set_lock s i true) l l' → step_ok s l (set_lock s i true) l'.
Proof.
  intros Hs Hlk Hp Hh Hh' Hl Hr. split; try done.
  - apply evolves_lock.
  - by apply shared_ok_lock.
  - intros _. by rewrite Hp.
  - apply pend_known_evolves; [apply evolves_lock|]. by rewrite Hp.
  - intros j. rewrite lock_count_set by (by eapply lookup_lt_Some).
    unfold hold_count, lock_count. rewrite Hh, Hh'.
    repeat case_bool_decide; case_decide; simplify_eq; lia || congruence.
  - by left.
Qed.

Lemma step_ok_release s l l' i :
  shared_ok s → held s l → pend l' = pend l →
  holds s l = Some i → holds (set_lock s i false) l' = None → local_ok (set_lock s i false) l' →
  rets_ok (set_lock s i false) l l' → step_ok s l (set_lock s i false) l'.
Proof.
  intros Hs Hheld Hp Hh Hh' Hl Hr. apply Hheld in Hh as Hlk. split; try done.
  - apply evolves_lock.
  - by apply shared_ok_lock.
  - intros _. by rewrite Hp.
  - apply pend_known_evolves; [apply evolves_lock|]. by rewrite Hp.
  - intros j. rewrite lock_count_set by (by eapply lookup_lt_Some).
    unfold hold_count, lock_count. rewrite Hh, Hh'.
    repeat case_bool_decide; case_decide; simplify_eq; lia || congruence.
  - by left.
Qed.

(** One action of a flow's method. *)
Lemma heap_set_body s a f b :
  heap (set_body s a f) !! b =
  if decide (a = b) then (λ e, mkEntry (key e) f (Value e)) <$> heap s !! b else heap s !! b.
Proof.
  simpl. case_decide; subst; [apply list_lookup_alter_eq|by apply list_lookup_alter_ne].
Qed.

Lemma evolves_body s a f e :
  heap s !! a = Some e → Flow.advances (body e) f → evolves s (set_body s a f).
Proof.
  intros He Hadv. split; try done.
  intros b e' Hb. rewrite heap_set_body. case_decide as E; [subst b|by exists e'].
  rewrite Hb. simplify_eq. eexists. split; [done|]. done.
Qed.

Lemma has_key_body s a f k b : has_key (set_body s a f) k b ↔ has_key s k b.
Proof.
  unfold has_key. rewrite heap_set_body. case_decide; [|done]. subst.
  destruct (heap s !! b) as [e|]; simpl; [|by split; intros (? & ? & _)].
  split; intros (e' & ? & ?); simplify_eq; eexists; split; done.
Qed.

Lemma shared_ok_body s a f : shared_ok s → shared_ok (set_body s a f).
Proof.
  intros [Hl Hi Hp]. split; try done. intros i m k b Hm Hk.
  destruct (Hp i m k b Hm Hk). split; [done|]. by apply has_key_body.
Qed.

Lemma opened_body s a f : opened (set_body s a f) = opened s.
Proof.
  unfold opened. apply list_eq. intros i. rewrite !list_lookup_imap, heap_set_body.
  case_decide; [|done]. by destruct (heap s !! i).
Qed.

Lemma step_ok_body s l l' a e f :
  shared_ok s → heap s !! a = Some e → Flow.advances (body e) f →
  pend l' = pend l → holds s l' = holds s l → local_ok (set_body s a f) l' →
  rets l' = rets l → step_ok s l (set_body s a f) l'.
Proof.
  intros Hs He Hadv Hp Hh Hl Hr. split; try done.
  - by eapply evolves_body.
  - by apply shared_ok_body.
  - intros _. rewrite opened_body. unfold entries. simpl. by rewrite Hp.
  - apply pend_known_evolves; [by eapply evolves_body|]. by rewrite Hp.
  - intros i. unfold hold_count, lock_count. simpl.
    change (holds (set_body s a f) l') with (holds s l'). rewrite Hh. lia.
  - by left.
  - by left.
Qed.

(** The clock and the ID counter. *)
Lemma step_ok_now s l l' ns :
  shared_ok s → now (table s) <= ns → pend l' = pend l →
  holds s l' = holds s l → local_ok (set_now s ns) l' → rets_ok (set_now s ns) l l' →
  step_ok s l (set_now s ns) l'.
Proof.
  intros [? ? ?] Hn Hp Hh Hl Hr.
  assert (evolves s (set_now s ns)) as Hev.
  { split; try done. intros a e ?. exists e. split_and!; done. }
  split; try done.
  - intros _. by rewrite Hp.
  - apply pend_known_evolves; [done|]. by rewrite Hp.
  - intros i. unfold hold_count, lock_count. simpl.
    change (holds (set_now s ns) l') with (holds s l'). rewrite Hh. lia.
  - by left.
Qed.

Lemma step_ok_lastID s l l' i :
  shared_ok s → pend l' = pend l → holds s l' = holds s l → local_ok s l' →
  rets l' = rets l → step_ok s l (set_lastID s i) l'.
Proof.
  intros [? ? ?] Hp Hh Hl Hr.
  assert (evolves s (set_lastID s i)) as Hev.
  { split; try done. intros a e ?. exists e. split_and!; done. }
  split; try done.
  - intros _. by rewrite Hp.
  - apply pend_known_evolves; [done|]. by rewrite Hp.
  - intros j. unfold hold_count, lock_count. simpl.
    change (holds (set_lastID s i) l') with (holds s l'). rewrite Hh. lia.
  - by left.
  - by left.
Qed.

(** OnClose is called. *)
Lemma step_ok_called s l k a j :
  shared_ok s → at_pc l = InOnClose k a j → local_ok s l →
  step_ok s l (call_onClose s k a) (goto l (Job j)).
Proof.
  intros [? ? ?] Hpc Hl. unfold local_ok in Hl. rewrite Hpc in Hl. destruct Hl as [Hf Hj].
  assert (evolves s (call_onClose s k a)) as Hev.
  { split; try done; [intros b e ?; exists e; split_and!; done|].
    simpl. intros x ?. case_match; set_solver. }
  split; try done.
  - unfold local_ok. simpl. destruct j as [k' id|cutoff rem all|i rem]; simpl in *.
    + destruct Hj as (-> & (e & He & ?) & (e' & He' & ?)). destruct Hf as (e'' & He'' & ?).
      simplify_eq. exists a, e''. split_and!; try done. simpl. intros ->. set_solver.
    + done.
    + done.
  - intros Hon. unfold pend. rewrite Hpc. simpl. rewrite Hon. solve_Permutation.
  - apply pend_known_evolves; [done|]. unfold pend. rewrite Hpc. simpl. set_solver.
  - intros i. unfold hold_count, lock_count, holds. rewrite Hpc. simpl. lia.
  - simpl. destruct (onClose (table s)); [right|by left]. exists k, a. done.
  - by left.
Qed.

(** Entries leave a shard's map. *)
Lemma entries_set_shard s i m m' :
  shards (table s) !! i = Some m →
  entries (set_shard s i m') ++ map_to_list m ≡ₚ entries s ++ map_to_list m'.
Proof. intros. unfold entries. simpl. by apply bind_insert_perm. Qed.

Lemma entries_delete s i m k a :
  shards (table s) !! i = Some m → m !! k = Some a →
  entries s ≡ₚ (k, a) :: entries (set_shard s i (delete k m)).
Proof.
  intros Hm Hk. apply (Permutation_app_inv_r (map_to_list (delete k m))).
  rewrite <- (entries_set_shard s i m) by done. rewrite <- (map_to_list_delete m k a) by done.
  solve_Permutation.
Qed.

Lemma evolves_shard s i m : evolves s (set_shard s i m).
Proof.
  split; simpl; rewrite ?length_insert; try done.
  intros a e ?. exists e. split_and!; done.
Qed.

Lemma shared_ok_shard s i m m' :
  shared_ok s → shards (table s) !! i = Some m → (∀ k a, m' !! k = Some a → m !! k = Some a) →
  shared_ok (set_shard s i m').
Proof.
  intros [Hl Hi Hp] Hm Hsub. split; simpl; rewrite ?length_insert; try done.
  intros j m1 k a Hj Hk. apply list_lookup_insert_Some in Hj as [(-> & -> & _)|[_ Hj]]; [|by eapply Hp].
  eapply Hp; [done|by apply Hsub].
Qed.

Lemma frame_shard s l i m :
  (holds s l = Some i ∨ locks (table s) !! i = Some false) →
  ∀ j, holds s l ≠ Some j → locks (table s) !! j = Some true →
  shards (table (set_shard s i m)) !! j = shards (table s) !! j.
Proof.
  intros Hi j Hj Hlk. simpl. apply list_lookup_insert_ne. intros ->. destruct Hi; congruence.
Qed.

Lemma step_ok_shard s l l' i m m' :
  shared_ok s → shards (table s) !! i = Some m → (∀ k a, m' !! k = Some a → m !! k = Some a) →
  (holds s l = Some i ∨ locks (table s) !! i = Some false) → holds s l' = holds s l →
  map_to_list m ++ pend l ≡ₚ map_to_list m' ++ pend l' →
  local_ok (set_shard s i m') l' → rets l' = rets l → step_ok s l (set_shard s i m') l'.
Proof.
  intros Hs Hm Hsub Hlk Hh Hp Hl Hr. split; try done.
  - apply evolves_shard.
  - by eapply shared_ok_shard.
  - intros _. apply (Permutation_app_inv_l (map_to_list m)).
    pose proof (entries_set_shard s i m m' Hm) as He. simpl in *.
    rewrite !(assoc_L (++)), (comm (++) (map_to_list m) (entries _)), He.
    rewrite (comm (++) (map_to_list m) (entries s)), <- !(assoc_L (++)).
    apply Permutation_app_head. rewrite !(assoc_L (++)). by rewrite Hp.
  - intros Hk k a Hin. apply (has_key_evolves s); [apply evolves_shard|].
    assert ((k, a) ∈ map_to_list m ++ pend l) as Hin' by (rewrite Hp; set_solver).
    apply elem_of_app in Hin' as [Hin'%elem_of_map_to_list|?]; [by eapply Hs|by apply Hk].
  - by apply frame_shard.
  - intros j. unfold hold_count, lock_count. simpl.
    change (holds (set_shard s i m') l') with (holds s l'). rewrite Hh. lia.
  - by left.
  - by left.
Qed.

(** A new flow enters the heap and its shard. *)
Lemma evolves_alloc s e : evolves s (alloc s e).
Proof.
  split; try done. intros a e' He. exists e'. split_and!; try done.
  simpl. by apply lookup_app_l_Some.
Qed.

Lemma step_ok_insert s l l' m k f v :
  let i := shard (table s) k in
  let s' := set_shard (alloc s (mkEntry k f v)) i (<[k:=length (heap s)]> m) in
  shared_ok s → shards (table s) !! i = Some m → m !! k = None →
  holds s l = Some i → holds s l' = Some i → pend l' = pend l → local_ok s' l' →
  rets l' = rets l → step_ok s l s' l'.
Proof.
  intros i s' Hs Hm Hk Hh Hh' Hp Hl Hr.
  assert (evolves s s') as Hev by (etrans; [apply evolves_alloc|apply evolves_shard]).
  split; try done.
  - pose proof Hs as [Hlen Hi Hpl]. split; simpl; rewrite ?length_insert; try done.
    intros j m1 k1 a Hj Hk1. apply list_lookup_insert_Some in Hj as [(<- & <- & _)|[_ Hj]].
    + apply lookup_insert_Some in Hk1 as [[<- <-]|[_ Hk1]].
      * split; [done|]. exists (mkEntry k f v). split; [|done]. simpl. by apply list_lookup_middle.
      * destruct (Hpl _ _ _ _ Hm Hk1). split; [done|by eapply has_key_evolves].
    + destruct (Hpl _ _ _ _ Hj Hk1). split; [done|by eapply has_key_evolves].
  - intros _. rewrite Hp. unfold opened at 2. simpl. rewrite imap_app. simpl.
    rewrite Nat.add_0_r. fold (opened s).
    apply (Permutation_app_inv_l (map_to_list m)).
    pose proof (entries_set_shard (alloc s (mkEntry k f v)) i m (<[k:=length (heap s)]> m) Hm) as He.
    rewrite (map_to_list_insert m k) in He by done. fold s' in He.
    change (entries (alloc s _)) with (entries s) in He.
    rewrite !(assoc_L (++)), (comm (++) (map_to_list m) (entries _)), He. solve_Permutation.
  - apply pend_known_evolves; [done|]. by rewrite Hp.
  - intros j Hj Hlk. simpl. apply list_lookup_insert_ne. congruence.
  - intros j. unfold hold_count, lock_count. simpl.
    change (holds s' l') with (holds s l'). rewrite Hh, Hh'. lia.
  - by left.
  - by left.
Qed.

(** Two effects in one action. *)
Lemma step_ok_trans s l s1 l1 s2 l2 :
  step_ok s l s1 l1 → holds s1 l1 = holds s l → locks (table s1) = locks (table s) →
  called s1 = called s → rets l1 = rets l → step_ok s1 l1 s2 l2 → step_ok s l s2 l2.
Proof.
  intros A Hh Hlk Hc Hr B. split; try apply B.
  - etrans; [apply A|apply B].
  - intros Hon. pose proof (so_perm _ _ _ _ A Hon) as HA.
    rewrite <- (ev_onClose _ _ (so_ev _ _ _ _ A)) in Hon. pose proof (so_perm _ _ _ _ B Hon) as HB.
    apply (Permutation_app_inv_r (entries s1 ++ pend l1 ++ called s1 ++ opened s1)).
    trans ((entries s2 ++ pend l2 ++ called s2 ++ opened s1) ++
           (entries s1 ++ pend l1 ++ called s1 ++ opened s)); [solve_Permutation|].
    rewrite HA, HB. solve_Permutation.
  - intros Hk. by apply (so_pend _ _ _ _ B), (so_pend _ _ _ _ A).
  - intros i Hi Hl. rewrite (so_frame _ _ _ _ B), (so_frame _ _ _ _ A); congruence.
  - intros i. pose proof (so_lock _ _ _ _ A i). pose proof (so_lock _ _ _ _ B i). lia.
  - rewrite <- Hc. apply B.
  - rewrite <- Hr. apply B.
Qed.

(** ** The cases of [next] *)

Lemma with_shard_inv s l i f x :
  shared_ok s → (i < length (shards (table s)))%nat → x ∈ with_shard s l i f →
  ∃ m, shards (table s) !! i = Some m ∧ locks (table s) !! i = Some false ∧ x ∈ f m.
Proof.
  intros [Hl _ _] Hi Hx. unfold with_shard in Hx.
  destruct (lookup_lt_is_Some_2 _ _ Hi) as [m Hm]. rewrite Hm in *.
  assert (is_Some (locks (table s) !! i)) as [b Hb] by (apply lookup_lt_is_Some_2; lia).
  rewrite Hb in *. destruct b; [by apply not_elem_of_nil in Hx|]. eauto.
Qed.

Lemma picks_perm {A : Type} (l : list A) x rest : (x, rest) ∈ picks l → l ≡ₚ x :: rest.
Proof.
  revert x rest. induction l as [|y l IH]; intros x rest; simpl.
  - intros []%not_elem_of_nil.
  - rewrite elem_of_cons, list_elem_of_fmap.
    intros [?|([x' r'] & ? & Hin)]; simplify_eq/=; [done|].
    rewrite (IH _ _ Hin). apply Permutation_swap.
Qed.

Lemma flow_action_inv s a fl k s' l' :
  flow_at s a (fl_ok fl) → (s', l') ∈ flow_action s a fl k →
  ∃ e p fl', heap s !! a = Some e ∧ (p, fl') ∈ Flow.next (Flow.mkSh (body e) (now (table s))) fl ∧
    Flow.advances (body e) (Flow.flow p) ∧ evolves s s' ∧
    s' = set_body s a (Flow.flow p) ∧ l' = k fl' ∧ flow_at s' a (fl_ok fl').
Proof.
  intros (e & He & Hfl) Hin. unfold flow_action in Hin. rewrite He in Hin.
  apply list_elem_of_fmap in Hin as ([p fl'] & Heq & Hn). simplify_eq/=.
  destruct (fl_ok_next _ _ _ _ _ Hfl Hn) as [Hfl' Hadv]. exists e, p, fl'. split_and!; try done.
  - by eapply evolves_body.
  - eexists. rewrite heap_set_body, decide_True, He by done. split; [done|]. done.
Qed.

(** A new method call on a flow of the heap. *)
Lemma flow_at_call s k a c : has_key s k a → flow_at s a (fl_ok (flow_call c)).
Proof. intros (e & ? & _). exists e. split; [done|]. apply fl_ok_call. Qed.

Lemma scan_ok_all s i m : shards (table s) !! i = Some m → scan_ok s i (map_to_list m).
Proof.
  intros Hm. exists m. split_and!; [done|apply NoDup_fst_map_to_list|].
  intros k a. apply elem_of_map_to_list.
Qed.

Lemma scan_ok_perm s i rem rem' : rem ≡ₚ rem' → scan_ok s i rem → scan_ok s i rem'.
Proof. intros Hp (m & ? & Hnd & Hin). exists m. setoid_rewrite Hp in Hin. by rewrite Hp in Hnd. Qed.

Lemma scan_ok_tail s i x rem : scan_ok s i (x :: rem) → scan_ok s i rem.
Proof.
  intros (m & ? & Hnd & Hin). exists m. split_and!; [done|by apply NoDup_cons in Hnd as [_ ?]|].
  intros k a ?. apply Hin. by right.
Qed.

(** A scanned entry is deleted; the rest is still there. *)
Lemma scan_ok_delete s i m k a rem :
  shards (table s) !! i = Some m → scan_ok s i ((k, a) :: rem) →
  scan_ok (set_shard s i (delete k m)) i rem.
Proof.
  intros Hm (m' & Hm' & Hnd & Hin). simplify_eq. exists (delete k m). simpl in *.
  apply NoDup_cons in Hnd as [Hni Hnd]. split_and!; [|done|].
  - apply list_lookup_insert_eq. by eapply lookup_lt_Some.
  - intros k' a' Hr. apply lookup_delete_Some. split; [|apply Hin; by right].
    intros <-. apply Hni, list_elem_of_fmap. by exists (k, a').
Qed.

Lemma victims_ok_snoc s cutoff vs k a :
  victims_ok s cutoff vs →
  flow_at s a (λ f, Flow.is_frozen (Flow.seen f) = true ∧ Flow.LastSeen f < cutoff) →
  victims_ok s cutoff (vs ++ [(k, a)]).
Proof.
  intros Hv Hf k' a' [?|E]%elem_of_app; [by eapply Hv|].
  apply list_elem_of_singleton in E. by simplify_eq.
Qed.

Lemma victims_ok_nil s cutoff : victims_ok s cutoff [].
Proof. intros k a []%not_elem_of_nil. Qed.

Ltac at_pc_in H E := unfold local_ok, held, holds, pend in H; rewrite E in H.
Ltac same :=
  apply step_ok_same; try done;
  try (apply rets_ok_goto || apply rets_ok_return);
  unfold pend, holds, local_ok, held in *; simpl;
  repeat match goal with E : at_pc _ = _ |- _ => rewrite ?E in *; clear E end; simpl; try done.

Lemma remove_ok s l k m a e :
  shared_ok s → at_pc l = Ready → shards (table s) !! shard (table s) k = Some m →
  locks (table s) !! shard (table s) k = Some false → m !! k = Some a → heap s !! a = Some e →
  step_ok s l (set_shard (set_body s a (Flow.freeze (body e))) (shard (table s) k) (delete k m))
    (goto l (start_closed k a (JRemove k (Flow.id (body e))))).
Proof.
  intros Hs Hpc Hm Hlk Hk He.
  assert (evolves s (set_body s a (Flow.freeze (body e)))) as Hev
    by (eapply evolves_body; [done|apply Flow.advances_freeze]).
  assert (has_key (set_body s a (Flow.freeze (body e))) k a) as Hkey
    by (eapply has_key_evolves; [done|]; by eapply Hs).
  apply (step_ok_trans _ _ (set_body s a (Flow.freeze (body e))) l); try done.
  { eapply step_ok_body; try done; [apply Flow.advances_freeze|].
    unfold local_ok. by rewrite Hpc. }
  apply (step_ok_shard _ _ _ _ m); try done.
  - by apply shared_ok_body.
  - intros k' a' [_ ?]%lookup_delete_Some. done.
  - by right.
  - unfold holds. by rewrite Hpc.
  - unfold pend. rewrite Hpc. simpl. rewrite <- (map_to_list_delete m k a) by done.
    solve_Permutation.
  - unfold local_ok. simpl. split; [by left|]. split; [by eapply flow_at_call|].
    split_and!; [done|done|]. exists (mkEntry (key e) (Flow.freeze (body e)) (Value e)).
    split; [|done]. change (heap (set_body s a (Flow.freeze (body e))) !! a =
      Some (mkEntry (key e) (Flow.freeze (body e)) (Value e))).
    by rewrite heap_set_body, decide_True, He.
Qed.

Lemma use_flow_ok s l a c s' l' :
  shared_ok s → at_pc l = Ready → (s', l') ∈ use_flow s l a c → step_ok s l s' l'.
Proof.
  intros Hs Hpc Hn. unfold use_flow in Hn. destruct (heap s !! a) as [e|] eqn:He; inv_elem.
  same. exists e. split; [done|apply fl_ok_call].
Qed.

Lemma start_ok s l c s' l' :
  shared_ok s → at_pc l = Ready → (s', l') ∈ start hash zero s l c → step_ok s l s' l'.
Proof.
  intros Hs Hpc Hn. pose proof Hs as [_ Hidx Hpl].
  destruct c as [k|k|k nv|k id| |fn|ns| |ticks| |a|a|a]; simpl in Hn;
    try (by inv_elem; same); try (by eapply use_flow_ok).
  - apply with_shard_inv in Hn as (m & Hm & Hlk & Hn); [inv_elem|done..].
    same. destruct (m !! k) eqn:Hk; [|done]. by eapply Hpl.
  - apply with_shard_inv in Hn as (m & Hm & Hlk & Hn); [|done..].
    destruct (m !! k) as [a|] eqn:Hk; inv_elem; same.
    destruct (Hpl _ _ _ _ Hm Hk). split; [by eapply flow_at_call|done].
  - apply with_shard_inv in Hn as (m & Hm & Hlk & Hn); [|done..].
    assert (m !! k = None → ∀ v,
      step_ok s l (set_lock s (shard (table s) k) true) (goto l (GoNew k v))).
    { intros Hk v. apply step_ok_acquire; try done; unfold pend, holds; rewrite ?Hpc; try done.
      - by exists m.
      - apply rets_ok_goto. }
    repeat case_match; inv_elem; auto; same. by eapply Hpl.
  - apply with_shard_inv in Hn as (m & Hm & Hlk & Hn); [|done..].
    destruct (m !! k) as [a|] eqn:Hk; [|by inv_elem; same].
    destruct (heap s !! a) as [e|] eqn:He; [|by inv_elem].
    destruct (Z.eqb_spec (Flow.id (body e)) id); inv_elem; [|by same]. by apply remove_ok.
  - apply elem_of_cons in Hn as [?|Hn]; [|destruct ticks]; inv_elem; same; by left.
  - inv_elem. apply step_ok_lastID; try done. unfold local_ok. by rewrite Hpc.
Qed.

(** The actions inside a flow's method. *)
Lemma in_flow_ok s l a fl (k : Flow.Local → pc) s' l' :
  shared_ok s → flow_at s a (fl_ok fl) →
  (s', l') ∈ flow_action s a fl (λ fl', goto l (k fl')) →
  (∀ fl', pend (goto l (k fl')) = pend l) → (∀ fl', holds s (goto l (k fl')) = holds s l) →
  (∀ e p fl', heap s !! a = Some e → evolves s s' → s' = set_body s a (Flow.flow p) →
     (p, fl') ∈ Flow.next (Flow.mkSh (body e) (now (table s))) fl →
     flow_at s' a (fl_ok fl') → local_ok s' (goto l (k fl'))) →
  step_ok s l s' l'.
Proof.
  intros Hs Hfl Hn Hp Hh Hl.
  destruct (flow_action_inv _ _ _ _ _ _ Hfl Hn) as (e & p & fl' & He & Hn' & Hadv & Hev & -> & -> & Hfl').
  eapply step_ok_body; eauto.
Qed.

Lemma start_closed_ok s k a j :
  has_key s k a → job_for s k a j → ∀ l, local_ok s (goto l (start_closed k a j)).
Proof. intros. unfold local_ok. simpl. split_and!; [by left|by eapply flow_at_call|done]. Qed.

Lemma job_next_ok s l j s' l' :
  shared_ok s → pend_known s l → at_pc l = Job j → local_ok s l →
  (s', l') ∈ job_next s l j → step_ok s l s' l'.
Proof.
  intros Hs Hk Hpc Hl Hn. at_pc_in Hl Hpc. unfold pend_known, pend in Hk. rewrite Hpc in Hk.
  destruct j as [k id|cutoff [|[k a] rem] all|i rem]; simpl in Hn, Hk.
  - inv_elem. same.
  - inv_elem. same.
  - inv_elem. same. apply (start_closed_ok s k a (JSweep cutoff rem all) (Hk k a (list_elem_of_here _ _)) Hl l).
  - destruct rem as [|x rem]; [by inv_elem; same|].
    apply list_elem_of_fmap in Hn as ([[k a] rest] & Heq & Hp). simplify_eq/=.
    apply (picks_perm (x :: rem)) in Hp. same.
    assert (has_key s k a) as Hka by (apply Hk; rewrite Hp; left).
    by apply (start_closed_ok s k a (JClose i rest) Hka I l).
Qed.

Lemma range_next_ok s l fn i rem sn s' l' :
  shared_ok s → held s l → at_pc l = RaScan fn i rem sn →
  (s', l') ∈ range_next s l fn i rem sn → step_ok s l s' l'.
Proof.
  intros Hs Hh Hpc Hn.
  assert (∀ r, result_ok (set_lock s i false) r →
    step_ok s l (set_lock s i false) (return_ l r)) as Hret.
  { intros r Hr. apply step_ok_release; try done; unfold pend, holds; rewrite ?Hpc; try done.
    by apply rets_ok_return. }
  unfold range_next in Hn. destruct rem as [|x rem]; cbv beta iota zeta in Hn.
  - inv_elem. apply step_ok_release; try done; unfold pend, holds; rewrite ?Hpc; try done.
    apply rets_ok_goto.
  - apply list_elem_of_fmap in Hn as ([[k a] rest] & Heq & Hp).
    simpl in Heq. repeat case_match; simplify_eq; [by same|by apply Hret..].
Qed.

Lemma sweep_next_ok s l cutoff i rem vs s' l' :
  shared_ok s → held s l → at_pc l = SwScan cutoff i rem vs → local_ok s l →
  (s', l') ∈ sweep_next s l cutoff i rem vs → step_ok s l s' l'.
Proof.
  intros Hs Hh Hpc Hl Hn. at_pc_in Hl Hpc. destruct Hl as [Hscan Hv].
  unfold sweep_next in Hn. destruct rem as [|x rem]; cbv beta iota zeta in Hn.
  - inv_elem. apply step_ok_release; try done; unfold pend, holds; rewrite ?Hpc; try done.
    apply rets_ok_goto.
  - apply list_elem_of_fmap in Hn as ([[k a] rest] & Heq & Hp).
    simplify_eq/=. apply (picks_perm (x :: rem)) in Hp. eapply scan_ok_perm in Hscan; [|exact Hp].
    same. split_and!; [done|by left| |done].
    pose proof Hscan as (m & Hm & _ & Hin). eapply flow_at_call, Hs; [done|].
    apply Hin. left.
Qed.

Lemma sweep_delete_ok s l cutoff i k a fl rem vs :
  shared_ok s → at_pc l = SwExpire cutoff i k a fl rem vs → scan_ok s i ((k, a) :: rem) →
  victims_ok s cutoff (vs ++ [(k, a)]) →
  step_ok s l (delete_in s i k) (goto l (SwScan cutoff i rem (vs ++ [(k, a)]))).
Proof.
  intros Hs Hpc Hscan Hv. pose proof Hscan as (m & Hm & _ & Hin).
  assert (m !! k = Some a) as Hk by (apply Hin; left).
  unfold delete_in. rewrite Hm. apply (step_ok_shard _ _ _ _ m); try done.
  - intros k' a' [_ ?]%lookup_delete_Some. done.
  - left. unfold holds. by rewrite Hpc.
  - unfold holds. by rewrite Hpc.
  - unfold pend. rewrite Hpc. simpl. rewrite <- (map_to_list_delete m k a) by done.
    solve_Permutation.
  - unfold local_ok. simpl. split; [by eapply scan_ok_delete|].
    eapply victims_ok_evolves; [apply evolves_shard|done].
Qed.

Lemma store_new_ok s l k v id s' l' :
  shared_ok s → held s l → at_pc l = GoStore k v id → absent s k →
  (s', l') ∈ store_new hash s l k v id → step_ok s l s' l'.
Proof.
  intros Hs Hh Hpc (m & Hm & Hk) Hn. unfold store_new in Hn. rewrite Hm in Hn. inv_elem.
  set (f := Flow.mkFlow _ _ _). set (i := shard (table s) k).
  set (s1 := set_shard (alloc s (mkEntry k f v)) i _).
  assert (has_key s1 k (length (heap s))) as Hkey.
  { exists (mkEntry k f v). split; [|done]. simpl. by apply list_lookup_middle. }
  set (l1 := goto l (RaScan (λ _ _, None) i [] [])).
  assert (holds s l = Some i) as Hhold by (unfold holds; by rewrite Hpc).
  assert (step_ok s l s1 l1).
  { apply step_ok_insert; try done. unfold pend. by rewrite Hpc. }
  apply (step_ok_trans _ _ s1 l1); try done.
  apply step_ok_release; try done.
  - by apply so_shared with s l l1.
  - intros j Hj. injection Hj as <-. exact (Hh i Hhold).
  - by apply (rets_ok_return _ l1).
Qed.

Lemma sweep_body_ok s l ns s' l' :
  pend l = [] → holds s l = None → shared_ok s → (s', l') ∈ sweep_body s l ns → step_ok s l s' l'.
Proof.
  intros Hp Hh Hs Hn. unfold sweep_body in Hn.
  case_match; inv_elem; (apply step_ok_same; [done|by rewrite Hp|by rewrite Hh| |]).
  - done.
  - apply rets_ok_return, victims_ok_nil.
  - apply victims_ok_nil.
  - apply rets_ok_goto.
Qed.

Lemma next_ok s l s' l' :
  shared_ok s → held s l → local_ok s l → pend_known s l → (s', l') ∈ next s l →
  step_ok s l s' l'.
Proof.
  intros Hs Hh Hl Hk Hn. open_table Hn. pose proof Hl as Hl0.
  destruct (at_pc l) eqn:Hpc; at_pc_in Hl Hpc.
  - destruct (todo l) as [|c rest]; [by inv_elem|].
    destruct (start_ok s (mkLocal Ready rest (rets l)) c s' l' Hs eq_refl Hn)
      as [? ? ? A P B C ? ?]. split; try done.
    + unfold conserves, pend in A |- *. rewrite Hpc. exact A.
    + unfold pend_known, pend in P |- *. rewrite Hpc. exact P.
    + unfold holds in B |- *. rewrite Hpc. exact B.
    + unfold hold_count, holds in C |- *. rewrite Hpc. exact C.
  - inv_elem. apply step_ok_lastID; unfold pend, holds; rewrite ?Hpc; done.
  - by eapply store_new_ok.
  - destruct (flow_done fl); [by inv_elem; same; apply Hl|].
    destruct Hl as [Hf Hkey].
    eapply in_flow_ok; [done|exact Hf|exact Hn|..]; unfold pend, holds, local_ok; rewrite ?Hpc; try done.
    intros. split; [done|]. by eapply has_key_evolves.
  - destruct (flow_done fl); [by inv_elem; same|].
    eapply in_flow_ok; [done|exact Hl|exact Hn|..]; unfold pend, holds, local_ok; by rewrite ?Hpc.
  - destruct Hl as (Hin & Hf & Hj). destruct (flow_done fl) eqn:Hd.
    + inv_elem. same. split; [|done]. destruct Hf as (e & He & Hfl). exists e.
      split; [done|]. by eapply fl_done_close.
    + eapply in_flow_ok; [done|exact Hf|exact Hn|..]; unfold pend, holds, local_ok; rewrite ?Hpc; try done.
      simpl. intros e p fl' He Hev -> Hn' Hf'. split_and!; [by eapply in_close_next|done|].
      by eapply job_for_evolves.
  - inv_elem. by apply step_ok_called.
  - by eapply job_next_ok.
  - case_match eqn:Hlt; [apply Nat.ltb_lt in Hlt|by inv_elem; same].
    apply with_shard_inv in Hn as (m & Hm & Hlk & Hn); [|done..]. inv_elem. same.
  - case_match eqn:Hlt; [apply Nat.ltb_lt in Hlt|by inv_elem; same].
    apply with_shard_inv in Hn as (m & Hm & Hlk & Hn); [|done..]. inv_elem.
    apply step_ok_acquire; unfold pend, holds; rewrite ?Hpc; try done. apply rets_ok_goto.
  - by eapply range_next_ok.
  - case_match eqn:Hle; [|apply Z.leb_gt in Hle; by inv_elem; same].
    eapply sweep_body_ok; unfold pend, holds; by rewrite ?Hpc.
  - case_match eqn:Heq; [apply Z.eqb_eq in Heq as <-|by inv_elem; same].
    apply (step_ok_trans _ _ (set_now s ns) l); try done.
    + apply step_ok_now; try done; [lia|by left].
    + eapply sweep_body_ok; unfold pend, holds; rewrite ?Hpc; try done. by destruct Hs.
  - case_match eqn:Hlt; [apply Nat.ltb_lt in Hlt|by inv_elem; same].
    apply with_shard_inv in Hn as (m & Hm & Hlk & Hn); [|done..]. inv_elem.
    apply step_ok_acquire; unfold pend, holds; rewrite ?Hpc; try done; [|apply rets_ok_goto].
    split; [by apply scan_ok_all|done].
  - by eapply sweep_next_ok.
  - destruct Hl as (Hscan & Hin & Hf & Hv). destruct (flow_done fl) as [r|] eqn:Hd.
    + destruct (expired r) eqn:He; inv_elem.
      * eapply sweep_delete_ok; try done. apply victims_ok_snoc; [done|].
        destruct Hf as (e & Hae & Hfl). exists e. split; [done|]. by eapply fl_done_expire.
      * same. split; [by eapply scan_ok_tail|done].
    + eapply in_flow_ok; [done|exact Hf|exact Hn|..]; unfold pend, holds, local_ok; rewrite ?Hpc; try done.
      simpl. intros e p fl' He Hev -> Hn' Hf'. split_and!; try done.
      * by eapply in_expire_next.
      * by eapply victims_ok_evolves.
  - case_match eqn:Hlt; [apply Nat.ltb_lt in Hlt|by inv_elem; same].
    apply with_shard_inv in Hn as (m & Hm & Hlk & Hn); [|done..]. inv_elem.
    apply (step_ok_shard _ _ _ _ m); unfold pend, holds; rewrite ?Hpc; try done; [by right|].
    simpl. by rewrite map_to_list_empty, app_nil_r.
Qed.

(** ** Whole configurations *)

Record inv (c : conf) : Prop := {
  inv_shared : shared_ok (shared c);
  inv_local : Forall (local_ok (shared c)) (procs c);
  inv_pend : Forall (pend_known (shared c)) (procs c);
  inv_lock : ∀ i, zsum (hold_count (shared c) i) (procs c) = lock_count (shared c) i;
  inv_perm : onClose (table (shared c)) = true →
    entries (shared c) ++ (procs c ≫= pend) ++ called (shared c) ≡ₚ opened (shared c);
  inv_called : ∀ k a, (k, a) ∈ called (shared c) →
    flow_at (shared c) a (λ f, Flow.state f = Flow.Closed);
  inv_results : ∀ l r, l ∈ procs c → r ∈ rets l → result_ok (shared c) r }.

Lemma hold_count_evolves s s' i l : evolves s s' → hold_count s' i l = hold_count s i l.
Proof. intros. unfold hold_count. by rewrite (holds_evolves s s'). Qed.

(** Lock [i] is held when a goroutine holds it, and then by no other. *)
Lemma lock_excl s ps n l :
  (∀ i, zsum (hold_count s i) ps = lock_count s i) → ps !! n = Some l → held s l.
Proof.
  intros Hc Hl i Hi. specialize (Hc i). unfold lock_count in Hc. case_bool_decide as E; [done|].
  assert (hold_count s i l <= zsum (hold_count s i) ps).
  { apply zsum_elem_pos; [|by eapply list_elem_of_lookup_2].
    intros x. unfold hold_count. case_bool_decide; lia. }
  unfold hold_count in H0 at 1. rewrite bool_decide_true in H0 by done. lia.
Qed.

Lemma lock_excl_other s ps n n' l l' i :
  (∀ i, zsum (hold_count s i) ps = lock_count s i) → ps !! n = Some l → ps !! n' = Some l' →
  n ≠ n' → holds s l' = Some i → holds s l ≠ Some i.
Proof.
  intros Hc Hl Hl' Hne Hi' Hi. specialize (Hc i).
  assert (zsum (hold_count s i) (<[n:=mkLocal Ready [] []]> ps) = lock_count s i - 1) as E.
  { rewrite (zsum_insert _ _ _ _ _ Hl), Hc. unfold hold_count. rewrite Hi. simpl.
    rewrite bool_decide_true by done. lia. }
  assert (hold_count s i l' <= zsum (hold_count s i) (<[n:=mkLocal Ready [] []]> ps)) as Hle.
  { apply zsum_elem_pos.
    - intros x. unfold hold_count. case_bool_decide; lia.
    - apply (list_elem_of_lookup_2 _ n'). by rewrite list_lookup_insert_ne. }
  rewrite E in Hle. unfold hold_count, lock_count in Hle. rewrite Hi' in Hle.
  rewrite bool_decide_true in Hle by done. case_bool_decide; lia.
Qed.

Lemma inv_step c c' : inv c → step next c c' → inv c' ∧ evolves (shared c) (shared c').
Proof.
  intros [Is Il Ip Ik Iq Ic Ir] Hstep. destruct Hstep as [n l s s' l' ps Hl Hn]. simpl in *.
  assert (held s l) as Hh by (by eapply lock_excl).
  destruct (next_ok s l s' l' Is Hh) as [Hev Hs' Hl' Hp Hpd Hfr Hlk Hcl Hrt]; try done.
  { by eapply Forall_lookup_1. }
  { by eapply Forall_lookup_1. }
  split; [|done]. split; simpl; try done.
  - apply Forall_lookup_2. intros m x Hx.
    apply list_lookup_insert_Some in Hx as [(<- & <- & _)|[Hne Hx]]; [done|].
    eapply local_ok_evolves; [done| |by eapply Forall_lookup_1].
    intros i Hi. apply Hfr; [by eapply lock_excl_other|].
    by eapply (lock_excl s ps m x).
  - apply Forall_insert; [|by apply Hpd; eapply Forall_lookup_1].
    eapply Forall_impl; [exact Ip|]. intros x. by apply pend_known_evolves.
  - intros i. rewrite (zsum_insert _ _ _ _ _ Hl). specialize (Hlk i). specialize (Ik i).
    rewrite (hold_count_evolves s s' i l) by done.
    assert (zsum (hold_count s' i) ps = zsum (hold_count s i) ps) as ->; [|lia].
    apply zsum_ext. intros. by apply hold_count_evolves.
  - intros Hon. rewrite (ev_onClose _ _ Hev) in Hon.
    pose proof (Hp Hon) as HA. pose proof (Iq Hon) as HB.
    pose proof (bind_insert_perm pend ps n l l' Hl) as HC.
    apply (Permutation_app_inv_r (opened s ++ pend l)).
    trans ((entries s' ++ pend l' ++ called s' ++ opened s) ++ (ps ≫= pend)).
    { trans (entries s' ++ called s' ++ opened s ++ ((<[n:=l']> ps ≫= pend) ++ pend l));
        [solve_Permutation|]. rewrite HC. solve_Permutation. }
    rewrite HA. trans ((entries s ++ (ps ≫= pend) ++ called s) ++ pend l ++ opened s');
      [solve_Permutation|]. rewrite HB. solve_Permutation.
  - intros k a Hin.
    assert ((k, a) ∈ called s → flow_at s' a (λ f, Flow.state f = Flow.Closed)) as Hold.
    { intros ?. eapply flow_at_evolves; [|done|by eapply Ic]. apply Flow.advances_closed. }
    destruct Hcl as [E|(k' & a' & E & ?)]; rewrite E in Hin; [auto|].
    apply elem_of_app in Hin as [?|Hin]; [auto|].
    apply list_elem_of_singleton in Hin. by simplify_eq.
  - intros m r Hm Hr.
    assert (∀ x, x ∈ ps → r ∈ rets x → result_ok s' r) as Hold
      by (intros x ??; eapply result_ok_evolves; [done|by eapply Ir]).
    apply elem_of_insert_list in Hm as [->|?]; [|by eapply Hold].
    apply list_elem_of_lookup_2 in Hl.
    destruct Hrt as [E|(r' & E & ?)]; rewrite E in Hr; [by eapply Hold|].
    apply elem_of_app in Hr as [?| ->%list_elem_of_singleton]; [by eapply Hold|done].
Qed.

Lemma inv_steps c c' : inv c → rtc (step next) c c' → inv c' ∧ evolves (shared c) (shared c').
Proof.
  intros Hc. apply (inv_reachable next (λ c', inv c' ∧ evolves (shared c) (shared c'))); [done|].
  intros a b [Ha Hev] Hab. destruct (inv_step a b Ha Hab). split; [done|by etrans].
Qed.

(** A new table satisfies it. *)
Lemma new_table_ok o clk t last :
  optShards o <= 2 ^ 62 → NewTable (K:=K) o clk = Some t → shared_ok (mkSh t [] last []).
Proof.
  intros Ho Hnew. unfold NewTable in Hnew.
  destruct (pow2_ceil_spec (if optShards o <=? 0 then 64 else optShards o))
    as (j & Hj & Hp & _); [destruct (Z.leb_spec (optShards o) 0); lia|].
  rewrite Hp in Hnew. simplify_eq/=.
  assert (1 <= 2 ^ j <= 2 ^ 62) by (split; [apply (Z.pow_le_mono_r 2 0)|apply Z.pow_le_mono_r]; lia).
  split; simpl.
  - by rewrite !length_replicate.
  - intros k. rewrite length_replicate. unfold Table.shard. simpl.
    rewrite (u64_small (2 ^ j - 1)) by (unfold in_u64; lia). rewrite land_mask by lia.
    pose proof (Z.mod_pos_bound (u64 (hash k)) (2 ^ j) ltac:(lia)). lia.
  - intros i m k a Hm Hk. apply lookup_replicate in Hm as [-> _]. by rewrite lookup_empty in Hk.
Qed.

Lemma inv_init o clk t last progs :
  optShards o <= 2 ^ 62 → NewTable (K:=K) o clk = Some t → inv (init t last progs).
Proof.
  intros Ho Hnew. pose proof (new_table_ok o clk t last Ho Hnew) as Hs.
  assert (∀ l, l ∈ procs (init (V:=V) t last progs) → at_pc l = Ready ∧ rets l = []) as Hl.
  { intros l (cs & -> & _)%list_elem_of_fmap. done. }
  unfold NewTable in Hnew. destruct (pow2_ceil _) as [sz|]; [|done]. simplify_eq/=.
  split; try done.
  - apply Forall_forall. intros l [E _]%Hl. unfold local_ok. by rewrite E.
  - apply Forall_forall. intros l [E _]%Hl k a. unfold pend. rewrite E.
    intros []%not_elem_of_nil.
  - intros i. rewrite zsum_zero.
    + unfold lock_count. simpl. rewrite bool_decide_false; [done|].
      by intros [? _]%lookup_replicate.
    + intros l [E _]%Hl. unfold hold_count, holds. by rewrite E.
  - intros _. simpl. unfold entries, opened. simpl. rewrite app_nil_r.
    replace (_ ≫= pend) with (@nil (K * nat)).
    + rewrite app_nil_r. clear. induction (Z.to_nat sz) as [|n IH]; simpl; [done|].
      by rewrite map_to_list_empty.
    + symmetry. clear. induction progs as [|p ps IH]; [done|]. csimpl. by rewrite IH.
  - intros k a []%not_elem_of_nil.
  - intros l r [_ E]%Hl. rewrite E. intros []%not_elem_of_nil.
Qed.
End inv.
