(* ===== verification/TableThms.v ===== *)
(** The flow table's promises: OnClose exactly once, IDs as epochs, idle
    eviction and lookups that do not refresh. *)
From S2P Require Import Prelude Interleave Flow Table TableInv.

Local Open Scope Z_scope.

Section thms.
Context {K : Type} `{Countable K} {V : Type}.
Context (hash : K → Z) (zero : V).

Implicit Types (s : Sh (K:=K) (V:=V)) (l : Local (K:=K) (V:=V)).
Local Abbreviation next := (next hash zero).

(** * IDs *)

Definition ids s : list Z := (λ e, Flow.id (body e)) <$> heap s.
Definition inflight l : list Z := match at_pc l with GoStore _ _ id => [id] | _ => [] end.

(** How many IDs a goroutine may still take. *)
Definition needs_id (c : call (K:=K) (V:=V)) : Z :=
  match c with CGetOrOpen _ _ | CNextID => 1 | _ => 0 end.
Definition potential l : Z :=
  zsum needs_id (todo l) + match at_pc l with GoNew _ _ => 1 | _ => 0 end.

Lemma flow_next_id f clk fl p fl' :
  (p, fl') ∈ Flow.next (Flow.mkSh f clk) fl → Flow.id (Flow.flow p) = Flow.id f.
Proof.
  unfold Flow.next, Flow.close_load, Flow.touch_load. intros Hn.
  repeat case_match; inv_elem; done.
Qed.

Lemma ids_body s a f e :
  heap s !! a = Some e → Flow.id f = Flow.id (body e) → ids (set_body s a f) = ids s.
Proof.
  intros He Hf. unfold ids. apply list_eq. intros i. rewrite !list_lookup_fmap, heap_set_body.
  case_decide; [subst|done]. rewrite He. simpl. by rewrite Hf.
Qed.

(** Either no ID is taken, or the next one is, by a call that may. *)
Definition ids_step s l s' l' : Prop :=
  (potential l' <= potential l ∧ lastID s' = lastID s ∧
   ids s' ++ inflight l' ≡ₚ ids s ++ inflight l) ∨
  (potential l' + 1 <= potential l ∧ lastID s' = NextID (lastID s) ∧
   (ids s' ++ inflight l' ≡ₚ ids s ++ inflight l ∨
    ids s' ++ inflight l' ≡ₚ NextID (lastID s) :: ids s ++ inflight l)).

Lemma ids_flow_action s l a fl k s' l' :
  (s', l') ∈ flow_action s a fl k → (∀ fl', potential (k fl') <= potential l) →
  (∀ fl', inflight (k fl') = inflight l) → ids_step s l s' l'.
Proof.
  unfold flow_action. destruct (heap s !! a) as [e|] eqn:He; [|by intros ?%not_elem_of_nil].
  intros ([p fl'] & Heq & Hn)%list_elem_of_fmap Hp Hi. simplify_eq/=.
  left. split; [apply Hp|]. split; [done|].
  rewrite Hi, (ids_body s a _ e); [done..|]. by eapply flow_next_id.
Qed.

Ltac ids_case := left; unfold potential, inflight; simpl;
  repeat match goal with E : at_pc _ = _ |- _ => rewrite ?E; clear E end;
  split; [simpl; lia|split; [done|try done]].

Lemma ids_start s l c rest s' l' :
  at_pc l = Ready → todo l = c :: rest →
  (s', l') ∈ start hash zero s (mkLocal Ready rest (rets l)) c → ids_step s l s' l'.
Proof.
  intros Hpc Htd Hn. destruct c; simpl in Hn; unfold with_shard, use_flow, run_select in Hn;
    unfold ids_step, potential, inflight; rewrite Hpc, Htd; simpl;
    repeat case_match; inv_elem; try (left; split_and!; simpl; [lia|done|done]).
  - left. split_and!; simpl; [lia|done|]. change (ids (set_shard ?x _ _)) with (ids x).
    by erewrite ids_body.
  - right. split_and!; simpl; [lia|done|]. by left.
Qed.

Ltac ids_plain Hn :=
  unfold with_shard, sweep_body, job_next, range_next, sweep_next, delete_in in Hn;
  repeat case_match;
  try (apply list_elem_of_fmap in Hn as (? & Hn & _); repeat case_match);
  inv_elem; by ids_case.
Ltac ids_flow Hn :=
  case_match; [repeat case_match; inv_elem; unfold delete_in; repeat case_match; by ids_case|];
  eapply ids_flow_action; [exact Hn|..]; intros; unfold potential, inflight; simpl;
  repeat match goal with E : at_pc _ = _ |- _ => rewrite E end; done || lia.

Lemma next_ids s l s' l' : (s', l') ∈ next s l → ids_step s l s' l'.
Proof.
  intros Hn. open_table Hn. destruct (at_pc l) eqn:Hpc; try (by ids_plain Hn); try (by ids_flow Hn).
  - destruct (todo l) eqn:Htd; [by inv_elem|]. by eapply ids_start.
  - inv_elem. right. unfold potential, inflight. rewrite Hpc. simpl.
    split_and!; [lia|done|]. right. rewrite app_nil_r. symmetry. apply Permutation_cons_append.
  - unfold store_new in Hn. case_match; inv_elem. ids_case.
    unfold ids. simpl. by rewrite fmap_app, app_nil_r.
Qed.

Record ids_inv (c : conf) : Prop := {
  ids_nodup : NoDup (ids (shared c) ++ (procs c ≫= inflight));
  ids_bound : ∀ x, x ∈ ids (shared c) ++ (procs c ≫= inflight) → 0 < x <= lastID (shared c);
  ids_last : 0 <= lastID (shared c);
  ids_room : lastID (shared c) + zsum potential (procs c) < 2 ^ 64 }.

Lemma potential_nonneg l : 0 <= potential l.
Proof.
  unfold potential. assert (0 <= zsum needs_id (todo l)); [|by case_match; lia].
  apply zsum_nonneg. intros []; simpl; lia.
Qed.

Lemma ids_inv_step c c' : ids_inv c → step next c c' → ids_inv c'.
Proof.
  intros [Hnd Hb Hl0 Hr] Hstep. destruct Hstep as [n l s s' l' ps Hl Hn]. simpl in *.
  pose proof (zsum_insert potential ps n l l' Hl) as Hz.
  pose proof (bind_insert_perm inflight ps n l l' Hl) as Hi.
  assert (∀ x, x ∈ <[n:=l']> ps → 0 <= potential x) as Hpos by (intros; apply potential_nonneg).
  assert (0 <= zsum potential (<[n:=l']> ps)) as Hz0 by apply zsum_nonneg, potential_nonneg.
  assert (∀ new, ids s' ++ inflight l' ≡ₚ new ++ ids s ++ inflight l →
    ids s' ++ (<[n:=l']> ps ≫= inflight) ≡ₚ new ++ ids s ++ (ps ≫= inflight)) as Hperm.
  { intros new Hp. apply (Permutation_app_inv_r (inflight l)). rewrite <- !(assoc_L (++)), Hi.
    trans ((ids s' ++ inflight l') ++ (ps ≫= inflight)); [solve_Permutation|].
    rewrite Hp. solve_Permutation. }
  assert (∀ x, x ∈ ids s ++ (ps ≫= inflight) → x ≠ lastID s + 1) as Hfresh.
  { intros x ?%Hb. lia. }
  destruct (next_ids s l s' l' Hn) as [(Hp & HL & Hq)|(Hp & HL & Hq)].
  - specialize (Hperm [] Hq). simpl in Hperm. split; simpl; rewrite ?Hperm, ?HL; try done; [|lia].
    intros x. rewrite Hperm. apply Hb.
  - unfold NextID in *. rewrite u64_small in * by (unfold in_u64; lia).
    destruct Hq as [Hq|Hq]; [specialize (Hperm [] Hq)|specialize (Hperm [lastID s + 1] Hq)];
      simpl in Hperm; (split; simpl; rewrite ?HL; [rewrite Hperm| |lia|lia]); try done.
    + intros x. rewrite Hperm. intros ?%Hb. lia.
    + apply NoDup_cons. split; [|done]. by intros ?%Hfresh.
    + intros x. rewrite Hperm. intros [->|?%Hb]%elem_of_cons; lia.
Qed.

Lemma ids_inv_init t last progs :
  0 <= last → last + zsum (zsum needs_id) progs < 2 ^ 64 → ids_inv (init t last progs).
Proof.
  intros H0 Hr. assert (∀ x, x ∉ (procs (init (V:=V) t last progs) ≫= inflight)) as Hno.
  { intros x (l & Hx & (cs & -> & _)%list_elem_of_fmap)%list_elem_of_bind.
    by apply not_elem_of_nil in Hx. }
  split; simpl in *; try done.
  - by rewrite (elem_of_nil_inv _ Hno); constructor.
  - by intros x ?%Hno.
  - assert (zsum potential ((λ cs, mkLocal Ready cs []) <$> progs) = zsum (zsum needs_id) progs)
      as ->; [|done].
    clear. induction progs as [|p ps IH]; [done|].
    change (potential (mkLocal Ready p []) + zsum potential ((λ cs, mkLocal Ready cs []) <$> ps) =
            zsum needs_id p + zsum (zsum needs_id) ps).
    rewrite IH. unfold potential. simpl. lia.
Qed.

(** Equal IDs mean the same flow. *)
Lemma ids_unique s a b e e' :
  NoDup (ids s) → heap s !! a = Some e → heap s !! b = Some e' →
  Flow.id (body e) = Flow.id (body e') → a = b.
Proof.
  intros Hnd Ha Hb Heq. eapply (NoDup_lookup (ids s)); [done|..];
    unfold ids; rewrite list_lookup_fmap; [by rewrite Ha|]. rewrite Hb. simpl. by rewrite Heq.
Qed.

(** * Without a touch, nothing is refreshed *)

Definition no_touch_call (c : call (K:=K) (V:=V)) : Prop :=
  match c with CGetAndTouch _ | CTouchFlow _ => False | _ => True end.

Definition fl_quiet (fl : Flow.Local) : Prop :=
  (Flow.CTouch ∉ Flow.todo fl) ∧
  match Flow.at_pc fl with Flow.ToLoop _ | Flow.ToCas _ _ => False | _ => True end.

(** A goroutine that will not touch a flow. *)
Definition quiet l : Prop :=
  Forall no_touch_call (todo l) ∧
  match at_pc l with
  | InTouch _ _ _ => False
  | InFlow _ fl | InClosed _ _ fl _ | SwExpire _ _ _ _ fl _ _ => fl_quiet fl
  | _ => True
  end.

Lemma fl_quiet_next f clk fl p fl' :
  fl_quiet fl → (p, fl') ∈ Flow.next (Flow.mkSh f clk) fl →
  fl_quiet fl' ∧ Flow.LastSeen (Flow.flow p) = Flow.LastSeen f.
Proof.
  intros [Ht Hq] Hn. unfold Flow.next, Flow.close_load in Hn. unfold fl_quiet, Flow.LastSeen.
  destruct fl as [[] td rs]; simpl in *; repeat case_match; inv_elem; flow_facts; subst;
    rewrite ?Flow.and_not_lor; try done; set_solver.
Qed.

Definition same_seen s s' : Prop :=
  ∀ a e, heap s !! a = Some e →
  ∃ e', heap s' !! a = Some e' ∧ Flow.LastSeen (body e') = Flow.LastSeen (body e).

Lemma same_seen_refl s s' : heap s' = heap s → same_seen s s'.
Proof. intros E a e He. exists e. by rewrite E. Qed.

Lemma same_seen_body s a e f :
  heap s !! a = Some e → Flow.LastSeen f = Flow.LastSeen (body e) → same_seen s (set_body s a f).
Proof.
  intros He Hf b e' Hb. rewrite heap_set_body. case_decide; [subst|by exists e'].
  rewrite Hb. simplify_eq. by eexists.
Qed.

Lemma quiet_flow_action s a fl k s' l' :
  (s', l') ∈ flow_action s a fl k → fl_quiet fl → (∀ fl', fl_quiet fl' → quiet (k fl')) →
  quiet l' ∧ same_seen s s'.
Proof.
  unfold flow_action. destruct (heap s !! a) as [e|] eqn:He; [|by intros ?%not_elem_of_nil].
  intros ([p fl'] & Heq & Hn)%list_elem_of_fmap Hq Hk. simplify_eq/=.
  destruct (fl_quiet_next _ _ _ _ _ Hq Hn). split; [by apply Hk|]. by eapply same_seen_body.
Qed.

Lemma fl_quiet_call c : c ≠ Flow.CTouch → fl_quiet (flow_call c).
Proof. intros Hc. split; [|done]. simpl. intros ?%list_elem_of_singleton. congruence. Qed.

Lemma quiet_start s l c rest s' l' :
  Forall no_touch_call (c :: rest) → todo l = c :: rest →
  (s', l') ∈ start hash zero s (mkLocal Ready rest (rets l)) c → quiet l' ∧ same_seen s s'.
Proof.
  intros [Hc Hrest]%Forall_cons Htd Hn.
  destruct c; simpl in Hn, Hc; try done; unfold with_shard, use_flow, run_select in Hn;
    repeat case_match; inv_elem; unfold quiet; simpl;
    try (split; [split; [by auto|by auto using fl_quiet_call]|by apply same_seen_refl]).
  - split; [split; [done|by apply fl_quiet_call]|]. intros b e' Hb.
    eapply (same_seen_body s _ _ (Flow.freeze _)); [done| |exact Hb].
    unfold Flow.LastSeen. simpl. by rewrite Flow.and_not_lor.
Qed.

Ltac quiet_plain Hn :=
  unfold with_shard, sweep_body, job_next, range_next, sweep_next, delete_in, start_closed in Hn;
  repeat case_match;
  try (apply list_elem_of_fmap in Hn as (? & Hn & _); repeat case_match);
  inv_elem; (split; [split; simpl; [done|by auto using fl_quiet_call]|by apply same_seen_refl]).
Ltac quiet_flow Hn :=
  case_match; [repeat case_match; inv_elem; unfold delete_in; repeat case_match;
    by split; [|apply same_seen_refl]|];
  eapply quiet_flow_action; [exact Hn|done|]; by intros; split.

Lemma next_quiet s l s' l' : quiet l → (s', l') ∈ next s l → quiet l' ∧ same_seen s s'.
Proof.
  intros [Ht Hq] Hn. open_table Hn. destruct (at_pc l) eqn:Hpc; try done;
    try (by quiet_plain Hn); try (by quiet_flow Hn).
  - destruct (todo l) eqn:Htd; [by inv_elem|]. by eapply quiet_start.
  - unfold store_new in Hn. case_match; inv_elem. split; [done|].
    intros a e He. exists e. split; [|done]. simpl. by apply lookup_app_l_Some.
Qed.

Lemma quiet_steps c c' :
  Forall quiet (procs c) → rtc (step next) c c' →
  Forall quiet (procs c') ∧ same_seen (shared c) (shared c').
Proof.
  intros Hc. apply (inv_reachable next (λ c', Forall quiet (procs c') ∧
    same_seen (shared c) (shared c'))); [split; [done|by apply same_seen_refl]|].
  intros a b [Ha Hs] Hab. destruct Hab as [n l s s' l' ps Hl Hn]. simpl in *.
  destruct (next_quiet s l s' l') as [? Hs']; [by eapply Forall_lookup_1|done|].
  split; [by apply Forall_insert|]. intros x e He. apply Hs in He as (e' & He' & ?).
  apply Hs' in He' as (e'' & ? & ?). exists e''. split; [done|congruence].
Qed.

(** * Properties *)

Lemma opened_nodup s : NoDup (opened s).
Proof.
  apply (NoDup_fmap_1 snd). unfold opened. rewrite fmap_imap. simpl.
  assert (∀ (es : list (Entry (K:=K) (V:=V))) n, NoDup (imap (λ a _, n + a)%nat es)) as Hn.
  { induction es as [|e es IH]; intros n; simpl; [constructor|]. apply NoDup_cons. split.
    - rewrite elem_of_lookup_imap. intros (i & x & E & _). simpl in E. lia.
    - erewrite imap_ext; [apply (IH (S n))|]. intros. simpl. lia. }
  erewrite imap_ext; [apply (Hn _ 0%nat)|]. done.
Qed.

(** C5: whatever the goroutines do, OnClose is called at most once per flow,
    with the key the flow was opened for and after the flow is Closed; no flow
    is lost: when no call is running, the flows still in the table and the flows
    reported to OnClose are together exactly the flows ever opened. *)
Theorem OnClose_exactly_once o clk t last progs c :
  optShards o <= 2 ^ 62 → optOnClose o = true → NewTable o clk = Some t →
  rtc (step next) (init t last progs) c →
  NoDup (called (shared c)) ∧
  (∀ k a, (k, a) ∈ called (shared c) →
     ∃ e, heap (shared c) !! a = Some e ∧ key e = k ∧ Flow.state (body e) = Flow.Closed) ∧
  (Forall (λ l, at_pc l = Ready) (procs c) →
     entries (shared c) ++ called (shared c) ≡ₚ opened (shared c)).
Proof.
  intros Ho Hon Hnew Hc. pose proof (inv_init hash o clk t last progs Ho Hnew) as Hi.
  assert (onClose t = true) as Hont.
  { unfold NewTable in Hnew. destruct (pow2_ceil _); by simplify_eq/=. }
  destruct (inv_steps hash zero _ _ Hi Hc) as [[_ _ _ _ Hp Hcl _] Hev].
  specialize (Hp (eq_trans (ev_onClose _ _ Hev) Hont)).
  split_and!.
  - pose proof (opened_nodup (shared c)) as Hnd. rewrite <- Hp in Hnd.
    by apply NoDup_app in Hnd as (_ & _ & (_ & _ & ?)%NoDup_app).
  - intros k a Hin. destruct (Hcl k a Hin) as (e & He & ?). exists e. split_and!; try done.
    assert ((k, a) ∈ opened (shared c)) as Hop by (rewrite <- Hp; set_solver).
    apply elem_of_lookup_imap in Hop as (i & x & ? & ?). by simplify_eq.
  - intros Hready. rewrite <- Hp. replace (procs c ≫= pend) with (@nil (K * nat)); [done|].
    symmetry. clear -Hready. induction Hready as [|l ls Hl _ IH]; [done|]. csimpl.
    rewrite IH. unfold pend. by rewrite Hl.
Qed.

(** C7: the results of the table's methods stay true: a lookup gave the flow
    opened for that key, a successful Remove took out a flow of that key and ID
    and reported it, and every flow a Sweep evicted was last seen before the
    sweep's cutoff and can never be touched again. No shard index is out of
    range. *)
Theorem table_results_hold o clk t last progs c c' l r :
  optShards o <= 2 ^ 62 → NewTable o clk = Some t →
  rtc (step next) (init t last progs) c → l ∈ procs c → r ∈ rets l →
  rtc (step next) c c' → result_ok (shared c') r.
Proof.
  intros Ho Hnew Hc Hl Hr Hc'. pose proof (inv_init hash o clk t last progs Ho Hnew) as Hi.
  destruct (inv_steps hash zero _ _ Hi Hc) as [Hinv _].
  destruct (inv_steps hash zero _ _ Hinv Hc') as [_ Hev].
  eapply result_ok_evolves; [done|]. by eapply Hinv.
Qed.

(** C6: an ID names one flow as long as fewer than 2^64 are taken, so a
    successful Remove closed and reported exactly the flow its caller meant,
    never a newer one under the same key. *)
Theorem Remove_takes_named_flow o clk t last progs c l k i :
  optShards o <= 2 ^ 62 → NewTable o clk = Some t →
  0 <= last → last + zsum (zsum needs_id) progs < 2 ^ 64 →
  rtc (step next) (init t last progs) c → l ∈ procs c → RetRemove k i true ∈ rets l →
  ∃ a e, heap (shared c) !! a = Some e ∧ key e = k ∧ Flow.id (body e) = i ∧
    Flow.state (body e) = Flow.Closed ∧
    (onClose (table (shared c)) = true → (k, a) ∈ called (shared c)) ∧
    ∀ b e', heap (shared c) !! b = Some e' → Flow.id (body e') = i → b = a.
Proof.
  intros Ho Hnew H0 Hroom Hc Hl Hr. pose proof (inv_init hash o clk t last progs Ho Hnew) as Hi.
  destruct (inv_steps hash zero _ _ Hi Hc) as [[_ _ _ _ _ _ Hres] _].
  destruct (Hres l _ Hl Hr) as (a & e & He & ? & ? & ? & ?). exists a, e. split_and!; try done.
  intros b e' Hb Hid. eapply (ids_unique (shared c)); [|done..|by congruence].
  assert (ids_inv c) as [Hnd _ _ _]; [|by apply NoDup_app in Hnd as (? & _)].
  eapply (inv_reachable next ids_inv); [|apply ids_inv_step|exact Hc]. by apply ids_inv_init.
Qed.

(** Lookups, opening, BeginClose, Close, Remove and sweeps do not refresh
    a flow: while no goroutine touches, every flow's LastSeen stays what it
    was. *)
Theorem only_Touch_refreshes c c' a e :
  Forall quiet (procs c) → rtc (step next) c c' → heap (shared c) !! a = Some e →
  ∃ e', heap (shared c') !! a = Some e' ∧ Flow.LastSeen (body e') = Flow.LastSeen (body e).
Proof. intros Hq Hc. by apply (quiet_steps c c'). Qed.
End thms.

(** * Witnesses *)

Definition demo_opts : TableOptions := mkOptions 2 100 true.
Definition demo_hash (k : nat) : Z := Z.of_nat k.
Definition demo_table : Table (K:=nat) := Eval vm_compute in
  default (mkTable [] [] 0 0 false 0) (NewTable demo_opts 1000).
(** One goroutine opens two flows, removes the first and sweeps; another looks
    the second up and closes it while the sweep is running. *)
Definition demo_progs : list (list (call (K:=nat) (V:=unit))) :=
  [[CGetOrOpen 1%nat NilFn; CGetOrOpen 2%nat (Returns tt); CRemove 1%nat 7; CSweep 2000];
   [CGet 2%nat; CCloseFlow 1%nat]].
Definition demo_init : conf := init demo_table 6 demo_progs.
Definition demo_sched : list (nat * nat) :=
  replicate 14 (0, 0)%nat ++ replicate 3 (1, 0)%nat ++ replicate 8 (0, 0)%nat ++
  replicate 3 (1, 0)%nat ++ replicate 8 (0, 0)%nat.
Definition demo_mid : conf := Eval vm_compute in
  default demo_init (run (next demo_hash tt) (take 14 demo_sched) demo_init).
Definition demo : conf := Eval vm_compute in
  default demo_init (run (next demo_hash tt) demo_sched demo_init).

Lemma OnClose_exactly_once_witness :
  called (shared demo) = [(1, 0); (2, 1)]%nat ∧
  entries (shared demo) ++ called (shared demo) ≡ₚ opened (shared demo).
Proof.
  split; [reflexivity|].
  apply (OnClose_exactly_once demo_hash tt demo_opts 1000 demo_table 6 demo_progs demo).
  - vm_compute. discriminate.
  - reflexivity.
  - vm_compute. reflexivity.
  - apply (run_sound _ demo_sched). vm_compute. reflexivity.
  - repeat constructor.
Defined.

Lemma table_results_hold_witness : result_ok (shared demo) (RetSweep 1900 [(2, 1)]%nat).
Proof.
  apply (table_results_hold demo_hash tt demo_opts 1000 demo_table 6 demo_progs demo demo
    (mkLocal Ready [] [RetOpen 1 0 true; RetOpen 2 1 true; RetRemove 1 7 true;
      RetSweep 1900 [(2, 1)]]%nat)).
  - vm_compute. discriminate.
  - vm_compute. reflexivity.
  - apply (run_sound _ demo_sched). vm_compute. reflexivity.
  - left.
  - do 3 right. left.
  - constructor.
Defined.

Lemma Remove_takes_named_flow_witness :
  ∃ a e, heap (shared demo) !! a = Some e ∧ key e = 1%nat ∧ Flow.id (body e) = 7 ∧
    Flow.state (body e) = Flow.Closed ∧
    (onClose (table (shared demo)) = true → (1%nat, a) ∈ called (shared demo)) ∧
    ∀ b e', heap (shared demo) !! b = Some e' → Flow.id (body e') = 7 → b = a.
Proof.
  apply (Remove_takes_named_flow demo_hash tt demo_opts 1000 demo_table 6 demo_progs demo
    (mkLocal Ready [] [RetOpen 1 0 true; RetOpen 2 1 true; RetRemove 1 7 true;
      RetSweep 1900 [(2, 1)]]%nat)).
  - vm_compute. discriminate.
  - vm_compute. reflexivity.
  - lia.
  - vm_compute. reflexivity.
  - apply (run_sound _ demo_sched). vm_compute. reflexivity.
  - left.
  - do 2 right. left.
Defined.

Lemma only_Touch_refreshes_witness :
  ∃ e', heap (shared demo) !! 1%nat = Some e' ∧ Flow.LastSeen (body e') = 1000.
Proof.
  apply (only_Touch_refreshes demo_hash tt demo_mid demo 1%nat
    (mkEntry 2%nat (Flow.mkFlow 8 Flow.Open 1000) tt)).
  - repeat constructor.
  - apply (run_sound _ (drop 14 demo_sched)). vm_compute. reflexivity.
  - reflexivity.
Defined.

(** [Run]'s tick stays between 10ms and 1s and is a quarter of the timeout in
    between. *)
Lemma run_tick_spec d :
  10000000 <= run_tick d <= 1000000000 ∧
  (40000000 <= d <= 4000000000 → run_tick d = d ÷ 4).
Proof.
  unfold run_tick. destruct (Z.ltb_spec 0 d); [|lia].
  split; [lia|]. intros. rewrite Z.quot_div_nonneg by lia.
  pose proof (Z.div_le_mono 40000000 d 4). pose proof (Z.div_le_mono d 4000000000 4).
  change (40000000 / 4) with 10000000 in *. change (4000000000 / 4) with 1000000000 in *. lia.
Qed.
