(* ===== verification/Stream.v ===== *)
(** Package stream: the Reader ([src/stream/reader.go]).

    The source ([io.Reader]) is a parameter: a call with a slice of [m] bytes
    changes the source's state, writes some bytes to the front of the slice and
    returns a count and an error, any of them. The pool is used through the
    class [BufPool]; [Buf.v]'s pool is an instance of its laws. *)
From S2P Require Import Prelude Buf.

Local Open Scope Z_scope.

(** * The interface to package buf *)

(** [bp_own p own] says that [own] is the set of buffers in use. A choice of
    the [sync.Pool] is an argument of [bp_get]; [None] is a panic. *)
Class BufPool (P : Type) := {
  bp_get : P → Z → option nat → option (P * option nat);
  bp_release : P → nat → option P;
  bp_bytes : P → nat → option (list Z);
  bp_write : P → nat → list Z → P;
  bp_own : P → gset nat → Prop }.

(** Buffers of [own] other than [a] keep their bytes. *)
Definition bytes_kept `{BufPool P} (p p' : P) (own : gset nat) : Prop :=
  ∀ a, a ∈ own → bp_bytes p' a = bp_bytes p a.

Class BufPoolLaws (P : Type) `{BufPool P} := {
  bp_get_law p own n pick : bp_own p own → 0 <= n →
    ∃ p' r, bp_get p n pick = Some (p', r) ∧ bytes_kept p p' own ∧
      match r with
      | None => bp_own p' own
      | Some a => (a ∉ own) ∧ bp_own p' ({[a]} ∪ own) ∧
                  ∃ d, bp_bytes p' a = Some d ∧ Z.of_nat (length d) = n
      end;
  bp_release_law p own a : bp_own p own → a ∈ own →
    ∃ p', bp_release p a = Some p' ∧ bp_own p' (own ∖ {[a]}) ∧ bytes_kept p p' (own ∖ {[a]});
  bp_bytes_law p own a : bp_own p own → a ∈ own → is_Some (bp_bytes p a);
  bp_write_law p own a d d' : bp_own p own → a ∈ own → bp_bytes p a = Some d →
    length d' = length d →
    bp_own (bp_write p a d') own ∧ bp_bytes (bp_write p a d') a = Some d' ∧
    bytes_kept p (bp_write p a d') (own ∖ {[a]}) }.

(** ** The pool of package buf *)

#[global] Instance pool_BufPool (debug : bool) : BufPool Pool := {|
  bp_get := Get debug;
  bp_release p a := Release debug p (Some a);
  bp_bytes := bytes;
  bp_write := copy_into;
  bp_own := owns debug |}.

Lemma bytes_heap p p' a : heap p' !! a = heap p !! a → bytes p' a = bytes p a.
Proof. intros E. unfold bytes. by rewrite E. Qed.

Lemma holds_buf_bytes p a n :
  holds_buf p a n → ∃ b, heap p !! a = Some b ∧ B b = Some n ∧ n <= cap b ∧
    bytes p a = Some (take (Z.to_nat n) (full b)) ∧ Z.of_nat (length (take (Z.to_nat n) (full b))) = n.
Proof.
  intros (b & Hb & HB & Hn & Hc & _). pose proof (Capacity_ge n). exists b.
  split_and!; try done; [lia| |].
  - unfold bytes. rewrite Hb. simpl. by rewrite HB.
  - rewrite length_take. unfold cap in Hc. lia.
Qed.

#[global] Instance pool_BufPoolLaws (debug : bool) :
  @BufPoolLaws Pool (pool_BufPool debug).
Proof.
  split; simpl.
  - intros p own n pick Ho Hn. destruct (Get_spec debug p own n pick Ho Hn) as (p' & r & Hg & Hr).
    exists p', r. split; [done|]. destruct r as [a|]; [|destruct Hr as [-> _]; by split].
    destruct Hr as (Ha & Ho' & Hh & Hne & _). split.
    + intros a' Ha'. apply bytes_heap, Hne. set_solver.
    + split_and!; try done. destruct (holds_buf_bytes _ _ _ Hh) as (b & _ & _ & _ & ? & ?). eauto.
  - intros p own a Ho Ha. destruct (Release_spec debug p own a Ho Ha) as (p' & n & Hr & Ho' & _ & Hne & _).
    exists p'. split_and!; try done. intros a' Ha'. apply bytes_heap, Hne. set_solver.
  - intros p own a Ho Ha. destruct (ow_own _ _ _ Ho a Ha) as (n & Hh).
    destruct (holds_buf_bytes _ _ _ Hh) as (b & _ & _ & _ & ? & ?). eauto.
  - intros p own a d d' Ho Ha Hd Hlen. destruct (ow_own _ _ _ Ho a Ha) as (n & Hh).
    destruct (holds_buf_bytes _ _ _ Hh) as (b & Hb & HB & Hcap & Hd0 & Hl).
    rewrite Hd in Hd0. simplify_eq.
    destruct (owns_write debug p own a d') as [Ho' Hne]; try done.
    { intros b' Hb'. simplify_eq. rewrite Hlen, length_take. lia. }
    split_and!; try done.
    + unfold bytes, copy_into. simpl. rewrite lookup_alter_eq, Hb. simpl. rewrite HB. simpl.
      f_equal. rewrite take_app_length'; [done|]. lia.
    + intros a' Ha'. apply bytes_heap, Hne. set_solver.
Qed.

(** * The Reader *)

Section reader.
Context {P : Type} `{BufPool P} {Src E : Type}.
(** [src.Read(p)] with [len(p) = m]: the bytes written to the front of [p]
    (those that fit), the count and the error returned. *)
Context (src_read : Src → Z → Src * (list Z * Z * option E)).

Inductive error :=
  | ErrTooLarge | ErrNoBuffer | ErrReleased | ErrNegativeCount
  | ErrNoProgress               (* io.ErrNoProgress *)
  | ErrInvalidCount             (* invalid Read count from source *)
  | ErrSrc (e : E).             (* an error of the source *)

Record ReaderOptions := mkReaderOptions { IdleSize : Z; Max : Z }.

(** Where [data] points. *)
Inductive slice_loc := InIdle | InBig (a : nat) | InNil.

Record Reader := mkReader {
  src : Src; idle : list Z; big : option nat; data : slice_loc;
  r : Z; w : Z; last : Z; err : option error; max : Z; done : bool }.

(** The Reader with what it uses; [got] records the bytes the source has
    delivered (ghost, written from what [src.Read] returns and never read),
    [choices] the coming choices of the [sync.Pool]s. *)
Record World := mkWorld { rd : Reader; pool : P; choices : list (option nat); got : list Z }.

Definition len {A : Type} (l : list A) : Z := Z.of_nat (length l).

(** [l[i:j]]; [None] is the panic of an index out of range. *)
Definition slice (l : list Z) (i j : Z) : option (list Z) :=
  if (0 <=? i) && (i <=? j) && (j <=? len l)
  then Some (take (Z.to_nat (j - i)) (drop (Z.to_nat i) l)) else None.

(** [copy(dst, src)]: the new contents of [dst]. *)
Definition copy (dst s : list Z) : list Z :=
  take (length dst) s ++ drop (length s) dst.

Definition NewReader (s : Src) (o : ReaderOptions) : option Reader :=
  let i := if IdleSize o =? 0 then 512 else IdleSize o in
  let m := if Max o =? 0 then Large else Max o in
  if (i <? 0) || (m <? i) then None
  else Some (mkReader s (zeroes i) None InIdle 0 0 0 None m false).

Definition set_rd (x : World) (y : Reader) : World := mkWorld y (pool x) (choices x) (got x).
Definition set_pool (x : World) (p : P) : World := mkWorld (rd x) p (choices x) (got x).

(** The bytes of the slice [data]. *)
Definition get_data (x : World) : option (list Z) :=
  match data (rd x) with
  | InIdle => Some (idle (rd x)) | InBig a => bp_bytes (pool x) a | InNil => Some []
  end.

Definition set_data (x : World) (d : list Z) : World :=
  match data (rd x) with
  | InIdle => let y := rd x in
      set_rd x (mkReader (src y) d (big y) (data y) (r y) (w y) (last y) (err y) (max y) (done y))
  | InBig a => set_pool x (bp_write (pool x) a d)
  | InNil => x
  end.

Definition set_rw (x : World) (i j : Z) : World :=
  let y := rd x in
  set_rd x (mkReader (src y) (idle y) (big y) (data y) i j (last y) (err y) (max y) (done y)).
Definition set_err (x : World) (e : option error) : World :=
  let y := rd x in
  set_rd x (mkReader (src y) (idle y) (big y) (data y) (r y) (w y) (last y) e (max y) (done y)).
Definition set_last (x : World) (n : Z) : World :=
  let y := rd x in
  set_rd x (mkReader (src y) (idle y) (big y) (data y) (r y) (w y) n (err y) (max y) (done y)).
Definition set_src (x : World) (s : Src) : World :=
  let y := rd x in
  set_rd x (mkReader s (idle y) (big y) (data y) (r y) (w y) (last y) (err y) (max y) (done y)).
Definition set_loc (x : World) (b : option nat) (l : slice_loc) : World :=
  let y := rd x in
  set_rd x (mkReader (src y) (idle y) b l (r y) (w y) (last y) (err y) (max y) (done y)).
Definition set_done (x : World) : World :=
  let y := rd x in
  set_rd x (mkReader (src y) (idle y) (big y) (data y) (r y) (w y) (last y) (err y) (max y) true).

(** [r.pool.Get(size)] with the next choice of the [sync.Pool]. *)
Definition pool_Get (x : World) (n : Z) : option (World * option nat) :=
  '(p, b) ← bp_get (pool x) n (default None (head (choices x)));
  Some (mkWorld (rd x) p (tail (choices x)) (got x), b).

(** [b.Release()] of a buffer that may be nil. *)
Definition release_opt (x : World) (b : option nat) : option World :=
  match b with None => Some x | Some a => p ← bp_release (pool x) a; Some (set_pool x p) end.

Definition Buffered (x : World) : option (list Z) :=
  d ← get_data x; slice d (r (rd x)) (w (rd x)).
Definition Len (x : World) : Z := w (rd x) - r (rd x).

Definition grow (x : World) (need : Z) : option (World * option error) :=
  d ← get_data x;
  let size := Z.min (Capacity (Z.max need (len d + 1))) (max (rd x)) in
  if size <=? len d then Some (x, Some ErrTooLarge)
  else
    '(x1, b) ← pool_Get x size;
    match b with
    | None => Some (x1, Some ErrNoBuffer)
    | Some a =>
        seg ← slice d (r (rd x)) (w (rd x));
        bB ← bp_bytes (pool x1) a;
        let x2 := set_pool x1 (bp_write (pool x1) a (copy bB seg)) in
        let x3 := set_rw x2 0 (Z.min (len bB) (len seg)) in
        x4 ← release_opt x3 (big (rd x3));
        Some (set_loc x4 (Some a) (InBig a), None)
    end.

Definition ensure (x : World) (n : Z) : option (World * option error) :=
  if max (rd x) <? n then Some (x, Some ErrTooLarge)
  else
    d ← get_data x;
    if len d <? n then grow x n
    else if (w (rd x) <? len d) && (n <=? len d - r (rd x)) then Some (x, None)
    else if 0 <? r (rd x) then
      seg ← slice d (r (rd x)) (w (rd x));
      let x1 := set_rw (set_data x (copy d seg)) 0 (Z.min (len d) (len seg)) in
      if w (rd x1) <? len d then Some (x1, None) else grow x1 (len d + 1)
    else grow x (len d + 1).

Definition shrink (x : World) : option World :=
  x1 ← release_opt x (big (rd x)); Some (set_loc x1 None InIdle).

Definition maxEmptyReads : nat := 100.

(** What [n, err := src.Read(p)] delivers when the source has written [bs] to
    the front of [p]: the first [n] bytes of [p]. A source that counts more
    than it wrote delivers what [p] held there; an impossible count delivers
    nothing. *)
Definition delivered (p bs : list Z) (n : Z) : list Z :=
  if (0 <=? n) && (n <=? len p) then take (Z.to_nat n) (bs ++ drop (length bs) p) else [].

Definition deliver (x : World) (new : list Z) : World :=
  mkWorld (rd x) (pool x) (choices x) (got x ++ new).

(** The loop of [readOnce]: [k] more tries are allowed after this one.
    [None] in the result is [io.ErrNoProgress]. *)
Fixpoint read_loop (k : nat) (x : World) : option (World * option (Z * option E)) :=
  d ← get_data x;
  tl ← slice d (w (rd x)) (len d);
  let '(s, (bs, n, e)) := src_read (src (rd x)) (len tl) in
  let x1 := deliver (set_src (set_data x (take (Z.to_nat (w (rd x))) d ++ copy tl bs)) s)
              (delivered tl bs n) in
  if negb (n =? 0) || bool_decide (is_Some e) then Some (x1, Some (n, e))
  else match k with
       | O => Some (x1, None)
       | S k => read_loop k x1
       end.

Definition readOnce (x : World) : option (World * option error) :=
  match err (rd x) with
  | Some e => Some (x, Some e)
  | None =>
      '(x1, res) ← read_loop (maxEmptyReads - 1) x;
      match res with
      | None => Some (x1, Some ErrNoProgress)
      | Some (n, e) =>
          d ← get_data x1;
          if (n <? 0) || (len d - w (rd x1) <? n)
          then Some (set_err x1 (Some ErrInvalidCount), Some ErrInvalidCount)
          else
            let x2 := set_last (set_rw x1 (r (rd x1)) (w (rd x1) + n)) n in
            match e with
            | Some e =>
                Some (set_err x2 (Some (ErrSrc e)), if 0 <? n then None else Some (ErrSrc e))
            | None => Some (x2, None)
            end
      end
  end.

(** The loop of [Peek]; [None] when the fuel runs out. *)
Fixpoint peek_loop (fuel : nat) (x : World) (n : Z) : option (World * (list Z * option error)) :=
  match fuel with
  | O => None
  | S f =>
      if Len x <? n then
        '(x1, e1) ← ensure x n;
        match e1 with
        | Some e => b ← Buffered x1; Some (x1, (b, Some e))
        | None =>
            '(x2, e2) ← readOnce x1;
            match e2 with
            | Some e =>
                if n <=? Len x2
                then d ← get_data x2; b ← slice d (r (rd x2)) (r (rd x2) + n); Some (x2, (b, None))
                else b ← Buffered x2; Some (x2, (b, Some e))
            | None => peek_loop f x2 n
            end
        end
      else d ← get_data x; b ← slice d (r (rd x)) (r (rd x) + n); Some (x, (b, None))
  end.

(** Each turn of the loop that goes on has read at least one byte. *)
Definition Peek (x : World) (n : Z) : option (World * (list Z * option error)) :=
  if done (rd x) then Some (x, ([], Some ErrReleased))
  else if n <? 0 then Some (x, ([], Some ErrNegativeCount))
  else if max (rd x) <? n then b ← Buffered x; Some (x, (b, Some ErrTooLarge))
  else peek_loop (S (Z.to_nat n)) x n.

Definition Fill (x : World) : option (World * option error) :=
  if done (rd x) then Some (x, Some ErrReleased)
  else
    '(x1, e) ← ensure x (Len x + 1);
    match e with Some e => Some (x1, Some e) | None => readOnce x1 end.

Definition Discard (x : World) (n : Z) : option (World * Z) :=
  if n <=? 0 then Some (x, 0)
  else
    let n := if Len x <? n then Len x else n in
    let x1 := set_rw x (r (rd x) + n) (w (rd x)) in
    if r (rd x1) =? w (rd x1) then
      let x2 := set_rw x1 0 0 in
      if bool_decide (is_Some (big (rd x2))) && (last (rd x2) <=? len (idle (rd x2)))
      then x3 ← shrink x2; Some (x3, n)
      else Some (x2, n)
    else Some (x1, n).

(** The bytes put into [p], whose length is [lp], and the error. *)
Definition Read (x : World) (lp : Z) : option (World * (list Z * option error)) :=
  if done (rd x) then Some (x, ([], Some ErrReleased))
  else if lp =? 0 then Some (x, ([], None))
  else
    '(x1, e) ← (if Len x =? 0 then readOnce x else Some (x, None));
    match e with
    | Some e =>
        if Len x1 =? 0 then Some (x1, ([], Some e))
        else b ← Buffered x1; '(x2, _) ← Discard x1 (Z.min lp (len b));
             Some (x2, (take (Z.to_nat lp) b, None))
    | None =>
        b ← Buffered x1; '(x2, _) ← Discard x1 (Z.min lp (len b));
        Some (x2, (take (Z.to_nat lp) b, None))
    end.

(** [Release] of the Reader. *)
Definition Release (x : World) : option World :=
  if done (rd x) then Some x
  else
    x1 ← release_opt (set_done x) (big (rd x));
    Some (set_rw (set_loc x1 None InNil) 0 0).
End reader.
