(* ===== verification/StreamThms.v ===== *)
(** The Reader's contract, proved against the laws of [BufPool]. *)
From S2P Require Import Prelude Buf Stream.

Local Open Scope Z_scope.

(** * Slices *)

Section slices.
Implicit Types l s : list Z.

Lemma len_nonneg {A} (l : list A) : 0 <= len l.
Proof. unfold len. lia. Qed.

Lemma slice_Some l i j :
  0 <= i <= j → j <= len l →
  slice l i j = Some (take (Z.to_nat (j - i)) (drop (Z.to_nat i) l)).
Proof.
  intros. unfold slice. destruct (Z.leb_spec 0 i), (Z.leb_spec i j), (Z.leb_spec j (len l)); simpl; done || lia.
Qed.

(** The buffered part of a data slice. *)
Definition part l (i j : Z) : list Z := take (Z.to_nat (j - i)) (drop (Z.to_nat i) l).

Lemma len_part l i j : 0 <= i <= j → j <= len l → len (part l i j) = j - i.
Proof. unfold part, len. intros. rewrite length_take, length_drop. lia. Qed.

Lemma part_all l i j : 0 <= i <= j → j <= len l → slice l i j = Some (part l i j).
Proof. intros. by apply slice_Some. Qed.

Lemma part_drop l i j n : 0 <= n → 0 <= i → i + n <= j → part l (i + n) j = drop (Z.to_nat n) (part l i j).
Proof.
  intros. unfold part. rewrite skipn_firstn_comm, drop_drop. f_equal; [|f_equal]; lia.
Qed.

Lemma part_take l i j n : 0 <= i → 0 <= n → i + n <= j → part l i (i + n) = take (Z.to_nat n) (part l i j).
Proof. intros. unfold part. rewrite take_take. f_equal. lia. Qed.

(** The part is extended by what follows it. *)
Lemma part_app l i j n :
  0 <= i <= j → 0 <= n → part l i (j + n) = part l i j ++ part l j (j + n).
Proof.
  intros. unfold part.
  replace (Z.to_nat (j + n - i)) with (Z.to_nat (j - i) + Z.to_nat (j + n - j))%nat by lia.
  rewrite <- take_take_drop, drop_drop. do 3 f_equal. lia.
Qed.

Lemma length_copy d s : length (copy d s) = length d.
Proof. unfold copy. rewrite length_app, length_take, length_drop. lia. Qed.

Lemma len_copy d s : len (copy d s) = len d.
Proof. unfold len. by rewrite length_copy. Qed.

(** Moving the buffered part to the front of a slice it fits in. *)
Lemma part_copy d s : len s <= len d → part (copy d s) 0 (len s) = s.
Proof.
  unfold part, copy, len. intros. rewrite Z.sub_0_r, drop_0, Nat2Z.id, take_app_length';
    [apply take_ge; lia|rewrite length_take; lia].
Qed.

Lemma part_nil l i : part l i i = [].
Proof. unfold part. by rewrite Z.sub_diag. Qed.

(** Bytes before [j] are not changed by a write behind them. *)
Lemma part_write l t i j :
  0 <= i <= j → j <= len l → part (take (Z.to_nat j) l ++ t) i j = part l i j.
Proof.
  unfold part, len. intros. rewrite drop_app_le by (rewrite length_take; lia).
  rewrite take_app_le by (rewrite length_drop, length_take; lia).
  rewrite skipn_firstn_comm. rewrite take_take. f_equal. lia.
Qed.

(** The source's bytes, written behind [w], are the next [n] there. *)
Lemma part_delivered l bs w n :
  0 <= w <= len l → 0 <= n <= len l - w →
  part (take (Z.to_nat w) l ++ copy (part l w (len l)) bs) w (w + n) =
  delivered (part l w (len l)) bs n.
Proof.
  intros Hw Hn. unfold delivered. rewrite len_part by lia.
  destruct (Z.leb_spec 0 n), (Z.leb_spec n (len l - w)); try lia. simpl.
  pose proof (len_part l w (len l)) as Hp. set (p := part l w (len l)) in *.
  unfold part, copy, len in *. rewrite drop_app_length' by (rewrite length_take; lia).
  replace (Z.to_nat (w + n - w)) with (Z.to_nat n) by lia.
  destruct (decide (length bs <= length p)%nat) as [Hle|Hgt].
  - by rewrite (take_ge bs) by lia.
  - rewrite !(drop_ge p) by lia. rewrite !app_nil_r, take_take. f_equal. lia.
Qed.

Lemma len_delivered p bs n : 0 <= n <= len p → len (delivered p bs n) = n.
Proof.
  intros Hn. unfold delivered. destruct (Z.leb_spec 0 n), (Z.leb_spec n (len p)); try lia. simpl.
  unfold len in *. rewrite length_take, length_app, length_drop. lia.
Qed.

Lemma delivered_zero p bs : delivered p bs 0 = [].
Proof. unfold delivered. by case_match. Qed.

Lemma delivered_invalid p bs n : n < 0 ∨ len p < n → delivered p bs n = [].
Proof.
  intros Hn. unfold delivered. destruct (Z.leb_spec 0 n), (Z.leb_spec n (len p)); done || lia.
Qed.
End slices.

Section reader.
Context {P : Type} `{HL : BufPoolLaws P} {Src E : Type}.
Context (src_read : Src → Z → Src * (list Z * Z * option E)).

#[local] Set Default Proof Using "Type HL".
Implicit Types (x y : World (P:=P) (Src:=Src) (E:=E)) (O : gset nat).

(** * The invariant of a Reader in use *)

Definition big_set x : gset nat := match big (rd x) with Some a => {[a]} | None => ∅ end.

(** [O] are the buffers of others, [d] the bytes of the data slice. *)
Record live x O (d : list Z) : Prop := {
  lv_done : done (rd x) = false;
  lv_data : get_data x = Some d;
  lv_loc : (big (rd x) = None ∧ data (rd x) = InIdle) ∨
           (∃ a, big (rd x) = Some a ∧ data (rd x) = InBig a ∧ a ∉ O);
  lv_own : bp_own (pool x) (big_set x ∪ O);
  lv_rw : 0 <= r (rd x) <= w (rd x);
  lv_w : w (rd x) <= len d;
  lv_size : 0 < len d <= max (rd x);
  lv_empty : r (rd x) = w (rd x) → r (rd x) = 0;
  lv_idle : 0 < len (idle (rd x)) <= max (rd x) }.

Definition buffered x (d : list Z) : list Z := part d (r (rd x)) (w (rd x)).

(** What no operation changes: the limits and the bytes of others. *)
Record frame x y O : Prop := {
  fr_max : max (rd y) = max (rd x);
  fr_idle : len (idle (rd y)) = len (idle (rd x));
  fr_kept : bytes_kept (pool x) (pool y) O }.

Lemma frame_refl x O : frame x x O.
Proof. done. Qed.

Lemma frame_trans x y z O : frame x y O → frame y z O → frame x z O.
Proof.
  intros [A1 A2 A3] [B1 B2 B3]. split; try congruence. intros a Ha. rewrite B3, A3; done.
Qed.

(** Only where the data is kept changes. *)
Definition moved x y : Prop :=
  src (rd y) = src (rd x) ∧ last (rd y) = last (rd x) ∧ err (rd y) = err (rd x) ∧ got y = got x.

Lemma moved_trans x y z : moved x y → moved y z → moved x z.
Proof. unfold moved. intuition congruence. Qed.

Lemma live_Buffered x O d : live x O d → Buffered x = Some (buffered x d).
Proof.
  intros Hl. unfold Buffered. rewrite (lv_data _ _ _ Hl). simpl. by apply part_all; apply Hl.
Qed.

Lemma len_buffered x O d : live x O d → len (buffered x d) = Len x.
Proof. intros Hl. unfold buffered, Len. apply len_part; apply Hl. Qed.

(** Writing to the data slice. *)
Lemma set_data_live x O d d' :
  live x O d → length d' = length d →
  live (set_data x d') O d' ∧ frame x (set_data x d') O ∧ moved x (set_data x d') ∧
  r (rd (set_data x d')) = r (rd x) ∧ w (rd (set_data x d')) = w (rd x).
Proof.
  intros [Hd Hdata Hloc Hown Hrw Hw Hsz He Hi] Hlen.
  assert (len d' = len d) as Hl by (unfold len; lia).
  unfold get_data, set_data in *. destruct Hloc as [[Hb Hloc]|(a & Hb & Hloc & Ha)].
  - rewrite Hloc in *. simplify_eq. split_and!; try done.
    split; simpl; rewrite ?Hloc, ?Hl; try done. by left.
  - rewrite Hloc in *. unfold big_set in Hown. rewrite Hb in Hown.
    destruct (bp_write_law (pool x) _ a d d' Hown) as (Ho' & Hd' & Hk); [set_solver|done|done|].
    split_and!; try done.
    + split; simpl; rewrite ?Hl; try done.
      * unfold get_data. simpl. by rewrite Hloc.
      * right. by exists a.
      * unfold big_set. simpl. by rewrite Hb.
    + split; [done..|]. intros b Hbin. apply Hk. set_solver.
Qed.

(** The old buffer goes back after its bytes have been copied. *)
Lemma release_old x O (a : nat) :
  bp_own (pool x) ({[a]} ∪ (big_set x ∪ O)) → (a ∉ big_set x ∪ O) →
  (∀ b, big (rd x) = Some b → b ∉ O) →
  ∃ p, release_opt x (big (rd x)) = Some (set_pool x p) ∧ bp_own p ({[a]} ∪ O) ∧
    bytes_kept (pool x) p ({[a]} ∪ O).
Proof.
  intros Hown Ha Hb. unfold release_opt, big_set in *. destruct (big (rd x)) as [b|] eqn:Eb.
  - specialize (Hb b eq_refl).
    destruct (bp_release_law (pool x) _ b Hown) as (p & -> & Ho & Hk); [set_solver|].
    assert (({[a]} ∪ ({[b]} ∪ O)) ∖ {[b]} = {[a]} ∪ O) as Heq by set_solver.
    rewrite Heq in *. by exists p.
  - exists (pool x). rewrite (left_id_L ∅ (∪)) in Hown. split_and!; try done. by destruct x.
Qed.

(** Growing: the buffered bytes move to a larger buffer, the old one is
    released; without a buffer nothing changes. *)
Lemma grow_spec x O d need :
  live x O d → need <= max (rd x) → 0 <= need →
  ∃ y e d', grow x need = Some (y, e) ∧ live y O d' ∧ frame x y O ∧ moved x y ∧
    buffered y d' = buffered x d ∧ Len y = Len x ∧
    (e = None → need <= len d' ∧ len d < len d' ∧ r (rd y) = 0) ∧
    (e = None ∨ (e = Some ErrTooLarge ∧ max (rd x) <= len d) ∨ e = Some ErrNoBuffer).
Proof.
  intros Hl Hneed H0. pose proof Hl as [Hd Hdata Hloc Hown Hrw Hw Hsz He Hi].
  unfold grow. rewrite Hdata. simpl.
  pose proof (Capacity_ge (Z.max need (len d + 1))) as Hcap.
  set (size := Z.min _ _). destruct (Z.leb_spec size (len d)) as [Hle|Hgt].
  { exists x, (Some ErrTooLarge), d. split_and!; try done. right. left. split; [done|lia]. }
  destruct (bp_get_law (pool x) _ size (default None (head (choices x))) Hown)
    as (p & b & Hg & Hk & Hb); [lia|].
  unfold pool_Get. rewrite Hg. simpl. destruct b as [a|].
  2: { eexists _, _, d. split; [done|].
       assert (get_data (mkWorld (rd x) p (tail (choices x)) (got x)) = Some d) as Hdata'.
       { unfold get_data in *. simpl. destruct Hloc as [[_ E1]|(a & Hb' & Hl' & _)]; [by rewrite E1 in *|].
         rewrite Hl' in *. rewrite <- Hdata. apply Hk. unfold big_set. rewrite Hb'. set_solver. }
       split_and!; try done; [|auto].
       split; try done. intros c Hc. apply Hk. set_solver. }
  destruct Hb as (Ha & Hown1 & bB & HbB & HlenB). change (Z.of_nat (length bB)) with (len bB) in HlenB.
  rewrite part_all by done. fold (buffered x d). simpl. rewrite HbB. simpl.
  pose proof (len_buffered x O d Hl) as Hlb. unfold Len in Hlb.
  set (seg := buffered x d) in *.
  destruct (bp_write_law p _ a bB (copy bB seg) Hown1) as (Hown2 & Hb2 & Hk2);
    [set_solver|done|apply length_copy|].
  set (x3 := set_rw _ _ _).
  destruct (release_old x3 O a) as (p4 & Hr4 & Hown4 & Hk4); [done|done| |].
  { intros b Hbb. destruct Hloc as [[E1 _]|(b' & E1 & _ & ?)]; simpl in Hbb; congruence. }
  change (big (rd x)) with (big (rd x3)). rewrite Hr4. simpl.
  assert (bp_bytes p4 a = Some (copy bB seg)) as Hb4 by (rewrite Hk4; [done|set_solver]).
  eexists _, None, (copy bB seg). split; [done|].
  assert (Z.min (len bB) (len seg) = len seg) as Emin by lia.
  split_and!; try done.
  - split; simpl; rewrite ?Emin, ?len_copy; try done; try lia. right. exists a.
    split_and!; [done..|]. set_solver.
  - split; [done..|]. simpl. intros c Hc. rewrite Hk4 by set_solver. simpl.
    rewrite Hk2 by set_solver. apply Hk. set_solver.
  - unfold buffered. simpl. rewrite Emin. apply part_copy. lia.
  - unfold Len. simpl. lia.
  - intros _. rewrite len_copy. simpl. lia.
  - by left.
Qed.

(** Moving the buffered part to the front. *)
Lemma compact_spec x O d :
  live x O d →
  let y := set_rw (set_data x (copy d (buffered x d))) 0 (Z.min (len d) (len (buffered x d))) in
  live y O (copy d (buffered x d)) ∧ frame x y O ∧ moved x y ∧
  buffered y (copy d (buffered x d)) = buffered x d ∧ Len y = Len x ∧
  w (rd y) = Len x ∧ r (rd y) = 0.
Proof.
  intros Hl y. pose proof (len_buffered x O d Hl) as Hlb.
  pose proof (lv_rw _ _ _ Hl). pose proof (lv_w _ _ _ Hl). unfold Len in *.
  assert (Z.min (len d) (len (buffered x d)) = len (buffered x d)) as Emin by lia.
  destruct (set_data_live x O d (copy d (buffered x d))) as (Hy & Hf & Hm & _ & _);
    [done|apply length_copy|]. destruct Hy as [Hd Hdata Hloc Hown _ _ Hsz _ Hi].
  rewrite len_copy in Hsz. split_and!.
  - split; simpl; rewrite ?Emin, ?len_copy; try done; lia.
  - destruct Hf. by split.
  - exact Hm.
  - unfold buffered at 1. simpl. rewrite Emin. apply part_copy. lia.
  - unfold y. simpl. lia.
  - unfold y. simpl. lia.
  - done.
Qed.

Lemma ensure_spec x O d n :
  live x O d → 0 <= n → Len x < n →
  ∃ y e d', ensure x n = Some (y, e) ∧ live y O d' ∧ frame x y O ∧ moved x y ∧
    buffered y d' = buffered x d ∧ Len y = Len x ∧
    (e = None → r (rd y) + n <= len d' ∧ w (rd y) < len d') ∧
    (e = None ∨ (e = Some ErrTooLarge ∧ max (rd x) < n) ∨ e = Some ErrNoBuffer).
Proof.
  intros Hl H0 Hn. pose proof Hl as [Hd Hdata Hloc Hown Hrw Hw Hsz He Hi]. unfold ensure.
  destruct (Z.ltb_spec (max (rd x)) n).
  { exists x, (Some ErrTooLarge), d. split_and!; try done. auto. }
  rewrite Hdata. simpl. destruct (Z.ltb_spec (len d) n).
  { destruct (grow_spec x O d n) as (y & e & d' & Hg & Hy & Hf & Hm & Hb & HL' & He' & Hc); [done..|].
    exists y, e, d'. split_and!; try done.
    - intros Ee. destruct (He' Ee) as (? & ? & Er). unfold Len in *. lia.
    - destruct Hc as [?|[[? ?]|?]]; [by left|lia|by right; right]. }
  destruct (Z.ltb_spec (w (rd x)) (len d)) as [Hwl|], (Z.leb_spec n (len d - r (rd x))); simpl;
    try (exists x, None, d; split_and!; try done; [lia|by left]).
  all: destruct (Z.ltb_spec 0 (r (rd x))); [|unfold Len in *; lia].
  all: rewrite part_all by done; simpl; fold (buffered x d).
  all: destruct (compact_spec x O d Hl) as (Hy & Hf & Hm & Hb & HL' & Hwy & Hry).
  all: pose proof (len_buffered x O d Hl); rewrite Z.min_r by lia.
  all: destruct (Z.ltb_spec (len (buffered x d)) (len d)); [|lia].
  all: rewrite Z.min_r in * by lia; eexists _, None, _; split; [done|]; split_and!; try done.
  all: try (intros _; rewrite len_copy; simpl in *; lia). all: by left.
Qed.

(** A read of the source puts what it delivers behind the buffered bytes. *)
Lemma source_read x O d s bs n :
  live x O d →
  let tl := part d (w (rd x)) (len d) in
  let d1 := take (Z.to_nat (w (rd x))) d ++ copy tl bs in
  let x1 := deliver (set_src (set_data x d1) s) (delivered tl bs n) in
  live x1 O d1 ∧ frame x x1 O ∧ got x1 = got x ++ delivered tl bs n ∧
  err (rd x1) = err (rd x) ∧ r (rd x1) = r (rd x) ∧ w (rd x1) = w (rd x) ∧
  len d1 = len d ∧ buffered x1 d1 = buffered x d ∧
  (0 <= n <= len d - w (rd x) →
   part d1 (w (rd x)) (w (rd x) + n) = delivered tl bs n) ∧
  (n < 0 ∨ len d - w (rd x) < n → delivered tl bs n = []).
Proof.
  intros Hl tl d1 x1. pose proof Hl as [Hd Hdata Hloc Hown Hrw Hw Hsz He Hi].
  assert (length d1 = length d) as Hld.
  { unfold d1. rewrite length_app, length_take, length_copy.
    pose proof (len_part d (w (rd x)) (len d)) as HH. fold tl in HH. unfold len in *. lia. }
  destruct (set_data_live x O d d1) as (Hy & Hf & (Hm1 & Hm2 & Hm3 & Hm4) & Hr' & Hw'); [done..|].
  split_and!.
  - destruct Hy. by split.
  - destruct Hf. by split.
  - simpl. by rewrite Hm4.
  - simpl. done.
  - simpl. done.
  - simpl. done.
  - unfold len. by rewrite Hld.
  - unfold buffered. simpl. rewrite Hr', Hw'. by apply part_write.
  - intros Hn. apply part_delivered; lia.
  - intros Hn. apply delivered_invalid. unfold tl. rewrite len_part by lia. done.
Qed.

(** The source is called until it returns something. What it delivered is
    what lies behind the buffered bytes. *)
Lemma read_loop_spec k x O d :
  live x O d →
  ∃ y res d' new, read_loop src_read k x = Some (y, res) ∧ live y O d' ∧ frame x y O ∧
    got y = got x ++ new ∧ err (rd y) = err (rd x) ∧ r (rd y) = r (rd x) ∧ w (rd y) = w (rd x) ∧
    len d' = len d ∧ buffered y d' = buffered x d ∧
    match res with
    | None => new = []
    | Some (n, e) =>
        (n ≠ 0 ∨ e ≠ None) ∧
        (0 <= n <= len d' - w (rd y) → part d' (w (rd y)) (w (rd y) + n) = new) ∧
        (n < 0 ∨ len d' - w (rd y) < n → new = [])
    end.
Proof.
  revert x d. induction k as [|k IH]; intros x d Hl;
    pose proof (lv_data _ _ _ Hl) as Hdata; pose proof (lv_w _ _ _ Hl); pose proof (lv_rw _ _ _ Hl);
    simpl; rewrite Hdata; simpl; rewrite part_all by lia; simpl;
    destruct (src_read _ _) as [s [[bs n] e]];
    destruct (source_read x O d s bs n Hl) as (Hx1 & Hf1 & Hg & He & Hr & Hw & Hld & Hb & Hp & Hi);
    set (d1 := take _ d ++ _) in *; set (x1 := deliver _ _) in *;
    destruct (negb (n =? 0) || bool_decide (is_Some e)) eqn:Ec.
  1, 3: exists x1, (Some (n, e)), d1, (delivered (part d (w (rd x)) (len d)) bs n);
    split_and!; try done; rewrite ?Hld, ?Hw; try done;
    apply orb_true_iff in Ec as [Ec|Ec];
      [left; by apply negb_true_iff, Z.eqb_neq in Ec|
       right; apply bool_decide_eq_true in Ec as [? ->]; done].
  all: apply orb_false_iff in Ec as [Ec%negb_false_iff%Z.eqb_eq _]; subst n;
    rewrite delivered_zero in Hg.
  - by exists x1, None, d1, [].
  - destruct (IH x1 d1 Hx1) as (y & res & d' & new & Hy' & ? & ? & Hg2 & Hr2 & E1 & E2 & E3 & E4 & ?).
    exists y, res, d', new. rewrite app_nil_r in Hg.
    split_and!; [done|done|by eapply frame_trans|congruence..|done].
Qed.

(** One read: the buffered bytes are extended by the bytes delivered, at
    least one of them unless an error is returned. *)
Lemma readOnce_spec x O d :
  live x O d →
  ∃ y e d' new, readOnce src_read x = Some (y, e) ∧ live y O d' ∧ frame x y O ∧
    got y = got x ++ new ∧ buffered y d' = buffered x d ++ new ∧
    Len y = Len x + len new ∧ (e = None ↔ new ≠ []).
Proof.
  intros Hl. unfold readOnce. destruct (err (rd x)) as [e|] eqn:Eerr.
  { exists x, (Some e), d, []. rewrite !app_nil_r. split_and!; try done. unfold len; simpl; lia. }
  destruct (read_loop_spec (maxEmptyReads - 1) x O d Hl)
    as (x1 & res & d1 & new & -> & Hx1 & Hf & Hg & _ & Er & Ew & Hld & Hb & Hres).
  pose proof Hx1 as [Hd Hdata Hloc Hown Hrw Hw Hsz He Hi]. cbn [mbind option_bind].
  assert (Len x1 = Len x) as HL1 by (unfold Len; lia).
  destruct res as [[n e]|].
  2: { exists x1, (Some ErrNoProgress), d1, []. rewrite Hres, app_nil_r in Hg. rewrite !app_nil_r.
       split_and!; try done. unfold len; simpl; lia. }
  destruct Hres as (Hne & Hpart & Hinv). rewrite Hdata. cbn [mbind option_bind].
  destruct (decide (n < 0 ∨ len d1 - w (rd x1) < n)) as [Hbad|Hok].
  { replace ((n <? 0) || (len d1 - w (rd x1) <? n)) with true
      by (symmetry; rewrite orb_true_iff, !Z.ltb_lt; done).
    rewrite (Hinv Hbad) in Hg. rewrite app_nil_r in Hg.
    eexists _, (Some ErrInvalidCount), d1, []; split; [done|]; rewrite !app_nil_r;
    split_and!; [by destruct Hx1; split|by destruct Hf; split|done|done| |done];
    unfold Len, len in *; simpl; lia. }
  replace ((n <? 0) || (len d1 - w (rd x1) <? n)) with false
    by (symmetry; rewrite orb_false_iff, !Z.ltb_ge; lia).
  assert (0 <= n <= len d1 - w (rd x1)) as Hn by lia. specialize (Hpart Hn). clear Hinv Hok.
  set (x2 := set_last _ n).
  assert (len new = n) as Hlen by (rewrite <- Hpart, len_part; lia).
  assert (live x2 O d1) as Hx2 by (split; simpl; try done; lia).
  assert (frame x x2 O) as Hf2 by (destruct Hf; by split).
  assert (buffered x2 d1 = buffered x d ++ new) as Hb2.
  { rewrite <- Hb, <- Hpart. unfold buffered. simpl. apply part_app; lia. }
  assert (Len x2 = Len x + len new) as HL2 by (unfold Len in *; simpl; lia).
  assert (new ≠ [] ↔ 0 < n) as Hnew.
  { rewrite <- Hlen. destruct new; unfold len; simpl; split; intros; done || lia. }
  destruct e as [e|].
  - eexists _, _, d1, new. split; [done|].
    split_and!; [by destruct Hx2; split|by destruct Hf2; split|done..|].
    rewrite Hnew. destruct (Z.ltb_spec 0 n); split; done || lia.
  - exists x2, None, d1, new. split_and!; try done. rewrite Hnew. split; [|done].
    intros _. destruct Hne; [lia|done].
Qed.

(** The next [n] buffered bytes. *)
Lemma next_bytes {A : Type} x O d n (k : list Z → option A) :
  live x O d → 0 <= n <= Len x →
  (d' ← get_data x; b ← slice d' (r (rd x)) (r (rd x) + n); k b) =
  k (take (Z.to_nat n) (buffered x d)).
Proof.
  intros Hl Hn. rewrite (lv_data _ _ _ Hl). cbn [mbind option_bind].
  pose proof (lv_rw _ _ _ Hl). pose proof (lv_w _ _ _ Hl). unfold Len in Hn.
  rewrite part_all by lia. cbn [mbind option_bind]. f_equal. unfold buffered. apply part_take; lia.
Qed.

Lemma len_take_buffered x O d n :
  live x O d → 0 <= n <= Len x → len (take (Z.to_nat n) (buffered x d)) = n.
Proof.
  intros Hl Hn. pose proof (len_buffered x O d Hl). unfold len in *. rewrite length_take. lia.
Qed.

(** What a call of Peek for [n] bytes has done. *)
Definition peeked x O d n y (e : option (error (E:=E))) d' (new bs : list Z) : Prop :=
  live y O d' ∧ frame x y O ∧ got y = got x ++ new ∧ buffered y d' = buffered x d ++ new ∧
  (e = None → bs = take (Z.to_nat n) (buffered y d') ∧ len bs = n) ∧
  (e ≠ None → bs = buffered y d' ∧ len bs < n).

Lemma peeked_enough x O d n :
  live x O d → 0 <= n <= Len x → peeked x O d n x None d [] (take (Z.to_nat n) (buffered x d)).
Proof.
  intros Hl Hn. split_and!; try done; rewrite ?app_nil_r; try done.
  intros _. split; [done|]. by eapply len_take_buffered.
Qed.

Lemma peeked_error x O d n e :
  live x O d → Len x < n → peeked x O d n x (Some e) d [] (buffered x d).
Proof.
  intros Hl Hn. split_and!; try done; rewrite ?app_nil_r; try done.
  intros _. split; [done|]. by rewrite (len_buffered x O d).
Qed.

(** Peek after some bytes have been read. *)
Lemma peeked_after x O d n y d1 new y' e d' new' bs :
  frame x y O → got y = got x ++ new → buffered y d1 = buffered x d ++ new →
  peeked y O d1 n y' e d' new' bs → peeked x O d n y' e d' (new ++ new') bs.
Proof.
  intros Hf Hg Hb (? & Hf' & Hg' & Hb' & ? & ?). split_and!; try done.
  - by eapply frame_trans.
  - by rewrite Hg', Hg, (assoc_L (++)).
  - by rewrite Hb', Hb, (assoc_L (++)).
Qed.

(** The loop of Peek ends within [n + 1] turns. *)
Lemma peek_loop_spec fuel x O d n :
  live x O d → 0 <= n <= max (rd x) → Z.max 0 (n - Len x) < Z.of_nat fuel →
  ∃ y e d' new bs, peek_loop src_read fuel x n = Some (y, (bs, e)) ∧
    peeked x O d n y e d' new bs.
Proof.
  revert x d. induction fuel as [|f IH]; intros x d Hl Hn Hf; [lia|]. simpl.
  destruct (Z.ltb_spec (Len x) n) as [Hlt|Hge].
  2: { eexists x, None, d, [], _. rewrite (next_bytes x O d n) by (done || lia).
       split; [done|]. apply peeked_enough; [done|lia]. }
  destruct (ensure_spec x O d n Hl) as (x1 & e1 & d1 & -> & Hx1 & Hf1 & Hm1 & Hb1 & HL1 & He1 & _);
    [lia..|]. cbn [mbind option_bind].
  assert (got x1 = got x ++ []) as Hg1 by (rewrite app_nil_r; apply Hm1).
  assert (buffered x1 d1 = buffered x d ++ []) as Hb1' by (by rewrite app_nil_r).
  destruct e1 as [e1|].
  { rewrite (live_Buffered x1 O d1) by done. eexists x1, (Some e1), d1, _, _. split; [done|].
    eapply peeked_after; [done..|]. apply peeked_error; [done|lia]. }
  destruct (readOnce_spec x1 O d1 Hx1) as (x2 & e2 & d2 & new & -> & Hx2 & Hf2 & Hg2 & Hb2 & HL2 & He2).
  cbn [mbind option_bind].
  assert (frame x x2 O) as Hf12 by (by eapply frame_trans).
  assert (got x2 = got x ++ new) as Hg12 by (by rewrite Hg2, Hg1, app_nil_r).
  assert (buffered x2 d2 = buffered x d ++ new) as Hb12 by (by rewrite Hb2, Hb1).
  destruct e2 as [e2|].
  - assert (new = []) as -> by (destruct new; [done|]; exfalso; assert (Some e2 = None) by (by apply He2); done).
    unfold len in HL2. simpl in HL2. destruct (Z.leb_spec n (Len x2)); [lia|].
    rewrite (live_Buffered x2 O d2) by done. eexists x2, (Some e2), d2, _, _. split; [done|].
    eapply peeked_after; [done..|]. apply peeked_error; [done|lia].
  - assert (0 < len new) by (destruct new; [by destruct (proj1 He2 eq_refl)|unfold len; simpl; lia]).
    destruct (IH x2 d2 Hx2) as (y & e & d' & new' & bs & Hp & Hpk);
      [by rewrite (fr_max _ _ _ Hf12)|lia|].
    exists y, e, d', (new ++ new'), bs. split; [done|]. by eapply peeked_after.
Qed.

Lemma Fill_spec x O d :
  live x O d →
  ∃ y e d' new, Fill src_read x = Some (y, e) ∧ live y O d' ∧ frame x y O ∧
    got y = got x ++ new ∧ buffered y d' = buffered x d ++ new ∧ (e = None ↔ new ≠ []).
Proof.
  intros Hl. unfold Fill. rewrite (lv_done _ _ _ Hl).
  pose proof (lv_rw _ _ _ Hl) as Hrw.
  destruct (ensure_spec x O d (Len x + 1) Hl) as (x1 & e1 & d1 & -> & Hx1 & Hf1 & Hm1 & Hb1 & _);
    [unfold Len; lia..|]. cbn [mbind option_bind].
  destruct Hm1 as (_ & _ & _ & Hg1). destruct e1 as [e1|].
  { exists x1, (Some e1), d1, []. rewrite !app_nil_r. by split_and!. }
  destruct (readOnce_spec x1 O d1 Hx1) as (x2 & e2 & d2 & new & -> & Hx2 & Hf2 & Hg2 & Hb2 & _ & He2).
  exists x2, e2, d2, new. split_and!; try done.
  - by eapply frame_trans.
  - by rewrite Hg2, Hg1.
  - by rewrite Hb2, Hb1.
Qed.

(** Releasing the borrowed buffer, if there is one. *)
Lemma release_big x O d :
  live x O d →
  ∃ p, release_opt x (big (rd x)) = Some (set_pool x p) ∧ bp_own p O ∧ bytes_kept (pool x) p O.
Proof.
  intros [_ _ Hloc Hown _ _ _ _ _]. unfold release_opt, big_set in *.
  destruct Hloc as [[Hb _]|(a & Hb & _ & Ha)]; rewrite Hb in *.
  - exists (pool x). rewrite (left_id_L ∅ (∪)) in Hown. split_and!; try done. by destruct x.
  - destruct (bp_release_law (pool x) _ a Hown) as (p & -> & Ho & Hk); [set_solver|].
    assert (({[a]} ∪ O) ∖ {[a]} = O) as Heq by set_solver. rewrite Heq in *. by exists p.
Qed.

Definition discarded x (n : Z) : Z := Z.min (Z.max n 0) (Len x).

Lemma Discard_spec x O d n :
  live x O d →
  ∃ y d', Discard x n = Some (y, discarded x n) ∧ live y O d' ∧ frame x y O ∧ got y = got x ∧
    buffered y d' = drop (Z.to_nat (discarded x n)) (buffered x d) ∧
    (0 < n → Len x <= n → last (rd x) <= len (idle (rd x)) → big (rd y) = None).
Proof.
  intros Hl. pose proof Hl as [Hd Hdata Hloc Hown Hrw Hw Hsz He Hi].
  unfold Discard, discarded. destruct (Z.leb_spec n 0).
  { exists x, d. rewrite Z.max_r, Z.min_l by (unfold Len; lia). split_and!; try done. lia. }
  replace (if Len x <? n then Len x else n) with (Z.min (Z.max n 0) (Len x))
    by (destruct (Z.ltb_spec (Len x) n); lia).
  set (k := Z.min _ _). assert (0 <= k <= Len x) as Hk by (unfold k, Len; lia).
  pose proof (len_buffered x O d Hl) as Hlb. unfold Len in *. simpl.
  destruct (Z.eqb_spec (r (rd x) + k) (w (rd x))) as [Heq|Hne].
  - assert (drop (Z.to_nat k) (buffered x d) = []) as ->.
    { apply drop_ge. unfold len in *. lia. }
    destruct (bool_decide (is_Some (big (rd x))) && (last (rd x) <=? len (idle (rd x)))) eqn:Ec.
    + unfold shrink. simpl.
      assert (live (set_rw (set_rw x (r (rd x) + k) (w (rd x))) 0 0) O d) as Hl2
        by (split; simpl; try done; lia).
      destruct (release_big _ _ _ Hl2) as (p & Hr & Ho & Hkp). simpl in Hr. rewrite Hr. simpl.
      eexists _, (idle (rd x)). split; [done|]. split_and!; try done.
      split; simpl; try done; try lia; [by left|]. unfold big_set. simpl.
      by rewrite (left_id_L ∅ (∪)).
    + eexists _, d. split; [done|]. split_and!; try done.
      * split; simpl; try done; lia.
      * intros _ _ Hla. simpl. destruct (big (rd x)); [|done].
        apply andb_false_iff in Ec as [Ec|Ec]; [|lia].
        apply bool_decide_eq_false in Ec. by destruct Ec.
  - eexists _, d. split; [done|]. split_and!; try done.
    + split; simpl; try done; lia.
    + unfold buffered. simpl. apply part_drop; lia.
    + intros. lia.
Qed.

Lemma Read_spec x O d lp :
  live x O d → 0 <= lp →
  ∃ y bs e d' new, Read src_read x lp = Some (y, (bs, e)) ∧ live y O d' ∧ frame x y O ∧
    got y = got x ++ new ∧ buffered x d ++ new = bs ++ buffered y d' ∧ len bs <= lp ∧
    (e = None → 0 < lp → bs ≠ []) ∧ (e ≠ None → bs = []).
Proof.
  intros Hl Hlp. unfold Read. rewrite (lv_done _ _ _ Hl).
  destruct (Z.eqb_spec lp 0) as [->|Hne].
  { exists x, [], None, d, []. rewrite !app_nil_r. split_and!; try done. }
  assert (∀ x1 d1 new, live x1 O d1 → frame x x1 O → got x1 = got x ++ new →
    buffered x1 d1 = buffered x d ++ new → 0 < Len x1 →
    ∃ y d', (b ← Buffered x1; '(x2, _) ← Discard x1 (Z.min lp (len b));
             Some (x2, (take (Z.to_nat lp) b, @None (error (E:=E))))) =
            Some (y, (take (Z.to_nat lp) (buffered x1 d1), None)) ∧ live y O d' ∧
      frame x y O ∧ got y = got x ++ new ∧
      buffered x d ++ new = take (Z.to_nat lp) (buffered x1 d1) ++ buffered y d' ∧
      len (take (Z.to_nat lp) (buffered x1 d1)) <= lp ∧
      take (Z.to_nat lp) (buffered x1 d1) ≠ []) as Hfin.
  { intros x1 d1 new Hx1 Hf1 Hg1 Hb1 Hpos. pose proof (len_buffered x1 O d1 Hx1) as Hlb.
    rewrite (live_Buffered x1 O d1) by done. cbn [mbind option_bind].
    destruct (Discard_spec x1 O d1 (Z.min lp (len (buffered x1 d1))) Hx1)
      as (y & d' & -> & Hy & Hfy & Hgy & Hby & _). cbn [mbind option_bind].
    exists y, d'. split; [done|]. split; [done|]. split; [by eapply frame_trans|].
    split; [by rewrite Hgy|]. split; [|split].
    - rewrite Hby, <- Hb1. unfold discarded. rewrite Hlb.
      destruct (Z.leb_spec lp (Len x1)).
      + replace (Z.min (Z.max (Z.min lp (Len x1)) 0) (Len x1)) with lp by lia.
        by rewrite take_drop.
      + replace (Z.min (Z.max (Z.min lp (Len x1)) 0) (Len x1)) with (len (buffered x1 d1)) by lia.
        rewrite drop_ge, app_nil_r, take_ge; [done|unfold len in *; lia..].
    - unfold len. rewrite length_take. lia.
    - destruct (buffered x1 d1); [unfold len in Hlb; simpl in *; lia|].
      destruct (Z.to_nat lp) eqn:Elp; [lia|done]. }
  destruct (Z.eqb_spec (Len x) 0) as [HL0|HLn].
  - destruct (readOnce_spec x O d Hl) as (x1 & e & d1 & new & -> & Hx1 & Hf1 & Hg1 & Hb1 & HL1 & He).
    cbn [mbind option_bind]. destruct e as [e|].
    + assert (new = []) as -> by (destruct new; [done|]; exfalso; assert (Some e = None) by (by apply He); done).
      unfold len in HL1. simpl in HL1. rewrite (proj2 (Z.eqb_eq (Len x1) 0)) by lia.
      exists x1, [], (Some e), d1, []. split_and!; try done.
    + assert (0 < len new) by (destruct new; [by destruct (proj1 He eq_refl)|unfold len; simpl; lia]).
      destruct (Hfin x1 d1 new) as (y & d' & -> & ? & ? & ? & ? & ? & ?); [done..|lia|].
      eexists y, _, None, d', new. split_and!; done.
  - cbn [mbind option_bind]. pose proof (lv_rw _ _ _ Hl).
    destruct (Hfin x d []) as (y & d' & -> & ? & ? & ? & ? & ? & ?);
      [done|done|by rewrite app_nil_r|by rewrite app_nil_r|unfold Len in *; lia|].
    eexists y, _, None, d', []. split_and!; done.
Qed.

(** A Reader after Release. *)
Record dead x O : Prop := {
  de_done : done (rd x) = true; de_big : big (rd x) = None; de_data : data (rd x) = InNil;
  de_r : r (rd x) = 0; de_w : w (rd x) = 0; de_own : bp_own (pool x) O }.

Lemma reader_Release_spec x O d :
  live x O d → ∃ y, Stream.Release x = Some y ∧ dead y O ∧ got y = got x ∧
    bytes_kept (pool x) (pool y) O.
Proof.
  intros Hl. unfold Stream.Release. rewrite (lv_done _ _ _ Hl).
  destruct (release_big x O d Hl) as (p & Hr & Ho & Hk).
  assert (release_opt (set_done x) (big (rd x)) = Some (set_pool (set_done x) p)) as ->.
  { unfold release_opt in *. destruct (big (rd x)) as [a|].
    - simpl in *. destruct (bp_release (pool x) a) as [p'|]; [|done]. simpl in *.
      injection Hr as E1. by rewrite E1.
    - injection Hr as E1. apply (f_equal pool) in E1. simpl in E1. by subst p. }
  simpl. eexists. split; [done|]. by split_and!.
Qed.

Lemma dead_ops x O :
  dead x O →
  (∀ n, Peek src_read x n = Some (x, ([], Some ErrReleased))) ∧
  Fill src_read x = Some (x, Some ErrReleased) ∧
  (∀ n, ∃ y, Discard x n = Some (y, 0) ∧ dead y O ∧ got y = got x) ∧
  (∀ lp, Read src_read x lp = Some (x, ([], Some ErrReleased))) ∧
  Stream.Release x = Some x.
Proof.
  intros [Hd Hb Hdt Hr Hw Ho]. unfold Peek, Fill, Read, Stream.Release. rewrite Hd.
  split_and!; try done. intros n. unfold Discard.
  assert (Len x = 0) as -> by (unfold Len; lia).
  destruct (Z.leb_spec n 0); [by exists x|]. destruct (Z.ltb_spec 0 n); [|lia]. simpl.
  rewrite Hr, Hw, Hb. simpl. eexists. split; [done|]. by split.
Qed.

(** * Uses of a Reader *)

(** The Reader, the buffers of others, and the bytes handed out so far. Other
    users of the pool may do anything to it but touch the Reader's buffer. *)
Inductive use : World * gset nat * list Z → World * gset nat * list Z → Prop :=
  | use_peek x y O out n res : Peek src_read x n = Some (y, res) → use (x, O, out) (y, O, out)
  | use_fill x y O out e : Fill src_read x = Some (y, e) → use (x, O, out) (y, O, out)
  | use_discard x y O out n k b :
      Buffered x = Some b → Discard x n = Some (y, k) →
      use (x, O, out) (y, O, out ++ take (Z.to_nat k) b)
  | use_read x y O out lp bs e :
      0 <= lp → Read src_read x lp = Some (y, (bs, e)) → use (x, O, out) (y, O, out ++ bs)
  | use_release x y O out : Stream.Release x = Some y → use (x, O, out) (y, O, out)
  | use_others x O O' out p :
      bp_own p (big_set x ∪ O') → big_set x ## O' → bytes_kept (pool x) p (big_set x) →
      use (x, O, out) (set_pool x p, O', out).

(** In use, the bytes handed out and the bytes buffered are the bytes the
    source delivered. *)
Definition in_order (st : World * gset nat * list Z) : Prop :=
  let '(x, others, out) := st in
  (∃ d, live x others d ∧ out ++ buffered x d = got x) ∨ (dead x others ∧ out `prefix_of` got x).

Lemma Peek_spec x O d n :
  live x O d →
  ∃ y e d' new bs, Peek src_read x n = Some (y, (bs, e)) ∧ live y O d' ∧ frame x y O ∧
    got y = got x ++ new ∧ buffered y d' = buffered x d ++ new.
Proof.
  intros Hl. unfold Peek. rewrite (lv_done _ _ _ Hl).
  assert (∀ (e : error (E:=E)) (bs : list Z), ∃ y e' d' new bs', Some (x, (bs, Some e)) = Some (y, (bs', e')) ∧ live y O d' ∧
    frame x y O ∧ got y = got x ++ new ∧ buffered y d' = buffered x d ++ new) as Hsame.
  { intros e bs. exists x, (Some e), d, [], bs. rewrite !app_nil_r. by split_and!. }
  destruct (Z.ltb_spec n 0); [apply Hsame|]. destruct (Z.ltb_spec (max (rd x)) n).
  { rewrite (live_Buffered x O d Hl). apply Hsame. }
  pose proof (lv_rw _ _ _ Hl).
  destruct (peek_loop_spec (S (Z.to_nat n)) x O d n Hl)
    as (y & e & d' & new & bs & -> & ? & ? & ? & ? & _); [lia|unfold Len; lia|].
  by exists y, e, d', new, bs.
Qed.

Lemma in_order_read x y O d d' out new :
  out ++ buffered x d = got x → got y = got x ++ new → buffered y d' = buffered x d ++ new →
  out ++ buffered y d' = got y.
Proof. intros Ho Hg Hb. by rewrite Hg, Hb, (assoc_L (++)), Ho. Qed.

Lemma others_live x O O' d p :
  live x O d → bp_own p (big_set x ∪ O') → big_set x ## O' → bytes_kept (pool x) p (big_set x) →
  live (set_pool x p) O' d.
Proof.
  intros [Hd Hdata Hloc Hown Hrw Hw Hsz He Hi] Ho Hdis Hk. split; try done.
  - unfold get_data, big_set in *. simpl. destruct Hloc as [[_ E1]|(a & E1 & E2 & _)].
    + by rewrite E1 in *.
    + rewrite E2 in *. rewrite <- Hdata. apply Hk. rewrite E1. set_solver.
  - unfold big_set in *. destruct Hloc as [?|(a & E1 & E2 & _)]; [by left|right].
    exists a. split_and!; try done. rewrite E1 in Hdis. set_solver.
Qed.

Lemma in_order_step st st' : in_order st → use st st' → in_order st'.
Proof.
  intros Hst Hu. destruct Hu as [x y O out n res Hp|x y O out e Hp|x y O out n k b Hb Hp|
    x y O out lp bs e Hlp Hp|x y O out Hp|x O O' out p Ho Hdis Hk].
  all: destruct Hst as [(d & Hl & Hout)|[Hdead Hpre]];
    [|destruct (dead_ops x O Hdead) as (D1 & D2 & D3 & D4 & D5)].
  - destruct (Peek_spec x O d n Hl) as (y' & e & d' & new & bs & Hp' & ? & ? & ? & ?).
    rewrite Hp in Hp'. simplify_eq. left. exists d'. split; [done|by eapply in_order_read].
  - rewrite D1 in Hp. simplify_eq. by right.
  - destruct (Fill_spec x O d Hl) as (y' & e' & d' & new & Hp' & ? & ? & ? & ? & _).
    rewrite Hp in Hp'. simplify_eq. left. exists d'. split; [done|by eapply in_order_read].
  - rewrite D2 in Hp. simplify_eq. by right.
  - destruct (Discard_spec x O d n Hl) as (y' & d' & Hp' & ? & ? & Hg & Hb' & _).
    rewrite (live_Buffered x O d Hl) in Hb. rewrite Hp in Hp'. simplify_eq.
    left. exists d'. split; [done|]. by rewrite Hg, Hb', <- (assoc_L (++)), take_drop.
  - destruct (D3 n) as (y' & Hp' & ? & Hg). rewrite Hp in Hp'. simplify_eq.
    right. by rewrite take_0, app_nil_r, Hg.
  - destruct (Read_spec x O d lp Hl Hlp) as (y' & bs' & e' & d' & new & Hp' & ? & ? & Hg & Hb & _).
    rewrite Hp in Hp'. simplify_eq. left. exists d'. split; [done|].
    by rewrite Hg, <- (assoc_L (++)), <- Hb, (assoc_L (++)), Hout.
  - rewrite D4 in Hp. simplify_eq. right. by rewrite app_nil_r.
  - destruct (reader_Release_spec x O d Hl) as (y' & Hp' & ? & Hg & _). rewrite Hp in Hp'. simplify_eq.
    right. split; [done|]. rewrite Hg, <- Hout. by apply prefix_app_r.
  - rewrite D5 in Hp. simplify_eq. by right.
  - left. exists d. split; [by eapply others_live|done].
  - right. split; [|done]. destruct Hdead as [? Hb ? ? ? ?]. split; try done.
    unfold big_set in Ho. rewrite Hb in Ho. by rewrite (left_id_L ∅ (∪)) in Ho.
Qed.

Lemma new_reader_live s o rdr p ch O :
  NewReader s o = Some rdr → bp_own p O → live (mkWorld rdr p ch []) O (idle rdr) ∧
  buffered (mkWorld rdr p ch []) (idle rdr) = [].
Proof.
  intros Hn Ho. unfold NewReader in Hn.
  set (i := if IdleSize o =? 0 then 512 else IdleSize o) in *.
  set (m := if Max o =? 0 then Large else Max o) in *.
  destruct (Z.ltb_spec i 0); [done|]. destruct (Z.ltb_spec m i); [done|]. simplify_eq/=.
  assert (0 < i) by (unfold i in *; destruct (Z.eqb_spec (IdleSize o) 0); lia).
  assert (len (zeroes i) = i) as Hz by (unfold len, zeroes; rewrite length_replicate; lia).
  split; [|done]. split; simpl; rewrite ?Hz; try done; try lia; [by left|].
  unfold big_set. simpl. by rewrite (left_id_L ∅ (∪)).
Qed.

(** A Reader that has been used in any way, others' buffers and the bytes
    handed out. *)
Definition reachable x O (out : list Z) : Prop :=
  ∃ s o rdr p ch O0, NewReader s o = Some rdr ∧ bp_own p O0 ∧
    rtc use (mkWorld rdr p ch [], O0, []) (x, O, out).

Lemma reachable_in_order x O out : reachable x O out → in_order (x, O, out).
Proof.
  intros (s & o & rdr & p & ch & O0 & Hn & Ho & Hu).
  assert (in_order (mkWorld rdr p ch [], O0, [])) as H0.
  { left. destruct (new_reader_live s o rdr p ch O0 Hn Ho) as [? Hb]. exists (idle rdr).
    by rewrite Hb. }
  remember (x, O, out) as st. clear Heqst. induction Hu; eauto using in_order_step.
Qed.

Lemma reachable_live x O out :
  reachable x O out → done (rd x) = false → ∃ d, live x O d ∧ out ++ buffered x d = got x.
Proof. intros [?|[[? _ _ _ _ _] _]]%reachable_in_order ?; [done|congruence]. Qed.

(** * Properties *)

(** C8: for every source and every sequence of calls, with other users of the
    pool in between: the bytes handed out by Read and consumed by Discard,
    followed by the bytes buffered, are exactly the bytes the source delivered,
    in order, none lost and none twice; after Release what was handed out is a
    prefix of them. No call panics, and the loop of Peek ends. *)
Theorem reader_in_order x O out :
  reachable x O out →
  (done (rd x) = false → ∃ b, Buffered x = Some b ∧ out ++ b = got x) ∧
  out `prefix_of` got x ∧
  (∀ n, is_Some (Peek src_read x n)) ∧ is_Some (Fill src_read x) ∧
  (∀ n, is_Some (Discard x n)) ∧ (∀ lp, 0 <= lp → is_Some (Read src_read x lp)) ∧
  is_Some (Stream.Release x).
Proof.
  intros [(d & Hl & Hout)|[Hdead Hpre]]%reachable_in_order.
  - split_and!.
    + intros _. exists (buffered x d). split; [by eapply live_Buffered|done].
    + rewrite <- Hout. by apply prefix_app_r.
    + intros n. destruct (Peek_spec x O d n Hl) as (? & ? & ? & ? & ? & -> & _). eauto.
    + destruct (Fill_spec x O d Hl) as (? & ? & ? & ? & -> & _). eauto.
    + intros n. destruct (Discard_spec x O d n Hl) as (? & ? & -> & _). eauto.
    + intros lp Hlp. destruct (Read_spec x O d lp Hl Hlp) as (? & ? & ? & ? & ? & -> & _). eauto.
    + destruct (reader_Release_spec x O d Hl) as (? & -> & _). eauto.
  - destruct (dead_ops x O Hdead) as (D1 & D2 & D3 & D4 & D5).
    split_and!; try done; eauto.
    + destruct Hdead. congruence.
    + intros n. destruct (D3 n) as (? & -> & _). eauto.
Qed.

(** Peek(n) with [0 <= n <= Max] returns the next [n] bytes, and only when
    it returns an error are there fewer than [n], which it then returns; it
    consumes nothing. A negative [n] and an [n] above Max are refused without
    reading. *)
Theorem Peek_next_bytes x O out b n :
  reachable x O out → done (rd x) = false → Buffered x = Some b →
  (n < 0 → Peek src_read x n = Some (x, ([], Some ErrNegativeCount))) ∧
  (0 <= n → max (rd x) < n → Peek src_read x n = Some (x, (b, Some ErrTooLarge))) ∧
  (0 <= n <= max (rd x) →
   ∃ y bs e new, Peek src_read x n = Some (y, (bs, e)) ∧ got y = got x ++ new ∧
     Buffered y = Some (b ++ new) ∧
     (e = None → bs = take (Z.to_nat n) (b ++ new) ∧ len bs = n) ∧
     (e ≠ None → bs = b ++ new ∧ len bs < n)).
Proof.
  intros Hre Hd Hb. destruct (reachable_live x O out Hre Hd) as (d & Hl & _).
  rewrite (live_Buffered x O d Hl) in Hb. simplify_eq.
  unfold Peek. rewrite Hd. split_and!.
  - intros. by destruct (Z.ltb_spec n 0); [|lia].
  - intros. destruct (Z.ltb_spec n 0); [lia|]. destruct (Z.ltb_spec (max (rd x)) n); [|lia].
    by rewrite (live_Buffered x O d Hl).
  - intros Hn. destruct (Z.ltb_spec n 0); [lia|]. destruct (Z.ltb_spec (max (rd x)) n); [lia|].
    pose proof (lv_rw _ _ _ Hl).
    destruct (peek_loop_spec (S (Z.to_nat n)) x O d n Hl)
      as (y & e & d' & new & bs & -> & Hy & Hf & Hg & Hb' & He & He'); [lia|unfold Len; lia|].
    exists y, bs, e, new. rewrite (live_Buffered y O d') by done. rewrite Hb' in *. by split_and!.
Qed.

(** A Reader holds at most one buffer of the pool and never the bytes of
    others; its buffer is at most Max long; consuming everything after a light
    read, or Release, gives the buffer back. *)
Theorem reader_memory x O out :
  reachable x O out →
  bp_own (pool x) (big_set x ∪ O) ∧ big_set x ## O ∧
  (done (rd x) = false → ∃ d, get_data x = Some d ∧ len d <= max (rd x)) ∧
  (∀ n, 0 < n → Len x <= n → last (rd x) <= len (idle (rd x)) →
     ∃ y k, Discard x n = Some (y, k) ∧ bp_own (pool y) O ∧ big_set y = ∅) ∧
  (∃ y, Stream.Release x = Some y ∧ bp_own (pool y) O ∧ big_set y = ∅).
Proof.
  intros [(d & Hl & _)|[Hdead _]]%reachable_in_order.
  - split_and!.
    + apply Hl.
    + unfold big_set. destruct (lv_loc _ _ _ Hl) as [[-> _]|(a & -> & _ & ?)]; set_solver.
    + intros _. exists d. split; apply Hl.
    + intros n H0 Hn Hlast. destruct (Discard_spec x O d n Hl) as (y & d' & -> & Hy & _ & _ & _ & Hb).
      exists y, (discarded x n). pose proof (lv_own _ _ _ Hy) as Ho.
      unfold big_set in *. rewrite Hb in * by done. by rewrite (left_id_L ∅ (∪)) in Ho.
    + destruct (reader_Release_spec x O d Hl) as (y & -> & Hy & _). exists y. split; [done|].
      unfold big_set. destruct Hy as [? -> ? ? ? ?]. done.
  - destruct (dead_ops x O Hdead) as (_ & _ & D3 & _ & D5).
    assert (∀ y, dead y O → bp_own (pool y) O ∧ big_set y = ∅) as Hy
      by (intros y [? Hb ? ? ? ?]; unfold big_set; by rewrite Hb).
    destruct (Hy x Hdead) as [Ho Hb]. rewrite Hb. split_and!.
    + by rewrite (left_id_L ∅ (∪)).
    + set_solver.
    + destruct Hdead. congruence.
    + intros n _ _ _. destruct (D3 n) as (y & -> & ? & _). exists y, 0. split; [done|auto].
    + exists x. by rewrite D5.
Qed.

(** The source's state after [k] calls with a slice of [m] bytes. *)
Definition src_after (m : Z) (k : nat) (s : Src) : Src := Nat.iter k (λ s, (src_read s m).1) s.

Lemma src_after_S m k s : src_after m (S k) s = src_after m k (src_read s m).1.
Proof. unfold src_after. by rewrite Nat.iter_succ_r. Qed.

Lemma read_loop_empty k x O d :
  live x O d →
  (∀ j, (j <= k)%nat → ∃ bs, (src_read (src_after (len d - w (rd x)) j (src (rd x)))
                                 (len d - w (rd x))).2 = (bs, 0, None)) →
  ∃ y d', read_loop src_read k x = Some (y, None) ∧ live y O d' ∧ err (rd y) = err (rd x) ∧
    src (rd y) = src_after (len d - w (rd x)) (S k) (src (rd x)).
Proof.
  revert x d. induction k as [|k IH]; intros x d Hl He;
    pose proof Hl as [Hd Hdata Hloc Hown Hrw Hw Hsz Hem Hi]; simpl; rewrite Hdata; simpl;
    rewrite part_all by lia; simpl; rewrite len_part by lia;
    destruct (He 0%nat) as (bs & Hbs); try lia; simpl in Hbs;
    destruct (src_read (src (rd x)) (len d - w (rd x))) as [s res] eqn:Es; simpl in Hbs; subst res;
    set (d1 := take _ d ++ _); simpl.
  all: assert (length d1 = length d) as Hld by
    (unfold d1; rewrite length_app, length_take, length_copy;
     pose proof (len_part d (w (rd x)) (len d)) as HH; unfold len in *; lia).
  all: destruct (set_data_live x O d d1) as (Hy & _ & (_ & _ & Hm & _) & _ & Hw'); [done..|].
  all: rewrite delivered_zero.
  all: assert (live (deliver (set_src (set_data x d1) s) []) O d1) as Hx1 by (destruct Hy; by split).
  - eexists _, d1. split; [done|]. split_and!; try done.
  - destruct (IH _ d1 Hx1) as (y & d' & -> & ? & Her & Hs).
    + intros j Hj. destruct (He (S j)) as (bs' & Hbs'); [lia|]. exists bs'. simpl.
      rewrite Hw'. replace (len d1) with (len d) by (unfold len; lia).
      rewrite src_after_S in Hbs'. by rewrite Es in Hbs'.
    + exists y, d'. split_and!; try done; [by rewrite Her|]. rewrite Hs. simpl. rewrite Hw'.
      replace (len d1) with (len d) by (unfold len; lia).
      pose proof (src_after_S (len d - w (rd x)) (S k) (src (rd x))) as HS. rewrite Es in HS. exact (eq_sym HS).
Qed.

(** A source that returns no data and no error a hundred times in a row
    makes a read fail with io.ErrNoProgress after exactly a hundred calls, and
    the error is not sticky. *)
Theorem no_progress_after_100 x O out d :
  reachable x O out → done (rd x) = false → err (rd x) = None → get_data x = Some d →
  (∀ j, (j < 100)%nat → ∃ bs, (src_read (src_after (len d - w (rd x)) j (src (rd x)))
                                  (len d - w (rd x))).2 = (bs, 0, None)) →
  ∃ y, readOnce src_read x = Some (y, Some ErrNoProgress) ∧ err (rd y) = None ∧
    src (rd y) = src_after (len d - w (rd x)) 100 (src (rd x)).
Proof.
  intros Hre Hd He Hdata Hs. destruct (reachable_live x O out Hre Hd) as (d' & Hl & _).
  assert (d' = d) as -> by (pose proof (lv_data _ _ _ Hl); congruence).
  destruct (read_loop_empty 99 x O d Hl) as (y & d' & Hy & _ & Hey & Hsy).
  { intros j Hj. apply Hs. lia. }
  exists y. unfold readOnce. rewrite He. change (maxEmptyReads - 1)%nat with 99%nat.
  rewrite Hy. split_and!; [done|congruence|done].
Qed.
End reader.

(** * Witnesses *)

(** A source that plays a list of results and then reports end of file (1). *)
Definition demo_src (s : list (list Z * Z * option Z)) (_ : Z) :
    list (list Z * Z * option Z) * (list Z * Z * option Z) :=
  match s with [] => ([], ([], 0, Some 1)) | x :: rest => (rest, x) end.
Definition demo_bud : option (Z * Z) := Some (300, 0).

#[local] Instance demo_pool : BufPool Pool := pool_BufPool true.

Abbreviation demo_world := (World (P:=Pool) (Src:=list (list Z * Z * option Z)) (E:=Z)).

Definition demo_reader : Reader (Src:=list (list Z * Z * option Z)) (E:=Z) := Eval vm_compute in
  default (mkReader [] [] None InNil 0 0 0 None 0 true)
    (NewReader [([10; 11; 12; 13], 4, None); ([], 0, None); ([14; 15; 16], 3, None)]
       (mkReaderOptions 4 256)).
Definition demo0 : demo_world := mkWorld demo_reader (NewPool demo_bud) [] [].
(** Peek(6) outgrows the idle buffer and borrows one of 64 bytes. *)
Definition demo1 : demo_world := Eval vm_compute in
  from_option fst demo0 (Peek demo_src demo0 6).
(** Five bytes are consumed. *)
Definition demo2 : demo_world := Eval vm_compute in from_option fst demo0 (Discard demo1 5).

Lemma reader_demo_reachable : reachable demo_src demo2 ∅ [10; 11; 12; 13; 14].
Proof.
  eexists _, (mkReaderOptions 4 256), demo_reader, (NewPool demo_bud), [], ∅.
  split; [vm_compute; reflexivity|]. split.
  { apply owns_NewPool. intros m u Hb. vm_compute in Hb. injection Hb as <- <-. vm_compute.
    repeat split; intros; discriminate. }
  eapply rtc_l; [eapply (use_peek _ _ demo1 _ _ 6); vm_compute; reflexivity|].
  eapply rtc_l; [|apply rtc_refl].
  apply (use_discard _ demo1 demo2 ∅ [] 5 5 [10; 11; 12; 13; 14; 15; 16]);
    vm_compute; reflexivity.
Qed.

Lemma reader_in_order_witness :
  Buffered demo2 = Some [15; 16] ∧ got demo2 = [10; 11; 12; 13; 14; 15; 16] ∧
  [10; 11; 12; 13; 14] `prefix_of` got demo2.
Proof.
  split; [reflexivity|split; [reflexivity|]].
  exact (proj1 (proj2 (reader_in_order demo_src demo2 ∅ _ reader_demo_reachable))).
Defined.

Lemma Peek_next_bytes_witness :
  Peek demo_src demo2 257 = Some (demo2, ([15; 16], Some ErrTooLarge)).
Proof.
  refine (proj1 (proj2 (Peek_next_bytes demo_src demo2 ∅ _ [15; 16] 257 reader_demo_reachable _ _)) _ _);
    vm_compute; try reflexivity. discriminate.
Defined.

Lemma reader_memory_witness :
  big (rd demo2) = Some 0%nat ∧
  ∃ y, Stream.Release demo2 = Some y ∧ bp_own (pool y) ∅ ∧ big_set y = ∅.
Proof.
  split; [reflexivity|].
  exact (proj2 (proj2 (proj2 (proj2 (reader_memory demo_src demo2 ∅ _ reader_demo_reachable))))).
Defined.

(** A source that never delivers. *)
Definition mute (s : nat) (_ : Z) : nat * (list Z * Z * option Z) := (S s, ([], 0, None)).
Definition mute_reader : Reader (Src:=nat) (E:=Z) := Eval vm_compute in
  default (mkReader 0%nat [] None InNil 0 0 0 None 0 true) (NewReader 0%nat (mkReaderOptions 2 16)).
Definition mute0 : World (P:=Pool) (Src:=nat) (E:=Z) := mkWorld mute_reader (NewPool None) [] [].

Lemma no_progress_after_100_witness :
  ∃ y, readOnce mute mute0 = Some (y, Some ErrNoProgress) ∧ err (rd y) = None ∧ src (rd y) = 100%nat.
Proof.
  destruct (no_progress_after_100 mute mute0 ∅ [] [0; 0]) as (y & Hy & He & Hs).
  - exists 0%nat, (mkReaderOptions 2 16), mute_reader, (NewPool None), [], ∅.
    split; [reflexivity|]. split; [by apply owns_NewPool|apply rtc_refl].
  - reflexivity.
  - reflexivity.
  - reflexivity.
  - intros j _. exists []. reflexivity.
  - exists y. split; [exact Hy|split; [exact He|]]. rewrite Hs. reflexivity.
Defined.
