(* ===== verification/Writer.v ===== *)
(** Package stream: the Writer ([src/stream/writer.go]).

    The destination is a parameter, with its optional [WriteBuffers]; the
    buffers come from a pool used through [BufPool]. *)
From S2P Require Import Prelude Buf Stream.

Local Open Scope Z_scope.

Section writer.
Context {P : Type} `{HL : BufPoolLaws P} {Dst E : Type}.
(** [dst.Write(p)], and [WriteBuffers] when [dst] is a BuffersWriter. *)
Context (write : Dst → list Z → Dst * (Z * option E)).
Context (write_buffers : option (Dst → list (list Z) → Dst * (Z * option E))).
#[local] Set Default Proof Using "Type HL".

(** An element of [vec]: the bytes of an owned buffer, or shared bytes. *)
Inductive piece := Owned (a : nat) | Shared (p : list Z).

(** [calls] records the byte slices handed to the destination (ghost). *)
Record Writer := mkWriter {
  dst : Dst; held : list nat; vec : list piece; size : Z;
  pool : P; calls : list (list Z) }.

Definition NewWriter (d : Dst) (p : P) : Writer := mkWriter d [] [] 0 p [].

Definition piece_bytes (p : P) (x : piece) : option (list Z) :=
  match x with Owned a => bp_bytes p a | Shared b => Some b end.

Definition Add (x : Writer) (a : nat) : option Writer :=
  b ← bp_bytes (pool x) a;
  Some (mkWriter (dst x) (held x ++ [a]) (vec x ++ [Owned a]) (i64 (size x + len b)) (pool x) (calls x)).

Definition AddShared (x : Writer) (p : list Z) : Writer :=
  if len p =? 0 then x
  else mkWriter (dst x) (held x) (vec x ++ [Shared p]) (i64 (size x + len p)) (pool x) (calls x).

Definition Pending (x : Writer) : Z * Z := (len (vec x), size x).

Fixpoint release_all (p : P) (bs : list nat) : option P :=
  match bs with [] => Some p | a :: rest => p' ← bp_release p a; release_all p' rest end.

(** [Discard] of the Writer. *)
Definition Discard (x : Writer) : option Writer :=
  p ← release_all (pool x) (held x); Some (mkWriter (dst x) [] [] 0 p (calls x)).

(** [net.Buffers.WriteTo] on a connection without writev: one Write per
    buffer, up to the first error. *)
Fixpoint write_each (d : Dst) (n : Z) (bs : list (list Z)) : Dst * (Z * option E) * list (list Z) :=
  match bs with
  | [] => (d, (n, None), [])
  | b :: rest =>
      let '(d1, (k, e)) := write d b in
      match e with
      | Some e => (d1, (i64 (n + k), Some e), [b])
      | None => let '(res, log) := write_each d1 (i64 (n + k)) rest in (res, b :: log)
      end
  end.

Definition send (d : Dst) (bs : list (list Z)) : Dst * (Z * option E) * list (list Z) :=
  match bs with
  | [b] => (write d b, [b])
  | _ => match write_buffers with
         | Some wb => (wb d bs, bs)
         | None => write_each d 0 bs
         end
  end.

Definition Flush (x : Writer) : option (Writer * (Z * option E)) :=
  match vec x with
  | [] => Some (x, (0, None))
  | _ =>
      bs ← mapM (piece_bytes (pool x)) (vec x);
      let '(d, res, log) := send (dst x) bs in
      x1 ← Discard (mkWriter d (held x) (vec x) (size x) (pool x) (calls x ++ log));
      Some (x1, res)
  end.

(** * The contract *)

(** [O] are the buffers of others; the bytes queued, piece by piece. *)
Record queued (x : Writer) (O : gset nat) (bs : list (list Z)) : Prop := {
  q_nodup : NoDup (held x);
  q_others : ∀ a, a ∈ held x → a ∉ O;
  q_own : bp_own (pool x) (list_to_set (held x) ∪ O);
  q_vec : ∀ a, Owned a ∈ vec x → a ∈ held x;
  q_bytes : mapM (piece_bytes (pool x)) (vec x) = Some bs;
  q_size : size x = i64 (zsum len bs);
  q_held : vec x = [] → held x = [] }.

Lemma release_all_spec p bs O :
  NoDup bs → (∀ a, a ∈ bs → a ∉ O) → bp_own p (list_to_set bs ∪ O) →
  ∃ p', release_all p bs = Some p' ∧ bp_own p' O ∧ bytes_kept p p' O.
Proof.
  revert p. induction bs as [|a bs IH]; intros p Hnd HO Hown; simpl.
  - exists p. simpl in Hown. by rewrite (left_id_L ∅ (∪)) in Hown.
  - apply NoDup_cons in Hnd as [Ha Hnd]. simpl in Hown.
    destruct (bp_release_law p _ a Hown) as (p1 & -> & Ho1 & Hk1); [set_solver|].
    assert (a ∉ O) by set_solver.
    assert (({[a]} ∪ list_to_set bs ∪ O) ∖ {[a]} = list_to_set bs ∪ O) as Heq by set_solver.
    rewrite Heq in *. cbn [mbind option_bind]. destruct (IH p1) as (p2 & -> & Ho2 & Hk2); [done|set_solver|done|].
    exists p2. split_and!; try done. intros b Hb. rewrite Hk2, Hk1; set_solver.
Qed.

Lemma write_each_prefix d n bs d' k e log :
  write_each d n bs = (d', (k, e), log) → log `prefix_of` bs ∧ (e = None → log = bs).
Proof.
  revert d n log. induction bs as [|b bs IH]; intros d n log; simpl.
  - intros ?. simplify_eq. by split.
  - destruct (write d b) as [d1 [k1 [e1|]]].
    + intros ?. simplify_eq. split; [|done]. apply prefix_cons, prefix_nil.
    + destruct (write_each d1 _ bs) as [[d2 [k2 e2]] log2] eqn:Ew. intros ?. simplify_eq.
      destruct (IH _ _ _ Ew) as [Hp Hall]. split; [by apply prefix_cons|].
      intros He. by rewrite Hall.
Qed.

Lemma send_prefix d bs d' k e log :
  send d bs = (d', (k, e), log) → log `prefix_of` bs ∧ (e = None → log = bs).
Proof.
  unfold send. destruct bs as [|b [|b2 bs]].
  - destruct write_buffers as [wb|]; [destruct (wb d []) as [? [? ?]]|]; intros ?; by simplify_eq/=.
  - destruct (write d b) as [? [? ?]]. intros ?. by simplify_eq.
  - destruct write_buffers as [wb|]; [|apply write_each_prefix].
    destruct (wb d _) as [? [? ?]]. intros ?. by simplify_eq.
Qed.

Lemma queued_Discard x O bs :
  queued x O bs → ∃ y, Discard x = Some y ∧ queued y O [] ∧ bytes_kept (pool x) (pool y) O ∧
    calls y = calls x ∧ dst y = dst x ∧ Pending y = (0, 0).
Proof.
  intros [Hnd HO Hown _ _ _ _]. unfold Discard.
  destruct (release_all_spec (pool x) (held x) O Hnd HO Hown) as (p & -> & Ho & Hk). simpl.
  eexists. split; [done|]. split_and!; try done.
  split; simpl; try done; [constructor|by intros ? ?%not_elem_of_nil|..].
  - by rewrite (left_id_L ∅ (∪)).
  - by intros ? ?%not_elem_of_nil.
Qed.

(** C9: Flush hands the queued pieces to the destination in the order they
    were added, all of them when it returns no error and a prefix otherwise,
    and then releases every owned buffer exactly once whatever the outcome;
    the queue is empty afterwards and shared data is never released. *)
Theorem Flush_sends_in_order x O bs :
  queued x O bs →
  ∃ y n e log, Flush x = Some (y, (n, e)) ∧ calls y = calls x ++ log ∧ log `prefix_of` bs ∧
    (e = None → log = bs) ∧ queued y O [] ∧ bytes_kept (pool x) (pool y) O ∧ Pending y = (0, 0).
Proof.
  intros Hq. pose proof Hq as [Hnd HO Hown Hv Hb Hs Hh]. unfold Flush.
  destruct (vec x) as [|v vs] eqn:Ev.
  { change (Some [] = Some bs) in Hb. simplify_eq. exists x, 0, None, []. rewrite app_nil_r. split_and!; try done.
    unfold Pending. by rewrite Ev, Hs. }
  rewrite <- Ev in *. rewrite Hb. cbn [mbind option_bind].
  destruct (send (dst x) bs) as [[d [n e]] log] eqn:Es. destruct (send_prefix _ _ _ _ _ _ Es).
  destruct (queued_Discard (mkWriter d (held x) (vec x) (size x) (pool x) (calls x ++ log)) O bs)
    as (y & -> & ? & ? & ? & _ & ?); [by split|].
  exists y, n, e, log. by split_and!.
Qed.

Lemma bytes_snoc p v bs x b :
  mapM (piece_bytes p) v = Some bs → piece_bytes p x = Some b →
  mapM (piece_bytes p) (v ++ [x]) = Some (bs ++ [b]).
Proof. rewrite !mapM_Some. intros. apply Forall2_app; [done|]. by repeat constructor. Qed.

(** Adding keeps the contract. *)
Lemma queued_Add x O bs a b :
  queued x O bs → a ∉ held x → a ∈ O → bp_bytes (pool x) a = Some b →
  ∃ y, Add x a = Some y ∧ queued y (O ∖ {[a]}) (bs ++ [b]).
Proof.
  intros [Hnd HO Hown Hv Hb Hs Hh] Ha HaO Hab. unfold Add. rewrite Hab. simpl.
  eexists. split; [done|]. split; simpl.
  - apply NoDup_app. split_and!; [done| |apply NoDup_singleton]. set_solver.
  - set_solver.
  - assert (list_to_set (held x ++ [a]) ∪ O ∖ {[a]} = list_to_set (held x) ∪ O) as ->; [|done].
    rewrite list_to_set_app_L. simpl. apply set_eq. intros c.
    destruct (decide (c = a)); set_solver.
  - set_solver.
  - by apply bytes_snoc.
  - rewrite Hs, i64_add_l, zsum_app. simpl. f_equal. lia.
  - by intros [_ [=]]%app_nil.
Qed.

Lemma queued_AddShared x O bs p :
  queued x O bs → queued (AddShared x p) O (if len p =? 0 then bs else bs ++ [p]).
Proof.
  intros Hq. unfold AddShared. destruct (len p =? 0); [done|].
  destruct Hq as [Hnd HO Hown Hv Hb Hs Hh]. split; simpl; try done.
  - set_solver.
  - by apply bytes_snoc.
  - rewrite Hs, i64_add_l, zsum_app. simpl. f_equal. lia.
  - by intros [_ [=]]%app_nil.
Qed.

Lemma queued_New d p O : bp_own p O → queued (NewWriter d p) O [].
Proof.
  intros Ho. split; simpl; try done; [constructor|set_solver| |set_solver].
  by rewrite (left_id_L ∅ (∪)).
Qed.
End writer.

(** * Witness *)

#[local] Instance demo_pool : BufPool Pool := pool_BufPool true.

(** A connection without writev that takes two writes and then fails. *)
Definition demo_write (d : nat) (b : list Z) : nat * (Z * option Z) :=
  match d with O => (O, (0, Some 1)) | S d => (d, (len b, None)) end.

Definition demo_bufs : Pool * list nat := Eval vm_compute in
  match Copy true (NewPool (Some (1000, 0))) [1; 2] None with
  | Some (p1, Some a) =>
      match Copy true p1 [3; 4; 5] None with Some (p2, Some b) => (p2, [a; b]) | _ => (p1, [a]) end
  | _ => (NewPool None, [])
  end.

Definition demo : Writer (Dst:=nat) := Eval vm_compute in
  match Add (NewWriter 2%nat demo_bufs.1) 0 with
  | Some x => default x (Add (AddShared x [9]) 1)
  | None => NewWriter 0%nat (NewPool None)
  end.

Lemma demo_owned : bp_own demo_bufs.1 {[0%nat; 1%nat]}.
Proof.
  apply (owns_reachable true (Some (1000, 0))).
  { intros m u Hb. simplify_eq. vm_compute. repeat split; intros; discriminate. }
  set (p0 := NewPool (Some (1000, 0))).
  set (p1 := from_option fst p0 (Get true p0 2 None)).
  set (p2 := copy_into p1 0 [1; 2]).
  set (p3 := from_option fst p0 (Get true p2 3 None)).
  eapply rtc_l; [apply (client_get true p0 ∅ 2 None p1 0); vm_compute; reflexivity|].
  eapply rtc_l; [apply (client_write true p1 _ 0 [1; 2]); [set_solver|]|].
  { intros b Hb. vm_compute in Hb. injection Hb as <-. vm_compute. lia. }
  eapply rtc_l; [apply (client_get true p2 _ 3 None p3 1); vm_compute; reflexivity|].
  eapply rtc_l; [apply (client_write true p3 _ 1 [3; 4; 5]); [set_solver|]|].
  { intros b Hb. vm_compute in Hb. injection Hb as <-. vm_compute. lia. }
  replace (copy_into p3 1 [3; 4; 5]) with demo_bufs.1 by (vm_compute; reflexivity).
  replace ({[1%nat]} ∪ ({[0%nat]} ∪ ∅)) with ({[0%nat; 1%nat]} : gset nat) by set_solver.
  apply rtc_refl.
Qed.

Lemma demo_queued : queued demo ∅ [[1; 2]; [9]; [3; 4; 5]].
Proof.
  split; simpl.
  - apply NoDup_cons. split; [set_solver|apply NoDup_singleton].
  - set_solver.
  - replace (list_to_set [0%nat; 1%nat] ∪ ∅) with ({[0%nat; 1%nat]} : gset nat) by set_solver.
    apply demo_owned.
  - set_solver.
  - reflexivity.
  - reflexivity.
  - done.
Qed.

Lemma Flush_sends_in_order_witness :
  ∃ y n e log, Flush demo_write None demo = Some (y, (n, e)) ∧ calls y = calls demo ++ log ∧
    log `prefix_of` [[1; 2]; [9]; [3; 4; 5]] ∧ (e = None → log = [[1; 2]; [9]; [3; 4; 5]]) ∧
    queued y ∅ [] ∧ bytes_kept (pool demo) (pool y) ∅ ∧ Pending y = (0, 0).
Proof. exact (Flush_sends_in_order demo_write None demo ∅ _ demo_queued). Defined.
