(* ===== verification/Lifecycle.v ===== *)
(** Package netx: Server ([src/lifecycle.go]).

    A Server run is a state machine over shared memory: the goroutine in
    LoopContext, the goroutine it starts for Serve, the one that cuts the drain
    short, and any number of callers of Stop, Shutdown, State, forceAbort,
    further LoopContexts and of the parent context's cancel function. The hooks
    and the service are user code: what each call returns, or the value it
    panics with, is a parameter. *)
From S2P Require Import Prelude Interleave.

Local Open Scope Z_scope.

(** * Errors *)

Inductive Err :=
  | ErrAlreadyRunning | ErrNotRunning | ErrAbortTimeout | ErrServiceRequired
  | Canceled | DeadlineExceeded              (* of package context *)
  | User (n : Z)
  | Wrap (e : Err)                           (* fmt.Errorf with %w *)
  | Panicked (name : string) (v : Z)         (* made by protect *)
  | Joined (es : list Err).                  (* errors.Join *)

(** [errors.Join]: nil values are dropped, nil when nothing is left. *)
Definition errors_Join (es : list (option Err)) : option Err :=
  match omap (λ e, e) es with [] => None | l => Some (Joined l) end.

(** [errors.Is(err, context.Canceled)]. *)
Fixpoint is_canceled (e : Err) : bool :=
  match e with
  | Canceled => true
  | Wrap e => is_canceled e
  | Joined es => existsb is_canceled es
  | _ => false
  end.

(** What a call of user code does: returns an error or nil, or panics. *)
Inductive outcome := Ret (e : option Err) | Pan (v : Z).

Definition protect (name : string) (o : outcome) : option Err :=
  match o with Ret e => e | Pan v => Some (Panicked name v) end.

Definition ignoreCanceled (e : option Err) : option Err :=
  match e with Some e => if is_canceled e then None else Some e | None => None end.

(** * Server *)

Module Server.

Inductive State := StateNew | StateStarting | StateRunning | StateStopping | StateStopped.

#[global] Instance State_eq_dec : EqDecision State.
Proof. solve_decision. Defined.

Definition State_String (s : State) : string :=
  match s with
  | StateNew => "new" | StateStarting => "starting" | StateRunning => "running"
  | StateStopping => "stopping" | StateStopped => "stopped"
  end.

Definition rank (s : State) : Z :=
  match s with
  | StateNew => 0 | StateStarting => 1 | StateRunning => 2 | StateStopping => 3 | StateStopped => 4
  end.

(** The fields a user sets. [Serve] may return on its own, return only once
    its context is cancelled, or never. *)
Inductive serving := Own (o : outcome) | OnAbort (o : outcome) | Never.
Record Config := mkConfig {
  hasService : bool;
  Serve : serving;
  SvcShutdown : outcome;              (* Service.Shutdown *)
  OnStart : option outcome;           (* None: nil hook *)
  OnStop : option outcome;
  OnError : option (option Z) }.      (* Some (Some v): panics with v *)

(** Calls of user code, in order. *)
Inductive event := EvStart | EvServe | EvShutdown | EvStop | EvError (e : Err).

Record Sh := mkSh {
  state : State;
  doneMade : bool; doneClosed : bool;       (* s.done *)
  forceMade : bool; forceClosed : bool;     (* s.force *)
  forced : bool;
  stopMade : bool; stopCalled : bool;       (* s.stop, of stopCtx *)
  parentDone : bool; signals : nat;         (* parent context; signals not yet taken *)
  aborted : bool;                           (* runCtx cancelled *)
  started : bool; served : option (option Err);  (* go Serve, not yet scheduled; its channel *)
  draining : bool; drainDone : bool;        (* the shutdown context exists, is cancelled *)
  result : option Err;
  events : list event;
  crashed : bool }.                         (* close of a nil or closed channel, nil stop *)

Inductive call :=
  | CLoop                     (* LoopContext *)
  | CStop | CShutdown | CState
  | CForce                    (* forceAbort *)
  | CCancel                   (* the parent context ends *)
  | CSignal                   (* a signal arrives *)
  | CSignals                  (* Loop's signal goroutine *)
  | CServe                    (* the goroutine LoopContext starts for Serve *)
  | CWatch.                   (* the goroutine that watches force *)

Inductive ret :=
  | RetLoop (e : option Err)
  | RetStop (e : option Err)
  | RetShutdown (e : option Err)    (* the loop's result *)
  | RetShutdownCtx                  (* ctx.Err() *)
  | RetState (s : State).

Inductive pc :=
  | Ready
  | LStart                                          (* OnStart *)
  | LStartShutdown (e : Err)                        (* OnStart failed: Service.Shutdown *)
  | LStartStop (e : Err) (sh : option Err)          (* OnStart failed: onStop *)
  | LRunning                                        (* setState(StateRunning) *)
  | LServe                                          (* go Serve *)
  | LSelect                                         (* served or stopCtx.Done() *)
  | LStopping (sv : option Err) (returned : bool)   (* setState(StateStopping) *)
  | LDrain (sv : option Err) (returned : bool)      (* shutdownContext, go watch *)
  | LShutdown (sv : option Err) (returned : bool)   (* Service.Shutdown *)
  | LAbort (sh : option Err)                        (* abort() *)
  | LWait (sh : option Err)                         (* served or AbortGrace *)
  | LOnStop (sv sh : option Err)                    (* onStop *)
  | LReport (e : option Err)                        (* report *)
  | LFinish (e : option Err)                        (* deferred abort(), finish(result) *)
  | GServe                                          (* in Serve *)
  | GSecond                                         (* Loop: waits for a second signal *)
  | SDone                                           (* Shutdown: done or ctx *)
  | SResult.                                        (* Shutdown: read result *)

Record Local := mkLocal { at_pc : pc; todo : list call; rets : list ret }.

Definition goto (l : Local) (p : pc) : Local := mkLocal p (todo l) (rets l).
Definition return_ (l : Local) (x : ret) : Local := mkLocal Ready (todo l) (rets l ++ [x]).

Definition log (s : Sh) (ev : event) : Sh :=
  mkSh (state s) (doneMade s) (doneClosed s) (forceMade s) (forceClosed s) (forced s) (stopMade s)
    (stopCalled s) (parentDone s) (signals s) (aborted s) (started s) (served s) (draining s) (drainDone s)
    (result s) (events s ++ [ev]) (crashed s).
Definition setState (s : Sh) (st : State) : Sh :=
  mkSh st (doneMade s) (doneClosed s) (forceMade s) (forceClosed s) (forced s) (stopMade s)
    (stopCalled s) (parentDone s) (signals s) (aborted s) (started s) (served s) (draining s) (drainDone s)
    (result s) (events s) (crashed s).
(** [begin], past its check. *)
Definition begin_ (s : Sh) : Sh :=
  mkSh StateStarting true (doneClosed s) true (forceClosed s) (forced s) true
    (stopCalled s) (parentDone s) (signals s) (aborted s) (started s) (served s) (draining s) (drainDone s)
    (result s) (events s) (crashed s).
(** [s.stop()]: a nil function panics. *)
Definition call_stop (s : Sh) : Sh :=
  mkSh (state s) (doneMade s) (doneClosed s) (forceMade s) (forceClosed s) (forced s) (stopMade s)
    true (parentDone s) (signals s) (aborted s) (started s) (served s) (draining s) (drainDone s)
    (result s) (events s) (crashed s || negb (stopMade s)).
Definition close_force (s : Sh) : Sh :=
  mkSh (state s) (doneMade s) (doneClosed s) (forceMade s) true true (stopMade s)
    (stopCalled s) (parentDone s) (signals s) (aborted s) (started s) (served s) (draining s) (drainDone s)
    (result s) (events s) (crashed s || negb (forceMade s) || forceClosed s).
Definition set_parent (s : Sh) : Sh :=
  mkSh (state s) (doneMade s) (doneClosed s) (forceMade s) (forceClosed s) (forced s) (stopMade s)
    (stopCalled s) true (signals s) (aborted s) (started s) (served s) (draining s) (drainDone s)
    (result s) (events s) (crashed s).
(** [signal.Notify] drops a signal when the channel's two places are taken. *)
Definition set_signals (s : Sh) (n : nat) : Sh :=
  mkSh (state s) (doneMade s) (doneClosed s) (forceMade s) (forceClosed s) (forced s) (stopMade s)
    (stopCalled s) (parentDone s) n (aborted s) (started s) (served s) (draining s) (drainDone s)
    (result s) (events s) (crashed s).
Definition abort (s : Sh) : Sh :=
  mkSh (state s) (doneMade s) (doneClosed s) (forceMade s) (forceClosed s) (forced s) (stopMade s)
    (stopCalled s) (parentDone s) (signals s) true (started s) (served s) (draining s) (drainDone s)
    (result s) (events s) (crashed s).
Definition set_served (s : Sh) (st : bool) (v : option (option Err)) : Sh :=
  mkSh (state s) (doneMade s) (doneClosed s) (forceMade s) (forceClosed s) (forced s) (stopMade s)
    (stopCalled s) (parentDone s) (signals s) (aborted s) st v (draining s) (drainDone s)
    (result s) (events s) (crashed s).
Definition set_drain (s : Sh) (dr dn : bool) : Sh :=
  mkSh (state s) (doneMade s) (doneClosed s) (forceMade s) (forceClosed s) (forced s) (stopMade s)
    (stopCalled s) (parentDone s) (signals s) (aborted s) (started s) (served s) dr dn
    (result s) (events s) (crashed s).
(** [finish(result)] *)
Definition finish (s : Sh) (e : option Err) : Sh :=
  mkSh StateStopped (doneMade s) true (forceMade s) (forceClosed s) (forced s) (stopMade s)
    true (parentDone s) (signals s) (aborted s) (started s) (served s) (draining s) (drainDone s)
    e (events s) (crashed s || negb (stopMade s) || negb (doneMade s) || doneClosed s).

Definition stopRequested (s : Sh) : bool := stopCalled s || parentDone s.

Section machine.
Context (cfg : Config).

(** [onStop]: the hook's error, and the call. *)
Definition onStop (s : Sh) : Sh * option Err :=
  match OnStop cfg with None => (s, None) | Some o => (log s EvStop, protect "stop" o) end.

Definition report (s : Sh) (e : option Err) : Sh * option Err :=
  match e, OnError cfg with
  | Some x, Some None => (log s (EvError x), e)
  | Some x, Some (Some v) => (log s (EvError x), errors_Join [e; Some (Panicked "error hook" v)])
  | _, _ => (s, e)
  end.

(** [Stop]; [refused] and [l'] are what its caller does next. *)
Definition stop_call (s : Sh) (refused l' : Local) : list (Sh * Local) :=
  if bool_decide (state s = StateNew) || bool_decide (state s = StateStopped)
  then [(s, refused)] else [(call_stop s, l')].

Definition forceAbort (s : Sh) : Sh := if forceMade s && negb (forced s) then close_force s else s.

(** Loop's signal goroutine: the first signal calls cancel(), the second
    aborts; it ends when Loop has returned. *)
Definition Loop_first (s : Sh) (l : Local) : list (Sh * Local) :=
  match signals s with
  | O => []
  | S n => [(set_parent (set_signals s n), goto l GSecond)]
  end ++ (if doneClosed s then [(s, l)] else []).
Definition Loop_second (s : Sh) (l : Local) : list (Sh * Local) :=
  match signals s with
  | O => []
  | S n => [(forceAbort (set_signals s n), goto l Ready)]
  end ++ (if doneClosed s then [(s, goto l Ready)] else []).

(** The goroutine in Serve sends what it returns, or the panic, to [served]. *)
Definition Serve_returns (s : Sh) (l : Local) : list (Sh * Local) :=
  match Serve cfg with
  | Own o => [(set_served s (started s) (Some (protect "serve" o)), goto l Ready)]
  | OnAbort o =>
      if aborted s then [(set_served s (started s) (Some (protect "serve" o)), goto l Ready)] else []
  | Never => []
  end.

(** Shutdown, after Stop: the loop's end or the caller's context. *)
Definition Shutdown_wait (s : Sh) (l : Local) : list (Sh * Local) :=
  (if doneClosed s then [(s, goto l SResult)] else []) ++ [(s, return_ l RetShutdownCtx)].

Definition start (s : Sh) (l : Local) (c : call) : list (Sh * Local) :=
  match c with
  | CLoop =>
      if negb (hasService cfg) then [(s, return_ l (RetLoop (Some ErrServiceRequired)))]
      else if bool_decide (state s = StateNew)
      then [(begin_ s, goto l match OnStart cfg with Some _ => LStart | None => LRunning end)]
      else [(s, return_ l (RetLoop (Some ErrAlreadyRunning)))]
  | CStop =>
      stop_call s (return_ l (RetStop (Some ErrNotRunning))) (return_ l (RetStop None))
  | CShutdown => stop_call s (return_ l (RetShutdown (Some ErrNotRunning))) (goto l SDone)
  | CState => [(s, return_ l (RetState (state s)))]
  | CForce => [(forceAbort s, l)]
  | CCancel => [(set_parent s, l)]
  | CSignal => [(set_signals s (Nat.min 2 (S (signals s))), l)]
  | CSignals => Loop_first s l
  | CServe =>
      if started s then [(set_served (log s EvServe) false (served s), goto l GServe)] else []
  | CWatch =>
      if draining s then
        (if forceClosed s then [(set_drain s true true, l)] else []) ++
        (if drainDone s then [(s, l)] else [])
      else []
  end.

Definition next (s : Sh) (l : Local) : list (Sh * Local) :=
  match at_pc l with
  | Ready => match todo l with [] => [] | c :: rest => start s (mkLocal Ready rest (rets l)) c end
  | LStart =>
      match OnStart cfg with
      | None => [(s, goto l LRunning)]
      | Some o =>
          [(log s EvStart, goto l match protect "start" o with
                                  | Some e => LStartShutdown e | None => LRunning end)]
      end
  | LStartShutdown e =>
      [(log s EvShutdown, goto l (LStartStop e (protect "shutdown" (SvcShutdown cfg))))]
  | LStartStop e sh =>
      let '(s', st) := onStop s in [(s', goto l (LReport (errors_Join [Some e; sh; st])))]
  | LRunning => [(setState s StateRunning, goto l LServe)]
  | LServe => [(set_served s true None, goto l LSelect)]
  | LSelect =>
      match served s with
      | Some e => [(set_served s (started s) None, goto l (LStopping e true))]
      | None => []
      end ++ (if stopRequested s then [(s, goto l (LStopping None false))] else [])
  | LStopping sv b => [(setState s StateStopping, goto l (LDrain sv b))]
  | LDrain sv b => [(set_drain s true false, goto l (LShutdown sv b))]
  | LShutdown sv b =>
      let sh := protect "shutdown" (SvcShutdown cfg) in
      [(log s EvShutdown, goto l (if b then LOnStop sv sh else LAbort sh))]
  | LAbort sh => [(abort s, goto l (LWait sh))]
  | LWait sh =>
      match served s with
      | Some e => [(set_served s (started s) None, goto l (LOnStop e sh))]
      | None => []
      end ++ [(s, goto l (LOnStop (Some ErrAbortTimeout) sh))]   (* AbortGrace is over *)
  | LOnStop sv sh =>
      let '(s', st) := onStop s in
      [(s', goto l (LReport (errors_Join [sv; ignoreCanceled sh; st])))]
  | LReport e => let '(s', e') := report s e in [(s', goto l (LFinish e'))]
  | LFinish e =>
      [(finish (abort (set_drain s (draining s) true)) e, return_ l (RetLoop e))]
  | GServe => Serve_returns s l
  | GSecond => Loop_second s l
  | SDone => Shutdown_wait s l
  | SResult => [(s, return_ l (RetShutdown (result s)))]
  end.
End machine.

(** [NewServer], and goroutines that make these calls; the two goroutines
    LoopContext starts wait for it. *)
Definition new_server : Sh :=
  mkSh StateNew true false false false false false false false 0 false false None false false None [] false.
Definition init (progs : list (list call)) : conf :=
  Conf new_server ((λ cs, mkLocal Ready cs []) <$> progs ++ [[CServe]; [CWatch]]).

(** * Invariants *)

Definition in_loop (p : pc) : bool :=
  match p with Ready | GServe | GSecond | SDone | SResult => false | _ => true end.

Section inv.
Context (cfg : Config).
Local Abbreviation next := (next cfg).

Definition start_events : list event := match OnStart cfg with Some _ => [EvStart] | None => [] end.
Definition stop_events : list event := match OnStop cfg with Some _ => [EvStop] | None => [] end.
Definition error_events (e : option Err) : list event :=
  match e, OnError cfg with Some x, Some _ => [EvError x] | _, _ => [] end.

(** The calls of LoopContext's own goroutine in a run whose OnStart failed, and
    in one whose OnStart did not, up to the report. *)
Definition failed_events : list event := [EvStart; EvShutdown] ++ stop_events.
Definition run_events : list event := start_events ++ [EvShutdown] ++ stop_events.

Definition start_fails : option Err := o ← OnStart cfg; protect "start" o.
Definition before_report : list event :=
  match start_fails with Some _ => failed_events | None => run_events end.

(** Serve is called in a goroutine of its own. *)
Definition is_serve (ev : event) : bool := match ev with EvServe => true | _ => false end.
Definition loop_events (evs : list event) : list event := filter (λ ev, is_serve ev = false) evs.

(** Serve has not been started. *)
Definition not_served (s : Sh) : Prop := started s = false ∧ served s = None ∧ EvServe ∉ events s.

(** What Serve's goroutine sends, if it ever does. *)
Definition serve_result : option (option Err) :=
  match Serve cfg with Own o | OnAbort o => Some (protect "serve" o) | Never => None end.

(** The error joined for Serve: its own, after a call of it, or the end of the
    grace. *)
Definition serve_error (s : Sh) (sv : option Err) : Prop :=
  EvServe ∈ events s ∧ serve_result = Some sv.
Definition final_serve_error (s : Sh) (sv : option Err) : Prop :=
  sv = Some ErrAbortTimeout ∨ serve_error s sv.

Definition stop_error : option Err := o ← OnStop cfg; protect "stop" o.

(** The errors LoopContext joins at its end. *)
Definition joined (s : Sh) (e : option Err) : Prop :=
  match start_fails with
  | Some x =>
      not_served s ∧
      e = errors_Join [Some x; protect "shutdown" (SvcShutdown cfg); stop_error]
  | None =>
      ∃ sv, final_serve_error s sv ∧
        e = errors_Join [sv; ignoreCanceled (protect "shutdown" (SvcShutdown cfg));
                         stop_error]
  end.

(** What the run has done when its goroutine is at [p]. *)
Definition phase (p : pc) (s : Sh) : Prop :=
  let st := state s in let evs := loop_events (events s) in
  match p with
  | LStart => st = StateStarting ∧ evs = [] ∧ is_Some (OnStart cfg) ∧ not_served s
  | LStartShutdown e => st = StateStarting ∧ evs = [EvStart] ∧ start_fails = Some e ∧ not_served s
  | LStartStop e sh =>
      st = StateStarting ∧ evs = [EvStart; EvShutdown] ∧ start_fails = Some e ∧ not_served s ∧
      sh = protect "shutdown" (SvcShutdown cfg)
  | LRunning => st = StateStarting ∧ evs = start_events ∧ start_fails = None ∧ not_served s
  | LServe => st = StateRunning ∧ evs = start_events ∧ start_fails = None ∧ not_served s
  | LSelect => st = StateRunning ∧ evs = start_events ∧ start_fails = None
  | LStopping sv b =>
      st = StateRunning ∧ evs = start_events ∧ start_fails = None ∧ (b = true → serve_error s sv)
  | LDrain sv b | LShutdown sv b =>
      st = StateStopping ∧ evs = start_events ∧ start_fails = None ∧ (b = true → serve_error s sv)
  | LAbort sh | LWait sh =>
      st = StateStopping ∧ evs = start_events ++ [EvShutdown] ∧ start_fails = None ∧
      sh = protect "shutdown" (SvcShutdown cfg)
  | LOnStop sv sh =>
      st = StateStopping ∧ evs = start_events ++ [EvShutdown] ∧ start_fails = None ∧
      sh = protect "shutdown" (SvcShutdown cfg) ∧ final_serve_error s sv
  | LReport e =>
      (st = StateStarting ∨ st = StateStopping) ∧ evs = before_report ∧ joined s e
  | _ => False
  end.

(** The error LoopContext returns for the joined error [e]. *)
Definition reported (e : option Err) : option Err :=
  match e, OnError cfg with
  | Some _, Some (Some v) => errors_Join [e; Some (Panicked "error hook" v)]
  | _, _ => e
  end.

(** A whole run with result [r]. *)
Definition whole_run (s : Sh) (r : option Err) : Prop :=
  ∃ e, loop_events (events s) = before_report ++ error_events e ∧ joined s e ∧ r = reported e.

(** Serve is called at most once, and after OnStart. *)
Definition serve_calls (evs : list event) : Prop :=
  EvServe ∉ evs ∨
  ∃ pre post, evs = pre ++ EvServe :: post ∧ (EvServe ∉ pre) ∧ (EvServe ∉ post) ∧
    (start_events `prefix_of` pre) ∧ start_fails = None.

Record wf (s : Sh) : Prop := {
  wf_done : doneMade s = true;
  wf_force : forceClosed s = forced s;
  wf_made : forceClosed s = true → forceMade s = true;
  wf_crash : crashed s = false;
  wf_calls : serve_calls (events s);
  wf_started : started s = true →
    (EvServe ∉ events s) ∧ (start_events `prefix_of` events s) ∧ start_fails = None;
  wf_served : ∀ sv, served s = Some sv → serve_error s sv }.

Definition idle_procs (ps : list Local) : Prop := Forall (λ l, in_loop (at_pc l) = false) ps.

Inductive status (s : Sh) (ps : list Local) : Prop :=
  | Fresh :
      state s = StateNew → idle_procs ps → events s = [] → not_served s → stopMade s = false →
      doneClosed s = false → status s ps
  | Running i l :
      ps !! i = Some l → in_loop (at_pc l) = true →
      (∀ j l', j ≠ i → ps !! j = Some l' → in_loop (at_pc l') = false) →
      (phase (at_pc l) s ∨
       ∃ e, at_pc l = LFinish e ∧ (state s = StateStarting ∨ state s = StateStopping) ∧
            whole_run s e) →
      stopMade s = true → doneClosed s = false → status s ps
  | Over :
      state s = StateStopped → idle_procs ps → whole_run s (result s) →
      stopMade s = true → doneClosed s = true → status s ps.

(** What callers have been told. *)
Definition ret_ok (s : Sh) (x : ret) : Prop :=
  match x with
  | RetLoop e => e = Some ErrAlreadyRunning ∨ e = Some ErrServiceRequired ∨
                 (state s = StateStopped ∧ e = result s)
  | RetShutdown e => e = Some ErrNotRunning ∨ (state s = StateStopped ∧ e = result s)
  | _ => True
  end.
Definition local_ok (s : Sh) (l : Local) : Prop :=
  (at_pc l = SResult → state s = StateStopped) ∧ Forall (ret_ok s) (rets l) ∧
  (at_pc l = GServe → EvServe ∈ events s).

(** ** The steps of goroutines outside LoopContext *)

Definition quiet (s s' : Sh) : Prop :=
  state s' = state s ∧ loop_events (events s') = loop_events (events s) ∧
  stopMade s' = stopMade s ∧ doneClosed s' = doneClosed s ∧ result s' = result s ∧
  (not_served s → not_served s' ∧ events s' = events s) ∧
  (EvServe ∈ events s → EvServe ∈ events s').

Lemma quiet_same s s' :
  state s' = state s → events s' = events s → stopMade s' = stopMade s →
  doneClosed s' = doneClosed s → result s' = result s → started s' = started s →
  (served s' = served s ∨ EvServe ∈ events s) → quiet s s'.
Proof.
  intros E1 E2 E3 E4 E5 E6 E7. unfold quiet, not_served. rewrite E2. split_and!; try done.
  rewrite E6. intros (? & ? & ?). split_and!; try done. destruct E7; congruence.
Qed.

Lemma serve_error_quiet s s' sv : quiet s s' → serve_error s sv → serve_error s' sv.
Proof. intros (_ & _ & _ & _ & _ & _ & Hs) [? ?]. by split; [apply Hs|]. Qed.

Lemma final_serve_error_quiet s s' sv :
  quiet s s' → final_serve_error s sv → final_serve_error s' sv.
Proof. intros Hq [?|?]; [by left|right]. by eapply serve_error_quiet. Qed.

Lemma joined_quiet s s' e : quiet s s' → joined s e → joined s' e.
Proof.
  intros Hq. unfold joined. destruct start_fails.
  - destruct Hq as (_ & _ & _ & _ & _ & Hn & _). by intros [[? ?]%Hn ->].
  - intros (sv & Hsv & ->). exists sv. split; [by eapply final_serve_error_quiet|done].
Qed.

Lemma phase_quiet s s' p : quiet s s' → phase p s → phase p s'.
Proof.
  intros Hq Hp. pose proof Hq as (E1 & E2 & _ & _ & _ & Hn & _). unfold phase in *.
  rewrite E1, E2. destruct p; try done; destruct_and?; split_and!; try done;
    eauto using serve_error_quiet, final_serve_error_quiet, joined_quiet; by apply Hn.
Qed.

Lemma whole_run_quiet s s' r : quiet s s' → whole_run s r → whole_run s' r.
Proof.
  intros Hq (e & He & Hj & ->). exists e. split_and!; [|by eapply joined_quiet|done].
  destruct Hq as (_ & -> & _). done.
Qed.

Lemma ret_ok_quiet s s' x : quiet s s' → ret_ok s x → ret_ok s' x.
Proof. intros (E1 & _ & _ & _ & E2 & _). unfold ret_ok. by rewrite E1, E2. Qed.

(** The only ways a caller's view changes: nothing, or one more result. *)
Definition extends (s : Sh) (l l' : Local) : Prop :=
  rets l' = rets l ∨ ∃ x, rets l' = rets l ++ [x] ∧ ret_ok s x.

Lemma local_ok_quiet s l s' l' :
  quiet s s' → local_ok s l → (at_pc l' = SResult → state s = StateStopped) →
  (at_pc l' = GServe → EvServe ∈ events s') → extends s' l l' → local_ok s' l'.
Proof.
  intros Hq (_ & Hr & _) Hpc Hg Hx. split; [destruct Hq as [-> _]; done|]. split; [|done].
  assert (Forall (ret_ok s') (rets l)) as Hr'.
  { eapply Forall_impl; [exact Hr|]. intros. by eapply ret_ok_quiet. }
  destruct Hx as [->|(x & -> & Hx)]; [done|]. by apply Forall_app_2; [|constructor].
Qed.

Lemma wf_call_stop s : wf s → stopMade s = true → wf (call_stop s).
Proof. intros [? ? ? Hc] Hs. split; simpl; try done. by rewrite Hc, Hs. Qed.

Lemma wf_forceAbort s : wf s → wf (forceAbort s) ∧ quiet s (forceAbort s).
Proof.
  intros Hwf. pose proof Hwf as [? Hf Hm Hc]. unfold forceAbort.
  destruct (forceMade s && negb (forced s)) eqn:E; [|split; [done|by apply quiet_same; auto]].
  apply andb_true_iff in E as [Em Ef%negb_true_iff]. split; [|by apply quiet_same; auto].
  split; simpl; try done. by rewrite Hc, Em, Hf, Ef.
Qed.

Lemma wf_same s s' :
  wf s → doneMade s' = doneMade s → forceClosed s' = forceClosed s → forced s' = forced s →
  forceMade s' = forceMade s → crashed s' = crashed s → events s' = events s →
  started s' = started s → (served s' = served s ∨ served s' = None) → wf s'.
Proof.
  intros [? ? ? ? Hc Hst Hsv] E1 E2 E3 E4 E5 E6 E7 E8. unfold serve_error in *.
  split; try congruence; unfold serve_error; rewrite ?E2, ?E4, ?E6, ?E7; try done.
  destruct E8 as [-> | ->]; done.
Qed.

Lemma elem_of_log (ev : event) evs : ev ≠ EvServe → EvServe ∉ evs → EvServe ∉ evs ++ [ev].
Proof. intros ? ?. rewrite elem_of_app, list_elem_of_singleton. naive_solver. Qed.

Lemma loop_events_log ev evs :
  loop_events (evs ++ [ev]) = loop_events evs ++ (if is_serve ev then [] else [ev]).
Proof. unfold loop_events. rewrite filter_app. by destruct ev. Qed.

(** A call by LoopContext's goroutine. *)
Lemma wf_log s ev : ev ≠ EvServe → wf s → wf (log s ev).
Proof.
  intros Hev [? ? ? ? Hc Hst Hsv]. split; simpl; try done.
  - destruct Hc as [?|(pre & post & E & ? & ? & ? & ?)]; [left; by apply elem_of_log|right].
    exists pre, (post ++ [ev]). rewrite E, <- (assoc_L (++)). split_and!; try done. by apply elem_of_log.
  - intros (? & ? & ?)%Hst. split_and!; [by apply elem_of_log|by apply prefix_app_r|done].
  - intros sv [? ?]%Hsv. split; [|done]. apply elem_of_app. by left.
Qed.

(** The goroutine LoopContext started calls Serve, and Serve returns. *)
Lemma serve_called s :
  wf s → started s = true →
  wf (set_served (log s EvServe) false (served s)) ∧
  quiet s (set_served (log s EvServe) false (served s)).
Proof.
  intros [? ? ? ? Hc Hst Hsv] Hs. destruct (Hst Hs) as (Hno & Hpre & Hf). split.
  - split; simpl; try done.
    + right. exists (events s), []. split_and!; try done. apply not_elem_of_nil.
    + intros sv [? _]%Hsv. done.
  - unfold quiet. simpl. rewrite loop_events_log, app_nil_r. split_and!; try done.
    intros [E _]. congruence.
Qed.

Lemma serve_returned s sv :
  wf s → EvServe ∈ events s → serve_result = Some sv →
  wf (set_served s (started s) (Some sv)) ∧ quiet s (set_served s (started s) (Some sv)).
Proof.
  intros [? ? ? ? Hc Hst Hsv] Hs Hr. split; [|by apply quiet_same; auto].
  split; simpl; try done. by intros sv' [= <-].
Qed.

(** LoopContext's [go] statement. *)
Lemma wf_go s :
  wf s → not_served s → start_events `prefix_of` events s → start_fails = None →
  wf (set_served s true None).
Proof. intros [? ? ? ? Hc Hst Hsv] (? & ? & ?) ? ?. by split. Qed.

Lemma loop_events_unserved evs : EvServe ∉ evs → loop_events evs = evs.
Proof.
  induction evs as [|ev evs IH]; [done|]. rewrite not_elem_of_cons. intros [? ?].
  unfold loop_events in *. rewrite filter_cons. rewrite IH by done. by destruct ev.
Qed.

Ltac same_wf := eapply wf_same; [eassumption|reflexivity..|first [by left|by right]].
Ltac same_quiet := apply quiet_same; [reflexivity..|by left].
Ltac server_facts :=
  repeat match goal with
    | E : bool_decide _ = true |- _ => apply bool_decide_eq_true in E
    | E : bool_decide _ = false |- _ => apply bool_decide_eq_false in E
    | E : _ || _ = false |- _ => apply orb_false_iff in E as [? ?]
    | E : _ && _ = true |- _ => apply andb_true_iff in E as [? ?]
    end.

Lemma next_other s l s' l' :
  wf s → (state s ≠ StateNew → stopMade s = true) → (doneClosed s = true → state s = StateStopped) →
  local_ok s l → in_loop (at_pc l) = false → (s', l') ∈ next s l →
  (quiet s s' ∧ wf s' ∧ in_loop (at_pc l') = false ∧
   (at_pc l' = SResult → state s = StateStopped) ∧
   (at_pc l' = GServe → EvServe ∈ events s') ∧ extends s' l l') ∨
  (state s = StateNew ∧ s' = begin_ s ∧
   (at_pc l' = LStart ∧ is_Some (OnStart cfg) ∨ at_pc l' = LRunning ∧ OnStart cfg = None) ∧
   rets l' = rets l).
Proof.
  intros Hwf Hsm Hdc (Hres & Hrets & Hgs) Hin Hn.
  unfold Server.next, start, stop_call, Loop_first, Loop_second, Serve_returns, Shutdown_wait in Hn.
  destruct (at_pc l) eqn:Hpc; try done.
  - destruct (todo l) as [|c rest]; [by inv_elem|].
    destruct c; repeat case_match; inv_elem; server_facts.
    all: try (right; split_and!; try done; simpl; by eauto).
    all: left.
    all: try (destruct (wf_forceAbort s Hwf); split_and!; try done; by left).
    all: try (destruct (serve_called s Hwf); [done|]; split_and!; try done; [|by left];
              intros _; apply elem_of_app; right; left).
    all: try (split_and!; [by same_quiet|by apply wf_call_stop; auto|done..|];
              first [by left | right; eexists; split; [done|by simpl; auto]]).
    all: try (split_and!; [by same_quiet|by same_wf|done..|];
              first [by left | right; eexists; split; [done|by simpl; auto]]).
  - left. assert (EvServe ∈ events s) as Hs by auto.
    repeat case_match; inv_elem;
      match goal with E : Serve cfg = _ ?o |- _ =>
        destruct (serve_returned s (protect "serve" o) Hwf Hs); [unfold serve_result; by rewrite E|]
      end; split_and!; try done; by left.
  - repeat case_match; inv_elem; left;
      try (destruct (wf_forceAbort (set_signals s n)); [by same_wf|]);
      (split_and!; [first [done|by same_quiet]|first [done|by same_wf]|done..|by left]).
  - left. repeat case_match; inv_elem; split_and!; try done; try (by same_quiet); auto;
      first [by left|right; eexists; by split].
  - inv_elem. left. split_and!; try done; try (by same_quiet).
    right. eexists. split; [done|]. simpl. auto.
Qed.

(** ** The steps of LoopContext *)

Definition progress_of (l : Local) (s : Sh) : Prop :=
  phase (at_pc l) s ∨
  ∃ e, at_pc l = LFinish e ∧ (state s = StateStarting ∨ state s = StateStopping) ∧ whole_run s e.

(** LoopContext's goroutine has made the calls [evs], and changed nothing else
    that the invariant speaks of. *)
Record calls (s s' : Sh) (evs : list event) : Prop := {
  ca_events : events s' = events s ++ evs;
  ca_serve : EvServe ∉ evs;
  ca_started : started s' = started s;
  ca_served : served s' = served s;
  ca_state : state s' = state s;
  ca_stop : stopMade s' = stopMade s;
  ca_done : doneClosed s' = doneClosed s;
  ca_wf : wf s → wf s' }.

Lemma calls_nil s : calls s s [].
Proof. split; try done; [by rewrite app_nil_r|apply not_elem_of_nil]. Qed.

Lemma calls_log s ev : ev ≠ EvServe → calls s (log s ev) [ev].
Proof.
  intros Hev. split; try done; [|by apply wf_log]. rewrite list_elem_of_singleton. congruence.
Qed.

Lemma calls_loop_events s s' evs :
  calls s s' evs → loop_events (events s') = loop_events (events s) ++ evs.
Proof.
  intros [-> Hs _ _ _ _ _ _]. unfold loop_events at 1. rewrite filter_app. f_equal.
  by apply loop_events_unserved.
Qed.

Lemma calls_not_served s s' evs : calls s s' evs → not_served s → not_served s'.
Proof.
  intros [E1 Hs E2 E3 _ _ _ _] (? & ? & ?). unfold not_served.
  rewrite E1, E2, E3, elem_of_app. naive_solver.
Qed.

Lemma calls_serve_error s s' evs sv : calls s s' evs → serve_error s sv → serve_error s' sv.
Proof. intros [E1 _ _ _ _ _ _ _] [? ?]. split; [|done]. rewrite E1, elem_of_app. by left. Qed.

Lemma calls_final s s' evs sv : calls s s' evs → final_serve_error s sv → final_serve_error s' sv.
Proof. intros Hc [?|?]; [by left|right; by eapply calls_serve_error]. Qed.

Lemma calls_joined s s' evs e : calls s s' evs → joined s e → joined s' e.
Proof.
  intros Hc. unfold joined. destruct start_fails.
  - intros [? ->]. split; [by eapply calls_not_served|done].
  - intros (sv & ? & ->). exists sv. split; [by eapply calls_final|done].
Qed.

Lemma onStop_spec s s' st : onStop cfg s = (s', st) → st = stop_error ∧ calls s s' stop_events.
Proof.
  unfold onStop, stop_error, stop_events. destruct (OnStop cfg); intros ?; simplify_eq/=;
    (split; [done|]); [by apply calls_log|apply calls_nil].
Qed.

Lemma report_spec s e s' e' : report cfg s e = (s', e') → e' = reported e ∧ calls s s' (error_events e).
Proof.
  unfold report, reported, error_events.
  destruct e as [x|], (OnError cfg) as [[v|]|]; intros ?; simplify_eq/=;
    (split; [done|]); first [by apply calls_log|apply calls_nil].
Qed.

(** A step that goes on, or the one that ends the run. *)
Definition goes_on (s : Sh) (l : Local) (s' : Sh) (l' : Local) : Prop :=
  in_loop (at_pc l') = true ∧ progress_of l' s' ∧ doneClosed s' = false ∧ rets l' = rets l ∧
  rank (state s) <= rank (state s').
Definition ends (s : Sh) (l : Local) (s' : Sh) (l' : Local) : Prop :=
  at_pc l' = Ready ∧ state s' = StateStopped ∧ whole_run s' (result s') ∧
  doneClosed s' = true ∧ rets l' = rets l ++ [RetLoop (result s')] ∧
  rank (state s) <= rank (state s').
Definition loop_step (s : Sh) (l : Local) (s' : Sh) (l' : Local) : Prop :=
  wf s' ∧ stopMade s' = true ∧ (goes_on s l s' l' ∨ ends s l s' l').

Lemma loop_step_goes_on s l s1 p :
  stopMade s = true → doneClosed s = false →
  wf s1 → stopMade s1 = stopMade s → doneClosed s1 = doneClosed s → in_loop p = true →
  phase p s1 → rank (state s) <= rank (state s1) →
  loop_step s l s1 (goto l p).
Proof.
  intros Hsm Hdc ? E1 E2 ? ? ?. split_and!; [done|congruence|]. left.
  split_and!; try done; [by left|congruence].
Qed.

Lemma loop_step_end s l e :
  wf s → stopMade s = true → doneClosed s = false → whole_run s e →
  loop_step s l (finish (abort (set_drain s (draining s) true)) e) (return_ l (RetLoop e)).
Proof.
  intros [Hdm Hf Hm Hc] Hsm Hdc Hrun. split_and!; [|done|].
  - split; simpl; try done. by rewrite Hc, Hsm, Hdm, Hdc.
  - right. split_and!; try done. simpl. by destruct (state s).
Qed.

(** A step of LoopContext that calls user code. *)
Lemma loop_step_calls s l s1 p evs :
  wf s → stopMade s = true → doneClosed s = false → calls s s1 evs → in_loop p = true →
  phase p s1 → loop_step s l s1 (goto l p).
Proof.
  intros Hwf Hsm Hdc Hc Hp Hph. pose proof (ca_state _ _ _ Hc) as E. apply loop_step_goes_on; try done.
  - by apply (ca_wf _ _ _ Hc).
  - apply Hc.
  - apply Hc.
  - by rewrite E.
Qed.

Lemma next_loop_start s l s' l' :
  wf s → in_loop (at_pc l) = true → phase (at_pc l) s → stopMade s = true → doneClosed s = false →
  match at_pc l with
  | LStart | LStartShutdown _ | LStartStop _ _ | LRunning | LServe => True
  | _ => False
  end → (s', l') ∈ next s l → loop_step s l s' l'.
Proof.
  intros Hwf Hin Hph Hsm Hdc Hpcs Hn. unfold Server.next in Hn. unfold phase in Hph.
  destruct (at_pc l) eqn:Hpc; try done; clear Hpcs Hin.
  - destruct Hph as (Hst & Hev & [o Eo] & Hns). rewrite Eo in Hn. inv_elem.
    pose proof (calls_log s EvStart ltac:(done)) as Hc.
    pose proof (calls_loop_events _ _ _ Hc) as Hle. pose proof (calls_not_served _ _ _ Hc Hns).
    eapply loop_step_calls; try done; [by case_match|].
    unfold phase. rewrite Hle, Hev. unfold start_events, start_fails. rewrite Eo.
    destruct (protect "start" o) eqn:Ep; simpl; by rewrite ?Ep.
  - destruct Hph as (Hst & Hev & Hf & Hns). inv_elem.
    pose proof (calls_log s EvShutdown ltac:(done)) as Hc. eapply loop_step_calls; try done.
    unfold phase. rewrite (calls_loop_events _ _ _ Hc), Hev.
    split_and!; try done. by eapply calls_not_served.
  - destruct Hph as (Hst & Hev & Hf & Hns & ->).
    destruct (onStop cfg s) as [s1 st] eqn:Eon. apply onStop_spec in Eon as (-> & Hc). inv_elem.
    eapply loop_step_calls; try done. unfold phase, before_report, joined.
    rewrite (calls_loop_events _ _ _ Hc), Hev, (ca_state _ _ _ Hc), Hf. split_and!; auto.
    by eapply calls_not_served.
  - destruct Hph as (Hst & Hev & Hf & Hns). inv_elem.
    apply loop_step_goes_on; try done; [by same_wf|by rewrite Hst].
  - destruct Hph as (Hst & Hev & Hf & Hns). inv_elem.
    apply loop_step_goes_on; try done. apply wf_go; try done.
    rewrite <- Hev, loop_events_unserved by apply Hns. done.
Qed.

Lemma next_loop s l s' l' :
  wf s → in_loop (at_pc l) = true → progress_of l s → stopMade s = true → doneClosed s = false →
  (s', l') ∈ next s l → loop_step s l s' l'.
Proof.
  intros Hwf Hin Hpr Hsm Hdc Hn.
  destruct Hpr as [Hph|(e & Hpc & Hst & Hrun)].
  2: { unfold Server.next in Hn. rewrite Hpc in Hn. inv_elem. by apply loop_step_end. }
  pose proof (next_loop_start s l s' l' Hwf Hin Hph Hsm Hdc) as Hstart.
  unfold phase in Hph. destruct (at_pc l) eqn:Hpc; try done; try (by apply Hstart); clear Hstart;
    unfold Server.next in Hn; rewrite Hpc in Hn.
  - destruct Hph as (Hst & Hev & Hf).
    destruct (served s) as [sv|] eqn:Es, (stopRequested s); inv_elem;
      (apply loop_step_goes_on; try done; try (by same_wf));
      split_and!; try done; intros _; by apply (wf_served _ Hwf).
  - destruct Hph as (Hst & Hev & Hf & Hsv). inv_elem.
    apply loop_step_goes_on; try done; [by same_wf|by rewrite Hst].
  - destruct Hph as (Hst & Hev & Hf & Hsv). inv_elem. apply loop_step_goes_on; try done; by same_wf.
  - destruct Hph as (Hst & Hev & Hf & Hsv). inv_elem.
    pose proof (calls_log s EvShutdown ltac:(done)) as Hc.
    pose proof (calls_loop_events _ _ _ Hc) as Hle.
    eapply loop_step_calls; try done; [by case_match|].
    destruct returned; unfold phase; rewrite Hle, Hev; split_and!; try done.
    right. eapply calls_serve_error; [exact Hc|auto].
  - inv_elem. apply loop_step_goes_on; try done; by same_wf.
  - destruct (served s) as [sv|] eqn:Es; inv_elem;
      (apply loop_step_goes_on; try done; try (by same_wf)); destruct_and?; split_and!; try done;
      first [right; by apply (wf_served _ Hwf)|by left].
  - destruct Hph as (Hst & Hev & Hf & -> & Hsv).
    destruct (onStop cfg s) as [s1 st] eqn:Eon. apply onStop_spec in Eon as (-> & Hc). inv_elem.
    eapply loop_step_calls; try done. unfold phase, before_report, joined.
    rewrite (calls_loop_events _ _ _ Hc), Hev, (ca_state _ _ _ Hc), Hf. split_and!; [auto| |].
    + unfold run_events. by rewrite <- (assoc_L (++)).
    + eexists. split; [by eapply calls_final|done].
  - destruct (report cfg s e) as [s1 e'] eqn:Er. apply report_spec in Er as (-> & Hc). inv_elem.
    destruct Hph as (Hst & Hev & Hj). pose proof Hc as [_ _ _ _ Es E1 E2 Hw].
    split_and!; [auto|congruence|]. left. split_and!; try done; [|congruence|by rewrite Es].
    right. exists (reported e). split_and!; try done; [by rewrite Es|].
    exists e. split_and!; try done; [|by eapply calls_joined].
    by rewrite (calls_loop_events _ _ _ Hc), Hev.
Qed.

(** ** Whole configurations *)

Record inv (c : conf) : Prop := {
  inv_wf : wf (shared c);
  inv_status : status (shared c) (procs c);
  inv_local : Forall (local_ok (shared c)) (procs c) }.

Lemma status_facts s ps :
  status s ps → (state s ≠ StateNew → stopMade s = true) ∧
    (doneClosed s = true → state s = StateStopped).
Proof. intros [| |]; split; intros; congruence. Qed.

Lemma idle_insert ps i l : idle_procs ps → in_loop (at_pc l) = false → idle_procs (<[i:=l]> ps).
Proof. intros. by apply Forall_insert. Qed.

Lemma local_ok_others s s' ps :
  (∀ x, ret_ok s x → ret_ok s' x) → (state s = StateStopped → state s' = StateStopped) →
  (EvServe ∈ events s → EvServe ∈ events s') →
  Forall (local_ok s) ps → Forall (local_ok s') ps.
Proof.
  intros Hr Hst Hev Hps. eapply Forall_impl; [exact Hps|]. intros l (H1 & H2 & H3).
  split; [auto|split; [|auto]]. eapply Forall_impl; [exact H2|]. auto.
Qed.

(** LoopContext's goroutine forgets no call. *)
Lemma next_keeps_events s l s' l' ev :
  in_loop (at_pc l) = true → (s', l') ∈ next s l → ev ∈ events s → ev ∈ events s'.
Proof.
  intros Hin Hn Hev. unfold Server.next, onStop, report in Hn.
  destruct (at_pc l); try done; repeat case_match; inv_elem; simplify_eq/=; try done;
    apply elem_of_app; by left.
Qed.

Lemma progress_state l s : progress_of l s → state s ≠ StateNew ∧ state s ≠ StateStopped.
Proof.
  intros [Hph|(e & _ & [-> | ->] & _)]; [|done..]. unfold phase in Hph.
  destruct (at_pc l); try done; destruct_and?; destruct_or?; split; congruence.
Qed.

(** The run's own goroutine takes a step. *)
Lemma inv_loop_step s ps i l s' l' :
  inv (Conf s ps) → ps !! i = Some l → (s', l') ∈ next s l → in_loop (at_pc l) = true →
  inv (Conf s' (<[i:=l']> ps)) ∧ rank (state s) <= rank (state s').
Proof.
  intros [Hwf Hst Hloc] Hl Hn Hin. simpl in *.
  assert (local_ok s l) as Hll by (by eapply Forall_lookup_1).
  destruct Hst as [? Hid| i0 l0 Hl0 Hin0 Huniq Hpr Hsm' Hdc'|? Hid].
  1, 3: pose proof (Forall_lookup_1 _ _ _ _ Hid Hl); congruence.
  assert (i0 = i) as ->.
  { destruct (decide (i0 = i)); [done|]. rewrite (Huniq i l) in Hin by done. done. }
  assert (l0 = l) as -> by congruence. destruct (next_loop s l s' l') as (Hwf' & Hsm2 & Hcase); try done.
  assert (state s ≠ StateStopped) as Hns.
  { intros E. by apply (progress_state l s) in Hpr as [_ ?]. }
  assert (EvServe ∈ events s → EvServe ∈ events s') as Hevs by (by eapply next_keeps_events).
  assert (∀ x, ret_ok s x → ret_ok s' x) as Hret.
  { intros [e|e|e| |st]; simpl; intros; destruct_or?; destruct_and?; try done; auto. }
  destruct Hcase as [(Hin' & Hpr' & Hdc2 & Hr & Hrk)|(Hpc' & Hst' & Hrun & Hdc2 & Hr & Hrk)].
  - split; [|done]. split; simpl; [done| |].
    + apply (Running _ _ i l'); try done; [by rewrite list_lookup_insert_eq by (by eapply lookup_lt_Some)|].
      intros j m Hj Hm. rewrite list_lookup_insert_ne in Hm by done. by eapply Huniq.
    + apply Forall_insert; [by eapply local_ok_others|]. split.
      * intros E. by rewrite E in Hin'.
      * split; [|intros E; by rewrite E in Hin'].
        rewrite Hr. destruct Hll as (_ & Hll & _). eapply Forall_impl; [exact Hll|]. auto.
  - split; [|done]. split; simpl; [done| |].
    + apply Over; try done. apply Forall_lookup_2. intros j m Hm.
      apply list_lookup_insert_Some in Hm as [(<- & <- & _)|[? Hm]]; [by rewrite Hpc'|].
      by eapply Huniq.
    + apply Forall_insert; [by eapply local_ok_others|]. split_and!; [by rewrite Hpc'| |by rewrite Hpc'].
      rewrite Hr. destruct Hll as (_ & Hll & _). apply Forall_app_2; [|constructor; [simpl; auto|constructor]].
      eapply Forall_impl; [exact Hll|]. auto.
Qed.

(** Another goroutine takes a step that leaves the run as it is. *)
Lemma inv_quiet_step s ps i l s' l' :
  inv (Conf s ps) → ps !! i = Some l → in_loop (at_pc l) = false → quiet s s' → wf s' →
  in_loop (at_pc l') = false → (at_pc l' = SResult → state s = StateStopped) →
  (at_pc l' = GServe → EvServe ∈ events s') → extends s' l l' → inv (Conf s' (<[i:=l']> ps)).
Proof.
  intros [Hwf Hst Hloc] Hl Hin Hq Hwf' Hin' Hpc' Hg' Hx. simpl in *.
  assert (local_ok s l) as Hll by (by eapply Forall_lookup_1).
  pose proof Hq as (E1 & E2 & E3 & E4 & E5 & E6 & E7).
  assert (Forall (local_ok s') (<[i:=l']> ps)) as Hloc'.
  { apply Forall_insert; [|by eapply local_ok_quiet].
    apply (local_ok_others s); [|by rewrite E1|done|exact Hloc]. intros. by eapply ret_ok_quiet. }
  split; simpl; [done| |done].
  destruct Hst as [? Hid Hev Hns|i0 l0 Hl0 Hin0 Huniq Hpr|? Hid].
  - destruct (E6 Hns) as [? Ee]. apply Fresh; try congruence. by apply idle_insert.
  - assert (i0 ≠ i) by congruence.
    apply (Running _ _ i0 l0); try congruence.
    + by rewrite list_lookup_insert_ne.
    + intros j m Hj Hm. apply list_lookup_insert_Some in Hm as [(<- & <- & _)|[? Hm]]; [done|].
      by eapply Huniq.
    + destruct Hpr as [?|(e & ? & Hs & ?)]; [left; by eapply phase_quiet|right].
      exists e. rewrite E1. split_and!; try done. by eapply whole_run_quiet.
  - apply Over; try congruence; [by apply idle_insert|]. rewrite E5. by eapply whole_run_quiet.
Qed.

(** A goroutine begins the run. *)
Lemma inv_begin_step s ps i l l' :
  inv (Conf s ps) → ps !! i = Some l → state s = StateNew →
  (at_pc l' = LStart ∧ is_Some (OnStart cfg) ∨ at_pc l' = LRunning ∧ OnStart cfg = None) →
  rets l' = rets l → inv (Conf (begin_ s) (<[i:=l']> ps)).
Proof.
  intros [Hwf Hst Hloc] Hl Hnew Hpc' Hr. simpl in *.
  assert (local_ok s l) as Hll by (by eapply Forall_lookup_1).
  assert (∀ x, ret_ok s x → ret_ok (begin_ s) x) as Hret.
  { intros [e|e|e| |st]; simpl; intros; destruct_or?; destruct_and?; try congruence; auto. }
  destruct Hst as [? Hid Hev Hns Hsm' Hdc'|i0 l0 Hl0 Hin0 Huniq Hpr Hsm'|?]; try congruence.
  2: { exfalso. by apply (progress_state l0 s) in Hpr as [? _]. }
  split; simpl.
  - destruct Hwf as [? ? ? ? ? ? ?]. by split.
  - apply (Running _ _ i l'); simpl; try done.
    + by rewrite list_lookup_insert_eq by (by eapply lookup_lt_Some).
    + by destruct Hpc' as [[-> _]|[-> _]].
    + intros j m Hj Hm. rewrite list_lookup_insert_ne in Hm by done.
      by eapply (Forall_lookup_1 _ _ _ _ Hid).
    + left. unfold phase, start_events, start_fails. simpl.
      destruct Hpc' as [[-> [o Eo]]|[-> Eo]]; rewrite Eo, Hev; split_and!; eauto.
  - apply Forall_insert; [apply (local_ok_others s); [done|by rewrite Hnew|done|exact Hloc]|].
    split_and!; [by destruct Hpc' as [[-> _]|[-> _]]| |by destruct Hpc' as [[-> _]|[-> _]]].
    rewrite Hr. destruct Hll as (_ & Hll & _). eapply Forall_impl; [exact Hll|]. exact Hret.
Qed.

Lemma server_inv_step c c' : inv c → step next c c' → inv c' ∧ rank (state (shared c)) <= rank (state (shared c')).
Proof.
  intros Hinv Hstep. destruct Hstep as [i l s s' l' ps Hl Hn].
  destruct (status_facts s ps (inv_status _ Hinv)) as [Hsm Hdc].
  destruct (in_loop (at_pc l)) eqn:Hin; [by eapply inv_loop_step|].
  destruct (next_other s l s' l') as [(Hq & Hwf' & Hin' & Hpc' & Hg' & Hx)|(Hnew & -> & Hpc' & Hr)]; try done.
  - by apply (inv_wf _ Hinv).
  - by apply (Forall_lookup_1 _ _ _ _ (inv_local _ Hinv) Hl).
  - split; [by eapply inv_quiet_step|]. destruct Hq as [E _]. simpl. by rewrite E.
  - split; [by eapply inv_begin_step|]. simpl. rewrite Hnew. simpl. lia.
Qed.

Lemma server_inv_init progs : inv (init progs).
Proof.
  assert (∀ l, l ∈ procs (init progs) → at_pc l = Ready ∧ rets l = []) as Hl.
  { intros l (cs & -> & _)%list_elem_of_fmap. done. }
  split.
  - split; try done. left. apply not_elem_of_nil.
  - apply Fresh; try done; [|split_and!; try done; apply not_elem_of_nil].
    apply Forall_forall. intros l [-> _]%Hl. done.
  - apply Forall_forall. intros l [Hpc Hr]%Hl. split_and!; [by rewrite Hpc| |by rewrite Hpc].
    rewrite Hr. constructor.
Qed.

Lemma server_inv_steps c c' :
  inv c → rtc (step next) c c' → inv c' ∧ rank (state (shared c)) <= rank (state (shared c')).
Proof.
  intros Hc. apply (inv_reachable next (λ c', inv c' ∧
    rank (state (shared c)) <= rank (state (shared c')))); [done|].
  intros a b [Ha Hr] Hab. destruct (server_inv_step a b Ha Hab). split; [done|lia].
Qed.

(** How many actions of LoopContext are left at most. *)
Definition actions_left (p : pc) : nat :=
  match p with
  | LStart => 12 | LRunning => 11 | LServe => 10 | LSelect => 9 | LStopping _ _ => 8
  | LDrain _ _ => 7 | LShutdown _ _ => 6 | LStartShutdown _ => 6 | LStartStop _ _ => 5
  | LAbort _ => 5 | LWait _ => 4 | LOnStop _ _ => 3 | LReport _ => 2 | LFinish _ => 1
  | _ => 0
  end.

(** * Properties *)




Definition is_error (ev : event) : bool := match ev with EvError _ => true | _ => false end.

Lemma error_events_loop evs :
  filter (λ ev, is_error ev = true) evs = filter (λ ev, is_error ev = true) (loop_events evs).
Proof.
  unfold loop_events. induction evs as [|ev evs IH]; [done|].
  destruct ev; rewrite !filter_cons; simpl; rewrite ?filter_cons; simpl; by rewrite IH.
Qed.

(** When a run is over, OnError, if set, has seen nothing if the result is
    nil and otherwise exactly one error, which is the result (to which a panic
    of OnError itself is appended). *)
Theorem OnError_sees_result progs c :
  OnError cfg ≠ None → rtc (step next) (init progs) c → state (shared c) = StateStopped →
  match result (shared c) with
  | None => filter (λ ev, is_error ev = true) (events (shared c)) = []
  | Some x =>
      ∃ e, filter (λ ev, is_error ev = true) (events (shared c)) = [EvError e] ∧
        (x = e ∨ ∃ v, x = Joined [e; Panicked "error hook" v])
  end.
Proof.
  intros Hon Hc Hs. destruct (server_inv_steps _ _ (server_inv_init progs) Hc) as [[_ Hst _] _].
  destruct Hst as [?|i l _ _ _ Hpr|_ _ (e & Hev & _ & ->)]; [congruence| |].
  { by apply (progress_state l) in Hpr as [_ ?]. }
  rewrite error_events_loop, Hev, filter_app.
  replace (filter _ before_report) with (@nil event).
  2: { unfold before_report, failed_events, run_events, start_events, stop_events.
       destruct start_fails, (OnStart cfg), (OnStop cfg); done. }
  unfold reported, error_events.
  destruct e as [x|], (OnError cfg) as [[v|]|]; try done; simpl; exists x; eauto.
Qed.

(** The state only moves forward, and what callers are told stays true:
    LoopContext and Shutdown return the result of the one run, or that the
    server is already running, has no service, or is not running. *)
Theorem server_callers_agree progs c c' l x :
  rtc (step next) (init progs) c → l ∈ procs c → x ∈ rets l → rtc (step next) c c' →
  rank (state (shared c)) <= rank (state (shared c')) ∧ ret_ok (shared c) x ∧
  (∀ l', l' ∈ procs c' → Forall (ret_ok (shared c')) (rets l')).
Proof.
  intros Hc Hl Hx Hc'. destruct (server_inv_steps _ _ (server_inv_init progs) Hc) as [Hi _].
  destruct (server_inv_steps _ _ Hi Hc') as [Hi' Hr]. split_and!; [done| |].
  - pose proof (inv_local _ Hi) as Hloc. rewrite Forall_forall in Hloc.
    destruct (Hloc l Hl) as (_ & Hrets & _). rewrite Forall_forall in Hrets. auto.
  - intros l' Hl'. pose proof (inv_local _ Hi') as Hloc. rewrite Forall_forall in Hloc.
    by destruct (Hloc l' Hl') as (_ & ? & _).
Qed.

(** A run that has been asked to stop cannot hang in LoopContext outside user
    code (Shutdown and the hooks), also when Serve does: its goroutine can always act, each action brings it
    nearer to its end, and it ends after at most twelve. Without a request it
    waits only for Serve. *)
Theorem stop_ends_run s l :
  in_loop (at_pc l) = true →
  ((∃ s' l', (s', l') ∈ next s l) ∨
   (at_pc l = LSelect ∧ stopRequested s = false ∧ served s = None)) ∧
  (∀ s' l', (s', l') ∈ next s l → (actions_left (at_pc l') < actions_left (at_pc l) <= 12)%nat).
Proof.
  intros Hin. split.
  - unfold Server.next. destruct (at_pc l) eqn:Hpc; try done;
      try (by left; repeat case_match; eexists _, _; constructor).
    destruct (served s) eqn:Es; [left; eexists _, _; apply elem_of_app; left; constructor|].
    destruct (stopRequested s) eqn:Er; [left; eexists _, _; constructor|by right].
  - intros s' l' Hn. unfold Server.next, Loop_second, Shutdown_wait in Hn. destruct (at_pc l) eqn:Hpc; try done;
      repeat case_match; inv_elem; repeat case_match; simpl; lia.
Qed.
End inv.

(** * Witnesses *)

(** A service that stops only when aborted, an OnStart, an OnStop that fails and
    an OnError that panics. *)
Definition demo_cfg : Config :=
  mkConfig true (OnAbort (Ret None)) (Ret (Some Canceled)) (Some (Ret None))
    (Some (Ret (Some (User 7)))) (Some (Some 3)).
(** The run; a goroutine that calls Shutdown; one that starts a second run. *)
Definition demo_progs : list (list call) := [[CLoop]; [CShutdown]; [CLoop; CState]].
Definition demo_sched : list (nat * nat) :=
  replicate 4 (0, 0)%nat ++ [(1, 0); (2, 0)]%nat ++ replicate 5 (0, 0)%nat ++ [(3, 0); (3, 0)]%nat ++
  replicate 4 (0, 0)%nat ++ [(1, 0); (1, 0)]%nat.
Definition demo_mid : conf := Eval vm_compute in
  default (init demo_progs) (run (next demo_cfg) (take 6 demo_sched) (init demo_progs)).
Definition demo : conf := Eval vm_compute in
  default (init demo_progs) (run (next demo_cfg) demo_sched (init demo_progs)).

Definition demo_result : Err := Joined [Joined [User 7]; Panicked "error hook" 3].


Lemma OnError_sees_result_witness :
  ∃ e, filter (λ ev, is_error ev = true) (events (shared demo)) = [EvError e] ∧
    (demo_result = e ∨ ∃ v, demo_result = Joined [e; Panicked "error hook" v]).
Proof.
  apply (OnError_sees_result demo_cfg demo_progs demo).
  - discriminate.
  - apply (run_sound _ demo_sched). vm_compute. reflexivity.
  - reflexivity.
Defined.

Lemma server_callers_agree_witness :
  rank (state (shared demo_mid)) <= rank (state (shared demo)) ∧
  ret_ok (shared demo_mid) (RetLoop (Some ErrAlreadyRunning)) ∧
  (∀ l', l' ∈ procs demo → Forall (ret_ok (shared demo)) (rets l')).
Proof.
  apply (server_callers_agree demo_cfg demo_progs demo_mid demo
    (mkLocal Ready [CState] [RetLoop (Some ErrAlreadyRunning)])).
  - apply (run_sound _ (take 6 demo_sched)). vm_compute. reflexivity.
  - do 2 right. left.
  - left.
  - apply (run_sound _ (drop 6 demo_sched)). vm_compute. reflexivity.
Defined.

Lemma stop_ends_run_witness :
  (∃ s' l', (s', l') ∈ next demo_cfg (shared demo_mid) (mkLocal LSelect [] [])) ∨
  (LSelect = LSelect ∧ stopRequested (shared demo_mid) = false ∧ served (shared demo_mid) = None).
Proof. apply (stop_ends_run demo_cfg (shared demo_mid) (mkLocal LSelect [] [])). reflexivity. Defined.

(** Two signals taken before LoopContext has begun: the first cancels the
    parent context, the second finds no [force] channel, and the drain that
    follows is not cut short. *)
Lemma early_second_signal_lost :
  ∃ sched c, run (next demo_cfg) sched (init [[CLoop]; [CSignal; CSignal]; [CSignals]]) = Some c ∧
    signals (shared c) = 0%nat ∧ state (shared c) = StateStopping ∧ draining (shared c) = true ∧
    forceClosed (shared c) = false ∧ procs c !! 2%nat = Some (mkLocal Ready [] []).
Proof.
  exists ([(1, 0); (1, 0); (2, 0); (2, 0)] ++ replicate 7 (0, 0))%nat.
  eexists. split; [vm_compute; reflexivity|]. by split_and!.
Qed.
End Server.

(** An error joined with context.Canceled, as Group.Shutdown joins the errors
    of its services after a forced abort, is dropped with it. *)
Lemma ignoreCanceled_drops_joined n :
  ignoreCanceled (errors_Join [Some Canceled; Some (User n)]) = None.
Proof. done. Qed.
