(* ===== verification/LoopTime.v ===== *)
(** Package netx: how long a Server takes to stop ([src/lifecycle.go]: Loop,
    LoopContext, shutdownContext, AbortGrace).

    [Lifecycle] lets every timer fire whenever its select waits. Here the one
    run of a Server is followed on a clock: user code (the hooks and the
    service) is a parameter that says when each call returns and with what,
    given when its context ends, and may never return; the steps of the Server
    itself take no time. The result is when LoopContext returns and with which
    error, or [None] when it never does; what the calls it made did is recorded
    as the configuration under which the state machine of [Lifecycle] has the
    same run. *)
From S2P Require Import Prelude Interleave Lifecycle.
Import Server.

Local Open Scope Z_scope.


(** Instants and durations in nanoseconds. *)
Definition second : Z := 1000000000.
Definition AbortGrace : Z := second.

(** A call of user code that has a context: it begins at an instant, its
    context ends at an instant or never, it returns or not. *)
Definition timed_call := Z → option Z → option (Z * outcome).

Record Env := mkEnv {
  ShutdownTimeout : Z;
  startHook : option (Z → option (Z * outcome));   (* OnStart; its context does not end *)
  stopHook : option timed_call;                    (* OnStop *)
  errorHook : option (Z → Err → option (Z * option Z));  (* OnError, no context; its panic *)
  serveOwn : Z → option (Z * outcome);             (* Serve, its context not cancelled *)
  serveAborted : Z → Z → option (Z * outcome);     (* Serve, not yet returned when cancelled *)
  svcShutdown : timed_call;
  tie : bool }.                                    (* select, both channels ready *)

(** NewServer's timeout. *)
Definition NewServer_timeout : Z := 30 * second.

(** The instant a select at [now] goes on, and whether through the first
    channel; [a] and [b] are when its channels become ready. *)
Definition select (tie : bool) (now : Z) (a b : option Z) : option (Z * bool) :=
  match Z.max now <$> a, Z.max now <$> b with
  | None, None => None
  | Some a, None => Some (a, true)
  | None, Some b => Some (b, false)
  | Some a, Some b => Some (if a <? b then (a, true) else if b <? a then (b, false) else (a, tie))
  end.

Definition earliest (a b : option Z) : option Z :=
  match a, b with Some a, Some b => Some (Z.min a b) | Some a, None => Some a | None, b => b end.

Section loop.
Context (e : Env).

(** The context made at [now]: when it ends by itself. *)
Definition shutdownContext (now : Z) : option Z :=
  if 0 <? ShutdownTimeout e then Some (now + ShutdownTimeout e) else None.

(** What the hook did, if there is one. *)
Definition onStop (now : Z) : option (Z * option outcome) :=
  match stopHook e with
  | None => Some (now, None)
  | Some f => '(t, o) ← f now (shutdownContext now); Some (t, Some o)
  end.
Definition stop_error_of (st : option outcome) : option Err := st ≫= λ o, protect "stop" o.

(** The error returned and what OnError did; it is only called with an error. *)
Definition report (now : Z) (err : option Err) : option (Z * option Err * option (option Z)) :=
  match errorHook e, err with
  | None, _ => Some (now, err, None)
  | Some _, None => Some (now, None, Some None)
  | Some f, Some x =>
      '(t, v) ← f now x;
      Some (t, match v with
               | Some v => errors_Join [err; Some (Panicked "error hook" v)]
               | None => err
               end, Some v)
  end.

(** The drain's context ends with its timeout, or as soon as [force] is closed. *)
Definition drainEnd (now : Z) (force : option Z) : option Z :=
  earliest (shutdownContext now) (Z.max now <$> force).

(** After Shutdown returned at [now]: abort, and wait for Serve at most
    AbortGrace; what Serve, called at [began], has done by then. *)
Definition await_serve (began now : Z) : Z * serving :=
  let after_abort := (λ '(t, o), (t, OnAbort o)) <$> serveAborted e began now in
  let served :=
    match serveOwn e began with
    | Some (t, o) => if t <=? now then Some (t, Own o) else after_abort
    | None => after_abort
    end in
  match select (tie e) now (fst <$> served) (Some (now + AbortGrace)), served with
  | Some (t, true), Some (_, sv) => (t, sv)
  | Some (t, _), _ => (t, Never)
  | None, _ => (now, Never)
  end.
Definition serve_error_of (sv : serving) : option Err :=
  match sv with Own o | OnAbort o => protect "serve" o | Never => Some ErrAbortTimeout end.

(** LoopContext once OnStart has returned at [now] without an error; [so] is
    what it did. *)
Definition serve_phase (so : option outcome) (stop force : option Z) (now : Z) :
    option (Z * option Err * Config) :=
  '(t, returned) ← select (tie e) now (fst <$> serveOwn e now) stop;
  '(t1, sh) ← svcShutdown e t (drainEnd t force);
  let '(t2, sv) :=
    match returned, serveOwn e now with
    | true, Some (_, o) => (t1, Own o)
    | _, _ => await_serve now t1
    end in
  '(t3, st) ← onStop t2;
  '(t4, r, er) ← report t3 (errors_Join [serve_error_of sv; ignoreCanceled (protect "shutdown" sh);
                                         stop_error_of st]);
  Some (t4, r, mkConfig true sv sh so st er).

(** OnStart did [so], with the error [err], at [now]. *)
Definition failed_phase (so : option outcome) (err : Err) (now : Z) :
    option (Z * option Err * Config) :=
  '(t1, sh) ← svcShutdown e now (shutdownContext now);
  '(t2, st) ← onStop t1;
  '(t3, r, er) ← report t2 (errors_Join [Some err; protect "shutdown" sh; stop_error_of st]);
  Some (t3, r, mkConfig true Never sh so st er).

(** LoopContext, begun at [now] on a new Server that has a Service; [stop] is
    when its parent ends or Stop is called, [force] when forceAbort is. With
    its result, what each call of user code did. *)
Definition LoopRun (stop force : option Z) (now : Z) : option (Z * option Err * Config) :=
  match startHook e with
  | None => serve_phase None stop force now
  | Some f =>
      '(t, o) ← f now;
      match protect "start" o with
      | Some err => failed_phase (Some o) err t
      | None => serve_phase (Some o) stop force t
      end
  end.
Definition LoopContext (stop force : option Z) (now : Z) : option (Z * option Err) :=
  fst <$> LoopRun stop force now.
End loop.

(** * Loop *)
Inductive Signal := SIGHUP | SIGINT | SIGTERM | SIGUSR1.
#[global] Instance Signal_eq_dec : EqDecision Signal.
Proof. solve_decision. Defined.

(** Signals sent to the process while Loop runs, with their instants. *)
Definition loop_signals (sigs : list Signal) : list Signal :=
  match sigs with [] => [SIGINT; SIGTERM] | _ => sigs end.

(** [signal.Notify] puts a signal into the channel, of capacity 2, without
    blocking; the goroutine takes the first and then the second. *)
Record notify := mkNotify { chan : list Z; taken : list Z }.
Definition deliver (n : notify) (t : Z) : notify :=
  if (length (chan n) <? 2)%nat then mkNotify (chan n ++ [t]) (taken n) else n.
Definition take_one (n : notify) : notify :=
  match chan n with
  | t :: ch => if (length (taken n) <? 2)%nat then mkNotify ch (taken n ++ [t]) else n
  | [] => n
  end.

(** The instants of the first and the second signal the channel is notified of. *)
Definition notified (sigs : list Signal) (arrivals : list (Z * Signal)) : list Z :=
  fst <$> filter (λ x, x.2 ∈ loop_signals sigs) arrivals.

(** forceAbort, called at an instant: before LoopContext's [begin] there is no
    channel to close and nothing happens. *)
Definition forceAbort (e : Env) (begun : Z) (f : option Z) : option Z :=
  f ← f; if (begun <? f) || ((begun =? f) && tie e) then Some f else None.

(** Loop, whose LoopContext reaches [begin] at [begun]; [arrivals] are the
    signals since [signal.Notify]. *)
Definition Loop (e : Env) (sigs : list Signal) (arrivals : list (Z * Signal)) (begun : Z) :
    option (Z * option Err) :=
  let ts := notified sigs arrivals in
  LoopContext e (ts !! 0%nat) (forceAbort e begun (ts !! 1%nat)) begun.

(** * The signal channel *)
(** Signals arrive ([inl]) and the goroutine receives ([inr]) in any order. *)
Definition signal_step (n : notify) (x : Z + unit) : notify :=
  match x with inl t => deliver n t | inr _ => take_one n end.
Definition signals_sent (xs : list (Z + unit)) : list Z :=
  omap (λ x, match x with inl t => Some t | inr _ => None end) xs.

Lemma take_snoc {A} k (l : list A) x : (k <= length l)%nat → take k (l ++ [x]) = take k l.
Proof. intros H. by rewrite take_app_le. Qed.

Lemma deliver_first_two n d t :
  take 2 (taken n ++ chan n) = take 2 d →
  take 2 (taken (deliver n t) ++ chan (deliver n t)) = take 2 (d ++ [t]).
Proof.
  intros H. unfold deliver. destruct (decide (2 <= length (taken n ++ chan n))%nat) as [Hx|Hx].
  - assert (2 <= length d)%nat.
    { apply (f_equal length) in H. rewrite !length_take in H. lia. }
    rewrite (take_snoc 2 d) by done. destruct (_ <? _)%nat; [|done]. simpl.
    by rewrite app_assoc, take_snoc by done.
  - assert (length d < 2)%nat as Hd.
    { apply (f_equal length) in H. rewrite !length_take in H. lia. }
    rewrite !take_ge in H by lia. subst d. rewrite length_app in Hx.
    destruct (Nat.ltb_spec (length (chan n)) 2) as [_|]; [|lia]. simpl. by rewrite app_assoc.
Qed.

Lemma take_one_keeps n : taken (take_one n) ++ chan (take_one n) = taken n ++ chan n.
Proof.
  unfold take_one. destruct (chan n) as [|t ch] eqn:E; [by rewrite E|].
  destruct (_ <? _)%nat; simpl; [by rewrite <- app_assoc|by rewrite E].
Qed.

(** The channel's capacity is enough: whatever the goroutine's pace, the first
    two signals are the ones it takes or will take, however many arrive. *)
Lemma first_two_signals_kept xs n :
  n = foldl signal_step (mkNotify [] []) xs →
  take 2 (taken n ++ chan n) = take 2 (signals_sent xs) ∧ (length (taken n) <= 2)%nat.
Proof.
  intros ->. induction xs as [|x xs IH] using rev_ind; [split; [done|simpl; lia]|].
  rewrite foldl_snoc. unfold signals_sent in *. rewrite omap_app.
  set (n := foldl signal_step (mkNotify [] []) xs) in *. destruct IH as [IH Hle].
  destruct x as [t|[]]; simpl.
  - split; [by apply deliver_first_two|]. unfold deliver. by destruct (_ <? _)%nat.
  - rewrite app_nil_r, take_one_keeps. split; [done|]. unfold take_one.
    destruct (chan n); [done|]. destruct (Nat.ltb_spec (length (taken n)) 2); [|done].
    simpl. rewrite length_app. simpl. lia.
Qed.

(** * Bounds *)
(** User code that honours its context: it returns at most [d] after the
    context ends. *)
Definition prompt (d : Z) (f : timed_call) : Prop :=
  ∀ t c, ∃ t' o, f t (Some c) = Some (t', o) ∧ t <= t' <= Z.max t c + d.

(** A hook without a context: it returns within [d]. *)
Definition returns_within (d : Z) (f : Z → Err → option (Z * option Z)) : Prop :=
  ∀ t x, ∃ t' v, f t x = Some (t', v) ∧ t <= t' <= t + d.

Lemma select_by tie now a b :
  ∃ t x, select tie now a (Some b) = Some (t, x) ∧ now <= t <= Z.max now b.
Proof.
  unfold select. destruct a as [a|]; simpl; [|eexists _, _; split; [done|lia]].
  destruct (Z.ltb_spec (Z.max now a) (Z.max now b)); [eexists _, _; split; [done|lia]|].
  destruct (Z.ltb_spec (Z.max now b) (Z.max now a)); eexists _, _; split; try done; lia.
Qed.

Section bounds.
Context (e : Env) (d de : Z).
Context (d_ok : 0 <= d) (de_ok : 0 <= de) (timeout_ok : 0 < ShutdownTimeout e).
Context (shutdown_prompt : prompt d (svcShutdown e)).
Context (stop_prompt : ∀ f, stopHook e = Some f → prompt d f).
Context (error_prompt : ∀ f, errorHook e = Some f → returns_within de f).

(** What OnStop may take. *)
Definition stop_budget : Z :=
  match stopHook e with None => 0 | Some _ => ShutdownTimeout e + d end.

Lemma shutdownContext_some now : shutdownContext e now = Some (now + ShutdownTimeout e).
Proof using timeout_ok. unfold shutdownContext. by destruct (Z.ltb_spec 0 (ShutdownTimeout e)); [|lia]. Qed.

Lemma onStop_by now : ∃ t r, onStop e now = Some (t, r) ∧ now <= t <= now + stop_budget.
Proof using d_ok timeout_ok stop_prompt.
  unfold onStop, stop_budget. destruct (stopHook e) as [f|]; [|eexists _, _; split; [done|lia]].
  rewrite shutdownContext_some. destruct (stop_prompt f eq_refl now (now + ShutdownTimeout e)) as (t & o & -> & ?).
  eexists _, _. split; [done|lia].
Qed.

Lemma report_by now err : ∃ t r er, report e now err = Some (t, r, er) ∧ now <= t <= now + de.
Proof using de_ok error_prompt.
  unfold report. destruct (errorHook e) as [f|]; [|eexists _, _, _; split; [done|lia]].
  destruct err as [x|]; [|eexists _, _, _; split; [done|lia]].
  destruct (error_prompt f eq_refl now x) as (t & v & -> & ?). eexists _, _, _. split; [done|lia].
Qed.

(** Serve is not waited for beyond AbortGrace, even if it never returns. *)
Lemma await_serve_by began now :
  now <= (await_serve e began now).1 <= now + AbortGrace.
Proof using.
  unfold await_serve. set (sv := match serveOwn e began with Some _ => _ | None => _ end).
  destruct (select_by (tie e) now (fst <$> sv) (now + AbortGrace)) as (t & x & -> & ?).
  assert (0 <= AbortGrace) by done. destruct x, sv as [[? ?]|]; simpl; lia.
Qed.

Lemma drainEnd_by now force :
  ∃ c, drainEnd e now force = Some c ∧ c <= now + ShutdownTimeout e ∧
       (∀ f, force = Some f → c <= Z.max now f).
Proof using timeout_ok.
  unfold drainEnd. rewrite shutdownContext_some.
  destruct force as [f|]; simpl; eexists; (split; [done|split; [lia|]]); [|done].
  intros ? [= <-]. lia.
Qed.

Lemma serve_phase_by so now stop force :
  ∃ t r cfg, serve_phase e so (Some stop) force now = Some (t, r, cfg) ∧
    t <= Z.max now stop + ShutdownTimeout e + d + AbortGrace + stop_budget + de ∧
    (∀ f, force = Some f → t <= Z.max (Z.max now stop) f + d + AbortGrace + stop_budget + de).
Proof using d_ok de_ok timeout_ok shutdown_prompt stop_prompt error_prompt.
  unfold serve_phase.
  destruct (select_by (tie e) now (fst <$> serveOwn e now) stop) as (t & returned & -> & Ht). simpl.
  destruct (drainEnd_by t force) as (c & -> & Hc & Hf).
  destruct (shutdown_prompt t c) as (t1 & o & -> & Ht1). simpl.
  assert (∃ t2 sv, t1 <= t2 <= t1 + AbortGrace ∧
    match returned, serveOwn e now with
    | true, Some (_, o) => (t1, Own o)
    | _, _ => await_serve e now t1
    end = (t2, sv)) as (t2 & sv & Ht2 & ->).
  { pose proof (await_serve_by now t1). destruct (await_serve e now t1) as [t2 sv].
    assert (0 <= AbortGrace) by done.
    destruct returned, (serveOwn e now) as [[? ?]|]; eexists _, _; (split; [|reflexivity]); simpl in *; lia. }
  destruct (onStop_by t2) as (t3 & st & -> & Ht3). cbn [mbind option_bind].
  destruct (report_by t3 (errors_Join [serve_error_of sv; ignoreCanceled (protect "shutdown" o);
    stop_error_of st])) as (t4 & r & er & -> & Ht4). simpl.
  eexists _, _, _. split_and!; [done|lia|]. intros f Hff. specialize (Hf f Hff). lia.
Qed.

Lemma failed_phase_by so err now :
  ∃ t r cfg, failed_phase e so err now = Some (t, r, cfg) ∧
    t <= now + ShutdownTimeout e + d + stop_budget + de.
Proof using d_ok de_ok timeout_ok shutdown_prompt stop_prompt error_prompt.
  unfold failed_phase. rewrite shutdownContext_some.
  destruct (shutdown_prompt now (now + ShutdownTimeout e)) as (t1 & o & -> & Ht1). cbn [mbind option_bind].
  destruct (onStop_by t1) as (t2 & st & -> & Ht2). cbn [mbind option_bind].
  destruct (report_by t2 (errors_Join [Some err; protect "shutdown" o; stop_error_of st]))
    as (t3 & r & er & -> & Ht3). simpl. eexists _, _, _. split; [done|lia].
Qed.
End bounds.

(** When OnStart is done, and whether it failed. *)
Definition started_at (e : Env) (now : Z) : option (Z * option Err) :=
  match startHook e with
  | None => Some (now, None)
  | Some f => '(t, o) ← f now; Some (t, protect "start" o)
  end.

(** C18: A process that is signalled exits. Suppose the Server has a
    ShutdownTimeout, OnStart has returned, the service's Shutdown and OnStop
    return within [d] of the end of their contexts, and OnError, which has
    none, returns within [de]. Then Loop returns at most ShutdownTimeout + [d] +
    AbortGrace, plus OnStop's own ShutdownTimeout + [d], plus [de], after the
    first signal (or after OnStart, if later), even if Serve never returns. A
    second signal that comes after LoopContext has begun replaces the drain's
    timeout, unless OnStart failed. *)
Theorem loop_exit_bound e d de sigs arrivals begun t0 err s :
  0 <= d → 0 <= de → 0 < ShutdownTimeout e → prompt d (svcShutdown e) →
  (∀ f, stopHook e = Some f → prompt d f) →
  (∀ f, errorHook e = Some f → returns_within de f) →
  started_at e begun = Some (t0, err) → notified sigs arrivals !! 0%nat = Some s →
  ∃ t r, Loop e sigs arrivals begun = Some (t, r) ∧
    t <= Z.max t0 s + ShutdownTimeout e + d + AbortGrace + stop_budget e d + de ∧
    (∀ f, err = None → notified sigs arrivals !! 1%nat = Some f → begun < f →
          t <= Z.max (Z.max t0 s) f + d + AbortGrace + stop_budget e d + de).
Proof.
  intros Hd Hde Hto Hsh Hst Her Hs Hn. unfold Loop, LoopContext, LoopRun. rewrite Hn.
  set (force := forceAbort e begun (notified sigs arrivals !! 1%nat)).
  assert (∀ f, notified sigs arrivals !! 1%nat = Some f → begun < f → force = Some f) as Hforce.
  { intros f Hf Hlt. unfold force, forceAbort. rewrite Hf. simpl.
    by destruct (Z.ltb_spec begun f); [|lia]. }
  assert (∀ so, ∃ t r cfg, serve_phase e so (Some s) force t0 = Some (t, r, cfg) ∧
    t <= Z.max t0 s + ShutdownTimeout e + d + AbortGrace + stop_budget e d + de ∧
    (∀ f, notified sigs arrivals !! 1%nat = Some f → begun < f →
          t <= Z.max (Z.max t0 s) f + d + AbortGrace + stop_budget e d + de)) as Hserve.
  { intros so. destruct (serve_phase_by e d de Hd Hde Hto Hsh Hst Her so t0 s force)
      as (t & r & cfg & -> & H1 & H2). eexists _, _, _. split_and!; [done|done|]. auto. }
  unfold started_at in Hs. destruct (startHook e) as [h|].
  - destruct (h begun) as [[t o]|]; [|done]. simpl in Hs. injection Hs as -> <-. simpl.
    destruct (protect "start" o) as [x|].
    + destruct (failed_phase_by e d de Hd Hde Hto Hsh Hst Her (Some o) x t0) as (t' & r & cfg & -> & Ht).
      eexists _, _. assert (0 <= AbortGrace) by done. split_and!; [done|lia|done].
    + destruct (Hserve (Some o)) as (t' & r & cfg & -> & H1 & H2).
      eexists _, _. split_and!; [done|done|auto].
  - injection Hs as <- <-. destruct (Hserve None) as (t' & r & cfg & -> & H1 & H2).
    eexists _, _. split_and!; [done|done|auto].
Qed.

(** A service stuck in Serve whose Shutdown waits for its context, on a server
    from NewServer, with an OnError that takes two seconds; SIGTERM after a
    minute, again two seconds later. *)
Definition stuck : Env :=
  mkEnv NewServer_timeout None None (Some (λ t _, Some (t + 2 * second, None))) (λ _, None) (λ _ _, None)
    (λ t c, (λ c, (Z.max t c, Ret (Some DeadlineExceeded))) <$> c) true.
Definition two_signals : list (Z * Signal) :=
  [(10 * second, SIGHUP); (60 * second, SIGTERM); (62 * second, SIGTERM)].

Lemma stuck_prompt : prompt 0 (svcShutdown stuck).
Proof. intros t c. eexists _, _. split; [reflexivity|lia]. Qed.

Lemma loop_exit_bound_witness :
  ∃ t r, Loop stuck [] two_signals 0 = Some (t, r) ∧
    t <= Z.max 0 (60 * second) + ShutdownTimeout stuck + 0 + AbortGrace + stop_budget stuck 0 + 2 * second ∧
    (∀ f, None = @None Err → notified [] two_signals !! 1%nat = Some f → 0 < f →
          t <= Z.max (Z.max 0 (60 * second)) f + 0 + AbortGrace + stop_budget stuck 0 + 2 * second).
Proof.
  apply (loop_exit_bound stuck 0 (2 * second) [] two_signals 0 0 None (60 * second)).
  - lia.
  - unfold second. lia.
  - reflexivity.
  - exact stuck_prompt.
  - discriminate.
  - intros f [= <-] t x. eexists _, _. split; [reflexivity|]. unfold second. lia.
  - reflexivity.
  - vm_compute. reflexivity.
Defined.

(** That run: the second signal at 62s ends the drain, Serve is given up on
    one second later, and OnError takes two. *)
Example stuck_run :
  Loop stuck [] two_signals 0 = Some (65 * second, Some (Joined [ErrAbortTimeout; DeadlineExceeded])).
Proof. vm_compute. reflexivity. Qed.

(** Both signals before LoopContext's [begin]: the second is lost and the drain
    takes its whole timeout. *)
Lemma second_signal_before_begin e sigs arrivals begun f :
  notified sigs arrivals !! 1%nat = Some f → f < begun →
  Loop e sigs arrivals begun = LoopContext e (notified sigs arrivals !! 0%nat) None begun.
Proof.
  intros Hf Hlt. unfold Loop, forceAbort. rewrite Hf. simpl.
  destruct (Z.ltb_spec begun f); [lia|]. by destruct (Z.eqb_spec begun f); [lia|].
Qed.

Example second_signal_before_begin_run :
  Loop stuck [] [(1, SIGTERM); (2, SIGTERM)] 3 =
    Some (3 + 33 * second, Some (Joined [ErrAbortTimeout; DeadlineExceeded])).
Proof. vm_compute. reflexivity. Qed.

(** After a failed OnStart the second signal does not cut the drain short. *)
Lemma failed_start_ignores_force e stop force force' now f t o x :
  startHook e = Some f → f now = Some (t, o) → protect "start" o = Some x →
  LoopContext e stop force now = LoopContext e stop force' now.
Proof. intros H1 H2 H3. unfold LoopContext, LoopRun. rewrite H1, H2. simpl. by rewrite H3. Qed.









Section refine.
Context (e : Env).


End refine.


