(* ===== verification/Tcp.v ===== *)
(** Package tcp: the server ([src/tcp/server.go]).

    The accept loop, the goroutine of each connection and any callers of
    Serve, Shutdown, Close and Stats run over shared memory. The listener is a
    list of what Accept will return; the handler is user code that returns at
    some time. Goroutine bodies that are straight-line code are lists of atomic
    operations ([op]), executed one by one. *)
From S2P Require Import Prelude Interleave Limit Internal.

Local Open Scope Z_scope.

(** * Client addresses *)

(** [netip.Addr] without a zone: 32 and 128 bits. *)
Inductive Addr := V4 (a : Z) | V6 (a : Z).

#[global] Instance Addr_eq_dec : EqDecision Addr.
Proof. solve_decision. Defined.
#[global] Instance Addr_countable : Countable Addr.
Proof.
  apply (inj_countable' (λ x, match x with V4 a => (false, a) | V6 a => (true, a) end)
    (λ p, if p.1 then V6 p.2 else V4 p.2)). by intros [].
Defined.

Fixpoint be_bytes (bs : list Z) (acc : Z) : Z :=
  match bs with [] => acc | b :: rest => be_bytes rest (acc * 256 + b) end.

Definition AddrFromSlice (bs : list Z) : option Addr :=
  if Nat.eqb (length bs) 4 then Some (V4 (be_bytes bs 0))
  else if Nat.eqb (length bs) 16 then Some (V6 (be_bytes bs 0)) else None.

(** [::ffff:a.b.c.d] becomes [a.b.c.d]. *)
Definition Unmap (a : Addr) : Addr :=
  match a with
  | V6 x => if Z.shiftr x 32 =? 65535 then V4 (x mod 2 ^ 32) else a
  | V4 _ => a
  end.

(** The address of [ip.Prefix(bits)]; an error for bits out of range. *)
Definition Prefix (x bits : Z) : option Z :=
  if (bits <? 0) || (128 <? bits) then None
  else Some (Z.shiftl (Z.shiftr x (128 - bits)) (128 - bits)).

(** A remote address: a [*net.TCPAddr] with its IP bytes, or another type. *)
Inductive NetAddr := TCPAddr (ip : list Z) | OtherAddr.

Definition ipKey (a : NetAddr) (v6bits : Z) : option Addr :=
  match a with
  | OtherAddr => None
  | TCPAddr bs =>
      ip ← AddrFromSlice bs;
      match Unmap ip with
      | V6 x => if v6bits <? 128 then V6 <$> Prefix x v6bits else Some (V6 x)
      | V4 x => Some (V4 x)
      end
  end.

(** * The server *)

Record Options := mkOptions { hasAdmit : bool; MaxConnsPerIP : Z; IPv6PrefixBits : Z }.

(** What [ln.Accept()] returns: a connection, or an error. *)
Inductive arrival := Arrive (a : NetAddr) | TempErr | PermErr.

(** An accepted connection: its number among the arrivals, and the key of the
    MaxConnsPerIP slot it holds. *)
Record Conn := mkConn { num : nat; slot : option Addr }.

Inductive ctr := Accepted | Rejected | RejectedPerIP | Active | ClosedC | AcceptErrors.

#[global] Instance ctr_eq_dec : EqDecision ctr.
Proof. solve_decision. Defined.

Record Sh := mkSh {
  arrivals : list arrival; taken : nat;    (* the listener; connections taken from it *)
  lnClosed : bool;
  perIP : option (PerKey.PerKey Addr); v6bits : Z;
  permits : Z;                             (* TryAcquires minus Releases of Admit *)
  count : ctr → Z;
  serving : bool; stopped : bool;
  conns : gset nat;
  aborted : bool;
  draining : bool; done : bool;            (* channels, true when closed *)
  once : option bool;                      (* stopOnce: Some false while it runs *)
  wg : Z;
  spawned : list Conn;                     (* go serveConn(c), not yet running *)
  netClosed : list nat;                    (* closes by the connection's owner *)
  abClosed : gset nat;                     (* closes by abortAll *)
  crashed : bool }.

Definition NewServer (hasLn hasHandler : bool) (o : Options) (arr : list arrival) : option Sh :=
  if negb hasLn || negb hasHandler then None
  else if MaxConnsPerIP o <? 0 then None
  else if (IPv6PrefixBits o <? 0) || (128 <? IPv6PrefixBits o) then None
  else
    let p := if 0 <? MaxConnsPerIP o then PerKey.NewPerKey (MaxConnsPerIP o) else None in
    let v := if 0 <? MaxConnsPerIP o
             then (if IPv6PrefixBits o =? 0 then 64 else IPv6PrefixBits o) else 0 in
    Some (mkSh arr 0 false p v 0 (λ _, 0) false false ∅ false false false None 0 [] [] ∅ false).

(** [bound] is the listener lc.Listen returns, if it succeeds. The second
    component is whether Listen closed it. *)
Definition Listen (bound : option (list arrival)) (hasHandler : bool) (o : Options) : option Sh * bool :=
  match bound with
  | None => (None, false)
  | Some arr =>
      match NewServer true hasHandler o arr with
      | Some s => (Some s, false)
      | None => (None, true)
      end
  end.

(** A listener that was bound belongs to the server, or is closed. *)
Lemma Listen_keeps_or_closes bound hasHandler o s closed :
  Listen bound hasHandler o = (s, closed) → is_Some bound →
  (is_Some s ∧ closed = false) ∨ (s = None ∧ closed = true ∧
    (hasHandler = false ∨ MaxConnsPerIP o < 0 ∨ IPv6PrefixBits o < 0 ∨ 128 < IPv6PrefixBits o)).
Proof.
  intros H [arr ->]. unfold Listen, NewServer in H. destruct hasHandler; simpl in H.
  - revert H. bool_cases; simpl; intros [= <- <-]; (left; split; [eauto|done]) || (right; split_and!; auto 6).
  - injection H as <- <-. right. auto.
Qed.

(** Atomic operations of straight-line code. *)
Inductive op :=
  | ORelAdmit                    (* s.opts.Admit.Release() *)
  | ORelKey (k : Addr)           (* s.perIP.Release(c.ipKey) *)
  | OClose (i : nat)             (* nc.Close() by the owner *)
  | OInc (c : ctr) | ODec (c : ctr)
  | OWgAdd | OWgDone
  | OSpawn (c : Conn)            (* go s.serveConn(c) *)
  | OUntrack (i : nat)           (* delete(s.conns, c) *)
  | OAbortClose (i : nat).       (* abortAll: c.Conn.Close() *)

(** [CShutdown true]: with a context that may end. *)
Inductive call := CServe | CShutdown (ends : bool) | CClose | CStats | CWorker.
Inductive ret := RetServe (err : bool) | RetRefused | RetShutdown (ctxErr : bool) | RetClose | RetWorker
  | RetStats (st : list (ctr * Z)).

Inductive pc :=
  | Ready
  | VAccept (delay : Z)                (* s.ln.Accept() *)
  | VFailed (delay : Z) (temp : bool)  (* isStopped() after an error *)
  | VBackoff (delay : Z)               (* backoff.Wait *)
  | VKey (i : nat) (a : NetAddr)       (* perIP.TryAcquire *)
  | VAdmit (c : Conn)                  (* Admit.TryAcquire *)
  | VTrack (c : Conn)                  (* track *)
  | Seq (ops : list op) (k : kont)
  | VWait (err : bool)                 (* wg.Wait() *)
  | VCancel (err : bool)               (* s.abort() *)
  | VDone (err : bool)                 (* close(s.done) *)
  | WHandler (c : Conn)                (* s.handler(s.ctx, c) *)
  | StopOnce (k : kont)                (* s.stopOnce.Do *)
  | StopSet (k : kont)                 (* s.stopped = true, under the lock *)
  | StopLn (k : kont)                  (* s.ln.Close() *)
  | StopDrain (k : kont)               (* close(s.draining); Do returns *)
  | AbortAll (k : kont)                (* abortAll, under the lock *)
  | HServing (ends : bool)             (* Shutdown: reads serving *)
  | HWait (ends : bool)                (* Shutdown: done or ctx *)
  | StatsLoad (got : list (ctr * Z)) (rest : list ctr)   (* Stats: one Load after the other *)
with kont :=
  | KAccept (delay : Z)                (* back to the accept loop *)
  | KServeEnd (err : bool)             (* acceptLoop returned *)
  | KWait (err : bool)                 (* after the abort of a failed accept *)
  | KAbort (r : ret)                   (* abortAll, then return *)
  | KReturn (r : ret)
  | KShutdown (ends : bool).           (* the rest of Shutdown *)

Record Local := mkLocal { at_pc : pc; todo : list call; rets : list ret }.
Definition goto (l : Local) (p : pc) : Local := mkLocal p (todo l) (rets l).
Definition return_ (l : Local) (x : ret) : Local := mkLocal Ready (todo l) (rets l ++ [x]).

Section server.
Context (o : Options).

(** [serveConn]'s deferred calls, last first. *)
Definition release (c : Conn) : list op :=
  (if hasAdmit o then [ORelAdmit] else []) ++
  match slot c with Some k => [ORelKey k] | None => [] end.
Definition worker_ops (c : Conn) : list op :=
  [OClose (num c)] ++ release c ++
  [OUntrack (num c); ODec Active; OInc ClosedC]   (* untrack *) ++ [OWgDone].

(** ** Effects *)

Definition set_count (s : Sh) (f : ctr → Z) : Sh :=
  mkSh (arrivals s) (taken s) (lnClosed s) (perIP s) (v6bits s) (permits s) f (serving s)
    (stopped s) (conns s) (aborted s) (draining s) (done s) (once s) (wg s) (spawned s)
    (netClosed s) (abClosed s) (crashed s).
Definition set_perIP (s : Sh) (p : option (PerKey.PerKey Addr)) : Sh :=
  mkSh (arrivals s) (taken s) (lnClosed s) p (v6bits s) (permits s) (count s) (serving s)
    (stopped s) (conns s) (aborted s) (draining s) (done s) (once s) (wg s) (spawned s)
    (netClosed s) (abClosed s) (crashed s).
Definition crash (s : Sh) : Sh :=
  mkSh (arrivals s) (taken s) (lnClosed s) (perIP s) (v6bits s) (permits s) (count s) (serving s)
    (stopped s) (conns s) (aborted s) (draining s) (done s) (once s) (wg s) (spawned s)
    (netClosed s) (abClosed s) true.
Definition set_permits (s : Sh) (n : Z) : Sh :=
  mkSh (arrivals s) (taken s) (lnClosed s) (perIP s) (v6bits s) n (count s) (serving s)
    (stopped s) (conns s) (aborted s) (draining s) (done s) (once s) (wg s) (spawned s)
    (netClosed s) (abClosed s) (crashed s).
Definition set_conns (s : Sh) (x : gset nat) : Sh :=
  mkSh (arrivals s) (taken s) (lnClosed s) (perIP s) (v6bits s) (permits s) (count s) (serving s)
    (stopped s) x (aborted s) (draining s) (done s) (once s) (wg s) (spawned s)
    (netClosed s) (abClosed s) (crashed s).
Definition set_stop (s : Sh) (st ln dr : bool) (on : option bool) : Sh :=
  mkSh (arrivals s) (taken s) ln (perIP s) (v6bits s) (permits s) (count s) (serving s)
    st (conns s) (aborted s) dr (done s) on (wg s) (spawned s) (netClosed s) (abClosed s) (crashed s).
Definition set_arrivals (s : Sh) (a : list arrival) (n : nat) : Sh :=
  mkSh a n (lnClosed s) (perIP s) (v6bits s) (permits s) (count s) (serving s)
    (stopped s) (conns s) (aborted s) (draining s) (done s) (once s) (wg s) (spawned s)
    (netClosed s) (abClosed s) (crashed s).
Definition set_wg (s : Sh) (n : Z) (sp : list Conn) : Sh :=
  mkSh (arrivals s) (taken s) (lnClosed s) (perIP s) (v6bits s) (permits s) (count s) (serving s)
    (stopped s) (conns s) (aborted s) (draining s) (done s) (once s) n sp
    (netClosed s) (abClosed s) (crashed s).
Definition set_flags (s : Sh) (sv ab dn : bool) (nc : list nat) : Sh :=
  mkSh (arrivals s) (taken s) (lnClosed s) (perIP s) (v6bits s) (permits s) (count s) sv
    (stopped s) (conns s) ab (draining s) dn (once s) (wg s) (spawned s) nc (abClosed s) (crashed s).

Definition set_abClosed (s : Sh) (x : gset nat) : Sh :=
  mkSh (arrivals s) (taken s) (lnClosed s) (perIP s) (v6bits s) (permits s) (count s) (serving s)
    (stopped s) (conns s) (aborted s) (draining s) (done s) (once s) (wg s) (spawned s)
    (netClosed s) x (crashed s).

Definition upd (f : ctr → Z) (c : ctr) (v : Z) : ctr → Z := λ x, if decide (x = c) then v else f x.

Definition exec (s : Sh) (x : op) : Sh :=
  match x with
  | ORelAdmit => set_permits s (permits s - 1)
  | ORelKey k =>
      match perIP s with
      | Some p => match PerKey.Release p k with
                  | Some p' => set_perIP s (Some p') | None => crash s end
      | None => crash s
      end
  | OClose i => set_flags s (serving s) (aborted s) (done s) (i :: netClosed s)
  | OInc c => set_count s (upd (count s) c (Counter.Inc (count s c)))
  | ODec c => set_count s (upd (count s) c (Counter.Dec (count s c)))
  | OWgAdd => set_wg s (wg s + 1) (spawned s)
  | OWgDone => if wg s <=? 0 then crash s else set_wg s (wg s - 1) (spawned s)
  | OSpawn c => set_wg s (wg s) (spawned s ++ [c])
  | OUntrack i => set_conns s (conns s ∖ {[i]})
  | OAbortClose i => set_abClosed s ({[i]} ∪ abClosed s)
  end.

(** Where a goroutine goes on. *)
Definition resume (l : Local) (k : kont) : Local :=
  match k with
  | KAccept d => goto l (VAccept d)
  | KServeEnd err => if err then goto l (AbortAll (KWait true)) else goto l (VWait false)
  | KWait err => goto l (VWait err)
  | KAbort r => goto l (AbortAll (KReturn r))
  | KShutdown e => goto l (HServing e)
  | KReturn r => return_ l r
  end.

Definition run_seq (l : Local) (ops : list op) (k : kont) : Local :=
  match ops with [] => resume l k | _ => goto l (Seq ops k) end.

Definition start (s : Sh) (l : Local) (c : call) : list (Sh * Local) :=
  match c with
  | CServe =>
      if stopped s then [(s, return_ l RetRefused)]
      else if serving s then [(s, return_ l RetRefused)]
      else [(set_flags s true false (done s) (netClosed s), goto l (VAccept 0))]
  | CShutdown e => [(s, goto l (StopOnce (KShutdown e)))]
  | CClose => [(s, goto l (StopOnce (KAbort RetClose)))]
  | CStats => [(s, goto l (StatsLoad [] [Accepted; Rejected; RejectedPerIP; Active; ClosedC; AcceptErrors]))]
  | CWorker =>
      match spawned s with
      | [] => []
      | c :: rest => [(set_wg s (wg s) rest, goto l (WHandler c))]
      end
  end.

(** ** The accept loop *)

(** s.ln.Accept(): blocks while nothing arrives, fails once the listener is closed. *)
Definition accept (s : Sh) (l : Local) (d : Z) : list (Sh * Local) :=
  if lnClosed s then [(s, goto l (VFailed d false))]
  else match arrivals s with
       | [] => []
       | Arrive a :: rest => [(set_arrivals s rest (S (taken s)), goto l (VKey (taken s) a))]
       | TempErr :: rest => [(set_arrivals s rest (taken s), goto l (VFailed d true))]
       | PermErr :: rest => [(set_arrivals s rest (taken s), goto l (VFailed d false))]
       end.
Definition accept_failed (s : Sh) (l : Local) (d : Z) (temp : bool) : list (Sh * Local) :=
  if stopped s then [(s, resume l (KServeEnd false))]
  else if temp then [(exec s (OInc AcceptErrors), goto l (VBackoff (Backoff.Next d)))]
  else [(s, goto l (StopOnce (KServeEnd true)))].
(** backoff.Wait: the delay is over, or Draining is closed. *)
Definition accept_backoff (s : Sh) (l : Local) (d : Z) : list (Sh * Local) :=
  (s, goto l (VAccept d)) :: (if draining s then [(s, resume l (KServeEnd false))] else []).
Definition admit_key (s : Sh) (l : Local) (i : nat) (a : NetAddr) : list (Sh * Local) :=
  match perIP s with
  | None => [(s, goto l (VAdmit (mkConn i None)))]
  | Some p =>
      match ipKey a (v6bits s) with
      | None => [(s, goto l (VAdmit (mkConn i None)))]
      | Some k =>
          let '(p', ok) := PerKey.TryAcquire p k in
          if ok : bool then [(set_perIP s (Some p'), goto l (VAdmit (mkConn i (Some k))))]
          else [(set_perIP s (Some p'), goto l (Seq [OInc RejectedPerIP; OClose i] (KAccept 0)))]
      end
  end.
Definition admit_conn (s : Sh) (l : Local) (c : Conn) : list (Sh * Local) :=
  if hasAdmit o then
    [(set_permits s (permits s + 1), goto l (VTrack c));
     (s, goto l (Seq (match slot c with Some k => [ORelKey k] | None => [] end ++
                      [OInc Rejected; OClose (num c)]) (KAccept 0)))]
  else [(s, goto l (VTrack c))].
(** track, and what follows its answer. *)
Definition track (s : Sh) (l : Local) (c : Conn) : list (Sh * Local) :=
  if stopped s
  then [(s, run_seq l (release c ++ [OClose (num c)]) (KServeEnd false))]
  else [(set_conns s ({[num c]} ∪ conns s),
         goto l (Seq [OInc Accepted; OInc Active; OWgAdd; OSpawn c] (KAccept 0)))].
(** The end of Serve: wg.Wait(), s.abort(), close(s.done). *)
Definition serve_wait (s : Sh) (l : Local) (err : bool) : list (Sh * Local) :=
  if wg s =? 0 then [(s, goto l (VCancel err))] else [].
Definition serve_cancel (s : Sh) (l : Local) (err : bool) : list (Sh * Local) :=
  [(set_flags s (serving s) true (done s) (netClosed s), goto l (VDone err))].
Definition serve_done (s : Sh) (l : Local) (err : bool) : list (Sh * Local) :=
  [(if done s then crash s else set_flags s (serving s) (aborted s) true (netClosed s),
    return_ l (RetServe err))].

(** ** Stopping *)

(** stopAccept: once only; other callers wait for the first. *)
Definition stop_once (s : Sh) (l : Local) (k : kont) : list (Sh * Local) :=
  match once s with
  | None => [(set_stop s (stopped s) (lnClosed s) (draining s) (Some false), goto l (StopSet k))]
  | Some true => [(s, resume l k)]
  | Some false => []
  end.
Definition stop_set (s : Sh) (l : Local) (k : kont) : list (Sh * Local) :=
  [(set_stop s true (lnClosed s) (draining s) (once s), goto l (StopLn k))].
Definition stop_ln (s : Sh) (l : Local) (k : kont) : list (Sh * Local) :=
  [(set_stop s (stopped s) true (draining s) (once s), goto l (StopDrain k))].
Definition stop_drain (s : Sh) (l : Local) (k : kont) : list (Sh * Local) :=
  [(if draining s then crash s else set_stop s (stopped s) (lnClosed s) true (Some true),
    resume l k)].
Definition abortAll (s : Sh) (l : Local) (k : kont) : list (Sh * Local) :=
  [(set_flags s (serving s) true (done s) (netClosed s),
    run_seq l (OAbortClose <$> elements (conns s)) k)].
Definition shutdown_serving (s : Sh) (l : Local) (e : bool) : list (Sh * Local) :=
  if serving s then [(s, goto l (HWait e))] else [(s, return_ l (RetShutdown false))].
Definition shutdown_wait (s : Sh) (l : Local) (e : bool) : list (Sh * Local) :=
  (if done s then [(s, return_ l (RetShutdown false))] else []) ++
  (if e then [(s, goto l (AbortAll (KReturn (RetShutdown true))))] else []).
Definition stats_load (s : Sh) (l : Local) (got : list (ctr * Z)) (rest : list ctr) : list (Sh * Local) :=
  match rest with
  | [] => [(s, return_ l (RetStats got))]
  | c :: rest' => [(s, goto l (StatsLoad (got ++ [(c, count s c)]) rest'))]
  end.

Definition next (s : Sh) (l : Local) : list (Sh * Local) :=
  match at_pc l with
  | Ready => match todo l with [] => [] | c :: rest => start s (mkLocal Ready rest (rets l)) c end
  | VAccept d => accept s l d
  | VFailed d temp => accept_failed s l d temp
  | VBackoff d => accept_backoff s l d
  | VKey i a => admit_key s l i a
  | VAdmit c => admit_conn s l c
  | VTrack c => track s l c
  | Seq ops k =>
      match ops with
      | [] => [(s, resume l k)]
      | x :: rest => [(exec s x, run_seq l rest k)]
      end
  | VWait err => serve_wait s l err
  | VCancel err => serve_cancel s l err
  | VDone err => serve_done s l err
  | WHandler c => [(s, goto l (Seq (worker_ops c) (KReturn RetWorker)))]
  | StopOnce k => stop_once s l k
  | StopSet k => stop_set s l k
  | StopLn k => stop_ln s l k
  | StopDrain k => stop_drain s l k
  | AbortAll k => abortAll s l k
  | HServing e => shutdown_serving s l e
  | HWait e => shutdown_wait s l e
  | StatsLoad got rest => stats_load s l got rest
  end.

(** The server [s] used by these goroutines; one more goroutine per arrival,
    to serve it. *)
Definition init (s : Sh) (progs : list (list call)) : conf :=
  Conf s ((λ cs, mkLocal Ready cs []) <$>
            progs ++ replicate (length (arrivals s)) [CWorker]).
End server.

(** Opens a step of the server down to its effects. *)
Ltac open_next H :=
  unfold Tcp.next, accept, accept_failed, accept_backoff, admit_key, admit_conn, track, serve_wait,
    serve_cancel, serve_done, stop_once, stop_set, stop_ln, stop_drain, abortAll, shutdown_serving,
    shutdown_wait, stats_load in H.
