(* ===== verification/TcpKey.v ===== *)
(** The key under which the tcp server counts a client ([ipKey]): two remote
    addresses share it exactly when the leading bits of the addresses agree. *)
From S2P Require Import Prelude Limit Internal Tcp.

Local Open Scope Z_scope.

(** * Addresses as bits *)

Definition byte_bits (b : Z) : list bool := Z.testbit b <$> [7; 6; 5; 4; 3; 2; 1; 0].
Definition addr_bits (bs : list Z) : list bool := bs ≫= byte_bits.

(** [::ffff:a.b.c.d] is the client [a.b.c.d]. *)
Definition canon (bs : list Z) : list Z :=
  if decide (length bs = 16%nat ∧ take 12 bs = replicate 10 0 ++ [255; 255]) then drop 12 bs else bs.

(** What tells clients apart: all bits of an IPv4 address, the prefix of an
    IPv6 address. *)
Definition client (v : nat) (bs : list Z) : list bool :=
  if decide (length (canon bs) = 4%nat) then addr_bits (canon bs)
  else take v (addr_bits (canon bs)).

Definition valid_ip (bs : list Z) : Prop :=
  Forall (λ b, 0 <= b < 256) bs ∧ (length bs = 4%nat ∨ length bs = 16%nat).

(** * The big-endian value *)

Abbreviation bytes := (Forall (λ b, 0 <= b < 256)).
Abbreviation width bs := (8 * Z.of_nat (length bs)).

Lemma be_bytes_acc bs acc : be_bytes bs acc = acc * 2 ^ width bs + be_bytes bs 0.
Proof.
  revert acc. induction bs as [|b bs IH]; intros acc; simpl be_bytes; [simpl; lia|].
  rewrite (IH (acc * 256 + b)), (IH (0 * 256 + b)). simpl length.
  replace (8 * Z.of_nat (S (length bs))) with (width bs + 8) by lia.
  rewrite Z.pow_add_r by lia. lia.
Qed.

Lemma be_bytes_range bs : bytes bs → 0 <= be_bytes bs 0 < 2 ^ width bs.
Proof.
  induction 1 as [|b bs Hb _ IH]; [done|]. simpl be_bytes. rewrite be_bytes_acc. simpl length.
  replace (8 * Z.of_nat (S (length bs))) with (width bs + 8) by lia.
  rewrite Z.pow_add_r by lia. change (2 ^ 8) with 256. nia.
Qed.

Lemma be_bytes_app xs ys : be_bytes (xs ++ ys) 0 = be_bytes xs 0 * 2 ^ width ys + be_bytes ys 0.
Proof.
  rewrite <- (be_bytes_acc ys (be_bytes xs 0)). generalize 0.
  induction xs as [|x xs IH]; intros acc; simpl; [done|apply IH].
Qed.

Lemma be_bytes_high xs ys : bytes ys → Z.shiftr (be_bytes (xs ++ ys) 0) (width ys) = be_bytes xs 0.
Proof.
  intros Hy. pose proof (be_bytes_range ys Hy). rewrite be_bytes_app, Z.shiftr_div_pow2 by lia.
  rewrite Z.add_comm, Z.div_add by lia. rewrite Z.div_small by lia. lia.
Qed.

Lemma be_bytes_low xs ys : bytes ys → be_bytes (xs ++ ys) 0 mod 2 ^ width ys = be_bytes ys 0.
Proof.
  intros Hy. pose proof (be_bytes_range ys Hy). rewrite be_bytes_app, Z.add_comm, Z.mod_add by lia.
  by apply Z.mod_small.
Qed.

Lemma be_bytes_inj xs ys :
  bytes xs → bytes ys → length xs = length ys → be_bytes xs 0 = be_bytes ys 0 → xs = ys.
Proof.
  intros Hx. revert ys. induction Hx as [|x xs Hb Hx IH]; intros [|y ys] Hy Hlen E; try done.
  apply Forall_cons in Hy as [Hy Hys]. simpl in Hlen. injection Hlen as Hlen.
  simpl be_bytes in E. rewrite be_bytes_acc, (be_bytes_acc ys) in E. rewrite <- Hlen in E.
  pose proof (be_bytes_range xs Hx). pose proof (be_bytes_range ys Hys) as Hr. rewrite <- Hlen in Hr.
  assert (0 * 256 + x = 0 * 256 + y) as Exy by nia. rewrite Exy in E.
  f_equal; [lia|]. apply IH; [done..|lia].
Qed.

Lemma length_addr_bits bs : length (addr_bits bs) = (8 * length bs)%nat.
Proof. induction bs as [|b bs IH]; [done|]. unfold addr_bits in *. csimpl. rewrite IH. lia. Qed.

Lemma byte_bits_lookup b (j : nat) : (j < 8)%nat → byte_bits b !! j = Some (Z.testbit b (7 - Z.of_nat j)).
Proof. intros. do 8 (destruct j as [|j]; [done|]). lia. Qed.

Lemma addr_bits_lookup bs (j : nat) :
  bytes bs → (j < 8 * length bs)%nat →
  addr_bits bs !! j = Some (Z.testbit (be_bytes bs 0) (width bs - 1 - Z.of_nat j)).
Proof.
  intros Hb. revert j. induction Hb as [|b bs Hb Hbs IH]; intros j Hj; [simpl in Hj; lia|].
  change (addr_bits (b :: bs)) with (byte_bits b ++ addr_bits bs). simpl length in Hj |- *.
  change (b :: bs) with ([b] ++ bs). destruct (decide (j < 8)%nat) as [Hlt|Hge].
  - rewrite lookup_app_l, byte_bits_lookup by done.
    replace (8 * Z.of_nat (S (length bs)) - 1 - Z.of_nat j) with (7 - Z.of_nat j + width bs) by lia.
    rewrite <- Z.shiftr_spec, be_bytes_high by (done || lia). done.
  - rewrite lookup_app_r by (simpl; lia). change (length (byte_bits b)) with 8%nat. rewrite IH by lia.
    rewrite <- (be_bytes_low [b] bs), Z.mod_pow2_bits_low by (done || lia). do 2 f_equal. lia.
Qed.

Lemma bits_above z w i : 0 <= z < 2 ^ w → 0 <= w <= i → Z.testbit z i = false.
Proof.
  intros Hz Hi. rewrite <- (Z.mod_small z (2 ^ w)) by done. apply Z.mod_pow2_bits_high. lia.
Qed.

(** Shifting away the low bits keeps exactly the leading ones. *)
Lemma prefix_bits xs ys (v : nat) :
  bytes xs → bytes ys → length xs = length ys → (v <= 8 * length xs)%nat →
  Z.shiftr (be_bytes xs 0) (width xs - Z.of_nat v) = Z.shiftr (be_bytes ys 0) (width xs - Z.of_nat v) ↔
  take v (addr_bits xs) = take v (addr_bits ys).
Proof.
  intros Hx Hy Hlen Hv. pose proof (be_bytes_range xs Hx) as Rx. pose proof (be_bytes_range ys Hy) as Ry.
  rewrite <- Hlen in Ry. split.
  - intros E. apply list_eq. intros j. destruct (decide (j < v)%nat).
    + rewrite !lookup_take_lt, !addr_bits_lookup by (done || lia). rewrite <- Hlen. f_equal.
      apply (f_equal (λ z, Z.testbit z (Z.of_nat v - 1 - Z.of_nat j))) in E.
      rewrite !Z.shiftr_spec in E by lia.
      replace (Z.of_nat v - 1 - Z.of_nat j + (width xs - Z.of_nat v)) with (width xs - 1 - Z.of_nat j) in E
        by lia. done.
    + rewrite !lookup_take_ge by lia. done.
  - intros E. apply Z.bits_inj'. intros i Hi. rewrite !Z.shiftr_spec by lia.
    destruct (decide (i < Z.of_nat v)) as [Hlt|Hge].
    + apply (f_equal (λ l, l !! Z.to_nat (Z.of_nat v - 1 - i))) in E. cbv beta in E.
      rewrite !lookup_take_lt, !addr_bits_lookup in E by (done || lia). rewrite <- Hlen in E.
      injection E as E. rewrite Z2Nat.id in E by lia.
      replace (i + (width xs - Z.of_nat v)) with (width xs - 1 - (Z.of_nat v - 1 - i)) by lia. done.
    + rewrite !(bits_above _ (width xs)); done || lia.
Qed.

(** * The key *)

Lemma bytes_valid_app xs ys : bytes (xs ++ ys) → bytes xs ∧ bytes ys.
Proof. apply Forall_app. Qed.

Lemma mapped_spec bs :
  bytes bs → length bs = 16%nat →
  Z.shiftr (be_bytes bs 0) 32 = 65535 ↔ take 12 bs = replicate 10 0 ++ [255; 255].
Proof.
  intros Hb Hlen. rewrite <- (take_drop 12 bs) in Hb |- * at 1.
  apply bytes_valid_app in Hb as [Ht Hd].
  assert (length (drop 12 bs) = 4%nat) as Hd4 by (rewrite length_drop; lia).
  replace 32 with (width (drop 12 bs)) by (rewrite Hd4; done).
  rewrite be_bytes_high by done. split.
  - intros E. apply be_bytes_inj; [done|by repeat constructor|rewrite length_take, Hlen; done|done].
  - by intros ->.
Qed.

Lemma canon_valid bs : valid_ip bs → valid_ip (canon bs).
Proof.
  intros [Hb Hl]. unfold canon. case_decide as Hm; [|done]. destruct Hm as [Hlen _].
  split; [by apply Forall_drop|left]. rewrite length_drop. lia.
Qed.

Definition masked (x v : Z) : Z := Z.shiftl (Z.shiftr x (128 - v)) (128 - v).

Lemma ipKey_value bs v :
  valid_ip bs → 1 <= v <= 128 →
  ipKey (TCPAddr bs) v =
  Some (if decide (length (canon bs) = 4%nat) then V4 (be_bytes (canon bs) 0)
        else V6 (masked (be_bytes (canon bs) 0) v)).
Proof.
  intros [Hb Hl] Hv. unfold ipKey, AddrFromSlice, canon. destruct Hl as [Hl|Hl]; rewrite Hl;
    cbn [Nat.eqb mbind option_bind].
  { rewrite (decide_False (P := (4%nat = 16%nat ∧ _))) by (intros [? _]; done).
    by rewrite decide_True. }
  unfold Unmap. pose proof (mapped_spec bs Hb Hl) as Hm.
  destruct (Z.eqb_spec (Z.shiftr (be_bytes bs 0) 32) 65535) as [E|E].
  - pose proof (conj (eq_refl 16%nat) (proj1 Hm E)) as Hmap. rewrite (decide_True _ _ Hmap).
    rewrite decide_True by (rewrite length_drop, Hl; done). do 2 f_equal.
    assert (length (drop 12 bs) = 4%nat) as Hd4 by (rewrite length_drop; lia).
    rewrite <- (be_bytes_low (take 12 bs) (drop 12 bs)) by (by apply Forall_drop).
    by rewrite take_drop, Hd4.
  - assert (¬ (16%nat = 16%nat ∧ take 12 bs = replicate 10 0 ++ [255; 255])) as Hmap
      by (intros [_ Ht]; exact (E (proj2 Hm Ht))).
    rewrite (decide_False _ _ Hmap).
    rewrite decide_False by (rewrite Hl; done). unfold Prefix, masked.
    destruct (Z.ltb_spec v 128).
    + rewrite (proj2 (Z.ltb_ge v 0)), (proj2 (Z.ltb_ge 128 v)) by lia. done.
    + replace (128 - v) with 0 by lia. by rewrite Z.shiftr_0_r, Z.shiftl_0_r.
Qed.

Lemma masked_eq x y v : v <= 128 →
  masked x v = masked y v ↔ Z.shiftr x (128 - v) = Z.shiftr y (128 - v).
Proof.
  intros Hv. unfold masked. split; [|by intros ->]. intros E.
  apply (f_equal (λ z, Z.shiftr z (128 - v))) in E.
  by rewrite !Z.shiftr_shiftl_l, !Z.sub_diag, !Z.shiftl_0_r in E by lia.
Qed.

(** C24: Every TCP remote address with an IPv4 or IPv6 address has a key, and
    two have the same one exactly when they are the same client: both IPv4
    (IPv4-mapped IPv6 included) with equal addresses, or both IPv6 with the
    same first [v] bits. *)
Theorem ipKey_groups (a b : list Z) (v : nat) :
  valid_ip a → valid_ip b → (1 <= v <= 128)%nat →
  is_Some (ipKey (TCPAddr a) (Z.of_nat v)) ∧
  (ipKey (TCPAddr a) (Z.of_nat v) = ipKey (TCPAddr b) (Z.of_nat v) ↔
   length (canon a) = length (canon b) ∧ client v a = client v b).
Proof.
  intros Ha Hb Hv. pose proof (canon_valid a Ha) as [Ba La]. pose proof (canon_valid b Hb) as [Bb Lb].
  rewrite !ipKey_value by (done || lia). split; [done|]. unfold client.
  destruct La as [La|La], Lb as [Lb|Lb]; rewrite La, Lb; simpl decide;
    rewrite ?(decide_True (P := (4%nat = 4%nat))), ?(decide_False (P := (16%nat = 4%nat))) by done.
  - pose proof (prefix_bits (canon a) (canon b) 32 Ba Bb ltac:(lia) ltac:(lia)) as Hp.
    rewrite La in Hp. change (8 * Z.of_nat 4 - Z.of_nat 32) with 0 in Hp. rewrite !Z.shiftr_0_r in Hp.
    rewrite !take_ge in Hp by (rewrite length_addr_bits; lia). rewrite <- Hp. split; [|by intros [_ ->]].
    intros E. split; [done|]. congruence.
  - split; [done|]. by intros [? _].
  - split; [done|]. by intros [? _].
  - pose proof (prefix_bits (canon a) (canon b) v Ba Bb ltac:(lia) ltac:(lia)) as Hp.
    rewrite La in Hp. change (8 * Z.of_nat 16) with 128 in Hp. rewrite <- Hp.
    rewrite <- masked_eq by lia. split; [|by intros [_ ->]]. intros E. split; [done|]. congruence.
Qed.

Lemma ipKey_groups_witness :
  ipKey (TCPAddr [10; 0; 0; 1]) 64 = ipKey (TCPAddr [0;0;0;0;0;0;0;0;0;0;255;255;10;0;0;1]) 64 ∧
  ipKey (TCPAddr [32;1;13;184;0;0;0;0;0;0;0;0;0;0;0;1]) 64 =
  ipKey (TCPAddr [32;1;13;184;0;0;0;0;9;9;9;9;9;9;9;9]) 64.
Proof.
  split.
  - apply (ipKey_groups [10; 0; 0; 1] [0;0;0;0;0;0;0;0;0;0;255;255;10;0;0;1] 64);
      [split; [repeat constructor; lia|by left]|split; [repeat constructor; lia|by right]|lia|].
    split; vm_compute; reflexivity.
  - apply (ipKey_groups [32;1;13;184;0;0;0;0;0;0;0;0;0;0;0;1] [32;1;13;184;0;0;0;0;9;9;9;9;9;9;9;9] 64);
      [split; [repeat constructor; lia|by right]|split; [repeat constructor; lia|by right]|lia|].
    split; vm_compute; reflexivity.
Defined.
