(* ===== verification/TcpAcct.v ===== *)
(** The tcp server's accounting: admission slots, connections, counters and
    the end of Serve. *)
From S2P Require Import Prelude Interleave Limit Internal Tcp.

Local Open Scope Z_scope.

(** * Per-address slots *)

Definition pk_ok (p : PerKey.PerKey Addr) : Prop :=
  0 < PerKey.max p <= max_int64 ∧ ∀ k v, PerKey.n p !! k = Some v → 1 <= v <= PerKey.max p.

Lemma pk_InUse_range p k : pk_ok p → 0 <= PerKey.InUse p k <= PerKey.max p.
Proof.
  intros [Hm Hv]. unfold PerKey.InUse. destruct (PerKey.n p !! k) eqn:E; simpl; [|lia].
  specialize (Hv _ _ E). lia.
Qed.

Lemma pk_TryAcquire p k p' b :
  pk_ok p → PerKey.TryAcquire p k = (p', b) →
  pk_ok p' ∧ PerKey.max p' = PerKey.max p ∧
  (∀ k', PerKey.InUse p' k' = PerKey.InUse p k' + if b && bool_decide (k' = k) then 1 else 0).
Proof.
  intros Hp Hr. pose proof (pk_InUse_range p k Hp) as Hin. destruct Hp as [Hm Hv].
  unfold PerKey.TryAcquire in Hr. destruct (Z.leb_spec (PerKey.max p) (PerKey.InUse p k)); simplify_eq.
  { split_and!; try done. intros. simpl. lia. }
  assert (i64 (PerKey.InUse p k + 1) = PerKey.InUse p k + 1) as E
    by (apply i64_small; unfold in_i64, max_int64 in *; lia).
  split_and!; [split; [done|]|done|]; simpl.
  - intros k' v [[-> <-]|[_ ?]]%lookup_insert_Some; [lia|by eapply Hv].
  - intros k'. unfold PerKey.InUse at 1. simpl. rewrite lookup_insert.
    case_decide; case_bool_decide; subst; simpl; try done; try congruence. unfold PerKey.InUse. lia.
Qed.

Lemma pk_Release p k :
  pk_ok p → 0 < PerKey.InUse p k →
  ∃ p', PerKey.Release p k = Some p' ∧ pk_ok p' ∧ PerKey.max p' = PerKey.max p ∧
    ∀ k', PerKey.InUse p' k' = PerKey.InUse p k' - if bool_decide (k' = k) then 1 else 0.
Proof.
  intros [Hm Hv] Hin. unfold PerKey.Release, PerKey.InUse in *.
  destruct (PerKey.n p !! k) as [v|] eqn:E; simpl in Hin; [|lia]. specialize (Hv _ _ E) as Hr.
  destruct (Z.eqb_spec v 1).
  - eexists. split; [done|]. split_and!; [split; [done|]|done|]; simpl.
    + intros k' v' [_ ?]%lookup_delete_Some. by eapply Hv.
    + intros k'. rewrite lookup_delete. case_decide; case_bool_decide; subst; simpl; try congruence.
      * rewrite E. simpl. lia.
      * lia.
  - eexists. split; [done|]. split_and!; [split; [done|]|done|]; simpl.
    + intros k' v' [[-> <-]|[_ ?]]%lookup_insert_Some; [lia|by eapply Hv].
    + intros k'. rewrite lookup_insert. case_decide; case_bool_decide; subst; simpl; try congruence.
      * rewrite E. simpl. lia.
      * lia.
Qed.

Section thms.
Context (o : Options).
Local Abbreviation next := (next o).
Implicit Types (s : Sh) (l : Local).

(** * Obligations *)

(** A resource of the server: its amount, and what each operation gives back.
    [nrm] is the identity, or the wrap of a counter. *)
Record resource := mkRes { res : Sh → Z; wt : op → Z; nrm : Z → Z }.

Definition wconn (R : resource) (c : Conn) : Z := zsum (wt R) (worker_ops o c).
Definition wop (R : resource) (x : op) : Z :=
  match x with OSpawn c => wconn R c | _ => wt R x end.
Definition wseq (R : resource) (ops : list op) : Z := zsum (wop R) ops.
Definition wkey (R : resource) (c : Conn) : Z :=
  match slot c with Some k => wt R (ORelKey k) | None => 0 end.

(** What a goroutine has still to give back. *)
Definition owes (R : resource) l : Z :=
  match at_pc l with
  | VKey i _ => wt R (OClose i)
  | VAdmit c => wt R (OClose (num c)) + wkey R c
  | VTrack c => wt R (OClose (num c)) + zsum (wt R) (release o c)
  | Seq ops _ => wseq R ops
  | WHandler c => wconn R c
  | _ => 0
  end.
Definition owed_spawned (R : resource) s : Z := zsum (wconn R) (spawned s).
Definition total (R : resource) (c : conf) : Z :=
  zsum (owes R) (procs c) + owed_spawned R (shared c).

(** The part of the state resources depend on. *)
Definition core s := (taken s, perIP s, permits s, count s, wg s, netClosed s).

Lemma core_inj s s' :
  core s' = core s → taken s' = taken s ∧ perIP s' = perIP s ∧ permits s' = permits s ∧
  count s' = count s ∧ wg s' = wg s ∧ netClosed s' = netClosed s.
Proof. unfold core. intros Hc. by simplify_eq. Qed.

Definition untouched s : Prop :=
  taken s = 0%nat ∧ (∀ p, perIP s = Some p → PerKey.n p = ∅) ∧ permits s = 0 ∧
  (∀ c, count s c = 0) ∧ wg s = 0 ∧ netClosed s = [].

Record lawful (R : resource) : Prop := {
  r_zero s : untouched s → res R s = 0;
  nrm_add a b : nrm R (nrm R a + b) = nrm R (a + b);
  r_core s s' : core s' = core s → res R s' = res R s;
  r_spawn c : wt R (OSpawn c) = 0;
  r_exec s x : crashed s = false → crashed (exec s x) = false →
    nrm R (res R (exec s x)) = nrm R (res R s - wt R x);
  r_arrive s a : res R (set_arrivals s a (S (taken s))) = res R s + wt R (OClose (taken s));
  r_key s p k p' : perIP s = Some p → pk_ok p → PerKey.TryAcquire p k = (p', true) →
    res R (set_perIP s (Some p')) = res R s + wt R (ORelKey k);
  r_admit s : res R (set_permits s (permits s + 1)) = res R s + wt R ORelAdmit;
  r_cycle i : wt R (OInc Accepted) + wt R (OInc Active) + wt R OWgAdd +
    (wt R (OUntrack i) + wt R (ODec Active) + wt R (OInc ClosedC) + wt R OWgDone) = 0;
  r_reject : wt R (OInc Rejected) = 0 ∧ wt R (OInc RejectedPerIP) = 0 ∧
    wt R (OInc AcceptErrors) = 0;
  r_abort i : wt R (OAbortClose i) = 0 }.

Lemma wseq_cons R x ops : wseq R (x :: ops) = wop R x + wseq R ops.
Proof. done. Qed.

Lemma wseq_plain R ops : (∀ c, OSpawn c ∉ ops) → wseq R ops = zsum (wt R) ops.
Proof.
  intros Hn. apply zsum_ext. intros x Hx. unfold wop. destruct x; try done.
  by destruct (Hn c).
Qed.

Lemma release_plain c c' : OSpawn c' ∉ release o c.
Proof. unfold release. destruct (hasAdmit o), (slot c); set_solver. Qed.

Lemma worker_plain c c' : OSpawn c' ∉ worker_ops o c.
Proof. unfold worker_ops. pose proof (release_plain c c'). set_solver. Qed.

Lemma owes_resume R l k : owes R (resume l k) = 0.
Proof. destruct k as [|[]| | | |]; done. Qed.

Lemma owes_run_seq R l ops k : owes R (run_seq l ops k) = wseq R ops.
Proof. destruct ops; [apply owes_resume|done]. Qed.

(** A step changes a resource by what the goroutine's obligations change. *)
Definition balanced (R : resource) s l s' l' : Prop :=
  nrm R (res R s') = nrm R (res R s + (owes R l' - owes R l) + (owed_spawned R s' - owed_spawned R s)).

Lemma balanced_same R s l s' l' :
  lawful R → core s' = core s → spawned s' = spawned s → owes R l' = owes R l →
  balanced R s l s' l'.
Proof.
  intros HR Hc Hsp Ho. unfold balanced, owed_spawned. rewrite (r_core R HR s s' Hc), Hsp, Ho.
  f_equal. lia.
Qed.

Lemma exec_spawned s x : (∀ c, x ≠ OSpawn c) → spawned (exec s x) = spawned s.
Proof. intros Hx. destruct x; simpl; repeat case_match; try done. by destruct (Hx c). Qed.

Lemma balanced_op R s l x rest k :
  lawful R → at_pc l = Seq (x :: rest) k → crashed s = false → crashed (exec s x) = false →
  balanced R s l (exec s x) (run_seq l rest k).
Proof.
  intros HR Hpc Hc Hc'. unfold balanced. rewrite owes_run_seq. unfold owes at 1. rewrite Hpc, wseq_cons.
  assert ((∃ c, x = OSpawn c) ∨ ∀ c, x ≠ OSpawn c) as [[c ->]|Hx] by (destruct x; eauto).
  - rewrite (r_core R HR s) by done. unfold owed_spawned. simpl. rewrite zsum_app. simpl. f_equal. lia.
  - rewrite (r_exec R HR s x Hc Hc'). unfold owed_spawned. rewrite exec_spawned by done.
    f_equal. unfold wop. destruct x; try lia. by destruct (Hx c).
Qed.

Lemma owes_enter R l c :
  lawful R → owes R (goto l (Seq [OInc Accepted; OInc Active; OWgAdd; OSpawn c] (KAccept 0))) =
  wt R (OClose (num c)) + zsum (wt R) (release o c).
Proof.
  intros HR. unfold owes, wseq, wop, wconn, worker_ops. simpl. rewrite zsum_app. simpl.
  pose proof (r_cycle R HR (num c)). lia.
Qed.

Lemma balanced_start R s l c rest s' l' :
  lawful R → at_pc l = Ready →
  (s', l') ∈ start s (mkLocal Ready rest (rets l)) c → balanced R s l s' l'.
Proof.
  intros HR Hpc Hn. assert (owes R l = 0) as H0 by (unfold owes; by rewrite Hpc).
  destruct c; simpl in Hn; repeat case_match; inv_elem; try (by apply balanced_same).
  unfold balanced. rewrite (r_core R HR s), H0 by done. unfold owed_spawned. simpl.
  rewrite H. simpl. unfold owes. simpl. f_equal. lia.
Qed.

Ltac tcp_same Hpc :=
  apply balanced_same; try done; rewrite ?owes_resume; unfold owes; rewrite Hpc; done.

Lemma key_balanced R s l i a s' l' :
  lawful R → (∀ p, perIP s = Some p → pk_ok p) → at_pc l = VKey i a → crashed s = false →
  (s', l') ∈ next s l → balanced R s l s' l'.
Proof.
  intros HR Hpk Hpc Hc Hn. open_next Hn. rewrite Hpc in Hn.
  assert (balanced R s l s (goto l (VAdmit (mkConn i None)))) as Hnone.
  { apply balanced_same; try done. unfold owes, wkey. rewrite Hpc. simpl. lia. }
  destruct (perIP s) as [p|] eqn:Hp; [|by inv_elem].
  destruct (ipKey a (v6bits s)) as [k|]; [|by inv_elem].
  destruct (PerKey.TryAcquire p k) as [p' [|]] eqn:Et; inv_elem.
  - unfold balanced. rewrite (r_key R HR s p k p') by auto. unfold owes, wkey, owed_spawned.
    rewrite Hpc. simpl. f_equal. lia.
  - unfold PerKey.TryAcquire in Et. case_match; simplify_eq.
    apply balanced_same; [done| |done|].
    + unfold core. simpl. by rewrite Hp.
    + unfold owes, wseq. rewrite Hpc. simpl. destruct (r_reject R HR) as (_ & -> & _). lia.
Qed.

Lemma admit_balanced R s l c s' l' :
  lawful R → at_pc l = VAdmit c → (s', l') ∈ next s l → balanced R s l s' l'.
Proof.
  intros HR Hpc Hn. open_next Hn. rewrite Hpc in Hn.
  assert (zsum (wt R) (release o c) = (if hasAdmit o then wt R ORelAdmit else 0) + wkey R c) as Hrel.
  { unfold release, wkey. rewrite zsum_app. destruct (hasAdmit o), (slot c); simpl; lia. }
  destruct (hasAdmit o) eqn:Ha; inv_elem.
  - unfold balanced. rewrite (r_admit R HR). unfold owes, owed_spawned. rewrite Hpc. simpl. rewrite Hrel.
    f_equal. lia.
  - apply balanced_same; try done. unfold owes, wkey. rewrite Hpc.
    destruct (r_reject R HR) as (Hr & _ & _). unfold wseq.
    destruct (slot c); simpl; rewrite Hr; lia.
  - apply balanced_same; try done. unfold owes. rewrite Hpc. simpl. rewrite Hrel. lia.
Qed.

Lemma next_balanced R s l s' l' :
  lawful R → (∀ p, perIP s = Some p → pk_ok p) → crashed s = false → crashed s' = false →
  (s', l') ∈ next s l → balanced R s l s' l'.
Proof.
  intros HR Hpk Hc Hc' Hn. destruct (at_pc l) eqn:Hpc;
    [| | | |by eapply key_balanced|by eapply admit_balanced|..];
    open_next Hn; rewrite Hpc in Hn.
  - destruct (todo l); [by inv_elem|]. by eapply balanced_start.
  - destruct (lnClosed s); [inv_elem; tcp_same Hpc|].
    destruct (arrivals s) as [|[a| |] rest]; inv_elem; try tcp_same Hpc.
    unfold balanced. rewrite (r_arrive R HR). unfold owes, owed_spawned. rewrite Hpc. simpl.
    f_equal. lia.
  - destruct (stopped s); [|destruct temp]; inv_elem; try tcp_same Hpc.
    pose proof (r_exec R HR s (OInc AcceptErrors) Hc Hc') as He.
    destruct (r_reject R HR) as (_ & _ & Hz). unfold balanced. simpl in He.
    rewrite He, Hz. unfold owes, owed_spawned. rewrite Hpc. simpl. f_equal. lia.
  - apply elem_of_cons in Hn as [?|Hn]; [|case_match]; inv_elem; tcp_same Hpc.
  - destruct (stopped s).
    + apply list_elem_of_singleton in Hn. simplify_eq. apply balanced_same; try done.
      rewrite owes_run_seq. unfold owes. rewrite Hpc.
      rewrite wseq_plain by (intros c' ?; pose proof (release_plain c c'); set_solver).
      rewrite zsum_app. simpl. lia.
    + apply list_elem_of_singleton in Hn. simplify_eq. apply balanced_same; try done.
      rewrite owes_enter by done. unfold owes. by rewrite Hpc.
  - destruct ops as [|x rest]; apply list_elem_of_singleton in Hn; simplify_eq.
    + apply balanced_same; try done. rewrite owes_resume. unfold owes. by rewrite Hpc.
    + by apply balanced_op.
  - case_match; inv_elem; tcp_same Hpc.
  - inv_elem. tcp_same Hpc.
  - case_match; inv_elem; tcp_same Hpc.
  - inv_elem. apply balanced_same; try done. unfold owes. rewrite Hpc.
    change (wseq R (worker_ops o c) = wconn R c). apply wseq_plain, worker_plain.
  - repeat case_match; inv_elem; tcp_same Hpc.
  - inv_elem. tcp_same Hpc.
  - inv_elem. tcp_same Hpc.
  - apply list_elem_of_singleton in Hn. case_match; simplify_eq; tcp_same Hpc.
  - apply list_elem_of_singleton in Hn. simplify_eq. apply balanced_same; try done.
    rewrite owes_run_seq. unfold owes. rewrite Hpc. unfold wseq. apply zsum_zero.
    intros x (i & -> & _)%list_elem_of_fmap. apply (r_abort R HR).
  - case_match; inv_elem; tcp_same Hpc.
  - repeat case_match; inv_elem; tcp_same Hpc.
  - case_match; inv_elem; tcp_same Hpc.
Qed.

(** ** The resources *)

(** The slots of address [k0]. *)
Definition R_key (k0 : Addr) : resource := mkRes
  (λ s, match perIP s with Some p => PerKey.InUse p k0 | None => 0 end)
  (λ x, match x with ORelKey k => if bool_decide (k = k0) then 1 else 0 | _ => 0 end) (λ z, z).
(** The permits of Admit. *)
Definition R_admit : resource := mkRes permits (λ x, match x with ORelAdmit => 1 | _ => 0 end) (λ z, z).
(** The WaitGroup. *)
Definition R_wg : resource := mkRes wg
  (λ x, match x with OWgAdd => -1 | OWgDone => 1 | _ => 0 end) (λ z, z).
(** The gauge Active. *)
Definition R_active : resource := mkRes (λ s, count s Active)
  (λ x, match x with OInc Active => -1 | ODec Active => 1 | _ => 0 end) u64.
(** Accepted minus Closed. *)
Definition R_open : resource := mkRes (λ s, count s Accepted - count s ClosedC)
  (λ x, match x with OInc Accepted => -1 | OInc ClosedC => 1
                   | ODec Accepted => 1 | ODec ClosedC => -1 | _ => 0 end) u64.
(** Connection [i]: taken from the listener and not yet closed by its owner. *)
Definition R_close (i : nat) : resource := mkRes
  (λ s, (if decide (i < taken s)%nat then 1 else 0) -
        Z.of_nat (length (filter (λ j, j = i) (netClosed s))))
  (λ x, match x with OClose j => if bool_decide (j = i) then 1 else 0 | _ => 0 end) (λ z, z).

Lemma pk_Release_eq (p : PerKey.PerKey Addr) (k k' : Addr) p' :
  PerKey.Release p k = Some p' →
  PerKey.InUse p' k' = PerKey.InUse p k' - if bool_decide (k = k') then 1 else 0.
Proof.
  unfold PerKey.Release, PerKey.InUse. destruct (PerKey.n p !! k) as [v|] eqn:E; [|done].
  destruct (Z.eqb_spec v 1); intros ?; simplify_eq/=.
  - rewrite lookup_delete. case_decide; case_bool_decide; subst; simpl; try congruence; [|lia].
    rewrite E. simpl. lia.
  - rewrite lookup_insert. case_decide; case_bool_decide; subst; simpl; try congruence; [|lia].
    rewrite E. simpl. lia.
Qed.

Ltac lawful_case :=
  repeat match goal with
    | H : core _ = core _ |- _ => apply core_inj in H as (?&?&?&?&?&?) end;
  unfold untouched in *; simpl in *; destruct_and?; repeat case_match; simplify_eq/=;
  try done; try lia; try congruence.

Lemma lawful_key k0 : lawful (R_key k0).
Proof.
  split; try (intros; by lawful_case).
  - intros s (_ & Hp & _). simpl. destruct (perIP s) as [p|]; [|done].
    unfold PerKey.InUse. by rewrite (Hp p), lookup_empty.
  - intros s x Hc Hc'. 
    destruct x as [|k| | | | | | | |]; simpl in *; try (by destruct (perIP s); lia).
    + destruct (perIP s) as [p|] eqn:Ep; [|done].
      destruct (PerKey.Release p k) as [p'|] eqn:Er; [|done]. simpl. by apply pk_Release_eq.
    + destruct (wg s <=? 0); simpl; [done|lia].
  - intros s p k p' Hp Hok Ht. simpl. rewrite Hp.
    destruct (pk_TryAcquire p k p' true Hok Ht) as (_ & _ & ->). simpl.
    repeat case_bool_decide; congruence.
Qed.

Lemma lawful_admit : lawful R_admit.
Proof.
  split; try (intros; by lawful_case).
  intros s x Hc Hc'. destruct x; by lawful_case.
Qed.

Lemma lawful_wg : lawful R_wg.
Proof.
  split; try (intros; by lawful_case).
  intros s x Hc Hc'. destruct x; by lawful_case.
Qed.

Lemma upd_other f c c' v : c' ≠ c → upd f c v c' = f c'.
Proof. intros. unfold upd. by rewrite decide_False. Qed.

Lemma upd_same f c v : upd f c v c = v.
Proof. unfold upd. by rewrite decide_True. Qed.

Lemma u64_idem v : u64 (u64 v) = u64 v.
Proof. unfold u64, wrap_u. by rewrite Z.mod_mod. Qed.

Lemma u64_Dec v : u64 (Counter.Dec v) = u64 (v - 1).
Proof.
  unfold Counter.Dec. rewrite u64_idem. unfold u64, wrap_u.
  replace (v + (2 ^ 64 - 1)) with (v - 1 + 1 * 2 ^ 64) by lia. by rewrite Z.mod_add.
Qed.

Lemma u64_Inc v : u64 (Counter.Inc v) = u64 (v + 1).
Proof. apply u64_idem. Qed.

Lemma lawful_active : lawful R_active.
Proof.
  split; try (intros; by lawful_case).
  - apply u64_add_l.
  - intros s x Hc Hc'. destruct x as [| | |c|c| | | | |]; simpl in *; try (by rewrite Z.sub_0_r);
      try (repeat case_match; simpl in *; try done; by rewrite Z.sub_0_r).
    + destruct c; rewrite ?upd_other by done; try (by rewrite Z.sub_0_r).
      rewrite upd_same, u64_Inc. f_equal; lia.
    + destruct c; rewrite ?upd_other by done; try (by rewrite Z.sub_0_r).
      by rewrite upd_same, u64_Dec.
Qed.

Lemma u64_sub_l a b : u64 (u64 a - b) = u64 (a - b).
Proof. unfold Z.sub. apply u64_add_l. Qed.

Lemma u64_sub_r a b : u64 (a - u64 b) = u64 (a - b).
Proof. unfold u64, wrap_u. by rewrite Zminus_mod_idemp_r. Qed.

Lemma lawful_open : lawful R_open.
Proof.
  split; try (intros; by lawful_case).
  - intros s (_ & _ & _ & H0 & _). simpl. by rewrite !H0.
  - apply u64_add_l.
  - intros s x Hc Hc'. destruct x as [| | |c|c| | | | |]; simpl in *; try (by rewrite Z.sub_0_r);
      try (repeat case_match; simpl in *; try done; by rewrite Z.sub_0_r).
    + destruct c; rewrite ?(upd_other _ _ Accepted), ?(upd_other _ _ ClosedC) by done;
        try (by rewrite Z.sub_0_r); rewrite upd_same.
      * rewrite <- u64_sub_l, u64_Inc, u64_sub_l. f_equal; lia.
      * rewrite <- u64_sub_r, u64_Inc, u64_sub_r. f_equal; lia.
    + destruct c; rewrite ?(upd_other _ _ Accepted), ?(upd_other _ _ ClosedC) by done;
        try (by rewrite Z.sub_0_r); rewrite upd_same.
      * rewrite <- u64_sub_l, u64_Dec, u64_sub_l. f_equal; lia.
      * rewrite <- u64_sub_r, u64_Dec, u64_sub_r. f_equal; lia.
Qed.

Lemma lawful_close i : lawful (R_close i).
Proof.
  split; try (intros; by lawful_case).
  - intros s (Ht & _ & _ & _ & _ & Hn). simpl. rewrite Ht, Hn. by rewrite decide_False by lia.
  - intros s x Hc Hc'. destruct x; simpl in *; try lia;
      try (repeat case_match; simpl in *; done || lia).
    rewrite filter_cons. repeat case_decide; case_bool_decide; simpl; try congruence; lia.
  - intros s a. simpl. repeat case_decide; case_bool_decide; subst; lia.
Qed.
End thms.
