(* ===== verification/TcpInv.v ===== *)
(** The tcp server's invariant: one accept loop, one stopper, obligations
    that balance, and flags that only rise. *)
From S2P Require Import Prelude Interleave Limit Internal Tcp TcpAcct.

Local Open Scope Z_scope.

Lemma zsum_two {A} (f : A → Z) (ps : list A) i j x y :
  (∀ x, 0 <= f x) → i ≠ j → ps !! i = Some x → ps !! j = Some y → f x + f y <= zsum f ps.
Proof.
  intros Hf Hij Hi Hj. pose proof (zsum_insert f ps i x y Hi) as E.
  assert (<[i:=y]> ps !! j = Some y) as Hj' by (by rewrite list_lookup_insert_ne).
  assert (2 * f y <= zsum f (<[i:=y]> ps)); [|lia].
  revert i j Hij Hi Hj Hj' E. induction ps as [|z ps IH]; intros [|i] [|j] Hij Hi Hj Hj' E; simpl in *;
    simplify_eq.
  - pose proof (zsum_elem_pos f ps y Hf ltac:(by eapply list_elem_of_lookup_2)). lia.
  - pose proof (zsum_elem_pos f (<[i:=y]> ps) y Hf
      ltac:(eapply list_elem_of_lookup_2, list_lookup_insert_eq; by eapply lookup_lt_Some)). lia.
  - pose proof (Hf z). enough (2 * f y <= zsum f (<[i:=y]> ps)) by lia.
    eapply (IH i j); try done; [lia|]. lia.
Qed.

Section inv.
Context (o : Options).
Local Abbreviation next := (next o).
Local Abbreviation owes := (owes o).
Local Abbreviation total := (total o).
Implicit Types (s : Sh) (l : Local).

(** * The accept loop and the stopper *)

Definition kserve (k : kont) : bool :=
  match k with KAccept _ | KServeEnd _ | KWait _ => true | _ => false end.
(** The goroutine is inside Serve. *)
Definition inloop l : Z :=
  match at_pc l with
  | VAccept _ | VFailed _ _ | VBackoff _ | VKey _ _ | VAdmit _ | VTrack _
  | VWait _ | VCancel _ | VDone _ => 1
  | Seq _ k | StopOnce k | StopSet k | StopLn k | StopDrain k | AbortAll k =>
      if kserve k then 1 else 0
  | _ => 0
  end.
Definition serving_now s : Z := if serving s && negb (done s) then 1 else 0.
(** The goroutine runs stopOnce's function. *)
Definition stopping l : Z :=
  match at_pc l with StopSet _ | StopLn _ | StopDrain _ => 1 | _ => 0 end.
Definition stopping_now s : Z := if decide (once s = Some false) then 1 else 0.

Lemma inloop_nonneg l : 0 <= inloop l.
Proof. unfold inloop. repeat case_match; lia. Qed.
Lemma stopping_nonneg l : 0 <= stopping l.
Proof. unfold stopping. repeat case_match; lia. Qed.
Lemma inloop_resume l k : inloop (resume l k) = if kserve k then 1 else 0.
Proof. destruct k as [|[]| | | |]; done. Qed.
Lemma inloop_run_seq l ops k : inloop (run_seq l ops k) = if kserve k then 1 else 0.
Proof. destruct ops; [apply inloop_resume|done]. Qed.
Lemma stopping_resume l k : stopping (resume l k) = 0.
Proof. destruct k as [|[]| | | |]; done. Qed.
Lemma stopping_run_seq l ops k : stopping (run_seq l ops k) = 0.
Proof. destruct ops; [apply stopping_resume|done]. Qed.

(** Flags only rise; the configuration of the limits stays. *)
Record rises s s' : Prop := {
  up_stopped : stopped s = true → stopped s' = true;
  up_done : done s = true → done s' = true;
  up_serving : serving s = true → serving s' = true;
  up_ln : lnClosed s = true → lnClosed s' = true;
  up_once : once s = Some true → once s' = Some true }.

(** The flags that operations of straight-line code leave alone. *)
Definition flags s := (stopped s, done s, serving s, once s, draining s, v6bits s, lnClosed s).

Lemma exec_flags s x : flags (exec s x) = flags s.
Proof. destruct x; unfold flags; simpl; repeat case_match; done. Qed.
Lemma crash_flags s : flags (crash s) = flags s.
Proof. done. Qed.

Lemma flags_rises s s' : flags s' = flags s → rises s s'.
Proof. unfold flags. intros. simplify_eq. split; congruence. Qed.

Ltac tcp_cases Hn l :=
  open_next Hn; destruct (at_pc l) eqn:Hpc;
  [ destruct (todo l) as [|c0 rest0] eqn:Htodo; [by inv_elem|destruct c0; simpl in Hn] | .. ];
  repeat (case_match; try (by inv_elem)); inv_elem.

Lemma next_rises s l s' l' : (s', l') ∈ next s l → rises s s'.
Proof.
  intros Hn. tcp_cases Hn l;
    try (by apply flags_rises); try (apply flags_rises, exec_flags); split; simpl; auto; congruence.
Qed.

Lemma flags_serving s s' :
  flags s' = flags s → serving s' = serving s ∧ done s' = done s ∧ once s' = once s ∧
  draining s' = draining s ∧ stopped s' = stopped s.
Proof. unfold flags. intros. by simplify_eq. Qed.

Ltac tcp_local Hpc :=
  rewrite ?inloop_resume, ?inloop_run_seq, ?stopping_resume, ?stopping_run_seq;
  unfold inloop, stopping in *; rewrite Hpc in *; simpl in *.

Lemma inloop_step s l s' l' :
  (s', l') ∈ next s l → crashed s' = false →
  (done s = true → serving s = true) → inloop l <= serving_now s →
  inloop l' - inloop l = serving_now s' - serving_now s ∧ (done s' = true → serving s' = true).
Proof.
  intros Hn Hc Hd Hl. assert (flags s' = flags s → inloop l' = inloop l →
    inloop l' - inloop l = serving_now s' - serving_now s ∧ (done s' = true → serving s' = true)) as Hsame.
  { intros (Es & Ed & _)%flags_serving ->. unfold serving_now. rewrite Es, Ed. split; [lia|done]. }
  tcp_cases Hn l; try (apply Hsame; [first [done|apply exec_flags]|]; by tcp_local Hpc);
    unfold serving_now in *; simpl in *; split; auto; tcp_local Hpc; try done.
  all: clear Hsame; destruct (serving s), (done s); simpl in *; try done; try lia.
  all: exfalso; by discriminate Hd.
Qed.

Definition drained s : Prop := draining s = bool_decide (once s = Some true).

Lemma stopping_step s l s' l' :
  (s', l') ∈ next s l → crashed s' = false → drained s → stopping l <= stopping_now s →
  stopping l' - stopping l = stopping_now s' - stopping_now s ∧ drained s'.
Proof.
  intros Hn Hc Hd Hl. assert (flags s' = flags s → stopping l' = stopping l →
    stopping l' - stopping l = stopping_now s' - stopping_now s ∧ drained s') as Hsame.
  { intros (_ & _ & Eo & Ed & _)%flags_serving ->. unfold stopping_now, drained. rewrite Eo, Ed.
    split; [lia|done]. }
  tcp_cases Hn l; try (apply Hsame; [first [done|apply exec_flags]|]; by tcp_local Hpc);
    clear Hsame; unfold stopping_now, drained in *; simpl in *; split; tcp_local Hpc;
    repeat case_decide; repeat case_bool_decide; try done; try congruence; lia.
Qed.

(** * Nothing panics *)

(** The operations of a goroutine have the shape the code gives them: those
    of the accept loop, of serveConn, or of abortAll. *)
Definition seq_ok (ops : list op) (k : kont) : Prop :=
  (∀ n, 0 <= wseq o R_wg (drop n ops)) ∧
  (kserve k = false →
   (∃ c, ops `suffix_of` worker_ops o c) ∨ Forall (λ x, ∃ i, x = OAbortClose i) ops).

Definition shape l : Prop := match at_pc l with Seq ops k => seq_ok ops k | _ => True end.

Lemma shape_resume l k : shape (resume l k).
Proof. destruct k as [|[]| | | |]; done. Qed.
Lemma shape_run_seq l ops k : seq_ok ops k → shape (run_seq l ops k).
Proof. intros H. destruct ops; [apply shape_resume|done]. Qed.

Lemma wg_nonneg ops : OWgAdd ∉ ops → 0 <= wseq o R_wg ops.
Proof.
  intros Hn. induction ops as [|x ops IH]; [done|]. rewrite wseq_cons.
  assert (0 <= wop o R_wg x); [|specialize (IH ltac:(set_solver)); lia].
  destruct x; simpl; try lia; [set_solver|]. unfold wconn, worker_ops, release.
  destruct (hasAdmit o), (slot c); simpl; lia.
Qed.

Lemma wg_nonneg_drop ops n : OWgAdd ∉ ops → 0 <= wseq o R_wg (drop n ops).
Proof. intros Hn. apply wg_nonneg. rewrite <- (take_drop n ops) in Hn. set_solver. Qed.

Lemma release_no_add c : OWgAdd ∉ release o c.
Proof. unfold release. destruct (hasAdmit o), (slot c); set_solver. Qed.

Lemma seq_ok_enter c : seq_ok [OInc Accepted; OInc Active; OWgAdd; OSpawn c] (KAccept 0).
Proof.
  split; [|done]. intros n. assert (wconn o R_wg c = 1) as E.
  { unfold wconn, worker_ops, release. destruct (hasAdmit o), (slot c); simpl; lia. }
  destruct n as [|[|[|[|n]]]]; unfold wseq; simpl; rewrite ?E, ?drop_nil; simpl; lia.
Qed.

Lemma seq_ok_plain ops k : OWgAdd ∉ ops → kserve k = true → seq_ok ops k.
Proof. intros. split; [intros; by apply wg_nonneg_drop|congruence]. Qed.

Lemma seq_ok_tail x ops k : seq_ok (x :: ops) k → seq_ok ops k.
Proof.
  intros [Hn Hk]. split; [intros n; apply (Hn (S n))|]. intros Hs.
  destruct (Hk Hs) as [[c Hc]|Hf]; [left|right; by apply Forall_cons in Hf as [_ ?]].
  exists c. etrans; [|exact Hc]. by exists [x].
Qed.

Lemma shape_step s l s' l' : (s', l') ∈ next s l → shape l → shape l'.
Proof.
  intros Hn Hs. tcp_cases Hn l; try (apply shape_resume); try done;
    try (apply seq_ok_plain; [set_solver|done]).
  - apply shape_run_seq, seq_ok_plain; [|done]. pose proof (release_no_add c). set_solver.
  - apply seq_ok_enter.
  - apply shape_run_seq. unfold shape in Hs. rewrite Hpc in Hs. by eapply seq_ok_tail.
  - split; [|by eauto]. intros n. apply wg_nonneg_drop. unfold worker_ops.
    pose proof (release_no_add c). set_solver.
  - apply shape_run_seq. split.
    + intros n. apply wg_nonneg_drop. intros (? & ? & _)%list_elem_of_fmap. done.
    + intros _. right. apply Forall_fmap, Forall_true. eauto.
Qed.

Lemma key_nonneg k ops : 0 <= wseq o (R_key k) ops.
Proof.
  apply zsum_nonneg. intros x. unfold wop, wconn. destruct x; simpl; try lia; [case_bool_decide; lia|].
  apply zsum_nonneg. intros []; simpl; try lia. case_bool_decide; lia.
Qed.

Lemma exec_no_crash s x ops :
  crashed s = false → wseq o R_wg (x :: ops) <= wg s → 0 <= wseq o R_wg ops →
  (∀ p, perIP s = Some p → pk_ok p) →
  (∀ k, wseq o (R_key k) (x :: ops) <= res (R_key k) s) → crashed (exec s x) = false.
Proof.
  intros Hc Hw Hn Hpk Hk. destruct x as [|k| | | | | | | |]; try done; rewrite wseq_cons in Hw; simpl in Hw |- *.
  - specialize (Hk k). rewrite wseq_cons in Hk. pose proof (key_nonneg k ops). simpl in Hk.
    rewrite bool_decide_true in Hk by done. destruct (perIP s) as [p|] eqn:Hp; [|lia].
    destruct (pk_Release p k (Hpk p eq_refl) ltac:(lia)) as (p' & -> & _). done.
  - destruct (Z.leb_spec (wg s) 0); [lia|done].
Qed.

(** The server panics neither in a WaitGroup, nor in a second close, nor in
    the release of a slot that is not held. *)
Lemma no_crash s l s' l' :
  (s', l') ∈ next s l → crashed s = false → drained s → stopping l <= stopping_now s →
  inloop l <= serving_now s → owes R_wg l <= wg s → shape l →
  (∀ p, perIP s = Some p → pk_ok p) → (∀ k, owes (R_key k) l <= res (R_key k) s) →
  crashed s' = false.
Proof.
  intros Hn Hc Hd Hst Hl Hw Hsh Hpk Hk. tcp_cases Hn l; try done;
    unfold shape, stopping, inloop, TcpAcct.owes in *; rewrite Hpc in *.
  - eapply exec_no_crash; [done|exact Hw|exact (proj1 Hsh 1%nat)|done|exact Hk].
  - unfold serving_now in Hl. replace (done s) with true in Hl. rewrite andb_false_r in Hl. lia.
  - unfold stopping_now, drained in *. case_decide; [|lia]. case_bool_decide; congruence.
Qed.

(** * What a goroutine knows *)

Definition kstop (k : kont) : bool := match k with KServeEnd _ | KWait _ => true | _ => false end.
(** Places reached only after the server stopped accepting. *)
Definition after_stop l : bool :=
  match at_pc l with
  | VWait _ | VCancel _ | VDone _ | StopLn _ | StopDrain _ => true
  | Seq _ k | AbortAll k => kstop k
  | _ => false
  end.
Definition kont_of (p : pc) : option kont :=
  match p with
  | Seq _ k | StopOnce k | StopSet k | StopLn k | StopDrain k | AbortAll k => Some k
  | _ => None
  end.
Definition is_serve (r : ret) : bool := match r with RetServe _ => true | _ => false end.
Definition kont_ok (k : kont) : Prop :=
  match k with KReturn r | KAbort r => is_serve r = false | _ => True end.

Record knows s l : Prop := {
  k_stop : after_stop l = true → stopped s = true;
  k_kont k : kont_of (at_pc l) = Some k → kont_ok k;
  k_ret r : r ∈ rets l → is_serve r = true → done s = true ∧ stopped s = true }.

Lemma after_stop_resume l k : after_stop (resume l k) = kstop k.
Proof. destruct k as [|[]| | | |]; done. Qed.
Lemma after_stop_run_seq l ops k : after_stop (run_seq l ops k) = kstop k.
Proof. destruct ops; [apply after_stop_resume|done]. Qed.

Lemma knows_mono s s' l : rises s s' → knows s l → knows s' l.
Proof.
  intros [Hs Hd _ _ _] [H1 H2 H3]. split; [auto|done|].
  intros r Hr Hi. destruct (H3 r Hr Hi). auto.
Qed.

Lemma knows_goto s l p :
  knows s l → (after_stop (goto l p) = true → stopped s = true) →
  (∀ k, kont_of p = Some k → kont_ok k) → knows s (goto l p).
Proof. intros [] ??. by split. Qed.

Lemma knows_return s l r : knows s l → is_serve r = false → knows s (return_ l r).
Proof.
  intros [_ _ Hr] Hi. split; [done..|]. intros r' [?| ->%list_elem_of_singleton]%elem_of_app ?; [eauto|].
  congruence.
Qed.

Lemma knows_resume s l k :
  knows s l → kont_ok k → (kstop k = true → stopped s = true) → knows s (resume l k).
Proof.
  intros Hl Hk Hs. destruct k as [|[]| | | |]; try by apply knows_return.
  all: apply knows_goto; try done; intros ? [= <-]; done.
Qed.

Lemma knows_run_seq s l ops k :
  knows s l → kont_ok k → (kstop k = true → stopped s = true) → knows s (run_seq l ops k).
Proof.
  intros Hl Hk Hs. destruct ops; [by apply knows_resume|].
  apply knows_goto; try done. by intros ? [= <-].
Qed.

Lemma knows_pop s l c rest :
  todo l = c :: rest → knows s l → knows s (mkLocal Ready rest (rets l)).
Proof. intros _ []. by split. Qed.

Lemma knows_step s l s' l' :
  (s', l') ∈ next s l → crashed s' = false → drained s → (once s = Some true → stopped s = true) →
  knows s l → knows s' l' ∧ (once s' = Some true → stopped s' = true).
Proof.
  intros Hn Hc Hd Ho Hk. pose proof (knows_mono _ _ _ (next_rises _ _ _ _ Hn) Hk) as Hk'.
  pose proof (k_kont _ _ Hk) as Hkont. pose proof (k_stop _ _ Hk) as Hstop.
  unfold after_stop in Hstop.
  tcp_cases Hn l; rewrite ?Hpc in Hstop, Hkont; simpl in Hstop, Hkont |- *.
  all: try (split; [|try (by auto); intros E; specialize (Ho E); congruence]; first
    [ apply knows_return; [by eapply (knows_pop _ l)|done]
    | apply knows_return; done
    | apply knows_resume; by auto
    | apply knows_run_seq; by auto
    | apply knows_goto; [by first [done|eapply (knows_pop _ l)]
                        |simpl; intros; try done; by auto
                        |intros ? [= <-]; simpl; by auto]
    | apply knows_goto; [by first [done|eapply (knows_pop _ l)]
                        |simpl; intros; try done; by auto
                        |by intros ?]]).
  - split; [|done]. apply knows_goto; [done|intros _|by intros ?].
    unfold drained in Hd. rewrite H in Hd. symmetry in Hd. by apply bool_decide_eq_true in Hd; auto.
  - destruct (flags_serving _ _ (exec_flags s o0)) as (_ & _ & -> & _ & ->). split; [|done].
    apply knows_run_seq; [done|by auto|]. destruct (flags_serving _ _ (exec_flags s o0)) as (_&_&_&_& ->).
    by destruct k; auto.
  - split; [|done]. destruct Hk as [_ _ Hr]. split; [done..|].
    intros r [Hr'|_]%elem_of_app Hi; [|by auto]. destruct (Hr r Hr' Hi). by split.
Qed.

(** * Where connections come from *)

Context (arr0 : list arrival).

Definition remotes : list NetAddr := omap (λ a, match a with Arrive x => Some x | _ => None end) arr0.
(** The bits [NewServer] sets. *)
Definition bits : Z := if IPv6PrefixBits o =? 0 then 64 else IPv6PrefixBits o.
(** The key of connection [i]. *)
Definition conn_key (i : nat) : option Addr :=
  a ← remotes !! i; if 0 <? MaxConnsPerIP o then ipKey a bits else None.

Definition conn_ok (c : Conn) : Prop := slot c = conn_key (num c).
Definition from l : Prop :=
  match at_pc l with
  | VKey i a => remotes !! i = Some a
  | VAdmit c | VTrack c | WHandler c => conn_ok c
  | Seq ops _ => ∀ c, OSpawn c ∈ ops → conn_ok c
  | _ => True
  end.

Record limits s : Prop := {
  l_arr : drop (taken s) remotes =
    omap (λ a, match a with Arrive x => Some x | _ => None end) (arrivals s);
  l_none : perIP s = None ↔ MaxConnsPerIP o <= 0;
  l_some p : perIP s = Some p → pk_ok p ∧ PerKey.max p = MaxConnsPerIP o ∧ v6bits s = bits;
  l_spawned : Forall conn_ok (spawned s);
  l_count x : in_u64 (count s x) }.

Definition base s := (arrivals s, taken s, perIP s, v6bits s, spawned s, count s).

Lemma base_inj s s' :
  base s' = base s → arrivals s' = arrivals s ∧ taken s' = taken s ∧ perIP s' = perIP s ∧
  v6bits s' = v6bits s ∧ spawned s' = spawned s ∧ count s' = count s.
Proof. unfold base. intros. by simplify_eq. Qed.

Lemma limits_base s s' : base s' = base s → limits s → limits s'.
Proof.
  intros (E1 & E2 & E3 & E4 & E5 & E6)%base_inj [H1 H2 H3 H4 H5].
  split; rewrite ?E1, ?E2, ?E3, ?E4, ?E5, ?E6; done.
Qed.

Lemma limits_count s x v : limits s → in_u64 v → limits (set_count s (upd (count s) x v)).
Proof.
  intros [H1 H2 H3 H4 H5] Hv. split; try done. intros y. simpl. unfold upd. by case_decide.
Qed.

Lemma limits_perIP s p p' :
  limits s → perIP s = Some p → pk_ok p' → PerKey.max p' = PerKey.max p →
  limits (set_perIP s (Some p')).
Proof.
  intros [H1 H2 H3 H4 H5] Hp Hok Hm. split; try done; simpl.
  - rewrite <- H2, Hp. naive_solver.
  - intros ? [= <-]. destruct (H3 p Hp) as (_ & ? & ?). rewrite Hm. auto.
Qed.

Lemma limits_exec s x :
  limits s → (∀ c, x = OSpawn c → conn_ok c) → (∀ k p, x = ORelKey k → perIP s = Some p → 0 < PerKey.InUse p k) →
  limits (exec s x).
Proof.
  intros Hl Hc Hk. destruct x as [|k| |c|c| | |c| |]; simpl; try (by apply (limits_base s)).
  - destruct (perIP s) as [p|] eqn:Hp; [|by apply (limits_base s)].
    destruct (pk_Release p k) as (p' & -> & Hok & Hm & _); [exact (proj1 (l_some _ Hl p Hp))|by eauto|].
    by eapply limits_perIP.
  - apply limits_count; [done|apply u64_range].
  - apply limits_count; [done|apply u64_range].
  - case_match; by apply (limits_base s).
  - destruct Hl as [H1 H2 H3 H4 H5]. split; try done. simpl. apply Forall_app. split; [done|].
    apply Forall_singleton. auto.
Qed.

Lemma from_resume l k : from (resume l k).
Proof. destruct k as [|[]| | | |]; done. Qed.
Lemma from_run_seq l ops k : (∀ c, OSpawn c ∈ ops → conn_ok c) → from (run_seq l ops k).
Proof. destruct ops; [intros; apply from_resume|done]. Qed.

Lemma arrive_from s a rest :
  limits s → arrivals s = Arrive a :: rest →
  remotes !! taken s = Some a ∧ limits (set_arrivals s rest (S (taken s))).
Proof.
  intros [H1 H2 H3 H4 H5] Ha. rewrite Ha in H1. simpl in H1. split.
  - rewrite <- (Nat.add_0_r (taken s)), <- lookup_drop, H1. done.
  - split; try done. simpl.
    replace (S (taken s)) with (taken s + 1)%nat by lia. by rewrite <- drop_drop, H1.
Qed.

Lemma key_from s l i a s' l' :
  at_pc l = VKey i a → (s', l') ∈ next s l → limits s → from l → from l' ∧ limits s'.
Proof.
  intros Hpc Hn Hl Hf. unfold from in Hf. rewrite Hpc in Hf. open_next Hn. rewrite Hpc in Hn.
  assert (∀ k, conn_key i = k → conn_ok (mkConn i k)) as Hck by (intros ? <-; done).
  unfold conn_key in Hck. rewrite Hf in Hck. simpl in Hck.
  destruct (perIP s) as [p|] eqn:Hp.
  2:{ inv_elem. split; [|done]. apply (l_none _ Hl) in Hp. apply Hck.
      destruct (Z.ltb_spec 0 (MaxConnsPerIP o)); [lia|done]. }
  destruct (l_some _ Hl p Hp) as (Hok & Hm & Hb). rewrite Hb in Hn.
  assert (0 < MaxConnsPerIP o) as Hpos by (destruct Hok; lia).
  rewrite (proj2 (Z.ltb_lt _ _) Hpos) in Hck.
  destruct (ipKey a bits) as [k|]; [|inv_elem; split; [by apply Hck|done]].
  destruct (PerKey.TryAcquire p k) as [p' b] eqn:Et.
  destruct (pk_TryAcquire _ _ _ _ Hok Et) as (? & ? & _).
  assert (limits (set_perIP s (Some p'))) by (by eapply limits_perIP).
  destruct b; inv_elem; (split; [|done]); [by apply Hck|]. intros c. set_solver.
Qed.

Lemma from_step s l s' l' :
  (s', l') ∈ next s l → limits s → from l →
  (∀ k x ops p kk, at_pc l = Seq (x :: ops) kk → x = ORelKey k → perIP s = Some p → 0 < PerKey.InUse p k) →
  from l' ∧ limits s'.
Proof.
  intros Hn Hl Hf Hk. destruct (at_pc l) eqn:Hpc; [| | | |by eapply key_from|..];
    open_next Hn; rewrite Hpc in Hn; unfold from in Hf; rewrite Hpc in Hf.
  - destruct (todo l) as [|[] ?]; simpl in Hn.
    6:{ destruct (spawned s) eqn:Hsp; inv_elem. destruct Hl as [H1 H2 H3 H4 H5]. rewrite Hsp in H4.
        apply Forall_cons in H4 as [? ?]. by split; [|split]. }
    all: repeat case_match; inv_elem; split; try done. by apply (limits_base s).
  - destruct (lnClosed s); [by inv_elem|].
    destruct (arrivals s) as [|[a| |] rest] eqn:Ha; inv_elem.
    + by apply arrive_from.
    + split; [done|]. destruct Hl as [H1 H2 H3 H4 H5]. rewrite Ha in H1. by split.
    + split; [done|]. destruct Hl as [H1 H2 H3 H4 H5]. rewrite Ha in H1. by split.
  - repeat case_match; inv_elem; try done. split; [done|].
    apply limits_count; [done|apply u64_range].
  - repeat case_match; inv_elem; done.
  - repeat case_match; inv_elem; split; try done; try (by apply (limits_base s)).
    all: intros c'; destruct (slot c); set_solver.
  - case_match; inv_elem; split; try done; try (by apply (limits_base s)).
    + apply from_run_seq. intros c' Hc'. pose proof (release_plain o c c'). set_solver.
    + intros c' Hc'. assert (c' = c) as -> by set_solver. done.
  - destruct ops as [|x ops]; inv_elem; [split; [apply from_resume|done]|]. split.
    + apply from_run_seq. intros c Hc. apply Hf. set_solver.
    + apply limits_exec; [done| |].
      * intros c ->. apply Hf. set_solver.
      * intros k' p ->. by eapply Hk.
  - case_match; inv_elem; done.
  - inv_elem. split; [done|by apply (limits_base s)].
  - case_match; inv_elem; (split; [done|by apply (limits_base s)]).
  - inv_elem. split; [|done]. intros c' Hc'. by destruct (worker_plain o c c').
  - repeat case_match; inv_elem; (split; [first [done|apply from_resume]|by apply (limits_base s)]).
  - inv_elem. split; [done|by apply (limits_base s)].
  - inv_elem. split; [done|by apply (limits_base s)].
  - case_match; inv_elem; (split; [apply from_resume|by apply (limits_base s)]).
  - inv_elem. split; [|by apply (limits_base s)]. apply from_run_seq.
    intros c (? & ? & _)%list_elem_of_fmap. done.
  - case_match; inv_elem; done.
  - repeat case_match; inv_elem; done.
  - case_match; inv_elem; done.
Qed.

(** * Goroutines for the connections *)

(** A goroutine that waits for a connection to serve. *)
Definition idle l : Z :=
  match at_pc l, todo l with Ready, [CWorker] => 1 | _, _ => 0 end.
Definition spawns (x : op) : Z := match x with OSpawn _ => 1 | _ => 0 end.
(** A connection on its way to a goroutine. *)
Definition hold l : Z :=
  match at_pc l with
  | VKey _ _ | VAdmit _ | VTrack _ => 1
  | Seq ops _ => zsum spawns ops
  | _ => 0
  end.
Definition waiting s : Z := Z.of_nat (length (arrivals s)) + Z.of_nat (length (spawned s)).

Lemma idle_nonneg l : 0 <= idle l.
Proof. unfold idle. repeat case_match; lia. Qed.
Lemma spawns_nonneg ops : 0 <= zsum spawns ops.
Proof. apply zsum_nonneg. intros []; simpl; lia. Qed.
Lemma hold_nonneg l : 0 <= hold l.
Proof. unfold hold. repeat case_match; try lia. apply spawns_nonneg. Qed.
Lemma spawns_plain ops : (∀ c, OSpawn c ∉ ops) → zsum spawns ops = 0.
Proof. intros Hn. apply zsum_zero. intros [] Hx; try done. by destruct (Hn c). Qed.
Lemma hold_resume l k : hold (resume l k) = 0.
Proof. destruct k as [|[]| | | |]; done. Qed.
Lemma hold_run_seq l ops k : hold (run_seq l ops k) = zsum spawns ops.
Proof. destruct ops; [apply hold_resume|done]. Qed.

Lemma exec_waiting s x : waiting (exec s x) = waiting s + spawns x.
Proof.
  unfold waiting. destruct x; simpl; repeat case_match; simpl; rewrite ?length_app; simpl; lia.
Qed.

Lemma idle_step s l s' l' :
  (s', l') ∈ next s l → waiting s' + hold l' + idle l <= waiting s + hold l + idle l'.
Proof.
  intros Hn. pose proof (idle_nonneg l') as Hi.
  assert (at_pc l ≠ Ready → idle l = 0) as H0 by (unfold idle; by destruct (at_pc l)).
  tcp_cases Hn l; try (rewrite (H0 ltac:(done)));
    rewrite ?hold_run_seq, ?hold_resume, ?exec_waiting; unfold hold; rewrite Hpc;
    unfold waiting; simpl; repeat match goal with H : spawned _ = _ |- _ => rewrite H
      | H : arrivals _ = _ |- _ => rewrite H end; simpl; try lia.
  all: try (unfold idle in *; rewrite Hpc, Htodo in *; simpl in *; repeat case_match; simplify_eq; simpl; lia).
  - rewrite zsum_app, spawns_plain by apply release_plain. simpl. lia.
  - rewrite zsum_app, spawns_plain by apply release_plain. simpl. lia.
  - rewrite spawns_plain; [lia|]. intros c (? & ? & _)%list_elem_of_fmap. done.
Qed.

(** * Shutdown's view *)

Record shut s l : Prop := {
  sh_once : match at_pc l with HServing _ | HWait _ => once s = Some true | _ => True end;
  sh_wait : match at_pc l with HWait _ => serving s = true | _ => True end;
  sh_ln : match at_pc l with StopDrain _ => lnClosed s = true | _ => True end;
  sh_kont : match at_pc l with
            | Seq _ (KShutdown _) | AbortAll (KShutdown _) => False | _ => True end }.

Lemma shut_mono s s' l : rises s s' → shut s l → shut s' l.
Proof. intros [_ _ Hs Hl Ho] [H1 H2 H3 H4]. split; [..|done]; destruct (at_pc l); auto. Qed.

Lemma shut_resume s l k :
  match k with KShutdown _ => once s = Some true | _ => True end → shut s (resume l k).
Proof. intros. destruct k as [|[]| | | |]; done. Qed.
Lemma shut_run_seq s l ops k :
  match k with KShutdown _ => False | _ => True end → shut s (run_seq l ops k).
Proof. intros. destruct ops; [apply shut_resume; by destruct k|]. by split. Qed.

Definition ln_off s : Prop := once s = Some true → lnClosed s = true.

Lemma ln_off_flags s s' : flags s' = flags s → ln_off s → ln_off s'.
Proof. unfold flags, ln_off. intros Hf Ho Ho'. injection Hf as _ _ _ E _ _ ->. apply Ho. congruence. Qed.

Lemma shut_step s l s' l' :
  (s', l') ∈ next s l → crashed s' = false → ln_off s → shut s l → shut s' l' ∧ ln_off s'.
Proof.
  intros Hn Hc Ho [H1 H2 H3 H4].
  tcp_cases Hn l; rewrite ?Hpc in *; split.
  all: try done.
  all: try (by apply (ln_off_flags s); [first [done|apply exec_flags]|]).
  all: try (by apply shut_run_seq; destruct k).
  all: try (by apply shut_resume; destruct k).
  all: unfold ln_off in *; simpl; intros; try done; auto.
  all: first [by apply shut_run_seq|by destruct err].
Qed.
End inv.
