(* ===== verification/TcpThms.v ===== *)
(** The tcp server: admission limits, the accounting of every connection, the
    end of Serve and the absence of deadlock. *)
From S2P Require Import Prelude Interleave Limit Internal Tcp TcpAcct TcpInv.

Local Open Scope Z_scope.

Lemma zsum_lookup_le {A} (f : A → Z) ps (i : nat) x :
  Forall (λ y, 0 <= f y) ps → ps !! i = Some x → f x <= zsum f ps.
Proof.
  intros Hf. revert i. induction Hf as [|y ps Hy Hps IH]; intros [|i] Hi; simplify_eq/=.
  - assert (0 <= zsum f ps); [|lia]. clear IH. induction Hps; simpl; lia.
  - specialize (IH _ Hi). lia.
Qed.

Section thms.
Context (o : Options) (arr0 : list arrival).
Local Abbreviation next := (next o).
Local Abbreviation owes := (owes o).
Local Abbreviation total := (total o).
Local Abbreviation conf := (@conf Sh Local).
Implicit Types (s : Sh) (l : Local) (c : conf).

(** * The invariant *)

Definition closing l : Prop := match at_pc l with VCancel _ | VDone _ => True | _ => False end.

Record tcp_inv c : Prop := {
  i_crash : crashed (shared c) = false;
  i_res R : lawful R → nrm R (res R (shared c)) = nrm R (total R c);
  i_loop : zsum inloop (procs c) = serving_now (shared c);
  i_done : done (shared c) = true → serving (shared c) = true;
  i_stop : zsum stopping (procs c) = stopping_now (shared c);
  i_drained : drained (shared c);
  i_once : once (shared c) = Some true → stopped (shared c) = true;
  i_ln : ln_off (shared c);
  i_shape : Forall (shape o) (procs c);
  i_knows : Forall (knows (shared c)) (procs c);
  i_shut : Forall (shut (shared c)) (procs c);
  i_from : Forall (from o arr0) (procs c);
  i_limits : limits o arr0 (shared c);
  i_idle : waiting (shared c) + zsum hold (procs c) <= zsum idle (procs c);
  i_fin : done (shared c) = true ∨ Exists closing (procs c) → wg (shared c) = 0 }.

Lemma owes_wg_nonneg l : shape o l → 0 <= owes R_wg l.
Proof.
  unfold shape, TcpAcct.owes. intros Hs.
  assert (∀ c : Conn, zsum (wt R_wg) (release o c) = 0) as Hrel
    by (intros c; unfold release; by destruct (hasAdmit o), (slot c)).
  destruct (at_pc l); try (simpl; lia).
  - unfold wkey. destruct (slot c); simpl; lia.
  - rewrite Hrel. simpl. lia.
  - apply (proj1 Hs 0%nat).
  - unfold wconn, worker_ops. rewrite zsum_app, zsum_app, Hrel. simpl. lia.
Qed.

Lemma owes_key_nonneg k l : 0 <= owes (R_key k) l.
Proof.
  assert (∀ ops, 0 <= zsum (wt (R_key k)) ops) as Hops.
  { intros. apply zsum_nonneg. intros []; simpl; try lia. case_bool_decide; lia. }
  unfold TcpAcct.owes. destruct (at_pc l); try (simpl; lia).
  - unfold wkey. destruct (slot c); simpl; [case_bool_decide|]; lia.
  - apply Z.add_nonneg_nonneg; [simpl; lia|apply Hops].
  - apply key_nonneg.
  - apply Hops.
Qed.

Lemma spawned_wg s : owed_spawned o R_wg s = Z.of_nat (length (spawned s)).
Proof.
  unfold owed_spawned. induction (spawned s) as [|c cs IH]; [done|]. simpl. rewrite IH.
  unfold wconn, worker_ops, release. destruct (hasAdmit o), (slot c); simpl; lia.
Qed.

Lemma spawned_key k s : 0 <= owed_spawned o (R_key k) s.
Proof.
  apply zsum_nonneg. intros c. apply zsum_nonneg. intros []; simpl; try lia. case_bool_decide; lia.
Qed.

(** What the invariant says of the goroutine that moves. *)
Lemma mover c (i : nat) l :
  tcp_inv c → procs c !! i = Some l →
  inloop l <= serving_now (shared c) ∧ stopping l <= stopping_now (shared c) ∧
  owes R_wg l <= wg (shared c) ∧ (∀ k, owes (R_key k) l <= res (R_key k) (shared c)).
Proof.
  intros Hi Hl. split_and!.
  - rewrite <- (i_loop _ Hi). eapply zsum_lookup_le; [|done]. apply Forall_true, inloop_nonneg.
  - rewrite <- (i_stop _ Hi). eapply zsum_lookup_le; [|done]. apply Forall_true, stopping_nonneg.
  - pose proof (i_res _ Hi R_wg lawful_wg) as E. simpl in E. rewrite E. unfold TcpAcct.total.
    rewrite spawned_wg. assert (owes R_wg l <= zsum (owes R_wg) (procs c)); [|lia].
    eapply zsum_lookup_le; [|done]. eapply Forall_impl; [apply (i_shape _ Hi)|apply owes_wg_nonneg].
  - intros k. pose proof (i_res _ Hi (R_key k) (lawful_key k)) as E. change (res (R_key k) (shared c) = total (R_key k) c) in E. rewrite E.
    unfold TcpAcct.total. pose proof (spawned_key k (shared c)).
    assert (owes (R_key k) l <= zsum (owes (R_key k)) (procs c)); [|lia].
    eapply zsum_lookup_le; [|done]. apply Forall_true, owes_key_nonneg.
Qed.

(** ** Preservation *)

Lemma closing_resume l k : ¬ closing (resume l k).
Proof. destruct k as [|[]| | | |]; auto. Qed.
Lemma closing_run_seq l ops k : ¬ closing (run_seq l ops k).
Proof. destruct ops; [apply closing_resume|auto]. Qed.

(** The WaitGroup grows only by the accept loop. *)
Lemma wg_exec s x ops k l :
  seq_ok o (x :: ops) k → wg (exec s x) <= wg s ∨ kserve k = true.
Proof.
  intros [_ Hs]. destruct (kserve k); [by right|left].
  assert (x ≠ OWgAdd) as Hx.
  { destruct (Hs eq_refl) as [[c [w Hw]]|Hf].
    - intros ->. assert (OWgAdd ∈ worker_ops o c) as Hin by (rewrite Hw; set_solver).
      unfold worker_ops in Hin. pose proof (release_no_add o c). set_solver.
    - apply Forall_cons in Hf as [[? ->] _]. done. }
  destruct x; simpl; repeat case_match; simpl; try done; lia.
Qed.

Lemma wg_step s l s' l' :
  (s', l') ∈ next s l → shape o l →
  (wg s' <= wg s ∧ (closing l' ∨ (done s' = true ∧ done s = false) → closing l ∨ wg s = 0)) ∨
  (inloop l = 1 ∧ ¬ closing l' ∧ done s' = done s).
Proof.
  intros Hn Hs. destruct (at_pc l) eqn:Hpc; open_next Hn; rewrite Hpc in Hn.
  8:{ unfold shape in Hs. rewrite Hpc in Hs. destruct ops as [|x ops]; inv_elem.
    - left. split; [lia|]. intros [Hc|[? ?]]; [by destruct (closing_resume l k)|congruence].
    - destruct (flags_serving _ _ (exec_flags s x)) as (_ & Ed & _).
      destruct (wg_exec s x ops k l Hs) as [Hw|Hk]; [left|right].
      + split; [done|]. intros [Hc|[? ?]]; [by destruct (closing_run_seq l ops k)|congruence].
      + split_and!; [|apply closing_run_seq|done]. unfold inloop. by rewrite Hpc, Hk. }
  1: destruct (todo l) as [|[] ?]; simpl in Hn.
  all: left; repeat case_match; inv_elem; (split; [simpl; lia|]); unfold closing at 2; rewrite ?Hpc;
    try (by auto); intros [Hc|[? ?]]; simpl in *; try congruence; try done.
  all: try (by destruct (closing_resume l k)); try (by destruct (closing_run_seq l _ _ Hc)).
  right. by apply Z.eqb_eq.
Qed.

Lemma tcp_res s ps (i : nat) l s' l' R :
  lawful R → ps !! i = Some l → balanced o R s l s' l' →
  nrm R (res R s) = nrm R (total R (Conf s ps)) →
  nrm R (res R s') = nrm R (total R (Conf s' (<[i:=l']> ps))).
Proof.
  unfold balanced, TcpAcct.total. simpl. intros HR Hl -> E.
  rewrite (zsum_insert _ _ _ _ _ Hl).
  rewrite <- Z.add_assoc, <- (nrm_add R HR (res R s)), E, (nrm_add R HR). f_equal. lia.
Qed.

Lemma tcp_fin s ps (i : nat) l s' l' :
  tcp_inv (Conf s ps) → ps !! i = Some l → (s', l') ∈ next s l → 0 <= wg s' →
  done s' = true ∨ Exists closing (<[i:=l']> ps) → wg s' = 0.
Proof.
  intros Hi Hl Hn Hw Hfin. pose proof (i_fin _ Hi) as Hold. simpl in Hold.
  pose proof (proj1 (Forall_lookup _ _) (i_shape _ Hi) i l Hl) as Hs.
  destruct (wg_step _ _ _ _ Hn Hs) as [[Hle Hc]|(H1 & Hc & Hd)].
  - enough (wg s = 0) by lia.
    assert (closing l → wg s = 0) as Hcl.
    { intros. apply Hold. right. apply Exists_exists. exists l. split; [|done]. by eapply list_elem_of_lookup_2. }
    destruct (done s) eqn:Ed; [by auto|].
    destruct Hfin as [Hd|Hex]; [by destruct Hc; auto|].
    apply (Exists_insert_inv _ _ _ _ _ Hl) in Hex as [Hx|Hx]; [by destruct Hc; auto|auto].
  - exfalso. pose proof (mover _ _ _ Hi Hl) as (Hlp & _). simpl in Hlp. rewrite H1 in Hlp.
    pose proof (i_loop _ Hi) as Hsum. simpl in Hsum. unfold serving_now in *.
    destruct (done s); [rewrite andb_false_r in Hlp; lia|].
    destruct Hfin as [?|(y & [j Hj]%list_elem_of_lookup & Hy)%Exists_exists]; [congruence|].
    destruct (decide (i = j)) as [<-|Hij].
    { rewrite list_lookup_insert_eq in Hj by (by eapply lookup_lt_Some). simplify_eq. done. }
    rewrite list_lookup_insert_ne in Hj by done.
    pose proof (zsum_two inloop ps i j l y inloop_nonneg Hij Hl Hj) as H2.
    assert (inloop y = 1) by (unfold inloop, closing in *; by destruct (at_pc y)).
    destruct (serving s); simpl in *; lia.
Qed.

Lemma wg_nonneg_total c :
  Forall (shape o) (procs c) → wg (shared c) = total R_wg c → 0 <= wg (shared c).
Proof.
  intros Hs ->. unfold TcpAcct.total. rewrite spawned_wg.
  assert (0 <= zsum (owes R_wg) (procs c)); [|lia].
  induction Hs as [|l ls Hl _ IH]; simpl; [lia|]. pose proof (owes_wg_nonneg l Hl). lia.
Qed.

Lemma tcp_total s ps (i : nat) l s' l' :
  tcp_inv (Conf s ps) → ps !! i = Some l → (s', l') ∈ next s l → crashed s' = false →
  ∀ R, lawful R → nrm R (res R s') = nrm R (total R (Conf s' (<[i:=l']> ps))).
Proof.
  intros Hi Hl Hn Hc R HR. eapply (tcp_res s ps); [done..| |by apply (i_res _ Hi)].
  eapply next_balanced; [done| |apply (i_crash _ Hi)|done|done].
  intros p Hp. apply (l_some _ _ _ (i_limits _ Hi) p Hp).
Qed.

Lemma rel_key_held s ps (i : nat) l k x ops p kk :
  tcp_inv (Conf s ps) → ps !! i = Some l → at_pc l = Seq (x :: ops) kk → x = ORelKey k →
  perIP s = Some p → 0 < PerKey.InUse p k.
Proof.
  intros Hi Hl Hpc -> Hp. pose proof (mover _ _ _ Hi Hl) as (_ & _ & _ & Hk). specialize (Hk k).
  unfold TcpAcct.owes in Hk. rewrite Hpc, wseq_cons in Hk. simpl in Hk. rewrite Hp in Hk.
  rewrite bool_decide_true in Hk by done. pose proof (key_nonneg o k ops). lia.
Qed.

Lemma tcp_step c c' : tcp_inv c → step next c c' → tcp_inv c'.
Proof.
  intros Hi Hst. destruct Hst as [i l s s' l' ps Hl Hn].
  destruct (mover _ _ _ Hi Hl) as (Hlp & Hsp & Hwg & Hk). simpl in *.
  pose proof (i_limits _ Hi) as Hlim. simpl in Hlim.
  assert (∀ (P : Local → Prop), Forall P ps → P l) as Hat by (intros P HP; by eapply Forall_lookup_1).
  assert (crashed s' = false) as Hc.
  { eapply no_crash; try done; try (apply (Hat _ (i_shape _ Hi))); try apply Hi. }
  pose proof (next_rises _ _ _ _ _ Hn) as Hup.
  destruct (inloop_step _ _ _ _ _ Hn Hc (i_done _ Hi) Hlp) as [E1 Hds].
  destruct (stopping_step _ _ _ _ _ Hn Hc (i_drained _ Hi) Hsp) as [E2 Hdr].
  destruct (knows_step _ _ _ _ _ Hn Hc (i_drained _ Hi) (i_once _ Hi) (Hat _ (i_knows _ Hi))) as [Hkn Hon].
  destruct (shut_step _ _ _ _ _ Hn Hc (i_ln _ Hi) (Hat _ (i_shut _ Hi))) as [Hsh Hln].
  destruct (from_step _ _ _ _ _ _ Hn Hlim (Hat _ (i_from _ Hi))) as [Hfr Hlim'].
  { intros. by eapply rel_key_held. }
  pose proof (tcp_total _ _ _ _ _ _ Hi Hl Hn Hc) as Hres.
  pose proof (idle_step _ _ _ _ _ Hn) as Hid.
  pose proof (i_idle _ Hi) as Hid0. pose proof (i_loop _ Hi) as E1'. pose proof (i_stop _ Hi) as E2'.
  simpl in *.
  assert (Forall (shape o) (<[i:=l']> ps)) as Hshape.
  { apply Forall_insert; [apply Hi|]. eapply shape_step; [done|]. apply (Hat _ (i_shape _ Hi)). }
  split; simpl; try done.
  - rewrite (zsum_insert _ _ _ _ _ Hl). lia.
  - rewrite (zsum_insert _ _ _ _ _ Hl). lia.
  - apply Forall_insert; [|done]. eapply Forall_impl; [apply (i_knows _ Hi)|]. intros. by eapply knows_mono.
  - apply Forall_insert; [|done]. eapply Forall_impl; [apply (i_shut _ Hi)|]. intros. by eapply shut_mono.
  - apply Forall_insert; [apply Hi|done].
  - rewrite !(zsum_insert _ _ _ _ _ Hl). lia.
  - apply (tcp_fin s ps i l s' l'); try done.
    by apply (wg_nonneg_total (Conf s' (<[i:=l']> ps))), (Hres R_wg lawful_wg).
Qed.

(** ** The initial state *)

Record fresh s : Prop := {
  f_untouched : untouched s;
  f_flags : flags s = (false, false, false, None, false, v6bits s, false);
  f_arr : arrivals s = arr0; f_spawned : spawned s = []; f_crashed : crashed s = false;
  f_limits : limits o arr0 s }.

Lemma NewServer_fresh s :
  MaxConnsPerIP o <= max_int64 → NewServer true true o arr0 = Some s → fresh s.
Proof.
  intros Hmax Hnew. unfold NewServer in Hnew. simpl in Hnew.
  destruct (Z.ltb_spec (MaxConnsPerIP o) 0) as [|Hm]; [done|].
  destruct ((IPv6PrefixBits o <? 0) || _); [done|]. simplify_eq.
  unfold PerKey.NewPerKey. split; try done.
  - split_and!; try done. simpl. intros p Hp. repeat case_match; by simplify_eq.
  - split; simpl; try done.
    + destruct (Z.ltb_spec 0 (MaxConnsPerIP o)), (Z.leb_spec (MaxConnsPerIP o) 0); naive_solver lia.
    + intros p. destruct (Z.ltb_spec 0 (MaxConnsPerIP o)), (Z.leb_spec (MaxConnsPerIP o) 0);
        try done; intros; simplify_eq. unfold pk_ok. simpl. split_and!; try lia; try done.
Qed.

Lemma init_zsum (f : Local → Z) s progs :
  (∀ cs, f (mkLocal Ready cs []) = 0) → zsum f (procs (init s progs)) = 0.
Proof. intros Hf. apply zsum_zero. intros l (cs & -> & _)%list_elem_of_fmap. apply Hf. Qed.

Lemma init_Forall (P : Local → Prop) s progs :
  (∀ cs, P (mkLocal Ready cs [])) → Forall P (procs (init s progs)).
Proof. intros HP. apply Forall_forall. intros l (cs & -> & _)%list_elem_of_fmap. apply HP. Qed.

Lemma init_idle s progs :
  Z.of_nat (length (arrivals s)) <= zsum idle (procs (init s progs)).
Proof.
  unfold init. simpl. rewrite fmap_app, zsum_app.
  pose proof (zsum_nonneg idle ((λ cs, mkLocal Ready cs []) <$> progs) idle_nonneg).
  enough (zsum idle ((λ cs, mkLocal Ready cs []) <$> replicate (length (arrivals s)) [CWorker]) =
          Z.of_nat (length (arrivals s))) by lia.
  induction (length (arrivals s)) as [|n IH]; [done|].
  rewrite replicate_S, fmap_cons, Nat2Z.inj_succ, <- IH. unfold zsum. simpl foldr. unfold idle at 1. simpl. lia.
Qed.

Lemma tcp_init s progs : fresh s → tcp_inv (init s progs).
Proof.
  intros [Hu Hf Ha Hsp Hc Hl]. unfold flags in Hf. injection Hf as Hst Hd Hse Ho Hdr Hln.
  split; try done; simpl shared.
  - intros R HR. unfold TcpAcct.total. rewrite (r_zero R HR s Hu), (init_zsum _ s progs) by done.
    simpl. unfold owed_spawned. by rewrite Hsp.
  - rewrite init_zsum by done. unfold serving_now. by rewrite Hse.
  - congruence.
  - rewrite init_zsum by done. unfold stopping_now. by rewrite Ho.
  - unfold drained. by rewrite Hdr, Ho.
  - congruence.
  - unfold ln_off. congruence.
  - by apply init_Forall.
  - apply init_Forall. split; try done. intros r Hr. by apply not_elem_of_nil in Hr.
  - apply init_Forall. by split.
  - by apply init_Forall.
  - rewrite (init_zsum hold) by done. unfold waiting. rewrite Hsp. simpl length.
    pose proof (init_idle s progs). lia.
  - intros [?|Hex]; [congruence|]. apply Hu.
Qed.

Lemma tcp_reachable s progs c :
  MaxConnsPerIP o <= max_int64 → NewServer true true o arr0 = Some s →
  rtc (step next) (init s progs) c → tcp_inv c.
Proof.
  intros Hm Hs. apply inv_reachable; [by apply tcp_init, NewServer_fresh|]. intros. by eapply tcp_step.
Qed.

(** * Connections in service *)

(** The connections whose handler has been started and has not returned. *)
Definition live c : list Conn :=
  spawned (shared c) ++ (procs c ≫= λ l, match at_pc l with WHandler x => [x] | _ => [] end).

(** The connections of [xs] whose remote address has key [k]. *)
Definition from_key (k : Addr) (xs : list Conn) : list Conn :=
  filter (λ x, conn_key o arr0 (num x) = Some k) xs.

Lemma wconn_key k x : conn_ok o arr0 x →
  wconn o (R_key k) x = Z.of_nat (length (from_key k [x])).
Proof.
  intros Hx. unfold wconn, worker_ops, release, from_key. rewrite filter_cons, <- Hx.
  destruct (slot x) as [k'|], (hasAdmit o); simpl; repeat case_bool_decide; repeat case_decide;
    simplify_eq; simpl; lia.
Qed.

Lemma owed_key k c :
  tcp_inv c → Z.of_nat (length (from_key k (live c))) <= total (R_key k) c.
Proof.
  intros Hi. unfold live, from_key, TcpAcct.total, owed_spawned. rewrite filter_app, length_app.
  pose proof (l_spawned _ _ _ (i_limits _ Hi)) as Hsp. pose proof (i_from _ Hi) as Hf.
  assert (Z.of_nat (length (from_key k (spawned (shared c)))) =
          zsum (wconn o (R_key k)) (spawned (shared c))) as E.
  { induction Hsp as [|x xs Hx _ IH]; [done|]. change (x :: xs) with ([x] ++ xs).
    unfold from_key in *. rewrite filter_app, length_app, zsum_app, Nat2Z.inj_add, IH. simpl zsum.
    rewrite (wconn_key k x Hx). unfold from_key. lia. }
  unfold from_key in E. rewrite Nat2Z.inj_add, E, Z.add_comm. apply Z.add_le_mono_r.
  induction Hf as [|l ls Hl _ IH]; [done|]. csimpl.
  rewrite filter_app, length_app, Nat2Z.inj_add. apply Z.add_le_mono; [|done].
  pose proof (owes_key_nonneg k l) as H0. unfold from, TcpAcct.owes in *.
  destruct (at_pc l); simpl; try done. by rewrite (wconn_key k).
Qed.

Lemma owed_admit c :
  hasAdmit o = true → Z.of_nat (length (live c)) <= total R_admit c.
Proof.
  intros Ha. assert (∀ x, wconn o R_admit x = 1) as Hw.
  { intros x. unfold wconn, worker_ops, release. rewrite Ha. destruct (slot x); done. }
  assert (∀ ops, 0 <= zsum (wt R_admit) ops) as Hops.
  { intros. apply zsum_nonneg. intros []; simpl; lia. }
  unfold live, TcpAcct.total, owed_spawned. rewrite length_app, Nat2Z.inj_add, Z.add_comm.
  apply Z.add_le_mono.
  - induction (procs c) as [|l ls IH]; [done|]. csimpl. rewrite length_app, Nat2Z.inj_add.
    apply Z.add_le_mono; [|done]. unfold TcpAcct.owes. destruct (at_pc l); simpl; try lia.
    + unfold wkey. destruct (slot c0); simpl; lia.
    + apply Hops.
    + apply zsum_nonneg. intros []; simpl; try lia. rewrite Hw. lia.
    + rewrite Hw. lia.
  - induction (spawned (shared c)) as [|x xs IH]; [done|]. simpl. rewrite Hw. lia.
Qed.

(** C20: Whatever Serve, Shutdown, Close and the connections' goroutines do
    and in whatever order, the server never panics (no negative WaitGroup, no
    channel closed twice, no release of a slot that is not held); with
    MaxConnsPerIP, the connections in service from one client address (by
    ipKey of the remote address) never exceed it; with Admit, every connection
    in service holds a permit. *)
Theorem tcp_admission s progs c :
  MaxConnsPerIP o <= max_int64 → NewServer true true o arr0 = Some s →
  rtc (step next) (init s progs) c →
  crashed (shared c) = false ∧
  (0 < MaxConnsPerIP o → ∀ k, Z.of_nat (length (from_key k (live c))) <= MaxConnsPerIP o) ∧
  (hasAdmit o = true → Z.of_nat (length (live c)) <= permits (shared c)).
Proof.
  intros Hm Hs Hr. pose proof (tcp_reachable s progs c Hm Hs Hr) as Hi. split_and!.
  - apply Hi.
  - intros Hpos k. pose proof (owed_key k c Hi) as Hk.
    pose proof (i_res _ Hi (R_key k) (lawful_key k)) as E.
    change (res (R_key k) (shared c) = total (R_key k) c) in E. rewrite <- E in Hk. simpl in Hk.
    destruct (perIP (shared c)) as [p|] eqn:Hp; [|lia].
    destruct (l_some _ _ _ (i_limits _ Hi) p Hp) as (Hok & Hmx & _).
    pose proof (pk_InUse_range p k Hok). lia.
  - intros Ha. pose proof (i_res _ Hi R_admit lawful_admit) as E.
    change (permits (shared c) = total R_admit c) in E. rewrite E. by apply owed_admit.
Qed.

(** * The end of Serve *)

Lemma worker_suffix_done ops x :
  ops `suffix_of` worker_ops o x → wseq o R_wg ops = 0 → ops = [].
Proof.
  intros [w Hw] H0. destruct ops as [|y ops' _] using rev_ind; [done|].
  assert (worker_ops o x = ([OClose (num x)] ++ release o x ++
    [OUntrack (num x); ODec Active; OInc ClosedC]) ++ [OWgDone]) as E
    by (unfold worker_ops; by rewrite <- !app_assoc).
  rewrite app_assoc, E in Hw. apply app_inj_tail in Hw as [Hw <-].
  exfalso. unfold wseq in H0. rewrite zsum_app in H0. simpl in H0.
  assert (0 <= wseq o R_wg ops'); [|unfold wseq in *; lia].
  apply wg_nonneg. pose proof (release_no_add o x).
  assert (OWgAdd ∉ w ++ ops') as Hn by (rewrite <- Hw; set_solver). set_solver.
Qed.

(** A goroutine outside Serve that does not hold the WaitGroup owes nothing. *)
Lemma owes_nothing R l :
  lawful R → shape o l → inloop l = 0 → owes R_wg l = 0 → owes R l = 0.
Proof.
  intros HR Hs Hin Hw. unfold shape, inloop, TcpAcct.owes in *. destruct (at_pc l); try done.
  - destruct Hs as [_ Hs]. destruct (kserve k); [done|].
    destruct (Hs eq_refl) as [[x Hx]|Hf]; [by rewrite (worker_suffix_done ops x Hx Hw)|].
    apply zsum_zero. intros y Hy. rewrite Forall_forall in Hf. destruct (Hf y Hy) as [j ->].
    apply (r_abort R HR).
  - exfalso. unfold wconn, worker_ops, release in Hw. by destruct (hasAdmit o), (slot c).
Qed.

Lemma zsum_zero_elem (f : Local → Z) ls l :
  Forall (λ x, 0 <= f x) ls → zsum f ls = 0 → l ∈ ls → f l = 0.
Proof.
  intros Hf Hz [j Hj]%list_elem_of_lookup. pose proof (zsum_lookup_le f ls j l Hf Hj).
  rewrite Forall_forall in Hf. pose proof (Hf l ltac:(by eapply list_elem_of_lookup_2)). lia.
Qed.

Lemma serve_over c :
  tcp_inv c → done (shared c) = true →
  spawned (shared c) = [] ∧ wg (shared c) = 0 ∧
  Forall (λ l, inloop l = 0 ∧ owes R_wg l = 0) (procs c).
Proof.
  intros Hi Hd. pose proof (i_fin _ Hi (or_introl Hd)) as Hw.
  pose proof (i_res _ Hi R_wg lawful_wg) as E. change (wg (shared c) = total R_wg c) in E.
  rewrite Hw in E. unfold TcpAcct.total in E. rewrite spawned_wg in E.
  assert (Forall (λ l, 0 <= owes R_wg l) (procs c)) as Hnn
    by (eapply Forall_impl; [apply (i_shape _ Hi)|apply owes_wg_nonneg]).
  assert (0 <= zsum (owes R_wg) (procs c)) by (clear E; induction Hnn; simpl; lia).
  split_and!; [apply length_zero_iff_nil; lia|done|].
  apply Forall_forall. intros l Hl. split; [|eapply zsum_zero_elem; [done|lia|done]].
  eapply zsum_zero_elem; [apply Forall_true, inloop_nonneg| |done].
  rewrite (i_loop _ Hi). unfold serving_now. by rewrite Hd, andb_false_r.
Qed.

Lemma all_returned c R :
  tcp_inv c → done (shared c) = true → lawful R → nrm R (res R (shared c)) = nrm R 0.
Proof.
  intros Hi Hd HR. destruct (serve_over c Hi Hd) as (Hsp & _ & Hall).
  rewrite (i_res _ Hi R HR). f_equal. unfold TcpAcct.total, owed_spawned. rewrite Hsp. simpl.
  rewrite zsum_zero; [done|]. intros l Hl. rewrite Forall_forall in Hall.
  destruct (Hall l Hl). apply owes_nothing; try done.
  pose proof (i_shape _ Hi) as Hs. rewrite Forall_forall in Hs. auto.
Qed.

Lemma over_not_live c : tcp_inv c → done (shared c) = true → live c = [].
Proof.
  intros Hi Hd. destruct (serve_over c Hi Hd) as (Hsp & _ & Hall). unfold live. rewrite Hsp. simpl.
  induction Hall as [|l ls [_ Hl] _ IH]; [done|]. csimpl. rewrite IH, app_nil_r.
  unfold TcpAcct.owes in Hl. destruct (at_pc l); try done. exfalso.
  unfold wconn, worker_ops, release in Hl. by destruct (hasAdmit o), (slot c0).
Qed.

(** C21: When Serve has returned, the server has stopped accepting, no handler
    runs or will start, the WaitGroup is zero, every admission permit and
    every per-address slot has been given back, the gauge Active is 0, the
    counters Accepted and Closed agree, and every connection taken from the
    listener (served, rejected or refused) has been closed exactly once by the
    goroutine that owned it. *)
Theorem Serve_end_accounted s progs c l err :
  MaxConnsPerIP o <= max_int64 → NewServer true true o arr0 = Some s →
  rtc (step next) (init s progs) c → l ∈ procs c → RetServe err ∈ rets l →
  stopped (shared c) = true ∧ wg (shared c) = 0 ∧ live c = [] ∧ permits (shared c) = 0 ∧
  (∀ p k, perIP (shared c) = Some p → PerKey.InUse p k = 0) ∧
  count (shared c) Active = 0 ∧ count (shared c) Accepted = count (shared c) ClosedC ∧
  (∀ i : nat, (i < taken (shared c))%nat → length (filter (λ j, j = i) (netClosed (shared c))) = 1%nat).
Proof.
  intros Hm Hs Hr Hl Hret. pose proof (tcp_reachable s progs c Hm Hs Hr) as Hi.
  pose proof (i_knows _ Hi) as Hk. rewrite Forall_forall in Hk.
  destruct (k_ret _ _ (Hk l Hl) _ Hret eq_refl) as [Hd Hst].
  pose proof (λ R, all_returned c R Hi Hd) as Hall.
  pose proof (l_count _ _ _ (i_limits _ Hi)) as Hcnt.
  split_and!; try done.
  - by apply serve_over.
  - by apply over_not_live.
  - apply (Hall R_admit lawful_admit).
  - intros p k Hp. pose proof (Hall _ (lawful_key k)) as E. simpl in E. by rewrite Hp in E.
  - pose proof (Hall _ lawful_active) as E. simpl in E. by rewrite u64_small in E.
  - pose proof (Hall _ lawful_open) as E. simpl in E.
    rewrite <- (u64_small (count _ Accepted)), <- (u64_small (count _ ClosedC)) by done.
    replace (count (shared c) Accepted) with
      (count (shared c) Accepted - count (shared c) ClosedC + count (shared c) ClosedC) by lia.
    by rewrite <- u64_add_l, E.
  - intros j Hj. pose proof (Hall _ (lawful_close j)) as E. simpl in E.
    rewrite decide_True in E by done. lia.
Qed.

(** * No deadlock *)

Definition stuck c : Prop := ∀ l, l ∈ procs c → next (shared c) l = [].
Lemma stuck_check c :
  forallb (λ l, Nat.eqb (length (next (shared c) l)) 0) (procs c) = true → stuck c.
Proof.
  intros Hf l Hl. rewrite forallb_forall in Hf. apply length_zero_iff_nil, Nat.eqb_eq, Hf.
  by apply list_elem_of_In.
Qed.

(** A goroutine that has nothing left to do. *)
Definition finished s l : Prop :=
  at_pc l = Ready ∧ (todo l = [] ∨ (todo l = [CWorker] ∧ spawned s = [])).
(** Serve, blocked in Accept on an open listener. *)
Definition in_accept s l : Prop :=
  (∃ d, at_pc l = VAccept d) ∧ lnClosed s = false ∧ arrivals s = [].

Definition todo_ok l : Prop := CWorker ∉ todo l ∨ todo l = [CWorker].

Lemma resume_todo l k : todo (resume l k) = todo l.
Proof. destruct k as [|[]| | | |]; done. Qed.
Lemma run_seq_todo l ops k : todo (run_seq l ops k) = todo l.
Proof. destruct ops; [apply resume_todo|done]. Qed.

Lemma todo_step s l s' l' :
  (s', l') ∈ next s l → todo l' = todo l ∨ ∃ x : call, todo l = x :: todo l'.
Proof.
  intros Hn. open_next Hn. destruct (at_pc l).
  1:{ destruct (todo l) as [|c rest]; [by inv_elem|]. right. exists c. f_equal.
      destruct c; simpl in Hn; repeat case_match; inv_elem; done. }
  all: left; repeat case_match; inv_elem; rewrite ?resume_todo, ?run_seq_todo; done.
Qed.

Lemma todo_inv s progs c :
  Forall (λ p, CWorker ∉ p) progs → rtc (step next) (init s progs) c → Forall todo_ok (procs c).
Proof.
  intros Hp. apply (inv_reachable next (λ c, Forall todo_ok (procs c))).
  - unfold init. simpl. apply Forall_fmap, Forall_app. split.
    + eapply Forall_impl; [exact Hp|]. intros p ?. by left.
    + apply Forall_replicate. by right.
  - intros a b Ha Hab. destruct Hab as [i l s0 s' l' ps Hl Hn]. simpl in *.
    apply Forall_insert; [done|]. pose proof (Forall_lookup_1 _ _ _ _ Ha Hl) as [Ht|Ht];
      destruct (todo_step _ _ _ _ Hn) as [E|[x E]]; unfold todo_ok.
    + left. by rewrite E.
    + left. rewrite E in Ht. set_solver.
    + right. by rewrite E.
    + left. rewrite E in Ht. simplify_eq. rewrite H0. set_solver.
Qed.

(** The places where a goroutine can be blocked. *)
Lemma blocked s l :
  next s l = [] → todo_ok l →
  finished s l ∨ in_accept s l ∨ (∃ err, at_pc l = VWait err ∧ wg s ≠ 0) ∨
  (∃ k, at_pc l = StopOnce k ∧ once s = Some false) ∨ (at_pc l = HWait false ∧ done s = false).
Proof.
  intros Hn Ht. open_next Hn. destruct (at_pc l) eqn:Hpc; try done.
  - left. split; [done|]. destruct (todo l) as [|c rest] eqn:El; [by left|right].
    destruct c; simpl in Hn; repeat case_match; try done.
    unfold todo_ok in Ht. rewrite El in Ht. destruct Ht as [Ht|Ht]; [set_solver|done].
  - right; left. repeat case_match; try done. by split; eauto.
  - repeat case_match; done.
  - repeat case_match; done.
  - repeat case_match; done.
  - repeat case_match; done.
  - repeat case_match; done.
  - do 2 right; left. exists err. destruct (Z.eqb_spec (wg s) 0); done.
  - do 3 right; left. exists k. repeat case_match; done.
  - repeat case_match; done.
  - do 4 right. repeat case_match; done.
  - repeat case_match; done.
Qed.

Section stuck.
Context (c : conf) (Hi : tcp_inv c) (Ht : Forall todo_ok (procs c)) (Hstuck : stuck c).

Lemma stuck_blocked l : l ∈ procs c →
  finished (shared c) l ∨ in_accept (shared c) l ∨ (∃ err, at_pc l = VWait err ∧ wg (shared c) ≠ 0) ∨
  (∃ k, at_pc l = StopOnce k ∧ once (shared c) = Some false) ∨
  (at_pc l = HWait false ∧ done (shared c) = false).
Proof using All. intros Hl. rewrite Forall_forall in Ht. apply blocked; auto. Qed.

Lemma stuck_once : once (shared c) ≠ Some false.
Proof using All.
  intros Ho. pose proof (i_stop _ Hi) as E. unfold stopping_now in E. rewrite decide_True in E by done.
  destruct (zsum_pos_elem stopping (procs c) stopping_nonneg ltac:(lia)) as (l & Hl & Hp).
  unfold stopping in Hp. destruct (stuck_blocked l Hl) as [[Hpc _]|[[[? Hpc] _]|[(? & Hpc & _)|[(? & Hpc & _)|[Hpc _]]]]];
    rewrite Hpc in Hp; lia.
Qed.

Lemma stuck_spawned : spawned (shared c) = [].
Proof using All.
  destruct (spawned (shared c)) as [|x xs] eqn:Hsp; [done|]. exfalso.
  pose proof (i_idle _ Hi) as Hid. unfold waiting in Hid. rewrite Hsp in Hid. simpl in Hid.
  pose proof (zsum_nonneg hold (procs c) hold_nonneg).
  destruct (zsum_pos_elem idle (procs c) idle_nonneg ltac:(lia)) as (l & Hl & Hp).
  pose proof (Hstuck l Hl) as Hn. unfold idle in Hp. open_next Hn.
  destruct (at_pc l); try lia. destruct (todo l) as [|[] []]; try lia. simpl in Hn. by rewrite Hsp in Hn.
Qed.

Lemma stuck_wg : wg (shared c) = 0.
Proof using All.
  pose proof (i_res _ Hi R_wg lawful_wg) as E. change (wg (shared c) = total R_wg c) in E.
  rewrite E. unfold TcpAcct.total. rewrite spawned_wg, stuck_spawned. simpl. rewrite zsum_zero; [done|].
  intros l Hl. unfold TcpAcct.owes.
  destruct (stuck_blocked l Hl) as [[Hpc _]|[[[? Hpc] _]|[(? & Hpc & _)|[(? & Hpc & _)|[Hpc _]]]]];
    by rewrite Hpc.
Qed.

Lemma stuck_cases l : l ∈ procs c →
  finished (shared c) l ∨ in_accept (shared c) l ∨ at_pc l = HWait false ∧ done (shared c) = false.
Proof using All.
  intros Hl. destruct (stuck_blocked l Hl) as [?|[?|[(? & _ & Hw)|[(? & _ & Ho)|?]]]]; auto.
  - by destruct Hw; apply stuck_wg.
  - by destruct (stuck_once Ho).
Qed.

Lemma stuck_not_waiting l : l ∈ procs c → finished (shared c) l ∨ in_accept (shared c) l.
Proof using All.
  intros Hl. destruct (stuck_cases l Hl) as [?|[?|[Hpc Hd]]]; [auto..|exfalso].
  pose proof (i_shut _ Hi) as Hsh. rewrite Forall_forall in Hsh. destruct (Hsh l Hl) as [H1 H2 _ _].
  rewrite Hpc in H1, H2. pose proof (i_ln _ Hi H1) as Hln.
  pose proof (i_loop _ Hi) as E. unfold serving_now in E. rewrite H2, Hd in E. simpl in E.
  destruct (zsum_pos_elem inloop (procs c) inloop_nonneg ltac:(lia)) as (l' & Hl' & Hp).
  unfold inloop in Hp. destruct (stuck_cases l' Hl') as [[Hpc' _]|[(_ & ? & _)|[Hpc' _]]].
  - rewrite Hpc' in Hp. lia.
  - congruence.
  - rewrite Hpc' in Hp. lia.
Qed.
End stuck.

(** A server in which nothing moves. *)
Lemma tcp_stuck_finished s progs c :
  MaxConnsPerIP o <= max_int64 → NewServer true true o arr0 = Some s →
  Forall (λ p, CWorker ∉ p) progs → rtc (step next) (init s progs) c → stuck c →
  Forall (λ l, finished (shared c) l ∨ in_accept (shared c) l) (procs c) ∧
  (once (shared c) ≠ None → Forall (finished (shared c)) (procs c)).
Proof.
  intros Hm Hs Hp Hr Hst. pose proof (tcp_reachable s progs c Hm Hs Hr) as Hi.
  pose proof (todo_inv s progs c Hp Hr) as Ht.
  pose proof (stuck_not_waiting c Hi Ht Hst) as Hall. split; [by apply Forall_forall|].
  intros Ho. apply Forall_forall. intros l Hl. destruct (Hall l Hl) as [?|(_ & Hln & _)]; [done|].
  exfalso. pose proof (stuck_once c Hi Ht Hst) as Hn. pose proof (i_ln _ Hi) as Hoff. unfold ln_off in Hoff.
  destruct (once (shared c)) as [[|]|]; try done. rewrite Hoff in Hln; done.
Qed.

(** C22: The server does not deadlock, provided handlers return and a
    goroutine is available per connection: when no goroutine can move, each
    has finished, or is Serve waiting in Accept on an open listener where
    nothing arrives. Once stopAccept has run, all have finished: a Serve that
    is stopped returns, and so does a Shutdown whose context never ends. *)
Theorem tcp_no_deadlock s progs c :
  MaxConnsPerIP o <= max_int64 → NewServer true true o arr0 = Some s →
  Forall (λ p, CWorker ∉ p) progs → rtc (step next) (init s progs) c → stuck c →
  Forall (λ l, finished (shared c) l ∨ in_accept (shared c) l) (procs c) ∧
  (once (shared c) ≠ None → Forall (finished (shared c)) (procs c)).
Proof. apply tcp_stuck_finished. Qed.
End thms.

(** * A run *)

Module Demo.
Definition opts := mkOptions true 1 0.
(** Two clients of one /64 and a temporary error. *)
Definition ip (x : Z) : list Z := [32;1;13;184;0;0;0;0;0;0;0;0;0;0;0;x].
Definition arr := [Arrive (TCPAddr (ip 1)); Arrive (TCPAddr (ip 2)); TempErr].
Definition srv : Sh := default (mkSh [] 0 false None 0 0 (λ _, 0) false false ∅ false false false None 0 [] [] ∅ true)
  (NewServer true true opts arr).
Definition start0 : @conf Sh Local := init srv [[CServe]; [CShutdown false]].
(** The first client is served, the second is over the limit, the third
    Accept fails; then Shutdown, the handler's end and Serve's end. *)
Definition sched1 : list (nat * nat) := replicate 16 (0, 0)%nat.
Definition sched2 : list (nat * nat) :=
  replicate 6 (1, 0)%nat ++ replicate 9 (2, 0)%nat ++ replicate 5 (0, 0)%nat ++ [(1, 0)%nat].
Definition mid : @conf Sh Local := default start0 (run (next opts) sched1 start0).
Definition last : @conf Sh Local := default start0 (run (next opts) sched2 mid).

Lemma run_mid : rtc (step (next opts)) start0 mid.
Proof. apply (run_sound _ sched1). vm_compute. reflexivity. Qed.
Lemma run_last : rtc (step (next opts)) start0 last.
Proof.
  etrans; [apply run_mid|]. apply (run_sound _ sched2). vm_compute. reflexivity.
Qed.
End Demo.

Lemma tcp_admission_witness :
  length (live Demo.mid) = 1%nat ∧
  (∀ k, Z.of_nat (length (from_key Demo.opts Demo.arr k (live Demo.mid))) <= 1) ∧
  Z.of_nat (length (live Demo.mid)) <= permits (shared Demo.mid).
Proof.
  destruct (tcp_admission Demo.opts Demo.arr Demo.srv [[CServe]; [CShutdown false]] Demo.mid)
    as (_ & H1 & H2); [vm_compute; discriminate|vm_compute; reflexivity|apply Demo.run_mid|].
  split_and!; [vm_compute; reflexivity|apply H1; vm_compute; reflexivity|apply H2; reflexivity].
Defined.

Lemma Serve_end_accounted_witness :
  permits (shared Demo.last) = 0 ∧ taken (shared Demo.last) = 2%nat ∧
  length (filter (λ j, j = 1%nat) (netClosed (shared Demo.last))) = 1%nat.
Proof.
  destruct (Serve_end_accounted Demo.opts Demo.arr Demo.srv [[CServe]; [CShutdown false]] Demo.last
    (mkLocal Ready [] [RetServe false]) false) as (_ & _ & _ & H1 & _ & _ & _ & H2);
    [vm_compute; discriminate|vm_compute; reflexivity|apply Demo.run_last
    |apply list_elem_of_lookup; exists 0%nat; vm_compute; reflexivity|by left|].
  split_and!; [exact H1|vm_compute; reflexivity|]. apply H2. vm_compute. lia.
Defined.

Lemma tcp_no_deadlock_witness :
  Forall (finished (shared Demo.last)) (procs Demo.last).
Proof.
  apply (tcp_no_deadlock Demo.opts Demo.arr Demo.srv [[CServe]; [CShutdown false]] Demo.last).
  - vm_compute. discriminate.
  - vm_compute. reflexivity.
  - repeat constructor; set_solver.
  - apply Demo.run_last.
  - apply stuck_check. vm_compute. reflexivity.
  - vm_compute. discriminate.
Defined.
