(* ===== verification/TcpTerm.v ===== *)
(** Package tcp: every run of the server ends ([src/tcp/server.go]).

    [TcpThms] shows that a server that cannot move has finished, or waits in
    Accept. Here a weight of the server and its goroutines shows that it cannot
    move forever: the number of actions of any run is bounded by the
    connections that arrive and the calls that are made. *)
From S2P Require Import Prelude Interleave Internal Limit Tcp TcpThms.

Local Open Scope nat_scope.

Section term.
Context (o : Options).
(** How many arrivals there are. *)
Context (M : nat).
Local Abbreviation next := (Tcp.next o).

(** * Connection numbers *)
Definition num_ok (s : Sh) (p : pc) : Prop :=
  match p with
  | VKey i _ => i < taken s
  | VAdmit c | VTrack c => num c < taken s
  | _ => True
  end.

Record numbered (c : conf) : Prop := {
  nu_total : taken (shared c) + length (arrivals (shared c)) <= M;
  nu_conns : ∀ i, i ∈ conns (shared c) → i < taken (shared c);
  nu_procs : Forall (λ l, num_ok (shared c) (at_pc l)) (procs c) }.

Lemma num_ok_mono s s' p : taken s <= taken s' → num_ok s p → num_ok s' p.
Proof. destruct p; simpl; try done; lia. Qed.

Lemma exec_frame s x :
  taken (exec s x) = taken s ∧ arrivals (exec s x) = arrivals s ∧
  (∀ i, i ∈ conns (exec s x) → i ∈ conns s).
Proof. destruct x; simpl; repeat case_match; simpl; split_and!; try done; set_solver. Qed.

Lemma resume_num s l k : num_ok s (at_pc (resume l k)).
Proof. by destruct k as [|[]| | | |]. Qed.
Lemma run_seq_num s l ops k : num_ok s (at_pc (run_seq l ops k)).
Proof. destruct ops; [apply resume_num|done]. Qed.

(** What an action does to the numbers. *)
Lemma next_numbers s l s' l' :
  (s', l') ∈ next s l → num_ok s (at_pc l) →
  taken s <= taken s' ∧ taken s' + length (arrivals s') <= taken s + length (arrivals s) ∧
  ((∀ i, i ∈ conns s → i < taken s) → ∀ i, i ∈ conns s' → i < taken s') ∧ num_ok s' (at_pc l').
Proof.
  intros Hn Hok. open_next Hn. unfold start in Hn.
  destruct (at_pc l) eqn:Hpc; repeat case_match; inv_elem; simpl in *;
    try (split_and!; try done; try lia; try apply resume_num; try apply run_seq_num; set_solver).
  match goal with |- context [exec s ?x] => destruct (exec_frame s x) as (-> & -> & Hc) end.
  split_and!; [lia|lia|auto|apply run_seq_num].
Qed.

Lemma numbered_step c c' : numbered c → step next c c' → numbered c'.
Proof.
  intros [H1 H2 H3] Hs. destruct Hs as [i l s s' l' ps Hi Hn]. simpl in *.
  destruct (next_numbers s l s' l' Hn) as (Ht & Ha & Hc & Hp); [by eapply Forall_lookup_1 in H3|].
  split; simpl; [lia|auto|]. apply Forall_insert; [|done].
  eapply Forall_impl; [exact H3|]. intros x. by apply num_ok_mono.
Qed.

Lemma numbered_size c : numbered c → size (conns (shared c)) <= M.
Proof.
  intros [H1 H2 _]. assert (conns (shared c) ⊆ set_seq 0 (taken (shared c))) as Hs.
  { intros i Hi. apply elem_of_set_seq. specialize (H2 i Hi). lia. }
  apply subseteq_size in Hs. rewrite size_set_seq in Hs. lia.
Qed.

(** * Weights *)
(** [M + 11] is the weight of the accept loop, [M + 5] of a failed one. *)
Definition weight_kont (k : kont) : nat :=
  match k with
  | KAccept _ => M + 11
  | KServeEnd _ => M + 5
  | KWait _ => 3
  | KAbort _ => M + 2
  | KReturn _ => 0
  | KShutdown _ => M + 4
  end.
Definition weight_pc (p : pc) : nat :=
  match p with
  | Ready => 0
  | VAccept _ => M + 11
  | VFailed _ temp => if temp then M + 13 else M + 10
  | VBackoff _ => M + 12
  | VKey _ _ => M + 19 | VAdmit _ => M + 18 | VTrack _ => M + 17
  | Seq ops k => length ops + 1 + weight_kont k
  | VWait _ => 3 | VCancel _ => 2 | VDone _ => 1
  | WHandler _ => 9
  | StopOnce k => weight_kont k + 4 | StopSet k => weight_kont k + 3
  | StopLn k => weight_kont k + 2 | StopDrain k => weight_kont k + 1
  | AbortAll k => M + 2 + weight_kont k
  | HServing _ => M + 4 | HWait _ => M + 3
  | StatsLoad _ rest => length rest + 1
  end.
(** Each call still to be made may cost a whole run of Serve. *)
Definition weight (l : Local) : nat := weight_pc (at_pc l) + (M + 20) * length (todo l).
Definition weight_server (s : Sh) : nat := 10 * length (arrivals s).

Lemma weight_resume l k : weight (resume l k) <= weight_kont k + (M + 20) * length (todo l).
Proof. destruct k as [|[]| | | |]; unfold weight; simpl; lia. Qed.
Lemma weight_run_seq l ops k :
  weight (run_seq l ops k) <= length ops + 1 + weight_kont k + (M + 20) * length (todo l).
Proof. destruct ops; unfold run_seq; [pose proof (weight_resume l k); simpl; lia|unfold weight; simpl; lia]. Qed.
Lemma length_release c : length (release o c) <= 2.
Proof. unfold release. destruct (hasAdmit o), (slot c); simpl; lia. Qed.

Lemma next_weight s l s' l' :
  (s', l') ∈ next s l → size (conns s) <= M →
  weight_server s' + weight l' < weight_server s + weight l.
Proof.
  intros Hn Hsz. open_next Hn. unfold start in Hn. unfold weight_server.
  destruct (at_pc l) eqn:Hpc; repeat case_match; inv_elem; simpl;
    repeat match goal with
    | |- context [weight (resume ?l ?k)] => pose proof (weight_resume l k); generalize dependent (weight (resume l k)); intros
    | |- context [weight (run_seq ?l ?ops ?k)] =>
        pose proof (weight_run_seq l ops k); generalize dependent (weight (run_seq l ops k)); intros
    end; unfold weight in *; rewrite ?Hpc in *; simpl in *;
    try match goal with H : todo l = _ :: _ |- _ => rewrite H; cbn [length]; rewrite Nat.mul_succ_r end;
    try lia.
  - destruct temp; lia.
  - rewrite length_app in *. pose proof (length_release c). simpl in *. lia.
  - rewrite (proj1 (proj2 (exec_frame s _))). lia.
  - rewrite length_app. pose proof (length_release c). simpl. lia.
  - rewrite length_fmap in *. change (length (elements (conns s))) with (size (conns s)) in *. lia.
Qed.
End term.

(** The weight of goroutines that have yet to start. *)
Lemma weight_ready M (progs : list (list call)) :
  sum_list (weight M <$> ((λ cs, mkLocal Ready cs []) <$> progs)) = (M + 20) * length (concat progs).
Proof.
  induction progs as [|p progs IH]; [simpl; lia|]. cbn [fmap list_fmap sum_list concat] in *.
  cbn [fmap list_fmap] in IH. rewrite IH, length_app. unfold weight. simpl. lia.
Qed.

(** The bound on runs. *)
Lemma tcp_bounded o arr s progs steps c :
  NewServer true true o arr = Some s →
  nsteps (step (Tcp.next o)) steps (init s progs) c →
  steps <= 10 * length arr + (length arr + 20) * (length (concat progs) + length arr).
Proof.
  intros Hnew Hrun. set (M := length arr).
  assert (Hs : taken s = 0 ∧ arrivals s = arr ∧ conns s = ∅).
  { unfold NewServer in Hnew. repeat case_match; by simplify_eq/=. }
  destruct Hs as (Ht & Ha & Hc).
  assert (Hi : numbered M (init s progs)).
  { split; simpl; [rewrite Ht, Ha; done|rewrite Hc; set_solver|].
    apply Forall_fmap, Forall_true. done. }
  assert (Hl : ∀ s ps i l s' l', numbered M (Conf s ps) → ps !! i = Some l → (s', l') ∈ Tcp.next o s l →
    weight_server s' + weight M l' < weight_server s + weight M l).
  { intros s1 ps i l s' l' HI _ Hn. eapply next_weight; [done|exact (numbered_size M _ HI)]. }
  pose proof (runs_bounded (Tcp.next o) (numbered M) weight_server (weight M) (numbered_step o M) Hl _ _ _ Hi Hrun).
  enough (total_weight weight_server (weight M) (init s progs) =
    10 * M + (M + 20) * (length (concat progs) + M)) by lia.
  unfold total_weight. simpl. unfold weight_server. rewrite Ha. f_equal.
  rewrite weight_ready, concat_app, length_app. f_equal. f_equal. fold M.
  clear. induction M; simpl; lia.
Qed.

(** C23: Every run of the server ends, whatever the handlers' goroutines, the
    limiters and the schedule: with [k] arrivals at the listener and [n] calls
    of Serve, Shutdown, Close and Stats by other goroutines, no run has more
    than [10 k + (k + 20) (n + k)] actions. *)
Theorem tcp_runs_end o arr s progs steps c :
  NewServer true true o arr = Some s →
  nsteps (step (Tcp.next o)) steps (init s progs) c →
  steps <= 10 * length arr + (length arr + 20) * (length (concat progs) + length arr).
Proof. apply tcp_bounded. Qed.

(** The first run of [Demo]: the first client is taken and served, the second
    is over its limit, the third Accept fails. *)
Lemma tcp_runs_end_witness :
  ∃ c, nsteps (step (Tcp.next Demo.opts)) 16 Demo.start0 c ∧ 16 <= 10 * 3 + (3 + 20) * (2 + 3).
Proof.
  exists Demo.mid.
  assert (Hn : nsteps (step (Tcp.next Demo.opts)) 16 Demo.start0 Demo.mid)
    by (apply (run_nsteps _ Demo.sched1); vm_compute; reflexivity).
  split; [exact Hn|].
  apply (tcp_runs_end Demo.opts Demo.arr Demo.srv [[CServe]; [CShutdown false]] 16 Demo.mid).
  - reflexivity.
  - exact Hn.
Defined.
