(* ===== verification/Sys.v ===== *)
(** Package internal/sys: the parsing of kernel control data and addresses,
    and the classification of read errors ([src/internal/sys]).

    Layouts are those of 64-bit little-endian Linux. *)
From stdpp Require Import pretty.
From S2P Require Import Prelude Tcp.

Local Open Scope Z_scope.

(** * Little-endian integers in byte slices *)

Fixpoint le (bs : list Z) : Z := match bs with [] => 0 | b :: rest => b + 256 * le rest end.
Fixpoint le_bytes (n : nat) (z : Z) : list Z :=
  match n with O => [] | S n' => z mod 256 :: le_bytes n' (z / 256) end.

Lemma length_le_bytes n z : length (le_bytes n z) = n.
Proof. revert z. induction n as [|n IH]; intros z; simpl; [done|by rewrite IH]. Qed.

Lemma le_le_bytes n z : 0 <= z < 2 ^ (8 * Z.of_nat n) → le (le_bytes n z) = z.
Proof.
  revert z. induction n as [|n IH]; intros z Hz; [simpl in *; lia|].
  replace (8 * Z.of_nat (S n)) with (8 + 8 * Z.of_nat n) in Hz by lia.
  rewrite Z.pow_add_r in Hz by lia. change (2 ^ 8) with 256 in Hz. simpl le.
  rewrite IH; [pose proof (Z.div_mod z 256); lia|].
  split; [apply Z.div_pos; lia|apply Z.div_lt_upper_bound; lia].
Qed.

(** * Control messages *)

Definition hdr : Z := 16.            (* unsafe.Sizeof(syscall.Cmsghdr{}) *)
Definition SOL_SOCKET : Z := 1.
Definition soRxqOvfl : Z := 40.

Definition cmsg_Len (oob : list Z) : Z := le (take 8 oob).
Definition cmsg_Level (oob : list Z) : Z := i32 (le (take 4 (drop 8 oob))).
Definition cmsg_Type (oob : list Z) : Z := i32 (le (take 4 (drop 12 oob))).

Definition cmsgAlign (n : Z) : Z := Z.ldiff (i64 (n + 8 - 1)) (8 - 1).

Inductive parsed := Found (n : Z) | NotFound | SlicePanic | OutOfFuel.

#[global] Instance parsed_eq_dec : EqDecision parsed.
Proof. solve_decision. Defined.

Definition zlen (bs : list Z) : Z := Z.of_nat (length bs).

Fixpoint DropCount_loop (fuel : nat) (oob : list Z) : parsed :=
  match fuel with
  | O => OutOfFuel
  | S fuel =>
      if zlen oob <? hdr then NotFound
      else
        let l := i64 (cmsg_Len oob) in
        if (l <? hdr) || (zlen oob <? l) then NotFound
        else if (cmsg_Level oob =? SOL_SOCKET) && (cmsg_Type oob =? soRxqOvfl) && (hdr + 4 <=? l)
        then Found (le (take 4 (drop 16 oob)))
        else
          let next := cmsgAlign l in
          if zlen oob <? next then NotFound
          else if next <? 0 then SlicePanic
          else DropCount_loop fuel (drop (Z.to_nat next) oob)
  end.

(** A message takes at least one byte, so the length is fuel enough. *)
Definition DropCount (oob : list Z) : parsed := DropCount_loop (S (length oob)) oob.

(** ** Alignment *)

Lemma ldiff_7 x : Z.ldiff x 7 = 8 * (x / 8).
Proof.
  change 7 with (Z.ones 3). rewrite Z.ldiff_ones_r, Z.shiftl_mul_pow2, Z.shiftr_div_pow2 by lia.
  change (2 ^ 3) with 8. lia.
Qed.

(** The smallest multiple of 8 not below [n]. *)
Lemma cmsgAlign_spec n :
  0 <= n <= 2 ^ 63 - 8 → n <= cmsgAlign n < n + 8 ∧ (8 | cmsgAlign n) ∧ cmsgAlign n = 8 * ((n + 7) / 8).
Proof.
  intros Hn. unfold cmsgAlign. rewrite i64_small by (unfold in_i64; lia).
  change (8 - 1) with 7. rewrite ldiff_7. replace (n + 8 - 1) with (n + 7) by lia.
  pose proof (Z.div_mod (n + 7) 8). pose proof (Z.mod_pos_bound (n + 7) 8).
  split_and!; [lia..| |done]. exists ((n + 7) / 8). lia.
Qed.

(** ** Any input *)

(** A well-formed SO_RXQ_OVFL message at the start of [bs], with its count. *)
Definition overflow_msg (bs : list Z) (n : Z) : Prop :=
  hdr + 4 <= i64 (cmsg_Len bs) <= zlen bs ∧ cmsg_Level bs = SOL_SOCKET ∧
  cmsg_Type bs = soRxqOvfl ∧ n = le (take 4 (drop 16 bs)).

Lemma DropCount_loop_any fuel oob :
  (length oob < fuel)%nat → zlen oob <= 2 ^ 63 - 8 →
  match DropCount_loop fuel oob with
  | Found n => ∃ pre rest, oob = pre ++ rest ∧ (8 | zlen pre) ∧ overflow_msg rest n
  | NotFound => True
  | SlicePanic | OutOfFuel => False
  end.
Proof.
  revert oob. induction fuel as [|fuel IH]; intros oob Hf Hlen; [lia|]. simpl.
  destruct (Z.ltb_spec (zlen oob) hdr) as [|Hh]; [done|].
  destruct (Z.ltb_spec (i64 (cmsg_Len oob)) hdr) as [|Hl1]; [done|].
  destruct (Z.ltb_spec (zlen oob) (i64 (cmsg_Len oob))) as [|Hl2]; [done|]. simpl orb. cbv iota.
  destruct (_ && _ && _) eqn:Hm.
  - rewrite !andb_true_iff, !Z.eqb_eq, Z.leb_le in Hm. destruct Hm as [[H1 H2] H3].
    exists [], oob. split; [done|]. split; [by exists 0|]. by split_and!.
  - unfold hdr in *. pose proof (cmsgAlign_spec (i64 (cmsg_Len oob))) as [Ha [Hd _]]; [lia|].
    set (next := cmsgAlign (i64 (cmsg_Len oob))) in *.
    destruct (Z.ltb_spec (zlen oob) next) as [|Hn]; [done|].
    destruct (Z.ltb_spec next 0) as [|_]; [lia|]. unfold zlen in *.
    specialize (IH (drop (Z.to_nat next) oob)). rewrite length_drop in IH.
    specialize (IH ltac:(lia) ltac:(lia)). destruct (DropCount_loop _ _); try done.
    destruct IH as (pre & rest & E & Hp & Ho). exists (take (Z.to_nat next) oob ++ pre), rest.
    split; [by rewrite <- app_assoc, <- E, take_drop|]. split; [|done].
    rewrite length_app, length_take, Nat2Z.inj_add. apply Z.divide_add_r; [|done].
    replace (Z.of_nat (Z.to_nat next `min` length oob)) with next by lia. done.
Qed.

(** ** Control data as the kernel writes it *)

Record cmsg := mkCmsg { level : Z; type : Z; payload : list Z }.
Definition msg_len (m : cmsg) : Z := hdr + zlen (payload m).
Definition cmsg_ok (m : cmsg) : Prop :=
  0 <= level m < 2 ^ 31 ∧ 0 <= type m < 2 ^ 31 ∧ msg_len m < 2 ^ 62.

Definition encode (m : cmsg) : list Z :=
  le_bytes 8 (msg_len m) ++ le_bytes 4 (level m) ++ le_bytes 4 (type m) ++ payload m.
Definition padding (m : cmsg) : list Z := replicate (Z.to_nat (cmsgAlign (msg_len m) - msg_len m)) 0.
(** The last message may end without its padding. *)
Definition control_data (ms : list cmsg) (last : option cmsg) : list Z :=
  (ms ≫= λ m, encode m ++ padding m) ++ match last with Some m => encode m | None => [] end.

(** The count of the first SO_RXQ_OVFL message that has room for one. *)
Fixpoint first_count (ms : list cmsg) : option Z :=
  match ms with
  | [] => None
  | m :: rest =>
      if (level m =? SOL_SOCKET) && (type m =? soRxqOvfl) && (4 <=? zlen (payload m))
      then Some (le (take 4 (payload m))) else first_count rest
  end.
Definition of_count (r : option Z) : parsed := match r with Some n => Found n | None => NotFound end.

Lemma zlen_encode m : zlen (encode m) = msg_len m.
Proof.
  unfold encode, msg_len, hdr, zlen. rewrite !length_app, !length_le_bytes. lia.
Qed.

Lemma encode_fields m x :
  cmsg_ok m →
  i64 (cmsg_Len (encode m ++ x)) = msg_len m ∧ cmsg_Level (encode m ++ x) = level m ∧
  cmsg_Type (encode m ++ x) = type m ∧ drop 16 (encode m ++ x) = payload m ++ x.
Proof.
  intros (Hl & Ht & Hm). assert (0 <= msg_len m) by (unfold msg_len, hdr, zlen; lia).
  unfold cmsg_Len, cmsg_Level, cmsg_Type, encode. rewrite <- !app_assoc.
  set (y := payload m ++ x). split_and!.
  - rewrite take_app_length' by (by rewrite length_le_bytes). rewrite le_le_bytes by (simpl; lia).
    apply i64_small. unfold in_i64. lia.
  - rewrite drop_app_length' by (by rewrite length_le_bytes).
    rewrite take_app_length' by (by rewrite length_le_bytes). rewrite le_le_bytes by (simpl; lia).
    apply i32_small. lia.
  - rewrite app_assoc, drop_app_length' by (by rewrite length_app, !length_le_bytes).
    rewrite take_app_length' by (by rewrite length_le_bytes). rewrite le_le_bytes by (simpl; lia).
    apply i32_small. lia.
  - rewrite !app_assoc, drop_app_length' by (by rewrite !length_app, !length_le_bytes). done.
Qed.

Lemma DropCount_loop_msg fuel m x :
  cmsg_ok m →
  DropCount_loop (S fuel) (encode m ++ x) =
  if (level m =? SOL_SOCKET) && (type m =? soRxqOvfl) && (4 <=? zlen (payload m))
  then Found (le (take 4 (payload m)))
  else if zlen (encode m ++ x) <? cmsgAlign (msg_len m) then NotFound
  else DropCount_loop fuel (drop (Z.to_nat (cmsgAlign (msg_len m))) (encode m ++ x)).
Proof.
  intros Hok. destruct (encode_fields m x Hok) as (E1 & E2 & E3 & E4). cbn [DropCount_loop].
  cbv zeta.
  rewrite E1, E2, E3, E4.
  assert (hdr <= msg_len m) by (unfold msg_len, hdr, zlen; lia).
  assert (msg_len m <= zlen (encode m ++ x)).
  { rewrite <- zlen_encode. unfold zlen. rewrite length_app. lia. }
  rewrite (proj2 (Z.ltb_ge (zlen _) hdr)), (proj2 (Z.ltb_ge (msg_len m) hdr)),
    (proj2 (Z.ltb_ge (zlen _) (msg_len m))) by lia. simpl orb. cbv iota.
  replace (hdr + 4 <=? msg_len m) with (4 <=? zlen (payload m))
    by (unfold msg_len; bool_cases; lia || done).
  pose proof (cmsgAlign_spec (msg_len m)) as [Ha _]; [destruct Hok as (_&_&?); unfold hdr in *; lia|].
  destruct (_ && _ && _) eqn:Hm.
  - do 2 f_equal. apply take_app_le. rewrite andb_true_iff, Z.leb_le in Hm. unfold zlen in Hm. lia.
  - destruct (_ <? _); [done|]. rewrite (proj2 (Z.ltb_ge (cmsgAlign _) 0)) by (unfold hdr in *; lia). done.
Qed.

Lemma DropCount_loop_data fuel ms last :
  Forall cmsg_ok ms → (∀ m, last = Some m → cmsg_ok m) →
  (length (control_data ms last) < fuel)%nat →
  DropCount_loop fuel (control_data ms last) = of_count (first_count (ms ++ option_list last)).
Proof.
  intros Hms Hl. revert fuel. induction Hms as [|m ms Hm Hms IH]; intros fuel Hf.
  - unfold control_data in *. simpl in *. destruct last as [m|]; (destruct fuel as [|fuel]; [lia|]); [|done].
    specialize (Hl m eq_refl). rewrite <- (app_nil_r (encode m)), DropCount_loop_msg by done.
    simpl first_count. destruct (_ && _ && _); [done|].
    assert (0 <= msg_len m <= 2 ^ 63 - 8) as Hr
      by (destruct Hl as (_&_&?); unfold msg_len, hdr, zlen in *; lia).
    pose proof (cmsgAlign_spec (msg_len m) Hr) as [Ha _]. rewrite app_nil_r, zlen_encode in *.
    destruct (Z.ltb_spec (msg_len m) (cmsgAlign (msg_len m))); [done|].
    rewrite drop_ge by (pose proof (zlen_encode m); unfold zlen in *; lia).
    assert (16 <= length (encode m))%nat by (pose proof (zlen_encode m); unfold msg_len, hdr, zlen in *; lia).
    destruct fuel; [lia|done].
  - unfold control_data in *. rewrite bind_cons, <- !app_assoc in *. simpl first_count.
    destruct fuel as [|fuel]; [lia|]. rewrite DropCount_loop_msg by done.
    destruct (_ && _ && _); [done|].
    assert (0 <= msg_len m <= 2 ^ 63 - 8) as Hr
      by (destruct Hm as (_&_&?); unfold msg_len, hdr, zlen in *; lia).
    pose proof (cmsgAlign_spec (msg_len m) Hr) as [Ha _].
    set (rest := (ms ≫= _) ++ _) in *.
    assert (length (encode m ++ padding m) = Z.to_nat (cmsgAlign (msg_len m))) as Hlen.
    { unfold padding. rewrite length_app, length_replicate. pose proof (zlen_encode m). unfold zlen in *. lia. }
    rewrite (app_assoc (encode m) (padding m) rest) in *. rewrite length_app, Hlen in Hf.
    rewrite (proj2 (Z.ltb_ge _ _)) by (unfold zlen; rewrite length_app, Hlen; lia).
    rewrite drop_app_length' by done. apply IH. unfold msg_len, hdr, zlen in *. lia.
Qed.

(** C25: DropCount is total and safe on every byte sequence: it ends, never
    slices out of range, and a count it reports is that of a complete
    SO_RXQ_OVFL message at an aligned offset of the buffer. On control data as
    the kernel writes it (messages padded to 8 bytes, the last one perhaps
    not), it returns the count of the first such message, and nothing when
    there is none. *)
Theorem DropCount_reads_overflow (oob : list Z) (ms : list cmsg) (last : option cmsg) :
  zlen oob <= 2 ^ 63 - 8 → Forall cmsg_ok (ms ++ option_list last) →
  (DropCount oob = NotFound ∨
   ∃ n pre rest, DropCount oob = Found n ∧ oob = pre ++ rest ∧ (8 | zlen pre) ∧ overflow_msg rest n) ∧
  DropCount (control_data ms last) = of_count (first_count (ms ++ option_list last)).
Proof.
  intros Hlen Hok. apply Forall_app in Hok as [Hms Hl]. split.
  - pose proof (DropCount_loop_any (S (length oob)) oob ltac:(lia) Hlen) as H. unfold DropCount.
    destruct (DropCount_loop _ _); [|by left|done|done].
    right. destruct H as (pre & rest & ?). by exists n, pre, rest.
  - apply DropCount_loop_data; [done| |lia]. intros m ->. by inversion Hl.
Qed.

(** A timestamp (SCM_TIMESTAMP, 16 bytes) before the drop count 258. *)
Definition demo_msgs : list cmsg := [mkCmsg 1 29 (replicate 16 0)].
Definition demo_last : cmsg := mkCmsg 1 40 [2; 1; 0; 0].

Lemma DropCount_reads_overflow_witness :
  DropCount (control_data demo_msgs (Some demo_last)) = Found 258.
Proof.
  destruct (DropCount_reads_overflow [1; 2; 3] demo_msgs (Some demo_last)) as [_ H].
  - vm_compute. discriminate.
  - repeat constructor; vm_compute; congruence || (intros; discriminate).
  - rewrite H. vm_compute. reflexivity.
Defined.

(** * Read errors *)

Inductive ReadErr := Fatal | Transient | Truncated.

#[global] Instance ReadErr_eq_dec : EqDecision ReadErr.
Proof. solve_decision. Defined.

(** Linux error numbers. *)
Definition EINTR : Z := 4.
Definition EAGAIN : Z := 11.
Definition transient_errnos : list Z :=
  [EINTR; EAGAIN; 105 (* ENOBUFS *); 12 (* ENOMEM *); 111 (* ECONNREFUSED *);
   113 (* EHOSTUNREACH *); 101 (* ENETUNREACH *)].

(** [errors.As(err, &errno)] finds an error number, or not. *)
Definition ClassifyRead (err : option Z) : ReadErr :=
  match err with
  | None => Fatal
  | Some errno => if decide (errno ∈ transient_errnos) then Transient else Fatal
  end.

Definition classifyWinsock (code : Z) : ReadErr :=
  if code =? 10040 then Truncated
  else if (code =? 10054) || (code =? 10052) then Transient
  else Fatal.
(** [ClassifyRead] on Windows. *)
Definition ClassifyRead_windows (err : option Z) : ReadErr :=
  match err with None => Fatal | Some errno => classifyWinsock (u32 errno) end.

(** * Sender addresses *)

Record AddrPort := mkAddrPort { ip : Addr; zone_name : string; ap_port : Z }.

#[global] Instance AddrPort_eq_dec : EqDecision AddrPort.
Proof. solve_decision. Defined.

(** [netip.Addr.Unmap] drops the zone with the mapping. *)
Definition Unmap_port (a : AddrPort) : AddrPort :=
  match Unmap (ip a) with
  | V4 x => mkAddrPort (V4 x) "" (ap_port a)
  | V6 x => mkAddrPort (V6 x) (zone_name a) (ap_port a)
  end.

(** A sockaddr's port, in network byte order: bytes 2 and 3. *)
Definition port (b0 b1 : Z) : Z := Z.lor (Z.shiftl b0 8) b1.
Definition sa_family (sa : list Z) : Z := le (take 2 sa).
Definition sa_port (sa : list Z) : Z := port (default 0 (sa !! 2%nat)) (default 0 (sa !! 3%nat)).
Definition in4_addr (sa : list Z) : Addr := V4 (be_bytes (take 4 (drop 4 sa)) 0).
Definition in6_addr (sa : list Z) : Addr := V6 (be_bytes (take 16 (drop 8 sa)) 0).
Definition in6_scope (sa : list Z) : Z := le (take 4 (drop 24 sa)).

Section addresses.
(** [net.InterfaceByIndex]: the name, if there is such an interface. *)
Context (InterfaceByIndex : Z → option string).

(** The name the net package gives a scope. *)
Definition scope_name (id : Z) : string :=
  match InterfaceByIndex id with Some name => name | None => pretty (Z.to_N id) end.

Definition zone (zones : gmap Z string) (id : Z) : gmap Z string * string :=
  match zones !! id with
  | Some z => (zones, z)
  | None =>
      let z := match InterfaceByIndex id with Some name => name | None => pretty (Z.to_N id) end in
      (<[id := z]> zones, z)
  end.

(** AF_INET is 2, AF_INET6 is 10. *)
Definition addr (zones : gmap Z string) (sa : list Z) : gmap Z string * option AddrPort :=
  if sa_family sa =? 2 then (zones, Some (mkAddrPort (in4_addr sa) "" (sa_port sa)))
  else if sa_family sa =? 10 then
    match Unmap (in6_addr sa) with
    | V6 a =>
        if in6_scope sa =? 0 then (zones, Some (mkAddrPort (V6 a) "" (sa_port sa)))
        else let '(zones', z) := zone zones (in6_scope sa) in
             (zones', Some (mkAddrPort (V6 a) z (sa_port sa)))
    | V4 a => (zones, Some (mkAddrPort (V4 a) "" (sa_port sa)))
    end
  else (zones, None).

(** The address [net.UDPConn.ReadMsgUDPAddrPort] reports for the same bytes. *)
Definition net_addr (sa : list Z) : option AddrPort :=
  if sa_family sa =? 2 then Some (mkAddrPort (in4_addr sa) "" (sa_port sa))
  else if sa_family sa =? 10 then
    Some (mkAddrPort (in6_addr sa) (if in6_scope sa =? 0 then "" else scope_name (in6_scope sa)) (sa_port sa))
  else None.

Definition zones_ok (zones : gmap Z string) : Prop := ∀ id z, zones !! id = Some z → z = scope_name id.

Lemma zone_spec zones id :
  zones_ok zones → zones_ok (zone zones id).1 ∧ (zone zones id).2 = scope_name id.
Proof.
  intros Hz. unfold zone. destruct (zones !! id) as [z|] eqn:E; simpl; [by auto|].
  split; [|done]. intros id' z' [[<- <-]|[_ ?]]%lookup_insert_Some; [done|by apply Hz].
Qed.

(** Batched reads report senders as single reads do. *)
Lemma addr_as_single zones sa :
  zones_ok zones →
  zones_ok (addr zones sa).1 ∧ (addr zones sa).2 = Unmap_port <$> net_addr sa.
Proof.
  intros Hz. unfold addr, net_addr. destruct (sa_family sa =? 2); [split; [exact Hz|reflexivity]|].
  destruct (sa_family sa =? 10); [|split; [exact Hz|reflexivity]].
  cbn [fmap option_fmap option_map]. unfold Unmap_port. cbn [ip zone_name ap_port].
  destruct (Unmap (in6_addr sa)) as [x|x]; [split; [exact Hz|reflexivity]|].
  destruct (in6_scope sa =? 0); [split; [exact Hz|reflexivity]|].
  pose proof (zone_spec zones (in6_scope sa) Hz) as [H1 H2].
  destruct (zone zones (in6_scope sa)) as [zs z]. cbn [fst snd] in *. rewrite H2. split; [exact H1|reflexivity].
Qed.
End addresses.

(** * recvmmsg *)

(** What the system call answers: an error number, or a number of messages. *)
Inductive sysret := Errno (e : Z) | Received (n : nat).

(** [recv]: retries after EINTR; [None] asks to wait for the poller. *)
Fixpoint recv (answers : list sysret) : option (option sysret) * list sysret :=
  match answers with
  | [] => (None, [])
  | Errno e :: rest =>
      if e =? EINTR then recv rest
      else if e =? EAGAIN then (Some None, rest) else (Some (Some (Errno e)), rest)
  | Received n :: rest => (Some (Some (Received n)), rest)
  end.

(** [Read]: recv until it does not ask to wait. *)
Fixpoint Read (fuel : nat) (answers : list sysret) : option (sum Z nat) * list sysret :=
  match fuel with
  | O => (None, answers)
  | S fuel =>
      match recv answers with
      | (Some (Some (Errno e)), rest) => (Some (inl e), rest)
      | (Some (Some (Received n)), rest) => (Some (inr n), rest)
      | (Some None, rest) => Read fuel rest
      | (None, rest) => (None, rest)
      end
  end.

Definition retried (a : sysret) : bool :=
  match a with Errno e => (e =? EINTR) || (e =? EAGAIN) | Received _ => false end.
Definition read_result (a : sysret) : sum Z nat :=
  match a with Errno e => inl e | Received n => inr n end.

Lemma recv_shorter answers r rest : recv answers = (Some r, rest) → (length rest < length answers)%nat.
Proof.
  induction answers as [|a answers IH]; simpl; [done|]. destruct a as [e|n]; [|intros; simplify_eq; lia].
  destruct (e =? EINTR); [intros H%IH; lia|]. destruct (e =? EAGAIN); intros; simplify_eq; lia.
Qed.

Lemma recv_skips a answers :
  retried a = true →
  recv (a :: answers) = recv answers ∨ recv (a :: answers) = (Some None, answers).
Proof. destruct a as [e|n]; simpl; [|done]. destruct (e =? EINTR), (e =? EAGAIN); auto; done. Qed.

(** Read returns the first answer that is neither an interruption nor a
    request to wait; a fuel above the number of answers is enough. *)
Lemma Read_first fuel pre a rest :
  Forall (λ x, retried x = true) pre → retried a = false → (length pre < fuel)%nat →
  Read fuel (pre ++ a :: rest) = (Some (read_result a), rest).
Proof.
  intros Hpre Ha. revert fuel. induction Hpre as [|x pre Hx _ IH]; intros fuel Hf;
    (destruct fuel as [|fuel]; [simpl in Hf; lia|]).
  - destruct a as [e|n]; simpl in *; [|done]. by destruct (e =? EINTR), (e =? EAGAIN).
  - simpl in Hf. cbn [app Read]. destruct (recv_skips x (pre ++ a :: rest) Hx) as [-> | ->].
    + apply (IH (S fuel)). lia.
    + apply IH. lia.
Qed.
