(* ===== verification/UdpDrops.v ===== *)
(** The udp package's drop counters ([dropCounter.observe] of
    [src/udp/udp.go]): 64-bit totals from the kernel's wrapping 32-bit counts,
    reported by several readers, perhaps out of order. *)
From S2P Require Import Prelude Interleave.

Local Open Scope Z_scope.

Record dropCounter := mkDrop { last : Z; total : Z }.

(** Where a call of observe is. *)
Inductive obs :=
  | ObsLoad (raw : Z)             (* d.last.Load() *)
  | ObsCas (prev raw : Z)         (* CompareAndSwap *)
  | ObsAdd (delta : Z)            (* d.total.Add *)
  | ObsDone.

Definition delta (raw prev : Z) : Z := i32 (u32 (raw - prev)).

Definition observe (d : dropCounter) (p : obs) : option (dropCounter * obs) :=
  match p with
  | ObsLoad raw =>
      Some (d, if delta raw (last d) <=? 0 then ObsDone else ObsCas (last d) raw)
  | ObsCas prev raw =>
      if last d =? prev then Some (mkDrop raw (total d), ObsAdd (delta raw prev))
      else Some (d, ObsLoad raw)
  | ObsAdd dl => Some (mkDrop (last d) (u64 (total d + u64 dl)), ObsDone)
  | ObsDone => None
  end.

(** * Readers that share a socket *)

(** [cur]: the kernel's cumulative count being reported, of which observe
    gets the low 32 bits; [seen]: the counts dealt with. *)
Record Local := mkLocal { cur : option (Z * obs); todo : list Z; seen : list Z }.
Local Abbreviation conf := (@conf dropCounter Local).

Definition settled (p p' : obs) : bool :=
  match p, p' with ObsLoad _, ObsDone | ObsCas _ _, ObsAdd _ => true | _, _ => false end.

Definition next (d : dropCounter) (l : Local) : list (dropCounter * Local) :=
  match cur l with
  | None =>
      match todo l with
      | [] => []
      | t :: rest => [(d, mkLocal (Some (t, ObsLoad (u32 t))) rest (seen l))]
      end
  | Some (t, p) =>
      match observe d p with
      | None => [(d, mkLocal None (todo l) (seen l))]
      | Some (d', p') =>
          [(d', mkLocal (Some (t, p')) (todo l) (if settled p p' then seen l ++ [t] else seen l))]
      end
  end.

Definition init (progs : list (list Z)) : conf :=
  Conf (mkDrop 0 0) ((λ ts, mkLocal None ts []) <$> progs).

(** The largest count dealt with so far. *)
Definition zmax (ts : list Z) : Z := foldr Z.max 0 ts.
Definition top (c : conf) : Z := zmax (procs c ≫= seen).

(** A count being reported is less than 2^31 datagrams from the largest one. *)
Definition in_time (t0 : Z) (l : Local) : Prop :=
  match cur l with
  | Some (t, ObsLoad _) | Some (t, ObsCas _ _) => - 2 ^ 31 <= t - t0 < 2 ^ 31
  | _ => True
  end.
Definition tstep (c c' : conf) : Prop := Forall (in_time (top c)) (procs c) ∧ step next c c'.

(** * Sums modulo powers of two *)

Lemma delta_exact t m : - 2 ^ 31 <= t - m < 2 ^ 31 → delta (u32 t) (u32 m) = t - m.
Proof.
  intros H. unfold delta, i32, wrap_s, u32, wrap_u. change (32 - 1) with 31.
  rewrite <- Zminus_mod, Zplus_mod_idemp_l. rewrite Z.mod_small by lia. lia.
Qed.

Lemma u32_eq_close a b : u32 a = u32 b → a <= b < a + 2 ^ 32 → a = b.
Proof.
  unfold u32, wrap_u. intros E H.
  pose proof (Z.div_mod a (2 ^ 32)). pose proof (Z.div_mod b (2 ^ 32)).
  assert (b / 2 ^ 32 = a / 2 ^ 32); [nia|]. nia.
Qed.

Lemma counts_max_app ts us : zmax (ts ++ us) = Z.max (zmax ts) (zmax us).
Proof. induction ts as [|t ts IH]; simpl; [|rewrite IH; lia]. induction us; simpl; lia. Qed.
Lemma counts_max_nonneg ts : 0 <= zmax ts.
Proof. induction ts; simpl; lia. Qed.
Lemma counts_max_perm ts us : ts ≡ₚ us → zmax ts = zmax us.
Proof. induction 1; simpl; lia. Qed.

Lemma top_insert ps (i : nat) l l' ts d d' :
  ps !! i = Some l → seen l' = seen l ++ ts →
  top (Conf d' (<[i:=l']> ps)) = Z.max (top (Conf d ps)) (zmax ts).
Proof.
  intros Hl Hs. unfold top. simpl. destruct (insert_decompose _ _ _ l' Hl) as (l1 & l2 & -> & ->).
  rewrite !bind_app, !bind_cons, Hs, !counts_max_app. lia.
Qed.

(** * The invariant *)

Definition pending (l : Local) : Z := match cur l with Some (_, ObsAdd dl) => dl | _ => 0 end.
Definition obs_ok (t0 : Z) (l : Local) : Prop :=
  match cur l with
  | Some (t, ObsLoad raw) => raw = u32 t
  | Some (t, ObsCas prev raw) => raw = u32 t ∧ ∃ m, prev = u32 m ∧ m <= t0 ∧ 0 < t - m < 2 ^ 31
  | Some (t, ObsAdd dl) => 0 < dl
  | _ => True
  end.
Definition unseen (l : Local) : list Z :=
  match cur l with Some (t, ObsLoad _) | Some (t, ObsCas _ _) => t :: todo l | _ => todo l end.

Record drops_inv (progs : list (list Z)) (c : conf) : Prop := {
  d_last : last (shared c) = u32 (top c);
  d_total : in_u64 (total (shared c)) ∧ u64 (total (shared c) + zsum pending (procs c)) = u64 (top c);
  d_obs : Forall (obs_ok (top c)) (procs c);
  d_seen : (λ l, seen l ++ unseen l) <$> procs c = progs }.

Lemma obs_ok_mono t0 t1 l : t0 <= t1 → obs_ok t0 l → obs_ok t1 l.
Proof.
  intros Ht. unfold obs_ok. destruct (cur l) as [[t []]|]; try done.
  intros (? & m & ? & ? & ?). split; [done|]. exists m. split_and!; try done; lia.
Qed.

(** One action of a reader. *)
Lemma drops_local d l d' l' t0 :
  (d', l') ∈ next d l → last d = u32 t0 → 0 <= t0 → in_u64 (total d) → obs_ok t0 l → in_time t0 l →
  ∃ ts, seen l' = seen l ++ ts ∧ last d' = u32 (Z.max t0 (zmax ts)) ∧ in_u64 (total d') ∧
    (∀ P, u64 (total d' + (P - pending l + pending l')) = u64 (total d + P + (Z.max t0 (zmax ts) - t0))) ∧
    obs_ok (Z.max t0 (zmax ts)) l' ∧ seen l' ++ unseen l' = seen l ++ unseen l.
Proof.
  intros Hn Hlast H0 Ht Hok Hin. unfold next, obs_ok, in_time in *.
  destruct (cur l) as [[t p]|] eqn:Hc.
  2:{ destruct (todo l) as [|t rest] eqn:Htd; inv_elem. exists []. rewrite app_nil_r. unfold pending, unseen.
      rewrite Hc, Htd. simpl. rewrite Z.max_l by lia. split_and!; try done. intros P. f_equal. lia. }
  destruct p as [raw|prev raw|dl|]; simpl in Hn.
  - subst raw. rewrite Hlast, delta_exact in Hn by lia.
    apply list_elem_of_singleton in Hn. simplify_eq.
    destruct (Z.leb_spec (t - t0) 0).
    + exists [t]. simpl. rewrite !Z.max_l by lia. unfold pending, unseen. rewrite Hc. simpl.
      split_and!; try done; [intros P; f_equal; lia|by rewrite <- app_assoc].
    + exists []. simpl. rewrite app_nil_r, Z.max_l by lia. unfold pending, unseen. rewrite Hc. simpl.
      split_and!; try done; [intros P; f_equal; lia|]. exists t0. split_and!; done || lia.
  - destruct Hok as (-> & m & -> & Hm & Htm). rewrite Hlast in Hn.
    destruct (Z.eqb_spec (u32 t0) (u32 m)) as [E|E]; apply list_elem_of_singleton in Hn; simplify_eq.
    + apply eq_sym, u32_eq_close in E as ->; [|lia]. rewrite delta_exact by lia.
      exists [t]. simpl. rewrite (Z.max_l t 0), Z.max_r by lia. unfold pending, unseen. rewrite Hc. simpl.
      split_and!; try done; [intros P; f_equal; lia|lia|by rewrite <- app_assoc].
    + exists []. simpl. rewrite app_nil_r, Z.max_l by lia. unfold pending, unseen. rewrite Hc. simpl.
      split_and!; try done. intros P. f_equal. lia.
  - apply list_elem_of_singleton in Hn. simplify_eq. exists []. simpl.
    rewrite app_nil_r, Z.max_l by lia. unfold pending, unseen. rewrite Hc. simpl.
    split_and!; try done; [apply u64_range|]. intros P.
    rewrite u64_add_l, <- Z.add_assoc, (Z.add_comm (u64 dl)), Z.add_assoc, u64_add_r. f_equal. lia.
  - apply list_elem_of_singleton in Hn. simplify_eq. exists []. simpl.
    rewrite app_nil_r, Z.max_l by lia. unfold pending, unseen. rewrite Hc. simpl.
    split_and!; try done. intros P. f_equal. lia.
Qed.

Lemma drops_step progs c c' : drops_inv progs c → tstep c c' → drops_inv progs c'.
Proof.
  intros [H1 [H2 H2'] H3 H4] [Hin Hst]. destruct Hst as [i l d d' l' ps Hl Hn].
  pose proof (Forall_lookup_1 _ _ _ _ H3 Hl) as Hok. pose proof (Forall_lookup_1 _ _ _ _ Hin Hl) as Ht.
  destruct (drops_local _ _ _ _ _ Hn H1 (counts_max_nonneg _) H2 Hok Ht) as (ts & Hs & E1 & E2 & E3 & E4 & E5).
  simpl in *. pose proof (top_insert ps i l l' ts d d' Hl Hs) as Etop. split; simpl.
  - by rewrite Etop.
  - split; [done|]. rewrite (zsum_insert _ _ _ _ _ Hl), E3, Etop, <- u64_add_l, H2', u64_add_l. f_equal. lia.
  - rewrite Etop. apply Forall_insert; [|done]. eapply Forall_impl; [exact H3|].
    intros. eapply obs_ok_mono; [|done]. lia.
  - rewrite list_fmap_insert, E5, <- H4. apply list_insert_id. by rewrite list_lookup_fmap, Hl.
Qed.

Lemma drops_init progs : drops_inv progs (init progs).
Proof.
  assert (procs (init progs) ≫= seen = []) as Hs
    by (unfold init; simpl; induction progs; [done|]; by csimpl).
  split; unfold top; rewrite ?Hs; simpl.
  - done.
  - split; [done|]. rewrite zsum_zero; [done|]. by intros l (? & -> & _)%list_elem_of_fmap.
  - apply Forall_forall. by intros l (? & -> & _)%list_elem_of_fmap.
  - rewrite <- list_fmap_compose. rewrite <- (list_fmap_id progs) at 2. by apply list_fmap_ext.
Qed.

Definition finished (l : Local) : Prop := cur l = None ∧ todo l = [].

(** C30: Readers that share a socket report the kernel's cumulative drop
    count, of which they see 32 wrapping bits, concurrently and perhaps out of
    order. As long as a report is fewer than 2^31 drops from the largest one,
    the 64-bit total plus the additions under way is the largest count dealt
    with, and once all reports are done it is the largest count reported: no
    drop is lost or counted twice. *)
Theorem drops_total (progs : list (list Z)) (c : conf) :
  rtc tstep (init progs) c →
  u64 (total (shared c) + zsum pending (procs c)) = u64 (top c) ∧
  (Forall finished (procs c) → total (shared c) = u64 (zmax (concat progs))).
Proof.
  intros Hr. assert (drops_inv progs c) as [_ [H2 H2'] _ H4].
  { pose proof (drops_init progs) as H0. induction Hr as [|a b z Hab _ IH]; [done|].
    apply IH. by eapply drops_step. }
  split; [done|]. intros Hf.
  assert (zsum pending (procs c) = 0) as Hp.
  { apply zsum_zero. intros l Hl. rewrite Forall_forall in Hf. destruct (Hf l Hl) as [E _].
    unfold pending. by rewrite E. }
  rewrite Hp, Z.add_0_r, u64_small in H2' by done. rewrite H2'. f_equal.
  unfold top. rewrite <- H4. clear -Hf. induction Hf as [|l ls [E1 E2] _ IH]; [done|]. csimpl.
  assert (unseen l = []) as -> by (unfold unseen; by rewrite E1). by rewrite app_nil_r, !counts_max_app, IH.
Qed.

(** A reader reports a count just past the 32-bit wrap after another reader's
    later count: only the later one moves the total. *)
Definition demo_progs : list (list Z) := [[2 ^ 31 - 1; 2 ^ 32 - 2; 2 ^ 32 + 5]; [2 ^ 32 + 3]].
Definition demo_sched : list (nat * nat) := replicate 15 (0, 0)%nat ++ replicate 3 (1, 0)%nat.

#[global] Instance in_time_dec t0 l : Decision (in_time t0 l).
Proof. unfold in_time. destruct (cur l) as [[t []]|]; apply _. Defined.

Fixpoint trun (sched : list (nat * nat)) (c : conf) : option conf :=
  match sched with
  | [] => Some c
  | ij :: rest =>
      if decide (Forall (in_time (top c)) (procs c)) then c' ← run1 next c ij; trun rest c' else None
  end.

Lemma trun_sound sched c c' : trun sched c = Some c' → rtc tstep c c'.
Proof.
  revert c. induction sched as [|ij rest IH]; intros c; simpl; [intros [= ->]; constructor|].
  case_decide; [|done]. destruct (run1 next c ij) as [c1|] eqn:E; [|done]. intros Hr.
  econstructor; [|by apply IH]. split; [done|by eapply run1_sound].
Qed.

Definition demo_end : conf := default (init demo_progs) (trun demo_sched (init demo_progs)).

Lemma drops_total_witness : total (shared demo_end) = 2 ^ 32 + 5.
Proof.
  destruct (drops_total demo_progs demo_end) as [_ H].
  - apply (trun_sound demo_sched). vm_compute. reflexivity.
  - rewrite H; [vm_compute; reflexivity|]. vm_compute. repeat constructor.
Defined.
