(* ===== verification/Udp.v ===== *)
(** Package udp ([src/udp/udp.go]): Listen's options, the readers, Serve,
    Shutdown, Close and the writes of a Conn.

    Readers, Serve and any callers of Shutdown and Close are goroutines over
    shared memory. A socket is the list of what its reads will return; the
    handler is user code that returns. A reader's buffers, counters and calls
    of the handler belong to its goroutine. *)
From S2P Require Import Prelude Interleave Internal Tcp Sys UdpDrops.

Local Open Scope Z_scope.

Definition MaxDatagram : Z := 65000.
Definition maxBatch : Z := 1024.

(** * Listen *)

Record Options := mkOptions { Readers : Z; MaxPacket : Z; Batch : Z; ReusePort : bool }.

(** The receive buffer size, batch, readers and sockets in effect. *)
Record Config := mkConfig { max : Z; batch : Z; readers : Z; nsock : Z }.

(** The checks and defaults at the top of Listen. *)
Definition Listen_config (hasHandler batchSupported : bool) (defaultBatch : Z) (o : Options) : option Config :=
  if negb hasHandler then None
  else if (Readers o <? 0) || (MaxPacket o <? 0) || (Batch o <? 0) then None
  else if MaxDatagram <? MaxPacket o then None
  else if maxBatch <? Batch o then None
  else
    let rs := if Readers o =? 0 then 1 else Readers o in
    let mp := if MaxPacket o =? 0 then MaxDatagram else MaxPacket o in
    let ns := if ReusePort o then rs else 1 in
    let b := if negb batchSupported then 1
             else if (Batch o =? 0) && (ns <? rs) then 1
             else if Batch o =? 0 then defaultBatch
             else Batch o in
    Some (mkConfig mp b rs ns).

(** The loop that binds [n] sockets; [bound i] is whether ListenPacket
    succeeds. On an error the sockets bound so far are closed. *)
Inductive listened := Bound (socks : list nat) | Refused (closed : list nat).
Fixpoint Listen_loop (bound : nat → bool) (n i : nat) (socks : list nat) : listened :=
  match n with
  | O => Bound socks
  | S n' => if bound i then Listen_loop bound n' (S i) (socks ++ [i]) else Refused socks
  end.
Definition Listen (bound : nat → bool) (c : Config) : listened :=
  Listen_loop bound (Z.to_nat (nsock c)) 0 [].

(** * Writes *)

Inductive werr := ErrTooLarge | ErrClosed | ErrNilPacket | ErrWrite (e : Z).
Record sendStats := mkSend { packets : Z; bytes : Z; errors : Z }.

(** What [WriteToUDPAddrPort] does: the bytes sent, or an error. *)
Inductive sent := Sent (n : Z) | SendClosed | SendErr (e : Z).

(** [write]: the socket's counters after it, whether the socket was used, and
    the error. *)
Definition write (st : sendStats) (len : Z) (r : sent) : sendStats * bool * option werr :=
  if MaxDatagram <? len then (st, false, Some ErrTooLarge)
  else
    match r with
    | Sent n => (mkSend (Counter.Inc (packets st)) (u64 (bytes st + u64 n)) (errors st), true, None)
    | SendClosed => (mkSend (packets st) (bytes st) (Counter.Inc (errors st)), true, Some ErrClosed)
    | SendErr e => (mkSend (packets st) (bytes st) (Counter.Inc (errors st)), true, Some (ErrWrite e))
    end.

(** The socket a write uses. *)
Definition WriteTo_sock (c : Config) (to_port : Z) : Z := Z.rem to_port (nsock c).
Definition Reply_sock (c : Config) (reader to_port : Z) : Z :=
  if (reader <? 0) || (readers c <=? reader) then WriteTo_sock c to_port else Z.rem reader (nsock c).

(** * Datagrams *)

(** What a read returns: a datagram with its control data and its sender's
    sockaddr, or an error with its error number, if it has one. *)
Record dgram := mkDgram { payload : list Z; oob : list Z; sa : list Z }.
Inductive rx := Dgram (d : dgram) | RxErr (errno : option Z).

Record Packet := mkPacket { Data : list Z; From : option AddrPort; Reader : nat }.

Record readerStats := mkStats { recvPackets : Z; recvBytes : Z; truncated : Z; recvErrors : Z }.

Section conn.
Context (cfg : Config) (InterfaceByIndex : Z → option string) (classify : option Z → ReadErr).

Definition maxn : nat := Z.to_nat (max cfg).
Definition batchn : nat := Z.to_nat (batch cfg).
Definition nsockn : nat := Z.to_nat (nsock cfg).

(** The bytes the kernel stores of a datagram, and whether it cut it. *)
Definition stored (d : dgram) : list Z := take maxn (payload d).
Definition cut (d : dgram) : bool := bool_decide (maxn < length (payload d))%nat.

(** recvmsg or recvmmsg: datagram [i] goes to [bufs[i]], which is
    [mem[i*max : (i+1)*max]]. *)
Definition store_at (mem : list Z) (i : nat) (d : dgram) : list Z :=
  take (i * maxn) mem ++ stored d ++ drop (i * maxn + length (stored d)) mem.
Fixpoint scatter (mem : list Z) (i : nat) (ds : list dgram) : list Z :=
  match ds with [] => mem | d :: rest => scatter (store_at mem i d) (S i) rest end.
(** [bufs[i][:size]] *)
Definition slot_data (mem : list Z) (i size : nat) : list Z := take size (drop (i * maxn) mem).

(** The leading datagrams of a socket's queue. *)
Fixpoint leading (q : list rx) : list dgram :=
  match q with Dgram d :: rest => d :: leading rest | _ => [] end.

(** * The Conn *)

Record Sh := mkSh {
  queues : list (list rx);              (* what the reads of each socket return *)
  closedUpto : nat;                     (* sockets closed, in order *)
  drops : list dropCounter;
  serving : bool; closed : bool;
  fatal : option (option Z);            (* the first unrecoverable read error *)
  done : bool; closing : bool;          (* channels, true when closed *)
  once : option bool;                   (* closeOnce: Some false while it runs *)
  wg : Z;
  spawned : list nat;                   (* readers started, not yet running *)
  crashed : bool }.

Inductive call := CServe | CShutdown (ends : bool) | CClose | CReader.
Inductive ret := RetServe (e : option (option Z)) | RetRefused | RetShutdown (ctxErr : bool) | RetClose.

Inductive kont := KReader | KReturn (r : ret) | KShutdown (ends : bool).

Inductive pc :=
  | Ready
  | SSpawn (i : nat)                      (* wg.Add(1); go reader i *)
  | SWait                                 (* wg.Wait() *)
  | SFatal                                (* reads c.fatal under the lock *)
  | SDone (e : option (option Z))         (* close(c.done) *)
  | RRead (delay : Z)                     (* the read *)
  | RMsgs (ms : list (nat * dgram))       (* messages of the last read, with their slots *)
  | RObs (p : obs) (m : nat * dgram) (rest : list (nat * dgram))   (* drops.observe *)
  | RCount (m : nat * dgram) (rest : list (nat * dgram))     (* truncated or recvPackets *)
  | RBytes (m : nat * dgram) (rest : list (nat * dgram))     (* recvBytes *)
  | RCall (m : nat * dgram) (rest : list (nat * dgram))      (* the handler *)
  | RFailed (e : option Z) (delay : Z)    (* readFailed *)
  | RWait (delay : Z)                     (* backoff.Wait *)
  | RFatal (e : option Z)                 (* sets c.fatal under the lock *)
  | RDone                                 (* wg.Done() *)
  | COnce (k : kont) | CSet (k : kont) | CChan (k : kont) | CSock (k : kont)   (* Close *)
  | HServing (ends : bool) | HWait (ends : bool).                             (* Shutdown *)

(** A goroutine, with the state a reader's frame holds. *)
Record Local := mkLocal {
  at_pc : pc; todo : list call; rets : list ret;
  rdr : nat; mem : list Z; zones : gmap Z string; st : readerStats;
  calls : list Packet;                    (* calls of the handler *)
  log : list rx }.                        (* what its reads returned *)

Definition goto (l : Local) (p : pc) : Local :=
  mkLocal p (todo l) (rets l) (rdr l) (mem l) (zones l) (st l) (calls l) (log l).
Definition return_ (l : Local) (r : ret) : Local :=
  mkLocal Ready (todo l) (rets l ++ [r]) (rdr l) (mem l) (zones l) (st l) (calls l) (log l).
Definition set_st (l : Local) (x : readerStats) (p : pc) : Local :=
  mkLocal p (todo l) (rets l) (rdr l) (mem l) (zones l) x (calls l) (log l).
Definition resume (l : Local) (k : kont) : Local :=
  match k with
  | KReader => goto l RDone
  | KReturn r => return_ l r
  | KShutdown e => goto l (HServing e)
  end.

Definition set_queue (s : Sh) (i : nat) (q : list rx) : Sh :=
  mkSh (<[i:=q]> (queues s)) (closedUpto s) (drops s) (serving s) (closed s) (fatal s) (done s)
    (closing s) (once s) (wg s) (spawned s) (crashed s).
Definition set_drop (s : Sh) (i : nat) (d : dropCounter) : Sh :=
  mkSh (queues s) (closedUpto s) (<[i:=d]> (drops s)) (serving s) (closed s) (fatal s) (done s)
    (closing s) (once s) (wg s) (spawned s) (crashed s).
Definition set_serve (s : Sh) (sv dn : bool) (n : Z) (sp : list nat) : Sh :=
  mkSh (queues s) (closedUpto s) (drops s) sv (closed s) (fatal s) dn
    (closing s) (once s) n sp (crashed s).
Definition set_fatal (s : Sh) (e : option (option Z)) : Sh :=
  mkSh (queues s) (closedUpto s) (drops s) (serving s) (closed s) e (done s)
    (closing s) (once s) (wg s) (spawned s) (crashed s).
Definition set_close (s : Sh) (n : nat) (cl ch : bool) (on : option bool) : Sh :=
  mkSh (queues s) n (drops s) (serving s) cl (fatal s) (done s)
    ch on (wg s) (spawned s) (crashed s).
Definition crash (s : Sh) : Sh :=
  mkSh (queues s) (closedUpto s) (drops s) (serving s) (closed s) (fatal s) (done s)
    (closing s) (once s) (wg s) (spawned s) true.

(** The socket of a reader. *)
Definition sock (l : Local) : nat := rdr l `mod` nsockn.

(** ** Readers *)

(** The read of one datagram, or of up to [batch] of those queued. *)
Definition read_step (s : Sh) (l : Local) (d : Z) : list (Sh * Local) :=
  if bool_decide (sock l < closedUpto s)%nat then [(s, goto l RDone)]   (* net.ErrClosed *)
  else match queues s !! sock l with
       | None => [(crash s, l)]
       | Some [] => []
       | Some (RxErr e :: rest) => 
           [(set_queue s (sock l) rest,
             mkLocal (RFailed e d) (todo l) (rets l) (rdr l) (mem l) (zones l) (st l) (calls l)
               (log l ++ [RxErr e]))]
       | Some (Dgram d0 :: rest) =>
           let q := Dgram d0 :: rest in
           (λ k, let ds := take k (leading q) in
                 (set_queue s (sock l) (drop k q),
                  mkLocal (RMsgs (imap pair ds)) (todo l) (rets l) (rdr l) (scatter (mem l) 0 ds)
                    (zones l) (st l) (calls l) (log l ++ (Dgram <$> ds))))
           <$> seq 1 (Nat.min (Nat.max 1 batchn) (length (leading q)))
       end.

(** The body of the loop over the messages of a read. *)
Definition msgs_step (s : Sh) (l : Local) (ms : list (nat * dgram)) : list (Sh * Local) :=
  match ms with
  | [] => [(s, goto l (RRead 0))]
  | m :: rest =>
      match oob m.2 with
      | [] => [(s, goto l (RCount m rest))]
      | _ => match DropCount (oob m.2) with
             | Found n => [(s, goto l (RObs (ObsLoad n) m rest))]
             | NotFound => [(s, goto l (RCount m rest))]
             | SlicePanic | OutOfFuel => [(crash s, l)]
             end
      end
  end.
Definition obs_step (s : Sh) (l : Local) (p : obs) (m : nat * dgram) (rest : list (nat * dgram))
  : list (Sh * Local) :=
  match drops s !! sock l with
  | None => [(crash s, l)]
  | Some d =>
      match observe d p with
      | None => [(s, goto l (RCount m rest))]
      | Some (d', p') => [(set_drop s (sock l) d', goto l (RObs p' m rest))]
      end
  end.
Definition count_step (s : Sh) (l : Local) (m : nat * dgram) (rest : list (nat * dgram)) : list (Sh * Local) :=
  let x := st l in
  if cut m.2
  then [(s, set_st l (mkStats (recvPackets x) (recvBytes x) (Counter.Inc (truncated x)) (recvErrors x))
              (RMsgs rest))]
  else [(s, set_st l (mkStats (Counter.Inc (recvPackets x)) (recvBytes x) (truncated x) (recvErrors x))
              (RBytes m rest))].
Definition bytes_step (s : Sh) (l : Local) (m : nat * dgram) (rest : list (nat * dgram)) : list (Sh * Local) :=
  let x := st l in
  [(s, set_st l (mkStats (recvPackets x)
         (Counter.Add (recvBytes x) (u64 (Z.of_nat (length (stored m.2))))) (truncated x) (recvErrors x))
         (RCall m rest))].
(** p.Data, p.From, c.handler(c, p). *)
Definition call_step (s : Sh) (l : Local) (m : nat * dgram) (rest : list (nat * dgram)) : list (Sh * Local) :=
  let '(zs, from) :=
    if 1 <? batch cfg then addr InterfaceByIndex (zones l) (sa m.2)
    else (zones l, Unmap_port <$> net_addr InterfaceByIndex (sa m.2)) in
  let p := mkPacket (slot_data (mem l) m.1 (length (stored m.2))) from (rdr l) in
  [(s, mkLocal (RMsgs rest) (todo l) (rets l) (rdr l) (mem l) zs (st l) (calls l ++ [p]) (log l))].

(** readFailed, for an error other than net.ErrClosed. *)
Definition readFailed (s : Sh) (l : Local) (e : option Z) (d : Z) : list (Sh * Local) :=
  let x := st l in
  let errs := mkStats (recvPackets x) (recvBytes x) (truncated x) (Counter.Inc (recvErrors x)) in
  match classify e with
  | Truncated =>
      [(s, set_st l (mkStats (recvPackets x) (recvBytes x) (Counter.Inc (truncated x)) (recvErrors x))
             (RRead d))]
  | Transient => [(s, set_st l errs (RWait (Backoff.Next d)))]
  | Fatal => [(s, set_st l errs (RFatal e))]
  end.
Definition wait_step (s : Sh) (l : Local) (d : Z) : list (Sh * Local) :=
  (s, goto l (RRead d)) :: (if closing s then [(s, goto l RDone)] else []).
Definition fatal_step (s : Sh) (l : Local) (e : option Z) : list (Sh * Local) :=
  [(if bool_decide (fatal s = None) && negb (closed s) then set_fatal s (Some e) else s,
    goto l (COnce KReader))].

(** ** Serve, Close and Shutdown *)

Definition serve_spawn (s : Sh) (l : Local) (i : nat) : list (Sh * Local) :=
  if bool_decide (Z.of_nat i < readers cfg)
  then [(set_serve s (serving s) (done s) (wg s + 1) (spawned s ++ [i]), goto l (SSpawn (S i)))]
  else [(s, goto l SWait)].
Definition serve_done (s : Sh) (l : Local) (e : option (option Z)) : list (Sh * Local) :=
  [(if done s then crash s else set_serve s (serving s) true (wg s) (spawned s), return_ l (RetServe e))].
Definition reader_done (s : Sh) (l : Local) : list (Sh * Local) :=
  [(if wg s <=? 0 then crash s else set_serve s (serving s) (done s) (wg s - 1) (spawned s), goto l Ready)].

Definition close_once (s : Sh) (l : Local) (k : kont) : list (Sh * Local) :=
  match once s with
  | None => [(set_close s (closedUpto s) (closed s) (closing s) (Some false), goto l (CSet k))]
  | Some true => [(s, resume l k)]
  | Some false => []
  end.
Definition close_set (s : Sh) (l : Local) (k : kont) : list (Sh * Local) :=
  [(set_close s (closedUpto s) true (closing s) (once s), goto l (CChan k))].
Definition close_chan (s : Sh) (l : Local) (k : kont) : list (Sh * Local) :=
  [(if closing s then crash s else set_close s (closedUpto s) (closed s) true (once s), goto l (CSock k))].
(** closeSockets: one socket after the other, then Do returns. *)
Definition closeSockets (s : Sh) (l : Local) (k : kont) : list (Sh * Local) :=
  if bool_decide (closedUpto s < nsockn)%nat
  then [(set_close s (S (closedUpto s)) (closed s) (closing s) (once s), goto l (CSock k))]
  else [(set_close s (closedUpto s) (closed s) (closing s) (Some true), resume l k)].

Definition shutdown_serving (s : Sh) (l : Local) (e : bool) : list (Sh * Local) :=
  if serving s then [(s, goto l (HWait e))] else [(s, return_ l (RetShutdown false))].
Definition shutdown_wait (s : Sh) (l : Local) (e : bool) : list (Sh * Local) :=
  (if done s then [(s, return_ l (RetShutdown false))] else []) ++
  (if e then [(s, return_ l (RetShutdown true))] else []).

Definition start (s : Sh) (l : Local) (c : call) : list (Sh * Local) :=
  match c with
  | CServe =>
      if closed s then [(s, return_ l RetRefused)]
      else if serving s then [(s, return_ l RetRefused)]
      else [(set_serve s true (done s) (wg s) (spawned s), goto l (SSpawn 0))]
  | CShutdown e => [(s, goto l (COnce (KShutdown e)))]
  | CClose => [(s, goto l (COnce (KReturn RetClose)))]
  | CReader =>
      match spawned s with
      | [] => []
      | i :: rest =>
          [(set_serve s (serving s) (done s) (wg s) rest,
            mkLocal (RRead 0) (todo l) (rets l) i (replicate (Nat.max 1 batchn * maxn) 0) ∅
              (mkStats 0 0 0 0) [] [])]
      end
  end.

Definition pop (l : Local) (rest : list call) : Local :=
  mkLocal Ready rest (rets l) (rdr l) (mem l) (zones l) (st l) (calls l) (log l).

Definition next (s : Sh) (l : Local) : list (Sh * Local) :=
  match at_pc l with
  | Ready => match todo l with [] => [] | c :: rest => start s (pop l rest) c end
  | SSpawn i => serve_spawn s l i
  | SWait => if wg s =? 0 then [(s, goto l SFatal)] else []
  | SFatal => [(s, goto l (SDone (fatal s)))]
  | SDone e => serve_done s l e
  | RRead d => read_step s l d
  | RMsgs ms => msgs_step s l ms
  | RObs p m rest => obs_step s l p m rest
  | RCount m rest => count_step s l m rest
  | RBytes m rest => bytes_step s l m rest
  | RCall m rest => call_step s l m rest
  | RFailed e d => readFailed s l e d
  | RWait d => wait_step s l d
  | RFatal e => fatal_step s l e
  | RDone => reader_done s l
  | COnce k => close_once s l k
  | CSet k => close_set s l k
  | CChan k => close_chan s l k
  | CSock k => closeSockets s l k
  | HServing e => shutdown_serving s l e
  | HWait e => shutdown_wait s l e
  end.

(** A Conn over these sockets, the goroutines that use it, and one goroutine
    per reader. *)
Definition new_conn (qs : list (list rx)) : Sh :=
  mkSh qs 0 ((λ _, mkDrop 0 0) <$> qs) false false None false false None 0 [] false.
Definition fresh_local (cs : list call) : Local :=
  mkLocal Ready cs [] 0 [] ∅ (mkStats 0 0 0 0) [] [].
Definition init (qs : list (list rx)) (progs : list (list call)) : conf :=
  Conf (new_conn qs) (fresh_local <$> progs ++ replicate (Z.to_nat (readers cfg)) [CReader]).
End conn.

(** Opens a step of a Conn down to its effects. *)
Ltac open_udp H :=
  unfold Udp.next, start, serve_spawn, serve_done, reader_done, msgs_step, obs_step, count_step,
    bytes_step, call_step, readFailed, wait_step, fatal_step, close_once, close_set, close_chan,
    closeSockets, shutdown_serving, shutdown_wait in H.
