(* ===== verification/UdpSend.v ===== *)
(** What Listen grants and where writes go: the sizes in effect, the sockets
    bound, and the socket and counters of every write. *)
From S2P Require Import Prelude Internal Sys Udp.

Local Open Scope Z_scope.

Lemma Listen_loop_spec bound n i socks :
  (∃ k, (k < n)%nat ∧ bound (i + k)%nat = false ∧ (∀ j, (j < k)%nat → bound (i + j)%nat = true) ∧
        Listen_loop bound n i socks = Refused (socks ++ seq i k)) ∨
  ((∀ j, (j < n)%nat → bound (i + j)%nat = true) ∧ Listen_loop bound n i socks = Bound (socks ++ seq i n)).
Proof.
  revert i socks. induction n as [|n IH]; intros i socks; simpl.
  - right. split; [lia|]. by rewrite app_nil_r.
  - destruct (bound i) eqn:Eb.
    + destruct (IH (S i) (socks ++ [i])) as [(k & Hk & Hb & Ha & ->)|[Ha ->]].
      * left. exists (S k). rewrite <- app_assoc. split_and!; [lia| | |done].
        -- by rewrite Nat.add_succ_r.
        -- intros [|j] Hj; [by rewrite Nat.add_0_r|]. rewrite Nat.add_succ_r. apply Ha. lia.
      * right. rewrite <- app_assoc. split; [|done].
        intros [|j] Hj; [by rewrite Nat.add_0_r|]. rewrite Nat.add_succ_r. apply Ha. lia.
    + left. exists 0%nat. rewrite Nat.add_0_r, app_nil_r. split_and!; [lia|done|lia|done].
Qed.

Lemma sock_range c x : 1 <= nsock c → 0 <= x → 0 <= Z.rem x (nsock c) < nsock c.
Proof. intros. apply Z.rem_bound_pos; lia. Qed.

(** Options Listen accepts give a receive buffer of 1 to MaxDatagram
    bytes, a batch of 1 to 1024, at least one reader and one or as many sockets
    as readers; batching is off where it is unsupported and, by default, where
    readers share a socket. Listen binds all its sockets or, at the first
    failure, closes exactly those it had bound. Every write goes to an existing
    socket, and Reply to a reader's packet to the socket that reader reads. *)
Theorem Listen_grants (hasHandler supported : bool) (defBatch : Z) (o : Options) (c : Config)
    (bound : nat → bool) (reader to_port : Z) :
  Listen_config hasHandler supported defBatch o = Some c → 1 <= defBatch <= maxBatch → 0 <= to_port →
  hasHandler = true ∧ 1 <= max c <= MaxDatagram ∧ 1 <= batch c <= maxBatch ∧ 1 <= readers c ∧
  nsock c = (if ReusePort o then readers c else 1) ∧
  (supported = false ∨ (Batch o = 0 ∧ nsock c < readers c) → batch c = 1) ∧
  match Listen bound c with
  | Bound socks => socks = seq 0 (Z.to_nat (nsock c)) ∧ Forall (λ i, bound i = true) socks
  | Refused closed => ∃ i, (i < Z.to_nat (nsock c))%nat ∧ bound i = false ∧ closed = seq 0 i ∧
                           Forall (λ j, bound j = true) closed
  end ∧
  0 <= Reply_sock c reader to_port < nsock c ∧
  (0 <= reader < readers c → Reply_sock c reader to_port = reader mod nsock c).
Proof.
  intros Hc Hdef Hto. unfold Listen_config in Hc. destruct hasHandler; [|done]. simpl in Hc.
  destruct (Z.ltb_spec (Readers o) 0), (Z.ltb_spec (MaxPacket o) 0), (Z.ltb_spec (Batch o) 0); try done.
  simpl in Hc. destruct (Z.ltb_spec MaxDatagram (MaxPacket o)); [done|].
  destruct (Z.ltb_spec maxBatch (Batch o)); [done|].
  injection Hc as <-. cbn [max batch readers nsock].
  set (rs := if Readers o =? 0 then 1 else Readers o).
  assert (1 <= rs) as Hrs by (unfold rs; bool_cases; lia).
  set (ns := if ReusePort o then rs else 1). assert (1 <= ns) as Hns by (unfold ns; case_match; lia).
  set (b := if negb supported then 1 else _).
  assert (1 <= b <= maxBatch) as Hb
    by (unfold b, maxBatch in *; destruct supported; simpl; bool_cases; simpl; lia).
  split_and!; try done; try lia.
  - unfold MaxDatagram in *. bool_cases; lia.
  - unfold MaxDatagram in *. bool_cases; lia.
  - unfold b. intros [->|[-> Hlt]]; [done|]. destruct supported; [simpl|done].
    by rewrite (proj2 (Z.ltb_lt _ _) Hlt).
  - unfold Listen. simpl. destruct (Listen_loop_spec bound (Z.to_nat ns) 0 []) as [(k & Hk & Hf & Ha & ->)|[Ha ->]].
    + exists k. split_and!; try done. apply Forall_forall. intros j Hj%list_elem_of_In%in_seq. apply (Ha j). lia.
    + split; [done|]. apply Forall_forall. intros j Hj%list_elem_of_In%in_seq. apply (Ha j). lia.
  - unfold Reply_sock, WriteTo_sock. cbn [readers nsock].
    bool_cases; simpl; pose proof (sock_range (mkConfig 0 0 0 ns) to_port);
      pose proof (sock_range (mkConfig 0 0 0 ns) reader); simpl in *; lia.
  - unfold Reply_sock, WriteTo_sock. cbn [readers nsock].
    bool_cases; simpl; pose proof (sock_range (mkConfig 0 0 0 ns) to_port);
      pose proof (sock_range (mkConfig 0 0 0 ns) reader); simpl in *; lia.
  - intros Hr. unfold Reply_sock. cbn [readers nsock]. bool_cases; simpl; try lia.
    all: apply Z.rem_mod_nonneg; lia.
Qed.

Lemma Listen_grants_witness :
  Reply_sock (mkConfig 2048 8 4 4) 3 53 = 3 mod 4 ∧
  Listen (λ i, Nat.ltb i 2) (mkConfig 2048 8 4 4) = Refused [0; 1]%nat.
Proof.
  destruct (Listen_grants true true 8 (mkOptions 4 2048 0 true) (mkConfig 2048 8 4 4) (λ i, Nat.ltb i 2) 3 53)
    as (_ & _ & _ & _ & _ & _ & _ & _ & H); [reflexivity|unfold maxBatch; lia|lia|].
  split; [apply H; simpl; lia|reflexivity].
Defined.

(** The counters of a socket count what was sent on it: a write that is
    refused as too large neither sends nor counts. *)
Lemma write_counts st len r :
  match write st len r with
  | (st', used, err) =>
      (used = false ↔ MaxDatagram < len) ∧ (used = false → st' = st ∧ err = Some ErrTooLarge) ∧
      (used = true → u64 (packets st' + errors st') = u64 (packets st + errors st + 1)) ∧
      (err = None ↔ used = true ∧ ∃ n, r = Sent n) ∧ (used = true → r = SendClosed → err = Some ErrClosed)
  end.
Proof.
  unfold write. destruct (Z.ltb_spec MaxDatagram len).
  { split_and!; try done. split; [done|]. by intros [? _]. }
  destruct r as [n| |e]; simpl; split_and!; try done; try (split; [done|lia]); try (intros _);
    unfold Counter.Inc; rewrite ?u64_add_l, ?u64_add_r; try (f_equal; lia); try (split; [eauto|done]);
    try (split; [done|by intros [_ [? ?]]]).
Qed.
