(* ===== verification/UdpRead.v ===== *)
(** What the udp readers deliver: the handler gets every datagram that fits,
    whole, in order, with its sender, and the counters count them. *)
From S2P Require Import Prelude Interleave Internal Tcp TcpAcct Sys UdpDrops Udp.

Local Open Scope Z_scope.

Section read.
Context (cfg : Config) (InterfaceByIndex : Z → option string) (classify : option Z → ReadErr).
Local Abbreviation maxn := (maxn cfg).
Local Abbreviation stored := (stored cfg).
Local Abbreviation cut := (cut cfg).
Local Abbreviation slot_data := (slot_data cfg).
Local Abbreviation scatter := (scatter cfg).
Local Abbreviation next := (next cfg InterfaceByIndex classify).
Local Abbreviation sock := (sock cfg).

(** * Buffers *)

Lemma stored_length d : (length (stored d) <= maxn)%nat.
Proof. unfold Udp.stored. rewrite length_take. lia. Qed.

Lemma store_length mem i d :
  (S i * maxn <= length mem)%nat → length (store_at cfg mem i d) = length mem.
Proof.
  intros Hm. pose proof (stored_length d). unfold store_at.
  rewrite !length_app, length_take, length_drop. lia.
Qed.

Lemma store_same mem i d :
  (S i * maxn <= length mem)%nat → slot_data (store_at cfg mem i d) i (length (stored d)) = stored d.
Proof.
  intros Hm. unfold Udp.slot_data, store_at.
  rewrite drop_app_length' by (rewrite length_take; lia). by rewrite take_app_length.
Qed.

Lemma store_below mem i j d n :
  (S i * maxn <= length mem)%nat → (j < i)%nat → (n <= maxn)%nat →
  slot_data (store_at cfg mem i d) j n = slot_data mem j n.
Proof.
  intros Hm Hj Hn. unfold Udp.slot_data, store_at.
  assert (j * maxn + maxn <= i * maxn)%nat by nia.
  rewrite drop_app_le by (rewrite length_take; lia). rewrite take_app_le by (rewrite length_drop, length_take; lia).
  rewrite <- (take_drop (i * maxn) mem) at 2. rewrite drop_app_le by (rewrite length_take; lia).
  rewrite take_app_le by (rewrite length_drop, length_take; lia). done.
Qed.

Lemma scatter_spec ds mem i :
  ((i + length ds) * maxn <= length mem)%nat →
  length (scatter mem i ds) = length mem ∧
  (∀ j n, (j < i)%nat → (n <= maxn)%nat → slot_data (scatter mem i ds) j n = slot_data mem j n) ∧
  (∀ j d, ds !! j = Some d → slot_data (scatter mem i ds) (i + j) (length (stored d)) = stored d).
Proof.
  revert mem i. induction ds as [|d ds IH]; intros mem i Hm; simpl in *; [by split_and!|].
  assert (S i * maxn <= length mem)%nat as Hi by nia.
  destruct (IH (store_at cfg mem i d) (S i)) as (H1 & H2 & H3); [rewrite store_length by done; lia|].
  split_and!.
  - by rewrite H1, store_length.
  - intros j n Hj Hn. rewrite H2, store_below by lia. done.
  - intros [|j] d' Hj; simplify_eq/=.
    + rewrite Nat.add_0_r, H2 by (lia || apply stored_length). by apply store_same.
    + replace (i + S j)%nat with (S i + j)%nat by lia. by apply H3.
Qed.

(** * What a reader owes its handler *)

Definition dgram_of (x : rx) : option dgram := match x with Dgram d => Some d | RxErr _ => None end.
Definition err_of (x : rx) : option (option Z) := match x with Dgram _ => None | RxErr e => Some e end.
(** The datagrams and the errors its reads returned. *)
Definition got (l : Local) : list dgram := omap dgram_of (log l).
Definition failed (l : Local) : list (option Z) := omap err_of (log l).

(** The packet a datagram becomes: its payload, whole, and its sender with
    IPv4-mapped addresses unmapped; none when it is longer than MaxPacket. *)
Definition packet_of (r : nat) (d : dgram) : option Packet :=
  if cut d then None
  else Some (mkPacket (payload d) (Unmap_port <$> net_addr InterfaceByIndex (sa d)) r).
Definition packets_of (r : nat) (ds : list dgram) : list Packet := omap (packet_of r) ds.
Definition data_bytes (ps : list Packet) : Z := zsum (λ p, Z.of_nat (length (Data p))) ps.
Definition count_cut (ds : list dgram) : Z := zsum (λ d, if cut d then 1 else 0) ds.
Definition count_class (k : ReadErr → bool) (es : list (option Z)) : Z :=
  zsum (λ e, if k (classify e) then 1 else 0) es.
Definition is_trunc (k : ReadErr) : bool := match k with Truncated => true | _ => false end.

(** The counters after these datagrams and errors. *)
Definition stats_after (r : nat) (ds : list dgram) (es : list (option Z)) (c1 c2 : Z) : readerStats :=
  mkStats (u64 (Z.of_nat (length (packets_of r ds)) + c1)) (u64 (data_bytes (packets_of r ds) + c2))
    (u64 (count_cut ds + count_class is_trunc es)) (u64 (count_class (λ k, negb (is_trunc k)) es)).

Definition inflight (p : pc) : list (nat * dgram) :=
  match p with
  | RMsgs ms => ms
  | RObs _ m rest | RCount m rest | RBytes m rest | RCall m rest => m :: rest
  | _ => []
  end.
Definition reading (p : pc) : bool :=
  match p with
  | RRead _ | RMsgs _ | RObs _ _ _ | RCount _ _ | RBytes _ _ | RCall _ _ | RFailed _ _ | RWait _ => true
  | _ => false
  end.
Definition uncounted (p : pc) : list (option Z) := match p with RFailed e _ => [e] | _ => [] end.
Definition counting (p : pc) : Z * Z :=
  match p with
  | RBytes _ _ => (1, 0)
  | RCall m _ => (1, Z.of_nat (length (stored m.2)))
  | _ => (0, 0)
  end.

Record deliv (l : Local) : Prop := {
  v_mem : reading (at_pc l) = true → length (mem l) = (Nat.max 1 (batchn cfg) * maxn)%nat;
  v_slots m : m ∈ inflight (at_pc l) → slot_data (mem l) m.1 (length (stored m.2)) = stored m.2;
  v_zones : zones_ok InterfaceByIndex (zones l);
  v_fit : match at_pc l with RBytes m _ | RCall m _ => cut m.2 = false | _ => True end;
  v_log : ∃ dn es, got l = dn ++ (inflight (at_pc l)).*2 ∧ failed l = es ++ uncounted (at_pc l) ∧
    calls l = packets_of (rdr l) dn ∧
    st l = stats_after (rdr l) dn es (counting (at_pc l)).1 (counting (at_pc l)).2 }.

Lemma fit_stored d : cut d = false → stored d = payload d.
Proof.
  unfold Udp.cut, Udp.stored. intros H%bool_decide_eq_false. apply take_ge. lia.
Qed.

(** Moves that leave the reader's frame alone. *)
Lemma deliv_goto l p :
  deliv l → inflight p = inflight (at_pc l) → (reading p = true → reading (at_pc l) = true) →
  uncounted p = uncounted (at_pc l) → counting p = counting (at_pc l) →
  match p with RBytes m _ | RCall m _ => cut m.2 = false | _ => True end → deliv (goto l p).
Proof.
  intros [H1 H2 H3 H4 H5] Hi Hr Hu Hc Hf. split; simpl; [by auto|by rewrite Hi|done|done|].
  by rewrite Hi, Hu, Hc.
Qed.

Lemma deliv_fresh p todo rets i m :
  inflight p = [] → uncounted p = [] → counting p = (0, 0) →
  (reading p = true → length m = (Nat.max 1 (batchn cfg) * maxn)%nat) →
  match p with RBytes m _ | RCall m _ => cut m.2 = false | _ => True end →
  deliv (mkLocal p todo rets i m ∅ (mkStats 0 0 0 0) [] []).
Proof.
  intros Hi Hu Hc Hm Hf. split; simpl; [done|rewrite Hi; set_solver|done|done|].
  exists [], []. by rewrite Hi, Hu, Hc.
Qed.

Lemma deliv_return l r : deliv l → reading (at_pc l) = false → deliv (return_ l r).
Proof.
  intros [H1 H2 H3 H4 H5] Hr. destruct H5 as (dn & es & E1 & E2 & E3 & E4).
  split; simpl; [done|set_solver|done|done|]. exists dn, es.
  destruct (at_pc l); try done; by rewrite ?app_nil_r in *.
Qed.

(** ** The steps of a reader *)

Lemma got_dgrams (ds : list dgram) : omap dgram_of (Dgram <$> ds) = ds.
Proof. induction ds as [|d ds IH]; [done|]. csimpl. by rewrite IH. Qed.
Lemma failed_dgrams (ds : list dgram) : omap err_of (Dgram <$> ds) = [].
Proof. by induction ds. Qed.
Lemma imap_pair_snd {A} (xs : list A) : (imap pair xs).*2 = xs.
Proof.
  apply list_eq. intros j. rewrite list_lookup_fmap, list_lookup_imap. by destruct (xs !! j).
Qed.

Lemma deliv_read s l d s' l' :
  deliv l → at_pc l = RRead d → (s', l') ∈ read_step cfg s l d → crashed s' = false → deliv l'.
Proof.
  intros Hl Hpc Hn Hc. unfold read_step in Hn. pose proof Hl as [H1 H2 H3 H4 (dn & es & E1 & E2 & E3 & E4)].
  rewrite Hpc in *. simpl in *. specialize (H1 eq_refl). rewrite app_nil_r in E1, E2.
  case_bool_decide.
  { apply list_elem_of_singleton in Hn. injection Hn as -> ->. apply deliv_goto; rewrite ?Hpc; done. }
  destruct (queues s !! sock l) as [[|[d0|e] rest]|]; [by apply not_elem_of_nil in Hn| | |].
  - apply list_elem_of_fmap in Hn as (k & E & Hk). apply list_elem_of_In, in_seq in Hk. injection E as -> ->.
    set (ds := take k (d0 :: leading rest)) in *.
    assert (length ds <= Nat.max 1 (batchn cfg))%nat as Hds
      by (unfold ds; rewrite length_take; simpl in *; lia).
    destruct (scatter_spec ds (mem l) 0) as (S1 & _ & S3); [nia|].
    split; simpl.
    + by rewrite S1.
    + intros m Hm. apply list_elem_of_lookup in Hm as [j Hj]. rewrite list_lookup_imap in Hj.
      destruct (ds !! j) as [d'|] eqn:Ed; [|done]. simplify_eq/=. by apply (S3 j).
    + done.
    + done.
    + exists dn, es. unfold got, failed in *. simpl. rewrite !omap_app, got_dgrams, failed_dgrams, !app_nil_r.
      rewrite imap_pair_snd, E1. done.
  - apply list_elem_of_singleton in Hn. injection Hn as -> ->.
    split; simpl; [done|set_solver|done|done|]. exists dn, es. unfold got, failed in *. simpl.
    rewrite !omap_app, E1, E2. simpl. by rewrite !app_nil_r.
  - apply list_elem_of_singleton in Hn. injection Hn as -> ->. done.
Qed.

Lemma deliv_count s l m rest s' l' :
  deliv l → at_pc l = RCount m rest → (s', l') ∈ count_step cfg s l m rest → deliv l'.
Proof.
  intros [H1 H2 H3 H4 (dn & es & E1 & E2 & E3 & E4)] Hpc Hn. unfold count_step in Hn.
  rewrite Hpc in *. simpl in *. specialize (H1 eq_refl).
  destruct (cut m.2) eqn:Hcut; apply list_elem_of_singleton in Hn; injection Hn as -> ->; rewrite E4.
  - split; simpl; [done|by intros; apply H2; right|done|done|].
    assert (packet_of (rdr l) m.2 = None) as Hp by (unfold packet_of; by rewrite Hcut).
    assert (packets_of (rdr l) (dn ++ [m.2]) = packets_of (rdr l) dn) as Hps.
    { unfold packets_of. rewrite omap_app. simpl. by rewrite Hp, app_nil_r. }
    exists (dn ++ [m.2]), es. unfold got in *. simpl. rewrite E1, <- app_assoc, Hps, E3. split_and!; try done.
    unfold stats_after, Counter.Inc. simpl. rewrite Hps. unfold count_cut. rewrite zsum_app. simpl.
    rewrite Hcut, u64_add_l. do 2 f_equal. lia.
  - split; simpl; [done|done|done|done|]. exists dn, es. split_and!; try done.
    unfold stats_after, Counter.Inc. simpl. rewrite u64_add_l. do 2 f_equal. lia.
Qed.

Lemma deliv_bytes s l m rest s' l' :
  deliv l → at_pc l = RBytes m rest → (s', l') ∈ bytes_step cfg s l m rest → deliv l'.
Proof.
  intros [H1 H2 H3 H4 (dn & es & E1 & E2 & E3 & E4)] Hpc Hn. unfold bytes_step in Hn.
  rewrite Hpc in *. simpl in *. apply list_elem_of_singleton in Hn. injection Hn as -> ->.
  rewrite E4. split; simpl; [done|done|done|done|].
  exists dn, es. split_and!; try done. unfold stats_after, Counter.Add. simpl.
  rewrite u64_add_r, u64_add_l, Z.add_0_r. done.
Qed.

Lemma deliv_call s l m rest s' l' :
  deliv l → at_pc l = RCall m rest → (s', l') ∈ call_step cfg InterfaceByIndex s l m rest → deliv l'.
Proof.
  intros [H1 H2 H3 H4 (dn & es & E1 & E2 & E3 & E4)] Hpc Hn. unfold call_step in Hn.
  rewrite Hpc in *. simpl in *. specialize (H1 eq_refl).
  destruct (addr_as_single InterfaceByIndex (zones l) (sa m.2) H3) as [Z1 Z2].
  assert (∃ zs, zones_ok InterfaceByIndex zs ∧ (if 1 <? batch cfg then addr InterfaceByIndex (zones l) (sa m.2)
    else (zones l, Unmap_port <$> net_addr InterfaceByIndex (sa m.2))) =
    (zs, Unmap_port <$> net_addr InterfaceByIndex (sa m.2))) as (zs & Hzs & Ez).
  { destruct (1 <? batch cfg); [|by exists (zones l)]. destruct (addr _ _ _) as [zs a]. simpl in *.
    exists zs. by rewrite Z2. }
  rewrite Ez in Hn. apply list_elem_of_singleton in Hn. injection Hn as -> ->.
  rewrite (H2 m) by (by left). rewrite (fit_stored m.2 H4).
  split; simpl; [done|by intros; apply H2; right|done|done|].
  assert (packets_of (rdr l) (dn ++ [m.2]) = packets_of (rdr l) dn ++
    [mkPacket (payload m.2) (Unmap_port <$> net_addr InterfaceByIndex (sa m.2)) (rdr l)]) as Hps.
  { unfold packets_of. rewrite omap_app. simpl. unfold packet_of. by rewrite H4. }
  exists (dn ++ [m.2]), es. unfold got in *. simpl. rewrite E1, <- app_assoc, Hps, E3, E4. split_and!; try done.
  unfold stats_after. simpl. rewrite Hps, length_app. unfold data_bytes, count_cut. rewrite !zsum_app. simpl.
  rewrite H4, (fit_stored m.2 H4). f_equal; f_equal; lia.
Qed.

Lemma deliv_failed s l e d s' l' :
  deliv l → at_pc l = RFailed e d → (s', l') ∈ readFailed classify s l e d → deliv l'.
Proof.
  intros [H1 H2 H3 H4 (dn & es & E1 & E2 & E3 & E4)] Hpc Hn. unfold readFailed in Hn.
  rewrite Hpc in *. simpl in *. specialize (H1 eq_refl).
  assert (∀ p x, inflight p = [] → uncounted p = [] → counting p = (0, 0) →
    match p with RBytes m _ | RCall m _ => cut m.2 = false | _ => True end →
    x = stats_after (rdr l) dn (es ++ [e]) 0 0 → deliv (set_st l x p)) as Hgo.
  { intros p x Hi Hu Hc Hf ->. split; simpl; [done|rewrite Hi; set_solver|done|done|].
    exists dn, (es ++ [e]). unfold got, failed in *. simpl. rewrite Hi, Hu, Hc, !app_nil_r in *. by split_and!. }
  destruct (classify e) eqn:Hcl; apply list_elem_of_singleton in Hn; injection Hn as -> ->; apply Hgo; try done;
    rewrite E4; unfold stats_after, count_class, Counter.Inc; rewrite !zsum_app; simpl; rewrite Hcl; simpl;
    rewrite ?u64_add_l; f_equal; f_equal; lia.
Qed.

Lemma deliv_resume l k : deliv l → reading (at_pc l) = false → deliv (resume l k).
Proof.
  intros Hl Hr. assert (∀ p, reading p = false → deliv (goto l p)) as Hgo.
  { intros p Hp. apply deliv_goto; [done|..]; destruct p, (at_pc l); try done; simpl in *; congruence. }
  destruct k; [by apply Hgo|by apply deliv_return|by apply Hgo].
Qed.

Lemma deliv_start s l c rest s' l' :
  deliv l → at_pc l = Ready → (s', l') ∈ start cfg s (pop l rest) c → deliv l'.
Proof.
  intros Hl Hpc Hn. assert (deliv (pop l rest)) as Hp.
  { destruct Hl as [H1 H2 H3 H4 H5]. rewrite Hpc in *. by split. }
  destruct c; simpl in Hn; repeat case_match; inv_elem;
    try (by apply deliv_return); try (by apply deliv_goto).
  apply deliv_fresh; try done. intros _. by rewrite length_replicate.
Qed.

Lemma deliv_step s l s' l' : (s', l') ∈ next s l → crashed s' = false → deliv l → deliv l'.
Proof.
  intros Hn Hc Hl. unfold Udp.next in Hn. destruct (at_pc l) eqn:Hpc.
  - destruct (todo l); [by inv_elem|]. by eapply deliv_start.
  - unfold serve_spawn in Hn. case_match; inv_elem; (apply deliv_goto; rewrite ?Hpc; done).
  - case_match; inv_elem. apply deliv_goto; rewrite ?Hpc; done.
  - inv_elem. apply deliv_goto; rewrite ?Hpc; done.
  - unfold serve_done in Hn. inv_elem. apply deliv_return; [done|by rewrite Hpc].
  - by eapply deliv_read.
  - unfold msgs_step in Hn. repeat case_match; inv_elem; try done; (apply deliv_goto; rewrite ?Hpc; done).
  - unfold obs_step in Hn. repeat case_match; inv_elem; try done; (apply deliv_goto; rewrite ?Hpc; done).
  - by eapply deliv_count.
  - by eapply deliv_bytes.
  - by eapply deliv_call.
  - by eapply deliv_failed.
  - unfold wait_step in Hn. repeat case_match; inv_elem; (apply deliv_goto; rewrite ?Hpc; done).
  - unfold fatal_step in Hn. inv_elem. apply deliv_goto; rewrite ?Hpc; done.
  - unfold reader_done in Hn. inv_elem. apply deliv_goto; rewrite ?Hpc; done.
  - unfold close_once in Hn. repeat case_match; inv_elem;
      first [apply deliv_resume; [done|by rewrite Hpc]|apply deliv_goto; rewrite ?Hpc; done].
  - unfold close_set in Hn. inv_elem. apply deliv_goto; rewrite ?Hpc; done.
  - unfold close_chan in Hn. inv_elem. apply deliv_goto; rewrite ?Hpc; done.
  - unfold closeSockets in Hn. case_match; inv_elem;
      first [apply deliv_resume; [done|by rewrite Hpc]|apply deliv_goto; rewrite ?Hpc; done].
  - unfold shutdown_serving in Hn. case_match; inv_elem;
      first [apply deliv_goto; rewrite ?Hpc; done|apply deliv_return; [done|by rewrite Hpc]].
  - unfold shutdown_wait in Hn. repeat case_match; inv_elem; apply deliv_return; try done; by rewrite Hpc.
Qed.

(** * Where datagrams come from *)

(** What has been read of each socket, and how it relates to the readers'
    logs. *)
Definition logs_ok (qs : list (list rx)) (c : conf) : Prop :=
  length (queues (shared c)) = length qs ∧
  ∀ i q, qs !! i = Some q → ∃ pre rest, q = pre ++ rest ∧ queues (shared c) !! i = Some rest ∧
    Forall (λ l, sock l = i → log l `sublist_of` pre) (procs c).

Lemma resume_frame l k : log (resume l k) = log l ∧ rdr (resume l k) = rdr l.
Proof. by destruct k. Qed.

Lemma leading_take q k : (k <= length (leading q))%nat → q = (Dgram <$> take k (leading q)) ++ drop k q.
Proof.
  revert k. induction q as [|[d|e] q IH]; intros [|k] Hk; simpl in *; try lia; try done.
  f_equal. apply IH. lia.
Qed.

(** A step takes a prefix off one socket's queue and logs it, or touches no
    queue. *)
Lemma read_from s l s' l' :
  (s', l') ∈ next s l →
  (queues s' = queues s ∧ (log l' = [] ∨ log l' = log l ∧ rdr l' = rdr l)) ∨
  (∃ xs rest, queues s !! sock l = Some (xs ++ rest) ∧ queues s' = <[sock l := rest]> (queues s) ∧
     log l' = log l ++ xs ∧ rdr l' = rdr l).
Proof.
  intros Hn. destruct (at_pc l) eqn:Hpc; unfold Udp.next in Hn; rewrite Hpc in Hn.
  6:{ unfold read_step in Hn. case_bool_decide; [left; inv_elem; by auto|].
      destruct (queues s !! sock l) as [[|[d0|e] rest]|] eqn:Eq; [by inv_elem| |right; inv_elem|left; inv_elem; by auto].
      - apply list_elem_of_fmap in Hn as (k & E & Hk). apply list_elem_of_In, in_seq in Hk. injection E as -> ->.
        right. eexists _, _. split; [|by split_and!]. f_equal. apply leading_take. lia.
      - by exists [RxErr e], rest. }
  1: destruct (todo l) as [|[] ?]; simpl in Hn.
  all: left; unfold serve_spawn, serve_done, reader_done, msgs_step, obs_step, count_step, bytes_step,
    call_step, readFailed, wait_step, fatal_step, close_once, close_set, close_chan, closeSockets,
    shutdown_serving, shutdown_wait in Hn;
    repeat case_match; inv_elem; destruct_and?; try (split; [done|]; right; apply resume_frame); by auto.
Qed.
End read.
