(* ===== verification/UdpInv.v ===== *)
(** The udp Conn's invariant: one Serve, one closer, a WaitGroup that counts
    the readers, and flags that only rise. *)
From S2P Require Import Prelude Interleave Internal Tcp TcpInv TcpThms Sys UdpDrops Udp UdpRead.

Local Open Scope Z_scope.

Section inv.
Context (cfg : Config) (InterfaceByIndex : Z → option string) (classify : option Z → ReadErr).
Local Abbreviation next := (next cfg InterfaceByIndex classify).
Local Abbreviation sock := (sock cfg).
Local Abbreviation nsockn := (nsockn cfg).
Implicit Types (s : Sh) (l : Local).

(** * Counted places *)

Definition in_close (k : kont → bool) (p : pc) : bool :=
  match p with COnce k' | CSet k' | CChan k' | CSock k' => k k' | _ => false end.
Definition is_reader (k : kont) : bool := match k with KReader => true | _ => false end.

(** A reader that has not called wg.Done. *)
Definition active l : Z :=
  if reading (at_pc l) || in_close is_reader (at_pc l) ||
     match at_pc l with RFatal _ | RDone => true | _ => false end then 1 else 0.
(** The goroutine is inside Serve. *)
Definition in_serve l : Z := match at_pc l with SSpawn _ | SWait | SFatal | SDone _ => 1 | _ => 0 end.
(** The goroutine runs closeOnce's function; and has not closed the channel. *)
Definition closer l : Z := match at_pc l with CSet _ | CChan _ | CSock _ => 1 | _ => 0 end.
Definition before_chan l : Z := match at_pc l with CSet _ | CChan _ => 1 | _ => 0 end.
(** A goroutine that waits for a reader to run; readers yet to be started. *)
Definition idle l : Z := match at_pc l, todo l with Ready, [CReader] => 1 | _, _ => 0 end.
Definition room l : Z :=
  match at_pc l with SSpawn i => Z.max 0 (readers cfg - Z.of_nat i) | _ => 0 end.

Definition serving_now s : Z := if serving s && negb (done s) then 1 else 0.
Definition closing_now s : Z := if decide (once s = Some false) then 1 else 0.
Definition chan_now s : Z := if decide (once s = Some false) then (if closing s then 0 else 1) else 0.
Definition waiting s : Z := Z.of_nat (length (spawned s)) + if serving s then 0 else Z.max 0 (readers cfg).

Ltac nonneg := intros; unfold active, in_serve, closer, before_chan, idle, room; repeat case_match; lia.
Lemma active_nonneg l : 0 <= active l. Proof. nonneg. Qed.
Lemma in_serve_nonneg l : 0 <= in_serve l. Proof. nonneg. Qed.
Lemma closer_nonneg l : 0 <= closer l. Proof. nonneg. Qed.
Lemma before_chan_nonneg l : 0 <= before_chan l. Proof. nonneg. Qed.
Lemma udp_idle_nonneg l : 0 <= idle l. Proof. nonneg. Qed.
Lemma room_nonneg l : 0 <= room l. Proof. nonneg. Qed.

(** * What one action does to them *)

(** The state the moving goroutine relies on. *)
Record ready s l : Prop := {
  g_crash : crashed s = false;
  g_wg : active l <= wg s;
  g_serve : in_serve l <= serving_now s;
  g_done : done s = true → serving s = true;
  g_closer : closer l <= closing_now s;
  g_chan : before_chan l <= chan_now s;
  g_none : once s = None → closing s = false ∧ closedUpto s = 0%nat;
  g_true : once s = Some true → closing s = true ∧ closed s = true ∧ closedUpto s = nsockn;
  g_qs : length (queues s) = nsockn ∧ length (drops s) = nsockn ∧ (0 < nsockn)%nat;
  g_upto : (closedUpto s <= nsockn)%nat;
  g_sock k : at_pc l = CSock k → closed s = true ∧ closing s = true;
  g_oob m : m ∈ inflight (at_pc l) → (length (oob m.2) <= 64)%nat }.

Record counts s l s' l' : Prop := {
  c_crash : crashed s' = false;
  c_wg : wg s' - wg s = active l' - active l + (Z.of_nat (length (spawned s')) - Z.of_nat (length (spawned s)));
  c_serve : in_serve l' - in_serve l = serving_now s' - serving_now s;
  c_done : done s' = true → serving s' = true;
  c_closer : closer l' - closer l = closing_now s' - closing_now s;
  c_chan : before_chan l' - before_chan l = chan_now s' - chan_now s;
  c_none : once s' = None → closing s' = false ∧ closedUpto s' = 0%nat;
  c_true : once s' = Some true → closing s' = true ∧ closed s' = true ∧ closedUpto s' = nsockn;
  c_qs : length (queues s') = nsockn ∧ length (drops s') = nsockn ∧ (0 < nsockn)%nat;
  c_upto : (closedUpto s' <= nsockn)%nat;
  c_idle : waiting s' + room l' + idle l <= waiting s + room l + idle l' }.

(** The shared state but for the queues and the drop counters. *)
Definition core s := (closedUpto s, serving s, closed s, done s, closing s, once s, wg s, spawned s, crashed s).

Lemma udp_core_inj s s' : core s' = core s →
  closedUpto s' = closedUpto s ∧ serving s' = serving s ∧ closed s' = closed s ∧ done s' = done s ∧
  closing s' = closing s ∧ once s' = once s ∧ wg s' = wg s ∧ spawned s' = spawned s ∧ crashed s' = crashed s.
Proof. unfold core. intros. by simplify_eq. Qed.

Lemma counts_same s l s' l' :
  ready s l → core s' = core s →
  length (queues s') = length (queues s) → length (drops s') = length (drops s) →
  active l' = active l → in_serve l' = in_serve l → closer l' = closer l → before_chan l' = before_chan l →
  room l' <= room l → idle l <= idle l' → counts s l s' l'.
Proof.
  intros [] (E1 & E2 & E3 & E4 & E5 & E6 & E7 & E8 & E9)%udp_core_inj Eq Ed Ea Es Ec Eb Er Ei.
  split; unfold serving_now, closing_now, chan_now, waiting; rewrite ?E1, ?E2, ?E3, ?E4, ?E5, ?E6, ?E7, ?E8, ?E9, ?Eq, ?Ed, ?Ea, ?Es, ?Ec, ?Eb;
    try done; lia.
Qed.

Ltac udp_places Hpc :=
  try lia; unfold active, in_serve, closer, before_chan, idle, room; rewrite ?Hpc; simpl; rewrite ?orb_false_r; try done; try lia; try (repeat case_match; lia).

Lemma resume_places l k :
  active (resume l k) = (if is_reader k then 1 else 0) ∧ in_serve (resume l k) = 0 ∧
  closer (resume l k) = 0 ∧ before_chan (resume l k) = 0 ∧ room (resume l k) = 0.
Proof. by destruct k. Qed.

Lemma sock_lt l : (0 < nsockn)%nat → (sock l < nsockn)%nat.
Proof. intros. apply Nat.mod_upper_bound. lia. Qed.

Lemma no_parse_panic (bs : list Z) :
  (length bs <= 64)%nat → DropCount bs ≠ SlicePanic ∧ DropCount bs ≠ OutOfFuel.
Proof.
  intros Hb. pose proof (DropCount_loop_any (S (length bs)) bs ltac:(lia)) as H. unfold zlen in H.
  specialize (H ltac:(lia)). unfold DropCount. by destruct (DropCount_loop _ _).
Qed.

(** Actions inside the readers' loop. *)
Lemma reader_counts s l s' l' :
  (s', l') ∈ next s l → ready s l → reading (at_pc l) = true → counts s l s' l'.
Proof.
  intros Hn Hr Hp. pose proof Hr as [? ? ? ? ? ? ? ? [Hq [Hd Hpos]] ? ? Hoob].
  pose proof (sock_lt l Hpos) as Hs. destruct (at_pc l) eqn:Hpc; try done;
    unfold Udp.next in Hn; rewrite Hpc in Hn.
  - unfold read_step in Hn. case_bool_decide; [inv_elem; apply counts_same; try done; udp_places Hpc|].
    destruct (lookup_lt_is_Some_2 (queues s) (sock l)) as [q Eq]; [lia|]. rewrite Eq in Hn.
    destruct q as [|[d0|e] rest]; [by inv_elem| |].
    + apply list_elem_of_fmap in Hn as (k & E & _). injection E as -> ->.
      apply counts_same; try done; try (simpl; by rewrite length_insert); udp_places Hpc.
    + inv_elem. apply counts_same; try done; try (simpl; by rewrite length_insert); udp_places Hpc.
  - unfold msgs_step in Hn. destruct ms as [|m rest]; [inv_elem; apply counts_same; try done; udp_places Hpc|].
    destruct (oob m.2) as [|b bs] eqn:Eo; [inv_elem; apply counts_same; try done; udp_places Hpc|].
    assert (length (b :: bs) <= 64)%nat as H64 by (rewrite <- Eo; apply Hoob; by left).
    destruct (no_parse_panic (b :: bs) H64). destruct (DropCount (b :: bs)); try done; inv_elem;
      (apply counts_same; try done; udp_places Hpc).
  - unfold obs_step in Hn. destruct (lookup_lt_is_Some_2 (drops s) (sock l)) as [d Ed]; [lia|].
    rewrite Ed in Hn. destruct (observe d p) as [[d' p']|]; inv_elem;
      (apply counts_same; try done; try (simpl; by rewrite length_insert); udp_places Hpc).
  - unfold count_step in Hn. case_match; inv_elem; (apply counts_same; try done; udp_places Hpc).
  - unfold bytes_step in Hn. inv_elem. apply counts_same; try done; udp_places Hpc.
  - unfold call_step in Hn. destruct (if 1 <? batch cfg then _ else _). inv_elem.
    apply counts_same; try done; udp_places Hpc.
  - unfold readFailed in Hn. case_match; inv_elem; (apply counts_same; try done; udp_places Hpc).
  - unfold wait_step in Hn. case_match; inv_elem; (apply counts_same; try done; udp_places Hpc).
Qed.

(** The other actions. *)
Lemma start_counts s l c rest s' l' :
  (s', l') ∈ start cfg s (pop l rest) c → at_pc l = Ready → todo l = c :: rest →
  ready s l → counts s l s' l'.
Proof.
  intros Hn Hpc Htd Hr. pose proof Hr as [? ? ? Hdn ? ? ? ? [Hq [Hd Hpos]] ? ? ?].
  assert (c ≠ CReader → idle l = 0) as Hidle by (unfold idle; rewrite Hpc, Htd; by destruct c).
  assert (idle l <= 1) as Hidle1 by (unfold idle; repeat case_match; lia).
  pose proof (udp_idle_nonneg l') as Hi.
  destruct c; simpl in Hn.
  - specialize (Hidle ltac:(done)).
    destruct (closed s) eqn:Hcd; [inv_elem; apply counts_same; try done; udp_places Hpc|].
    destruct (serving s) eqn:Hsv; [inv_elem; apply counts_same; try done; udp_places Hpc|].
    assert (done s = false) as Hdone by (destruct (done s); [by discriminate Hdn|done]).
    inv_elem. split; simpl; try done; unfold serving_now, waiting, closing_now, chan_now; simpl;
      rewrite ?Hsv, ?Hdone, ?Hidle, ?Hcd; udp_places Hpc.
  - specialize (Hidle ltac:(done)).
    inv_elem. apply counts_same; try done; try (rewrite Hidle; apply udp_idle_nonneg); udp_places Hpc.
  - specialize (Hidle ltac:(done)).
    inv_elem. apply counts_same; try done; try (rewrite Hidle; apply udp_idle_nonneg); udp_places Hpc.
  - destruct (spawned s) as [|i sp] eqn:Hsp; inv_elem. split; simpl; try done;
      unfold serving_now, closing_now, chan_now, waiting; simpl; rewrite ?Hsp; simpl; try (udp_places Hpc).
Qed.

Lemma close_counts s l s' l' :
  (s', l') ∈ next s l → ready s l → in_close (λ _, true) (at_pc l) = true → counts s l s' l'.
Proof.
  intros Hn Hr Hp. pose proof Hr as [? ? ? ? Hcl Hch Hno Htr [Hq [Hd Hpos]] Hup Hsk ?].
  destruct (at_pc l) eqn:Hpc; try done; unfold Udp.next in Hn; rewrite Hpc in Hn;
    destruct (resume_places l k) as (R1 & R2 & R3 & R4 & R5); pose proof (udp_idle_nonneg l') as Hi;
    unfold closer, before_chan in Hcl, Hch; rewrite Hpc in Hcl, Hch;
    unfold closing_now, chan_now in Hcl, Hch; try (case_decide as Ho; [|lia]).
  - unfold close_once in Hn. destruct (once s) as [[|]|] eqn:Ho; inv_elem.
    + apply counts_same; rewrite ?R1, ?R2, ?R3, ?R4, ?R5; try done; udp_places Hpc.
    + destruct (Hno eq_refl) as [Hc0 Hu0]. split; simpl; try done;
        unfold serving_now, closing_now, chan_now, waiting; simpl; rewrite ?Ho, ?Hc0; udp_places Hpc.
  - unfold close_set in Hn. inv_elem. split; simpl; try done; try congruence;
      unfold serving_now, closing_now, chan_now, waiting; simpl; udp_places Hpc.
  - unfold close_chan in Hn. destruct (closing s) eqn:Hc; [lia|]. inv_elem.
    split; simpl; try done; try congruence;
      unfold serving_now, closing_now, chan_now, waiting; simpl; rewrite ?Hc; udp_places Hpc.
    rewrite !(decide_True _ _ Ho). done.
  - destruct (Hsk k eq_refl) as [Hc1 Hc2]. unfold closeSockets in Hn. case_bool_decide; inv_elem.
    + split; simpl; try done; try congruence; try lia;
        unfold serving_now, closing_now, chan_now, waiting; simpl; udp_places Hpc.
    + split; simpl; rewrite ?R1, ?R2, ?R3, ?R4, ?R5; try done; try congruence;
        unfold serving_now, closing_now, chan_now, waiting; simpl; rewrite ?Hc2, ?(decide_True _ _ Ho);
        udp_places Hpc.
      intros _. split_and!; try done. lia.

Qed.

Lemma udp_counts s l s' l' : (s', l') ∈ next s l → ready s l → counts s l s' l'.
Proof.
  intros Hn Hr. destruct (reading (at_pc l)) eqn:Hrd; [by apply reader_counts|].
  destruct (in_close (λ _, true) (at_pc l)) eqn:Hcl; [by apply close_counts|].
  pose proof Hr as [? Hwg Hsv Hdn ? ? ? ? [Hq [Hd Hpos]] ? ? ?]. unfold Udp.next in Hn.
  destruct (at_pc l) eqn:Hpc; try done.
  - destruct (todo l) as [|c rest] eqn:Htd; [by inv_elem|]. by eapply start_counts.
  - unfold serve_spawn in Hn. case_bool_decide; inv_elem.
    + split; simpl; try done; unfold serving_now, closing_now, chan_now, waiting; simpl;
        rewrite ?length_app; simpl; udp_places Hpc.
    + apply counts_same; try done; udp_places Hpc.
  - case_match; inv_elem. apply counts_same; try done; udp_places Hpc.
  - inv_elem. apply counts_same; try done; udp_places Hpc.
  - unfold serve_done in Hn. unfold in_serve, serving_now in Hsv. rewrite Hpc in Hsv.
    destruct (serving s) eqn:Hs, (done s) eqn:Hdd; simpl in Hsv; try lia. inv_elem.
    split; simpl; try done; unfold serving_now, closing_now, chan_now, waiting; simpl;
      rewrite ?Hs, ?Hdd; simpl; udp_places Hpc.
  - unfold fatal_step in Hn. inv_elem. case_match; (apply counts_same; try done; udp_places Hpc).
  - unfold reader_done in Hn. unfold active in Hwg. rewrite Hpc in Hwg. simpl in Hwg.
    destruct (Z.leb_spec (wg s) 0); [lia|]. inv_elem. pose proof (udp_idle_nonneg (goto l Ready)) as Hi.
    split; simpl; try done; unfold serving_now, closing_now, chan_now, waiting; simpl;
      udp_places Hpc.
  - unfold shutdown_serving in Hn. pose proof (udp_idle_nonneg l'). case_match; inv_elem; (apply counts_same; try done; udp_places Hpc).
  - unfold shutdown_wait in Hn. pose proof (udp_idle_nonneg l'). repeat case_match; inv_elem; apply counts_same; try done; udp_places Hpc.
Qed.

(** * What a goroutine knows *)

Record rises s s' : Prop := {
  up_closed : closed s = true → closed s' = true;
  up_closing : closing s = true → closing s' = true;
  up_once : once s = Some true → once s' = Some true;
  up_serving : serving s = true → serving s' = true;
  up_done : done s = true → done s' = true }.

Lemma udp_next_rises s l s' l' : (s', l') ∈ next s l → rises s s'.
Proof.
  intros Hn. open_udp Hn. unfold read_step in Hn.
  destruct (at_pc l); [destruct (todo l) as [|[] ?]; simpl in Hn|..];
    repeat case_match; try (apply list_elem_of_fmap in Hn as (? & Hn & _); injection Hn as -> ->);
    inv_elem; by split; simpl; intros; congruence || auto.
Qed.

Definition shuts s : Prop :=
  (closing s = true → closed s = true) ∧ ((0 < closedUpto s)%nat → closed s = true) ∧
  (once s = Some true → closed s = true).

Definition place s l : Prop :=
  match at_pc l with
  | CChan _ | RDone => closed s = true
  | CSock _ => closed s = true ∧ closing s = true
  | HServing _ => once s = Some true
  | HWait _ => once s = Some true ∧ serving s = true
  | _ => True
  end.

Definition kont_of (p : pc) : option kont :=
  match p with COnce k | CSet k | CChan k | CSock k => Some k | _ => None end.
Definition kont_ok (k : kont) : Prop := match k with KReturn (RetServe _) => False | _ => True end.

Lemma place_mono s s' l : rises s s' → place s l → place s' l.
Proof. intros [] Hp. unfold place in *. destruct (at_pc l); naive_solver. Qed.

Lemma place_resume s l k :
  closed s = true → once s = Some true → place s (resume l k).
Proof. by destruct k. Qed.

Lemma place_step s l s' l' :
  (s', l') ∈ next s l → crashed s' = false → shuts s → place s l → place s' l' ∧ shuts s'.
Proof.
  intros Hn Hc (Sc & Su & So) Hp. unfold place in Hp. open_udp Hn. unfold read_step in Hn.
  destruct (at_pc l) eqn:Hpc; [destruct (todo l) as [|[] ?]; simpl in Hn|..];
    repeat case_match; try (apply list_elem_of_fmap in Hn as (? & Hn & _); injection Hn as -> ->);
    inv_elem; unfold shuts, place; simpl; destruct_and?.
  all: try (by split_and!; auto).
  all: try (split; [apply place_resume; by auto|by split_and!; auto]).
  all: try (match goal with H : bool_decide _ = true |- _ => apply bool_decide_eq_true in H end;
            assert (closed s = true) by (apply Su; lia); by split_and!).
  all: try (by destruct k; split_and!; auto).
  all: split_and!; try done; intros; intuition congruence.
Qed.

(** The continuations of Close and the results of finished calls. *)
Record told s l : Prop := {
  t_kont k : kont_of (at_pc l) = Some k → kont_ok k;
  t_ret e : RetServe e ∈ rets l → done s = true ∧ closed s = true ∧ e = fatal s;
  t_sdone e : at_pc l = SDone e → e = fatal s }.

(** A goroutine past the start of Serve's first reader; one past wg.Wait. *)
Definition late l : Prop :=
  match at_pc l with SSpawn (S _) | SWait | SFatal | SDone _ => True | _ => False end.
Definition past_wait l : Prop := match at_pc l with SFatal | SDone _ => True | _ => False end.
(** A reader about to close the Conn after a fatal error. *)
Definition will_close l : Prop :=
  match at_pc l with COnce KReader | CSet KReader => True | _ => False end.
End inv.
