(* ===== verification/UdpThms.v ===== *)
(** The udp Conn: delivery, the end of Serve and the absence of deadlock. *)
From S2P Require Import Prelude Interleave Internal Tcp TcpInv TcpThms Sys UdpDrops Udp UdpRead UdpInv.

Local Open Scope Z_scope.

Section thms.
Context (cfg : Config) (InterfaceByIndex : Z → option string) (classify : option Z → ReadErr).
Context (qs : list (list rx)).
Local Abbreviation next := (next cfg InterfaceByIndex classify).
Local Abbreviation sock := (sock cfg).
Local Abbreviation nsockn := (nsockn cfg).
Local Abbreviation deliv := (deliv cfg InterfaceByIndex classify).
Local Abbreviation conf := (@conf Sh Local).
Implicit Types (s : Sh) (l : Local) (c : conf).

(** A socket's reads fill at most the 64 bytes of control data readers
    provide. *)
Definition rx_ok (x : rx) : Prop := match x with Dgram d => (length (oob d) <= 64)%nat | RxErr _ => True end.

(** What Listen makes sure of. *)
Record listening : Prop := {
  h_sock : 1 <= nsock cfg; h_len : length qs = nsockn; h_readers : 1 <= readers cfg;
  h_rx : Forall (Forall rx_ok) qs }.

Record udp_inv c : Prop := {
  n_crash : crashed (shared c) = false;
  n_wg : wg (shared c) = zsum active (procs c) + Z.of_nat (length (spawned (shared c)));
  n_serve : zsum in_serve (procs c) = serving_now (shared c);
  n_done : done (shared c) = true → serving (shared c) = true;
  n_closer : zsum closer (procs c) = closing_now (shared c);
  n_chan : zsum before_chan (procs c) = chan_now (shared c);
  n_none : once (shared c) = None → closing (shared c) = false ∧ closedUpto (shared c) = 0%nat;
  n_true : once (shared c) = Some true →
    closing (shared c) = true ∧ closed (shared c) = true ∧ closedUpto (shared c) = nsockn;
  n_qs : length (queues (shared c)) = nsockn ∧ length (drops (shared c)) = nsockn ∧ (0 < nsockn)%nat;
  n_upto : (closedUpto (shared c) <= nsockn)%nat;
  n_shuts : shuts (shared c);
  n_idle : waiting cfg (shared c) + zsum (room cfg) (procs c) <= zsum idle (procs c);
  n_place : Forall (place (shared c)) (procs c);
  n_told : Forall (told (shared c)) (procs c);
  n_deliv : Forall deliv (procs c);
  n_logs : logs_ok cfg qs c;
  n_fin : done (shared c) = true ∨ Exists past_wait (procs c) → wg (shared c) = 0;
  n_late : Exists late (procs c) → closed (shared c) = true ∨ 0 < wg (shared c);
  n_over : done (shared c) = true → closed (shared c) = true;
  n_fatal : is_Some (fatal (shared c)) → closed (shared c) = true ∨ Exists will_close (procs c) }.

Context (HL : listening).

Lemma inflight_ok c (i : nat) l :
  udp_inv c → procs c !! i = Some l →
  ∀ m, m ∈ inflight (at_pc l) → (length (oob m.2) <= 64)%nat.
Proof using HL.
  intros Hi Hl m Hm. destruct (n_qs _ Hi) as (_ & _ & Hpos).
  destruct (Forall_lookup_1 _ _ _ _ (n_deliv _ Hi) Hl) as [_ _ _ _ (dn & es & E & _)].
  assert (m.2 ∈ got l) as Hg by (rewrite E; apply elem_of_app; right; by apply list_elem_of_fmap_2).
  unfold got in Hg. apply list_elem_of_omap in Hg as (x & Hx & Ex). destruct x as [d|]; [|done]. simplify_eq/=.
  destruct (n_logs _ Hi) as [_ Hlog]. destruct HL as [_ Hlen _ Hrx].
  destruct (lookup_lt_is_Some_2 qs (sock l)) as [q Hq]; [rewrite Hlen; by apply sock_lt|].
  destruct (Hlog _ _ Hq) as (pre & rest & -> & _ & Hf).
  pose proof (Forall_lookup_1 _ _ _ _ Hf Hl eq_refl) as Hsub.
  assert (Dgram m.2 ∈ pre) as Hin by (by eapply sublist_subseteq).
  pose proof (Forall_lookup_1 _ _ _ _ Hrx Hq) as Hall. apply Forall_app in Hall as [Hall _].
  rewrite Forall_forall in Hall. apply (Hall _ Hin).
Qed.

Lemma udp_ready c (i : nat) l : udp_inv c → procs c !! i = Some l → ready cfg (shared c) l.
Proof using HL.
  intros Hi Hl. assert (∀ f : Local → Z, (∀ x, 0 <= f x) → f l <= zsum f (procs c)) as Hz.
  { intros f Hf. eapply zsum_lookup_le; [|done]. by apply Forall_true. }
  split; try apply Hi.
  - rewrite (n_wg _ Hi). pose proof (Hz active active_nonneg). lia.
  - rewrite <- (n_serve _ Hi). apply Hz, in_serve_nonneg.
  - rewrite <- (n_closer _ Hi). apply Hz, closer_nonneg.
  - rewrite <- (n_chan _ Hi). apply Hz, before_chan_nonneg.
  - intros k Hk. pose proof (Forall_lookup_1 _ _ _ _ (n_place _ Hi) Hl) as Hp. unfold place in Hp.
    by rewrite Hk in Hp.
  - by eapply inflight_ok.
Qed.

(** ** Preservation *)

Lemma logs_step s ps (i : nat) l s' l' :
  logs_ok cfg qs (Conf s ps) → ps !! i = Some l → (s', l') ∈ next s l →
  logs_ok cfg qs (Conf s' (<[i:=l']> ps)).
Proof.
  intros [Hlen Hlog] Hl Hn. simpl in *. destruct (read_from _ _ _ _ _ _ _ Hn) as [[Eq Hx]|(xs & rest & Hq & Eq & Elog & Er)].
  - split; simpl; [by rewrite Eq|]. intros j q Hj. destruct (Hlog j q Hj) as (pre & rest & -> & Hr & Hf).
    exists pre, rest. rewrite Eq. split_and!; try done. apply Forall_insert; [done|]. intros Hs.
    destruct Hx as [->|[-> Er]]; [apply sublist_nil_l|].
    apply (Forall_lookup_1 _ _ _ _ Hf Hl). by rewrite <- Hs; unfold Udp.sock; rewrite Er.
  - assert (sock l' = sock l) as Es by (unfold Udp.sock; by rewrite Er).
    split; simpl; [by rewrite Eq, length_insert|]. intros j q Hj.
    destruct (Hlog j q Hj) as (pre & rest' & -> & Hr & Hf).
    destruct (decide (j = sock l)) as [->|Hne].
    + rewrite Hr in Hq. simplify_eq. exists (pre ++ xs), rest. rewrite <- app_assoc. split; [done|]. split.
      { rewrite Eq. apply list_lookup_insert_eq. by eapply lookup_lt_Some. }
      apply Forall_insert.
      * eapply Forall_impl; [exact Hf|]. intros x Hx Hs. by apply sublist_inserts_r, Hx.
      * intros _. rewrite Elog. apply sublist_app; [|done]. by apply (Forall_lookup_1 _ _ _ _ Hf Hl).
    + exists pre, rest'. split; [done|]. split; [by rewrite Eq, list_lookup_insert_ne|].
      apply Forall_insert; [done|]. intros Hs. congruence.
Qed.

(** Only a reader at its fatal error writes [fatal]; it is active. *)
Lemma fatal_stable s l s' l' :
  (s', l') ∈ next s l → fatal s' = fatal s ∨
  (active l = 1 ∧ fatal s = None ∧ closed s = false ∧ will_close l' ∧ ¬ past_wait l' ∧ done s' = done s).
Proof.
  intros Hn. open_udp Hn. unfold read_step in Hn. destruct (at_pc l) eqn:Hpc;
    [destruct (todo l) as [|[] ?]; simpl in Hn|..];
    repeat case_match; try (apply list_elem_of_fmap in Hn as (? & Hn & _); injection Hn as -> ->);
    inv_elem; try (by left).
  right. match goal with H : _ && _ = true |- _ => apply andb_true_iff in H as [H1%bool_decide_eq_true H2] end.
  apply negb_true_iff in H2. unfold active. rewrite Hpc. split_and!; try done. by intros [].
Qed.

(** What one action does to the WaitGroup and to the phases of Serve. *)
Record moves s l s' l' : Prop := {
  m_wg : wg s' = wg s ∨ (wg s' = wg s + 1 ∧ in_serve l = 1 ∧ ¬ past_wait l' ∧ done s' = done s) ∨
         (wg s' = wg s - 1 ∧ closed s = true ∧ active l = 1 ∧ ¬ past_wait l' ∧ done s' = done s);
  m_late : late l' → late l ∨ wg s' = wg s + 1;
  m_past : past_wait l' → past_wait l ∨ wg s = 0;
  m_done : done s' = true → done s = false → past_wait l ∧ late l;
  m_will : will_close l → will_close l' ∨ closed s' = true }.

Lemma udp_moves s l s' l' :
  (s', l') ∈ next s l → crashed s' = false → place s l → shuts s → moves s l s' l'.
Proof using HL.
  intros Hn Hc Hp (_ & _ & So). destruct HL as [_ _ Hrd _]. unfold place in Hp.
  open_udp Hn. unfold read_step in Hn. destruct (at_pc l) eqn:Hpc;
    [destruct (todo l) as [|[] ?]; simpl in Hn|..];
    repeat case_match; try (apply list_elem_of_fmap in Hn as (? & Hn & _); injection Hn as -> ->);
    inv_elem; split; unfold late, past_wait, will_close, in_serve, active; rewrite ?Hpc; simpl; auto; try done.
  all: try (intros; congruence).
  all: try (by destruct k; auto).
  - right; left. split_and!; auto.
  - intros _. match goal with H : bool_decide _ = false |- _ => apply bool_decide_eq_false in H end.
    destruct i; [lia|by left].
  - intros _. right. by apply Z.eqb_eq.
  - right; right. split_and!; auto.
Qed.

(** Serve is at most one goroutine. *)
Lemma serve_alone s ps (i j : nat) l y :
  udp_inv (Conf s ps) → ps !! i = Some l → ps !! j = Some y → in_serve l = 1 → in_serve y = 1 →
  i = j ∧ done s = false.
Proof.
  intros Hi Hl Hy H1 H2. pose proof (n_serve _ Hi) as E. unfold serving_now in E. simpl in E.
  pose proof (zsum_lookup_le in_serve ps i l ltac:(apply Forall_true, in_serve_nonneg) Hl).
  destruct (decide (i = j)) as [|Hij].
  - split; [done|]. destruct (serving s), (done s); simpl in E; try done; lia.
  - pose proof (zsum_two in_serve ps i j l y in_serve_nonneg Hij Hl Hy).
    destruct (serving s), (done s); simpl in E; lia.
Qed.

Lemma past_in_serve l : past_wait l → in_serve l = 1 ∧ late l.
Proof. unfold past_wait, in_serve, late. by destruct (at_pc l). Qed.

Lemma udp_fin s ps (i : nat) l s' l' :
  udp_inv (Conf s ps) → ps !! i = Some l → moves s l s' l' → 0 <= wg s' →
  done s' = true ∨ Exists past_wait (<[i:=l']> ps) → wg s' = 0.
Proof.
  intros Hi Hl [Hwg Hlate Hpast Hdone _] H0 Hfin. pose proof (n_fin _ Hi) as Hold. simpl in Hold.
  assert (past_wait l → wg s = 0) as Hpl.
  { intros. apply Hold. right. apply Exists_exists. exists l. split; [by eapply list_elem_of_lookup_2|done]. }
  assert (done s' = true ∧ done s = done s' ∨ Exists past_wait ps → wg s = 0) as Hprev.
  { intros [[Hd E]|He]; apply Hold; [left; congruence|by right]. }
  destruct Hwg as [E|[(E & Hs & Hnp & Hd)|(E & _ & Ha & Hnp & Hd)]].
  - rewrite E. destruct (done s) eqn:Ed; [by auto|]. destruct Hfin as [Hd|Hex]; [by apply Hpl, Hdone|].
    apply (Exists_insert_inv _ _ _ _ _ Hl) in Hex as [Hx|Hx]; [|by auto]. destruct (Hpast Hx); auto.
  - exfalso. destruct Hfin as [Hdd|(y & [j Hj]%list_elem_of_lookup & Hy)%Exists_exists].
    + rewrite Hd in Hdd. destruct (serve_alone s ps i i l l Hi Hl Hl Hs Hs). congruence.
    + destruct (decide (i = j)) as [<-|Hij].
      { rewrite list_lookup_insert_eq in Hj by (by eapply lookup_lt_Some). by simplify_eq. }
      rewrite list_lookup_insert_ne in Hj by done. destruct (past_in_serve y Hy) as [Hy1 _].
      by destruct (serve_alone s ps i j l y Hi Hl Hj Hs Hy1).
  - exfalso. pose proof (n_wg _ Hi) as Ew. simpl in Ew.
    pose proof (zsum_lookup_le active ps i l ltac:(apply Forall_true, active_nonneg) Hl).
    assert (wg s = 0); [|lia]. destruct Hfin as [Hdd|Hex]; [apply Hprev; left; by rewrite Hd in *|].
    apply (Exists_insert_inv _ _ _ _ _ Hl) in Hex as [Hx|Hx]; [by destruct (Hnp Hx)|by auto].
Qed.

Lemma udp_late s ps (i : nat) l s' l' :
  udp_inv (Conf s ps) → ps !! i = Some l → moves s l s' l' → rises s s' → 0 <= wg s →
  Exists late (<[i:=l']> ps) → closed s' = true ∨ 0 < wg s'.
Proof.
  intros Hi Hl [Hwg Hlate _ _ _] Hup H0 Hex. pose proof (n_late _ Hi) as Hold. simpl in Hold.
  destruct Hup as [Hcl _ _ _ _].
  assert (wg s' = wg s + 1 → closed s' = true ∨ 0 < wg s') as Hplus by (intros; right; lia).
  assert (Exists late ps → closed s' = true ∨ 0 < wg s') as Hprev.
  { intros He. destruct (Hold He) as [Hc|Hw]; [by auto|].
    destruct Hwg as [E|[(E & _)|(_ & Hc & _)]]; [right; lia|right; lia|by auto]. }
  apply (Exists_insert_inv _ _ _ _ _ Hl) in Hex as [Hx|Hx]; [|by auto].
  destruct (Hlate Hx) as [Hy|E]; [|by auto]. apply Hprev, Exists_exists. exists l.
  split; [by eapply list_elem_of_lookup_2|done].
Qed.

(** [told] of a goroutine that does not move. *)
Lemma told_mono s ps (i : nat) l s' l' y :
  udp_inv (Conf s ps) → ps !! i = Some l → (s', l') ∈ next s l → y ∈ ps → told s' y.
Proof using HL.
  intros Hi Hl Hn Hy. pose proof (n_told _ Hi) as Ht. rewrite Forall_forall in Ht.
  destruct (Ht y Hy) as [H1 H2 H3]. destruct (udp_next_rises _ _ _ _ _ _ _ Hn) as [Hcl _ _ _ Hdn].
  simpl in *. destruct (fatal_stable s l s' l' Hn) as [Ef|(Ha & Hf & _)].
  { split; [done| |intros; rewrite Ef; by auto]. intros e He. rewrite Ef.
    destruct (H2 e He) as (? & ? & ?). auto. }
  assert (0 < wg s) as Hw.
  { pose proof (n_wg _ Hi) as E. simpl in E.
    pose proof (zsum_lookup_le active ps i l ltac:(apply Forall_true, active_nonneg) Hl). lia. }
  pose proof (n_fin _ Hi) as Hfin. simpl in Hfin. split; [done|..].
  - intros e He. destruct (H2 e He) as (Hd & _). rewrite Hfin in Hw; [lia|by left].
  - intros e He. rewrite Hfin in Hw; [lia|]. right. apply Exists_exists. exists y. split; [done|].
    unfold past_wait. by rewrite He.
Qed.

Lemma rets_resume l k : kont_ok k → ∀ e, RetServe e ∈ rets (resume l k) → RetServe e ∈ rets l.
Proof.
  intros Hk e. destruct k; simpl; try done.
  intros [?|E%list_elem_of_singleton]%elem_of_app; [done|]. by subst.
Qed.

(** Where a moving goroutine's results and continuations come from. *)
Lemma told_local s l s' l' :
  (s', l') ∈ next s l → (∀ k, kont_of (at_pc l) = Some k → kont_ok k) →
  (∀ k, kont_of (at_pc l') = Some k → kont_ok k) ∧
  (∀ e, RetServe e ∈ rets l' → RetServe e ∈ rets l ∨ (at_pc l = SDone e ∧ fatal s' = fatal s ∧
     (done s' = true ∨ crashed s' = true) ∧ closed s' = closed s)) ∧
  (∀ e, at_pc l' = SDone e → e = fatal s ∧ fatal s' = fatal s).
Proof.
  intros Hn Hk.
  assert (∀ k, kont_of (at_pc (resume l k)) = None ∧ ∀ e, at_pc (resume l k) ≠ SDone e) as Hres
    by (intros []; done).
  open_udp Hn. unfold read_step in Hn. destruct (at_pc l) eqn:Hpc;
    [destruct (todo l) as [|[] ?]; simpl in Hn|..];
    repeat case_match; try (apply list_elem_of_fmap in Hn as (? & Hn & _); injection Hn as -> ->);
    inv_elem.
  all: try (split_and!; simpl; [done|by auto|done]).
  all: try (split_and!; simpl; [by intros ? [= <-]|by auto|done]).
  all: try (split_and!; simpl; [by auto|by auto|done]).
  all: try (split_and!; [by destruct (Hres k) as [-> _]|intros; left; by eapply rets_resume; eauto
                        |by intros e Hx; destruct (Hres k) as [_ Hy]; destruct (Hy e)]).
  all: try (split_and!; simpl; [done| |done]; intros e' [?|Hx%list_elem_of_singleton]%elem_of_app; [by left|];
            by first [discriminate Hx|injection Hx as ->; right; auto]).
  all: split_and!; [by rewrite ?Hpc|by auto|]; first [by rewrite Hpc|by intros e' [= <-]].
Qed.

Lemma udp_told s ps (i : nat) l s' l' :
  udp_inv (Conf s ps) → ps !! i = Some l → (s', l') ∈ next s l → crashed s' = false →
  Forall (told s') (<[i:=l']> ps).
Proof using HL.
  intros Hi Hl Hn Hc. apply Forall_insert; [apply Forall_forall; intros y Hy; by eapply told_mono|].
  pose proof (told_mono s ps i l s' l' l Hi Hl Hn ltac:(by eapply list_elem_of_lookup_2)) as [_ Hr _].
  destruct (Forall_lookup_1 _ _ _ _ (n_told _ Hi) Hl) as [Tk _ Ts]. simpl in Ts.
  destruct (told_local s l s' l' Hn Tk) as (H1 & H2 & H3). split; [done| |].
  - intros e He. destruct (H2 e He) as [?|(Hpc & Ef & Hd & Ecl)]; [by auto|]. rewrite Ef, Ecl.
    assert (past_wait l) as Hp by (unfold past_wait; by rewrite Hpc).
    assert (l ∈ ps) as Hin by (by eapply list_elem_of_lookup_2).
    assert (wg s = 0) as Hw by (apply (n_fin _ Hi); right; apply Exists_exists; eauto).
    destruct (n_late _ Hi) as [Hcl|Hcl]; simpl in *.
    + apply Exists_exists. exists l. split; [done|]. by apply past_in_serve.
    + destruct Hd as [Hd|Hd]; [by auto|congruence].
    + lia.
  - intros e He. destruct (H3 e He) as [-> ->]. done.
Qed.

Lemma udp_fatal s ps (i : nat) l s' l' :
  udp_inv (Conf s ps) → ps !! i = Some l → (s', l') ∈ next s l → moves s l s' l' → rises s s' →
  is_Some (fatal s') → closed s' = true ∨ Exists will_close (<[i:=l']> ps).
Proof.
  intros Hi Hl Hn Hmv Hup Hf. destruct (fatal_stable s l s' l' Hn) as [E|(_ & _ & _ & Hw & _)].
  - rewrite E in Hf. destruct (n_fatal _ Hi Hf) as [Hc|Hex]; simpl in *; [left; by apply Hup|].
    destruct (Exists_insert_l _ _ _ _ l' Hl Hex) as [Hx|Hx]; [|by right].
    destruct (m_will _ _ _ _ Hmv Hx) as [Hw|Hw]; [right|by left]. by eapply Exists_insert_r.
  - right. by eapply Exists_insert_r.
Qed.

Lemma udp_step c c' : udp_inv c → step next c c' → udp_inv c'.
Proof using HL.
  intros Hi Hst. destruct Hst as [i l s s' l' ps Hl Hn].
  destruct (udp_counts _ _ _ _ _ _ _ Hn (udp_ready _ i l Hi Hl))
    as [Cc Cw Cs Cd Ccl Cch Cno Ctr Cq Cup Cid]. simpl in *.
  pose proof (udp_next_rises _ _ _ _ _ _ _ Hn) as Hup.
  assert (∀ (P : Local → Prop), Forall P ps → P l) as Hat by (intros P HP; by eapply Forall_lookup_1).
  destruct (place_step _ _ _ _ _ _ _ Hn Cc (n_shuts _ Hi) (Hat _ (n_place _ Hi))) as [Hp' Hsh'].
  pose proof (udp_moves _ _ _ _ Hn Cc (Hat _ (n_place _ Hi)) (n_shuts _ Hi)) as Hmv.
  pose proof (n_wg _ Hi) as Ew. pose proof (n_serve _ Hi) as Es. pose proof (n_closer _ Hi) as Ecl.
  pose proof (n_chan _ Hi) as Ech. pose proof (n_idle _ Hi) as Eid. simpl in *.
  assert (0 <= wg s) as Hw0 by (pose proof (zsum_nonneg active ps active_nonneg); lia).
  assert (0 <= wg s') as Hw0'.
  { pose proof (zsum_nonneg active (<[i:=l']> ps) active_nonneg) as H0.
    rewrite (zsum_insert _ _ _ _ _ Hl) in H0. lia. }
  split; simpl; rewrite ?(zsum_insert _ _ _ _ _ Hl); try done; try lia.
  - apply Forall_insert; [|done]. eapply Forall_impl; [apply (n_place _ Hi)|]. intros. by eapply place_mono.
  - by eapply udp_told.
  - apply Forall_insert; [apply (n_deliv _ Hi)|]. eapply deliv_step; [done..|]. apply (Hat _ (n_deliv _ Hi)).
  - eapply logs_step; [apply (n_logs _ Hi)|done..].
  - by eapply udp_fin.
  - by eapply udp_late.
  - intros Hd. destruct (done s) eqn:Ed; [apply Hup, (n_over _ Hi Ed)|].
    destruct (m_done _ _ _ _ Hmv Hd Ed) as [Hpw Hlt].
    assert (l ∈ ps) as Hin by (by eapply list_elem_of_lookup_2).
    assert (wg s = 0) as Hw by (apply (n_fin _ Hi); right; apply Exists_exists; eauto).
    destruct (n_late _ Hi) as [Hcl|Hcl]; simpl in *; [apply Exists_exists; eauto|by apply Hup|lia].
  - by eapply udp_fatal.
Qed.

Lemma udp_init progs : udp_inv (init cfg qs progs).
Proof using HL.
  destruct HL as [H1 H2 H3 H4].
  assert (∀ f : Local → Z, (∀ cs, f (fresh_local cs) = 0) → zsum f (procs (init cfg qs progs)) = 0) as Hz.
  { intros f Hf. apply zsum_zero. intros l (cs & -> & _)%list_elem_of_fmap. apply Hf. }
  assert (∀ P : Local → Prop, (∀ cs, P (fresh_local cs)) → Forall P (procs (init cfg qs progs))) as HF.
  { intros P HP. apply Forall_forall. intros l (cs & -> & _)%list_elem_of_fmap. apply HP. }
  assert (∀ P : Local → Prop, (∀ cs, ¬ P (fresh_local cs)) → ¬ Exists P (procs (init cfg qs progs))) as HE.
  { intros P HP (l & (cs & -> & _)%list_elem_of_fmap & Hx)%Exists_exists. by apply (HP cs). }
  split; simpl shared; try done; try (rewrite Hz by done; done).
  - simpl. rewrite H2, length_fmap, H2. unfold Udp.nsockn. lia.
  - simpl. lia.
  - by split_and!; simpl; intros; try lia.
  - rewrite (Hz (room cfg)) by done. unfold waiting. simpl. unfold init. simpl.
    rewrite fmap_app, zsum_app. pose proof (zsum_nonneg idle (fresh_local <$> progs) udp_idle_nonneg).
    enough (zsum idle (fresh_local <$> replicate (Z.to_nat (readers cfg)) [CReader]) = readers cfg) by lia.
    rewrite <- (Z2Nat.id (readers cfg)) at 2 by lia.
    induction (Z.to_nat (readers cfg)) as [|n IH]; [done|].
    rewrite replicate_S, fmap_cons, Nat2Z.inj_succ, <- IH. unfold zsum. simpl foldr. unfold idle at 1. simpl. lia.
  - by apply HF.
  - apply HF. split; try done. intros e He. by apply not_elem_of_nil in He.
  - apply HF. intros cs. by apply deliv_fresh.
  - split; [done|]. intros j q Hj. exists [], q. split_and!; try done. apply HF. intros. apply sublist_nil_l.
  - intros Hx. destruct (HE late); [by intros ? []|done].
  - by intros [].
Qed.

Lemma udp_reachable progs c : rtc (step next) (init cfg qs progs) c → udp_inv c.
Proof using HL. apply inv_reachable; [apply udp_init|]. intros. by eapply udp_step. Qed.

(** * Delivery *)

(** The handler was called with what the reader has read, so far. *)
Lemma calls_are_packets progs c (i : nat) l :
  rtc (step next) (init cfg qs progs) c → procs c !! i = Some l →
  ∃ dn, dn `prefix_of` got l ∧ (inflight (at_pc l) = [] → dn = got l) ∧
        calls l = packets_of cfg InterfaceByIndex (rdr l) dn.
Proof using HL.
  intros Hr Hl. pose proof (udp_reachable progs c Hr) as Hi.
  destruct (Forall_lookup_1 _ _ _ _ (n_deliv _ Hi) Hl) as [_ _ _ _ (dn & es & E1 & E2 & E3 & E4)].
  exists dn. rewrite E1. split_and!; [by apply prefix_app_r| |done].
  intros ->. simpl. by rewrite app_nil_r.
Qed.

(** What a reader has read comes from its socket, in the socket's order. *)
Lemma log_from_socket progs c (i : nat) l :
  rtc (step next) (init cfg qs progs) c → procs c !! i = Some l →
  ∃ q, qs !! sock l = Some q ∧ log l `sublist_of` q.
Proof using HL.
  intros Hr Hl. pose proof (udp_reachable progs c Hr) as Hi.
  destruct (n_logs _ Hi) as [_ Hlog]. destruct (n_qs _ Hi) as (_ & _ & Hpos).
  destruct (lookup_lt_is_Some_2 qs (sock l)) as [q Hq]; [rewrite (h_len HL); by apply sock_lt|].
  exists q. split; [done|]. destruct (Hlog _ _ Hq) as (pre & rest & -> & _ & Hf).
  apply sublist_inserts_r. by apply (Forall_lookup_1 _ _ _ _ Hf Hl).
Qed.

(** C26: A reader calls its handler with the datagrams it has read from its
    socket, in the socket's order: each one that fits MaxPacket exactly once,
    with its whole payload (batched reads do not mix their buffers) and its
    sender's unmapped address, and none that is longer. Between reads nothing
    is outstanding, and its counters are the number and the bytes of those
    packets, the datagrams cut, and the read errors. *)
Theorem udp_delivery progs c (i : nat) l :
  rtc (step next) (init cfg qs progs) c → procs c !! i = Some l →
  calls l `prefix_of` packets_of cfg InterfaceByIndex (rdr l) (got l) ∧
  (∃ q, qs !! sock l = Some q ∧ log l `sublist_of` q) ∧
  (inflight (at_pc l) = [] → uncounted (at_pc l) = [] →
   calls l = packets_of cfg InterfaceByIndex (rdr l) (got l) ∧
   st l = stats_after cfg InterfaceByIndex classify (rdr l) (got l) (failed l) 0 0).
Proof using HL.
  intros Hr Hl. pose proof (udp_reachable progs c Hr) as Hi.
  destruct (Forall_lookup_1 _ _ _ _ (n_deliv _ Hi) Hl) as [_ _ _ _ (dn & es & E1 & E2 & E3 & E4)].
  split_and!.
  - destruct (calls_are_packets progs c i l Hr Hl) as (dn' & [k Hk] & _ & ->). rewrite Hk.
    unfold packets_of. rewrite omap_app. apply prefix_app_r. done.
  - by eapply log_from_socket.
  - intros Hin Hun. rewrite Hin in E1. rewrite Hun in E2. simpl in E1. rewrite app_nil_r in E1, E2.
    rewrite E1, E2, E3, E4. split; [done|]. by destruct (at_pc l).
Qed.

(** * The end of Serve *)

(** Errors in progress are errors the sockets returned. *)
Definition from_sockets (e : option Z) : Prop := RxErr e ∈ concat qs.
Definition err_known l : Prop :=
  match at_pc l with
  | RFailed e _ => from_sockets e
  | RFatal e => from_sockets e ∧ classify e = Fatal
  | _ => True
  end.
Record errs_ok c : Prop := {
  e_queues q x : q ∈ queues (shared c) → x ∈ q → x ∈ concat qs;
  e_local : Forall err_known (procs c);
  e_fatal e : fatal (shared c) = Some e → from_sockets e ∧ classify e = Fatal }.

Lemma err_resume l k : err_known (resume l k).
Proof. by destruct k. Qed.

Lemma errs_local s l s' l' :
  (s', l') ∈ next s l → (∀ q x, q ∈ queues s → x ∈ q → x ∈ concat qs) → err_known l →
  err_known l' ∧ ∀ e, fatal s' = Some e → fatal s = Some e ∨ (from_sockets e ∧ classify e = Fatal).
Proof.
  intros Hn Hq Hl. unfold err_known in Hl. open_udp Hn. unfold read_step in Hn.
  destruct (at_pc l) eqn:Hpc; [destruct (todo l) as [|[] ?]; simpl in Hn|..];
    repeat case_match; try (apply list_elem_of_fmap in Hn as (? & Hn & _); injection Hn as -> ->);
    inv_elem; try (split; [done|by auto]); try (split; [apply err_resume|by auto]).
  all: try (split; [unfold err_known; by rewrite ?Hpc|by auto]).
  - split; [|by auto]. eapply Hq; [by eapply list_elem_of_lookup_2|by left].
  - split; [done|]. intros e' [= <-]. by right.
Qed.

Lemma errs_inv progs c : rtc (step next) (init cfg qs progs) c → errs_ok c.
Proof using HL.
  apply inv_reachable.
  - split; simpl; [|apply Forall_forall; by intros l (? & -> & _)%list_elem_of_fmap|done].
    intros q x Hq Hx. apply list_elem_of_In, in_concat. exists q. by rewrite <- !list_elem_of_In.
  - intros a b [H1 H2 H3] Hab. destruct Hab as [i l s s' l' ps Hl Hn]. simpl in *.
    destruct (errs_local s l s' l' Hn H1 (Forall_lookup_1 _ _ _ _ H2 Hl)) as [E1 E2].
    split; simpl; [|by apply Forall_insert|intros e He; destruct (E2 e He); auto].
    destruct (read_from _ _ _ _ _ _ _ Hn) as [[-> _]|(xs & rest & Hq & -> & _)]; [done|].
    intros q x [->|Hq']%elem_of_insert_list Hx; [|by eapply H1].
    eapply H1; [by eapply list_elem_of_lookup_2|]. set_solver.
Qed.

(** C27: A Conn never panics. When Serve has returned, every reader has
    stopped, none will start, the Conn is closed, and what Serve returned is
    the recorded read error: one that a socket returned and that is classified
    as fatal, or nil. *)
Theorem udp_Serve_end progs c :
  rtc (step next) (init cfg qs progs) c →
  crashed (shared c) = false ∧
  (∀ l e, l ∈ procs c → RetServe e ∈ rets l →
   wg (shared c) = 0 ∧ spawned (shared c) = [] ∧ Forall (λ y, active y = 0) (procs c) ∧
   closed (shared c) = true ∧ e = fatal (shared c)) ∧
  (∀ e, fatal (shared c) = Some e → from_sockets e ∧ classify e = Fatal).
Proof using HL.
  intros Hr. pose proof (udp_reachable progs c Hr) as Hi.
  split_and!; [apply Hi| |apply (errs_inv progs c Hr)].
  intros l e Hl He. pose proof (n_told _ Hi) as Ht. rewrite Forall_forall in Ht.
  destruct (t_ret _ _ (Ht l Hl) e He) as (Hd & Hcl & Hf).
  pose proof (n_fin _ Hi (or_introl Hd)) as Hw. pose proof (n_wg _ Hi) as Ew. rewrite Hw in Ew.
  pose proof (zsum_nonneg active (procs c) active_nonneg).
  split_and!; try done; [apply length_zero_iff_nil; lia|].
  apply Forall_forall. intros y [j Hj]%list_elem_of_lookup.
  pose proof (zsum_lookup_le active (procs c) j y ltac:(apply Forall_true, active_nonneg) Hj).
  pose proof (active_nonneg y). lia.
Qed.

(** * No deadlock *)

Definition stuck c : Prop := ∀ l, l ∈ procs c → next (shared c) l = [].

Lemma udp_stuck_check c :
  forallb (λ l, Nat.eqb (length (next (shared c) l)) 0) (procs c) = true → stuck c.
Proof.
  intros Hf l Hl. rewrite forallb_forall in Hf. apply length_zero_iff_nil, Nat.eqb_eq, Hf.
  by apply list_elem_of_In.
Qed.

Definition finished s l : Prop :=
  at_pc l = Ready ∧ (todo l = [] ∨ (todo l = [CReader] ∧ spawned s = [])).
(** A reader blocked in a read of an open socket where nothing arrives. *)
Definition in_read s l : Prop :=
  (∃ d, at_pc l = RRead d) ∧ ¬ (sock l < closedUpto s)%nat ∧ queues s !! sock l = Some [].

Definition todo_ok l : Prop := CReader ∉ todo l ∨ todo l = [CReader].

Lemma udp_resume_todo l k : todo (resume l k) = todo l.
Proof. by destruct k. Qed.

Lemma udp_todo_step s l s' l' : (s', l') ∈ next s l → todo l' = todo l ∨ ∃ x, todo l = x :: todo l'.
Proof.
  intros Hn. open_udp Hn. unfold read_step in Hn. destruct (at_pc l).
  1:{ destruct (todo l) as [|c rest]; [by inv_elem|]. right. exists c. f_equal.
      destruct c; simpl in Hn; repeat case_match; inv_elem; done. }
  all: left; repeat case_match; try (apply list_elem_of_fmap in Hn as (? & Hn & _); injection Hn as -> ->);
    inv_elem; rewrite ?udp_resume_todo; done.
Qed.

Lemma udp_todo_inv progs c :
  Forall (λ p, CReader ∉ p) progs → rtc (step next) (init cfg qs progs) c → Forall todo_ok (procs c).
Proof using HL.
  intros Hp. apply (inv_reachable next (λ c, Forall todo_ok (procs c))).
  - unfold init. simpl. apply Forall_fmap, Forall_app. split.
    + eapply Forall_impl; [exact Hp|]. intros p ?. by left.
    + apply Forall_replicate. by right.
  - intros a b Ha Hab. destruct Hab as [i l s0 s' l' ps Hl Hn]. simpl in *.
    apply Forall_insert; [done|]. pose proof (Forall_lookup_1 _ _ _ _ Ha Hl) as [Ht|Ht];
      destruct (udp_todo_step _ _ _ _ Hn) as [E|[x E]]; unfold todo_ok.
    + left. by rewrite E.
    + left. rewrite E in Ht. set_solver.
    + right. by rewrite E.
    + left. rewrite E in Ht. simplify_eq. rewrite H0. set_solver.
Qed.

(** The places where a goroutine can be blocked. *)
Lemma udp_blocked s l :
  next s l = [] → todo_ok l →
  finished s l ∨ in_read s l ∨ (at_pc l = SWait ∧ wg s ≠ 0) ∨
  (∃ k, at_pc l = COnce k ∧ once s = Some false) ∨ (at_pc l = HWait false ∧ done s = false).
Proof using HL.
  intros Hn Ht. open_udp Hn. destruct (at_pc l) eqn:Hpc; try (by repeat case_match).
  - left. split; [done|]. destruct (todo l) as [|c rest] eqn:El; [by left|right].
    destruct c; simpl in Hn; repeat case_match; try done.
    unfold todo_ok in Ht. rewrite El in Ht. destruct Ht as [Ht|Ht]; [set_solver|done].
  - do 2 right; left. split; [done|]. destruct (Z.eqb_spec (wg s) 0); done.
  - right; left. unfold read_step in Hn. case_bool_decide; [done|].
    destruct (queues s !! sock l) as [[|[d0|e] rest]|] eqn:Eq; try done; [split; [by eauto|done]|].
    simpl in Hn. destruct (_ `min` _)%nat eqn:Em; [lia|done].
  - do 3 right; left. exists k. repeat case_match; done.
  - do 4 right. repeat case_match; done.
Qed.

Section stuck.
Context (c : conf) (Hi : udp_inv c) (Ht : Forall todo_ok (procs c)) (Hstuck : stuck c).

Lemma udp_stuck_blocked l : l ∈ procs c →
  finished (shared c) l ∨ in_read (shared c) l ∨ (at_pc l = SWait ∧ wg (shared c) ≠ 0) ∨
  (∃ k, at_pc l = COnce k ∧ once (shared c) = Some false) ∨
  (at_pc l = HWait false ∧ done (shared c) = false).
Proof using All. intros Hl. rewrite Forall_forall in Ht. apply udp_blocked; auto. Qed.

Lemma udp_stuck_once : once (shared c) ≠ Some false.
Proof using All.
  intros Ho. pose proof (n_closer _ Hi) as E. unfold closing_now in E. rewrite decide_True in E by done.
  destruct (zsum_pos_elem closer (procs c) closer_nonneg ltac:(lia)) as (l & Hl & Hp). unfold closer in Hp.
  destruct (udp_stuck_blocked l Hl) as [[Hpc _]|[[[? Hpc] _]|[[Hpc _]|[(? & Hpc & _)|[Hpc _]]]]];
    rewrite Hpc in Hp; lia.
Qed.

Lemma udp_stuck_spawned : spawned (shared c) = [].
Proof using All.
  destruct (spawned (shared c)) as [|x xs] eqn:Hsp; [done|]. exfalso.
  pose proof (n_idle _ Hi) as Hid. unfold waiting in Hid. rewrite Hsp in Hid. simpl in Hid.
  pose proof (zsum_nonneg (room cfg) (procs c) (room_nonneg cfg)).
  destruct (zsum_pos_elem idle (procs c) udp_idle_nonneg) as (l & Hl & Hp); [case_match; lia|].
  pose proof (Hstuck l Hl) as Hn. unfold idle in Hp. unfold Udp.next in Hn.
  destruct (at_pc l); try lia. destruct (todo l) as [|[] []]; try lia. simpl in Hn. by rewrite Hsp in Hn.
Qed.

(** Once the Conn is closed, no reader is blocked and the WaitGroup is zero. *)
Lemma stuck_closed : once (shared c) ≠ None → wg (shared c) = 0 ∧ ∀ l, l ∈ procs c → ¬ in_read (shared c) l.
Proof using All.
  intros Ho. pose proof udp_stuck_once as Hno. destruct (once (shared c)) as [[|]|] eqn:Eo; try done.
  destruct (n_true _ Hi Eo) as (_ & _ & Hup). destruct (n_qs _ Hi) as (_ & _ & Hpos).
  assert (∀ l, l ∈ procs c → ¬ in_read (shared c) l) as Hnr.
  { intros l Hl (_ & Hlt & _). pose proof (sock_lt cfg l Hpos). lia. }
  split; [|done]. rewrite (n_wg _ Hi), udp_stuck_spawned. simpl. rewrite zsum_zero; [done|].
  intros l Hl. unfold active. destruct (udp_stuck_blocked l Hl) as [[Hpc _]|[Hr|[[Hpc _]|[(? & Hpc & ?)|[Hpc _]]]]];
    [by rewrite Hpc|by destruct (Hnr l Hl)|by rewrite Hpc|congruence|by rewrite Hpc].
Qed.

Lemma stuck_finished l : once (shared c) ≠ None → l ∈ procs c → finished (shared c) l.
Proof using All.
  intros Ho Hl. destruct (stuck_closed Ho) as [Hw Hnr]. pose proof udp_stuck_once as Hno.
  assert (∀ y, y ∈ procs c → finished (shared c) y ∨ at_pc y = HWait false ∧ done (shared c) = false) as Hall.
  { intros y Hy. destruct (udp_stuck_blocked y Hy) as [?|[?|[[_ ?]|[(? & _ & ?)|?]]]]; auto; try done.
    by destruct (Hnr y Hy). }
  destruct (Hall l Hl) as [?|[Hpc Hd]]; [done|exfalso].
  pose proof (n_place _ Hi) as Hp. rewrite Forall_forall in Hp. specialize (Hp l Hl). unfold place in Hp.
  rewrite Hpc in Hp. destruct Hp as [_ Hsv].
  pose proof (n_serve _ Hi) as E. unfold serving_now in E. rewrite Hsv, Hd in E. simpl in E.
  destruct (zsum_pos_elem in_serve (procs c) in_serve_nonneg ltac:(lia)) as (y & Hy & Hp).
  unfold in_serve in Hp. destruct (Hall y Hy) as [[Hpc' _]|[Hpc' _]]; rewrite Hpc' in Hp; lia.
Qed.
End stuck.

(** A Conn in which nothing moves. *)
Lemma udp_stuck_finished progs c :
  Forall (λ p, CReader ∉ p) progs → rtc (step next) (init cfg qs progs) c → stuck c →
  Forall (λ l, finished (shared c) l ∨ in_read (shared c) l ∨ at_pc l = SWait) (procs c) ∧
  (once (shared c) ≠ None → Forall (finished (shared c)) (procs c)).
Proof using HL.
  intros Hp Hr Hst. pose proof (udp_reachable progs c Hr) as Hi. pose proof (udp_todo_inv progs c Hp Hr) as Ht.
  split; [|intros Ho; apply Forall_forall; intros l Hl; by apply (stuck_finished c Hi Ht Hst)].
  apply Forall_forall. intros l Hl.
  destruct (udp_stuck_blocked c Hi Ht Hst l Hl) as [?|[?|[[? _]|[(? & _ & Ho)|[Hpc _]]]]]; auto.
  - by destruct (udp_stuck_once c Hi Ht Hst).
  - left. apply (stuck_finished c Hi Ht Hst); [|done].
    pose proof (n_place _ Hi) as Hpl. rewrite Forall_forall in Hpl. specialize (Hpl l Hl). unfold place in Hpl.
    rewrite Hpc in Hpl. destruct Hpl as [-> _]. done.
Qed.

(** C28: A Conn does not deadlock, provided handlers return: when no goroutine
    can move, each has finished, or is a reader waiting for a datagram on an
    open socket, or Serve waiting for such readers. Once Close
    has begun, all have finished: blocked and backing-off readers stop, Serve
    returns, and so does a Shutdown whose context never ends. *)
Theorem udp_no_deadlock progs c :
  Forall (λ p, CReader ∉ p) progs → rtc (step next) (init cfg qs progs) c → stuck c →
  Forall (λ l, finished (shared c) l ∨ in_read (shared c) l ∨ at_pc l = SWait) (procs c) ∧
  (once (shared c) ≠ None → Forall (finished (shared c)) (procs c)).
Proof using HL. apply udp_stuck_finished. Qed.
End thms.

(** * A run *)

Module DemoConn.
(** Two readers share a socket; datagrams of at most 4 bytes, two per read. *)
Definition cfg : Config := mkConfig 4 2 2 1.
Definition ifs (_ : Z) : option string := None.
Definition from4 : list Z := [2; 0; 31; 144; 10; 0; 0; 1].
Definition from6 : list Z :=
  [10; 0; 0; 53; 0; 0; 0; 0; 0; 0; 0; 0; 0; 0; 0; 0; 0; 0; 255; 255; 10; 0; 0; 1; 0; 0; 0; 0].
Definition qs : list (list rx) :=
  [[Dgram (mkDgram [1; 2] (control_data [] (Some (mkCmsg 1 40 [7; 0; 0; 0]))) from4);
    Dgram (mkDgram [3; 4; 5; 6; 7] [] from4); RxErr (Some 105); Dgram (mkDgram [8] [] from6); RxErr (Some 9)]].
Definition start0 : @conf Sh Local := init cfg qs [[CServe]; [CShutdown false]].
(** The readers run until a fatal error closes the Conn and Serve returns;
    then Shutdown. *)
Definition mid : @conf Sh Local := drive (next cfg ifs ClassifyRead) 20 [0; 2; 3]%nat start0.
Definition last : @conf Sh Local := drive (next cfg ifs ClassifyRead) 100 [0; 2; 3; 1]%nat mid.

Lemma conn_mid_run : rtc (step (next cfg ifs ClassifyRead)) start0 mid.
Proof. apply drive_sound. Qed.
Lemma conn_last_run : rtc (step (next cfg ifs ClassifyRead)) start0 last.
Proof. etrans; [apply conn_mid_run|apply drive_sound]. Qed.

Lemma demo_listening : listening cfg qs.
Proof. split; [done|done|done|]. repeat constructor; simpl; lia. Qed.
End DemoConn.

Lemma udp_delivery_witness :
  ∃ l, procs DemoConn.last !! 2%nat = Some l ∧
    Data <$> calls l = [[1; 2]; [8]] ∧
    calls l = packets_of DemoConn.cfg DemoConn.ifs (rdr l) (got l).
Proof.
  destruct (procs DemoConn.last !! 2%nat) as [l|] eqn:Hl; [|vm_compute in Hl; discriminate Hl].
  exists l. split; [done|].
  destruct (udp_delivery DemoConn.cfg DemoConn.ifs ClassifyRead DemoConn.qs DemoConn.demo_listening
    [[CServe]; [CShutdown false]] DemoConn.last 2 l DemoConn.conn_last_run Hl) as (_ & _ & H).
  vm_compute in Hl. injection Hl as <-. split; [vm_compute; reflexivity|]. apply H; reflexivity.
Defined.

Lemma udp_Serve_end_witness :
  closed (shared DemoConn.last) = true ∧ fatal (shared DemoConn.last) = Some (Some 9).
Proof.
  destruct (udp_Serve_end DemoConn.cfg DemoConn.ifs ClassifyRead DemoConn.qs DemoConn.demo_listening
    [[CServe]; [CShutdown false]] DemoConn.last DemoConn.conn_last_run) as (_ & H & _).
  destruct (procs DemoConn.last !! 0%nat) as [l|] eqn:Hl; [|vm_compute in Hl; discriminate Hl].
  destruct (H l (Some (Some 9))) as (_ & _ & _ & H1 & H2).
  - by eapply list_elem_of_lookup_2.
  - vm_compute in Hl. injection Hl as <-. by left.
  - by split.
Defined.

Lemma udp_no_deadlock_witness :
  Forall (finished (shared DemoConn.last)) (procs DemoConn.last).
Proof.
  apply (udp_no_deadlock DemoConn.cfg DemoConn.ifs ClassifyRead DemoConn.qs DemoConn.demo_listening
    [[CServe]; [CShutdown false]] DemoConn.last).
  - repeat constructor; set_solver.
  - apply DemoConn.conn_last_run.
  - apply udp_stuck_check. vm_compute. reflexivity.
  - vm_compute. discriminate.
Defined.
