(* ===== verification/UdpTerm.v ===== *)
(** Package udp: every run of a Conn ends ([src/udp/udp.go]).

    [UdpThms] shows that a Conn that cannot move has finished, or waits for
    datagrams. Here a weight shows that it cannot move forever. The retries of
    a drop counter's compare and swap are paid for by the reader whose swap
    succeeded: it makes at most every other reader's value stale. *)
From S2P Require Import Prelude Interleave Internal Sys UdpDrops Udp UdpRead UdpInv UdpThms.

Local Open Scope nat_scope.

Section term.
Context (cfg : Config) (InterfaceByIndex : Z → option string) (classify : option Z → ReadErr).
Context (N : nat).      (* goroutines *)
Local Abbreviation next := (Udp.next cfg InterfaceByIndex classify).
Local Abbreviation R := (Z.to_nat (readers cfg)).

(** * Weights *)
Definition last_of (s : Sh) (l : Local) : option Z := last <$> drops s !! sock cfg l.

(** A swap that will fail costs two actions more than one that succeeds. *)
Definition weight_obs (cur : option Z) (p : obs) : nat :=
  match p with
  | ObsLoad _ => 2 * N + 5
  | ObsCas prev _ => if bool_decide (cur = Some prev) then 2 * N + 4 else 2 * N + 6
  | ObsAdd _ => 2
  | ObsDone => 1
  end.
Definition weight_msg : nat := 2 * N + 10.
Definition weight_kont (k : kont) : nat := match k with KReader => 2 | KReturn _ => 0 | KShutdown _ => 2 end.
Definition weight_pc (cur : option Z) (p : pc) : nat :=
  match p with
  | Ready => 0
  | SSpawn i => (R - i) + 5 | SWait => 4 | SFatal => 3 | SDone _ => 2
  | RRead _ => 3
  | RMsgs ms => weight_msg * length ms + 4
  | RObs p _ rest => weight_msg * length rest + 7 + weight_obs cur p
  | RCount _ rest => weight_msg * length rest + 7
  | RBytes _ rest => weight_msg * length rest + 6
  | RCall _ rest => weight_msg * length rest + 5
  | RFailed _ _ => 8 | RWait _ => 4 | RFatal _ => 7 | RDone => 2
  | COnce k => weight_kont k + 4 | CSet k => weight_kont k + 3
  | CChan k => weight_kont k + 2 | CSock k => weight_kont k + 1
  | HServing _ => 2 | HWait _ => 1
  end.
Definition weight (s : Sh) (l : Local) : nat :=
  weight_pc (last_of s l) (at_pc l) + (R + 10) * length (todo l).
(** Datagrams and errors not yet read, and sockets not yet closed. *)
Definition weight_conn (s : Sh) : nat :=
  (weight_msg + 2) * sum_list (length <$> queues s) + (nsockn cfg - closedUpto s).

Lemma weight_slack s s' l : weight s' l <= weight s l + 2.
Proof.
  unfold weight, weight_pc, weight_obs. destruct (at_pc l) as [| | | | | | |p| | | | | | | | | | | | |]; try lia.
  destruct p; try lia. repeat case_bool_decide; lia.
Qed.

Lemma weight_same s s' l : last_of s' l = last_of s l → weight s' l = weight s l.
Proof. intros H. unfold weight. by rewrite H. Qed.

Lemma last_of_set s i d d' l :
  drops s !! i = Some d → last d' = last d → last_of (set_drop s i d') l = last_of s l.
Proof.
  intros Hd Hl. unfold last_of. simpl. destruct (decide (sock cfg l = i)) as [->|Hne].
  - rewrite list_lookup_insert_eq by (by eapply lookup_lt_Some). rewrite Hd. simpl. by rewrite Hl.
  - by rewrite list_lookup_insert_ne.
Qed.

Lemma conn_weight_resume s l k :
  weight s (resume l k) = weight_kont k + (R + 10) * length (todo l).
Proof. by destruct k. Qed.

Lemma leading_length q : length (leading q) <= length q.
Proof. induction q as [|[d|e] q IH]; simpl; lia. Qed.

(** An action loses weight, even if all goroutines gain what they may. *)
Definition lighter (s : Sh) (l : Local) (s' : Sh) (l' : Local) : Prop :=
  ∃ d, (∀ x, weight s' x <= weight s x + d) ∧
       weight_conn s' + weight s' l' + d * N < weight_conn s + weight s l.

Lemma lighter_same s l s' l' :
  (∀ x, last_of s' x = last_of s x) →
  weight_conn s' + weight s' l' < weight_conn s + weight s l → lighter s l s' l'.
Proof.
  intros Hd Hw. exists 0. split; [|lia]. intros x. rewrite (weight_same s s' x (Hd x)). lia.
Qed.

(** An action that leaves the drop counters alone. *)
Local Ltac weigh :=
  apply lighter_same; [done|]; unfold weight_conn; rewrite ?conn_weight_resume; unfold weight; simpl;
  try match goal with H : at_pc _ = _ |- _ => rewrite H end; simpl;
  try match goal with H : todo _ = _ :: _ |- _ => rewrite H end;
  cbn [length]; rewrite ?Nat.mul_succ_r; unfold weight_msg; lia.

(** One action of [dropCounter.observe]. *)
Lemma obs_lighter s l p m rest d d' p' :
  at_pc l = RObs p m rest → drops s !! sock cfg l = Some d → observe d p = Some (d', p') →
  lighter s l (set_drop s (sock cfg l) d') (goto l (RObs p' m rest)).
Proof.
  intros Hpc Hd Hobs.
  assert (Hcur : last_of s l = Some (last d)) by (unfold last_of; by rewrite Hd).
  assert (Hself : last_of (set_drop s (sock cfg l) d') (goto l (RObs p' m rest)) = Some (last d')).
  { unfold last_of. simpl. change (sock cfg (goto l (RObs p' m rest))) with (sock cfg l).
    by rewrite list_lookup_insert_eq by (by eapply lookup_lt_Some). }
  assert (Hw : weight s l = weight_msg * length rest + 7 + weight_obs (Some (last d)) p + (R + 10) * length (todo l))
    by (unfold weight; by rewrite Hpc, Hcur).
  assert (Hw' : weight (set_drop s (sock cfg l) d') (goto l (RObs p' m rest)) =
    weight_msg * length rest + 7 + weight_obs (Some (last d')) p' + (R + 10) * length (todo l))
    by (unfold weight; by rewrite Hself).
  destruct p as [raw|prev raw|dl|]; simpl in Hobs; [| | |done].
  - injection Hobs as <- <-. apply lighter_same; [intros x; by apply (last_of_set s _ d)|].
    rewrite Hw, Hw'. change (weight_conn (set_drop s (sock cfg l) d)) with (weight_conn s).
    destruct (_ <=? 0)%Z; simpl; [lia|]. rewrite bool_decide_eq_true_2 by done. lia.
  - destruct (Z.eqb_spec (last d) prev) as [<-|Hne]; injection Hobs as <- <-.
    + exists 2. split; [intros x; apply weight_slack|]. rewrite Hw, Hw'.
      change (weight_conn (set_drop s (sock cfg l) (mkDrop raw (total d)))) with (weight_conn s).
      simpl. rewrite bool_decide_eq_true_2 by done. lia.
    + apply lighter_same; [intros x; by apply (last_of_set s _ d)|]. rewrite Hw, Hw'.
      change (weight_conn (set_drop s (sock cfg l) d)) with (weight_conn s).
      simpl. rewrite bool_decide_eq_false_2 by congruence. lia.
  - injection Hobs as <- <-. apply lighter_same; [intros x; by apply (last_of_set s _ d)|].
    rewrite Hw, Hw'. change (weight_conn (set_drop s (sock cfg l) _)) with (weight_conn s). simpl. lia.
Qed.

(** A read takes what it returns from the socket. *)
Lemma read_lighter s l d s' l' :
  at_pc l = RRead d → (s', l') ∈ read_step cfg s l d → crashed s' = false → lighter s l s' l'.
Proof.
  intros Hpc Hn Hcr. unfold read_step in Hn. case_bool_decide; [inv_elem; weigh|].
  destruct (queues s !! sock cfg l) as [q|] eqn:Hq; [|inv_elem; done].
  assert (Hsum : ∀ q', sum_list (length <$> <[sock cfg l:=q']> (queues s)) + length q =
                       sum_list (length <$> queues s) + length q')
    by (intros; by apply weight_insert).
  destruct q as [|[d0|e] rest]; [by inv_elem| |].
  - apply list_elem_of_fmap in Hn as (k & [= -> ->] & Hk%elem_of_seq).
    apply lighter_same; [done|]. unfold weight_conn, weight. simpl. rewrite Hpc, length_imap, length_take.
    specialize (Hsum (drop k (Dgram d0 :: rest))). rewrite length_drop in Hsum.
    assert (length (leading (Dgram d0 :: rest)) <= length (Dgram d0 :: rest)) by apply leading_length.
    assert (k <= length (Dgram d0 :: rest)) by lia. unfold weight_msg. simpl in *. nia.
  - inv_elem. apply lighter_same; [done|]. unfold weight_conn, weight. simpl. rewrite Hpc.
    specialize (Hsum rest). simpl in Hsum. unfold weight_msg. nia.
Qed.

Lemma conn_lighter s l s' l' :
  (s', l') ∈ next s l → crashed s' = false → lighter s l s' l'.
Proof.
  intros Hn Hcr. unfold Udp.next in Hn.
  destruct (at_pc l) eqn:Hpc; open_udp Hn; try (by eapply read_lighter);
    repeat case_match; inv_elem; try done; try weigh.
  - apply bool_decide_eq_true in H. apply lighter_same; [done|].
    unfold weight_conn, weight. simpl. rewrite Hpc. simpl. lia.
  - by eapply obs_lighter.
  - apply lighter_same; [done|]. unfold weight. simpl. rewrite Hpc.
    match goal with H : observe ?d ?p = None |- _ => destruct p; simplify_eq/= end;
      repeat case_match; simplify_eq/=; lia.
  - apply bool_decide_eq_true in H. apply lighter_same; [done|].
    unfold weight_conn, weight. simpl. rewrite Hpc. simpl. lia.
Qed.

(** * Runs *)
Definition total (c : conf) : nat :=
  weight_conn (shared c) + sum_list (weight (shared c) <$> procs c).

Lemma sum_others s s' d (i : nat) l l' ps :
  (∀ x, weight s' x <= weight s x + d) → ps !! i = Some l →
  sum_list (weight s' <$> <[i:=l']> ps) + weight s l <=
  sum_list (weight s <$> ps) + weight s' l' + d * length ps.
Proof.
  intros Hd. assert (Hall : ∀ xs, sum_list (weight s' <$> xs) <= sum_list (weight s <$> xs) + d * length xs).
  { intros xs. induction xs as [|x xs IH]; simpl; [lia|]. specialize (Hd x). unfold fmap in IH. lia. }
  revert i. induction ps as [|x xs IH]; intros [|i] Hi; simplify_eq/=.
  - specialize (Hall xs). lia.
  - specialize (IH i Hi). specialize (Hd x). lia.
Qed.

Lemma conn_step_total c c' :
  length (procs c) = N → crashed (shared c') = false → step next c c' → total c' < total c.
Proof.
  intros HN Hcr Hs. destruct Hs as [i l s s' l' ps Hi Hn]. simpl in *.
  destruct (conn_lighter s l s' l' Hn Hcr) as (d & Hd & Hw). unfold total. simpl.
  pose proof (sum_others s s' d i l l' ps Hd Hi). rewrite HN in *. lia.
Qed.

Lemma runs_total (qs : list (list rx)) (HL : listening cfg qs) n c c' :
  udp_inv cfg InterfaceByIndex classify qs c → length (procs c) = N →
  nsteps (step next) n c c' → n + total c' <= total c.
Proof.
  intros Hi HN Hn. induction Hn as [|n c c1 c2 Hs _ IH]; [lia|].
  assert (Hi1 : udp_inv cfg InterfaceByIndex classify qs c1) by (by eapply udp_step).
  assert (HN1 : length (procs c1) = N) by (rewrite <- HN; by eapply step_length).
  pose proof (conn_step_total c c1 HN (n_crash _ _ _ _ _ Hi1) Hs). specialize (IH Hi1 HN1). lia.
Qed.

Lemma weight_fresh s (progs : list (list call)) :
  sum_list (weight s <$> (fresh_local <$> progs)) = (R + 10) * length (concat progs).
Proof.
  induction progs as [|p progs IH]; [simpl; lia|]. cbn [fmap list_fmap sum_list concat] in *.
  rewrite IH, length_app. unfold weight. simpl. lia.
Qed.
End term.

(** The bound on runs. *)
Lemma udp_bounded cfg InterfaceByIndex classify qs progs steps c :
  listening cfg qs →
  nsteps (step (Udp.next cfg InterfaceByIndex classify)) steps (init cfg qs progs) c →
  let r := Z.to_nat (readers cfg) in
  let g := length progs + r in
  steps <= (2 * g + 12) * length (concat qs) + nsockn cfg + (r + 10) * (length (concat progs) + r).
Proof.
  intros HL Hrun r g.
  pose proof (runs_total cfg InterfaceByIndex classify g qs HL steps _ c (udp_init _ _ _ _ HL progs)) as H.
  assert (Hlen : length (procs (init cfg qs progs)) = g)
    by (simpl; rewrite length_fmap, length_app, length_replicate; done).
  specialize (H Hlen Hrun).
  enough (total cfg g (init cfg qs progs) =
    (2 * g + 12) * length (concat qs) + nsockn cfg + (r + 10) * (length (concat progs) + r)) by lia.
  unfold total. simpl procs. rewrite weight_fresh, concat_app, length_app. unfold weight_conn, weight_msg. simpl.
  assert (length (concat (replicate (Z.to_nat (readers cfg)) [CReader])) = r) as ->.
  { unfold r. clear. induction (Z.to_nat (readers cfg)); simpl; lia. }
  assert (sum_list (length <$> qs) = length (concat qs)) as ->.
  { clear. induction qs as [|q qs IH]; [done|]. csimpl. rewrite IH, length_app. done. }
  fold r. lia.
Qed.

(** C29: Every run of a Conn ends, whatever the schedule and however its
    readers contend for the drop counters: with [k] datagrams and errors at
    its sockets, [n] calls, [r] readers and [g] goroutines in all, no run has
    more than [(2 g + 12) k + (r + 10) (n + r)] actions and one per socket. *)
Theorem udp_runs_end cfg InterfaceByIndex classify qs progs steps c :
  listening cfg qs →
  nsteps (step (Udp.next cfg InterfaceByIndex classify)) steps (init cfg qs progs) c →
  let r := Z.to_nat (readers cfg) in
  let g := length progs + r in
  steps <= (2 * g + 12) * length (concat qs) + nsockn cfg + (r + 10) * (length (concat progs) + r).
Proof. apply udp_bounded. Qed.

(** The run of [DemoConn] up to its middle. *)
Lemma udp_runs_end_witness :
  ∃ n c, nsteps (step (Udp.next DemoConn.cfg DemoConn.ifs ClassifyRead)) n
           (init DemoConn.cfg DemoConn.qs [[CServe]; [CShutdown false]]) c ∧ 0 < n ∧
    n <= (2 * 4 + 12) * 5 + 1 + (2 + 10) * (2 + 2).
Proof.
  set (sched := [(0, 0); (0, 0); (0, 0); (2, 0); (2, 1)]).
  destruct (run (Udp.next DemoConn.cfg DemoConn.ifs ClassifyRead) sched
     (init DemoConn.cfg DemoConn.qs [[CServe]; [CShutdown false]])) as [c|] eqn:E;
    [|vm_compute in E; discriminate E].
  exists (length sched), c. assert (Hn := run_nsteps _ _ _ _ E). split_and!; [exact Hn|simpl; lia|].
  apply (udp_runs_end DemoConn.cfg DemoConn.ifs ClassifyRead DemoConn.qs [[CServe]; [CShutdown false]] _ c).
  - exact DemoConn.demo_listening.
  - exact Hn.
Defined.
