(* ===== verification/UdpEcho.v ===== *)
(** Package udp: WriteTo and Reply as a whole, and the UDP echo example
    ([src/udp/udp.go], [src/examples/udp-echo], [src/examples/udp-client]).

    [Udp] has the choice of the socket and the counters of a write; here they
    make up Reply over the sockets of a Conn, and the handler of udp-echo is
    composed with the readers of [Udp]: what a client sent comes back to it. *)
From S2P Require Import Prelude Interleave Internal Sys UdpDrops Udp UdpSend UdpRead UdpInv UdpThms.

Local Open Scope Z_scope.

(** * WriteTo and Reply *)

(** A datagram handed to the kernel: the socket, the bytes and the destination
    ([None]: the zero AddrPort). *)
Record outgoing := mkOut { osock : nat; odata : list Z; oto : option AddrPort }.

Definition port_of (to : option AddrPort) : Z := match to with Some a => ap_port a | None => 0 end.

Section writes.
Context (cfg : Config).

(** [write] on socket [i] of the Conn; [r] is what the kernel does. [None]: the
    index is out of range. *)
Definition sock_write (sends : list sendStats) (i : Z) (b : list Z) (to : option AddrPort) (r : sent) :
    option (list sendStats * list outgoing * option werr) :=
  let len := Z.of_nat (length b) in
  if MaxDatagram <? len then Some (sends, [], Some ErrTooLarge)
  else
    st ← sends !! Z.to_nat i;
    let '(st', _, e) := write st len r in
    Some (<[Z.to_nat i := st']> sends,
          match r with Sent _ => [mkOut (Z.to_nat i) b to] | _ => [] end, e).

Definition WriteTo (sends : list sendStats) (b : list Z) (to : option AddrPort) (r : sent) :=
  sock_write sends (WriteTo_sock cfg (port_of to)) b to r.

(** A packet's Reader is a natural number here, so of the range check only the
    upper end is left; [None] is the nil packet. *)
Definition Reply (sends : list sendStats) (p : option Packet) (b : list Z) (r : sent) :=
  match p with
  | None => Some (sends, [], Some ErrNilPacket)
  | Some p =>
      if bool_decide (readers cfg <= Z.of_nat (Reader p)) then WriteTo sends b (From p) r
      else sock_write sends (Z.rem (Z.of_nat (Reader p)) (nsock cfg)) b (From p) r
  end.

(** The handler of udp-echo: [_ = c.Reply(p, p.Data)]. *)
Definition echo (sends : list sendStats) (p : Packet) (r : sent) : option (list sendStats * list outgoing) :=
  '(sends', out, _) ← Reply sends (Some p) (Data p) r; Some (sends', out).

(** Its calls, one after the other. *)
Fixpoint echo_all (sends : list sendStats) (ps : list (Packet * sent)) : option (list sendStats * list outgoing) :=
  match ps with
  | [] => Some (sends, [])
  | (p, r) :: rest =>
      '(sends1, out) ← echo sends p r;
      '(sends2, outs) ← echo_all sends1 rest;
      Some (sends2, out ++ outs)
  end.

(** udp-client's read, into a buffer of 65535 bytes. *)
Definition client_read (b : list Z) : list Z := take (Z.to_nat 65535) b.
End writes.

(** * Readers stay within the Conn's *)
Section bound.
Context (cfg : Config) (InterfaceByIndex : Z → option string) (classify : option Z → ReadErr).
Local Abbreviation next := (next cfg InterfaceByIndex classify).

Definition in_range (i : nat) : Prop := Z.of_nat i < readers cfg.

Lemma rdr_step s l s' l' :
  (s', l') ∈ next s l → Forall in_range (spawned s) → in_range (rdr l) →
  Forall in_range (spawned s') ∧ in_range (rdr l').
Proof.
  intros Hn Hs Hl. unfold Udp.next in Hn.
  destruct (at_pc l) eqn:Hpc; open_udp Hn; unfold read_step, msgs_step, obs_step, count_step, call_step in Hn;
    repeat case_match; inv_elem; simpl; try done.
  - by apply Forall_cons in Hs as [? ?].
  - split; [|done]. apply Forall_app_2; [done|]. constructor; [|constructor].
    by apply bool_decide_eq_true in H.
  - apply list_elem_of_fmap in Hn as (k & [= -> ->] & _). done.
  - by rewrite (proj2 (resume_frame l k)).
  - by rewrite (proj2 (resume_frame l k)).
Qed.

Lemma rdr_reachable qs progs c :
  1 <= readers cfg → rtc (step next) (init cfg qs progs) c →
  Forall in_range (spawned (shared c)) ∧ Forall (λ l, in_range (rdr l)) (procs c).
Proof.
  intros Hr.
  apply (inv_reachable next (λ c, Forall in_range (spawned (shared c)) ∧ Forall (λ l, in_range (rdr l)) (procs c))).
  - split; [constructor|]. apply Forall_fmap, Forall_true. intros p. unfold in_range, compose. simpl. lia.
  - intros a b [Ha Hl] Hab. destruct Hab as [i l s s' l' ps Hi Hn]. simpl in *.
    destruct (rdr_step s l s' l' Hn Ha) as [H1 H2]; [by eapply Forall_lookup_1 in Hl|].
    split; [done|]. by apply Forall_insert.
Qed.
End bound.

(** * Replies *)
Section replies.
Context (cfg : Config).

(** The datagram that leaves for packet [p] when the kernel answers [r]. *)
Definition reply_packet (p : Packet) (r : sent) : option outgoing :=
  match r with
  | Sent _ => Some (mkOut (Reader p `mod` nsockn cfg)%nat (Data p) (From p))
  | _ => None
  end.

(** A reply goes out on the reader's socket, if the kernel takes it. *)
Lemma echo_sent sends p r :
  1 <= nsock cfg → length sends = nsockn cfg → in_range cfg (Reader p) →
  Z.of_nat (length (Data p)) <= MaxDatagram →
  ∃ sends', echo cfg sends p r = Some (sends', option_list (reply_packet p r)) ∧
            length sends' = length sends.
Proof.
  intros Hn Hlen Hr Hd. unfold echo, Reply. unfold in_range in Hr.
  rewrite bool_decide_eq_false_2 by lia. unfold sock_write.
  destruct (Z.ltb_spec MaxDatagram (Z.of_nat (length (Data p)))) as [|_]; [lia|].
  assert (Z.to_nat (Z.rem (Z.of_nat (Reader p)) (nsock cfg)) = Reader p `mod` nsockn cfg)%nat as ->.
  { unfold nsockn. rewrite Z.rem_mod_nonneg, Z2Nat.inj_mod, Nat2Z.id by lia. done. }
  destruct (lookup_lt_is_Some_2 sends (Reader p `mod` nsockn cfg)%nat) as [st ->].
  { rewrite Hlen. apply Nat.mod_upper_bound. unfold nsockn. lia. }
  simpl. destruct (write st _ _) as [[st' u] e]. simpl. eexists.
  split; [by destruct r|]. by rewrite length_insert.
Qed.

Lemma echo_all_sent ps : ∀ sends rs,
  1 <= nsock cfg → length sends = nsockn cfg →
  Forall (λ p, in_range cfg (Reader p) ∧ Z.of_nat (length (Data p)) <= MaxDatagram) ps →
  ∃ sends', echo_all cfg sends (zip ps rs) =
    Some (sends', omap (λ x, reply_packet x.1 x.2) (zip ps rs)).
Proof.
  induction ps as [|p ps IH]; intros sends [|r rs] Hn Hlen Hps; try (simpl; by eauto).
  apply Forall_cons in Hps as [[Hr Hd] Hps].
  destruct (echo_sent sends p r Hn Hlen Hr Hd) as (s1 & E1 & Hl1). simpl. rewrite E1. simpl.
  destruct (IH s1 rs) as (s2 & E); [done|lia|done|]. rewrite E. simpl.
  exists s2. f_equal. f_equal. by destruct (reply_packet p r).
Qed.
End replies.

Section compose.
Context (cfg : Config) (InterfaceByIndex : Z → option string) (classify : option Z → ReadErr).
Context (qs : list (list rx)).
Local Abbreviation next := (next cfg InterfaceByIndex classify).

(** The reply to datagram [d] that socket [s] should send. *)
Definition reply_to (s : nat) (d : dgram) : outgoing :=
  mkOut s (payload d) (Unmap_port <$> net_addr InterfaceByIndex (sa d)).

(** What leaves socket [s] for the datagrams [ds] when the kernel answers [rs]. *)
Definition replies (s : nat) (ds : list dgram) (rs : list sent) : list outgoing :=
  omap (λ x, match x.2 with Sent _ => Some (reply_to s x.1) | _ => None end) (zip ds rs).

Lemma packets_of_replies rdr ds : ∀ rs,
  omap (λ x, reply_packet cfg x.1 x.2) (zip (packets_of cfg InterfaceByIndex rdr ds) rs) =
  replies (rdr `mod` nsockn cfg)%nat (filter (λ d, cut cfg d = false) ds) rs.
Proof using.
  unfold packets_of, replies. induction ds as [|d ds IH]; intros rs; [done|].
  rewrite filter_cons. csimpl. unfold packet_of at 1. destruct (cut cfg d) eqn:E; csimpl.
  - by rewrite IH.
  - destruct rs as [|r rs]; [done|]. csimpl. rewrite IH. by destruct r.
Qed.

(** Every call of a reader is in range and fits a datagram. *)
Lemma calls_fit progs c i l :
  listening cfg qs → max cfg <= MaxDatagram →
  rtc (step next) (init cfg qs progs) c → procs c !! i = Some l →
  Forall (λ p, in_range cfg (Reader p) ∧ Z.of_nat (length (Data p)) <= MaxDatagram) (calls l).
Proof using.
  intros HL Hmax Hc Hl.
  destruct (calls_are_packets _ _ _ _ HL progs c i l Hc Hl) as (dn & _ & _ & ->).
  destruct (rdr_reachable cfg InterfaceByIndex classify qs progs c (h_readers _ _ HL) Hc) as [_ Hr].
  apply (Forall_lookup_1 _ _ _ _ Hr) in Hl.
  apply Forall_forall. intros p (d & _ & Hp)%list_elem_of_omap. unfold packet_of in Hp.
  destruct (cut cfg d) eqn:E; simplify_eq/=. split; [done|].
  unfold cut, maxn in E. apply bool_decide_eq_false in E. unfold MaxDatagram in *. lia.
Qed.

Lemma sublist_dgrams (l k : list rx) : l `sublist_of` k → omap dgram_of l `sublist_of` omap dgram_of k.
Proof using.
  induction 1 as [|x l k _ IH|x l k _ IH]; [done|..]; csimpl; destruct (dgram_of x); try done.
  - by apply sublist_skip.
  - by apply sublist_cons.
Qed.

(** C37: The UDP echo server sends back what it gets. In any run of a Conn
    whose handler is the one of udp-echo, a reader has handed over datagrams of
    one socket, in the socket's order; it replies, in that order, once to each
    that fits MaxPacket and only to those: on the very socket the datagram was
    read from, to its sender's address, with its own bytes. A reply is missing
    only where the kernel refuses the send ([rs] is what it answers); none is
    refused as too large, and a udp-client reads what arrives whole. *)
Theorem udp_echo_replies progs c i l sends rs :
  listening cfg qs → max cfg <= MaxDatagram →
  rtc (step next) (init cfg qs progs) c → procs c !! i = Some l →
  length sends = nsockn cfg →
  ∃ s q dn sends', qs !! s = Some q ∧ dn `sublist_of` omap dgram_of q ∧
    dn `prefix_of` got l ∧ (inflight (at_pc l) = [] → dn = got l) ∧
    length (calls l) = length (filter (λ d, cut cfg d = false) dn) ∧
    echo_all cfg sends (zip (calls l) rs) =
      Some (sends', replies s (filter (λ d, cut cfg d = false) dn) rs) ∧
    (∀ d, cut cfg d = false → client_read (odata (reply_to s d)) = payload d).
Proof using.
  intros HL Hmax Hc Hl Hs. pose proof (calls_fit progs c i l HL Hmax Hc Hl) as Hfit.
  destruct (calls_are_packets _ _ _ _ HL progs c i l Hc Hl) as (dn & Hdn & Hall & Hcalls).
  destruct (log_from_socket _ _ _ _ HL progs c i l Hc Hl) as (q & Hq & Hlog).
  destruct (echo_all_sent cfg (calls l) sends rs (h_sock _ _ HL) Hs Hfit) as [sends' Hecho].
  exists (sock cfg l), q, dn, sends'. split_and!; try done.
  - etrans; [|by apply sublist_dgrams]. destruct Hdn as [k Hk]. fold (got l). rewrite Hk.
    by apply sublist_inserts_r.
  - rewrite Hcalls. unfold packets_of. clear. induction dn as [|d dn IH]; [done|].
    rewrite filter_cons. csimpl. unfold packet_of at 1. destruct (cut cfg d) eqn:E; csimpl; by rewrite IH.
  - rewrite Hecho, Hcalls. by rewrite packets_of_replies.
  - intros d Hcut. unfold client_read, reply_to. simpl. apply take_ge.
    unfold cut, maxn in Hcut. apply bool_decide_eq_false in Hcut. unfold MaxDatagram in Hmax. lia.
Qed.

End compose.

(** The reader of the run in [DemoConn] has handed over two datagrams; the
    kernel takes the reply to the first. *)
Lemma udp_echo_replies_witness :
  ∃ l s q dn sends', procs DemoConn.last !! 2%nat = Some l ∧ length (calls l) = 2%nat ∧
    DemoConn.qs !! s = Some q ∧ dn `sublist_of` omap dgram_of q ∧
    echo_all DemoConn.cfg [mkSend 0 0 0] (zip (calls l) [Sent 2; SendClosed]) =
      Some (sends', replies DemoConn.ifs s (filter (λ d, cut DemoConn.cfg d = false) dn) [Sent 2; SendClosed]).
Proof.
  destruct (procs DemoConn.last !! 2%nat) as [l|] eqn:Hl; [|vm_compute in Hl; discriminate Hl].
  destruct (udp_echo_replies DemoConn.cfg DemoConn.ifs ClassifyRead DemoConn.qs
    [[CServe]; [CShutdown false]] DemoConn.last 2 l [mkSend 0 0 0] [Sent 2; SendClosed]
    DemoConn.demo_listening) as (s & q & dn & sends' & Hq & Hsub & _ & _ & _ & He & _).
  - unfold MaxDatagram. simpl. lia.
  - exact DemoConn.conn_last_run.
  - exact Hl.
  - reflexivity.
  - exists l, s, q, dn, sends'. split; [reflexivity|]. split; [|by split_and!].
    vm_compute in Hl. injection Hl as <-. reflexivity.
Defined.
