(* ===== verification/Socket.v ===== *)
(** Package socket ([src/socket]): which options a network takes, how they are
    applied before bind, and the verification of buffer sizes.

    The kernel is a parameter: how setsockopt changes a socket and what
    getsockopt reads. Code that calls it is written in a monad with the
    socket's state, a log of the calls, and errors. *)
From S2P Require Import Prelude.
From stdpp Require Import pretty.

Local Open Scope Z_scope.

(** * Options *)

Record KeepAlive := mkKeepAlive { Disable : bool; Idle : Z; Interval : Z; Count : Z }.
Record FastOpenOptions := mkFastOpen { Enabled : bool; Backlog : Z }.
Record Options := mkOptions {
  FastOpen : FastOpenOptions; ReusePort : bool; RecvBuffer : Z; SendBuffer : Z; Keep : KeepAlive }.

#[global] Instance KeepAlive_eq_dec : EqDecision KeepAlive.
Proof. solve_decision. Defined.
#[global] Instance FastOpenOptions_eq_dec : EqDecision FastOpenOptions.
Proof. solve_decision. Defined.
#[global] Instance Options_eq_dec : EqDecision Options.
Proof. solve_decision. Defined.

Definition noKeepAlive : KeepAlive := mkKeepAlive false 0 0 0.
Definition noOptions : Options := mkOptions (mkFastOpen false 0) false 0 0 noKeepAlive.

Definition IsZero (k : KeepAlive) : bool := bool_decide (k = noKeepAlive).

(** The duration and the configuration net gets; [None] is the zero
    configuration. *)
Definition apply (k : KeepAlive) : Z * option (Z * Z * Z) :=
  if Disable k then (-1, None)
  else if IsZero k then (0, None)
  else (0, Some (Idle k, Interval k, Count k)).

Inductive err :=
  | Unsupported (option platform : string)          (* UnsupportedOptionError *)
  | BufferSize (option : string) (requested actual : Z)   (* BufferSizeError *)
  | NilConn
  | OsErr (errno : Z).

#[global] Instance err_eq_dec : EqDecision err.
Proof. solve_decision. Defined.

Definition IsUnsupported (e : err) : bool := match e with Unsupported _ _ => true | _ => false end.

Definition isTCP (network : string) : bool :=
  bool_decide (network = "tcp") || bool_decide (network = "tcp4") || bool_decide (network = "tcp6").
Definition isUDP (network : string) : bool :=
  bool_decide (network = "udp") || bool_decide (network = "udp4") || bool_decide (network = "udp6").

Definition checkNetwork (network : string) (o : Options) : option err :=
  let where_ := String.append "network " network in
  if negb (isTCP network) && negb (isUDP network) then
    if decide (o = noOptions) then None else Some (Unsupported "socket options" where_)
  else if isUDP network && Enabled (FastOpen o) then Some (Unsupported "TCP Fast Open" where_)
  else if isUDP network && negb (IsZero (Keep o)) then Some (Unsupported "TCP keep-alive" where_)
  else None.

(** * The kernel *)

Class Kernel (K : Type) := {
  setsockopt : K → Z → Z → Z → K * option Z;      (* level, option, value; error number *)
  getsockopt : K → Z → Z → Z * option Z }.

Inductive event :=
  | Set_ (level opt value : Z) (errno : option Z)
  | Get (level opt value : Z) (errno : option Z).

Record world (K : Type) := mkWorld { kernel : K; log : list event }.
Arguments mkWorld {K} _ _.
Arguments kernel {K} _.
Arguments log {K} _.

Definition act (K A : Type) : Type := world K → world K * (err + A).

Section monad.
Context {K : Type} `{!Kernel K}.

Definition ret {A} (a : A) : act K A := λ w, (w, inr a).
Definition fail {A} (e : err) : act K A := λ w, (w, inl e).
Definition bind {A B} (m : act K A) (f : A → act K B) : act K B := λ w,
  match m w with (w', inl e) => (w', inl e) | (w', inr a) => f a w' end.
(** A call whose error is ignored. *)
Definition ignoring (m : act K unit) : act K unit := λ w, ((m w).1, inr ()).

Definition set_opt (level opt value : Z) : act K unit := λ w,
  let '(k, e) := setsockopt (kernel w) level opt value in
  (mkWorld k (log w ++ [Set_ level opt value e]), match e with Some n => inl (OsErr n) | None => inr () end).
Definition get_opt (level opt : Z) : act K Z := λ w,
  let '(v, e) := getsockopt (kernel w) level opt in
  (mkWorld (kernel w) (log w ++ [Get level opt v e]), match e with Some n => inl (OsErr n) | None => inr v end).
End monad.

Declare Scope act_scope.
Notation "'let!' x ':=' m 'in' k" := (bind m (λ x, k)) (at level 10, x name, m at level 200, k at level 200) : act_scope.
Notation "'do!' m 'then' k" := (bind m (λ _, k)) (at level 10, m at level 200, k at level 200) : act_scope.
Local Open Scope act_scope.

(** * Platforms *)

Inductive platform := Linux | Darwin | FreeBSD | Windows | OtherOS.

#[global] Instance platform_eq_dec : EqDecision platform.
Proof. solve_decision. Defined.

Definition GOOS (p : platform) : string :=
  match p with Linux => "linux" | Darwin => "darwin" | FreeBSD => "freebsd" | Windows => "windows" | OtherOS => "js" end.
Definition SOL_SOCKET (p : platform) : Z := match p with Linux => 1 | _ => 65535 end.
Definition IPPROTO_TCP : Z := 6.

Record bufferKind := mkKind { name : string; opt : Z; force : Z }.
Definition recvBufferKind (p : platform) : bufferKind :=
  match p with Linux => mkKind "receive buffer" 8 33 | _ => mkKind "receive buffer" 4098 0 end.
Definition sendBufferKind (p : platform) : bufferKind :=
  match p with Linux => mkKind "send buffer" 7 32 | _ => mkKind "send buffer" 4097 0 end.
Definition kernelDoublesBuffers (p : platform) : bool := match p with Linux => true | _ => false end.

(** The advice a platform has for a buffer the kernel cut. *)
Definition bufferHint_linux (option : string) : string :=
  if bool_decide (option = "send buffer") then "raise net.core.wmem_max, or run with CAP_NET_ADMIN"
  else "raise net.core.rmem_max, or run with CAP_NET_ADMIN".
Definition bufferHint_bsd (option : string) : string := "raise kern.ipc.maxsockbuf".
Definition bufferHint (p : platform) (option : string) : string :=
  match p with
  | Linux => bufferHint_linux option
  | Darwin | FreeBSD => bufferHint_bsd option
  | Windows | OtherOS => EmptyString
  end.

(** [BufferSizeError.Error]. *)
Definition BufferSizeError_Error (p : platform) (option : string) (requested actual : Z) : string :=
  let msg := "socket: " +:+ option +:+ ": requested " +:+ pretty requested +:+
             " bytes, kernel granted " +:+ pretty actual in
  let hint := bufferHint p option in
  if bool_decide (hint = EmptyString) then msg else msg +:+ " (" +:+ hint +:+ ")".

Example hint_names_the_limit :
  BufferSizeError_Error Linux (name (sendBufferKind Linux)) 65536 32768 =
  "socket: send buffer: requested 65536 bytes, kernel granted 32768 (raise net.core.wmem_max, or run with CAP_NET_ADMIN)".
Proof. vm_compute. reflexivity. Qed.

Section apply_options.
Context {K : Type} `{!Kernel K} (p : platform).

(** The size in use, in the units of the request. *)
Definition granted (doubled : bool) (v : Z) : Z := if doubled then Z.quot v 2 else v.

Definition readBuffer (k : bufferKind) (doubled : bool) : act K Z :=
  let! v := get_opt (SOL_SOCKET p) (opt k) in ret (granted doubled v).

Definition ensureBuffer (k : bufferKind) (requested : Z) (doubled : bool) : act K unit :=
  do! set_opt (SOL_SOCKET p) (opt k) requested then
  let! actual0 := readBuffer k doubled in
  let! actual :=
    (if (actual0 <? requested) && negb (force k =? 0)
     then do! ignoring (set_opt (SOL_SOCKET p) (force k) requested) then readBuffer k doubled
     else ret actual0) in
  if actual <? requested then fail (BufferSize (name k) requested actual) else ret ().

(** buffers_unix.go, buffers_windows.go and buffers_other.go. *)
Definition applyBuffers_unix (o : Options) : act K unit :=
  do! (if 0 <? RecvBuffer o
       then ensureBuffer (recvBufferKind p) (RecvBuffer o) (kernelDoublesBuffers p) else ret ()) then
  (if 0 <? SendBuffer o
   then ensureBuffer (sendBufferKind p) (SendBuffer o) (kernelDoublesBuffers p) else ret ()).
Definition applyBuffers_windows (o : Options) : act K unit :=
  do! (if 0 <? RecvBuffer o then ensureBuffer (recvBufferKind p) (RecvBuffer o) false else ret ()) then
  (if 0 <? SendBuffer o then ensureBuffer (sendBufferKind p) (SendBuffer o) false else ret ()).
Definition applyBuffers_other (o : Options) : act K unit :=
  if (0 <? RecvBuffer o) || (0 <? SendBuffer o)
  then fail (Unsupported "socket buffer sizes" (GOOS p)) else ret ().

(** The build picks one. *)
Definition applyBuffers (o : Options) : act K unit :=
  match p with
  | Linux | Darwin | FreeBSD => applyBuffers_unix o
  | Windows => applyBuffers_windows o
  | OtherOS => applyBuffers_other o
  end.

(** ENOPROTOOPT and EOPNOTSUPP (equal to ENOTSUP on Linux). *)
Definition no_fast_open (errno : Z) : bool :=
  match p with
  | Linux => (errno =? 92) || (errno =? 95)
  | Darwin => (errno =? 42) || (errno =? 102) || (errno =? 45)
  | _ => (errno =? 42) || (errno =? 45)
  end.
Definition fastOpenResult (m : act K unit) : act K unit := λ w,
  match m w with
  | (w', inl (OsErr e)) => if no_fast_open e then (w', inr ()) else (w', inl (OsErr e))
  | r => r
  end.

(** options_linux.go, options_darwin.go, options_freebsd.go and options_other.go. *)
Definition applyOptions_linux (o : Options) : act K unit :=
  do! (if ReusePort o then set_opt (SOL_SOCKET p) 15 1 else ret ()) then
  (if Enabled (FastOpen o)
   then fastOpenResult (set_opt IPPROTO_TCP 23 (if Backlog (FastOpen o) <=? 0 then 128 else Backlog (FastOpen o)))
   else ret ()).
Definition applyOptions_darwin (o : Options) : act K unit :=
  do! (if ReusePort o then set_opt (SOL_SOCKET p) 512 1 else ret ()) then
  (if Enabled (FastOpen o) then fastOpenResult (set_opt IPPROTO_TCP 261 1) else ret ()).
Definition applyOptions_freebsd (o : Options) : act K unit :=
  if ReusePort o then set_opt (SOL_SOCKET p) 65536 1 else ret ().
Definition applyOptions_other (o : Options) : act K unit :=
  if ReusePort o then fail (Unsupported "SO_REUSEPORT" (GOOS p)) else ret ().

Definition applyOptions (o : Options) : act K unit :=
  match p with
  | Linux => applyOptions_linux o
  | Darwin => applyOptions_darwin o
  | FreeBSD => applyOptions_freebsd o
  | Windows | OtherOS => applyOptions_other o
  end.

(** The Control function: [rawErr] is the error of raw.Control, which then
    does not run its argument. *)
Definition control (o : Options) (outbound : bool) (network : string) (rawErr : option Z) : act K unit :=
  match checkNetwork network o with
  | Some e => fail e
  | None =>
      if outbound && Enabled (FastOpen o) then fail (Unsupported "TCP Fast Open" "dialed connections")
      else if decide (o = noOptions) then ret ()
      else match rawErr with
           | Some e => fail (OsErr e)
           | None => do! applyBuffers o then applyOptions o
           end
  end.

(** The parts of net.ListenConfig and net.Dialer the package sets. A control
    function takes the network, the address and the error of raw.Control. *)
Definition controlFn : Type := string → string → option Z → act K unit.
Definition keepConfig : Type := option (Z * Z * Z).
Record netListenConfig := mkListenConfig {
  lc_Control : controlFn; lc_KeepAlive : Z; lc_KeepAliveConfig : keepConfig }.
Record netDialer := mkNetDialer {
  nd_Timeout : Z; nd_KeepAlive : Z; nd_KeepAliveConfig : keepConfig;
  nd_Control : option controlFn; nd_ControlContext : option controlFn }.

Definition ListenConfig (o : Options) : netListenConfig :=
  mkListenConfig (λ network _ raw, control o false network raw) (apply (Keep o)).1 (apply (Keep o)).2.

(** The user's function, if any, runs first. *)
Definition Dialer (base : netDialer) (o : Options) : netDialer :=
  let user :=
    match nd_ControlContext base with Some f => Some f | None => nd_Control base end in
  mkNetDialer (nd_Timeout base)
    (if IsZero (Keep o) then nd_KeepAlive base else (apply (Keep o)).1)
    (if IsZero (Keep o) then nd_KeepAliveConfig base else (apply (Keep o)).2)
    None
    (Some (λ network address raw,
       do! (match user with Some f => f network address raw | None => ret () end) then
       control o true network raw)).

(** The TCP dialer ([src/tcp/dialer.go]): the inner dialer and whether an OnDial
    hook is set. *)
Record tcpDialer := mkDialer { inner : netDialer; onDial : bool }.
Record DialOptions := mkDialOptions {
  do_Timeout : Z; do_KeepAlive : Z; do_Socket : Options; do_OnDial : bool }.
Definition NewDialer (opts : DialOptions) : tcpDialer :=
  mkDialer (Dialer (mkNetDialer (do_Timeout opts) (do_KeepAlive opts) None None None) (do_Socket opts))
    (do_OnDial opts).

(** The event given to OnDial, without its times. A connection is its local
    and remote address. *)
Record DialEvent := mkDialEvent {
  ev_Network : string; ev_Address : string; ev_LocalAddr : option string; ev_RemoteAddr : option string;
  ev_Err : option err }.

(** [dial] is net's DialContext for the inner dialer. The third component is
    what OnDial was called with. *)
Definition DialContext (dial : netDialer → string → string → act K (string * string)) (d : tcpDialer)
    (network address : string) (w : world K) : world K * (err + string * string) * list DialEvent :=
  let '(w', r) := dial (inner d) network address w in
  let event :=
    match r with
    | inr (l, a) => mkDialEvent network address (Some l) (Some a) None
    | inl e => mkDialEvent network address None None (Some e)
    end in
  (w', r, if onDial d then [event] else []).

(** SetBuffers on a connection: nil, one that is a syscall.Conn, or one that
    only has SetReadBuffer and SetWriteBuffer. *)
Inductive setter := NilSetter | SyscallConn (rawErr : option Z) | PlainSetter (setRead setWrite : Z → act K unit).
Definition SetBuffers (c : setter) (o : Options) : act K unit :=
  match c with
  | NilSetter => fail NilConn
  | SyscallConn rawErr =>
      if (0 <? RecvBuffer o) || (0 <? SendBuffer o) then
        match rawErr with
        | Some e => fail (OsErr e)
        | None => applyBuffers (mkOptions (mkFastOpen false 0) false (RecvBuffer o) (SendBuffer o) noKeepAlive)
        end
      else ret ()
  | PlainSetter setRead setWrite =>
      do! (if 0 <? RecvBuffer o then setRead (RecvBuffer o) else ret ()) then
      (if 0 <? SendBuffer o then setWrite (SendBuffer o) else ret ())
  end.
End apply_options.

(** * Capabilities *)

Record Capabilities := mkCap { FastOpenListen : bool; ReusePortBalanced : bool }.
Definition Supported (p : platform) : Capabilities :=
  match p with
  | Linux => mkCap true true
  | Darwin => mkCap true false
  | FreeBSD => mkCap false true
  | Windows | OtherOS => mkCap false false
  end.

(** * What the calls are *)

Section logic.
Context {K : Type} `{!Kernel K}.

(** [m] only makes calls that satisfy [P], and if it returns [a] after
    [calls], then [Q a calls]. *)
Definition emits {A} (m : act K A) (P : event → Prop) (Q : A → list event → Prop) : Prop :=
  ∀ w, ∃ calls, log (m w).1 = log w ++ calls ∧ Forall P calls ∧ ∀ a, (m w).2 = inr a → Q a calls.

Lemma emits_ret {A} (a : A) P (Q : A → list event → Prop) : Q a [] → emits (ret a) P Q.
Proof. intros H w. exists []. rewrite app_nil_r. split_and!; [done|constructor|]. intros ? [= <-]. done. Qed.

Lemma emits_fail {A} e P (Q : A → list event → Prop) : emits (fail e) P Q.
Proof. intros w. exists []. rewrite app_nil_r. by split_and!. Qed.

Lemma emits_bind {A B} (m : act K A) (f : A → act K B) P Q R :
  emits m P Q → (∀ a c, Q a c → emits (f a) P (λ b c', R b (c ++ c'))) → emits (bind m f) P R.
Proof.
  intros Hm Hf w. destruct (Hm w) as (c & L & F & HQ). unfold bind.
  destruct (m w) as [w1 [e|a]]; simpl in *; [exists c; by split_and!|].
  destruct (Hf a c (HQ a eq_refl) w1) as (c' & L' & F' & HR).
  exists (c ++ c'). rewrite L', L, app_assoc. split_and!; [done|by apply Forall_app|done].
Qed.

Lemma emits_weaken {A} (m : act K A) (P P' : event → Prop) Q (Q' : A → list event → Prop) :
  emits m P Q → (∀ e, P e → P' e) → (∀ a c, Q a c → Q' a c) → emits m P' Q'.
Proof.
  intros H HP HQ w. destruct (H w) as (c & L & F & R). exists c.
  split_and!; [done|by eapply Forall_impl|eauto].
Qed.

Lemma emits_set_opt l o v (P : event → Prop) (Q : unit → list event → Prop) :
  (∀ e, P (Set_ l o v e)) → Q () [Set_ l o v None] → emits (set_opt l o v) P Q.
Proof.
  intros HP HQ w. unfold set_opt. destruct (setsockopt _ _ _ _) as [k [e|]]; simpl;
    (eexists; split; [done|]; split; [by repeat constructor|]); [done|by intros [] _].
Qed.

Lemma emits_get_opt l o (P : event → Prop) (Q : Z → list event → Prop) :
  (∀ v e, P (Get l o v e)) → (∀ v, Q v [Get l o v None]) → emits (get_opt l o) P Q.
Proof.
  intros HP HQ w. unfold get_opt. destruct (getsockopt _ _ _) as [v [e|]]; simpl;
    (eexists; split; [done|]; split; [by repeat constructor|]); [done|by intros ? [= <-]].
Qed.

Lemma emits_ignoring m P (Q : unit → list event → Prop) :
  emits m P (λ _ _, True) → (∀ c, Q () c) → emits (ignoring m) P Q.
Proof.
  intros H HQ w. destruct (H w) as (c & L & F & _). exists c.
  split_and!; [done|done|]. intros [] _. apply HQ.
Qed.

Lemma emits_fastOpenResult p l o v (P : event → Prop) (Q : unit → list event → Prop) :
  (∀ e, P (Set_ l o v e)) →
  (∀ e, from_option (no_fast_open p) true e = true → Q () [Set_ l o v e]) →
  emits (fastOpenResult p (set_opt l o v)) P Q.
Proof.
  intros HP HQ w. unfold fastOpenResult, set_opt. destruct (setsockopt _ _ _ _) as [k [e|]]; simpl.
  - exists [Set_ l o v (Some e)]. destruct (no_fast_open p e) eqn:H; simpl;
      (split; [done|]; split; [by repeat constructor|]); [intros [] _; by apply HQ|done].
  - eexists. split; [done|]. split; [by repeat constructor|]. intros [] _. by apply HQ.
Qed.
End logic.

(** * Verified buffers *)

Section thms.
Context {K : Type} `{!Kernel K} (p : platform).
Implicit Types w : world K.

(** What a call of ensureBuffer appended to the log, by its result. *)
Definition ensured (k : bufferKind) (requested : Z) (doubled : bool) (w' : world K) (calls : list event)
    (r : err + unit) : Prop :=
  match r with
  | inr _ =>
      ∃ pre v, calls = pre ++ [Get (SOL_SOCKET p) (opt k) v None] ∧ requested <= granted doubled v ∧
        getsockopt (kernel w') (SOL_SOCKET p) (opt k) = (v, None)
  | inl (BufferSize n req actual) =>
      n = name k ∧ req = requested ∧ actual < requested ∧
      (∃ pre v, calls = pre ++ [Get (SOL_SOCKET p) (opt k) v None] ∧ actual = granted doubled v) ∧
      (force k ≠ 0 → ∃ e, Set_ (SOL_SOCKET p) (force k) requested e ∈ calls)
  | inl (OsErr e) =>
      ∃ pre, calls = pre ++ [Set_ (SOL_SOCKET p) (opt k) requested (Some e)] ∨
             ∃ v, calls = pre ++ [Get (SOL_SOCKET p) (opt k) v (Some e)]
  | inl _ => False
  end.

(** EnsureBuffer succeeds exactly when the size read back, in the units of
    the request, is at least the requested one, and then the socket still
    reports that size; a BufferSizeError carries the requested size and the
    last size read, which is smaller, and where a force option exists it was
    tried; any other error is the errno of a failed set or get of the buffer's
    own option. The force option is tried only after a reading that was short,
    its own error never becomes the result, and at most four calls are made. *)
Theorem ensureBuffer_verified k requested doubled w :
  ∃ calls, log (ensureBuffer p k requested doubled w).1 = log w ++ calls ∧
    ensured k requested doubled (ensureBuffer p k requested doubled w).1 calls
      (ensureBuffer p k requested doubled w).2 ∧
    (∀ e, Set_ (SOL_SOCKET p) (force k) requested e ∈ calls → force k ≠ opt k →
     ∃ v, Get (SOL_SOCKET p) (opt k) v None ∈ calls ∧ granted doubled v < requested) ∧
    (length calls <= 4)%nat.
Proof.
  unfold ensureBuffer, readBuffer, bind, set_opt, get_opt, ignoring, ret, fail.
  destruct (setsockopt (kernel w) _ _ _) as [k1 [e1|]]; simpl.
  { eexists. split; [done|]. split; [exists []; by left|split; [set_solver|simpl; lia]]. }
  destruct (getsockopt k1 _ _) as [v1 [e2|]] eqn:G1; simpl.
  { eexists. rewrite <- app_assoc. split; [done|]. split; [|split; [set_solver|simpl; lia]].
    exists [Set_ (SOL_SOCKET p) (opt k) requested None]. right. by exists v1. }
  destruct (Z.ltb_spec (granted doubled v1) requested) as [Hlt|Hge]; simpl.
  2:{ rewrite (proj2 (Z.ltb_ge _ _) Hge). eexists. simpl. rewrite <- app_assoc. split; [done|].
      split; [|split; [set_solver|simpl; lia]].
      exists [Set_ (SOL_SOCKET p) (opt k) requested None], v1. split_and!; [done|lia|done]. }
  destruct (Z.eqb_spec (force k) 0) as [H0|H0]; simpl.
  { rewrite (proj2 (Z.ltb_lt _ _) Hlt). eexists. simpl. rewrite <- app_assoc. split; [done|].
    split; [|split; [set_solver|simpl; lia]]. split_and!; try done.
    by exists [Set_ (SOL_SOCKET p) (opt k) requested None], v1. }
  destruct (setsockopt k1 _ (force k) _) as [k2 e3]; simpl.
  set (pre := [Set_ (SOL_SOCKET p) (opt k) requested None; Get (SOL_SOCKET p) (opt k) v1 None;
               Set_ (SOL_SOCKET p) (force k) requested e3]).
  destruct (getsockopt k2 _ _) as [v2 [e4|]] eqn:G2; simpl.
  { exists (pre ++ [Get (SOL_SOCKET p) (opt k) v2 (Some e4)]). rewrite <- !app_assoc. split; [done|].
    split; [exists pre; right; by exists v2|split; [|simpl; lia]].
    intros _ _ _. exists v1. split; [set_solver|done]. }
  exists (pre ++ [Get (SOL_SOCKET p) (opt k) v2 None]).
  destruct (Z.ltb_spec (granted doubled v2) requested); simpl; rewrite <- !app_assoc.
  - split; [done|]. split; [|split; [intros _ _ _; exists v1; split; [set_solver|done]|simpl; lia]].
    split_and!; try done; [by exists pre, v2|]. intros _. exists e3. set_solver.
  - split; [done|]. split; [|split; [intros _ _ _; exists v1; split; [set_solver|done]|simpl; lia]].
    exists pre, v2. by split_and!.
Qed.
End thms.

(** * The policy of control *)

Section policy.
Context {K : Type} `{!Kernel K} (p : platform) (o : Options).

(** Combinations that are refused before the socket is touched. *)
Definition refused (outbound : bool) (network : string) : bool :=
  if isTCP network then outbound && Enabled (FastOpen o)
  else if isUDP network then Enabled (FastOpen o) || negb (IsZero (Keep o))
  else negb (bool_decide (o = noOptions)).

Definition reusePortOpt : option Z :=
  match p with Linux => Some 15 | Darwin => Some 512 | FreeBSD => Some 65536 | _ => None end.
(** The Fast Open option of the platform and the value the request asks for;
    FreeBSD, Windows and the others have none. *)
Definition fastOpenOpt : option (Z * Z) :=
  match p with
  | Linux => Some (23, if Backlog (FastOpen o) <=? 0 then 128 else Backlog (FastOpen o))
  | Darwin => Some (261, 1)
  | _ => None
  end.

(** The calls the request for [n] bytes of buffer [k] allows. *)
Definition buffer_call (k : bufferKind) (n : Z) (ev : event) : Prop :=
  0 < n ∧ match ev with
          | Set_ l op v _ => l = SOL_SOCKET p ∧ v = n ∧ (op = opt k ∨ op = force k ∧ force k ≠ 0)
          | Get l op _ _ => l = SOL_SOCKET p ∧ op = opt k
          end.
Definition option_call (ev : event) : Prop :=
  match ev with
  | Set_ l op v _ =>
      ReusePort o = true ∧ l = SOL_SOCKET p ∧ reusePortOpt = Some op ∧ v = 1 ∨
      Enabled (FastOpen o) = true ∧ l = IPPROTO_TCP ∧ fastOpenOpt = Some (op, v)
  | Get _ _ _ _ => False
  end.
Definition requested (ev : event) : Prop :=
  buffer_call (recvBufferKind p) (RecvBuffer o) ev ∨ buffer_call (sendBufferKind p) (SendBuffer o) ev ∨
  option_call ev.

Definition verified (k : bufferKind) (n : Z) (calls : list event) : Prop :=
  0 < n → ∃ v, Get (SOL_SOCKET p) (opt k) v None ∈ calls ∧ n <= granted (kernelDoublesBuffers p) v.

(** Fast Open after [calls]: set to the value asked for, or refused by the
    kernel as an option it does not have; where the platform has none, the
    socket runs without it. *)
Definition fast_open_set (calls : list event) : Prop :=
  match fastOpenOpt with
  | Some (op, v) =>
      ∃ e, Set_ IPPROTO_TCP op v e ∈ calls ∧ from_option (no_fast_open p) true e = true
  | None => ∀ op v e, Set_ IPPROTO_TCP op v e ∉ calls
  end.

(** What [calls] that ended in success have done about the options of [o]. *)
Definition options_set (calls : list event) : Prop :=
  (ReusePort o = true → ∃ op, reusePortOpt = Some op ∧ Set_ (SOL_SOCKET p) op 1 None ∈ calls) ∧
  (Enabled (FastOpen o) = true → fast_open_set calls).
Definition applied (calls : list event) : Prop :=
  verified (recvBufferKind p) (RecvBuffer o) calls ∧ verified (sendBufferKind p) (SendBuffer o) calls ∧
  options_set calls.

(** No call for Fast Open is made where the platform has none. *)
Lemma requested_no_fast ev : fastOpenOpt = None → requested ev → ∀ op v e, ev ≠ Set_ IPPROTO_TCP op v e.
Proof.
  intros Hn Hr op v e ->. unfold requested, buffer_call, option_call, IPPROTO_TCP in Hr. rewrite Hn in Hr.
  destruct p; simpl in Hr; intuition (congruence || lia).
Qed.

Lemma emits_readBuffer k doubled n : 0 < n →
  emits (K:=K) (readBuffer p k doubled) (buffer_call k n)
    (λ a c, ∃ v, c = [Get (SOL_SOCKET p) (opt k) v None] ∧ a = granted doubled v).
Proof.
  intros Hn. eapply emits_bind; [apply emits_get_opt with (Q := λ v c, c = [Get (SOL_SOCKET p) (opt k) v None])|].
  - by intros.
  - done.
  - intros v c ->. apply emits_ret. by exists v.
Qed.

Lemma emits_ensureBuffer k n : 0 < n →
  emits (K:=K) (ensureBuffer p k n (kernelDoublesBuffers p)) (buffer_call k n) (λ _ c, verified k n c).
Proof.
  intros Hn. eapply emits_bind.
  { eapply emits_set_opt with (Q := λ _ _, True); [|done]. intros e. split; [done|]. eauto. }
  intros _ c _. eapply emits_bind; [by apply emits_readBuffer|].
  intros a ? (v & -> & ->).
  eapply emits_bind with (Q := λ a c', (∃ w, Get (SOL_SOCKET p) (opt k) w None ∈
      (c ++ [Get (SOL_SOCKET p) (opt k) v None] ++ c') ∧ a = granted (kernelDoublesBuffers p) w)).
  - destruct (_ && _) eqn:Hf; [|apply emits_ret; exists v; set_solver].
    apply andb_true_iff in Hf as [_ Hf%negb_true_iff%Z.eqb_neq].
    eapply emits_bind with (Q := λ _ _, True).
    { apply emits_ignoring; [|done]. apply emits_set_opt; [|done]. intros e. split; [done|]. eauto. }
    intros _ c' _. eapply emits_weaken; [by apply emits_readBuffer|done|].
    intros a ? (v' & -> & ->). exists v'. set_solver.
  - intros a c' (v' & Hin & ->). destruct (Z.ltb_spec (granted (kernelDoublesBuffers p) v') n).
    + apply emits_fail.
    + apply emits_ret. intros _. exists v'. rewrite app_nil_r. done.
Qed.

Lemma verified_app k n c c' : verified k n c → verified k n (c ++ c').
Proof. intros H Hn. destruct (H Hn) as (v & Hv & ?). exists v. set_solver. Qed.
Lemma verified_app_r k n c c' : verified k n c' → verified k n (c ++ c').
Proof. intros H Hn. destruct (H Hn) as (v & Hv & ?). exists v. set_solver. Qed.

Lemma emits_buffer k n (P : event → Prop) :
  (∀ ev, buffer_call k n ev → P ev) →
  emits (K:=K) (if 0 <? n then ensureBuffer p k n (kernelDoublesBuffers p) else ret ()) P
    (λ _ c, verified k n c).
Proof.
  intros HP. destruct (Z.ltb_spec 0 n).
  - eapply emits_weaken; [by apply emits_ensureBuffer|done|done].
  - apply emits_ret. intros ?. lia.
Qed.

Lemma applyBuffers_os : p ≠ OtherOS →
  applyBuffers (K:=K) p o =
  (do! (if 0 <? RecvBuffer o
        then ensureBuffer p (recvBufferKind p) (RecvBuffer o) (kernelDoublesBuffers p) else ret ()) then
   (if 0 <? SendBuffer o
    then ensureBuffer p (sendBufferKind p) (SendBuffer o) (kernelDoublesBuffers p) else ret ())).
Proof. by destruct p. Qed.

Lemma emits_applyBuffers :
  emits (K:=K) (applyBuffers p o) requested
    (λ _ c, verified (recvBufferKind p) (RecvBuffer o) c ∧ verified (sendBufferKind p) (SendBuffer o) c).
Proof.
  destruct (decide (p = OtherOS)) as [->|Hp].
  - unfold applyBuffers, applyBuffers_other.
    destruct (Z.ltb_spec 0 (RecvBuffer o)), (Z.ltb_spec 0 (SendBuffer o)); simpl;
      try apply emits_fail. apply emits_ret. split; intros ?; lia.
  - rewrite (applyBuffers_os Hp).
    eapply emits_bind; [apply (emits_buffer _ _ requested); unfold requested; by auto|]. intros u c Hc.
    eapply emits_weaken; [apply (emits_buffer _ _ requested); unfold requested; by auto|done|].
    intros ? c' Hc'. split; [by apply verified_app|by apply verified_app_r].
Qed.

(** Fast Open as far as calls are needed for it. *)
Definition fast_called (calls : list event) : Prop :=
  Enabled (FastOpen o) = true → ∀ op v, fastOpenOpt = Some (op, v) →
  ∃ e, Set_ IPPROTO_TCP op v e ∈ calls ∧ from_option (no_fast_open p) true e = true.
Definition options_called (calls : list event) : Prop :=
  (ReusePort o = true → ∃ op, reusePortOpt = Some op ∧ Set_ (SOL_SOCKET p) op 1 None ∈ calls) ∧
  fast_called calls.

Lemma options_called_app c c' : options_called c' → options_called (c ++ c').
Proof.
  intros [Hp Hf]. split.
  - intros H. destruct (Hp H) as (op & ? & ?). exists op. set_solver.
  - intros H op v Hop. destruct (Hf H op v Hop) as (e & ? & ?). exists e. set_solver.
Qed.

Lemma options_called_set c : Forall requested c → options_called c → options_set c.
Proof.
  intros Hr [Hp Hf]. split; [done|]. intros He. unfold fast_open_set.
  destruct fastOpenOpt as [[op v]|] eqn:Hop; [by apply Hf|].
  intros op v e Hin. rewrite Forall_forall in Hr. by eapply (requested_no_fast _ Hop (Hr _ Hin)).
Qed.

(** Code that sets at most the port option and then Fast Open. *)
Lemma emits_options (reuse fast : act K unit) :
  emits reuse requested (λ _ c, ReusePort o = true → ∃ op, reusePortOpt = Some op ∧ Set_ (SOL_SOCKET p) op 1 None ∈ c) →
  emits fast requested (λ _ c, fast_called c) →
  emits (do! reuse then fast) requested (λ _ c, options_called c).
Proof.
  intros Hr Hf. eapply emits_bind; [exact Hr|]. intros ? c Hc.
  eapply emits_weaken; [exact Hf|done|]. intros ? c' Hc'. split.
  - intros H. destruct (Hc H) as (op & ? & ?). exists op. set_solver.
  - intros H op v Hop. destruct (Hc' H op v Hop) as (e & ? & ?). exists e. set_solver.
Qed.

Lemma emits_reuse n : reusePortOpt = Some n →
  emits (K:=K) (if ReusePort o then set_opt (SOL_SOCKET p) n 1 else ret ()) requested
    (λ _ c, ReusePort o = true → ∃ op, reusePortOpt = Some op ∧ Set_ (SOL_SOCKET p) op 1 None ∈ c).
Proof.
  intros Hn. destruct (ReusePort o) eqn:Hr; [|by apply emits_ret].
  apply emits_set_opt.
  - intros e. right. right. left. done.
  - intros _. exists n. set_solver.
Qed.

Lemma emits_fast n v : fastOpenOpt = Some (n, v) →
  emits (K:=K) (if Enabled (FastOpen o) then fastOpenResult p (set_opt IPPROTO_TCP n v) else ret ()) requested
    (λ _ c, fast_called c).
Proof.
  intros Hn. unfold fast_called. destruct (Enabled (FastOpen o)) eqn:He; [|by apply emits_ret].
  apply emits_fastOpenResult.
  - intros e. right. right. right. done.
  - intros e Hok _ op v' Hop. assert (op = n ∧ v' = v) as [-> ->] by (split; congruence).
    exists e. set_solver.
Qed.

Lemma emits_no_fast : fastOpenOpt = None → emits (K:=K) (ret ()) requested (λ _ c, fast_called c).
Proof. intros Hn. apply emits_ret. intros ? ? ?. congruence. Qed.

End policy.

Section policy_all.
Context {K : Type} `{!Kernel K}.
Implicit Types (p : platform) (o : Options) (w : world K).

Lemma emits_then_ret (m : act K unit) P Q : emits (do! m then ret ()) P Q → emits m P Q.
Proof.
  intros H w. destruct (H w) as (c & L & F & HQ). exists c. unfold bind, ret in *.
  destruct (m w) as [? [|[]]]; simpl in *; by split_and!.
Qed.

Lemma emits_applyOptions p o :
  emits (K:=K) (applyOptions p o) (requested p o) (λ _ c, options_called p o c).
Proof.
  destruct p.
  - apply emits_options; [by apply (emits_reuse Linux)|].
    by apply (emits_fast Linux).
  - apply emits_options; [by apply (emits_reuse Darwin)|]. by apply (emits_fast Darwin).
  - apply emits_then_ret, emits_options; [by apply (emits_reuse FreeBSD)|by apply emits_no_fast].
  - unfold applyOptions, applyOptions_other. destruct (ReusePort o) eqn:Hr; [apply emits_fail|apply emits_ret].
    split; [by rewrite Hr|]. by intros ? ? ?.
  - unfold applyOptions, applyOptions_other. destruct (ReusePort o) eqn:Hr; [apply emits_fail|apply emits_ret].
    split; [by rewrite Hr|]. by intros ? ? ?.
Qed.

Lemma checkNetwork_refused network o outbound :
  if refused o outbound network
  then ∃ what where_, ∀ p raw w, control (K:=K) p o outbound network raw w = (w, inl (Unsupported what where_))
  else ∀ p raw w, control (K:=K) p o outbound network raw w =
    (if decide (o = noOptions) then ret ()
     else match raw with
          | Some e => fail (OsErr e)
          | None => do! applyBuffers p o then applyOptions p o
          end) w.
Proof.
  unfold refused, control, checkNetwork.
  destruct (isTCP network) eqn:Ht; simpl.
  { assert (isUDP network = false) as ->.
    { unfold isTCP, isUDP in *. repeat case_bool_decide; subst; simpl in *; congruence. }
    simpl. destruct (outbound && _); [|done]. by eexists _, _. }
  destruct (isUDP network); simpl.
  { destruct (Enabled (FastOpen o)); simpl; [by eexists _, _|].
    destruct (IsZero (Keep o)); simpl; [|by eexists _, _]. by rewrite andb_false_r. }
  case_bool_decide as H; simpl; [|destruct (decide _); [done|by eexists _, _]].
  subst. simpl. by rewrite andb_false_r.
Qed.

Lemma options_need_port p o w :
  ReusePort o = true → reusePortOpt p = None → ∃ e, (applyOptions (K:=K) p o w).2 = inl e.
Proof.
  intros Hr Hp. destruct p; try done; unfold applyOptions, applyOptions_other; rewrite Hr; simpl; eauto.
Qed.

(** C31: The Control function follows the documented policy on every
    platform and whatever the kernel answers. A combination that cannot apply
    (any option on a network other than TCP and UDP, Fast Open or keep-alive
    on UDP, Fast Open on a dialed connection) is refused with an
    UnsupportedOptionError before the socket is touched, and without options
    the socket is not touched at all. Otherwise only calls the options ask for
    are made, each with the value asked for, and none for Fast Open on a dialed
    connection. ReusePort on a platform that has no such option is an error,
    though only after the buffers were set. Success means that the buffer sizes
    were read back and are large enough, that the port option was set without
    an error, and that Fast Open, a performance option, was set to the backlog
    asked for (128 by default; 1 on macOS) or the kernel answered that it does
    not have it; on a platform without Fast Open the socket runs without it. *)
Theorem control_policy p o outbound network rawErr w :
  let res := control p o outbound network rawErr w in
  (refused o outbound network = true → res.1 = w ∧ ∃ what where_, res.2 = inl (Unsupported what where_)) ∧
  (refused o outbound network = false → o = noOptions → res = (w, inr ())) ∧
  (ReusePort o = true → reusePortOpt p = None → ∃ e, res.2 = inl e) ∧
  (∃ calls, log res.1 = log w ++ calls ∧ Forall (requested p o) calls ∧
     (outbound = true → ∀ op v e, Set_ IPPROTO_TCP op v e ∉ calls) ∧
     (res.2 = inr () → refused o outbound network = false ∧ applied p o calls ∧ (rawErr = None ∨ o = noOptions))).
Proof.
  pose proof (checkNetwork_refused network o outbound) as H. simpl.
  destruct (refused o outbound network) eqn:Hr.
  { destruct H as (what & where_ & ->). split_and!; [intros _; simpl; eauto|done|simpl; eauto|].
    exists []. simpl. rewrite app_nil_r. split_and!; [done|constructor|set_solver|done]. }
  rewrite H. destruct (decide (o = noOptions)) as [->|Ho].
  { split_and!; [done|done|done|]. exists []. simpl. rewrite app_nil_r.
    split_and!; [done|constructor|set_solver|]. intros _. split_and!; [done| |by right].
    split_and!; [by intros ?|by intros ?|by split]. }
  split_and!; [done|done| |].
  { intros Hrp Hnp. destruct rawErr as [e|]; [simpl; eauto|]. unfold bind.
    destruct (applyBuffers p o w) as [w1 [e|[]]]; [simpl; eauto|]. by apply options_need_port. }
  destruct rawErr as [e|]; [exists []; simpl; rewrite app_nil_r; split_and!; [done|constructor|set_solver|done]|].
  destruct (emits_bind (applyBuffers p o) (λ _, applyOptions p o) (requested p o) _
    (λ _ c, verified p (recvBufferKind p) (RecvBuffer o) c ∧
            verified p (sendBufferKind p) (SendBuffer o) c ∧ options_called p o c)
    (emits_applyBuffers p o)) with (w := w) as (calls & L & F & Q).
  { intros ? c [Hr1 Hs1]. eapply emits_weaken; [apply emits_applyOptions|done|].
    intros ? c' Hoc. split_and!; [by apply verified_app|by apply verified_app|by apply options_called_app]. }
  exists calls. split_and!; [done|done| |].
  - intros -> op v e Hin. rewrite Forall_forall in F. specialize (F _ Hin).
    assert (He : Enabled (FastOpen o) = false).
    { unfold refused in Hr. destruct (isTCP network); [by simpl in Hr|].
      destruct (isUDP network); [by apply orb_false_iff in Hr as [? _]|].
      by apply negb_false_iff, bool_decide_eq_true in Hr. }
    unfold requested, buffer_call, option_call, IPPROTO_TCP in F. rewrite He in F.
    destruct p; simpl in F; intuition (congruence || lia).
  - intros (V1 & V2 & Hoc)%Q. split_and!; [done| |by left].
    split_and!; [done|done|by apply options_called_set].
Qed.

(** A net dialer that creates the socket, runs the control function and
    connects. *)
Definition simple_dial (connect : act K (string * string)) (d : netDialer) (network address : string)
  : act K (string * string) :=
  match nd_ControlContext d with
  | Some f => do! f network address None then connect
  | None => match nd_Control d with Some f => do! f network address None then connect | None => connect end
  end.

(** A dial with Fast Open fails before it connects, and OnDial is told. *)
Lemma DialContext_no_fast_open p opts connect address w :
  Enabled (FastOpen (do_Socket opts)) = true → do_OnDial opts = true →
  DialContext (simple_dial connect) (NewDialer p opts) "tcp" address w =
  (w, inl (Unsupported "TCP Fast Open" "dialed connections"),
   [mkDialEvent "tcp" address None None (Some (Unsupported "TCP Fast Open" "dialed connections"))]).
Proof.
  intros He Hd. unfold DialContext, simple_dial, NewDialer, Dialer, bind, ret, control, checkNetwork. simpl.
  by rewrite He, Hd.
Qed.
End policy_all.

(** * A kernel that caps buffers *)

(** The sizes of the two buffers and the cap of the plain options; the force
    options are allowed or not. *)
Record fakeKernel := mkFake { rcv : Z; snd_ : Z; limit : Z; forceAllowed : bool }.
Definition fake_set (k : fakeKernel) (level o v : Z) : fakeKernel * option Z :=
  if negb (level =? 1) then (k, Some 92)
  else if o =? 8 then (mkFake (Z.min v (limit k)) (snd_ k) (limit k) (forceAllowed k), None)
  else if o =? 7 then (mkFake (rcv k) (Z.min v (limit k)) (limit k) (forceAllowed k), None)
  else if (o =? 33) && forceAllowed k then (mkFake v (snd_ k) (limit k) (forceAllowed k), None)
  else if (o =? 32) && forceAllowed k then (mkFake (rcv k) v (limit k) (forceAllowed k), None)
  else if o =? 15 then (k, None) else (k, Some 1).
Definition fake_get (k : fakeKernel) (level o : Z) : Z * option Z :=
  if o =? 8 then (2 * rcv k, None) else if o =? 7 then (2 * snd_ k, None) else (0, Some 92).
#[local] Instance fake_kernel : Kernel fakeKernel := {| setsockopt := fake_set; getsockopt := fake_get |}.

Definition fresh (allowed : bool) : world fakeKernel := mkWorld (mkFake 0 0 1000 allowed) [].

Example ensureBuffer_short :
  (ensureBuffer Linux (recvBufferKind Linux) 4000 true (fresh false)).2 =
  inl (BufferSize "receive buffer" 4000 1000).
Proof. reflexivity. Qed.
Example ensureBuffer_forced :
  (ensureBuffer Linux (recvBufferKind Linux) 4000 true (fresh true)).2 = inr ().
Proof. reflexivity. Qed.

(** Fast Open is missing, the rest is in force. *)
Example control_all :
  control Linux (mkOptions (mkFastOpen true 0) true 4000 500 noKeepAlive) false "tcp" None (fresh true) =
  (mkWorld (mkFake 4000 500 1000 true)
     [Set_ 1 8 4000 None; Get 1 8 2000 None; Set_ 1 33 4000 None; Get 1 8 8000 None;
      Set_ 1 7 500 None; Get 1 7 1000 None; Set_ 1 15 1 None; Set_ 6 23 128 (Some 92)], inr ()).
Proof. reflexivity. Qed.

(** On Windows Fast Open asks for nothing, and ReusePort fails. *)
Example control_windows :
  (control Windows (mkOptions (mkFastOpen true 0) false 0 0 noKeepAlive) false "tcp" None (fresh true)).2 = inr () ∧
  (control Windows (mkOptions (mkFastOpen false 0) true 0 0 noKeepAlive) false "tcp" None (fresh true)).2 =
    inl (Unsupported "SO_REUSEPORT" "windows").
Proof. split; reflexivity. Qed.

Lemma control_policy_witness :
  let o := mkOptions (mkFastOpen true 7) true 400 0 noKeepAlive in
  ∃ calls, Forall (requested Linux o) calls ∧ Set_ IPPROTO_TCP 23 7 (Some 92) ∈ calls ∧ applied Linux o calls.
Proof.
  destruct (control_policy Linux (mkOptions (mkFastOpen true 7) true 400 0 noKeepAlive) false "tcp" None (fresh false))
    as (_ & _ & _ & calls & L & F & _ & Q).
  exists calls. split; [exact F|]. split; [|by apply Q].
  simpl in L. rewrite <- L. vm_compute. repeat constructor.
Defined.
