(* ===== verification/Service.v ===== *)
(** The Service contract of package netx ([src/lifecycle.go]) as an
    interface, which package tcp's Server and package udp's Conn implement.
    [GroupRun] runs a Group of services that keep it. *)
From S2P Require Import Prelude Interleave Internal Limit Sys Lifecycle Tcp TcpThms TcpTerm Udp UdpRead UdpInv UdpThms UdpTerm.

Local Open Scope Z_scope.

(** * Goroutines that have been started *)

(** Which calls have been made of a service: Serve on goroutine 0, Shutdown on
    goroutine 1, and Close, by the end of Serve's context, on goroutine 2. The
    other goroutines are the service's own. *)
Record called := mkCalled { c_serve : bool; c_shutdown : bool; c_close : bool }.
Definition may_move (k : called) (i : nat) : bool :=
  match i with
  | O => c_serve k
  | Datatypes.S O => c_shutdown k
  | Datatypes.S (Datatypes.S O) => c_close k
  | _ => true
  end.

Section one.
Context {S L : Type} (next : S → L → list (S * L)).

(** A step of a goroutine of [A]. *)
Inductive step_of (A : nat → bool) : @conf S L → @conf S L → Prop :=
| step_of_at i l s s' l' ps :
    A i = true → ps !! i = Some l → (s', l') ∈ next s l → step_of A (Conf s ps) (Conf s' (<[i:=l']> ps)).

Lemma step_of_step A c c' : step_of A c c' → step next c c'.
Proof. destruct 1. by econstructor. Qed.
Lemma steps_of_steps A c c' : rtc (step_of A) c c' → rtc (step next) c c'.
Proof. induction 1; [done|]. eapply rtc_l; eauto using step_of_step. Qed.
Lemma step_of_mono A B c c' : (∀ i, A i = true → B i = true) → step_of A c c' → step_of B c c'.
Proof. intros HAB []. econstructor; eauto. Qed.
Lemma steps_of_mono A B c c' : (∀ i, A i = true → B i = true) → rtc (step_of A) c c' → rtc (step_of B) c c'.
Proof. intros HAB. induction 1; [done|]. eapply rtc_l; eauto using step_of_mono. Qed.

(** Goroutines that were not started might as well have nothing to do. *)
Definition park (A : nat → bool) (idle : L) (c : @conf S L) : @conf S L :=
  Conf (shared c) (imap (λ i l, if A i then l else idle) (procs c)).
Lemma park_lookup A idle c i : A i = true → procs (park A idle c) !! i = procs c !! i.
Proof. intros HA. simpl. rewrite list_lookup_imap, HA. by destruct (procs c !! i). Qed.
Lemma park_step A idle c c' : step_of A c c' → step next (park A idle c) (park A idle c').
Proof.
  intros [i l s s' l' ps HA Hl Hn]. unfold park. simpl.
  assert (imap (λ i l, if A i then l else idle) (<[i:=l']> ps) = <[i:=l']> (imap (λ i l, if A i then l else idle) ps)) as ->.
  { apply list_eq. intros j. rewrite list_lookup_imap. destruct (decide (j = i)) as [->|Hne].
    - rewrite !list_lookup_insert_eq by (rewrite ?length_imap; by eapply lookup_lt_Some). simpl. by rewrite HA.
    - by rewrite !list_lookup_insert_ne, list_lookup_imap by done. }
  eapply step_at; [|done]. by rewrite list_lookup_imap, Hl; simpl; rewrite HA.
Qed.
Lemma park_steps A idle c c' : rtc (step_of A) c c' → rtc (step next) (park A idle c) (park A idle c').
Proof. induction 1; [done|]. eapply rtc_l; eauto using park_step. Qed.
Lemma park_stuck A idle c : (∀ s, next s idle = []) → (∀ c', ¬ step_of A c c') → ∀ c', ¬ step next (park A idle c) c'.
Proof.
  intros Hidle Hst c' Hs. inversion Hs as [i l s s' l' ps Hl Hn E1 E2]. subst.
  rewrite list_lookup_imap in Hl. apply fmap_Some in Hl as (x & Hx & ->). destruct (A i) eqn:HA.
  - destruct c as [s0 ps0]. eapply Hst. by econstructor.
  - rewrite Hidle in Hn. by apply not_elem_of_nil in Hn.
Qed.

(** What a single goroutine does, under any steps of the others. *)
Lemma proc_inv (P : S → L → Prop) (i : nat) c c' :
  (∀ s l s' l', P s l → (s', l') ∈ next s l → P s' l') →
  (∀ s l s' l' y, P s y → (s', l') ∈ next s l → P s' y) →
  (∃ l, procs c !! i = Some l ∧ P (shared c) l) → rtc (step next) c c' →
  ∃ l, procs c' !! i = Some l ∧ P (shared c') l.
Proof.
  intros Hown Hother Hc. apply (inv_reachable next (λ c, ∃ l, procs c !! i = Some l ∧ P (shared c) l)); [done|].
  intros a b (l & Hl & HP) Hab. destruct Hab as [j l1 s s' l' ps Hj Hn]. simpl in *.
  destruct (decide (j = i)) as [->|Hne].
  - simplify_eq. exists l'. rewrite list_lookup_insert_eq by (by eapply lookup_lt_Some). eauto.
  - exists l. rewrite list_lookup_insert_ne by done. eauto.
Qed.
Lemma stuck_next c : (∀ c', ¬ step next c c') → ∀ l, l ∈ procs c → next (shared c) l = [].
Proof.
  intros H l [i Hl]%list_elem_of_lookup. destruct (next (shared c) l) as [|[s' l'] rest] eqn:E; [done|].
  destruct c as [s ps]. exfalso. eapply H, (step_at next i l s s' l'); [done|]. simpl in E. rewrite E. left.
Qed.
End one.


(** * The interface *)

(** What a service promises: its runs are bounded, a call that has returned
    stays so, and when nothing can move any more a Shutdown has returned, and a
    Serve has returned or is still serving, the latter only if neither Shutdown
    was called nor the context has ended. [serve_err] and [shutdown_err] are what
    the calls have returned; [in_serve] is a Serve under way, with its context's
    end wired to Close. *)
Class Service (S L : Type) := {
  svc_next : S → L → list (S * L);
  begun : @conf S L → Prop;
  serve_err : L → option (option Err);
  shutdown_err : L → option (option Err);
  in_serve : L → bool;
  svc_bound : @conf S L → nat;
  svc_ends n c0 c : begun c0 → nsteps (step svc_next) n c0 c → (n <= svc_bound c0)%nat;
  svc_serve_kept c0 c l e : begun c0 → rtc (step svc_next) c0 c → procs c !! 0%nat = Some l →
    serve_err l = Some e → svc_next (shared c) l = [];
  svc_shutdown_kept c0 c l e : begun c0 → rtc (step svc_next) c0 c → procs c !! 1%nat = Some l →
    shutdown_err l = Some e → svc_next (shared c) l = [];
  svc_stops k c0 c : begun c0 → rtc (step_of svc_next (may_move k)) c0 c →
    (∀ c', ¬ step_of svc_next (may_move k) c c') →
    (c_shutdown k = true → ∃ l e, procs c !! 1%nat = Some l ∧ shutdown_err l = Some e) ∧
    (c_serve k = true → ∃ l, procs c !! 0%nat = Some l ∧
       ((∃ e, serve_err l = Some e) ∨ in_serve l = true ∧ c_shutdown k = false ∧ c_close k = false)) }.

(** [ServiceFuncs]: a nil ShutdownFunc does nothing. *)
Record ServiceFuncs := mkFuncs { ServeFunc : Server.serving; ShutdownFunc : option outcome }.
Definition funcs_Shutdown (f : ServiceFuncs) : outcome :=
  match ShutdownFunc f with None => Ret None | Some o => o end.
(** A Server over these functions, without hooks. *)
Definition funcs_config (f : ServiceFuncs) : Server.Config :=
  Server.mkConfig true (ServeFunc f) (funcs_Shutdown f) None None None.

(** * Package tcp *)

Module TcpService.
Import Tcp.
Section tcp.
Context (o : Options) (arr : list arrival).

Definition serve_err_tcp (l : Local) : option (option Err) :=
  match rets l with
  | [RetServe err] => Some (if err then Some (Wrap (User 0)) else None)
  | [RetRefused] => Some (Some (User 1))
  | _ => None
  end.
Definition shutdown_err_tcp (l : Local) : option (option Err) :=
  match rets l with [RetShutdown err] => Some (if err then Some Canceled else None) | _ => None end.

Definition serve_kont (k : kont) : bool := match k with KAccept _ | KServeEnd _ | KWait _ => true | _ => false end.
Definition serve_pc (p : pc) : bool :=
  match p with
  | VAccept _ | VFailed _ _ | VBackoff _ | VKey _ _ | VAdmit _ | VTrack _ | VWait _ | VCancel _ | VDone _ => true
  | Seq _ k | StopOnce k | StopSet k | StopLn k | StopDrain k | AbortAll k => serve_kont k
  | _ => false
  end.
(** The goroutine that calls Serve. *)
Definition serving_proc (l : Local) : Prop :=
  (at_pc l = Ready ∧ todo l = [CServe] ∧ rets l = []) ∨
  (serve_pc (at_pc l) = true ∧ todo l = [] ∧ rets l = []) ∨
  (at_pc l = Ready ∧ todo l = [] ∧ is_Some (serve_err_tcp l)).

Definition shut_kont (k : kont) : bool :=
  match k with KShutdown _ | KReturn (RetShutdown _) => true | _ => false end.
Definition shut_pc (p : pc) : bool :=
  match p with
  | HServing _ | HWait _ => true
  | Seq _ k | StopOnce k | StopSet k | StopLn k | StopDrain k | AbortAll k => shut_kont k
  | _ => false
  end.
Definition stop_moving (l : Local) : Prop :=
  (todo l = [] ∧ rets l = [] ∧ shut_pc (at_pc l) = true) ∨
  (at_pc l = Ready ∧ todo l = [] ∧ is_Some (shutdown_err_tcp l)).
(** The goroutine that calls Shutdown. *)
Definition stopping_proc (s : Sh) (l : Local) : Prop :=
  (at_pc l = Ready ∧ (∃ e, todo l = [CShutdown e]) ∧ rets l = []) ∨
  (todo l = [] ∧ rets l = [] ∧ ∃ k, at_pc l = StopOnce k ∧ shut_kont k = true) ∨
  (once s ≠ None ∧ stop_moving l).

Lemma serving_goto l p : todo l = [] → rets l = [] → serve_pc p = true → serving_proc (goto l p).
Proof. intros. right; left. done. Qed.
Lemma serving_resume l k : todo l = [] → rets l = [] → serve_kont k = true → serving_proc (resume l k).
Proof. intros Ht Hr Hk. destruct k as [|[]| | | |]; try done; by apply serving_goto. Qed.
Lemma serving_run l ops k : todo l = [] → rets l = [] → serve_kont k = true → serving_proc (run_seq l ops k).
Proof. intros Ht Hr Hk. destruct ops; [by apply serving_resume|by apply serving_goto]. Qed.

Lemma tcp_serving_step s l s' l' : serving_proc l → (s', l') ∈ next o s l → serving_proc l'.
Proof.
  intros Hp Hn. destruct Hp as [(Hpc & Ht & Hr)|[(Hpc & Ht & Hr)|(Hpc & Ht & _)]]; open_next Hn.
  - rewrite Hpc, Ht in Hn. simpl in Hn.
    assert (serving_proc (return_ (mkLocal Ready [] (rets l)) RetRefused)) as Href.
    { right; right. unfold serve_err_tcp. simpl. rewrite Hr. simpl. eauto. }
    repeat case_match; inv_elem; try done. by apply serving_goto.
  - assert (∀ err, serving_proc (return_ l (RetServe err))) as Hret.
    { intros err. right; right. unfold serve_err_tcp. simpl. rewrite Hr, Ht. simpl. eauto. }
    destruct (at_pc l) eqn:E; try done; simpl in Hpc; repeat case_match; inv_elem;
      first [apply Hret|by apply serving_goto|by apply serving_resume|by apply serving_run].
  - rewrite Hpc, Ht in Hn. by inv_elem.
Qed.

(** Once stopAccept has begun, it stays so. *)
Lemma once_stays s l s' l' : once s ≠ None → (s', l') ∈ next o s l → once s' ≠ None.
Proof.
  intros Ho Hn. open_next Hn. unfold start in Hn.
  destruct (at_pc l); repeat case_match; inv_elem; try done; simpl; try case_match; try done.
  all: try congruence. unfold exec. repeat case_match; done.
Qed.

Lemma moving_goto l p : todo l = [] → rets l = [] → shut_pc p = true → stop_moving (goto l p).
Proof. intros. by left. Qed.
Lemma moving_return l err : todo l = [] → rets l = [] → stop_moving (return_ l (RetShutdown err)).
Proof. intros Ht Hr. right. unfold shutdown_err_tcp. simpl. rewrite Hr. simpl. eauto. Qed.
Lemma moving_resume l k : todo l = [] → rets l = [] → shut_kont k = true → stop_moving (resume l k).
Proof. intros Ht Hr Hk. destruct k as [| | | |[]|]; try done; [by apply moving_return|by apply moving_goto]. Qed.
Lemma moving_run l ops k : todo l = [] → rets l = [] → shut_kont k = true → stop_moving (run_seq l ops k).
Proof. intros Ht Hr Hk. destruct ops; [by apply moving_resume|by apply moving_goto]. Qed.

Lemma moving_step s l s' l' : stop_moving l → (s', l') ∈ next o s l → stop_moving l'.
Proof.
  intros [(Ht & Hr & Hpc)|(Hpc & Ht & _)] Hn; open_next Hn; [|rewrite Hpc, Ht in Hn; by inv_elem].
  destruct (at_pc l) eqn:E; try done; simpl in Hpc; repeat case_match; inv_elem;
    first [by apply moving_return|by apply moving_goto|by apply moving_resume|by apply moving_run].
Qed.

Lemma tcp_stopping_step s l s' l' : stopping_proc s l → (s', l') ∈ next o s l → stopping_proc s' l'.
Proof.
  intros [(Hpc & [e Ht] & Hr)|[(Ht & Hr & k & Hpc & Hk)|[Ho Hm]]] Hn.
  - open_next Hn. rewrite Hpc, Ht in Hn. simpl in Hn. inv_elem. right; left. simpl. eauto 7.
  - open_next Hn. rewrite Hpc in Hn. right; right. repeat case_match; inv_elem; (split; [simpl; congruence|]).
    + by apply moving_resume.
    + by left.
  - right; right. split; [by eapply once_stays|]. by eapply moving_step.
Qed.
Lemma tcp_stopping_other s l s' l' y : stopping_proc s y → (s', l') ∈ next o s l → stopping_proc s' y.
Proof. intros [?|[?|[Ho ?]]] Hn; [by left|by right; left|]. right; right. split; [by eapply once_stays|done]. Qed.

(** The goroutine that calls Close. *)
Definition closing_proc (s : Sh) (l : Local) : Prop :=
  (at_pc l = Ready ∧ todo l = [CClose]) ∨ (∃ k, at_pc l = StopOnce k) ∨ once s ≠ None.
Lemma tcp_closing_step s l s' l' : closing_proc s l → (s', l') ∈ next o s l → closing_proc s' l'.
Proof.
  intros [[Hpc Ht]|[[k Hpc]|Ho]] Hn; [| |right; right; by eapply once_stays]; open_next Hn.
  - rewrite Hpc, Ht in Hn. simpl in Hn. inv_elem. right; left. simpl. eauto.
  - rewrite Hpc in Hn. right; right. repeat case_match; inv_elem; simpl; congruence.
Qed.
Lemma tcp_closing_other s l s' l' y : closing_proc s y → (s', l') ∈ next o s l → closing_proc s' y.
Proof. intros [?|[?|Ho]] Hn; [by left|by right; left|]. right; right. by eapply once_stays. Qed.

Context (s0 : Sh) (Hmax : MaxConnsPerIP o <= max_int64) (Hs0 : NewServer true true o arr = Some s0) (ends : bool).

Definition idle_tcp : Local := mkLocal Ready [] [].
Definition calls_tcp (k : called) : list (list call) :=
  [if c_serve k then [CServe] else []; if c_shutdown k then [CShutdown ends] else []; if c_close k then [CClose] else []].
Definition all_calls : called := mkCalled true true true.
Lemma tcp_park k : park (may_move k) idle_tcp (init s0 (calls_tcp all_calls)) = init s0 (calls_tcp k).
Proof using.
  unfold park, init. simpl. f_equal. f_equal; [by destruct (c_serve k)|]. f_equal; [by destruct (c_shutdown k)|].
  f_equal; [by destruct (c_close k)|]. apply (eq_trans (imap_const id _)), list_fmap_id.
Qed.

Lemma tcp_serving c k : rtc (step (next o)) (init s0 (calls_tcp k)) c → c_serve k = true →
  ∃ l, procs c !! 0%nat = Some l ∧ serving_proc l.
Proof using.
  intros Hr Hk. eapply (proc_inv (next o) (λ _, serving_proc)); [intros; by eapply tcp_serving_step|done| |exact Hr].
  eexists. split; [done|]. rewrite Hk. by left.
Qed.
Lemma tcp_stopping c k : rtc (step (next o)) (init s0 (calls_tcp k)) c → c_shutdown k = true →
  ∃ l, procs c !! 1%nat = Some l ∧ stopping_proc (shared c) l.
Proof using.
  intros Hr Hk. eapply (proc_inv (next o) stopping_proc); [apply tcp_stopping_step|apply tcp_stopping_other| |exact Hr].
  eexists. split; [done|]. rewrite Hk. left. simpl. eauto.
Qed.
Lemma tcp_closing c k : rtc (step (next o)) (init s0 (calls_tcp k)) c → c_close k = true →
  ∃ l, procs c !! 2%nat = Some l ∧ closing_proc (shared c) l.
Proof using.
  intros Hr Hk. eapply (proc_inv (next o) closing_proc); [apply tcp_closing_step|apply tcp_closing_other| |exact Hr].
  eexists. split; [done|]. rewrite Hk. by left.
Qed.

Lemma tcp_stops k c :
  rtc (step_of (next o) (may_move k)) (init s0 (calls_tcp all_calls)) c → (∀ c', ¬ step_of (next o) (may_move k) c c') →
  (c_shutdown k = true → ∃ l e, procs c !! 1%nat = Some l ∧ shutdown_err_tcp l = Some e) ∧
  (c_serve k = true → ∃ l, procs c !! 0%nat = Some l ∧
     ((∃ e, serve_err_tcp l = Some e) ∨ serve_pc (at_pc l) = true ∧ c_shutdown k = false ∧ c_close k = false)).
Proof using Hmax Hs0.
  intros Hr0 Hst0. pose proof (park_steps _ _ idle_tcp _ _ Hr0) as Hr. rewrite tcp_park in Hr.
  assert (∀ s, next o s idle_tcp = []) as Hidle by done.
  pose proof (park_stuck _ _ idle_tcp c Hidle Hst0) as Hst.
  pose proof (park_lookup (may_move k) idle_tcp c) as Hpk. set (d := park (may_move k) idle_tcp c) in *.
  destruct (tcp_stuck_finished o arr s0 (calls_tcp k) d Hmax Hs0) as [Hall Hfin];
    [unfold calls_tcp; repeat (apply Forall_cons_2; [case_match; set_solver|]); apply Forall_nil_2|
     exact Hr|exact (stuck_next _ d Hst)|].
  rewrite Forall_forall in Hall.
  assert (c_shutdown k = true → ∃ l1, procs d !! 1%nat = Some l1 ∧ once (shared d) ≠ None ∧ stop_moving l1) as Hsd.
  { intros Hk. destruct (tcp_stopping d k Hr Hk) as (l1 & Hl1 & H1). exists l1. split; [done|].
    destruct (Hall l1 (list_elem_of_lookup_2 _ _ _ Hl1)) as [[Hpc Ht]|[[a Hpc] _]];
      destruct H1 as [(E & [e Et] & _)|[(Et & _ & k' & E & _)|?]]; try done; rewrite E in Hpc || idtac; try done.
    rewrite Et in Ht. by destruct Ht as [?|[? _]]. }
  assert (c_shutdown k = true ∨ c_close k = true → once (shared d) ≠ None) as Honce.
  { intros [Hk|Hk]; [by destruct (Hsd Hk) as (? & _ & ? & _)|]. destruct (tcp_closing d k Hr Hk) as (l2 & Hl2 & H2).
    destruct (Hall l2 (list_elem_of_lookup_2 _ _ _ Hl2)) as [[Hpc Ht]|[[a Hpc] _]];
      destruct H2 as [[E Et]|[[k' E]|?]]; try done; rewrite E in Hpc || idtac; try done.
    rewrite Et in Ht. by destruct Ht as [?|[? _]]. }
  split.
  - intros Hk. destruct (Hsd Hk) as (l1 & Hl1 & Ho & Hm). specialize (Hfin Ho). rewrite Forall_forall in Hfin.
    destruct (Hfin l1 (list_elem_of_lookup_2 _ _ _ Hl1)) as [P1 _]. rewrite (Hpk 1%nat) in Hl1 by done.
    destruct Hm as [(_ & _ & Hpc)|(_ & _ & [e1 He1])]; [by rewrite P1 in Hpc|]. eauto.
  - intros Hk. destruct (tcp_serving d k Hr Hk) as (l0 & Hl0 & H0). pose proof (list_elem_of_lookup_2 _ _ _ Hl0) as Hin.
    rewrite (Hpk 0%nat) in Hl0 by done. exists l0. split; [done|].
    destruct H0 as [(_ & Ht & _)|[(Hpc & _)|(_ & _ & [e0 He0])]]; [| |left; eauto].
    + exfalso. destruct (Hall l0 Hin) as [[_ T]|[[a Ha] _]]; [rewrite Ht in T; by destruct T as [?|[? _]]|].
      pose proof (tcp_serving d k Hr Hk) as (l0' & Hl0' & Hs). rewrite (Hpk 0%nat), Hl0 in Hl0' by done. injection Hl0' as <-.
      destruct Hs as [(E & _)|[(_ & E & _)|(E & _)]]; congruence.
    + destruct (c_shutdown k) eqn:K1, (c_close k) eqn:K2; try (by right); exfalso;
        (assert (once (shared d) ≠ None) as Ho by (apply Honce; auto)); specialize (Hfin Ho); rewrite Forall_forall in Hfin;
        destruct (Hfin l0 Hin) as [P0 _]; by rewrite P0 in Hpc.
Qed.

Lemma tcp_serve_kept c l e : rtc (step (next o)) (init s0 (calls_tcp all_calls)) c →
  procs c !! 0%nat = Some l → serve_err_tcp l = Some e → next o (shared c) l = [].
Proof using.
  intros Hr Hl He. destruct (tcp_serving c all_calls Hr eq_refl) as (l' & Hl' & Hs). rewrite Hl in Hl'. injection Hl' as <-.
  unfold serve_err_tcp in He. destruct Hs as [(_ & _ & E)|[(_ & _ & E)|(Hpc & Ht & _)]]; [by rewrite E in He..|].
  unfold Tcp.next. by rewrite Hpc, Ht.
Qed.
Lemma tcp_shutdown_kept c l e : rtc (step (next o)) (init s0 (calls_tcp all_calls)) c →
  procs c !! 1%nat = Some l → shutdown_err_tcp l = Some e → next o (shared c) l = [].
Proof using.
  intros Hr Hl He. destruct (tcp_stopping c all_calls Hr eq_refl) as (l' & Hl' & Hs). rewrite Hl in Hl'. injection Hl' as <-.
  unfold shutdown_err_tcp in He.
  destruct Hs as [(_ & _ & E)|[(_ & E & _)|[_ [(_ & E & _)|(Hpc & Ht & _)]]]]; [by rewrite E in He..|].
  unfold Tcp.next. by rewrite Hpc, Ht.
Qed.

#[export] Instance tcp_service : Service Sh Local := {|
  svc_next := next o; begun c := c = init s0 (calls_tcp all_calls);
  serve_err := serve_err_tcp; shutdown_err := shutdown_err_tcp; in_serve l := serve_pc (at_pc l);
  svc_bound _ := (10 * length arr + (length arr + 20) * (3 + length arr))%nat;
  svc_ends n c0 c E := ltac:(rewrite E; exact (tcp_bounded o arr s0 _ n c Hs0));
  svc_serve_kept c0 c l e E := ltac:(rewrite E; exact (tcp_serve_kept c l e));
  svc_shutdown_kept c0 c l e E := ltac:(rewrite E; exact (tcp_shutdown_kept c l e));
  svc_stops k c0 c E := ltac:(rewrite E; exact (tcp_stops k c)) |}.
End tcp.
End TcpService.

(** * Package udp *)

Module UdpService.
Import Udp UdpThms.
Section udp.
Context (cfg : Config) (InterfaceByIndex : Z → option string) (classify : option Z → ReadErr) (qs : list (list rx)).
Local Abbreviation next := (next cfg InterfaceByIndex classify).

Definition serve_err_udp (l : Local) : option (option Err) :=
  match rets l with
  | [RetServe e] => Some ((λ n, Wrap (User (default 0 n))) <$> e)
  | [RetRefused] => Some (Some (User 1))
  | _ => None
  end.
Definition shutdown_err_udp (l : Local) : option (option Err) :=
  match rets l with [RetShutdown err] => Some (if err then Some Canceled else None) | _ => None end.

Definition serve_pc (p : pc) : bool := match p with SSpawn _ | SWait | SFatal | SDone _ => true | _ => false end.
(** The goroutine that calls Serve. *)
Definition serving_proc (l : Local) : Prop :=
  (at_pc l = Ready ∧ todo l = [CServe] ∧ rets l = []) ∨
  (serve_pc (at_pc l) = true ∧ todo l = [] ∧ rets l = []) ∨
  (at_pc l = Ready ∧ todo l = [] ∧ is_Some (serve_err_udp l)).

Definition shut_kont (k : kont) : bool := match k with KShutdown _ => true | _ => false end.
Definition shut_pc (p : pc) : bool :=
  match p with HServing _ | HWait _ => true | COnce k | CSet k | CChan k | CSock k => shut_kont k | _ => false end.
Definition stop_moving (l : Local) : Prop :=
  (todo l = [] ∧ rets l = [] ∧ shut_pc (at_pc l) = true) ∨
  (at_pc l = Ready ∧ todo l = [] ∧ is_Some (shutdown_err_udp l)).
(** The goroutine that calls Shutdown. *)
Definition stopping_proc (s : Sh) (l : Local) : Prop :=
  (at_pc l = Ready ∧ (∃ e, todo l = [CShutdown e]) ∧ rets l = []) ∨
  (todo l = [] ∧ rets l = [] ∧ ∃ k, at_pc l = COnce k ∧ shut_kont k = true) ∨
  (once s ≠ None ∧ stop_moving l).

Lemma udp_serving_goto l p : todo l = [] → rets l = [] → serve_pc p = true → serving_proc (goto l p).
Proof. intros. by right; left. Qed.
Lemma udp_serving_step s l s' l' : serving_proc l → (s', l') ∈ next s l → serving_proc l'.
Proof.
  intros [(Hpc & Ht & Hr)|[(Hpc & Ht & Hr)|(Hpc & Ht & _)]] Hn; open_udp Hn.
  - rewrite Hpc, Ht in Hn. simpl in Hn.
    assert (serving_proc (return_ (pop l []) RetRefused)) as Href.
    { right; right. unfold serve_err_udp. simpl. rewrite Hr. simpl. eauto. }
    repeat case_match; inv_elem; try done. by apply udp_serving_goto.
  - assert (∀ e, serving_proc (return_ l (RetServe e))) as Hret.
    { intros e. right; right. unfold serve_err_udp. simpl. rewrite Hr. simpl. eauto. }
    destruct (at_pc l) eqn:E; try done; repeat case_match; inv_elem; first [apply Hret|by apply udp_serving_goto].
  - rewrite Hpc, Ht in Hn. by inv_elem.
Qed.

(** Once Close has begun, it stays so. *)
Lemma udp_once_stays s l s' l' : once s ≠ None → (s', l') ∈ next s l → once s' ≠ None.
Proof.
  intros Ho Hn. open_udp Hn. unfold start, read_step in Hn.
  destruct (at_pc l); repeat case_match;
    try (apply list_elem_of_fmap in Hn as (? & Hn & _); injection Hn as -> ->); inv_elem;
    try done; simpl; try case_match; try done; congruence.
Qed.

Lemma udp_moving_goto l p : todo l = [] → rets l = [] → shut_pc p = true → stop_moving (goto l p).
Proof. intros. by left. Qed.
Lemma udp_moving_return l err : todo l = [] → rets l = [] → stop_moving (return_ l (RetShutdown err)).
Proof. intros Ht Hr. right. unfold shutdown_err_udp. simpl. rewrite Hr. simpl. eauto. Qed.
Lemma udp_moving_resume l k : todo l = [] → rets l = [] → shut_kont k = true → stop_moving (resume l k).
Proof. intros Ht Hr Hk. destruct k; try done. by apply udp_moving_goto. Qed.
Lemma udp_moving_step s l s' l' : stop_moving l → (s', l') ∈ next s l → stop_moving l'.
Proof.
  intros [(Ht & Hr & Hpc)|(Hpc & Ht & _)] Hn; open_udp Hn; [|rewrite Hpc, Ht in Hn; by inv_elem].
  destruct (at_pc l) eqn:E; try done; simpl in Hpc; repeat case_match; inv_elem;
    first [by apply udp_moving_return|by apply udp_moving_goto|by apply udp_moving_resume].
Qed.
Lemma udp_stopping_step s l s' l' : stopping_proc s l → (s', l') ∈ next s l → stopping_proc s' l'.
Proof.
  intros [(Hpc & [e Ht] & Hr)|[(Ht & Hr & k & Hpc & Hk)|[Ho Hm]]] Hn.
  - open_udp Hn. rewrite Hpc, Ht in Hn. simpl in Hn. inv_elem. right; left. simpl. eauto 7.
  - open_udp Hn. rewrite Hpc in Hn. right; right. repeat case_match; inv_elem; (split; [simpl; congruence|]).
    + by apply udp_moving_resume.
    + by left.
  - right; right. split; [by eapply udp_once_stays|]. by eapply udp_moving_step.
Qed.
Lemma udp_stopping_other s l s' l' y : stopping_proc s y → (s', l') ∈ next s l → stopping_proc s' y.
Proof. intros [?|[?|[Ho ?]]] Hn; [by left|by right; left|]. right; right. split; [by eapply udp_once_stays|done]. Qed.

(** The goroutine that calls Close. *)
Definition closing_proc (s : Sh) (l : Local) : Prop :=
  (at_pc l = Ready ∧ todo l = [CClose]) ∨ (∃ k, at_pc l = COnce k) ∨ once s ≠ None.
Lemma udp_closing_step s l s' l' : closing_proc s l → (s', l') ∈ next s l → closing_proc s' l'.
Proof.
  intros [[Hpc Ht]|[[k Hpc]|Ho]] Hn; [| |right; right; by eapply udp_once_stays]; open_udp Hn.
  - rewrite Hpc, Ht in Hn. simpl in Hn. inv_elem. right; left. simpl. eauto.
  - rewrite Hpc in Hn. right; right. repeat case_match; inv_elem; simpl; congruence.
Qed.
Lemma udp_closing_other s l s' l' y : closing_proc s y → (s', l') ∈ next s l → closing_proc s' y.
Proof. intros [?|[?|Ho]] Hn; [by left|by right; left|]. right; right. by eapply udp_once_stays. Qed.

Context (HL : listening cfg qs) (ends : bool).

Definition idle_udp : Local := fresh_local [].
Definition calls_udp (k : called) : list (list call) :=
  [if c_serve k then [CServe] else []; if c_shutdown k then [CShutdown ends] else []; if c_close k then [CClose] else []].
Definition all_calls : called := mkCalled true true true.
Lemma udp_park k : park (may_move k) idle_udp (init cfg qs (calls_udp all_calls)) = init cfg qs (calls_udp k).
Proof using.
  unfold park, init. simpl. f_equal. f_equal; [by destruct (c_serve k)|]. f_equal; [by destruct (c_shutdown k)|].
  f_equal; [by destruct (c_close k)|]. apply (eq_trans (imap_const id _)), list_fmap_id.
Qed.

Lemma udp_serving c k : rtc (step next) (init cfg qs (calls_udp k)) c → c_serve k = true →
  ∃ l, procs c !! 0%nat = Some l ∧ serving_proc l.
Proof using.
  intros Hr Hk. eapply (proc_inv next (λ _, serving_proc)); [intros; by eapply udp_serving_step|done| |exact Hr].
  eexists. split; [done|]. rewrite Hk. by left.
Qed.
Lemma udp_stopping c k : rtc (step next) (init cfg qs (calls_udp k)) c → c_shutdown k = true →
  ∃ l, procs c !! 1%nat = Some l ∧ stopping_proc (shared c) l.
Proof using.
  intros Hr Hk. eapply (proc_inv next stopping_proc); [apply udp_stopping_step|apply udp_stopping_other| |exact Hr].
  eexists. split; [done|]. rewrite Hk. left. simpl. eauto.
Qed.
Lemma udp_closing c k : rtc (step next) (init cfg qs (calls_udp k)) c → c_close k = true →
  ∃ l, procs c !! 2%nat = Some l ∧ closing_proc (shared c) l.
Proof using.
  intros Hr Hk. eapply (proc_inv next closing_proc); [apply udp_closing_step|apply udp_closing_other| |exact Hr].
  eexists. split; [done|]. rewrite Hk. by left.
Qed.

Lemma udp_stops k c :
  rtc (step_of next (may_move k)) (init cfg qs (calls_udp all_calls)) c → (∀ c', ¬ step_of next (may_move k) c c') →
  (c_shutdown k = true → ∃ l e, procs c !! 1%nat = Some l ∧ shutdown_err_udp l = Some e) ∧
  (c_serve k = true → ∃ l, procs c !! 0%nat = Some l ∧
     ((∃ e, serve_err_udp l = Some e) ∨ serve_pc (at_pc l) = true ∧ c_shutdown k = false ∧ c_close k = false)).
Proof using HL.
  intros Hr0 Hst0. pose proof (park_steps _ _ idle_udp _ _ Hr0) as Hr. rewrite udp_park in Hr.
  assert (∀ s, next s idle_udp = []) as Hidle by done.
  pose proof (park_stuck _ _ idle_udp c Hidle Hst0) as Hst.
  pose proof (park_lookup (may_move k) idle_udp c) as Hpk. set (d := park (may_move k) idle_udp c) in *.
  destruct (udp_stuck_finished cfg InterfaceByIndex classify qs HL (calls_udp k) d) as [Hall Hfin];
    [unfold calls_udp; repeat (apply Forall_cons_2; [case_match; set_solver|]); apply Forall_nil_2|
     exact Hr|exact (stuck_next _ d Hst)|].
  rewrite Forall_forall in Hall.
  assert (c_shutdown k = true → ∃ l1, procs d !! 1%nat = Some l1 ∧ once (shared d) ≠ None ∧ stop_moving l1) as Hsd.
  { intros Hk. destruct (udp_stopping d k Hr Hk) as (l1 & Hl1 & H1). exists l1. split; [done|].
    destruct (Hall l1 (list_elem_of_lookup_2 _ _ _ Hl1)) as [[Hpc Ht]|[[[a Hpc] _]|Hpc]];
      destruct H1 as [(E & [e Et] & _)|[(Et & _ & k' & E & _)|?]]; try done; rewrite E in Hpc || idtac; try done.
    rewrite Et in Ht. by destruct Ht as [?|[? _]]. }
  assert (c_shutdown k = true ∨ c_close k = true → once (shared d) ≠ None) as Honce.
  { intros [Hk|Hk]; [by destruct (Hsd Hk) as (? & _ & ? & _)|]. destruct (udp_closing d k Hr Hk) as (l2 & Hl2 & H2).
    destruct (Hall l2 (list_elem_of_lookup_2 _ _ _ Hl2)) as [[Hpc Ht]|[[[a Hpc] _]|Hpc]];
      destruct H2 as [[E Et]|[[k' E]|?]]; try done; rewrite E in Hpc || idtac; try done.
    rewrite Et in Ht. by destruct Ht as [?|[? _]]. }
  split.
  - intros Hk. destruct (Hsd Hk) as (l1 & Hl1 & Ho & Hm). specialize (Hfin Ho). rewrite Forall_forall in Hfin.
    destruct (Hfin l1 (list_elem_of_lookup_2 _ _ _ Hl1)) as [P1 _]. rewrite (Hpk 1%nat) in Hl1 by done.
    destruct Hm as [(_ & _ & Hpc)|(_ & _ & [e1 He1])]; [by rewrite P1 in Hpc|]. eauto.
  - intros Hk. destruct (udp_serving d k Hr Hk) as (l0 & Hl0 & H0). pose proof (list_elem_of_lookup_2 _ _ _ Hl0) as Hin.
    rewrite (Hpk 0%nat) in Hl0 by done. exists l0. split; [done|].
    destruct H0 as [(_ & Ht & _)|[(Hpc & _)|(_ & _ & [e0 He0])]]; [| |left; eauto].
    + exfalso. destruct (Hall l0 Hin) as [[_ T]|Ha]; [rewrite Ht in T; by destruct T as [?|[? _]]|].
      assert (at_pc l0 ≠ Ready) as Hnr by (destruct Ha as [[[a Ha] _]|Ha]; congruence).
      pose proof (udp_serving d k Hr Hk) as (l0' & Hl0' & Hs). rewrite (Hpk 0%nat), Hl0 in Hl0' by done. injection Hl0' as <-.
      destruct Hs as [(E & _)|[(_ & E & _)|(E & _)]]; congruence.
    + destruct (c_shutdown k) eqn:K1, (c_close k) eqn:K2; try (by right); exfalso;
        (assert (once (shared d) ≠ None) as Ho by (apply Honce; auto)); specialize (Hfin Ho); rewrite Forall_forall in Hfin;
        destruct (Hfin l0 Hin) as [P0 _]; by rewrite P0 in Hpc.
Qed.

Lemma udp_serve_kept c l e : rtc (step next) (init cfg qs (calls_udp all_calls)) c →
  procs c !! 0%nat = Some l → serve_err_udp l = Some e → next (shared c) l = [].
Proof using.
  intros Hr Hl He. destruct (udp_serving c all_calls Hr eq_refl) as (l' & Hl' & Hs). rewrite Hl in Hl'. injection Hl' as <-.
  unfold serve_err_udp in He. destruct Hs as [(_ & _ & E)|[(_ & _ & E)|(Hpc & Ht & _)]]; [by rewrite E in He..|].
  unfold Udp.next. by rewrite Hpc, Ht.
Qed.
Lemma udp_shutdown_kept c l e : rtc (step next) (init cfg qs (calls_udp all_calls)) c →
  procs c !! 1%nat = Some l → shutdown_err_udp l = Some e → next (shared c) l = [].
Proof using.
  intros Hr Hl He. destruct (udp_stopping c all_calls Hr eq_refl) as (l' & Hl' & Hs). rewrite Hl in Hl'. injection Hl' as <-.
  unfold shutdown_err_udp in He.
  destruct Hs as [(_ & _ & E)|[(_ & E & _)|[_ [(_ & E & _)|(Hpc & Ht & _)]]]]; [by rewrite E in He..|].
  unfold Udp.next. by rewrite Hpc, Ht.
Qed.

#[export] Instance udp_service : Service Sh Local := {|
  svc_next := next; begun c := c = init cfg qs (calls_udp all_calls);
  serve_err := serve_err_udp; shutdown_err := shutdown_err_udp; in_serve l := serve_pc (at_pc l);
  svc_bound _ := (let r := Z.to_nat (readers cfg) in let g := 3 + r in
    (2 * g + 12) * length (concat qs) + nsockn cfg + (r + 10) * (3 + r))%nat;
  svc_ends n c0 c E := ltac:(rewrite E; exact (udp_bounded cfg InterfaceByIndex classify qs _ n c HL));
  svc_serve_kept c0 c l e E := ltac:(rewrite E; exact (udp_serve_kept c l e));
  svc_shutdown_kept c0 c l e E := ltac:(rewrite E; exact (udp_shutdown_kept c l e));
  svc_stops k c0 c E := ltac:(rewrite E; exact (udp_stops k c)) |}.
End udp.
End UdpService.

