(* ===== verification/GroupRun.v ===== *)
(** Group of package netx ([src/lifecycle.go]) over services that keep the
    contract of [Service]: the goroutines of group.Serve and group.Shutdown run
    together with those of the services, which start when Group calls them and
    are aborted through the context that Group cancels when one fails. *)
From S2P Require Import Prelude Interleave Internal Limit Sys Lifecycle Tcp TcpThms Udp UdpRead UdpInv UdpThms Service.

(** * The goroutines *)

(** The goroutine that group.Serve starts for a service. *)
Inductive serve_go := SNone | SRun | SAbort | SDone | SEnd.
(** The goroutine that group.Shutdown starts for a service. *)
Inductive shut_go := HNone | HRun | HDone | HEnd.

(** A service of the group: the configuration it was handed over in, the one it
    is in, whether the end of its context has called its Close, its two
    goroutines, and its places in the two slices of errors. *)
Record member := mkMember {
  St : Type; Lo : Type; svc :: Service St Lo;
  from : @conf St Lo; now : @conf St Lo;
  fired : bool; sgo : serve_go; hgo : shut_go; serr : option Err; herr : option Err }.
Definition member_of {S L} (x : Service S L) (c : @conf S L) : member := mkMember S L x c c false SNone HNone None None.

Definition set_now (m : member) (c : @conf (St m) (Lo m)) : member :=
  mkMember (St m) (Lo m) (svc m) (from m) c (fired m) (sgo m) (hgo m) (serr m) (herr m).
Definition set_fired (m : member) : member :=
  mkMember (St m) (Lo m) (svc m) (from m) (now m) true (sgo m) (hgo m) (serr m) (herr m).
Definition set_serve (m : member) (p : serve_go) (e : option Err) : member :=
  mkMember (St m) (Lo m) (svc m) (from m) (now m) (fired m) p (hgo m) e (herr m).
Definition set_shut (m : member) (p : shut_go) (e : option Err) : member :=
  mkMember (St m) (Lo m) (svc m) (from m) (now m) (fired m) (sgo m) p (serr m) e.

(** What the service's Serve and Shutdown have returned, and whether Serve is
    under way. *)
Definition serve_result (m : member) : option (option Err) := l ← procs (now m) !! 0; serve_err l.
Definition shutdown_result (m : member) : option (option Err) := l ← procs (now m) !! 1; shutdown_err l.
Definition serving (m : member) : bool := match procs (now m) !! 0 with Some l => in_serve l | None => false end.
Definition calls (m : member) : called :=
  mkCalled (match sgo m with SNone => false | _ => true end) (match hgo m with HNone => false | _ => true end) (fired m).

(** The caller of group.Serve and the caller of group.Shutdown. *)
Inductive serve_pc := SSpawn (i : nat) | SWait | SReturned (e : option Err).
Inductive shut_pc := HIdle | HSpawn (i : nat) | HWait | HReturned (e : option Err).

(** [wg] and [hwg] are the two WaitGroups, [aborted] is the context of the
    services, [parent] the caller's; [cancels] says that the caller has yet to
    cancel it. *)
Record group := mkGroup {
  members : list member; main : serve_pc; wg : nat; hmain : shut_pc; hwg : nat;
  aborted : bool; parent : bool; cancels : bool }.
Definition set_member (g : group) (i : nat) (m : member) : group :=
  mkGroup (<[i:=m]> (members g)) (main g) (wg g) (hmain g) (hwg g) (aborted g) (parent g) (cancels g).
Definition set_main (g : group) (p : serve_pc) (n : nat) (ab : bool) : group :=
  mkGroup (members g) p n (hmain g) (hwg g) ab (parent g) (cancels g).
Definition set_hmain (g : group) (p : shut_pc) (n : nat) : group :=
  mkGroup (members g) (main g) (wg g) p n (aborted g) (parent g) (cancels g).

(** [group.Serve] *)
Definition Serve_main (g : group) : option group :=
  match main g with
  | SSpawn i =>
      match members g !! i with
      | Some m => Some (set_member (set_main g (SSpawn (S i)) (S (wg g)) (aborted g)) i (set_serve m SRun (serr m)))
      | None => Some (set_main g SWait (wg g) (aborted g))
      end
  | SWait =>
      if Nat.eqb (wg g) 0 then Some (set_main g (SReturned (errors_Join (serr <$> members g))) (wg g) true) else None
  | SReturned _ => None
  end.
(** [if errs[i] = s.Serve(ctx); errs[i] != nil { abort() }], then [wg.Done()]. *)
Definition Serve_goroutine (g : group) (i : nat) : option group :=
  m ← members g !! i;
  match sgo m with
  | SRun => e ← serve_result m; Some (set_member g i (set_serve m (match e with Some _ => SAbort | None => SDone end) e))
  | SAbort => Some (set_member (set_main g (main g) (wg g) true) i (set_serve m SDone (serr m)))
  | SDone => Some (set_member (set_main g (main g) (Nat.pred (wg g)) (aborted g)) i (set_serve m SEnd (serr m)))
  | SNone | SEnd => None
  end.

(** [group.Shutdown] *)
Definition Shutdown_main (g : group) : option group :=
  match hmain g with
  | HSpawn i =>
      match members g !! i with
      | Some m => Some (set_member (set_hmain g (HSpawn (S i)) (S (hwg g))) i (set_shut m HRun (herr m)))
      | None => Some (set_hmain g HWait (hwg g))
      end
  | HWait =>
      if Nat.eqb (hwg g) 0 then Some (set_hmain g (HReturned (errors_Join (herr <$> members g))) (hwg g)) else None
  | HIdle | HReturned _ => None
  end.
Definition Shutdown_goroutine (g : group) (i : nat) : option group :=
  m ← members g !! i;
  match hgo m with
  | HRun => e ← shutdown_result m; Some (set_member g i (set_shut m HDone e))
  | HDone => Some (set_member (set_hmain g (hmain g) (Nat.pred (hwg g))) i (set_shut m HEnd (herr m)))
  | HNone | HEnd => None
  end.

(** The context of the services has ended: the service calls its Close, as its
    Serve has arranged. *)
Definition AfterFunc (g : group) (i : nat) : option group :=
  m ← members g !! i;
  if (parent g || aborted g) && serving m && negb (fired m) then Some (set_member g i (set_fired m)) else None.
(** The caller cancels the context it gave to group.Serve. *)
Definition Cancel (g : group) : option group :=
  if cancels g then Some (mkGroup (members g) (main g) (wg g) (hmain g) (hwg g) (aborted g) true false) else None.

Inductive gstep : group → group → Prop :=
  | by_service g i m c' :
      members g !! i = Some m → step_of svc_next (may_move (calls m)) (now m) c' → gstep g (set_member g i (set_now m c'))
  | by_serve g g' : Serve_main g = Some g' → gstep g g'
  | by_serve_go g i g' : Serve_goroutine g i = Some g' → gstep g g'
  | by_shutdown g g' : Shutdown_main g = Some g' → gstep g g'
  | by_shutdown_go g i g' : Shutdown_goroutine g i = Some g' → gstep g g'
  | by_context g i g' : AfterFunc g i = Some g' → gstep g g'
  | by_caller g g' : Cancel g = Some g' → gstep g g'.

(** Group's Serve is called; its Shutdown too if [sh], at any time; and its
    caller cancels the context at some time if [cn]. *)
Definition start (ms : list member) (sh cn : bool) : group :=
  mkGroup ms (SSpawn 0) 0 (if sh then HSpawn 0 else HIdle) 0 false false cn.
Definition fresh (m : member) : Prop := begun (from m) ∧ m = member_of (svc m) (from m).
Definition still (g : group) : Prop := ∀ g', ¬ gstep g g'.

(** * Invariant *)

Definition s_spawned (m : member) : bool := match sgo m with SNone => false | _ => true end.
Definition h_spawned (m : member) : bool := match hgo m with HNone => false | _ => true end.
Definition s_busy (m : member) : nat := match sgo m with SRun | SAbort | SDone => 1 | _ => 0 end.
Definition h_busy (m : member) : nat := match hgo m with HRun | HDone => 1 | _ => 0 end.

(** A service, [k] actions into its run; what its goroutines know of it. *)
Record member_ok (ab : bool) (m : member) (k : nat) : Prop := {
  m_begun : begun (from m);
  m_run : rtc (step_of svc_next (may_move (calls m))) (from m) (now m);
  m_count : nsteps (step svc_next) k (from m) (now m);
  m_serr : match sgo m with SAbort | SDone | SEnd => serve_result m = Some (serr m) | _ => True end;
  m_abort : match sgo m with SDone | SEnd => is_Some (serr m) → ab = true | _ => True end;
  m_herr : match hgo m with HDone | HEnd => shutdown_result m = Some (herr m) | _ => True end }.

Definition spawned_upto (f : member → bool) (n : nat) (ms : list member) : Prop :=
  ∀ i m, ms !! i = Some m → (f m = true ↔ i < n).

Record group_ok (g : group) (ks : list nat) : Prop := {
  g_members : Forall2 (member_ok (aborted g)) (members g) ks;
  g_spawn : spawned_upto s_spawned (match main g with SSpawn n => n | _ => length (members g) end) (members g);
  g_hspawn : spawned_upto h_spawned
    (match hmain g with HIdle => 0 | HSpawn n => n | _ => length (members g) end) (members g);
  g_wg : wg g = sum_list (s_busy <$> members g);
  g_hwg : hwg g = sum_list (h_busy <$> members g);
  g_ret : match main g with SReturned e => wg g = 0 ∧ e = errors_Join (serr <$> members g) | _ => True end;
  g_hret : match hmain g with HReturned e => hwg g = 0 ∧ e = errors_Join (herr <$> members g) | _ => True end }.

(** ** Helpers *)

Lemma nsteps_steps_of {S L} (next : S → L → list (S * L)) A n c c' d :
  nsteps (step next) n c c' → step_of next A c' d → nsteps (step next) (Datatypes.S n) c d.
Proof. intros H1 H2. eapply nsteps_r; [done|]. by eapply step_of_step. Qed.


Lemma member_ok_mono ab ab' m k : (ab = true → ab' = true) → member_ok ab m k → member_ok ab' m k.
Proof. intros Hab []. split; try done. destruct (sgo m); auto. Qed.

(** More calls allow more steps. *)
Lemma calls_mono {S L} (next : S → L → list (S * L)) (k k' : called) c c' :
  (c_serve k = true → c_serve k' = true) → (c_shutdown k = true → c_shutdown k' = true) →
  (c_close k = true → c_close k' = true) →
  rtc (step_of next (may_move k)) c c' → rtc (step_of next (may_move k')) c c'.
Proof. intros H0 H1 H2. apply steps_of_mono. intros [|[|[|i]]]; done. Qed.

Lemma members_update ab ab' ms ks i m' k' :
  Forall2 (member_ok ab) ms ks → (ab = true → ab' = true) → member_ok ab' m' k' →
  Forall2 (member_ok ab') (<[i:=m']> ms) (<[i:=k']> ks).
Proof.
  intros H Hab Hm. apply Forall2_insert; [|done]. eapply Forall2_impl; [exact H|]. intros. by eapply member_ok_mono.
Qed.
Lemma members_at ab ms ks i m : Forall2 (member_ok ab) ms ks → ms !! i = Some m →
  ∃ k, ks !! i = Some k ∧ member_ok ab m k.
Proof. intros H Hm. destruct (Forall2_lookup_l _ _ _ _ _ H Hm) as (k & ? & ?). eauto. Qed.

Lemma spawned_keep f n ms i m m' : spawned_upto f n ms → ms !! i = Some m → f m' = f m → spawned_upto f n (<[i:=m']> ms).
Proof.
  intros H Hm Hf j x Hx. apply list_lookup_insert_Some in Hx as [(-> & <- & _)|[_ Hx]]; [|by apply H]. rewrite Hf. by apply H.
Qed.
Lemma spawned_next f ms i m' : spawned_upto f i ms → f m' = true → spawned_upto f (S i) (<[i:=m']> ms).
Proof.
  intros H Hf j x Hx. apply list_lookup_insert_Some in Hx as [(-> & <- & _)|[Hne Hx]]; [rewrite Hf; split; [lia|done]|].
  rewrite (H j x Hx). lia.
Qed.
Lemma spawned_all f ms n : spawned_upto f n ms → ms !! n = None → spawned_upto f (length ms) ms.
Proof.
  intros H Hn i m Hm. pose proof (lookup_lt_Some _ _ _ Hm). apply lookup_ge_None_1 in Hn. rewrite (H i m Hm). lia.
Qed.

Lemma sum_at (w : member → nat) ms i m : ms !! i = Some m → w m <= sum_list (w <$> ms).
Proof.
  revert i. induction ms as [|x ms IH]; intros [|i] Hm; simplify_eq/=; [lia|]. specialize (IH i Hm). lia.
Qed.
Lemma fmap_keep {B} (f : member → B) (ms : list member) (i : nat) m m' : ms !! i = Some m → f m' = f m → f <$> <[i:=m']> ms = f <$> ms.
Proof. intros Hm Hf. rewrite list_fmap_insert, Hf. apply list_insert_id. by rewrite list_lookup_fmap, Hm. Qed.

(** A service's step keeps what its calls have returned. *)
Lemma result_kept (m : member) c' e : begun (from m) → rtc (step svc_next) (from m) (now m) →
  step svc_next (now m) c' →
  (serve_result m = Some e → serve_result (set_now m c') = Some e) ∧
  (shutdown_result m = Some e → shutdown_result (set_now m c') = Some e).
Proof.
  intros Hb Hr Hs. unfold serve_result, shutdown_result. simpl.
  pose proof (svc_serve_kept (from m) (now m)) as K0. pose proof (svc_shutdown_kept (from m) (now m)) as K1.
  destruct Hs as [j l s s' l' ps Hl Hn]. simpl in *. split.
  - destruct (ps !! 0) as [l0|] eqn:E0; [|done]. simpl. intros He. destruct (decide (j = 0)) as [->|Hne].
    + rewrite E0 in Hl. injection Hl as ->. rewrite (K0 l e Hb Hr eq_refl He) in Hn. by apply not_elem_of_nil in Hn.
    + by rewrite list_lookup_insert_ne, E0.
  - destruct (ps !! 1) as [l1|] eqn:E1; [|done]. simpl. intros He. destruct (decide (j = 1)) as [->|Hne].
    + rewrite E1 in Hl. injection Hl as ->. rewrite (K1 l e Hb Hr eq_refl He) in Hn. by apply not_elem_of_nil in Hn.
    + by rewrite list_lookup_insert_ne, E1.
Qed.

Lemma member_service ab m k c' : member_ok ab m k → step_of svc_next (may_move (calls m)) (now m) c' →
  member_ok ab (set_now m c') (S k).
Proof.
  intros [Hb Hr Hc He Ha Hh] Hs.
  destruct (result_kept m c' (serr m) Hb (steps_of_steps _ _ _ _ Hr) (step_of_step _ _ _ _ Hs)) as [K0 _].
  destruct (result_kept m c' (herr m) Hb (steps_of_steps _ _ _ _ Hr) (step_of_step _ _ _ _ Hs)) as [_ K1].
  split; simpl; try done.
  - by eapply rtc_r.
  - by eapply nsteps_steps_of.
  - destruct (sgo m); auto.
  - destruct (hgo m); auto.
Qed.
Lemma member_fired ab m k : member_ok ab m k → member_ok ab (set_fired m) k.
Proof. intros [Hb Hr Hc He Ha Hh]. split; simpl; try done. eapply calls_mono; [..|exact Hr]; done. Qed.
Lemma member_serve ab ab' m k p e : member_ok ab m k → (ab = true → ab' = true) → p ≠ SNone →
  (match p with SAbort | SDone | SEnd => serve_result m = Some e | _ => True end) →
  (match p with SDone | SEnd => is_Some e → ab' = true | _ => True end) → member_ok ab' (set_serve m p e) k.
Proof.
  intros [Hb Hr Hc He Ha Hh] Hab Hp H1 H2. split; simpl; try done. eapply calls_mono; [..|exact Hr]; simpl; try done.
  by destruct p.
Qed.
Lemma member_shut ab m k p e : member_ok ab m k → p ≠ HNone →
  (match p with HDone | HEnd => shutdown_result m = Some e | _ => True end) → member_ok ab (set_shut m p e) k.
Proof.
  intros [Hb Hr Hc He Ha Hh] Hp H1. split; simpl; try done. eapply calls_mono; [..|exact Hr]; simpl; try done.
  by destruct p.
Qed.

(** ** Steps *)

(** What is left to do for Group itself. *)
Definition s_weight (p : serve_go) : nat := match p with SNone => 4 | SRun => 3 | SAbort => 2 | SDone => 1 | SEnd => 0 end.
Definition h_weight (p : shut_go) : nat := match p with HNone => 3 | HRun => 2 | HDone => 1 | HEnd => 0 end.
Definition m_weight (m : member) : nat := s_weight (sgo m) + h_weight (hgo m) + (if fired m then 0 else 1).
Definition frame (g : group) : nat :=
  match main g with SSpawn _ => 2 | SWait => 1 | SReturned _ => 0 end +
  match hmain g with HSpawn _ => 2 | HWait => 1 | _ => 0 end + (if cancels g then 1 else 0).
Definition own (g : group) : nat := frame g + sum_list (m_weight <$> members g).

Definition bound (m : member) : nat := svc_bound (from m).

(** A step keeps the invariant, and is either a service's or makes what is left
    to do smaller. *)
Definition advances (g : group) (ks : list nat) (g' : group) : Prop :=
  ∃ ks', group_ok g' ks' ∧ own g' + S (sum_list ks) <= own g + sum_list ks' ∧ bound <$> members g' = bound <$> members g.

(** A change of one member, by weight. *)
Lemma advances_member g ks g' i m k m' k' :
  members g !! i = Some m → ks !! i = Some k → members g' = <[i:=m']> (members g) →
  group_ok g' (<[i:=k']> ks) → bound m' = bound m →
  frame g' + m_weight m' + S k <= frame g + m_weight m + k' → advances g ks g'.
Proof.
  intros Hm Hk Em Hok Hb Hw. exists (<[i:=k']> ks). split_and!; [done| |by rewrite Em, (fmap_keep bound _ _ m)].
  pose proof (weight_insert (λ x : nat, x) i k k' ks Hk) as Hs. rewrite !list_fmap_id in Hs.
  pose proof (weight_insert m_weight i m m' (members g) Hm). unfold own. rewrite Em. simpl in *. lia.
Qed.

Section steps.
Context (g : group) (ks : list nat) (Hg : group_ok g ks).

Lemma ok_service i m c' : members g !! i = Some m → step_of svc_next (may_move (calls m)) (now m) c' →
  advances g ks (set_member g i (set_now m c')).
Proof using Hg.
  intros Hm Hs. destruct Hg as [Hms Hsp Hhs Hwg Hhw Hret Hhret]. destruct (members_at _ _ _ _ _ Hms Hm) as (k & Hk & Hok).
  eapply (advances_member _ _ _ i m k (set_now m c') (S k)); [done..| |done|unfold frame, m_weight; simpl; lia].
  split; simpl; rewrite ?length_insert.
  - eapply members_update; [done..|]. by apply member_service.
  - by eapply spawned_keep.
  - by eapply spawned_keep.
  - by rewrite (fmap_keep s_busy _ _ m).
  - by rewrite (fmap_keep h_busy _ _ m).
  - by rewrite (fmap_keep serr _ _ m).
  - by rewrite (fmap_keep herr _ _ m).
Qed.

Lemma ok_context i g' : AfterFunc g i = Some g' → advances g ks g'.
Proof using Hg.
  unfold AfterFunc. destruct (members g !! i) as [m|] eqn:Hm; [|done]. simpl. case_match eqn:E; [|done]. intros [= <-].
  apply andb_true_iff in E as [_ E]. apply negb_true_iff in E.
  destruct Hg as [Hms Hsp Hhs Hwg Hhw Hret Hhret]. destruct (members_at _ _ _ _ _ Hms Hm) as (k & Hk & Hok).
  eapply (advances_member _ _ _ i m k (set_fired m) k); [done..| |done|unfold frame, m_weight; simpl; rewrite E; lia].
  split; simpl; rewrite ?length_insert.
  - eapply members_update; [done..|]. by apply member_fired.
  - by eapply spawned_keep.
  - by eapply spawned_keep.
  - by rewrite (fmap_keep s_busy _ _ m).
  - by rewrite (fmap_keep h_busy _ _ m).
  - by rewrite (fmap_keep serr _ _ m).
  - by rewrite (fmap_keep herr _ _ m).
Qed.

Lemma ok_caller g' : Cancel g = Some g' → advances g ks g'.
Proof using Hg.
  unfold Cancel. destruct (cancels g) eqn:E; [|done]. intros [= <-]. exists ks. split_and!; [|unfold own, frame; simpl; rewrite E; lia|done].
  by destruct Hg.
Qed.

(** A change in the Serve goroutine of a member. *)
Lemma ok_set_serve i m p e main' wg' ab' :
  members g !! i = Some m → (aborted g = true → ab' = true) → p ≠ SNone →
  (match p with SAbort | SDone | SEnd => serve_result m = Some e | _ => True end) →
  (match p with SDone | SEnd => is_Some e → ab' = true | _ => True end) →
  spawned_upto s_spawned (match main' with SSpawn n => n | _ => length (members g) end) (<[i:=set_serve m p e]> (members g)) →
  wg' + s_busy m = wg g + match p with SRun | SAbort | SDone => 1 | _ => 0 end →
  (match main' with SReturned _ => e = serr m ∧ main' = main g ∧ wg' = 0 ∧ wg g = 0 | SWait => True | SSpawn _ => True end) →
  (match main' with SSpawn _ => 2 | SWait => 1 | SReturned _ => 0 end + s_weight p <
   match main g with SSpawn _ => 2 | SWait => 1 | SReturned _ => 0 end + s_weight (sgo m)) →
  advances g ks (set_member (set_main g main' wg' ab') i (set_serve m p e)).
Proof using Hg.
  intros Hm Hab Hp H1 H2 Hspawn Hw Hmain Hlt. destruct Hg as [Hms Hsp Hhs Hwg Hhw Hret Hhret].
  destruct (members_at _ _ _ _ _ Hms Hm) as (k & Hk & Hok).
  eapply (advances_member _ _ _ i m k (set_serve m p e) k); [done..| |done|unfold frame, m_weight; simpl; lia].
  split; simpl; rewrite ?length_insert.
  - eapply members_update; [done..|]. by eapply member_serve.
  - done.
  - by eapply spawned_keep.
  - pose proof (weight_insert s_busy i m (set_serve m p e) (members g) Hm) as Hs. unfold s_busy in Hs at 4. simpl in Hs. lia.
  - by rewrite (fmap_keep h_busy _ _ m).
  - destruct main'; try done. destruct Hmain as (-> & Em & -> & _). split; [done|]. rewrite (fmap_keep serr _ _ m) by done.
    rewrite <- Em in Hret. apply Hret.
  - by rewrite (fmap_keep herr _ _ m).
Qed.

Lemma ok_serve g' : Serve_main g = Some g' → advances g ks g'.
Proof using Hg.
  unfold Serve_main. destruct (main g) as [i| |e] eqn:Em; [| |done].
  - pose proof (g_spawn _ _ Hg) as Hsp. rewrite Em in Hsp. destruct (members g !! i) as [m|] eqn:Hm; intros [= <-].
    + assert (sgo m = SNone) as Hn.
      { pose proof (Hsp i m Hm) as H. unfold s_spawned in H. destruct (sgo m); try done; exfalso; assert (i < i) by (by apply H); lia. }
      apply ok_set_serve; simpl; try done; [by apply spawned_next|unfold s_busy; rewrite Hn; lia|rewrite Em, Hn; simpl; lia].
    + exists ks. destruct Hg as [Hms _ Hhs Hwg Hhw Hret Hhret]. split_and!; [|unfold own, frame; simpl; rewrite Em; lia|done].
      split; simpl; try done. by eapply spawned_all.
  - destruct (Nat.eqb_spec (wg g) 0) as [H0|]; [|done]. intros [= <-]. exists ks.
    destruct Hg as [Hms Hsp Hhs Hwg Hhw Hret Hhret]. split_and!; [|unfold own, frame; simpl; rewrite Em; lia|done].
    rewrite Em in Hsp. split; simpl; try done. eapply Forall2_impl; [exact Hms|]. intros. by apply (member_ok_mono (aborted g)).
Qed.

Lemma ok_serve_go i g' : Serve_goroutine g i = Some g' → advances g ks g'.
Proof using Hg.
  unfold Serve_goroutine. destruct (members g !! i) as [m|] eqn:Hm; [|done]. simpl.
  pose proof (g_spawn _ _ Hg) as Hsp. pose proof (g_ret _ _ Hg) as Hret. pose proof (g_wg _ _ Hg) as Hwg.
  pose proof (sum_at s_busy _ _ _ Hm) as Hbusy. unfold s_busy in Hbusy at 1.
  destruct (members_at _ _ _ _ _ (g_members _ _ Hg) Hm) as (k & _ & Hok). pose proof (m_serr _ _ _ Hok) as He.
  pose proof (m_abort _ _ _ Hok) as Ha.
  assert (∀ p e, p ≠ SNone → sgo m ≠ SNone → spawned_upto s_spawned
    (match main g with SSpawn n => n | _ => length (members g) end) (<[i:=set_serve m p e]> (members g))) as Hkeep.
  { intros p e Hp Hn. eapply spawned_keep; [done..|]. unfold s_spawned. simpl. by destruct p, (sgo m). }
  assert (s_busy m = 1 → ∀ (P : Prop) e, main g = SReturned e → P) as Hno.
  { intros Hb P e E. rewrite E in Hret. destruct Hret as [H0 _]. unfold s_busy in Hb. lia. }
  unfold s_busy in Hno. destruct (sgo m) eqn:Es; try done.
  - destruct (serve_result m) as [e|] eqn:Er; [|done]. intros [= <-].
    replace g with (set_main g (main g) (wg g) (aborted g)) at 2 by (by destruct g).
    apply ok_set_serve; try done; [by destruct e|by destruct e|destruct e; done|by apply Hkeep; [destruct e|]| | |].
    + unfold s_busy. rewrite Es. destruct e; lia.
    + destruct (main g) eqn:E; try done. eapply (Hno eq_refl); done.
    + rewrite Es. destruct e; simpl; lia.
  - intros [= <-]. apply ok_set_serve; try done; [by apply Hkeep|unfold s_busy; rewrite Es; lia| |rewrite Es; simpl; lia].
    destruct (main g) eqn:E; try done. eapply (Hno eq_refl); done.
  - intros [= <-]. apply ok_set_serve; try done; [by apply Hkeep|unfold s_busy; rewrite Es; lia| |rewrite Es; simpl; lia].
    destruct (main g) eqn:E; try done. eapply (Hno eq_refl); done.
Qed.

(** A change in the Shutdown goroutine of a member. *)
Lemma ok_set_shut i m p e main' wg' :
  members g !! i = Some m → p ≠ HNone →
  (match p with HDone | HEnd => shutdown_result m = Some e | _ => True end) →
  spawned_upto h_spawned (match main' with HIdle => 0 | HSpawn n => n | _ => length (members g) end)
    (<[i:=set_shut m p e]> (members g)) →
  wg' + h_busy m = hwg g + match p with HRun | HDone => 1 | _ => 0 end →
  (match main' with HReturned _ => e = herr m ∧ main' = hmain g ∧ wg' = 0 | _ => True end) →
  (match main' with HSpawn _ => 2 | HWait => 1 | _ => 0 end + h_weight p <
   match hmain g with HSpawn _ => 2 | HWait => 1 | _ => 0 end + h_weight (hgo m)) →
  advances g ks (set_member (set_hmain g main' wg') i (set_shut m p e)).
Proof using Hg.
  intros Hm Hp H1 Hspawn Hw Hmain Hlt. destruct Hg as [Hms Hsp Hhs Hwg Hhw Hret Hhret].
  destruct (members_at _ _ _ _ _ Hms Hm) as (k & Hk & Hok).
  eapply (advances_member _ _ _ i m k (set_shut m p e) k); [done..| |done|unfold frame, m_weight; simpl; lia].
  split; simpl; rewrite ?length_insert.
  - eapply members_update; [done..|]. by apply member_shut.
  - by eapply spawned_keep.
  - done.
  - by rewrite (fmap_keep s_busy _ _ m).
  - pose proof (weight_insert h_busy i m (set_shut m p e) (members g) Hm) as Hs. unfold h_busy in Hs at 4. simpl in Hs. lia.
  - by rewrite (fmap_keep serr _ _ m).
  - destruct main'; try done. destruct Hmain as (-> & Em & ->). split; [done|]. rewrite (fmap_keep herr _ _ m) by done.
    rewrite <- Em in Hhret. apply Hhret.
Qed.

Lemma ok_shutdown g' : Shutdown_main g = Some g' → advances g ks g'.
Proof using Hg.
  unfold Shutdown_main. destruct (hmain g) as [|i| |e] eqn:Em; [done| | |done].
  - pose proof (g_hspawn _ _ Hg) as Hsp. rewrite Em in Hsp. destruct (members g !! i) as [m|] eqn:Hm; intros [= <-].
    + assert (hgo m = HNone) as Hn.
      { pose proof (Hsp i m Hm) as H. unfold h_spawned in H. destruct (hgo m); try done; exfalso; assert (i < i) by (by apply H); lia. }
      apply ok_set_shut; simpl; try done; [by apply spawned_next|unfold h_busy; rewrite Hn; lia|rewrite Em, Hn; simpl; lia].
    + exists ks. destruct Hg as [Hms Hsp' _ Hwg Hhw Hret Hhret]. split_and!; [|unfold own, frame; simpl; rewrite Em; lia|done].
      split; simpl; try done. by eapply spawned_all.
  - destruct (Nat.eqb_spec (hwg g) 0) as [H0|]; [|done]. intros [= <-]. exists ks.
    destruct Hg as [Hms Hsp Hhs Hwg Hhw Hret Hhret]. split_and!; [|unfold own, frame; simpl; rewrite Em; lia|done].
    rewrite Em in Hhs. by split.
Qed.

Lemma ok_shutdown_go i g' : Shutdown_goroutine g i = Some g' → advances g ks g'.
Proof using Hg.
  unfold Shutdown_goroutine. destruct (members g !! i) as [m|] eqn:Hm; [|done]. simpl.
  pose proof (g_hspawn _ _ Hg) as Hsp. pose proof (g_hret _ _ Hg) as Hret. pose proof (g_hwg _ _ Hg) as Hwg.
  pose proof (sum_at h_busy _ _ _ Hm) as Hbusy. unfold h_busy in Hbusy at 1.
  destruct (members_at _ _ _ _ _ (g_members _ _ Hg) Hm) as (k & _ & Hok). pose proof (m_herr _ _ _ Hok) as He.
  assert (∀ p e, p ≠ HNone → hgo m ≠ HNone → spawned_upto h_spawned
    (match hmain g with HIdle => 0 | HSpawn n => n | _ => length (members g) end) (<[i:=set_shut m p e]> (members g))) as Hkeep.
  { intros p e Hp Hn. eapply spawned_keep; [done..|]. unfold h_spawned. simpl. by destruct p, (hgo m). }
  assert (h_busy m = 1 → ∀ (P : Prop) e, hmain g = HReturned e → P) as Hno.
  { intros Hb P e E. rewrite E in Hret. destruct Hret as [H0 _]. unfold h_busy in Hb. lia. }
  unfold h_busy in Hno. destruct (hgo m) eqn:Es; try done.
  - destruct (shutdown_result m) as [e|] eqn:Er; [|done]. intros [= <-].
    replace g with (set_hmain g (hmain g) (hwg g)) at 2 by (by destruct g).
    apply ok_set_shut; try done; [by apply Hkeep|unfold h_busy; rewrite Es; lia| |rewrite Es; simpl; lia].
    destruct (hmain g) eqn:E; try done. eapply (Hno eq_refl); done.
  - intros [= <-]. apply ok_set_shut; try done; [by apply Hkeep|unfold h_busy; rewrite Es; lia| |rewrite Es; simpl; lia].
    destruct (hmain g) eqn:E; try done. eapply (Hno eq_refl); done.
Qed.

End steps.

Lemma ok_step g ks g' : group_ok g ks → gstep g g' → advances g ks g'.
Proof.
  intros Hg Hs. destruct Hs; eauto using ok_service, ok_serve, ok_serve_go, ok_shutdown, ok_shutdown_go, ok_context, ok_caller.
Qed.

Lemma ok_start ms sh cn : Forall fresh ms → group_ok (start ms sh cn) (replicate (length ms) 0).
Proof.
  intros Hf. assert (∀ m, m ∈ ms → s_spawned m = false ∧ h_spawned m = false ∧ s_busy m = 0 ∧ h_busy m = 0) as Hms.
  { intros m Hm. rewrite Forall_forall in Hf. destruct (Hf m Hm) as [_ ->]. done. }
  assert (∀ w : member → nat, (∀ m, m ∈ ms → w m = 0) → sum_list (w <$> ms) = 0) as H0.
  { clear. intros w. induction ms as [|m ms IH]; intros Hw; [done|].
    assert (w m = 0 ∧ sum_list (w <$> ms) = 0) as [? ?] by (split; [apply Hw; left|apply IH; intros; apply Hw; by right]).
    rewrite fmap_cons. change (w m + sum_list (w <$> ms) = 0). lia. }
  split; simpl; try done.
  - clear Hms H0. induction Hf as [|m ms [Hb E] _ IH]; simpl; constructor; [|done]. rewrite E. split; simpl; try done. constructor.
  - intros i m Hm%list_elem_of_lookup_2%Hms. destruct Hm as [-> _]. split; [done|lia].
  - assert (spawned_upto h_spawned 0 ms) as H; [|by destruct sh].
    intros i m Hm%list_elem_of_lookup_2%Hms. destruct Hm as (_ & -> & _). split; [done|lia].
  - symmetry. apply H0. intros m Hm%Hms. tauto.
  - symmetry. apply H0. intros m Hm%Hms. tauto.
  - by destruct sh.
Qed.

(** A run of [n] actions. *)
Lemma ok_run g0 ks0 n g : group_ok g0 ks0 → nsteps gstep n g0 g →
  ∃ ks, group_ok g ks ∧ own g + n + sum_list ks0 <= own g0 + sum_list ks ∧ bound <$> members g = bound <$> members g0.
Proof.
  intros Hg Hr. revert ks0 Hg. induction Hr as [g|n a b d Hab _ IH]; intros ks0 Hg.
  - exists ks0. split_and!; [done|lia|done].
  - destruct (ok_step _ _ _ Hg Hab) as (ks1 & Hg1 & Hw1 & Hb1). destruct (IH ks1 Hg1) as (ks & Hok & Hw & Hb).
    exists ks. split_and!; [done|lia|congruence].
Qed.

(** What the run was started with stays. *)
Lemma started_kept g g' : rtc gstep g g' →
  (hmain g ≠ HIdle ↔ hmain g' ≠ HIdle) ∧ (cancels g || parent g = cancels g' || parent g').
Proof.
  induction 1 as [|a b d Hab _ [IH1 IH2]]; [done|]. rewrite <- IH1, <- IH2. clear IH1 IH2.
  destruct Hab as [| g g' H | g i g' H | g g' H | g i g' H | g i g' H | g g' H]; try done;
    unfold Serve_main, Serve_goroutine, Shutdown_main, Shutdown_goroutine, AfterFunc, Cancel in H.
  all: try (destruct (members g !! i) as [m|]; [simpl in H|done]).
  all: repeat (case_match; simplify_eq/=; try done).
  all: try (destruct (serve_result m); by simplify_eq/=); try (destruct (shutdown_result m); by simplify_eq/=).
Qed.

(** * When nothing moves *)

Section still.
Context (g : group) (ks : list nat) (Hg : group_ok g ks) (Hst : still g).

Lemma still_member i m : members g !! i = Some m →
  (c_shutdown (calls m) = true → is_Some (shutdown_result m)) ∧
  (c_serve (calls m) = true → is_Some (serve_result m) ∨
     serving m = true ∧ c_shutdown (calls m) = false ∧ c_close (calls m) = false).
Proof using Hg Hst.
  intros Hm. destruct (members_at _ _ _ _ _ (g_members _ _ Hg) Hm) as (k & _ & Hok).
  destruct (svc_stops (calls m) (from m) (now m) (m_begun _ _ _ Hok) (m_run _ _ _ Hok)) as [H1 H0].
  { intros c' Hs. eapply Hst. by eapply by_service. }
  unfold shutdown_result, serve_result, serving. split.
  - intros Hk. destruct (H1 Hk) as (l & e & -> & He). simpl. eauto.
  - intros Hk. destruct (H0 Hk) as (l & -> & [[e He]|?]); simpl; eauto.
Qed.

(** No goroutine of Group has anything to do. *)
Lemma still_none i : Serve_main g = None ∧ Serve_goroutine g i = None ∧ Shutdown_main g = None ∧
  Shutdown_goroutine g i = None ∧ AfterFunc g i = None ∧ Cancel g = None.
Proof using Hst.
  split_and!; match goal with |- ?x = None => destruct x eqn:E; [exfalso; eapply Hst|done] end.
  - by apply by_serve.
  - by eapply by_serve_go.
  - by apply by_shutdown.
  - by eapply by_shutdown_go.
  - by eapply by_context.
  - by apply by_caller.
Qed.

(** The goroutines of group.Shutdown have ended. *)
Lemma still_shut i m : members g !! i = Some m → hgo m = HNone ∨ hgo m = HEnd.
Proof using Hg Hst.
  intros Hm. destruct (still_member i m Hm) as [H1 _]. destruct (still_none i) as (_ & _ & _ & Hn & _).
  unfold Shutdown_goroutine in Hn. rewrite Hm in Hn. simpl in Hn. unfold calls in H1. simpl in H1.
  destruct (hgo m); auto; exfalso; [destruct H1 as [e E]; [done|]; by rewrite E in Hn|done].
Qed.

Lemma still_hmain : hmain g = HIdle ∨ ∃ e, hmain g = HReturned e.
Proof using Hg Hst.
  destruct (still_none 0) as (_ & _ & Hn & _). unfold Shutdown_main in Hn.
  destruct (hmain g) as [|i| |e] eqn:E; eauto; exfalso.
  - by destruct (members g !! i).
  - assert (hwg g = 0) as E0; [|by rewrite E0 in Hn]. rewrite (g_hwg _ _ Hg).
    pose proof still_shut as Hend. clear - Hend. revert Hend. generalize (members g). intros ms. induction ms as [|m ms IH]; intros H; [done|].
    change (h_busy m + sum_list (h_busy <$> ms) = 0). rewrite IH by (intros i; apply (H (S i))). unfold h_busy.
    by destruct (H 0 m eq_refl) as [->| ->].
Qed.

(** A Serve goroutine waits only for a service that is serving, while nothing
    has ended its context and Shutdown has not been called. *)
Lemma still_serve i m : members g !! i = Some m → sgo m = SEnd ∨
  sgo m = SRun ∧ serving m = true ∧ serve_result m = None ∧ hgo m = HNone ∧ parent g = false ∧ aborted g = false ∨ sgo m = SNone.
Proof using Hg Hst.
  intros Hm. destruct (still_member i m Hm) as [_ H0]. destruct (still_none i) as (_ & Hn & _ & _ & Ha & _).
  unfold Serve_goroutine in Hn. unfold AfterFunc in Ha. rewrite Hm in Hn, Ha. simpl in Hn, Ha. unfold calls in H0. simpl in H0.
  destruct (sgo m); auto; try done. right; left. destruct (serve_result m) as [e|]; [done|].
  destruct H0 as [[? ?]|(Hs & Hh & Hc)]; [done..|]. rewrite Hs, Hc in Ha.
  destruct (parent g), (aborted g); try done. split_and!; try done. by destruct (hgo m).
Qed.

Lemma still_main : (∀ i m, members g !! i = Some m → sgo m ≠ SNone) ∧
  ((∀ m, m ∈ members g → sgo m = SEnd) → ∃ e, main g = SReturned e).
Proof using Hg Hst.
  pose proof (g_spawn _ _ Hg) as Hsp. destruct (still_none 0) as (Hn & _). unfold Serve_main in Hn.
  assert (main g = SWait ∨ (∃ e, main g = SReturned e) → ∀ i m, members g !! i = Some m → sgo m ≠ SNone) as Hall.
  { intros Hmain i m Hm E. assert (s_spawned m = true) as H; [|unfold s_spawned in H; by rewrite E in H].
    apply (Hsp i m Hm). apply lookup_lt_Some in Hm. by destruct Hmain as [->|[? ->]]. }
  destruct (main g) as [i| |e] eqn:E; [by destruct (members g !! i)| |split; eauto].
  split; [by apply Hall; left|]. intros Hend. exfalso.
  assert (wg g = 0) as E0; [|by rewrite E0 in Hn]. rewrite (g_wg _ _ Hg). clear - Hend. revert Hend. generalize (members g). intros ms.
  induction ms as [|m ms IH]; intros H; [done|]. change (s_busy m + sum_list (s_busy <$> ms) = 0).
  rewrite IH by (intros; apply H; by right). unfold s_busy. by rewrite (H m) by left.
Qed.
End still.

(** Once group.Serve or group.Shutdown has returned, so have the services'. *)
Lemma returned_serves g ks e : group_ok g ks → main g = SReturned e →
  Forall2 (λ m e, serve_result m = Some e) (members g) (serr <$> members g) ∧ e = errors_Join (serr <$> members g).
Proof.
  intros Hg E. pose proof (g_ret _ _ Hg) as Hret. rewrite E in Hret. destruct Hret as [H0 ->]. split; [|done].
  apply Forall2_fmap_r, Forall_Forall2_diag, Forall_lookup_2. intros i m Hm.
  destruct (members_at _ _ _ _ _ (g_members _ _ Hg) Hm) as (k & _ & Hok). pose proof (m_serr _ _ _ Hok) as He.
  pose proof (g_spawn _ _ Hg) as Hsp. rewrite E in Hsp. pose proof (proj2 (Hsp i m Hm) (lookup_lt_Some _ _ _ Hm)) as Hs.
  pose proof (sum_at s_busy _ _ _ Hm) as Hb. rewrite <- (g_wg _ _ Hg), H0 in Hb. unfold s_busy, s_spawned in *.
  destruct (sgo m); done || lia.
Qed.
Lemma returned_shutdowns g ks e : group_ok g ks → hmain g = HReturned e →
  Forall2 (λ m e, shutdown_result m = Some e) (members g) (herr <$> members g) ∧ e = errors_Join (herr <$> members g).
Proof.
  intros Hg E. pose proof (g_hret _ _ Hg) as Hret. rewrite E in Hret. destruct Hret as [H0 ->]. split; [|done].
  apply Forall2_fmap_r, Forall_Forall2_diag, Forall_lookup_2. intros i m Hm.
  destruct (members_at _ _ _ _ _ (g_members _ _ Hg) Hm) as (k & _ & Hok). pose proof (m_herr _ _ _ Hok) as He.
  pose proof (g_hspawn _ _ Hg) as Hsp. rewrite E in Hsp. pose proof (proj2 (Hsp i m Hm) (lookup_lt_Some _ _ _ Hm)) as Hs.
  pose proof (sum_at h_busy _ _ _ Hm) as Hb. rewrite <- (g_hwg _ _ Hg), H0 in Hb. unfold h_busy, h_spawned in *.
  destruct (hgo m); done || lia.
Qed.

(** The services' runs are bounded. *)
Lemma counts_bounded ab ms ks : Forall2 (member_ok ab) ms ks → sum_list ks <= sum_list (bound <$> ms).
Proof.
  induction 1 as [|m k ms ks Hm _ IH]; [done|]. change (k + sum_list ks <= bound m + sum_list (bound <$> ms)).
  pose proof (svc_ends k (from m) (now m) (m_begun _ _ _ Hm) (m_count _ _ _ Hm)). unfold bound at 1. lia.
Qed.
Lemma own_start ms sh cn : Forall fresh ms → own (start ms sh cn) <= 8 * length ms + 5.
Proof.
  intros Hf. assert (sum_list (m_weight <$> ms) = 8 * length ms) as E.
  { induction Hf as [|m ms [_ Em] _ IH]; [done|]. change (m_weight m + sum_list (m_weight <$> ms) = 8 * S (length ms)).
    rewrite IH, Em. simpl. lia. }
  unfold own, frame. simpl. rewrite E. destruct sh, cn; lia.
Qed.

(** C32: Group runs services that keep the contract of a Service, tcp servers
    and udp Conns in any number and mixture whose handlers return, whatever the
    schedule of Group's goroutines and theirs. A run has no more actions than those of the services
    and 8 for each and 5 more. group.Serve returns only when every Serve has
    returned, with their errors joined in the order of the services, and
    group.Shutdown likewise. When nothing can move any more: group.Shutdown, if
    called, has returned; group.Serve has returned if Shutdown was called, if its
    caller cancelled its context, or if any one Serve failed; and a Serve that has
    not returned is serving. *)
Theorem group_shuts_down ms sh cn n g :
  Forall fresh ms → nsteps gstep n (start ms sh cn) g →
  n <= 8 * length ms + 5 + sum_list (bound <$> ms) ∧
  (∀ e, main g = SReturned e →
     ∃ es, Forall2 (λ m e, serve_result m = Some e) (members g) es ∧ e = errors_Join es) ∧
  (∀ e, hmain g = HReturned e →
     ∃ es, Forall2 (λ m e, shutdown_result m = Some e) (members g) es ∧ e = errors_Join es) ∧
  (still g →
     (sh = true → ∃ e, hmain g = HReturned e) ∧
     (sh = true ∨ cn = true ∨ (∃ m e, m ∈ members g ∧ serve_result m = Some (Some e)) → ∃ e, main g = SReturned e) ∧
     ∀ m, m ∈ members g → serve_result m = None → serving m = true).
Proof.
  intros Hf Hr. destruct (ok_run _ _ _ _ (ok_start ms sh cn Hf) Hr) as (ks & Hg & Hn & Hb).
  pose proof (own_start ms sh cn Hf) as Hown. pose proof (counts_bounded _ _ _ (g_members _ _ Hg)) as Hc. rewrite Hb in Hc. simpl in Hc.
  split; [lia|]. split; [intros e He; eexists; by eapply returned_serves|].
  split; [intros e He; eexists; by eapply returned_shutdowns|]. intros Hst.
  destruct (started_kept _ _ (rtc_nsteps_2 _ _ _ Hr)) as [Hsh Hcn].
  destruct (still_main g ks Hg Hst) as [Hsp Hret]. pose proof (still_serve g ks Hg Hst) as Hs.
  assert (sh = true → ∃ e, hmain g = HReturned e) as Hshut.
  { intros ->. destruct (still_hmain g ks Hg Hst) as [E|?]; [|done]. by destruct (proj1 Hsh). }
  split_and!; [done| |].
  - intros Hwhy. apply Hret. intros m [i Hm]%list_elem_of_lookup_1.
    destruct (Hs i m Hm) as [?|[(_ & _ & _ & Hh & Hp & Ha)|?]]; [done| |by destruct (Hsp i m Hm)]. exfalso.
    destruct Hwhy as [Hx|[Hx|(m' & e & [j Hm']%list_elem_of_lookup_1 & He)]].
    + destruct (Hshut Hx) as [e E]. pose proof (g_hspawn _ _ Hg) as Hsp'. rewrite E in Hsp'.
      pose proof (proj2 (Hsp' i m Hm) (lookup_lt_Some _ _ _ Hm)) as H. unfold h_spawned in H. by rewrite Hh in H.
    + subst cn. simpl in Hcn. rewrite Hp, orb_false_r in Hcn.
      destruct (still_none g Hst 0) as (_ & _ & _ & _ & _ & Hc'). unfold Cancel in Hc'. by rewrite <- Hcn in Hc'.
    + destruct (Hs j m' Hm') as [E|[(_ & _ & E & _)|E]]; [|congruence|by destruct (Hsp j m' Hm')].
      destruct (members_at _ _ _ _ _ (g_members _ _ Hg) Hm') as (k & _ & Hok).
      pose proof (m_serr _ _ _ Hok) as H1. pose proof (m_abort _ _ _ Hok) as H2. rewrite E in H1, H2. rewrite H1 in He. injection He as He.
      rewrite H2 in Ha; [done|]. rewrite He. eauto.
  - intros m [i Hm]%list_elem_of_lookup_1 E. destruct (Hs i m Hm) as [Es|[(_ & ? & _)|Es]]; [|done|by destruct (Hsp i m Hm)].
    destruct (members_at _ _ _ _ _ (g_members _ _ Hg) Hm) as (k & _ & Hok). pose proof (m_serr _ _ _ Hok) as H1. rewrite Es in H1. congruence.
Qed.

(** * A run *)

(** A scheduler: the first service, then the first goroutine of Group, that can
    move. *)
Definition service_move {S L} (next : S → L → list (S * L)) (A : nat → bool) (c : @conf S L) : option (@conf S L) :=
  head (omap (λ i, if A i then run1 next c (i, 0) else None) (seq 0 (length (procs c)))).
Definition member_move (g : group) (i : nat) : option group :=
  m ← members g !! i; c' ← service_move svc_next (may_move (calls m)) (now m); Some (set_member g i (set_now m c')).
Definition group_move (g : group) : option group :=
  let ids := seq 0 (length (members g)) in
  head (omap (member_move g) ids ++ option_list (Serve_main g) ++ omap (Serve_goroutine g) ids ++
        option_list (Shutdown_main g) ++ omap (Shutdown_goroutine g) ids ++ omap (AfterFunc g) ids ++ option_list (Cancel g)).
Fixpoint group_drive (fuel : nat) (g : group) : nat * group :=
  match fuel with
  | O => (0, g)
  | S fuel => match group_move g with Some g' => let '(n, h) := group_drive fuel g' in (S n, h) | None => (0, g) end
  end.

Lemma service_move_sound {S L} (next : S → L → list (S * L)) A c c' :
  service_move next A c = Some c' → step_of next A c c'.
Proof.
  intros H%head_Some_elem_of%list_elem_of_omap. destruct H as (i & _ & H). destruct (A i) eqn:HA; [|done].
  destruct c as [s ps]. unfold run1 in H. simpl in H. destruct (ps !! i) as [l|] eqn:Hl; [|done]. simpl in H.
  destruct (next s l) as [|[s' l'] rest] eqn:Hn; [done|]. simplify_eq/=. eapply step_of_at; [done..|]. rewrite Hn. left.
Qed.
Lemma group_move_sound g g' : group_move g = Some g' → gstep g g'.
Proof.
  intros H%head_Some_elem_of. rewrite !elem_of_app, !list_elem_of_omap in H.
  assert (∀ o : option group, g' ∈ option_list o → o = Some g') as Ho by (intros [x|] Hx; simpl in Hx; set_solver).
  destruct H as [(i & _ & H)|[H%Ho|[(i & _ & H)|[H%Ho|[(i & _ & H)|[(i & _ & H)|H%Ho]]]]]]; [|by econstructor..].
  unfold member_move in H. destruct (members g !! i) as [m|] eqn:Hm; [|done]. simpl in H.
  destruct (service_move _ _ _) as [c'|] eqn:E; [|done]. injection H as <-. eapply by_service; [done|]. by apply service_move_sound.
Qed.
Lemma group_drive_sound fuel g : nsteps gstep (group_drive fuel g).1 g (group_drive fuel g).2.
Proof.
  revert g. induction fuel as [|fuel IH]; intros g; simpl; [constructor|].
  destruct (group_move g) as [g'|] eqn:E; [|constructor]. specialize (IH g'). destruct (group_drive fuel g') as [n h].
  econstructor; [by apply group_move_sound|done].
Qed.

(** Nothing moves when the scheduler finds nothing. *)
Lemma service_move_none {S L} (next : S → L → list (S * L)) A c c' : service_move next A c = None → ¬ step_of next A c c'.
Proof.
  intros H%head_None Hs. destruct Hs as [i l s s' l' ps HA Hl Hn]. destruct (next s l) as [|[s1 l1] rest] eqn:En; [by apply not_elem_of_nil in Hn|].
  eapply not_elem_of_nil. rewrite <- H. apply list_elem_of_omap. exists i. split; [apply elem_of_seq; simpl; apply lookup_lt_Some in Hl; lia|].
  rewrite HA. unfold run1. simpl. rewrite Hl. simpl. by rewrite En.
Qed.
Lemma group_move_none g : group_move g = None → still g.
Proof.
  unfold group_move. rewrite head_None, !app_nil. intros (H1 & H2 & H3 & H4 & H5 & H6 & H7) g' Hs.
  assert (∀ f : nat → option group, omap f (seq 0 (length (members g))) = [] →
    (∀ i, is_Some (f i) → is_Some (members g !! i)) → ∀ i x, f i ≠ Some x) as Hno.
  { intros f Hf Hd i x Hx. destruct (Hd i) as [m Hm]; [by rewrite Hx|]. eapply not_elem_of_nil. rewrite <- Hf.
    apply list_elem_of_omap. exists i. split; [apply elem_of_seq; apply lookup_lt_Some in Hm; lia|done]. }
  assert (∀ (f : nat → member → option group) i, is_Some (m ← members g !! i; f i m) → is_Some (members g !! i)) as Hd.
  { intros f i. destruct (members g !! i); [eauto|by intros [x Hx]]. }
  destruct Hs as [g i m c' Hm Hs|g g' H|g i g' H|g g' H|g i g' H|g i g' H|g g' H].
  - destruct (service_move svc_next (may_move (calls m)) (now m)) as [d|] eqn:E; [|by eapply service_move_none in E].
    apply (Hno _ H1 (Hd _) i (set_member g i (set_now m d))). unfold member_move. rewrite Hm. simpl. by rewrite E.
  - by rewrite H in H2.
  - by eapply (Hno _ H3 (Hd _)).
  - by rewrite H in H4.
  - by eapply (Hno _ H5 (Hd _)).
  - by eapply (Hno _ H6 (Hd _)).
  - by rewrite H in H7.
Qed.

(** A tcp server and a udp Conn whose socket breaks: the Conn's Serve fails,
    Group cancels the context, and the server is aborted. *)
Module DemoGroup.
Lemma tcp_ready : Tcp.NewServer true true Demo.opts Demo.arr = Some Demo.srv.
Proof. vm_compute. reflexivity. Qed.
Lemma tcp_max : (Tcp.MaxConnsPerIP Demo.opts <= max_int64)%Z.
Proof. vm_compute. discriminate. Qed.
Definition tcp_svc : Service Tcp.Sh Tcp.Local :=
  TcpService.tcp_service Demo.opts Demo.arr Demo.srv tcp_max tcp_ready false.
Definition udp_svc : Service Udp.Sh Udp.Local :=
  UdpService.udp_service DemoConn.cfg DemoConn.ifs ClassifyRead DemoConn.qs DemoConn.demo_listening false.
Definition tcp_conf : @conf Tcp.Sh Tcp.Local := Tcp.init Demo.srv [[Tcp.CServe]; [Tcp.CShutdown false]; [Tcp.CClose]].
Definition udp_conf : @conf Udp.Sh Udp.Local :=
  Udp.init DemoConn.cfg DemoConn.qs [[Udp.CServe]; [Udp.CShutdown false]; [Udp.CClose]].
Definition start0 : group := start [member_of tcp_svc tcp_conf; member_of udp_svc udp_conf] false false.
Definition last : group := (group_drive 400 start0).2.
Lemma last_run : nsteps gstep (group_drive 400 start0).1 start0 last.
Proof. exact (group_drive_sound 400 start0). Qed.
Lemma last_still : still last.
Proof. apply group_move_none. vm_compute. reflexivity. Qed.
End DemoGroup.

Lemma group_shuts_down_witness :
  ∃ n e, nsteps gstep n DemoGroup.start0 DemoGroup.last ∧ still DemoGroup.last ∧
    main DemoGroup.last = SReturned e ∧ e = errors_Join [None; Some (Wrap (User 9))].
Proof.
  exists (group_drive 400 DemoGroup.start0).1.
  destruct (group_shuts_down [member_of DemoGroup.tcp_svc DemoGroup.tcp_conf; member_of DemoGroup.udp_svc DemoGroup.udp_conf]
    false false _ _ ltac:(do 2 (apply Forall_cons_2; [split; reflexivity|]); apply Forall_nil_2) DemoGroup.last_run)
    as (_ & Hmain & _ & Hend).
  destruct (Hend DemoGroup.last_still) as (_ & [e He] & _).
  { right; right.
    assert (serve_result <$> members DemoGroup.last !! 1 = Some (Some (Some (Wrap (User 9))))) as H by (vm_compute; reflexivity).
    apply fmap_Some in H as (m & Hm & E). exists m, (Wrap (User 9)). split; [exact (list_elem_of_lookup_2 _ _ _ Hm)|by symmetry]. }
  exists e. split; [exact DemoGroup.last_run|]. split; [exact DemoGroup.last_still|]. split; [exact He|].
  assert (main DemoGroup.last = SReturned (errors_Join [None; Some (Wrap (User 9))])) as E by (vm_compute; reflexivity).
  rewrite E in He. injection He as <-. reflexivity.
Defined.
