(* ===== verification/Leak.v ===== *)
(** Package internal/leak ([src/internal/leak]): the baseline of goroutines
    and open files that tests compare with. What the runtime and /proc report
    at each turn is a parameter, as is the clock. *)
From S2P Require Import Prelude Internal.

Local Open Scope Z_scope.

Record Snapshot := mkSnapshot { Goroutines : Z; FDs : Z }.

(** The number of entries of /proc/self/fd; [None] is an error. *)
Definition openFDs (entries : option nat) : Z := match entries with Some n => Z.of_nat n | None => -1 end.
Definition Take (numGoroutine : Z) (entries : option nat) : Snapshot := mkSnapshot numGoroutine (openFDs entries).

(** [gOK && fOK] *)
Definition within (s : Snapshot) (slack : Z) (now : Snapshot) : bool :=
  (Goroutines now <=? i64 (Goroutines s + slack)) &&
  ((FDs s <? 0) || (FDs now <? 0) || (FDs now <=? i64 (FDs s + slack))).

Inductive verdict := Clean | Leaked (s now : Snapshot) (slack : Z).

Section check.
(** What turn [i] of the loop sees: the counts, then the clock. *)
Context (counts : nat → Z * option nat) (clock : nat → Z).

Definition taken (i : nat) : Snapshot := Take (counts i).1 (counts i).2.

(** The loop from turn [i]; [None]: still waiting after [fuel] turns. *)
Fixpoint Check_loop (fuel : nat) (s : Snapshot) (deadline slack : Z) (i : nat) : option verdict :=
  match fuel with
  | O => None
  | S fuel =>
      let now := taken i in
      if within s slack now then Some Clean
      else if deadline <? clock i then Some (Leaked s now slack)
      else Check_loop fuel s deadline slack (S i)
  end.
Definition Check (fuel : nat) (s : Snapshot) (start timeout slack : Z) : option verdict :=
  Check_loop fuel s (start + timeout) slack 0.

Lemma Check_loop_waits fuel s deadline slack i :
  (∃ j, (i <= j < i + fuel)%nat ∧
     (∀ k, (i <= k < j)%nat → within s slack (taken k) = false ∧ clock k <= deadline) ∧
     ((within s slack (taken j) = true ∧ Check_loop fuel s deadline slack i = Some Clean) ∨
      (within s slack (taken j) = false ∧ deadline < clock j ∧
       Check_loop fuel s deadline slack i = Some (Leaked s (taken j) slack)))) ∨
  ((∀ k, (i <= k < i + fuel)%nat → within s slack (taken k) = false ∧ clock k <= deadline) ∧
   Check_loop fuel s deadline slack i = None).
Proof.
  revert i. induction fuel as [|fuel IH]; intros i; simpl; [right; split; [lia|done]|].
  destruct (within s slack (taken i)) eqn:Hw; [left; exists i; split_and!; [lia..|by left]|].
  destruct (Z.ltb_spec deadline (clock i)) as [Hd|Hd]; [left; exists i; split_and!; [lia..|by right]|].
  destruct (IH (S i)) as [(j & Hj & Hk & Hv)|[Hk ->]].
  - left. exists j. split_and!; [lia..| |done]. intros k Hik. destruct (decide (k = i)) as [->|]; [done|]. apply Hk. lia.
  - right. split; [|done]. intros k Hik. destruct (decide (k = i)) as [->|]; [done|]. apply Hk. lia.
Qed.

(** Check decides within its timeout: on a clock that advances by at
    least the 5ms of the loop's sleep each turn, it returns after at most
    timeout/5ms + 2 turns. It returns nil at the first turn whose counts are
    within the baseline and the slack (counts of files that a platform cannot
    make are not compared), and an error only when every turn exceeded them up
    to one after the deadline. *)
Theorem Check_decides s start timeout slack :
  (∀ i, start + Z.of_nat i * (5 * Backoff.millisecond) <= clock i) → 0 <= timeout →
  let fuel := Z.to_nat (timeout / (5 * Backoff.millisecond) + 2) in
  ∃ j, (j < fuel)%nat ∧ (∀ k, (k < j)%nat → within s slack (taken k) = false) ∧
    ((within s slack (taken j) = true ∧ Check fuel s start timeout slack = Some Clean) ∨
     (within s slack (taken j) = false ∧ start + timeout < clock j ∧
      Check fuel s start timeout slack = Some (Leaked s (taken j) slack))).
Proof.
  intros Hclock Ht fuel. unfold Check.
  destruct (Check_loop_waits fuel s (start + timeout) slack 0) as [(j & Hj & Hk & Hv)|[Hk _]].
  - exists j. split_and!; [lia| |done]. intros k Hkj. apply Hk. lia.
  - exfalso. set (u := 5 * Backoff.millisecond) in *. assert (0 < u) by (unfold u, Backoff.millisecond; lia).
    assert (0 <= timeout / u) by (apply Z.div_pos; lia).
    destruct (Hk (fuel - 1)%nat) as [_ Hc]; [unfold fuel; lia|]. specialize (Hclock (fuel - 1)%nat).
    pose proof (Z.mul_succ_div_gt timeout u ltac:(lia)). unfold fuel in *.
    replace (Z.of_nat (Z.to_nat (timeout / u + 2) - 1)) with (Z.succ (timeout / u)) in Hclock by lia. lia.
Qed.
End check.

(** A goroutine that ends in the third turn. *)
Lemma Check_decides_witness :
  Check (λ i, (if (i <? 2)%nat then 4 else 3, Some 9%nat)) (λ i, Z.of_nat i * 6000000) 12 (mkSnapshot 3 9) 0 50000000 0 = Some Clean.
Proof.
  destruct (Check_decides (λ i, (if (i <? 2)%nat then 4 else 3, Some 9%nat)) (λ i, Z.of_nat i * 6000000)
    (mkSnapshot 3 9) 0 50000000 0) as (j & Hj & Hk & H).
  - intros i. unfold Backoff.millisecond. lia.
  - lia.
  - change (Z.to_nat (50000000 / (5 * Backoff.millisecond) + 2)) with 12%nat in H.
    destruct H as [[_ ->]|(_ & Hd & H)]; [reflexivity|]. vm_compute in H. discriminate H.
Defined.
