(* ===== verification/Mmsg.v ===== *)
(** The BatchReader of package internal/sys
    ([src/internal/sys/mmsg_linux.go]) over its memory: the message headers
    and the buffers they point to, which every Read uses again.

    The system call is the environment: it fills the headers as recvmsg(2) and
    recvmmsg(2) say. How it lays out control data in the room it has, and the
    flags it sets beside MSG_TRUNC, are parameters. *)
From S2P Require Import Prelude Tcp Sys Udp.

Local Open Scope Z_scope.

(** * Memory *)

Definition write_at (m : list Z) (off : nat) (bs : list Z) : list Z :=
  take off m ++ bs ++ drop (off + length bs) m.
Definition read_at (m : list Z) (off n : nat) : list Z := take n (drop off m).

Lemma write_at_length m off bs :
  (off + length bs <= length m)%nat → length (write_at m off bs) = length m.
Proof. intros H. unfold write_at. rewrite !length_app, length_take, length_drop. lia. Qed.
Lemma read_write_same m off bs :
  (off + length bs <= length m)%nat → read_at (write_at m off bs) off (length bs) = bs.
Proof.
  intros H. unfold read_at, write_at. rewrite drop_app_length' by (rewrite length_take; lia). by rewrite take_app_length.
Qed.
Lemma read_write_other m off bs off' n :
  (off + length bs <= length m)%nat → (off' + n <= off ∨ off + length bs <= off')%nat →
  read_at (write_at m off bs) off' n = read_at m off' n.
Proof.
  intros Hm H. apply list_eq. intros j. unfold read_at. destruct (decide (j < n)%nat) as [Hj|Hj].
  - rewrite !lookup_take_lt, !lookup_drop by done. unfold write_at. destruct H as [H|H].
    + rewrite lookup_app_l by (rewrite length_take; lia). by rewrite lookup_take_lt by lia.
    + rewrite lookup_app_r by (rewrite length_take; lia). rewrite lookup_app_r by (rewrite length_take; lia).
      rewrite lookup_drop, length_take. f_equal. lia.
  - by rewrite !lookup_take_ge by lia.
Qed.

(** A socket address with room for the fields of its family. *)
Definition sa_ok (a : list Z) : Prop :=
  (2 <= length a <= 112)%nat ∧ (sa_family a = 2 → (16 <= length a)%nat) ∧ (sa_family a = 10 → (28 <= length a)%nat).

(** What follows a socket address does not matter. *)
Lemma addr_app ifs zones a x : sa_ok a → addr ifs zones (a ++ x) = addr ifs zones a.
Proof.
  intros (H2 & H4 & H6). unfold addr.
  assert (sa_family (a ++ x) = sa_family a) as -> by (unfold sa_family; by rewrite take_app_le by lia).
  assert ((4 <= length a)%nat → sa_port (a ++ x) = sa_port a) as Hp
    by (intros; unfold sa_port; by rewrite !lookup_app_l by lia).
  destruct (Z.eqb_spec (sa_family a) 2) as [E|_].
  { specialize (H4 E). rewrite Hp by lia. unfold in4_addr. by rewrite drop_app_le, take_app_le by (rewrite ?length_drop; lia). }
  destruct (Z.eqb_spec (sa_family a) 10) as [E|_]; [|done]. specialize (H6 E). rewrite Hp by lia.
  assert (in6_addr (a ++ x) = in6_addr a) as ->
    by (unfold in6_addr; by rewrite drop_app_le, take_app_le by (rewrite ?length_drop; lia)).
  assert (in6_scope (a ++ x) = in6_scope a) as ->
    by (unfold in6_scope; by rewrite drop_app_le, take_app_le by (rewrite ?length_drop; lia)).
  done.
Qed.

Module BatchReader.

(** * Data *)

(** A message header: which name buffer and which vector it points to, where
    its control buffer starts, and the fields the kernel reads and writes. *)
Record mmsghdr := mkHdr {
  Name : nat; Namelen : Z; Iov : nat; Iovlen : Z; Control : option nat; Controllen : Z; Flags : Z; len : Z }.
Record Iovec := mkIov { Base : nat; Len : nat }.

Record BatchReader := mkBR {
  msgs : list mmsghdr; iovs : list Iovec; names : list (list Z); oob : list Z; oobSize : nat;
  n : Z; errno : Z; zones : gmap Z string }.

Definition SizeofSockaddrAny : nat := 112.
Definition MsgTrunc : Z := 32.

Definition set_result (r : BatchReader) (k e : Z) : BatchReader :=
  mkBR (msgs r) (iovs r) (names r) (oob r) (oobSize r) k e (zones r).

(** Buffers are slices of one block of memory: their starts and lengths.
    [&bufs[i][0]] panics for an empty one. *)
Definition NewBatchReader (bufs : list (nat * nat)) (size : nat) : option BatchReader :=
  if forallb (λ b, negb (Nat.eqb b.2 0)) bufs then
    Some (mkBR (imap (λ i _, mkHdr i 0 i 1 (if Nat.eqb size 0 then None else Some (i * size)%nat) 0 0 0) bufs)
               ((λ b, mkIov b.1 b.2) <$> bufs) (replicate (length bufs) (replicate SizeofSockaddrAny 0))
               (replicate (length bufs * size) 0) size 0 0 ∅)
  else None.

(** The first loop of [recv]. *)
Definition reset (r : BatchReader) : BatchReader :=
  mkBR ((λ h, mkHdr (Name h) (Z.of_nat SizeofSockaddrAny) (Iov h) (Iovlen h) (Control h) (Z.of_nat (oobSize r)) 0 (len h)) <$> msgs r)
       (iovs r) (names r) (oob r) (oobSize r) (n r) (errno r) (zones r).

(** A computation panics, waits for ever, or returns. *)
Inductive outcome (A : Type) := Panics | Blocks | Returns (a : A).
Arguments Panics {A}. Arguments Blocks {A}. Arguments Returns {A} a.

Section reader.
Context (InterfaceByIndex : Z → option string).
(** Control data as written into so many bytes, and the other flags. *)
Context (put_cmsg : nat → list Z → list Z) (other_flags : nat → list Z → Z).

(** * The system call *)

Definition trunc_flag (size : nat) (d : dgram) : Z := if bool_decide (size < length (payload d))%nat then MsgTrunc else 0.

(** One datagram into message [i]; [None] is a fault. *)
Definition deliver (r : BatchReader) (mem : list Z) (i : nat) (d : dgram) : option (BatchReader * list Z) :=
  h ← msgs r !! i; v ← iovs r !! Iov h; nm ← names r !! Name h;
  let room := match Control h with Some _ => Z.to_nat (Controllen h) | None => O end in
  let data := take (Len v) (payload d) in
  let ctl := put_cmsg room (Udp.oob d) in
  let name := take (Z.to_nat (Namelen h)) (sa d) in
  let h' := mkHdr (Name h) (Z.of_nat (length (sa d))) (Iov h) (Iovlen h) (Control h) (Z.of_nat (length ctl))
              (Z.lor (trunc_flag (Len v) d) (other_flags room (Udp.oob d))) (Z.of_nat (length data)) in
  Some (mkBR (<[i := h']> (msgs r)) (iovs r) (<[Name h := write_at nm 0 name]> (names r))
             (match Control h with Some off => write_at (oob r) off ctl | None => oob r end)
             (oobSize r) (n r) (errno r) (zones r),
        write_at mem (Base v) data).
Fixpoint deliver_all (r : BatchReader) (mem : list Z) (i : nat) (ds : list dgram) : option (BatchReader * list Z) :=
  match ds with
  | [] => Some (r, mem)
  | d :: rest => '(r', mem') ← deliver r mem i d; deliver_all r' mem' (S i) rest
  end.

(** What a call answers, and what ends the poller's wait. *)
Inductive answer := Errno (e : Z) | Received (ds : list dgram) | Closed.

(** * Reading *)

(** The second loop of [recv]: true when it has a result. *)
Fixpoint recv_loop (r : BatchReader) (mem : list Z) (answers : list answer)
  : outcome (bool * BatchReader * list Z * list answer) :=
  match answers with
  | Errno e :: rest =>
      if e =? EINTR then recv_loop r mem rest
      else if e =? EAGAIN then Returns (false, r, mem, rest)
      else Returns (true, set_result r (-1) e, mem, rest)
  | Received ds :: rest =>
      match deliver_all r mem 0 ds with
      | Some (r', mem') => Returns (true, set_result r' (Z.of_nat (length ds)) 0, mem', rest)
      | None => Panics
      end
  | Closed :: _ => Returns (false, r, mem, answers)
  | [] => Blocks
  end.
Definition recv (r : BatchReader) (mem : list Z) (answers : list answer) := recv_loop (reset r) mem answers.

Inductive read_err := ErrClosed | SyscallError (e : Z).

(** [r.raw.Read(r.readFn)]: recv, and again after each wait; a closed socket
    ends it. Then the result. Every turn takes an answer. *)
Fixpoint Read_loop (fuel : nat) (r : BatchReader) (mem : list Z) (answers : list answer)
  : outcome ((Z + read_err) * BatchReader * list Z * list answer) :=
  match fuel, answers with
  | O, _ => Blocks
  | S _, Closed :: rest => Returns (inr ErrClosed, r, mem, rest)
  | S fuel, _ =>
      match recv r mem answers with
      | Panics => Panics
      | Blocks => Blocks
      | Returns (false, r', mem', rest) => Read_loop fuel r' mem' rest
      | Returns (true, r', mem', rest) =>
          Returns (if errno r' =? 0 then inl (n r') else inr (SyscallError (errno r')), r', mem', rest)
      end
  end.
Definition Read (r : BatchReader) (mem : list Z) (answers : list answer) :=
  Read_loop (S (length answers)) (set_result r 0 0) mem answers.

(** [b[i:j]], within the length of [b]. *)
Definition slice (b : list Z) (i j : nat) : option (list Z) :=
  if bool_decide (i <= j ∧ j <= length b)%nat then Some (read_at b i (j - i)) else None.

(** Datagram [i]: its length, control data, flags and sender; [None] is a
    panic. *)
Definition Message (r : BatchReader) (i : nat) : option (BatchReader * (Z * list Z * Z * option AddrPort)) :=
  m ← msgs r !! i;
  ctl ← (if Nat.eqb (oobSize r) 0 then Some []
         else slice (oob r) (i * oobSize r) (i * oobSize r + Z.to_nat (Controllen m)));
  name ← names r !! i;
  let '(zs, from) := addr InterfaceByIndex (zones r) name in
  Some (mkBR (msgs r) (iovs r) (names r) (oob r) (oobSize r) (n r) (errno r) zs, (len m, ctl, Flags m, from)).
End reader.

(** * The headers stay in place *)

Section exact.
Context (InterfaceByIndex : Z → option string).
Context (put_cmsg : nat → list Z → list Z) (other_flags : nat → list Z → Z).
Hypothesis put_fits : ∀ room c, (length (put_cmsg room c) <= room)%nat.
Hypothesis flags_apart : ∀ room c, Z.land (other_flags room c) MsgTrunc = 0.
Context (bufs : list (nat * nat)) (size : nat).

Local Abbreviation deliver := (deliver put_cmsg other_flags).
Local Abbreviation deliver_all := (deliver_all put_cmsg other_flags).

(** Message [i] points to buffer [i], name [i] and control slot [i], whatever
    was read before. *)
Record wired (r : BatchReader) : Prop := {
  w_msgs : length (msgs r) = length bufs;
  w_hdr i h : msgs r !! i = Some h →
    Name h = i ∧ Iov h = i ∧ Control h = (if Nat.eqb size 0 then None else Some (i * size)%nat);
  w_iovs : iovs r = (λ b, mkIov b.1 b.2) <$> bufs;
  w_names : length (names r) = length bufs;
  w_name i nm : names r !! i = Some nm → length nm = SizeofSockaddrAny;
  w_oob : length (oob r) = (length bufs * size)%nat;
  w_size : oobSize r = size;
  w_zones : zones_ok InterfaceByIndex (zones r) }.

(** Buffers do not overlap and lie in the memory. *)
Definition disjoint_bufs (mem : list Z) : Prop :=
  (∀ i b, bufs !! i = Some b → b.1 + b.2 <= length mem)%nat ∧
  (∀ i j b c, bufs !! i = Some b → bufs !! j = Some c → i ≠ j → b.1 + b.2 <= c.1 ∨ c.1 + c.2 <= b.1)%nat.

(** What message [i] holds of datagram [d]. *)
Definition control (d : dgram) : list Z := put_cmsg size (Udp.oob d).
Definition flags (b : nat * nat) (d : dgram) : Z := Z.lor (trunc_flag b.2 d) (other_flags size (Udp.oob d)).
Record held (r : BatchReader) (mem : list Z) (i : nat) (d : dgram) : Prop := {
  h_buf : ∃ b h, bufs !! i = Some b ∧ msgs r !! i = Some h ∧ len h = Z.of_nat (length (take b.2 (payload d))) ∧
    Flags h = flags b d ∧ Controllen h = Z.of_nat (length (control d)) ∧
    read_at mem b.1 (length (take b.2 (payload d))) = take b.2 (payload d);
  h_ctl : read_at (oob r) (i * size) (length (control d)) = control d;
  h_name : ∃ nm, names r !! i = Some nm ∧ take (length (sa d)) nm = sa d }.
(** A header ready for the next call. *)
Definition fresh (r : BatchReader) (i : nat) : Prop :=
  ∃ h, msgs r !! i = Some h ∧ Namelen h = Z.of_nat SizeofSockaddrAny ∧ Controllen h = Z.of_nat size.

(** The control slots are apart too. *)
Lemma slot_apart (i j k : nat) : i ≠ j → (k <= size)%nat →
  (i * size + k <= j * size ∨ j * size + size <= i * size)%nat.
Proof using. intros Hij Hk. destruct (decide (i < j)%nat); [left|right]; nia. Qed.

Lemma reset_wired r : wired r → wired (reset r).
Proof using.
  intros [H1 H2 H3 H4 H5 H6 H7 H8]. split; simpl; try done; [by rewrite length_fmap|].
  intros i h Hh. apply list_lookup_fmap_Some in Hh as (h0 & -> & Hh0). simpl. by apply H2.
Qed.
Lemma reset_fresh r i : wired r → (i < length bufs)%nat → fresh (reset r) i.
Proof using.
  intros Hw Hi. destruct (lookup_lt_is_Some_2 (msgs r) i) as [h Hh]; [by rewrite (w_msgs _ Hw)|].
  eexists. split; [simpl; rewrite list_lookup_fmap, Hh; done|]. simpl. by rewrite (w_size _ Hw).
Qed.
Lemma set_result_wired r k e : wired r → wired (set_result r k e).
Proof using. by intros []. Qed.

Lemma control_room r i h : wired r → msgs r !! i = Some h → Controllen h = Z.of_nat size →
  match Control h with Some _ => Z.to_nat (Controllen h) | None => O end = size.
Proof using.
  intros Hw Hh E. destruct (w_hdr _ Hw i h Hh) as (_ & _ & ->). rewrite E.
  destruct (Nat.eqb_spec size 0) as [->|]; [done|]. lia.
Qed.

(** The control buffer after a delivery. *)
Lemma control_written r i h d : wired r → (i < length bufs)%nat →
  Control h = (if Nat.eqb size 0 then None else Some (i * size)%nat) →
  let o := match Control h with Some off => write_at (oob r) off (control d) | None => oob r end in
  length o = length (oob r) ∧ read_at o (i * size) (length (control d)) = control d ∧
  ∀ j k, j ≠ i → (k <= size)%nat → read_at o (j * size) k = read_at (oob r) (j * size) k.
Proof using put_fits.
  intros Hw Hi ->. pose proof (put_fits size (Udp.oob d)) as Hf. fold (control d) in Hf. pose proof (w_oob _ Hw) as Ho.
  destruct (Nat.eqb_spec size 0) as [E|Hs]; simpl.
  - split_and!; try done. assert (control d = []) as -> by (apply nil_length_inv; lia). done.
  - assert (i * size + length (control d) <= length (oob r))%nat by nia.
    split_and!; [by apply write_at_length|by apply read_write_same|].
    intros j k Hj Hk. apply read_write_other; [done|]. destruct (slot_apart j i k); [done|done|left; lia|right; lia].
Qed.

Lemma deliver_spec r mem i d :
  wired r → disjoint_bufs mem → (i < length bufs)%nat → fresh r i → (length (sa d) <= SizeofSockaddrAny)%nat →
  ∃ r' mem', deliver r mem i d = Some (r', mem') ∧ wired r' ∧ length mem' = length mem ∧ held r' mem' i d ∧
    zones r' = zones r ∧
    ∀ j, j ≠ i → (∀ d', held r mem j d' → held r' mem' j d') ∧ (fresh r j → fresh r' j).
Proof using put_fits.
  intros Hw [Hin Hdis] Hi (h & Hh & Hn & Hc) Hsa.
  destruct (w_hdr _ Hw i h Hh) as (En & Ei & Ec).
  destruct (lookup_lt_is_Some_2 bufs i Hi) as [b Hb].
  destruct (lookup_lt_is_Some_2 (names r) i) as [nm Hnm]; [by rewrite (w_names _ Hw)|].
  destruct (control_written r i h d Hw Hi Ec) as (Ol & Os & Oo).
  pose proof (w_name _ Hw i nm Hnm) as Hlen.
  unfold deliver. rewrite Hh. simpl. rewrite Ei, En, (w_iovs _ Hw), list_lookup_fmap, Hb, Hnm. simpl.
  rewrite (control_room r i h Hw Hh Hc). fold (control d). rewrite Hn, Nat2Z.id, (take_ge (sa d)) by done.
  eexists _, _. split; [done|].
  assert (b.1 + length (take b.2 (payload d)) <= length mem)%nat as Hfit
    by (rewrite length_take; specialize (Hin i b Hb); lia).
  assert (0 + length (sa d) <= length nm)%nat as Hfn by (rewrite Hlen; done).
  destruct Hw as [W1 W2 W3 W4 W5 W6 W7 W8]. split_and!.
  - split; simpl; try done; try (by rewrite length_insert).
    + intros j h' [(<- & <- & _)|[_ ?]]%list_lookup_insert_Some; [simpl; by rewrite Ec|by apply W2].
    + intros j nm' [(<- & <- & _)|[_ ?]]%list_lookup_insert_Some; [by rewrite write_at_length|by eapply W5].
    + by rewrite Ol.
  - by apply write_at_length.
  - split; simpl; [|done|].
    + eexists b, _. split; [done|]. split; [apply list_lookup_insert_eq; lia|]. simpl. split_and!; try done.
      by apply read_write_same.
    + eexists. split; [apply list_lookup_insert_eq; lia|]. apply (read_write_same nm 0); done.
  - done.
  - intros j Hj. split.
    + intros d' [(b' & h' & Hb' & Hh' & H1 & H2 & H3 & H4) Hctl (nm' & Hnm' & Hsa')]. split; simpl.
      * exists b', h'. rewrite list_lookup_insert_ne by done. split_and!; try done. rewrite read_write_other; [done..|].
        rewrite !length_take. destruct (Hdis i j b b' Hb Hb'); [done|right; lia|left; lia].
      * rewrite Oo; [done..|]. apply put_fits.
      * exists nm'. by rewrite list_lookup_insert_ne.
    + intros (h' & Hh' & ?). exists h'. simpl. by rewrite list_lookup_insert_ne.
Qed.

Lemma deliver_all_spec ds r mem i :
  wired r → disjoint_bufs mem → (i + length ds <= length bufs)%nat →
  (∀ j, (i <= j < length bufs)%nat → fresh r j) → Forall (λ d, length (sa d) <= SizeofSockaddrAny)%nat ds →
  ∃ r' mem', deliver_all r mem i ds = Some (r', mem') ∧ wired r' ∧ length mem' = length mem ∧ zones r' = zones r ∧
    (∀ j d, ds !! j = Some d → held r' mem' (i + j) d) ∧
    (∀ j d, (j < i)%nat → held r mem j d → held r' mem' j d).
Proof using put_fits.
  revert r mem i. induction ds as [|d ds IH]; intros r mem i Hw Hd Hi Hf Hsa; [by exists r, mem|].
  apply Forall_cons in Hsa as [Hsa1 Hsa]. simpl in Hi.
  destruct (deliver_spec r mem i d Hw Hd) as (r1 & mem1 & E & Hw1 & Hl1 & Hh1 & Hz1 & Ho1); [lia|apply Hf; lia|done|].
  destruct (IH r1 mem1 (S i)) as (r2 & mem2 & E2 & Hw2 & Hl2 & Hz2 & Hn2 & Hp2); [done| |lia| |done|].
  { by destruct Hd as [Hd1 Hd2]; split; rewrite ?Hl1. }
  { intros j Hj. apply (Ho1 j); [lia|]. apply Hf. lia. }
  exists r2, mem2. simpl. rewrite E. simpl. split_and!; [done|done|congruence|congruence|..].
  - intros [|j] d' Hj; simplify_eq/=; [rewrite Nat.add_0_r; apply Hp2; [lia|done]|].
    replace (i + S j)%nat with (S i + j)%nat by lia. by apply Hn2.
  - intros j d' Hj Hh. apply Hp2; [lia|]. by apply (Ho1 j); [lia|].
Qed.

(** * Messages *)

Lemma Message_spec r mem i d : wired r → held r mem i d → sa_ok (sa d) →
  ∃ b r', bufs !! i = Some b ∧
    Message InterfaceByIndex r i =
      Some (r', (Z.of_nat (length (take b.2 (payload d))), control d, flags b d,
                 Unmap_port <$> net_addr InterfaceByIndex (sa d))) ∧
    wired r' ∧ (∀ j d', held r mem j d' → held r' mem j d') ∧
    read_at mem b.1 (length (take b.2 (payload d))) = take b.2 (payload d).
Proof using put_fits.
  intros Hw [(b & h & Hb & Hh & H1 & H2 & H3 & H4) Hctl (nm & Hnm & Hsa)] Hok.
  assert (nm = sa d ++ drop (length (sa d)) nm) as Enm by (by rewrite <- Hsa at 1; rewrite take_drop).
  destruct (addr_as_single InterfaceByIndex (zones r) (sa d) (w_zones _ Hw)) as [Z1 Z2].
  unfold Message. rewrite Hh, Hnm. simpl. rewrite Enm, addr_app, (w_size _ Hw), H1, H2, H3, Nat2Z.id by done.
  destruct (addr InterfaceByIndex (zones r) (sa d)) as [zs a]. simpl in Z1, Z2. subst a.
  assert ((if Nat.eqb size 0 then Some [] else slice (oob r) (i * size) (i * size + length (control d))) =
          Some (control d)) as ->.
  { pose proof (put_fits size (Udp.oob d)) as Hf. fold (control d) in Hf.
    destruct (Nat.eqb_spec size 0) as [E|Hs]; [f_equal; symmetry; apply nil_length_inv; lia|].
    unfold slice. rewrite bool_decide_eq_true_2; [by replace (i * size + _ - _)%nat with (length (control d)) by lia; rewrite Hctl|].
    rewrite (w_oob _ Hw). apply lookup_lt_Some in Hb. nia. }
  simpl. eexists b, _. split_and!; try done; [by destruct Hw|].
  intros j d' [B1 B2 B3]. by split.
Qed.

Lemma NewBatchReader_wired r : NewBatchReader bufs size = Some r → wired r.
Proof using.
  unfold NewBatchReader. case_match; [|done]. intros [= <-]. split; simpl; try done.
  - by rewrite length_imap.
  - intros i h Hh. rewrite list_lookup_imap in Hh. destruct (bufs !! i); [|done]. by simplify_eq/=.
  - by rewrite length_replicate.
  - intros i nm [-> _]%lookup_replicate. done.
  - by rewrite length_replicate.
Qed.

(** * Reads *)

Definition retried (a : answer) : bool :=
  match a with Errno e => (e =? EINTR) || (e =? EAGAIN) | _ => false end.
Definition answer_ok (a : answer) : Prop :=
  match a with
  | Errno e => e ≠ 0
  | Received ds => (length ds <= length bufs)%nat ∧ Forall (λ d, sa_ok (sa d)) ds
  | Closed => True
  end.
Definition result_of (a : answer) : Z + read_err :=
  match a with
  | Errno e => inr (SyscallError e)
  | Received ds => inl (Z.of_nat (length ds))
  | Closed => inr ErrClosed
  end.
Definition delivered (a : answer) : list dgram := match a with Received ds => ds | _ => [] end.

Local Abbreviation recv_loop := (recv_loop put_cmsg other_flags).
Local Abbreviation Read_loop := (Read_loop put_cmsg other_flags).
Local Abbreviation Read := (Read put_cmsg other_flags).

(** An answer that is no retry ends the read. *)
Lemma Read_answer fuel r mem a rest :
  wired r → disjoint_bufs mem → answer_ok a → retried a = false →
  ∃ r' mem', Read_loop (S fuel) r mem (a :: rest) = Returns (result_of a, r', mem', rest) ∧
    wired r' ∧ length mem' = length mem ∧ ∀ i d, delivered a !! i = Some d → held r' mem' i d.
Proof using put_fits.
  intros Hw Hd Ha Hr. destruct a as [e|ds|]; simpl in *.
  - unfold recv. simpl. apply orb_false_iff in Hr as [-> ->]. simpl. rewrite (proj2 (Z.eqb_neq e 0)) by done.
    eexists _, mem. split; [done|]. split; [by apply set_result_wired, reset_wired|]. by split.
  - destruct Ha as [Hl Hsa].
    destruct (deliver_all_spec ds (reset r) mem 0) as (r' & mem' & E & Hw' & Hl' & _ & Hh & _);
      [by apply reset_wired|done|lia|intros; apply reset_fresh; [done|lia]| |].
    { eapply Forall_impl; [exact Hsa|]. by intros d [[_ ?] _]. }
    unfold recv. simpl. rewrite E. simpl. eexists _, mem'. split; [done|]. split; [by apply set_result_wired|].
    split; [done|]. intros i d Hi. destruct (Hh i d Hi). by split.
  - exists r, mem. by split_and!.
Qed.

(** What Read does with the outcome of recv. *)
Definition after_recv (fuel : nat) (o : outcome (bool * BatchReader * list Z * list answer))
  : outcome ((Z + read_err) * BatchReader * list Z * list answer) :=
  match o with
  | Panics => Panics
  | Blocks => Blocks
  | Returns (false, r', mem', rest) => Read_loop fuel r' mem' rest
  | Returns (true, r', mem', rest) =>
      Returns (if errno r' =? 0 then inl (n r') else inr (SyscallError (errno r')), r', mem', rest)
  end.
Definition ends_with (mem : list Z) (a : answer) (rest : list answer)
    (o : outcome ((Z + read_err) * BatchReader * list Z * list answer)) : Prop :=
  ∃ r' mem', o = Returns (result_of a, r', mem', rest) ∧ wired r' ∧ length mem' = length mem ∧
    ∀ i d, delivered a !! i = Some d → held r' mem' i d.

Lemma Read_retries pre mem a rest :
  disjoint_bufs mem → Forall (λ x, retried x = true) pre → answer_ok a → retried a = false →
  (∀ fuel r, wired r → (length pre < fuel)%nat → ends_with mem a rest (Read_loop fuel r mem (pre ++ a :: rest))) ∧
  (∀ fuel r, wired r → (length pre < fuel)%nat →
     ends_with mem a rest (after_recv fuel (recv_loop (reset r) mem (pre ++ a :: rest)))).
Proof using put_fits.
  intros Hd Hpre Ha Hr.
  assert (∀ fuel r, wired r → (0 < fuel)%nat → ends_with mem a rest (Read_loop fuel r mem (a :: rest))) as Hbase.
  { intros [|fuel] r Hw Hf; [lia|]. by apply Read_answer. }
  induction Hpre as [|x pre Hx _ [IH1 IH2]]; split; intros fuel r Hw Hf; simpl in Hf.
  - by apply Hbase.
  - destruct a as [e|ds|]; [exact (Hbase (S fuel) r Hw (Nat.lt_0_succ _))..|]. simpl. apply Hbase; [by apply reset_wired|lia].
  - destruct fuel as [|fuel]; [lia|]. destruct x as [e|ds|]; try done. simpl in Hx. simpl. unfold recv. simpl.
    destruct (e =? EINTR); [apply (IH2 fuel r); [done|lia]|]. simpl in Hx. rewrite Hx.
    apply IH1; [by apply reset_wired|lia].
  - destruct x as [e|ds|]; try done. simpl in Hx. simpl.
    destruct (e =? EINTR); [apply IH2; [done|lia]|]. simpl in Hx. rewrite Hx. simpl.
    apply IH1; [by apply reset_wired|lia].
Qed.

(** [Read] returns after any number of interruptions and waits. *)
Lemma Read_ends pre r mem a rest :
  wired r → disjoint_bufs mem → Forall (λ x, retried x = true) pre → answer_ok a → retried a = false →
  ends_with mem a rest (Read r mem (pre ++ a :: rest)).
Proof using put_fits.
  intros Hw Hd Hpre Ha Hr. apply Read_retries; try done; [by apply set_result_wired|]. rewrite length_app. lia.
Qed.
End exact.
End BatchReader.
