(* ===== verification/UdpLoop.v ===== *)
(** The readers of package udp as code ([Conn.read], [Conn.readBatch] and
    [Conn.readFailed] of [src/udp/udp.go]): one reader goroutine alone, over
    the memory it reads into. What its calls of the system return is given turn
    by turn. The handler is user code that may write to the bytes it is handed
    while it runs. [None] is a panic. *)
From S2P Require Import Prelude Internal Tcp Sys UdpDrops Udp UdpRead Mmsg.
Import BatchReader.

Local Open Scope Z_scope.

Definition OOBSize : nat := 64.

(** [dropCounter.observe] with no other reader on the socket. *)
Definition observe_alone (d : dropCounter) (raw : Z) : dropCounter :=
  if delta raw (last d) <=? 0 then d else mkDrop raw (u64 (total d + u64 (delta raw (last d)))).

Lemma observe_alone_runs d raw :
  rtc (λ x y, observe x.1 x.2 = Some y) (d, ObsLoad raw) (observe_alone d raw, ObsDone).
Proof.
  unfold observe_alone. destruct (delta raw (last d) <=? 0) eqn:E.
  - apply rtc_once. simpl. by rewrite E.
  - eapply rtc_l; [simpl; by rewrite E|]. eapply rtc_l; [simpl; by rewrite Z.eqb_refl|]. by apply rtc_once.
Qed.

(** The Conn as a reader sees it, and its calls of the handler. *)
Record World := mkWorld {
  stats : readerStats; counter : dropCounter; fatal_err : option (option Z); is_closed : bool; handled : list Packet }.

Inductive rerr := NetClosed | Err (errno : option Z).

Definition count_trunc (w : World) : World :=
  let x := stats w in
  mkWorld (mkStats (recvPackets x) (recvBytes x) (Counter.Inc (truncated x)) (recvErrors x))
    (counter w) (fatal_err w) (is_closed w) (handled w).
Definition count_error (w : World) : World :=
  let x := stats w in
  mkWorld (mkStats (recvPackets x) (recvBytes x) (truncated x) (Counter.Inc (recvErrors x)))
    (counter w) (fatal_err w) (is_closed w) (handled w).
Definition count_packet (w : World) (n : Z) : World :=
  let x := stats w in
  mkWorld (mkStats (Counter.Inc (recvPackets x)) (Counter.Add (recvBytes x) (u64 n)) (truncated x) (recvErrors x))
    (counter w) (fatal_err w) (is_closed w) (handled w).
Definition set_counter (w : World) (d : dropCounter) : World :=
  mkWorld (stats w) d (fatal_err w) (is_closed w) (handled w).
Definition call_handler (w : World) (p : Packet) : World :=
  mkWorld (stats w) (counter w) (fatal_err w) (is_closed w) (handled w ++ [p]).

(** [if len(oob) > 0 { if d, ok := sys.DropCount(oob); ok { drops.observe(d) } }] *)
Definition observe_oob (w : World) (ctl : list Z) : option World :=
  match ctl with
  | [] => Some w
  | _ => match DropCount ctl with
         | Found v => Some (set_counter w (observe_alone (counter w) v))
         | NotFound => Some w
         | SlicePanic | OutOfFuel => None
         end
  end.

Section loops.
Context (cfg : Config) (InterfaceByIndex : Z → option string) (classify : option Z → ReadErr).
Context (put_cmsg : nat → list Z → list Z) (other_flags : nat → list Z → Z).
(** What the handler leaves in the buffer behind a packet's data. *)
Context (scribble : Packet → list Z → list Z).
Local Abbreviation maxn := (maxn cfg).
Local Abbreviation batchn := (batchn cfg).

(** [readFailed]; [timer] is whether its wait ran to the end. The new delay,
    and whether the reader must stop. *)
Definition read_failed (w : World) (e : rerr) (delay : Z) (timer : bool) : World * Z * bool :=
  match e with
  | NetClosed => (w, delay, true)
  | Err errno =>
      match classify errno with
      | Truncated => (count_trunc w, delay, false)
      | Transient => (count_error w, Backoff.Next delay, negb timer)
      | Fatal =>
          let w' := count_error w in
          (mkWorld (stats w') (counter w')
             (if bool_decide (fatal_err w = None) && negb (is_closed w) then Some errno else fatal_err w) true (handled w'),
           delay, true)
      end
  end.

(** * One datagram per call *)

Inductive single := Gram (d : dgram) | Fails (e : rerr) (timer : bool).

(** [uc.ReadMsgUDPAddrPort(data, oob)] and the rest of the loop's body. *)
Definition read_gram (reader : nat) (w : World) (data : list Z) (d : dgram) : option (World * list Z) :=
  let k := length (take maxn (payload d)) in
  let data' := write_at data 0 (take maxn (payload d)) in
  let ctl := put_cmsg OOBSize (Udp.oob d) in
  let flags := Z.lor (trunc_flag maxn d) (other_flags OOBSize (Udp.oob d)) in
  let from := net_addr InterfaceByIndex (sa d) in
  w1 ← observe_oob w ctl;
  if negb (Z.land flags MsgTrunc =? 0) then Some (count_trunc w1, data')
  else
    let w2 := count_packet w1 (Z.of_nat k) in
    let p := mkPacket (read_at data' 0 k) (Unmap_port <$> from) reader in
    Some (call_handler w2 p, write_at data' 0 (scribble p (read_at data' 0 maxn))).
Fixpoint read_loop (reader : nat) (turns : list single) (w : World) (data : list Z) (delay : Z) : option World :=
  match turns with
  | [] => Some w
  | Gram d :: rest => '(w', data') ← read_gram reader w data d; read_loop reader rest w' data' 0
  | Fails e timer :: rest =>
      let '(w', delay', stop) := read_failed w e delay timer in
      if stop : bool then Some w' else read_loop reader rest w' data delay'
  end.
Definition read (reader : nat) (turns : list single) (w : World) : option World :=
  read_loop reader turns w (replicate maxn 0) 0.

(** * Batches *)

(** A turn: the interruptions and waits before the answer, and whether a
    backoff after it ran to the end. *)
Record turn := mkTurn { retries : list answer; ans : answer; timer : bool }.

Definition err_of_read (e : read_err) : rerr :=
  match e with ErrClosed => NetClosed | SyscallError errno => Err (Some errno) end.

(** The loop over the messages of a read, from message [i]; [k] are left. *)
Fixpoint handle_messages (reader : nat) (bufs : list (nat * nat)) (k i : nat) (w : World) (br : BatchReader) (mem : list Z)
  : option (World * BatchReader * list Z) :=
  match k with
  | O => Some (w, br, mem)
  | S k =>
      '(br', (size, ctl, flags, from)) ← Message InterfaceByIndex br i;
      w1 ← observe_oob w ctl;
      if negb (Z.land flags MsgTrunc =? 0) then handle_messages reader bufs k (S i) (count_trunc w1) br' mem
      else
        let w2 := count_packet w1 size in
        b ← bufs !! i;
        let p := mkPacket (read_at mem b.1 (Z.to_nat size)) from reader in
        handle_messages reader bufs k (S i) (call_handler w2 p) br' (write_at mem b.1 (scribble p (read_at mem b.1 b.2)))
  end.
Fixpoint readBatch_loop (reader : nat) (bufs : list (nat * nat)) (turns : list turn) (w : World) (br : BatchReader)
    (mem : list Z) (delay : Z) : option World :=
  match turns with
  | [] => Some w
  | t :: rest =>
      match Read put_cmsg other_flags br mem (retries t ++ [ans t]) with
      | Returns (inl k, br', mem', _) =>
          '(w', br'', mem'') ← handle_messages reader bufs (Z.to_nat k) 0 w br' mem';
          readBatch_loop reader bufs rest w' br'' mem'' 0
      | Returns (inr e, br', mem', _) =>
          let '(w', delay', stop) := read_failed w (err_of_read e) delay (timer t) in
          if stop : bool then Some w' else readBatch_loop reader bufs rest w' br' mem' delay'
      | Panics | Blocks => None
      end
  end.
(** [bufs[i] = mem[i*c.max : (i+1)*c.max : (i+1)*c.max]] *)
Definition batch_bufs : list (nat * nat) := (λ i, (i * maxn, maxn)%nat) <$> seq 0 batchn.
(** [raw] is the error of SyscallConn, if it fails. *)
Definition readBatch (reader : nat) (raw : option rerr) (turns : list turn) (w : World) : option World :=
  match raw with
  | Some e => Some (read_failed w e 0 true).1.1
  | None =>
      br ← NewBatchReader batch_bufs OOBSize;
      readBatch_loop reader batch_bufs turns w br (replicate (batchn * maxn) 0) 0
  end.

(** ** The same reads, one by one *)

Definition singles (t : turn) : list single :=
  match ans t with
  | Received ds => Gram <$> ds
  | Errno e => [Fails (Err (Some e)) (timer t)]
  | Closed => [Fails NetClosed (timer t)]
  end.

(** * What a datagram does to the Conn *)

Hypothesis put_fits : ∀ room c, (length (put_cmsg room c) <= room)%nat.
Hypothesis flags_apart : ∀ room c, Z.land (other_flags room c) MsgTrunc = 0.
Hypothesis scribble_stays : ∀ p b, length (scribble p b) = length b.

Definition effect (reader : nat) (w : World) (d : dgram) : option World :=
  w1 ← observe_oob w (put_cmsg OOBSize (Udp.oob d));
  Some (match packet_of cfg InterfaceByIndex reader d with
        | None => count_trunc w1
        | Some p => call_handler (count_packet w1 (Z.of_nat (length (Data p)))) p
        end).
Fixpoint effects (reader : nat) (w : World) (ds : list dgram) : option World :=
  match ds with [] => Some w | d :: rest => w' ← effect reader w d; effects reader w' rest end.

(** Control data of the kernel never stops the reader. *)
Lemma observe_oob_total w c : is_Some (observe_oob w (put_cmsg OOBSize c)).
Proof using put_fits.
  unfold observe_oob. destruct (put_cmsg OOBSize c) as [|x l] eqn:E; [done|].
  pose proof (put_fits OOBSize c) as Hl. rewrite E in Hl. unfold OOBSize in Hl.
  pose proof (DropCount_loop_any (S (length (x :: l))) (x :: l)) as H. unfold DropCount.
  destruct (DropCount_loop _ _); try done; exfalso; apply H; unfold zlen; lia.
Qed.
Lemma effect_total reader w d : is_Some (effect reader w d).
Proof using put_fits. unfold effect. by destruct (observe_oob_total w (Udp.oob d)) as [w1 ->]. Qed.
Lemma effects_total reader w ds : is_Some (effects reader w ds).
Proof using put_fits.
  revert w. induction ds as [|d ds IH]; intros w; [done|]. simpl. destruct (effect_total reader w d) as [w' ->]. apply IH.
Qed.

Lemma trunc_bit d c : negb (Z.land (Z.lor (trunc_flag maxn d) (other_flags OOBSize c)) MsgTrunc =? 0) = cut cfg d.
Proof using flags_apart.
  rewrite Z.land_lor_distr_l, flags_apart, Z.lor_0_r. unfold trunc_flag, cut. by case_bool_decide.
Qed.

Lemma read_gram_effect reader w data d : length data = maxn →
  ∃ data', length data' = maxn ∧
    read_gram reader w data d = (w' ← effect reader w d; Some (w', data')).
Proof using flags_apart scribble_stays.
  intros Hl. unfold read_gram, effect. rewrite trunc_bit. unfold packet_of.
  assert (0 + length (take maxn (payload d)) <= length data)%nat as Hf by (rewrite length_take; lia).
  destruct (observe_oob _ _) as [w1|]; simpl; [|by exists data].
  destruct (cut cfg d) eqn:Hc; [eexists; split; [|done]; by rewrite write_at_length|].
  assert (take maxn (payload d) = payload d) as E by (by apply (fit_stored cfg)). rewrite E in *.
  eexists. split; [|simpl; by rewrite read_write_same].
  rewrite write_at_length; rewrite ?write_at_length; try done. rewrite scribble_stays. unfold read_at.
  rewrite length_take, length_drop, write_at_length by done. lia.
Qed.

Lemma read_loop_grams reader ds rest w data delay : length data = maxn → ds ≠ [] →
  ∃ data', length data' = maxn ∧
    read_loop reader ((Gram <$> ds) ++ rest) w data delay = (w' ← effects reader w ds; read_loop reader rest w' data' 0).
Proof using flags_apart scribble_stays put_fits.
  revert w data delay. induction ds as [|d ds IH]; intros w data delay Hl Hne; [done|]. simpl.
  destruct (read_gram_effect reader w data d Hl) as (data1 & Hl1 & ->).
  destruct (effect_total reader w d) as [w1 E]. rewrite E. simpl.
  destruct (decide (ds = [])) as [->|Hds]; [by exists data1|]. by apply IH.
Qed.

(** * Batched reads *)

Local Abbreviation bufs := batch_bufs.
Local Abbreviation wired := (wired InterfaceByIndex bufs OOBSize).
Local Abbreviation held := (held put_cmsg other_flags bufs OOBSize).
Local Abbreviation disjoint_bufs := (disjoint_bufs bufs).

Lemma bufs_lookup i b : bufs !! i = Some b → b = (i * maxn, maxn)%nat ∧ (i < batchn)%nat.
Proof using.
  unfold batch_bufs. rewrite list_lookup_fmap. destruct (seq 0 batchn !! i) as [j|] eqn:E; [|done].
  apply lookup_seq in E as [-> ?]. by intros [= <-].
Qed.
Lemma bufs_length : length bufs = batchn.
Proof using. unfold batch_bufs. by rewrite length_fmap, length_seq. Qed.
Lemma bufs_disjoint mem : length mem = (batchn * maxn)%nat → disjoint_bufs mem.
Proof using.
  intros Hm. split.
  - intros i b [-> Hi]%bufs_lookup. simpl. nia.
  - intros i j b c [-> Hi]%bufs_lookup [-> Hj]%bufs_lookup Hij. simpl. destruct (decide (i < j)%nat); [left|right]; nia.
Qed.

(** What the handler writes stays in its packet's buffer. *)
Lemma scribble_held br mem i b p j d :
  disjoint_bufs mem → bufs !! i = Some b → j ≠ i → held br mem j d →
  held br (write_at mem b.1 (scribble p (read_at mem b.1 b.2))) j d.
Proof using scribble_stays.
  intros [Hin Hdis] Hb Hj [(b' & h & Hb' & Hh & H1 & H2 & H3 & H4) Hc Hn]. specialize (Hin i b Hb) as Hi.
  assert (length (scribble p (read_at mem b.1 b.2)) = b.2) as Hl
    by (rewrite scribble_stays; unfold read_at; rewrite length_take, length_drop; lia).
  split; [|done..]. exists b', h. split_and!; try done. rewrite read_write_other; [done|rewrite Hl; lia|].
  rewrite length_take, Hl. destruct (Hdis i j b b' Hb Hb'); [done|right; lia|left; lia].
Qed.

Lemma handle_messages_effects reader ds i w br mem :
  wired br → length mem = (batchn * maxn)%nat → Forall (λ d, sa_ok (sa d)) ds →
  (∀ j d, ds !! j = Some d → held br mem (i + j) d) →
  ∃ br' mem', wired br' ∧ length mem' = length mem ∧
    handle_messages reader bufs (length ds) i w br mem = (w' ← effects reader w ds; Some (w', br', mem')).
Proof using put_fits flags_apart scribble_stays.
  intros Hw Hm Hsa. revert i w br mem Hw Hm. induction Hsa as [|d ds Hsa _ IH]; intros i w br mem Hw Hm Hh;
    [by exists br, mem|].
  pose proof (Hh 0%nat d eq_refl) as H0. rewrite Nat.add_0_r in H0.
  destruct (Message_spec InterfaceByIndex put_cmsg other_flags put_fits bufs OOBSize br mem i d Hw H0 Hsa)
    as (b & br1 & Hb & E & Hw1 & Hheld & Hread). pose proof (bufs_lookup i b Hb) as [-> Hi]. simpl in Hread.
  cbn [handle_messages length effects]. rewrite E. simpl. unfold control, flags, effect, packet_of. simpl.
  rewrite trunc_bit.
  destruct (observe_oob_total w (Udp.oob d)) as [w1 ->]. simpl.
  destruct (cut cfg d) eqn:Hc.
  - apply IH; [done|done|]. intros j d' Hj. apply Hheld. replace (S i + j)%nat with (i + S j)%nat by lia. by apply Hh.
  - rewrite Hb. simpl. rewrite Nat2Z.id. assert (take maxn (payload d) = payload d) as Et by (by apply (fit_stored cfg)).
    rewrite Et in *. rewrite Hread.
    edestruct IH as (br2 & mem2 & Hw2 & Hm2 & ->); [exact Hw1| | |]; cycle 2.
    + exists br2, mem2. split_and!; [done| |reflexivity]. rewrite Hm2. apply write_at_length.
      rewrite scribble_stays. unfold read_at. rewrite length_take, length_drop. nia.
    + rewrite write_at_length; [done|]. rewrite scribble_stays. unfold read_at. rewrite length_take, length_drop. nia.
    + intros j d' Hj. replace (S i + j)%nat with (i + S j)%nat by lia.
      apply (scribble_held br1 mem i (i * maxn, maxn)%nat); [by apply bufs_disjoint|done|lia|].
      apply Hheld. by apply Hh.
Qed.

(** * Batching changes nothing but the number of system calls *)

(** What recvmmsg may answer: at least one datagram, at most one per buffer. *)
Definition turn_ok (t : turn) : Prop :=
  Forall (λ x, retried x = true) (retries t) ∧ retried (ans t) = false ∧
  match ans t with
  | Errno e => e ≠ 0
  | Received ds => ds ≠ [] ∧ (length ds <= batchn)%nat ∧ Forall (λ d, sa_ok (sa d)) ds
  | Closed => True
  end.

Lemma turn_answer_ok t : turn_ok t → answer_ok bufs (ans t).
Proof using. intros (_ & _ & H). destruct (ans t); [done| |done]. simpl. rewrite bufs_length. naive_solver. Qed.

Lemma loops_agree reader turns w br mem data delay :
  Forall turn_ok turns → wired br → length mem = (batchn * maxn)%nat → length data = maxn →
  ∃ w', readBatch_loop reader bufs turns w br mem delay = Some w' ∧
        read_loop reader (turns ≫= singles) w data delay = Some w'.
Proof using put_fits flags_apart scribble_stays.
  intros Ht. revert w br mem data delay. induction Ht as [|t turns Ht _ IH]; intros w br mem data delay Hw Hm Hd;
    [by exists w|].
  destruct (Read_ends InterfaceByIndex put_cmsg other_flags put_fits bufs OOBSize (retries t) br mem (ans t) [])
    as (br1 & mem1 & E & Hw1 & Hm1 & Hh); [done|by apply bufs_disjoint|by apply Ht|by apply turn_answer_ok|by apply Ht|].
  cbn [readBatch_loop]. rewrite E, bind_cons. destruct Ht as (_ & _ & Ha). unfold singles at 1.
  destruct (ans t) as [e|ds|] eqn:Ea; cbn [result_of err_of_read].
  - cbn [app read_loop]. destruct (read_failed w (Err (Some e)) delay (timer t)) as [[w' delay'] []]; [by exists w'|].
    apply IH; [done|congruence|done].
  - destruct Ha as (Hne & Hl & Hsa). rewrite Nat2Z.id.
    destruct (handle_messages_effects reader ds 0 w br1 mem1) as (br2 & mem2 & Hw2 & Hm2 & ->);
      [done|congruence|done|done|].
    destruct (read_loop_grams reader ds (turns ≫= singles) w data delay Hd Hne) as (data2 & Hd2 & ->).
    destruct (effects_total reader w ds) as [w' ->]. apply IH; [done|congruence|done].
  - simpl. by exists w.
Qed.

Lemma NewBatchReader_total : (0 < maxn)%nat → is_Some (NewBatchReader bufs OOBSize).
Proof using.
  intros H. unfold NewBatchReader. assert (forallb (λ b, negb (Nat.eqb b.2 0)) bufs = true) as ->; [|done].
  apply forallb_forall. intros b Hb%list_elem_of_In%list_elem_of_lookup. destruct Hb as [i [-> _]%bufs_lookup].
  simpl. by destruct maxn; [lia|].
Qed.

(** C33: Batching only changes performance: a reader that receives through
    recvmmsg leaves its Conn exactly as one that receives the same datagrams
    and errors one by one: the same calls of the handler with the same bytes,
    senders and order, the same counters, drop total, fatal error and stop. It
    holds although the batch's headers, name and control buffers are reused
    from read to read, the system call is interrupted or waits any number of
    times, and the handler writes to the buffer of the packet it is given. *)
Theorem batching_invisible reader turns w :
  1 <= max cfg → Forall turn_ok turns →
  ∃ w', readBatch reader None turns w = Some w' ∧ read reader (turns ≫= singles) w = Some w'.
Proof using put_fits flags_apart scribble_stays.
  intros Hmax Ht. destruct NewBatchReader_total as [br E]; [unfold Udp.maxn; lia|].
  unfold readBatch, read. rewrite E. apply loops_agree; [done| |by rewrite length_replicate..].
  by eapply NewBatchReader_wired.
Qed.
End loops.

(** * A run *)

Definition demo_cfg : Config := mkConfig 4 2 1 1.
Definition demo_ifs (_ : Z) : option string := None.
Definition demo_v4 (a p : Z) : list Z := [2; 0; 0; p; 10; 0; 0; a] ++ replicate 8 0.
Definition demo_v6 (p : Z) : list Z := [10; 0; 0; p] ++ replicate 19 0 ++ [1] ++ replicate 4 0.
(** An interrupted read of two datagrams, an error that is retried, a read
    into the used buffers of a longer address, a datagram that is too long. *)
Definition demo_turns : list turn :=
  [mkTurn [Errno EINTR; Errno EAGAIN] (Received [mkDgram [1; 2] [] (demo_v4 1 7); mkDgram [3] [] (demo_v4 2 7)]) true;
   mkTurn [] (Errno 111) true;
   mkTurn [Errno EAGAIN] (Received [mkDgram [4; 5; 6] [] (demo_v6 9); mkDgram [7; 7; 7; 7; 7] [] (demo_v4 1 7)]) true;
   mkTurn [] Closed true].
Definition demo_world : World := mkWorld (mkStats 0 0 0 0) (mkDrop 0 0) None false [].
(** A handler that overwrites its buffer. *)
Definition demo_scribble (_ : Packet) (b : list Z) : list Z := (λ _, 255) <$> b.

Lemma batching_invisible_witness :
  ∃ w, readBatch demo_cfg demo_ifs ClassifyRead take (λ _ _, 0) demo_scribble 0 None demo_turns demo_world = Some w ∧
    Data <$> handled w = [[1; 2]; [3]; [4; 5; 6]] ∧ stats w = mkStats 3 6 1 1.
Proof.
  destruct (batching_invisible demo_cfg demo_ifs ClassifyRead take (λ _ _, 0) demo_scribble) with (reader := 0%nat)
    (turns := demo_turns) (w := demo_world) as (w & E & _).
  - intros room c. rewrite length_take. lia.
  - done.
  - intros p b. apply length_fmap.
  - vm_compute. discriminate.
  - repeat constructor; try done; vm_compute; try lia; try discriminate.
  - exists w. split; [exact E|]. vm_compute in E. injection E as <-. done.
Defined.
