(* ===== verification/UdpStats.v ===== *)
(** The rest of package udp's Conn ([src/udp/udp.go]): the sockets Listen
    binds, the drop counting it asks the kernel for, and Stats. *)
From S2P Require Import Prelude Interleave Internal Tcp TcpAcct Sys UdpDrops Udp UdpRead UdpInv UdpThms.

Local Open Scope Z_scope.

(** * Binding *)

(** [sys.EnableDropCount]: [ran] is whether Control ran the function,
    [err] what setsockopt returned. *)
Definition EnableDropCount (ran : bool) (err : option Z) : bool := if ran then bool_decide (err = None) else false.

Section bind.
Context {addr : Type}.
(** ListenPacket of socket [i] at an address: the address it got. *)
Context (ListenPacket : nat → addr → option addr).
(** Whether SyscallConn of socket [i] succeeds, and what EnableDropCount
    meets there. *)
Context (SyscallConn : nat → bool) (Control : nat → bool * option Z).

Record Bindings := mkBind { asked : list addr; local : option addr; dropsOn : bool }.

(** The loop over the sockets: [k] are left; [inl] are the sockets closed
    after an error. *)
Fixpoint bind_loop (k i : nat) (address : addr) (b : Bindings) : nat + Bindings :=
  match k with
  | O => inr b
  | S k =>
      match ListenPacket i address with
      | None => inl (length (asked b))
      | Some got =>
          let '(loc, address') := match i with O => (Some got, got) | _ => (local b, address) end in
          let on := if negb (SyscallConn i) || negb (EnableDropCount (Control i).1 (Control i).2) then false else dropsOn b in
          bind_loop k (S i) address' (mkBind (asked b ++ [address]) loc on)
      end
  end.
Definition bind (c : Config) (address : addr) : nat + Bindings := bind_loop (Z.to_nat (nsock c)) 0 address (mkBind [] None true).

Definition counts_drops (i : nat) : bool := SyscallConn i && EnableDropCount (Control i).1 (Control i).2.

Lemma bind_rest k i a loc on ask : (0 < i)%nat →
  match bind_loop k i a (mkBind ask loc on) with
  | inl n => ∃ j, (j < k)%nat ∧ n = (length ask + j)%nat ∧ ListenPacket (i + j) a = None
  | inr b => asked b = ask ++ replicate k a ∧ local b = loc ∧ dropsOn b = on && forallb counts_drops (seq i k) ∧
      ∀ j, (j < k)%nat → is_Some (ListenPacket (i + j) a)
  end.
Proof.
  revert i ask on. induction k as [|k IH]; intros i ask on Hi; simpl; [by rewrite app_nil_r, andb_true_r; split_and!; try lia|].
  destruct (ListenPacket i a) as [got|] eqn:E.
  2:{ exists 0%nat. rewrite !Nat.add_0_r. split_and!; [lia|done|done]. }
  destruct i as [|i]; [lia|]. cbn match.
  set (on' := if _ || _ then false else on).
  specialize (IH (S (S i)) (ask ++ [a]) on' ltac:(lia)). destruct (bind_loop _ _ _ _) as [n|b].
  - destruct IH as (j & Hj & -> & Hn). exists (S j). rewrite length_app. simpl. split_and!; [lia|lia|].
    by rewrite <- Nat.add_succ_comm.
  - destruct IH as (-> & -> & -> & Hs). rewrite <- app_assoc. split_and!; try done.
    + unfold on', counts_drops. by destruct (SyscallConn (S i)), (EnableDropCount _ _), on.
    + intros [|j] Hj; [rewrite Nat.add_0_r; eauto|]. rewrite <- Nat.add_succ_comm. apply Hs. lia.
Qed.

(** Listen binds every socket after the first to the address the first
    one got, so a port of 0 gives one port for all, which is the Conn's local
    address; KernelDropsEnabled holds exactly when the kernel agreed to count
    drops on every socket; and after an error all sockets bound before it, and
    no others, are closed. *)
Theorem bind_one_address (c : Config) (address : addr) :
  1 <= nsock c →
  match bind c address with
  | inr b => ∃ got, ListenPacket 0 address = Some got ∧ local b = Some got ∧
      asked b = address :: replicate (Z.to_nat (nsock c) - 1) got ∧
      (∀ i, (0 < i < Z.to_nat (nsock c))%nat → is_Some (ListenPacket i got)) ∧
      (dropsOn b = true ↔ ∀ i, (i < Z.to_nat (nsock c))%nat → counts_drops i = true)
  | inl n => (n < Z.to_nat (nsock c))%nat ∧
      ListenPacket n (match n with O => address | _ => default address (ListenPacket 0 address) end) = None
  end.
Proof.
  intros Hn. unfold bind. destruct (Z.to_nat (nsock c)) as [|k] eqn:Ek; [lia|]. simpl.
  destruct (ListenPacket 0 address) as [got|] eqn:E; [|by split; [lia|]].
  set (on := if _ || _ then false else true). assert (on = counts_drops 0) as ->.
  { unfold on, counts_drops. by destruct (SyscallConn 0), (EnableDropCount _ _). }
  pose proof (bind_rest k 1 got (Some got) (counts_drops 0) [address] ltac:(lia)) as H.
  destruct (bind_loop _ _ _ _) as [n|b].
  - destruct H as (j & Hj & -> & Hx). simpl. split; [lia|]. done.
  - destruct H as (-> & -> & -> & Hs). exists got. rewrite Nat.sub_0_r. split_and!; try done.
    + intros [|i] Hi; [lia|]. apply Hs. lia.
    + rewrite andb_true_iff, forallb_forall. split.
      * intros [H0 H] [|i] Hi; [done|]. apply H, in_seq. lia.
      * intros H. split; [apply H; lia|]. intros i Hi%in_seq. apply H. lia.
Qed.
End bind.

Lemma bind_one_address_witness :
  ∃ b, bind (λ i a, if (i <? 3)%nat then Some (if a =? 0 then 5353 else a) else None) (λ _, true)
            (λ i, (true, if (i =? 2)%nat then Some 92 else None)) (mkConfig 4 2 3 3) 0 = inr b ∧
    asked b = [0; 5353; 5353] ∧ local b = Some 5353 ∧ dropsOn b = false.
Proof.
  pose proof (bind_one_address (λ i a, if (i <? 3)%nat then Some (if a =? 0 then 5353 else a) else None) (λ _, true)
            (λ i, (true, if (i =? 2)%nat then Some 92 else None)) (mkConfig 4 2 3 3) 0 ltac:(simpl; lia)) as H.
  vm_compute in H. destruct H as (got & E & E2 & E3 & _). eexists. split; [vm_compute; reflexivity|].
  simpl. split_and!; [done|done|reflexivity].
Defined.

(** * Stats *)

Record Stats := mkSnapshot {
  RecvPackets : Z; RecvBytes : Z; SendPackets : Z; SendBytes : Z;
  Truncated_ : Z; RecvErrors : Z; SendErrors : Z; KernelDrops : Z; KernelDropsEnabled : bool }.

Definition add_reader (s : Stats) (x : readerStats) : Stats :=
  mkSnapshot (u64 (RecvPackets s + Counter.Load (recvPackets x))) (u64 (RecvBytes s + Counter.Load (recvBytes x)))
    (SendPackets s) (SendBytes s) (u64 (Truncated_ s + Counter.Load (truncated x)))
    (u64 (RecvErrors s + Counter.Load (recvErrors x))) (SendErrors s) (KernelDrops s) (KernelDropsEnabled s).
Definition add_send (s : Stats) (x : sendStats) (d : dropCounter) : Stats :=
  mkSnapshot (RecvPackets s) (RecvBytes s) (u64 (SendPackets s + Counter.Load (packets x)))
    (u64 (SendBytes s + Counter.Load (bytes x))) (Truncated_ s) (RecvErrors s)
    (u64 (SendErrors s + Counter.Load (errors x))) (u64 (KernelDrops s + Counter.Load (total d))) (KernelDropsEnabled s).
(** The loop over the sends, which takes the drops of the same socket. *)
Fixpoint add_sends (s : Stats) (sends : list sendStats) (ds : list dropCounter) : option Stats :=
  match sends, ds with
  | [], _ => Some s
  | x :: sends, d :: ds => add_sends (add_send s x d) sends ds
  | _ :: _, [] => None
  end.
(** [Conn.Stats] over the values its loads find. *)
Definition Conn_Stats (on : bool) (rs : list readerStats) (sends : list sendStats) (ds : list dropCounter) : option Stats :=
  add_sends (foldl add_reader (mkSnapshot 0 0 0 0 0 0 0 0 on) rs) sends ds.

Lemma foldl_readers s rs : 0 <= RecvPackets s < 2 ^ 64 → 0 <= RecvBytes s < 2 ^ 64 → 0 <= Truncated_ s < 2 ^ 64 →
  0 <= RecvErrors s < 2 ^ 64 →
  foldl add_reader s rs =
  mkSnapshot (u64 (RecvPackets s + zsum recvPackets rs)) (u64 (RecvBytes s + zsum recvBytes rs)) (SendPackets s) (SendBytes s)
    (u64 (Truncated_ s + zsum truncated rs)) (u64 (RecvErrors s + zsum recvErrors rs)) (SendErrors s) (KernelDrops s)
    (KernelDropsEnabled s).
Proof.
  revert s. induction rs as [|x rs IH]; intros s H1 H2 H3 H4; simpl.
  - rewrite !Z.add_0_r. destruct s; simpl in *. by rewrite !u64_small.
  - rewrite IH by apply u64_range. simpl. unfold Counter.Load. rewrite !u64_add_l, <- !Z.add_assoc. done.
Qed.

Lemma add_sends_sum s sends ds : length sends = length ds →
  0 <= SendPackets s < 2 ^ 64 → 0 <= SendBytes s < 2 ^ 64 → 0 <= SendErrors s < 2 ^ 64 → 0 <= KernelDrops s < 2 ^ 64 →
  add_sends s sends ds =
  Some (mkSnapshot (RecvPackets s) (RecvBytes s) (u64 (SendPackets s + zsum packets sends)) (u64 (SendBytes s + zsum bytes sends))
    (Truncated_ s) (RecvErrors s) (u64 (SendErrors s + zsum errors sends)) (u64 (KernelDrops s + zsum total ds))
    (KernelDropsEnabled s)).
Proof.
  revert s ds. induction sends as [|x sends IH]; intros s [|d ds] Hl H1 H2 H3 H4; simpl in *; try done.
  - rewrite !Z.add_0_r. destruct s; simpl in *. by rewrite !u64_small.
  - rewrite IH by (lia || apply u64_range). simpl. unfold Counter.Load. rewrite !u64_add_l, <- !Z.add_assoc. done.
Qed.

Lemma zsum_u64 {A} (f g : A → Z) l : (∀ x, x ∈ l → f x = u64 (g x)) → u64 (zsum f l) = u64 (zsum g l).
Proof.
  induction l as [|x l IH]; intros H; [done|]. simpl. rewrite H by left. rewrite u64_add_l, <- u64_add_r, IH.
  - by rewrite u64_add_r.
  - intros y Hy. apply H. by right.
Qed.
Lemma zsum_zeros {A} (f : A → Z) x k : f x = 0 → zsum f (replicate k x) = 0.
Proof. intros H. induction k as [|k IH]; [done|]. simpl. lia. Qed.
Lemma zsum_fmap {A B} (f : B → Z) (g : A → B) l : zsum f (g <$> l) = zsum (λ x, f (g x)) l.
Proof. unfold zsum. induction l as [|x l IH]; [done|]. csimpl. by rewrite IH. Qed.

Section stats.
Context (cfg : Config) (InterfaceByIndex : Z → option string) (classify : option Z → ReadErr) (qs : list (list rx)).
Context (HL : listening cfg qs).
Local Abbreviation next := (next cfg InterfaceByIndex classify).

(** A goroutine that is not in the middle of a message or an error. *)
Definition at_rest (l : Local) : Prop := inflight (at_pc l) = [] ∧ uncounted (at_pc l) = [].

Lemma rest_stats progs c l : rtc (step next) (init cfg qs progs) c → l ∈ procs c → at_rest l →
  calls l = packets_of cfg InterfaceByIndex (rdr l) (got l) ∧
  st l = stats_after cfg InterfaceByIndex classify (rdr l) (got l) (failed l) 0 0.
Proof using HL.
  intros Hr Hl [Hin Hun]. pose proof (udp_reachable cfg InterfaceByIndex classify qs HL progs c Hr) as Hi.
  pose proof (n_deliv _ _ _ _ _ Hi) as Hd. rewrite Forall_forall in Hd.
  destruct (Hd l Hl) as [_ _ _ _ (dn & es & E1 & E2 & E3 & E4)].
  rewrite Hin in E1. rewrite Hun in E2. simpl in E1. rewrite app_nil_r in E1, E2.
  rewrite E1, E2, E3, E4. split; [done|]. by destruct (at_pc l).
Qed.

(** Stats adds up: when no reader is in the middle of a message, it
    reports as many packets and bytes as the handlers of all readers were
    given, the datagrams cut for MaxPacket with the reads the system cut, the
    other failed reads, and the sums of the sockets' send and drop counters,
    all modulo 2^64. [rs] are the readers' counters in any order, [k] the
    goroutines that are no readers. *)
Theorem stats_at_rest progs c rs k sends ds on :
  rtc (step next) (init cfg qs progs) c → Forall at_rest (procs c) →
  rs ++ replicate k (mkStats 0 0 0 0) ≡ₚ st <$> procs c → length sends = length ds →
  Conn_Stats on rs sends ds =
  Some (mkSnapshot (u64 (zsum (λ l, Z.of_nat (length (calls l))) (procs c))) (u64 (zsum (λ l, data_bytes (calls l)) (procs c)))
    (u64 (zsum packets sends)) (u64 (zsum bytes sends))
    (u64 (zsum (λ l, count_cut cfg (got l) + count_class classify is_trunc (failed l)) (procs c)))
    (u64 (zsum (λ l, count_class classify (λ e, negb (is_trunc e)) (failed l)) (procs c)))
    (u64 (zsum errors sends)) (u64 (zsum total ds)) on).
Proof using HL.
  intros Hr Hrest Hp Hl. unfold Conn_Stats. rewrite foldl_readers by (simpl; lia).
  rewrite add_sends_sum by (simpl; lia || done). simpl. rewrite Forall_forall in Hrest.
  assert (∀ f g, f (mkStats 0 0 0 0) = 0 → (∀ l, l ∈ procs c → f (st l) = u64 (g l)) →
    u64 (zsum f rs) = u64 (zsum g (procs c))) as H.
  { intros f g H0 Hg. rewrite <- (zsum_u64 (λ l, f (st l)) g) by done. rewrite <- (zsum_fmap f st), <- (zsum_perm f _ _ Hp).
    by rewrite zsum_app, zsum_zeros, Z.add_0_r. }
  rewrite !Z.add_0_l. do 2 f_equal; (apply H; [done|]); intros l Hin; destruct (rest_stats progs c l Hr Hin (Hrest l Hin)) as [E1 E2];
    rewrite E2, ?E1; unfold stats_after; simpl; by rewrite ?Z.add_0_r.
Qed.
End stats.

Lemma stats_at_rest_witness :
  ∃ s, Conn_Stats true (st <$> drop 2 (procs DemoConn.last)) [mkSend 0 0 0] (drops (shared DemoConn.last)) = Some s ∧
    RecvPackets s = 2 ∧ RecvBytes s = 3 ∧ Truncated_ s = 1 ∧ KernelDrops s = 7.
Proof.
  pose proof (stats_at_rest DemoConn.cfg DemoConn.ifs ClassifyRead DemoConn.qs DemoConn.demo_listening
    [[CServe]; [CShutdown false]] DemoConn.last (st <$> drop 2 (procs DemoConn.last)) 2 [mkSend 0 0 0]
    (drops (shared DemoConn.last)) true DemoConn.conn_last_run) as H.
  eexists. split; [apply H|].
  - apply (bool_decide_unpack _). vm_compute. exact I.
  - vm_compute. solve_Permutation.
  - reflexivity.
  - vm_compute. split_and!; reflexivity.
Defined.
