(* ===== verification/Text.v ===== *)
(** Go strings as lists of bytes, and the functions of package strings that
    the program uses. *)
From S2P Require Import Prelude.
From stdpp Require Import pretty sorting.

Local Open Scope Z_scope.

Abbreviation str := (list Z).

Definition text (s : string) : str := (λ a, Z.of_N (Ascii.N_of_ascii a)) <$> String.list_ascii_of_string s.
Definition Itoa (z : Z) : str := text (pretty (Z.to_N z)).

Fixpoint join (sep : str) (xs : list str) : str :=
  match xs with [] => [] | [x] => x | x :: rest => x ++ sep ++ join sep rest end.

(** [strings.Split] with a separator of one byte. *)
Fixpoint split_on (c : Z) (s : str) : list str :=
  match s with
  | [] => [[]]
  | x :: rest =>
      if x =? c then [] :: split_on c rest
      else match split_on c rest with
           | [] => [[x]]
           | p :: ps => (x :: p) :: ps
           end
  end.

Definition HasPrefix (s p : str) : bool := bool_decide (take (length p) s = p).
Definition HasSuffix (s p : str) : bool := HasPrefix (rev s) (rev p).
Definition TrimPrefix (s p : str) : str := if HasPrefix s p then drop (length p) s else s.
Definition TrimSuffix (s p : str) : str := if HasSuffix s p then take (length s - length p) s else s.
Fixpoint Contains (s sub : str) : bool :=
  HasPrefix s sub || match s with [] => false | _ :: rest => Contains rest sub end.

(** [strings.Trim] with a cutset of one byte. *)
Fixpoint trim_byte_left (c : Z) (s : str) : str :=
  match s with x :: rest => if x =? c then trim_byte_left c rest else s | [] => [] end.
Definition Trim (c : Z) (s : str) : str := rev (trim_byte_left c (rev (trim_byte_left c s))).

(** White space: one byte, and the two- and three-byte encodings of the
    Unicode characters with the property White_Space. *)
Definition space1 (a : Z) : bool := ((9 <=? a) && (a <=? 13)) || (a =? 32).
Definition space2 (a b : Z) : bool := (a =? 194) && ((b =? 133) || (b =? 160)).
Definition space3 (a b c : Z) : bool :=
  ((a =? 225) && (b =? 154) && (c =? 128)) ||
  ((a =? 226) && (b =? 128) && (((128 <=? c) && (c <=? 138)) || (c =? 168) || (c =? 169) || (c =? 175))) ||
  ((a =? 226) && (b =? 129) && (c =? 159)) ||
  ((a =? 227) && (b =? 128) && (c =? 128)).

Fixpoint trim_by (s2 : Z → Z → bool) (s3 : Z → Z → Z → bool) (s : str) : str :=
  match s with
  | [] => []
  | a :: r1 =>
      if space1 a then trim_by s2 s3 r1
      else match r1 with
           | [] => s
           | b :: r2 =>
               if s2 a b then trim_by s2 s3 r2
               else match r2 with
                    | [] => s
                    | c :: r3 => if s3 a b c then trim_by s2 s3 r3 else s
                    end
           end
  end.
Definition trim_left : str → str := trim_by space2 space3.
(** From the end, the bytes of a character come in reverse. *)
Definition trim_right (s : str) : str :=
  rev (trim_by (λ b a, space2 a b) (λ c b a, space3 a b c) (rev s)).
Definition TrimSpace (s : str) : str := trim_right (trim_left s).

Example trim_examples :
  TrimSpace (text "  a b	 ") = text "a b" ∧ TrimSpace (text "　测试　 ") = text "测试" ∧
  split_on 44 (text "a,,b") = [text "a"; []; text "b"] ∧ Trim 124 (text "||a|b|") = text "a|b".
Proof. by vm_compute. Qed.

(** Byte order, and [sort.Strings]. *)
Fixpoint str_leb (a b : str) : bool :=
  match a, b with
  | [], _ => true
  | _ :: _, [] => false
  | x :: a', y :: b' => if x =? y then str_leb a' b' else x <? y
  end.
Definition str_le (a b : str) : Prop := str_leb a b = true.
#[global] Instance str_le_dec : RelDecision str_le.
Proof. intros a b. unfold str_le. apply _. Defined.
Definition sort_Strings : list str → list str := merge_sort str_le.

#[global] Instance str_le_total : Total str_le.
Proof.
  intros a b. unfold str_le. revert b. induction a as [|x a IH]; intros [|y b]; simpl; auto.
  rewrite (Z.eqb_sym y x). destruct (Z.eqb_spec x y); [apply IH|].
  destruct (Z.ltb_spec x y), (Z.ltb_spec y x); auto; lia.
Qed.
#[global] Instance str_le_trans : Transitive str_le.
Proof.
  intros a b c. unfold str_le. revert b c. induction a as [|x a IH]; intros [|y b] [|z c]; simpl; try done.
  destruct (Z.eqb_spec x y), (Z.eqb_spec y z), (Z.eqb_spec x z); subst; try done; try lia; eauto;
    rewrite ?Z.ltb_lt; intros; try lia. 
Qed.
#[global] Instance str_le_antisymm : AntiSymm (=) str_le.
Proof.
  intros a b. unfold str_le. revert b. induction a as [|x a IH]; intros [|y b]; simpl; try done.
  rewrite (Z.eqb_sym y x). destruct (Z.eqb_spec x y) as [->|]; [intros; f_equal; auto|].
  rewrite !Z.ltb_lt. lia.
Qed.

(** Sorting does not depend on the order of its input. *)
Lemma sort_Strings_perm xs ys : xs ≡ₚ ys → sort_Strings xs = sort_Strings ys.
Proof.
  intros H. apply (Sorted_unique str_le); [apply Sorted_merge_sort, _..|].
  unfold sort_Strings. by rewrite !merge_sort_Permutation.
Qed.

(** * Splitting and joining *)

Lemma split_on_nonempty c s : split_on c s ≠ [].
Proof. destruct s as [|x s]; simpl; [done|]. destruct (x =? c); [done|]. by destruct (split_on c s). Qed.

Lemma split_on_free c s : Forall (λ p, c ∉ p) (split_on c s).
Proof.
  induction s as [|x s IH]; simpl; [repeat constructor; set_solver|].
  destruct (Z.eqb_spec x c); [constructor; [set_solver|done]|].
  destruct (split_on c s) as [|p ps]; [repeat constructor; set_solver|].
  inversion IH; subst. constructor; [set_solver|done].
Qed.

Lemma join_cons sep x xs : xs ≠ [] → join sep (x :: xs) = x ++ sep ++ join sep xs.
Proof. by destruct xs. Qed.

Lemma join_split c s : join [c] (split_on c s) = s.
Proof.
  induction s as [|x s IH]; [done|]. simpl. pose proof (split_on_nonempty c s).
  destruct (Z.eqb_spec x c) as [->|].
  - rewrite join_cons by done. simpl. by rewrite IH.
  - destruct (split_on c s) as [|p [|q ps]]; [done| |]; simpl in *; by rewrite <- IH.
Qed.

Lemma split_on_app c p s : c ∉ p → split_on c (p ++ c :: s) = p :: split_on c s.
Proof.
  induction p as [|x p IH]; intros Hp; simpl; [by rewrite Z.eqb_refl|].
  rewrite (proj2 (Z.eqb_neq x c)) by set_solver. rewrite IH by set_solver. done.
Qed.
Lemma split_on_none c p : c ∉ p → split_on c p = [p].
Proof.
  induction p as [|x p IH]; intros Hp; simpl; [done|].
  rewrite (proj2 (Z.eqb_neq x c)) by set_solver. rewrite IH by set_solver. done.
Qed.

(** Splitting what was joined gives the parts back. *)
Lemma split_join c xs : xs ≠ [] → Forall (λ p, c ∉ p) xs → split_on c (join [c] xs) = xs.
Proof.
  intros Hne H. induction H as [|x xs Hx _ IH]; [done|]. destruct xs as [|y ys]; [by apply split_on_none|].
  rewrite join_cons by done. rewrite <- IH at 2 by done. by apply split_on_app.
Qed.

(** * Trimming *)

Section trim.
Context (s2 : Z → Z → bool) (s3 : Z → Z → Z → bool).

(** The string starts with white space. *)
Definition begins (s : str) : bool :=
  match s with
  | [] => false
  | a :: r1 =>
      space1 a ||
      match r1 with
      | [] => false
      | b :: r2 => s2 a b || match r2 with [] => false | c :: _ => s3 a b c end
      end
  end.

Lemma trim_by_id s : begins s = false → trim_by s2 s3 s = s.
Proof.
  destruct s as [|a [|b [|c s]]]; simpl; [done|..]; destruct (space1 a); try done;
    destruct (s2 a b); try done. by destruct (s3 a b c).
Qed.

Lemma trim_by_spec s : begins (trim_by s2 s3 s) = false ∧ ∃ p, s = p ++ trim_by s2 s3 s.
Proof.
  remember (length s) as n eqn:Hn. assert (length s <= n)%nat as Hle by lia. clear Hn. revert s Hle.
  induction n as [|n IH]; intros s Hle.
  { destruct s; [|simpl in Hle; lia]. split; [done|]. by exists []. }
  assert (∀ p r, s = p ++ r → (length r <= n)%nat → trim_by s2 s3 s = trim_by s2 s3 r →
    begins (trim_by s2 s3 s) = false ∧ ∃ q, s = q ++ trim_by s2 s3 s) as Hrec.
  { intros p r E Hr ->. destruct (IH r Hr) as (H1 & q & H2). split; [done|].
    exists (p ++ q). by rewrite <- app_assoc, <- H2. }
  destruct (begins s) eqn:Hb.
  - destruct s as [|a r1]; [done|]. simpl in Hb, Hle. destruct (space1 a) eqn:E1.
    { apply (Hrec [a] r1); [done|lia|]. simpl. by rewrite E1. }
    destruct r1 as [|b r2]; [done|]. simpl in Hb, Hle. destruct (s2 a b) eqn:E2.
    { apply (Hrec [a; b] r2); [done|lia|]. simpl. by rewrite E1, E2. }
    destruct r2 as [|c r3]; [done|]. simpl in Hb, Hle.
    apply (Hrec [a; b; c] r3); [done|lia|]. simpl. by rewrite E1, E2, Hb.
  - rewrite (trim_by_id s Hb). split; [done|]. by exists [].
Qed.

Lemma begins_prefix p q : begins (p ++ q) = false → begins p = false.
Proof.
  destruct p as [|a [|b [|c p]]]; simpl; try done; destruct (space1 a); try done.
  by destruct (s2 a b).
Qed.

Lemma begins_pad s t :
  (∀ a, s2 a 32 = false) → (∀ a b, s3 a b 32 = false) → (∀ a c, s3 a 32 c = false) →
  begins s = false → s ≠ [] → begins (s ++ 32 :: t) = false.
Proof.
  intros H2 H3 H3'. destruct s as [|a [|b [|c s]]]; simpl; try done; destruct (space1 a); try done.
  - intros _ _. simpl. rewrite H2. destruct t; [done|]. simpl. by rewrite H3'.
  - destruct (s2 a b); [done|]. intros _ _. simpl. by rewrite H3.
Qed.
End trim.

Definition begins_left : str → bool := begins space2 space3.
Definition begins_right (s : str) : bool := begins (λ b a, space2 a b) (λ c b a, space3 a b c) (rev s).
(** No white space at either end. *)
Definition trimmed (s : str) : Prop := begins_left s = false ∧ begins_right s = false.

Lemma TrimSpace_trimmed s : trimmed (TrimSpace s).
Proof.
  unfold trimmed, TrimSpace, trim_right, trim_left, begins_left, begins_right.
  destruct (trim_by_spec space2 space3 s) as (H1 & _). set (t := trim_by space2 space3 s) in *.
  destruct (trim_by_spec (λ b a, space2 a b) (λ c b a, space3 a b c) (rev t)) as (H2 & q & H3).
  rewrite rev_involutive. split; [|done].
  apply (begins_prefix _ _ _ (rev q)). rewrite <- rev_app_distr, <- H3, rev_involutive. done.
Qed.

Lemma TrimSpace_id s : trimmed s → TrimSpace s = s.
Proof.
  intros [H1 H2]. unfold TrimSpace, trim_left, trim_right. rewrite (trim_by_id _ _ s H1).
  rewrite trim_by_id by done. apply rev_involutive.
Qed.

Lemma TrimSpace_elem s x : x ∈ TrimSpace s → x ∈ s.
Proof.
  unfold TrimSpace, trim_right, trim_left. intros H.
  destruct (trim_by_spec space2 space3 s) as (_ & p & Hp). rewrite Hp. set (t := trim_by space2 space3 s) in *.
  destruct (trim_by_spec (λ b a, space2 a b) (λ c b a, space3 a b c) (rev t)) as (_ & q & Hq).
  rewrite elem_of_app. right. rewrite <- (rev_involutive t), Hq.
  rewrite rev_app_distr, elem_of_app. by left.
Qed.

(** Blanks around a trimmed string are removed. *)
Lemma TrimSpace_pad s : trimmed s → TrimSpace (32 :: s ++ [32]) = s.
Proof.
  intros [H1 H2]. unfold TrimSpace, trim_left. simpl trim_by at 1.
  destruct (decide (s = [])) as [->|Hne]; [done|].
  assert (∀ a b, space3 a b 32 = false) as S3.
  { intros. unfold space3. simpl. by rewrite !andb_false_r. }
  assert (∀ a c, space3 a 32 c = false) as S3'.
  { intros. unfold space3. simpl. by rewrite !andb_false_r. }
  assert (∀ a, space2 a 32 = false) as S2 by (intros; unfold space2; by rewrite andb_false_r).
  rewrite trim_by_id by (by apply begins_pad). unfold trim_right. rewrite rev_app_distr. simpl.
  rewrite trim_by_id by done. apply rev_involutive.
Qed.

Lemma trim_byte_other c x s : x ≠ c → trim_byte_left c (x :: s) = x :: s.
Proof. intros. simpl. by rewrite (proj2 (Z.eqb_neq x c)). Qed.
