(* ===== verification/Socks5.v ===== *)
(** The SOCKS5 server of [src/examples/socks5-server/main.go]: the handshake,
    the handler and the relay.

    A connection is what its reads will return, in the pieces in which they
    arrive, and what was written to it. The handshake is written in a monad
    with the connection's state and errors; the relay's two goroutines run
    under any interleaving. *)
From S2P Require Import Prelude Text.

Local Open Scope Z_scope.

(** * Connections *)

Inductive err :=
  | EOF | UnexpectedEOF | Timeout | NetErr (e : Z)
  | BadVersion | NoAuthMissing | OnlyConnect | BadAddrType (t : Z)
  | Hangs.                         (* a read or write without a deadline that never returns *)

(** What follows the bytes of a connection. *)
Inductive ending := EndEOF | EndErr (e : Z) | Silent.

(** What a write does: it passes all bytes on, it fails after [k] of them, or the
    peer does not read and after [k] bytes the write waits. *)
Inductive wout := WDone | WErr (e : Z) (k : nat) | WBlocks (k : nat).

(** [segs]: the pieces that reads find; [fin]: what comes after them; [wouts]:
    what the next writes do, those not listed being [WDone]. *)
Record conn := mkConn {
  segs : list (list Z); fin : ending; deadline : bool;
  wouts : list wout; written : list Z }.

Definition input (c : conn) : list Z := concat (segs c).

Definition set_segs (c : conn) (ss : list (list Z)) : conn :=
  mkConn ss (fin c) (deadline c) (wouts c) (written c).
Definition SetDeadline (c : conn) (d : bool) : conn :=
  mkConn (segs c) (fin c) d (wouts c) (written c).

(** What a read returns when nothing is left. *)
Definition read_end (c : conn) : err :=
  match fin c with EndEOF => EOF | EndErr e => NetErr e | Silent => if deadline c then Timeout else Hangs end.

(** The loop of io.ReadFull: [n] bytes are missing, [got] are there. *)
Fixpoint readFull_loop (ss : list (list Z)) (last : err) (n : nat) (got : list Z)
  : list (list Z) * (err + list Z) :=
  match n with
  | O => (ss, inr got)
  | _ =>
      match ss with
      | [] => ([], inl (match got, last with _ :: _, EOF => UnexpectedEOF | _, _ => last end))
      | s :: rest =>
          if (n <=? length s)%nat then (drop n s :: rest, inr (got ++ take n s))
          else readFull_loop rest last (n - length s) (got ++ s)
      end
  end.

Definition act (A : Type) : Type := conn → conn * (err + A).
Definition ret {A} (a : A) : act A := λ c, (c, inr a).
Definition fail {A} (e : err) : act A := λ c, (c, inl e).
Definition bind {A B} (m : act A) (f : A → act B) : act B := λ c,
  match m c with (c', inl e) => (c', inl e) | (c', inr a) => f a c' end.

Definition ReadFull (n : nat) : act (list Z) := λ c,
  let '(ss, r) := readFull_loop (segs c) (read_end c) n [] in (set_segs c ss, r).

Definition Write (b : list Z) : act unit := λ c,
  match wouts c with
  | WErr e k :: rest => (mkConn (segs c) (fin c) (deadline c) rest (written c ++ take k b), inl (NetErr e))
  | WBlocks k :: rest =>
      (mkConn (segs c) (fin c) (deadline c) rest (written c ++ take k b),
       inl (if deadline c then Timeout else Hangs))
  | WDone :: rest => (mkConn (segs c) (fin c) (deadline c) rest (written c ++ b), inr ())
  | [] => (mkConn (segs c) (fin c) (deadline c) [] (written c ++ b), inr ())
  end.
(** [_, _ = conn.Write(b)] *)
Definition Write_ (b : list Z) : act unit := λ c, ((Write b c).1, inr ()).

Declare Scope conn_scope.
Notation "'let!' x ':=' m 'in' k" := (bind m (λ x, k)) (at level 10, x name, m at level 200, k at level 200) : conn_scope.
Notation "'do!' m 'then' k" := (bind m (λ _, k)) (at level 10, m at level 200, k at level 200) : conn_scope.
Local Open Scope conn_scope.

(** * Texts of addresses *)

Definition hex_digit (d : Z) : Z := if d <? 10 then 48 + d else 87 + d.
(** Lower case, without leading zeros. *)
Definition hex16 (g : Z) : list Z :=
  let ds := [g / 4096; (g / 256) mod 16; (g / 16) mod 16; g mod 16] in
  hex_digit <$>
    (if 4096 <=? g then ds else if 256 <=? g then drop 1 ds else if 16 <=? g then drop 2 ds else drop 3 ds).

Fixpoint groups (bs : list Z) : list Z :=
  match bs with a :: b :: rest => a * 256 + b :: groups rest | _ => [] end.
Fixpoint zeros (gs : list Z) : nat :=
  match gs with g :: rest => if g =? 0 then S (zeros rest) else O | [] => O end.
(** The first longest run of at least two zero groups: its start and length. *)
Fixpoint zero_run (gs : list Z) (i : nat) (best : nat * nat) : nat * nat :=
  match gs with
  | [] => best
  | _ :: rest =>
      let l := zeros gs in
      zero_run rest (S i) (if ((2 <=? l) && (best.2 <? l))%nat then (i, l) else best)
  end.

(** [net.IP(address).String()] for 4 and for 16 bytes. *)
Definition ip4_String (bs : list Z) : list Z := join (text ".") (Itoa <$> bs).
Definition ip6_String (bs : list Z) : list Z :=
  if bool_decide (take 12 bs = replicate 10 0 ++ [255; 255]) then ip4_String (drop 12 bs)
  else
    let gs := groups bs in
    let '(i, l) := zero_run gs 0 (0, 0)%nat in
    if Nat.eqb l 0 then join (text ":") (hex16 <$> gs)
    else join (text ":") (hex16 <$> take i gs) ++ text "::" ++ join (text ":") (hex16 <$> drop (i + l) gs).

(** 58 is a colon. *)
Definition JoinHostPort (host port : list Z) : list Z :=
  if bool_decide (58 ∈ host) then text "[" ++ host ++ text "]:" ++ port else host ++ text ":" ++ port.

Example ip6_examples :
  ip6_String (replicate 15 0 ++ [1]) = text "::1" ∧
  ip6_String ([32; 1; 13; 184] ++ replicate 8 0 ++ [0; 0; 171; 205]) = text "2001:db8::abcd" ∧
  ip6_String (replicate 10 0 ++ [255; 255; 10; 0; 0; 7]) = text "10.0.0.7" ∧
  ip6_String ([0; 1; 0; 0; 0; 2; 0; 3; 0; 0; 0; 0; 0; 4; 0; 5]) = text "1:0:2:3::4:5".
Proof. by vm_compute. Qed.

(** * The handshake *)

Definition at_ (bs : list Z) (i : nat) : Z := default 0 (bs !! i).

Definition read_host (atyp : Z) : act (list Z) :=
  if atyp =? 1 then let! address := ReadFull 4 in ret (ip4_String address)
  else if atyp =? 3 then
    let! length := ReadFull 1 in
    let! address := ReadFull (Z.to_nat (at_ length 0)) in ret address
  else if atyp =? 4 then let! address := ReadFull 16 in ret (ip6_String address)
  else fail (BadAddrType atyp).

(** The part after the method was accepted. *)
Definition read_request : act (list Z) :=
  let! request := ReadFull 4 in
  if negb (at_ request 0 =? 5) || negb (at_ request 1 =? 1) then fail OnlyConnect
  else
    let! host := read_host (at_ request 3) in
    let! port := ReadFull 2 in
    ret (JoinHostPort host (Itoa (at_ port 0 * 256 + at_ port 1))).

Definition handshake : act (list Z) :=
  let! header := ReadFull 2 in
  if negb (at_ header 0 =? 5) then fail BadVersion
  else
    let! methods := ReadFull (Z.to_nat (at_ header 1)) in
    if negb (existsb (Z.eqb 0) methods) then do! Write_ [5; 255] then fail NoAuthMissing
    else do! Write [5; 0] then read_request.

(** * The handler *)

Inductive served := Failed (e : err) | DialFailed (e : Z) | Relaying (target : list Z).

(** [dlErr]: the error of the first SetDeadline; [dial]: the error of the dial,
    if it fails. [Relaying]: the relay with the target is next. *)
Definition serveSOCKS5 (dlErr : option Z) (dial : list Z → option Z) (client : conn) : conn * served :=
  match dlErr with
  | Some e => (client, Failed (NetErr e))
  | None =>
      match handshake (SetDeadline client true) with
      | (c, inl e) => (c, Failed e)
      | (c, inr target) =>
          match dial target with
          | Some e => ((Write_ [5; 1; 0; 1; 0; 0; 0; 0; 0; 0] c).1, DialFailed e)
          | None =>
              match Write [5; 0; 0; 1; 0; 0; 0; 0; 0; 0] c with
              | (c', inl e) => (c', Failed e)
              | (c', inr _) => (SetDeadline c' false, Relaying target)
              end
          end
      end
  end.

(** * Pieces do not matter *)

(** Connections that will deliver the same bytes, in whatever pieces. *)
#[global] Instance conn_equiv : Equiv conn := λ c c',
  input c = input c' ∧ fin c = fin c' ∧ deadline c = deadline c' ∧ wouts c = wouts c' ∧
  written c = written c'.
#[global] Instance conn_equivalence : Equivalence (≡@{conn}).
Proof.
  split.
  - done.
  - intros ? ? (? & ? & ? & ? & ?). by split_and!.
  - intros ? ? ? (E1 & E2 & E3 & E4 & E5) (? & ? & ? & ? & ?). split_and!; by etrans.
Qed.

Definition res_equiv {A} (p q : conn * (err + A)) : Prop := p.1 ≡ q.1 ∧ p.2 = q.2.

Lemma readFull_enough ss last n got :
  (n <= length (concat ss))%nat →
  ∃ ss', readFull_loop ss last n got = (ss', inr (got ++ take n (concat ss))) ∧
         concat ss' = drop n (concat ss).
Proof.
  revert n got. induction ss as [|s ss IH]; intros [|n] got Hn; cbn [readFull_loop concat] in *.
  - exists []. by rewrite app_nil_r.
  - simpl in Hn. lia.
  - exists (s :: ss). by rewrite app_nil_r, drop_0.
  - rewrite length_app in Hn. destruct (Nat.leb_spec (S n) (length s)) as [H|H].
    + exists (drop (S n) s :: ss). simpl. rewrite take_app_le, drop_app_le by lia. done.
    + destruct (IH (S n - length s)%nat (got ++ s)) as (ss' & E & Hd); [lia|].
      exists ss'. rewrite E, Hd. split.
      * rewrite take_app_ge, <- app_assoc by lia. done.
      * rewrite drop_app_ge by lia. done.
Qed.

Lemma readFull_short ss last n got :
  (length (concat ss) < n)%nat →
  readFull_loop ss last n got =
  ([], inl (match got ++ concat ss, last with _ :: _, EOF => UnexpectedEOF | _, _ => last end)).
Proof.
  revert n got. induction ss as [|s ss IH]; intros [|n] got Hn; cbn [readFull_loop concat] in *; try lia.
  - by rewrite app_nil_r.
  - rewrite length_app in Hn. rewrite (proj2 (Nat.leb_gt _ _)) by lia.
    rewrite IH by lia. by rewrite <- app_assoc.
Qed.

(** A read of [n] bytes takes the next [n] bytes. *)
Lemma ReadFull_bytes n c a b :
  input c = a ++ b → length a = n → ∃ c', ReadFull n c = (c', inr a) ∧ input c' = b ∧
    fin c' = fin c ∧ deadline c' = deadline c ∧ wouts c' = wouts c ∧ written c' = written c.
Proof.
  unfold ReadFull, input. intros E Hn.
  destruct (readFull_enough (segs c) (read_end c) n []) as (ss' & -> & Hd).
  { rewrite E, length_app. lia. }
  eexists. rewrite E, take_app_length' by done. split; [done|]. simpl.
  by rewrite Hd, E, drop_app_length'.
Qed.

#[global] Instance ReadFull_proper n : Proper ((≡) ==> res_equiv) (ReadFull n).
Proof.
  intros c d (E1 & E2 & E3 & E4 & E5). unfold ReadFull.
  assert (read_end c = read_end d) as -> by (unfold read_end; by rewrite E2, E3).
  unfold input in E1. destruct (decide (n <= length (concat (segs c)))%nat) as [H|H].
  - destruct (readFull_enough (segs c) (read_end d) n []) as (s1 & -> & D1); [done|].
    destruct (readFull_enough (segs d) (read_end d) n []) as (s2 & -> & D2); [by rewrite <- E1|].
    split; simpl; [|by rewrite E1]. split_and!; simpl; try done. unfold input. simpl. by rewrite D1, D2, E1.
  - rewrite !readFull_short by (try rewrite <- E1; lia). split; simpl; [by split_and!|by rewrite E1].
Qed.
#[global] Instance Write_proper b : Proper ((≡) ==> res_equiv) (Write b).
Proof.
  intros c d (E1 & E2 & E3 & E4 & E5). unfold Write. rewrite E4, E3.
  destruct (wouts d) as [|[|e k|k] rest]; (split; [|done]); split_and!; simpl; try done; by rewrite E5.
Qed.
#[global] Instance Write__proper b : Proper ((≡) ==> res_equiv) (Write_ b).
Proof. intros c d E. destruct (Write_proper b c d E). by split. Qed.
#[global] Instance ret_proper {A} (a : A) : Proper ((≡) ==> res_equiv) (ret a).
Proof. by split. Qed.
#[global] Instance fail_proper {A} e : Proper ((≡) ==> res_equiv) (@fail A e).
Proof. by split. Qed.
#[global] Instance bind_proper {A B} (m : act A) (f : A → act B) :
  Proper ((≡) ==> res_equiv) m → (∀ a, Proper ((≡) ==> res_equiv) (f a)) → Proper ((≡) ==> res_equiv) (bind m f).
Proof.
  intros Hm Hf c d E. destruct (Hm c d E) as [E1 E2]. unfold bind.
  destruct (m c) as [c' r], (m d) as [d' r']; simpl in *. subst r'.
  destruct r as [e|a]; [by split|by apply Hf].
Qed.
#[global] Instance if_proper {A} (b : bool) (m m' : act A) :
  Proper ((≡) ==> res_equiv) m → Proper ((≡) ==> res_equiv) m' →
  Proper ((≡) ==> res_equiv) (if b then m else m').
Proof. by destruct b. Qed.

(** The handshake sees the bytes, not the pieces they come in. *)
#[global] Instance handshake_proper : Proper ((≡) ==> res_equiv) handshake.
Proof. unfold handshake, read_request, read_host. apply _. Qed.

(** * What a client sends *)

Inductive dest := Dest4 (bs : list Z) | DestName (bs : list Z) | Dest6 (bs : list Z).
Record request := mkRequest { methods : list Z; rsv : Z; dst : dest; port_hi : Z; port_lo : Z }.

Definition encode_dest (d : dest) : list Z :=
  match d with
  | Dest4 bs => 1 :: bs
  | DestName bs => 3 :: Z.of_nat (length bs) :: bs
  | Dest6 bs => 4 :: bs
  end.
Definition encode (r : request) : list Z :=
  [5; Z.of_nat (length (methods r))] ++ methods r ++ [5; 1; rsv r] ++ encode_dest (dst r) ++
  [port_hi r; port_lo r].
Definition dest_ok (d : dest) : Prop :=
  match d with
  | Dest4 bs => length bs = 4%nat
  | DestName bs => (length bs < 256)%nat
  | Dest6 bs => length bs = 16%nat
  end.
Definition request_ok (r : request) : Prop :=
  0 ∈ methods r ∧ (length (methods r) < 256)%nat ∧ dest_ok (dst r).

Definition host (d : dest) : list Z :=
  match d with Dest4 bs => ip4_String bs | DestName bs => bs | Dest6 bs => ip6_String bs end.
Definition target (r : request) : list Z :=
  JoinHostPort (host (dst r)) (Itoa (port_hi r * 256 + port_lo r)).

Definition bytes_ok (bs : list Z) : Prop := Forall (λ b, 0 <= b < 256) bs.

Definition frame (c c' : conn) : Prop := fin c' = fin c ∧ deadline c' = deadline c.

(** [m] returns [a] exactly when the input starts with some [bs] with
    [R bs a], which it then takes. *)
Definition parses {A} (m : act A) (R : list Z → A → Prop) : Prop := ∀ c,
  (∀ a bs rest, R bs a → input c = bs ++ rest →
     ∃ c', m c = (c', inr a) ∧ input c' = rest ∧ frame c c' ∧ wouts c' = wouts c ∧ written c' = written c) ∧
  (∀ a c', m c = (c', inr a) → bytes_ok (input c) →
     ∃ bs, R bs a ∧ input c = bs ++ input c' ∧ frame c c' ∧ wouts c' = wouts c ∧ written c' = written c).

Lemma conn_frame_trans c1 c2 c3 : frame c1 c2 → frame c2 c3 → frame c1 c3.
Proof. intros [? ?] [? ?]. split; congruence. Qed.

Lemma parses_ReadFull n : parses (ReadFull n) (λ bs a, bs = a ∧ length a = n).
Proof.
  intros c. split.
  - intros a bs rest [-> Hn] E. destruct (ReadFull_bytes n c a rest E Hn) as (c' & -> & ? & ? & ? & ? & ?).
    exists c'. by split_and!.
  - intros a c' H _. destruct (decide (n <= length (input c))%nat) as [Hn|Hn].
    + destruct (ReadFull_bytes n c (take n (input c)) (drop n (input c))) as (c2 & E & ? & ? & ? & ? & ?).
      { by rewrite take_drop. } { rewrite length_take. lia. }
      rewrite E in H. injection H as -> <-. exists (take n (input c)). split_and!; try done.
      * rewrite length_take. lia.
      * congruence || (by rewrite <- (take_drop n (input c)) at 1; f_equal).
    + unfold ReadFull in H. rewrite readFull_short in H by (unfold input in Hn; lia). discriminate.
Qed.

Lemma parses_ret {A} (a : A) : parses (ret a) (λ bs x, bs = [] ∧ x = a).
Proof.
  intros c. split.
  - intros x bs rest [-> ->] E. exists c. by split_and!.
  - intros x c' [= <- <-] _. exists []. by split_and!.
Qed.

Lemma parses_fail {A} e (R : list Z → A → Prop) : (∀ bs a, ¬ R bs a) → parses (fail e) R.
Proof. intros H c. split; [intros a bs rest Hr; by apply H in Hr|done]. Qed.

Lemma parses_bind {A B} (m : act A) (f : A → act B) R (S : A → list Z → B → Prop) (T : list Z → B → Prop) :
  parses m R → (∀ a, parses (f a) (S a)) →
  (∀ bs b, T bs b → ∃ a x y, R x a ∧ S a y b ∧ bs = x ++ y) →
  (∀ a x y b, R x a → S a y b → bytes_ok (x ++ y) → T (x ++ y) b) →
  parses (bind m f) T.
Proof.
  intros Hm Hf H1 H2 c. split.
  - intros b bs rest (a & x & y & HR & HS & ->)%H1 E. rewrite <- app_assoc in E.
    destruct (proj1 (Hm c) a x _ HR E) as (c1 & E1 & I1 & F1 & W1 & X1). unfold bind. rewrite E1.
    destruct (proj1 (Hf a c1) b y _ HS I1) as (c2 & -> & I2 & F2 & W2 & X2).
    exists c2. split_and!; [done|done|by eapply conn_frame_trans|congruence..].
  - intros b c2 H Hb. unfold bind in H. destruct (m c) as [c1 [e|a]] eqn:E1; [done|].
    destruct (proj2 (Hm c) a c1 E1 Hb) as (x & HR & I1 & F1 & W1 & X1).
    assert (bytes_ok (input c1)) as Hb1 by (rewrite I1 in Hb; by apply Forall_app in Hb as [_ ?]).
    destruct (proj2 (Hf a c1) b c2 H Hb1) as (y & HS & I2 & F2 & W2 & X2).
    exists (x ++ y). rewrite I1, I2 in Hb. rewrite app_assoc in Hb. apply Forall_app in Hb as [Hb _].
    split_and!; [by eauto|by rewrite I1, I2, app_assoc|by eapply conn_frame_trans|congruence..].
Qed.

Lemma parses_ext {A} (m : act A) (R R' : list Z → A → Prop) :
  parses m R → (∀ bs a, R' bs a → R bs a) → (∀ bs a, bytes_ok bs → R bs a → R' bs a) → parses m R'.
Proof.
  intros H H1 H2 c. destruct (H c) as [Ha Hb]. split.
  - intros a bs rest HR. apply Ha. auto.
  - intros a c' E Hok. destruct (Hb a c' E Hok) as (bs & HR & I & ?). exists bs. split; [|done].
    apply H2; [|done]. rewrite I in Hok. by apply Forall_app in Hok as [? _].
Qed.

Lemma one_byte (a : list Z) : length a = 1%nat → ∃ x, a = [x].
Proof. destruct a as [|x [|]]; naive_solver. Qed.

Lemma parses_read_host t :
  parses (read_host t) (λ bs h, ∃ d, dest_ok d ∧ encode_dest d = t :: bs ∧ h = host d).
Proof.
  unfold read_host. destruct (Z.eqb_spec t 1) as [->|N1].
  { eapply parses_bind; [apply parses_ReadFull|intros; apply parses_ret| |]; simpl.
    - intros bs h ([x|x|x] & Hd & [= <-] & ->). exists x, x, []. by rewrite app_nil_r.
    - intros a x y h [-> Ha] [-> ->] _. exists (Dest4 a). by rewrite app_nil_r. }
  destruct (Z.eqb_spec t 3) as [->|N3].
  { eapply parses_bind with (S := λ l y h, length y = Z.to_nat (at_ l 0) ∧ h = y); [apply parses_ReadFull| | |].
    - intros l. eapply parses_bind; [apply parses_ReadFull|intros; apply parses_ret| |]; simpl.
      + intros bs h [Hl ->]. exists bs, bs, []. by rewrite app_nil_r.
      + intros a x y h [-> Ha] [-> ->] _. by rewrite app_nil_r.
    - intros bs h ([x|x|x] & Hd & [= <-] & ->). exists [Z.of_nat (length x)], [Z.of_nat (length x)], x.
      split_and!; try done. unfold at_. simpl. lia.
    - intros a x y h [-> [l ->]%one_byte] [Hy ->] Hb. exists (DestName y). simpl in *.
      apply Forall_cons in Hb as [Hl _]. unfold at_ in Hy. simpl in Hy. rewrite Hy. rewrite Z2Nat.id by lia.
      split_and!; try done. lia. }
  destruct (Z.eqb_spec t 4) as [->|N4].
  { eapply parses_bind; [apply parses_ReadFull|intros; apply parses_ret| |]; simpl.
    - intros bs h ([x|x|x] & Hd & [= <-] & ->). exists x, x, []. by rewrite app_nil_r.
    - intros a x y h [-> Ha] [-> ->] _. exists (Dest6 a). by rewrite app_nil_r. }
  apply parses_fail. intros bs h ([x|x|x] & Hd & [= <- <-] & ->); congruence.
Qed.

Definition request_tail (bs t : list Z) : Prop :=
  ∃ rs d hi lo, dest_ok d ∧ bs = [5; 1; rs] ++ encode_dest d ++ [hi; lo] ∧
    t = JoinHostPort (host d) (Itoa (hi * 256 + lo)).

Lemma parses_read_request : parses read_request request_tail.
Proof.
  unfold read_request.
  eapply parses_bind with (S := λ q y t, at_ q 0 = 5 ∧ at_ q 1 = 1 ∧
      ∃ d hi lo, dest_ok d ∧ at_ q 3 :: y = encode_dest d ++ [hi; lo] ∧
        t = JoinHostPort (host d) (Itoa (hi * 256 + lo))); [apply parses_ReadFull| | |].
  - intros q. destruct (Z.eqb_spec (at_ q 0) 5); simpl; [|apply parses_fail; by intros ? ? [? _]].
    destruct (Z.eqb_spec (at_ q 1) 1); simpl; [|apply parses_fail; by intros ? ? (_ & ? & _)].
    eapply parses_bind with (S := λ h y t, ∃ hi lo, y = [hi; lo] ∧ t = JoinHostPort h (Itoa (hi * 256 + lo)));
      [apply parses_read_host| | |].
    + intros h. eapply parses_bind; [apply parses_ReadFull|intros; apply parses_ret| |]; simpl.
      * intros bs t (hi & lo & -> & ->). by exists [hi; lo], [hi; lo], [].
      * intros a x y t [-> Ha] [-> ->] _. destruct a as [|hi [|lo [|]]]; try done.
        rewrite app_nil_r. by exists hi, lo.
    + intros bs t (_ & _ & d & hi & lo & Hd & E & ->).
      destruct (encode_dest d) as [|t' y] eqn:Ed; [by destruct d|]. injection E as E1 E2.
      exists (host d), y, [hi; lo]. split_and!; [exists d; split_and!; congruence| |done]. by exists hi, lo.
    + intros h x y t (d & Hd & Ed & ->) (hi & lo & -> & ->) _. split_and!; try done.
      exists d, hi, lo. by rewrite Ed.
  - intros bs t (rs & d & hi & lo & Hd & -> & ->).
    destruct (encode_dest d) as [|t' y] eqn:Ed; [by destruct d|].
    exists [5; 1; rs; t'], [5; 1; rs; t'], (y ++ [hi; lo]). split_and!; try done.
    exists d, hi, lo. by rewrite Ed.
  - intros a x y t [-> Ha] (H0 & H1 & d & hi & lo & Hd & E & ->) _.
    destruct a as [|q0 [|q1 [|q2 [|q3 [|]]]]]; try done. unfold at_ in *. simpl in *. subst.
    exists q2, d, hi, lo. split_and!; try done. simpl. by rewrite <- E.
Qed.

Definition writes_ok (c : conn) : Prop :=
  match wouts c with [] | WDone :: _ => True | _ => False end.

Lemma Write_ok b c : writes_ok c → ∃ c', Write b c = (c', inr ()) ∧ input c' = input c ∧ frame c c' ∧
  written c' = written c ++ b.
Proof.
  unfold writes_ok, Write. destruct (wouts c) as [|[|e k|k] rest]; intros H; try done;
    eexists; (split; [done|]); by split_and!.
Qed.

Lemma existsb_zero ms : existsb (Z.eqb 0) ms = true ↔ 0 ∈ ms.
Proof.
  rewrite existsb_exists. setoid_rewrite <- list_elem_of_In. split.
  - intros (x & Hx & <-%Z.eqb_eq). done.
  - intros. exists 0. by rewrite Z.eqb_refl.
Qed.

(** The greeting: version, methods, and the reply to them. *)
Lemma handshake_greeting c ms rest :
  (length ms < 256)%nat → 0 ∈ ms → writes_ok c →
  input c = [5; Z.of_nat (length ms)] ++ ms ++ rest →
  ∃ c', handshake c = read_request c' ∧ input c' = rest ∧ frame c c' ∧ written c' = written c ++ [5; 0].
Proof.
  intros Hl H0 Hw E. unfold handshake, bind.
  destruct (ReadFull_bytes 2 c _ _ E eq_refl) as (c1 & -> & I1 & F1 & D1 & O1 & W1). simpl.
  destruct (ReadFull_bytes (length ms) c1 ms rest I1 eq_refl) as (c2 & E2 & I2 & F2 & D2 & O2 & W2).
  unfold at_. simpl. rewrite Nat2Z.id, E2, (proj2 (existsb_zero ms) H0). simpl.
  destruct (Write_ok [5; 0] c2) as (c3 & -> & I3 & F3 & W3).
  { unfold writes_ok in *. by rewrite O2, O1. }
  exists c3. split_and!; [done|congruence| |by rewrite W3, W2, W1].
  eapply conn_frame_trans; [|exact F3]. split; congruence.
Qed.

Lemma handshake_accepted c c' t :
  handshake c = (c', inr t) → bytes_ok (input c) → writes_ok c →
  ∃ ms c1, 0 ∈ ms ∧ (length ms < 256)%nat ∧ input c = [5; Z.of_nat (length ms)] ++ ms ++ input c1 ∧
    read_request c1 = (c', inr t).
Proof.
  unfold handshake, bind. intros H Hb Hw.
  destruct (ReadFull 2 c) as [c1 [e|hd]] eqn:E1; [done|].
  destruct (proj2 (parses_ReadFull 2 c) hd c1 E1 Hb) as (? & [-> Hhd] & I1 & F1 & O1 & W1).
  destruct hd as [|h0 [|h1 [|]]]; try done. unfold at_ in H. simpl in H.
  destruct (Z.eqb_spec h0 5) as [->|]; [|done]. simpl in H.
  rewrite I1 in Hb. inversion Hb as [|? ? _ Hb2]; subst. inversion Hb2 as [|? ? Hh1 Hb3]; subst.
  destruct (ReadFull (Z.to_nat h1) c1) as [c2 [e|ms]] eqn:E2; [done|].
  destruct (proj2 (parses_ReadFull _ c1) ms c2 E2 Hb3) as (? & [-> Hms] & I2 & F2 & O2 & W2).
  destruct (existsb (Z.eqb 0) ms) eqn:Ex; [|by simpl in H]. simpl in H.
  destruct (Write_ok [5; 0] c2) as (c3 & E3 & I3 & F3 & W3).
  { unfold writes_ok in *. by rewrite O2, O1. }
  rewrite E3 in H. exists ms, c3. split_and!; [by apply existsb_zero|lia| |done].
  rewrite I1, I2, I3. simpl. do 2 f_equal. lia.
Qed.

Lemma handshake_sound c c' t :
  handshake c = (c', inr t) → bytes_ok (input c) → writes_ok c →
  ∃ r, request_ok r ∧ input c = encode r ++ input c' ∧ t = target r.
Proof.
  intros H Hb Hw. destruct (handshake_accepted c c' t H Hb Hw) as (ms & c1 & H0 & Hl & I1 & H1).
  assert (bytes_ok (input c1)) as Hb1.
  { rewrite I1 in Hb. by apply Forall_app in Hb as [_ [_ ?]%Forall_app]. }
  destruct (proj2 (parses_read_request c1) t c' H1 Hb1) as (bs & (rs & d & hi & lo & Hd & -> & ->) & I2 & _).
  exists (mkRequest ms rs d hi lo). split; [by split_and!|split; [|done]].
  unfold encode. cbn [methods rsv dst port_hi port_lo]. rewrite I1, I2. by rewrite <- !app_assoc.
Qed.

(** C34: The handshake accepts exactly the encoded CONNECT requests: when the
    bytes that arrive, in whatever pieces, start with a request that offers the
    no-auth method, it answers [5; 0], returns the host and port of that request
    and leaves every byte after it for the relay; and whenever it returns a
    target, the bytes it took are the encoding of such a request for that
    target. *)
Theorem handshake_exact (c : conn) (t rest : list Z) :
  bytes_ok (input c) → writes_ok c →
  (∃ c', handshake c = (c', inr t) ∧ input c' = rest ∧ written c' = written c ++ [5; 0] ∧ frame c c') ↔
  (∃ r, request_ok r ∧ input c = encode r ++ rest ∧ t = target r).
Proof.
  intros Hb Hw. split.
  - intros (c' & H & <- & _). by apply (handshake_sound c).
  - intros (r & (H0 & Hl & Hd) & E & ->). unfold encode in E. rewrite <- !app_assoc in E.
    destruct (handshake_greeting c (methods r) _ Hl H0 Hw E) as (c1 & -> & I1 & F1 & W1).
    destruct (proj1 (parses_read_request c1) (target r) ([5; 1; rsv r] ++ encode_dest (dst r) ++ [port_hi r; port_lo r]) rest)
      as (c2 & -> & I2 & F2 & _ & W2).
    { by exists (rsv r), (dst r), (port_hi r), (port_lo r). }
    { rewrite I1. by rewrite <- !app_assoc. }
    exists c2. split_and!; [done|done|by rewrite W2, W1|by eapply conn_frame_trans].
Qed.

(** A request for [::1] port 8080, in two pieces, followed by relayed data. *)
Definition demo_conn : conn :=
  mkConn [[5; 2; 2]; [0; 5; 1; 0; 4; 0; 0; 0; 0; 0; 0; 0; 0; 0; 0; 0; 0; 0; 0; 0; 1; 31; 144; 71; 69]]
    EndEOF true [] [].
Lemma handshake_exact_witness :
  ∃ c', handshake demo_conn = (c', inr (text "[::1]:8080")) ∧ input c' = [71; 69] ∧ written c' = [5; 0].
Proof.
  destruct (proj2 (handshake_exact demo_conn (text "[::1]:8080") [71; 69] ltac:(vm_compute; repeat constructor; discriminate) I))
    as (c' & E & I1 & W & _).
  { exists (mkRequest [2; 0] 0 (Dest6 (replicate 15 0 ++ [1])) 31 144). split; [|split].
    - split; [apply existsb_zero; reflexivity|split; [simpl; lia|reflexivity]].
    - reflexivity.
    - vm_compute. reflexivity. }
  exists c'. by split_and!.
Defined.

(** * Replies *)

(** With a deadline no read or write hangs. *)
Definition safe {A} (m : act A) : Prop := ∀ c, deadline c = true →
  (m c).2 ≠ inl Hangs ∧ deadline (m c).1 = true.

Lemma safe_ReadFull n : safe (ReadFull n).
Proof.
  intros c Hd. unfold ReadFull.
  destruct (decide (n <= length (concat (segs c)))%nat) as [H|H].
  - by destruct (readFull_enough (segs c) (read_end c) n []) as (s1 & -> & D1).
  - rewrite readFull_short by lia. split_and!; simpl; [|done..].
    unfold read_end. rewrite Hd. destruct (fin c); simpl; by destruct (concat (segs c)).
Qed.
Lemma safe_Write b : safe (Write b).
Proof. intros c Hd. unfold Write. rewrite Hd. by destruct (wouts c) as [|[|e k|k] rest]. Qed.
Lemma safe_Write_ b : safe (Write_ b).
Proof. intros c Hd. by destruct (safe_Write b c Hd). Qed.
Lemma safe_ret {A} (a : A) : safe (ret a).
Proof. by intros c Hd. Qed.
Lemma safe_fail {A} e : e ≠ Hangs → safe (@fail A e).
Proof. intros He c Hd. split; [|done]. simpl. congruence. Qed.
Lemma safe_bind {A B} (m : act A) (f : A → act B) : safe m → (∀ a, safe (f a)) → safe (bind m f).
Proof.
  intros Hm Hs c Hd. destruct (Hm c Hd) as (H1 & H2). unfold bind.
  destruct (m c) as [c' [e|a]]; simpl in *; [split; congruence|by apply Hs].
Qed.
Lemma safe_if {A} (b : bool) (m m' : act A) : safe m → safe m' → safe (if b then m else m').
Proof. by destruct b. Qed.

#[local] Hint Resolve safe_ReadFull safe_Write safe_Write_ safe_ret safe_fail safe_bind safe_if : netx.

Lemma safe_handshake : safe handshake.
Proof.
  unfold handshake, read_request, read_host.
  repeat first [apply safe_bind; [|intros ?]|apply safe_if]; auto with netx; by apply safe_fail.
Qed.

Lemma Write_written b c :
  (∃ k, written (Write b c).1 = written c ++ take k b) ∧ ((Write b c).2 = inr () → written (Write b c).1 = written c ++ b).
Proof.
  unfold Write. destruct (wouts c) as [|[|e k|k] rest]; simpl; (split; [|done]).
  - exists (length b). by rewrite take_ge.
  - exists (length b). by rewrite take_ge.
  - by exists k.
  - by exists k.
Qed.

Lemma Write_input b c : input (Write b c).1 = input c.
Proof. unfold Write. by destruct (wouts c) as [|[|e k|k] rest]. Qed.

(** Code that only reads. *)
Definition reads_only {A} (m : act A) : Prop := ∀ c, written (m c).1 = written c.
Lemma reads_only_ReadFull n : reads_only (ReadFull n).
Proof. intros c. unfold ReadFull. by destruct (readFull_loop _ _ _ _). Qed.
Lemma reads_only_bind {A B} (m : act A) (f : A → act B) :
  reads_only m → (∀ a, reads_only (f a)) → reads_only (bind m f).
Proof. intros Hm Hf c. specialize (Hm c). unfold bind. destruct (m c) as [c' [e|a]]; [done|]. by rewrite Hf. Qed.
Lemma reads_only_if {A} (b : bool) (m m' : act A) : reads_only m → reads_only m' → reads_only (if b then m else m').
Proof. by destruct b. Qed.
Lemma reads_only_const {A} (r : err + A) : reads_only (λ c, (c, r)).
Proof. done. Qed.

Lemma reads_only_request : reads_only read_request.
Proof.
  unfold read_request, read_host, ret, fail.
  repeat first [apply reads_only_bind; [|intros ?]|apply reads_only_if];
    auto using reads_only_ReadFull, @reads_only_const.
Qed.

(** The handshake writes the reply that accepts, or the start of a reply. *)
Definition reply_ok : list Z := [5; 0; 0; 1; 0; 0; 0; 0; 0; 0].
Definition reply_failed : list Z := [5; 1; 0; 1; 0; 0; 0; 0; 0; 0].
Definition handshake_reply (w w' : list Z) : Prop := ∃ k, w' = w ++ take k [5; 255] ∨ w' = w ++ take k [5; 0].

Lemma handshake_reply_none w : handshake_reply w w.
Proof. exists 0%nat. left. by rewrite app_nil_r. Qed.

Lemma handshake_written c c' r :
  handshake c = (c', r) →
  match r with
  | inr _ => written c' = written c ++ [5; 0]
  | inl _ => handshake_reply (written c) (written c')
  end.
Proof.
  unfold handshake. unfold bind at 1. pose proof (reads_only_ReadFull 2 c) as R1.
  destruct (ReadFull 2 c) as [c1 [e|hd]]; simpl in R1; [intros [= <- <-]; rewrite R1; apply handshake_reply_none|].
  destruct (negb _); [intros [= <- <-]; rewrite R1; apply handshake_reply_none|]. unfold bind at 1.
  set (n := Z.to_nat (at_ hd 1)). pose proof (reads_only_ReadFull n c1) as R2.
  destruct (ReadFull n c1) as [c2 [e|ms]]; simpl in R2; rewrite R1 in R2.
  { intros [= <- <-]. rewrite R2. apply handshake_reply_none. }
  destruct (negb _).
  { intros [= <- <-]. destruct (Write_written [5; 255] c2) as [[k Hk] _]. exists k. left. by rewrite Hk, R2. }
  unfold bind. destruct (Write_written [5; 0] c2) as [[k Hk] Hw]. rewrite R2 in Hk, Hw.
  destruct (Write [5; 0] c2) as [c3 [e|[]]]; simpl in Hk, Hw; [intros [= <- <-]; exists k; by right|].
  specialize (Hw eq_refl). pose proof (reads_only_request c3) as R3. intros E. rewrite E in R3. simpl in R3.
  destruct r as [e|t]; [exists 2%nat; right|]; by rewrite R3.
Qed.

(** The handler answers as the protocol asks, whatever the client sends
    and whichever writes fail: it relays only after the dial to the requested
    target succeeded, the client got the method and the success reply, and the
    deadline was lifted; after a failed dial it sends the failure reply, and
    when the handshake fails at most a method reply. It never waits for a client
    that is silent, or does not read, without a deadline. *)
Theorem serveSOCKS5_replies (dlErr : option Z) (dial : list Z → option Z) (c : conn) :
  let '(c', r) := serveSOCKS5 dlErr dial c in
  match r with
  | Relaying t =>
      dial t = None ∧ written c' = written c ++ [5; 0] ++ reply_ok ∧ deadline c' = false ∧
      (bytes_ok (input c) → writes_ok c →
       ∃ q, request_ok q ∧ t = target q ∧ input c = encode q ++ input c')
  | DialFailed e =>
      ∃ t k, dial t = Some e ∧ written c' = written c ++ [5; 0] ++ take k reply_failed
  | Failed e =>
      e ≠ Hangs ∧
      (handshake_reply (written c) (written c') ∨
       ∃ t k, dial t = None ∧ written c' = written c ++ [5; 0] ++ take k reply_ok)
  end.
Proof.
  unfold serveSOCKS5. destruct dlErr as [e|]; [split; [done|left; apply handshake_reply_none]|].
  set (c0 := SetDeadline c true). destruct (safe_handshake c0 eq_refl) as [Hh _].
  destruct (handshake c0) as [c1 [e|t]] eqn:E; pose proof (handshake_written c0 c1 _ E) as W; simpl in Hh, W.
  { split; [congruence|by left]. }
  destruct (dial t) as [e|] eqn:Ed.
  { destruct (Write_written reply_failed c1) as [[k Hk] _]. exists t, k. split; [done|].
    unfold Write_. simpl. unfold reply_failed in *. rewrite Hk, W. by rewrite <- app_assoc. }
  destruct (Write_written reply_ok c1) as [[k Hk] Hw].
  destruct (safe_Write reply_ok c1) as [Hs _].
  { destruct (safe_handshake c0 eq_refl) as [_ Hd]. by rewrite E in Hd. }
  change [5; 0; 0; 1; 0; 0; 0; 0; 0; 0] with reply_ok.
  destruct (Write reply_ok c1) as [c2 [e|[]]] eqn:Ew; simpl in Hk, Hw, Hs.
  - split; [congruence|]. right. exists t, k. by rewrite Hk, W, <- app_assoc.
  - split_and!; [done|by simpl; rewrite (Hw eq_refl), W, <- app_assoc|done|]. intros Hb Hok.
    destruct (handshake_sound c0 c1 t E Hb Hok) as (q & Hq & I & Ht). exists q. split; [done|split; [done|]].
    pose proof (Write_input reply_ok c1) as I2. rewrite Ew in I2. by rewrite <- I2 in I.
Qed.
