(* ===== verification/Socks5Relay.v ===== *)
(** The relay of [src/examples/socks5-server/main.go]: two goroutines copy
    between the client and the upstream connection until both directions have
    ended, under any interleaving. *)
From S2P Require Import Prelude Interleave Socks5.

Local Open Scope Z_scope.

(** * The relay *)

(** The two ends, in the order of relay's arguments. *)
Inductive end_ := Left | Right.
#[global] Instance end_eq_dec : EqDecision end_.
Proof. solve_decision. Defined.
Definition other (e : end_) : end_ := match e with Left => Right | Right => Left end.

(** [hasCloseWrite]: whether the end's type has the method CloseWrite;
    [halfClosed]: whether it was called; [failed]: whether a write failed. *)
Record side := mkSide { cn : conn; hasCloseWrite : bool; halfClosed : bool; failed : bool }.
Record Sh := mkSh { left_ : side; right_ : side; wg : Z; crashed : bool }.

Definition get (s : Sh) (e : end_) : side := match e with Left => left_ s | Right => right_ s end.
Definition set_side (s : Sh) (e : end_) (x : side) : Sh :=
  match e with Left => mkSh x (right_ s) (wg s) (crashed s) | Right => mkSh (left_ s) x (wg s) (crashed s) end.
Definition set_wg (s : Sh) (n : Z) (b : bool) : Sh := mkSh (left_ s) (right_ s) n b.
Definition set_cn (x : side) (c : conn) : side := mkSide c (hasCloseWrite x) (halfClosed x) (failed x).

Inductive pc :=
  | Wait                             (* relay: wg.Wait() *)
  | Returned                         (* relay has returned *)
  | Read (dst : end_)                (* io.Copy: src.Read *)
  | Copy (dst : end_) (b : list Z)   (* io.Copy: dst.Write *)
  | Blocked (dst : end_) (b : list Z)  (* in dst.Write, which waits for the peer to read *)
  | Close (dst : end_)               (* dst.CloseWrite() *)
  | Done (dst : end_)                (* wg.Done() *)
  | Ended (dst : end_).

(** io.Copy's buffer. *)
Definition bufSize : nat := 32 * 1024.

(** One read: the bytes and the connection after it; [None] while it waits,
    [Some None] at the end. *)
Definition read_some (c : conn) : option (option (list Z * conn)) :=
  match segs c with
  | [] => match fin c with Silent => None | _ => Some None end
  | s :: rest =>
      Some (Some (take bufSize s, set_segs c (match drop bufSize s with [] => rest | s' => s' :: rest end)))
  end.

Definition copyConn (s : Sh) (p : pc) : list (Sh * pc) :=
  match p with
  | Read dst =>
      let src := get s (other dst) in
      match read_some (cn src) with
      | None => []
      | Some None => [(s, Close dst)]
      | Some (Some (b, c)) =>
          [(set_side s (other dst) (set_cn src c), match b with [] => Read dst | _ => Copy dst b end)]
      end
  | Copy dst b =>
      let x := get s dst in
      match Write b (cn x) with
      | (c, inr _) => [(set_side s dst (set_cn x c), Read dst)]
      | (c, inl Hangs) =>
          [(set_side s dst (set_cn x c), Blocked dst (drop (length (written c) - length (written (cn x))) b))]
      | (c, inl _) => [(set_side s dst (mkSide c (hasCloseWrite x) (halfClosed x) true), Close dst)]
      end
  | Close dst =>
      let x := get s dst in
      [(if hasCloseWrite x then set_side s dst (mkSide (cn x) true true (failed x)) else s, Done dst)]
  | Done dst => [(if wg s <=? 0 then set_wg s (wg s) true else set_wg s (wg s - 1) (crashed s), Ended dst)]
  | _ => []
  end.

Definition next (s : Sh) (p : pc) : list (Sh * pc) :=
  match p with
  | Wait => if wg s =? 0 then [(s, Returned)] else []
  | _ => copyConn s p
  end.

(** After wg.Add(2) and the two go statements. *)
Definition relay (l r : side) : conf := Conf (mkSh l r 2 false) [Wait; Read Left; Read Right].

(** * One direction *)

(** What is on its way to [dst]. *)
Definition pending (dst : end_) (p : pc) : list Z :=
  match p with Copy d b | Blocked d b => if decide (d = dst) then b else [] | _ => [] end.

Definition dst_of (p : pc) : option end_ :=
  match p with Read d | Copy d _ | Blocked d _ | Close d | Done d | Ended d => Some d | _ => None end.
Definition over (p : pc) : bool := match p with Close _ | Done _ | Ended _ => true | _ => false end.
Definition past_close (p : pc) : bool := match p with Done _ | Ended _ => true | _ => false end.

(** [x0] and [y0] are source and destination at the start, [x] and [y] now. *)
Record dir_ok (x0 y0 x y : side) (p : pc) (moving : list Z) : Prop := {
  dir_bytes : ∃ moved lost, written (cn y) = written (cn y0) ++ moved ∧
    input (cn x0) = moved ++ lost ++ moving ++ input (cn x) ∧ (failed y = false → lost = []);
  dir_fin : fin (cn x) = fin (cn x0);
  dir_over : over p = true → moving = [] ∧ (failed y = true ∨ (input (cn x) = [] ∧ fin (cn x) ≠ Silent));
  dir_live : over p = false → failed y = false;
  dir_half : halfClosed y = past_close p && hasCloseWrite y;
  dir_has : hasCloseWrite y = hasCloseWrite y0;
  dir_wouts : ∃ past, wouts (cn y0) = past ++ wouts (cn y) ∧
    match p with Blocked _ _ => ∃ k, WBlocks k ∈ past | _ => True end }.

Definition side_ok (l0 r0 : side) (s : Sh) (dst : end_) (p : pc) : Prop :=
  dst_of p = Some dst ∧
  dir_ok (get (mkSh l0 r0 2 false) (other dst)) (get (mkSh l0 r0 2 false) dst)
    (get s (other dst)) (get s dst) p (pending dst p).

Definition running (p : pc) : Z := match p with Ended _ => 0 | _ => 1 end.

Record inv (l0 r0 : side) (c : conf) : Prop := {
  inv_procs : ∃ m a b, procs c = [m; a; b] ∧ side_ok l0 r0 (shared c) Left a ∧ side_ok l0 r0 (shared c) Right b ∧
    (m = Wait ∨ m = Returned ∧ wg (shared c) = 0) ∧
    wg (shared c) = running a + running b;
  inv_safe : crashed (shared c) = false }.

(** What the opposite direction sees of a step towards [dst]. *)
Definition untouched (s s' : Sh) (dst : end_) : Prop :=
  input (cn (get s' dst)) = input (cn (get s dst)) ∧ fin (cn (get s' dst)) = fin (cn (get s dst)) ∧
  written (cn (get s' (other dst))) = written (cn (get s (other dst))) ∧
  wouts (cn (get s' (other dst))) = wouts (cn (get s (other dst))) ∧
  failed (get s' (other dst)) = failed (get s (other dst)) ∧
  halfClosed (get s' (other dst)) = halfClosed (get s (other dst)) ∧
  hasCloseWrite (get s' (other dst)) = hasCloseWrite (get s (other dst)).

Lemma side_ok_untouched l0 r0 s s' dst p :
  untouched s s' (other dst) → side_ok l0 r0 s dst p → side_ok l0 r0 s' dst p.
Proof.
  intros (E1 & E2 & E3 & E7 & E4 & E5 & E6) [Hd [H1 H2 H3 H4 H5 H6 H7]].
  assert (other (other dst) = dst) as Eo by (by destruct dst). rewrite Eo in *.
  split; [done|]. split; rewrite ?E1, ?E2, ?E3, ?E4, ?E5, ?E6, ?E7; done.
Qed.

Lemma get_set s e x : get (set_side s e x) e = x.
Proof. by destruct e. Qed.
Lemma get_set_other s e x : get (set_side s e x) (other e) = get s (other e).
Proof. by destruct e. Qed.
Lemma get_other_set s e x : get (set_side s (other e) x) e = get s e.
Proof. by destruct e. Qed.
Lemma rest_of_set s e x : wg (set_side s e x) = wg s ∧ crashed (set_side s e x) = crashed s.
Proof. by destruct e. Qed.

Lemma read_some_input c b c' : read_some c = Some (Some (b, c')) →
  input c = b ++ input c' ∧ fin c' = fin c ∧ written c' = written c ∧ wouts c' = wouts c.
Proof.
  unfold read_some, input. destruct (segs c) as [|x rest]; [by destruct (fin c)|]. intros [= <- <-]. simpl.
  split_and!; try done. rewrite <- (take_drop bufSize x) at 1. rewrite <- app_assoc. f_equal.
  by destruct (drop bufSize x).
Qed.
Lemma read_some_end c : read_some c = Some None → input c = [] ∧ fin c ≠ Silent.
Proof. unfold read_some, input. destruct (segs c); [|done]. simpl. by destruct (fin c). Qed.

Lemma Write_cases b c :
  let '(c', r) := Write b c in
  input c' = input c ∧ fin c' = fin c ∧
  (∃ w, wouts c = w ++ wouts c' ∧ (r = inl Hangs → ∃ k, WBlocks k ∈ w)) ∧
  match r with inr _ => written c' = written c ++ b | inl _ => ∃ k, written c' = written c ++ take k b end.
Proof.
  unfold Write. destruct (wouts c) as [|[|e k|k] rest]; simpl; split_and!; try done; try (by exists k).
  - by exists [].
  - by exists [WDone].
  - by exists [WErr e k].
  - exists [WBlocks k]. split; [done|]. intros _. exists k. left.
Qed.

Lemma wouts_past (ws past ws' w ws'' : list wout) : ws = past ++ ws' → ws' = w ++ ws'' → ws = (past ++ w) ++ ws''.
Proof. intros -> ->. by rewrite app_assoc. Qed.

(** The kinds of steps of one direction. *)
Lemma dir_read x0 y0 x y c b dst :
  dir_ok x0 y0 x y (Read dst) [] → read_some (cn x) = Some (Some (b, c)) →
  dir_ok x0 y0 (set_cn x c) y (match b with [] => Read dst | _ => Copy dst b end) b.
Proof.
  intros [(moved & lost & W & I & HL) Hfin Hover Hlive Hhalf Hhas Hwo] E.
  apply read_some_input in E as (Ei & Ef & Ew & _). rewrite Ei in I.
  split; simpl; try (by destruct b); [|by rewrite Ef].
  exists moved, lost. by split_and!.
Qed.
Lemma dir_write x0 y0 x y c dst b :
  dir_ok x0 y0 x y (Copy dst b) b → Write b (cn y) = (c, inr ()) →
  dir_ok x0 y0 x (set_cn y c) (Read dst) [].
Proof.
  intros [(moved & lost & W & I & HL) Hfin Hover Hlive Hhalf Hhas (past & Hp & _)] E.
  pose proof (Write_cases b (cn y)) as Hw. rewrite E in Hw. destruct Hw as (Ei & Ef & (w & Eo & _) & Ew).
  split; simpl; try done.
  - rewrite (HL (Hlive eq_refl)) in I.
    exists (moved ++ b), []. split_and!; [by rewrite Ew, W, app_assoc|by rewrite I, <- app_assoc|done].
  - exists (past ++ w). split; [by eapply wouts_past|done].
Qed.
Lemma dir_write_failed x0 y0 x y c e dst b :
  dir_ok x0 y0 x y (Copy dst b) b → Write b (cn y) = (c, inl e) →
  dir_ok x0 y0 x (mkSide c (hasCloseWrite y) (halfClosed y) true) (Close dst) [].
Proof.
  intros [(moved & lost & W & I & HL) Hfin Hover Hlive Hhalf Hhas (past & Hp & _)] E.
  pose proof (Write_cases b (cn y)) as Hw. rewrite E in Hw. destruct Hw as (Ei & Ef & (w & Eo & _) & k & Ew).
  split; simpl; try done; [|by auto|].
  - rewrite (HL (Hlive eq_refl)) in I.
    exists (moved ++ take k b), (drop k b). split_and!; [by rewrite Ew, W, app_assoc| |done].
    rewrite I, <- (take_drop k b) at 1. by rewrite <- !app_assoc.
  - exists (past ++ w). split; [by eapply wouts_past|done].
Qed.
(** The bytes the peer took before it stopped reading have arrived. *)
Lemma dir_write_blocked x0 y0 x y c dst b :
  dir_ok x0 y0 x y (Copy dst b) b → Write b (cn y) = (c, inl Hangs) →
  let b' := drop (length (written c) - length (written (cn y))) b in
  dir_ok x0 y0 x (set_cn y c) (Blocked dst b') b'.
Proof.
  intros [(moved & lost & W & I & HL) Hfin Hover Hlive Hhalf Hhas (past & Hp & _)] E b'.
  pose proof (Write_cases b (cn y)) as Hw. rewrite E in Hw. destruct Hw as (Ei & Ef & (w & Eo & Hb) & k & Ew).
  assert (b = take k b ++ b') as Eb.
  { unfold b'. rewrite Ew, length_app, length_take.
    destruct (decide (k <= length b)%nat).
    - rewrite <- (take_drop k b) at 1. do 2 f_equal. lia.
    - rewrite take_ge, drop_ge by lia. by rewrite app_nil_r. }
  split; simpl; try done.
  - rewrite (HL (Hlive eq_refl)) in I.
    exists (moved ++ take k b), []. split_and!; [by rewrite Ew, W, app_assoc| |done].
    simpl in *. rewrite I. rewrite Eb at 1. by rewrite <- !app_assoc.
  - exists (past ++ w). split; [by eapply wouts_past|].
    destruct (Hb eq_refl) as [k' Hk]. exists k'. apply elem_of_app. by right.
Qed.
Lemma dir_end x0 y0 x y dst :
  dir_ok x0 y0 x y (Read dst) [] → read_some (cn x) = Some None → dir_ok x0 y0 x y (Close dst) [].
Proof.
  intros [H1 Hfin Hover Hlive Hhalf Hhas Hwo] [Ei Ef]%read_some_end. split; try done. by auto.
Qed.
Lemma dir_close x0 y0 x y dst :
  dir_ok x0 y0 x y (Close dst) [] →
  dir_ok x0 y0 x (if hasCloseWrite y then mkSide (cn y) true true (failed y) else y) (Done dst) [].
Proof.
  intros [H1 Hfin Hover Hlive Hhalf Hhas Hwo]. simpl in *.
  destruct (hasCloseWrite y) eqn:E; split; simpl; try done; by rewrite ?E.
Qed.
Lemma dir_done x0 y0 x y dst : dir_ok x0 y0 x y (Done dst) [] → dir_ok x0 y0 x y (Ended dst) [].
Proof. intros [? ? ? ? ? ? ?]. by split. Qed.

Lemma copy_step l0 r0 s p s' p' dst :
  (s', p') ∈ copyConn s p → side_ok l0 r0 s dst p →
  side_ok l0 r0 s' dst p' ∧ untouched s s' dst ∧
  (crashed s' = crashed s ∧ wg s' = wg s ∧ (∀ d, p ≠ Ended d ∧ p' ≠ Ended d) ∨
   p = Done dst ∧ p' = Ended dst ∧
   s' = if wg s <=? 0 then set_wg s (wg s) true else set_wg s (wg s - 1) (crashed s)).
Proof.
  intros Hn [Hd H]. destruct p; try done; simpl in Hd; injection Hd as ->; simpl in Hn, H.
  - destruct (read_some _) as [[[b c]|]|] eqn:E; [| |by inv_elem]; inv_elem.
    + apply read_some_input in E as F. destruct F as (Ei & Ef & Ew & Eo).
      destruct (rest_of_set s (other dst) (set_cn (get s (other dst)) c)) as [R1 R2].
      split; [|split; [unfold untouched; rewrite get_set, get_other_set; by split_and!|left; by destruct b]].
      split; [by destruct b|]. rewrite get_set, get_other_set.
      pose proof (dir_read _ _ _ _ _ _ _ H E) as H'. destruct b; [done|]. simpl. by rewrite decide_True.
    + split; [split; [done|by apply dir_end]|split; [by split_and!|by left]].
  - rewrite decide_True in H by done. pose proof (Write_cases b (cn (get s dst))) as Hw.
    destruct (Write b (cn (get s dst))) as [c r] eqn:E. destruct Hw as (Ei & Ef & _ & _).
    set (x := match r with
              | inr _ | inl Hangs => set_cn (get s dst) c
              | inl _ => mkSide c (hasCloseWrite (get s dst)) (halfClosed (get s dst)) true
              end).
    assert (untouched s (set_side s dst x) dst) as Hu.
    { unfold untouched. rewrite get_set, get_set_other. unfold x.
      destruct r as [[]|]; by split_and!. }
    destruct (rest_of_set s dst x) as [R1 R2].
    assert (s' = set_side s dst x ∧ (∀ d, p' ≠ Ended d) ∧
      dst_of p' = Some dst ∧
      dir_ok (get (mkSh l0 r0 2 false) (other dst)) (get (mkSh l0 r0 2 false) dst)
        (get s (other dst)) x p' (pending dst p')) as (-> & Hne & Hd & Hdir).
    { unfold x. destruct r as [e|[]].
      - assert (e = Hangs ∨ e ≠ Hangs) as [->|He] by (destruct e; auto).
        + inv_elem. split_and!; try done. simpl. rewrite decide_True by done. by apply dir_write_blocked.
        + assert ((s', p') = (set_side s dst (mkSide c (hasCloseWrite (get s dst)) (halfClosed (get s dst)) true), Close dst))
            as [= -> ->] by (by destruct e; inv_elem).
          destruct e; try done; (split_and!; try done; by eapply dir_write_failed).
      - inv_elem. split_and!; try done. by eapply dir_write. }
    split; [|split; [done|by left]]. split; [done|]. by rewrite get_set, get_set_other.
  - by inv_elem.
  - inv_elem. apply dir_close in H. destruct (hasCloseWrite (get s dst)).
    + destruct (rest_of_set s dst (mkSide (cn (get s dst)) true true (failed (get s dst)))) as [R1 R2].
      split; [|split; [unfold untouched; rewrite get_set, get_set_other; by split_and!|by left]].
      split; [done|]. by rewrite get_set, get_set_other.
    + split; [by split|split; [by split_and!|by left]].
  - inv_elem. apply dir_done in H. destruct (wg s <=? 0), dst; (split; [by split|split; [by split_and!|by right]]).
  - by inv_elem.
Qed.

Lemma running_step l0 r0 s p s' p' dst o :
  (s', p') ∈ next s p → side_ok l0 r0 s dst p → crashed s = false → 0 <= o → wg s = running p + o →
  side_ok l0 r0 s' dst p' ∧ untouched s s' dst ∧ crashed s' = false ∧ wg s' = running p' + o ∧ 0 < wg s.
Proof.
  intros Hn Hp Hs Ho Hw. assert ((s', p') ∈ copyConn s p) as Hc by (by destruct Hp as [? _], p).
  destruct (copy_step l0 r0 s p s' p' dst Hc Hp) as (Hp' & Hu & [(C & W & Hne)|(-> & -> & ->)]).
  - assert (∀ q, (∀ d, q ≠ Ended d) → running q = 1) as Hr.
    { intros q Hq. destruct q; try done. by destruct (Hq dst0). }
    assert (running p = 1) as R1 by (apply Hr; intros d; apply Hne).
    assert (running p' = 1) as R2 by (apply Hr; intros d; apply Hne).
    split_and!; try done; [congruence|lia|lia].
  - simpl in *. destruct (Z.leb_spec (wg s) 0); [lia|]. split_and!; try done; simpl; lia.
Qed.

Lemma relay_inv_step l0 r0 c c' : inv l0 r0 c → step next c c' → inv l0 r0 c'.
Proof.
  intros [(m & a & b & E & Ha & Hb & Hm & Hw) Hs] Hstep. destruct Hstep as [i l s s' l' ps Hl Hn]. simpl in *. subst ps.
  assert (0 <= running a ∧ 0 <= running b) as [Ra Rb] by (by destruct a, b).
  destruct i as [|[|[|i]]]; simpl in Hl; simplify_eq.
  - destruct Hm as [->|[-> _]]; simpl in Hn; [|by inv_elem].
    destruct (Z.eqb_spec (wg s) 0); inv_elem. split; [|done]. exists Returned, a, b. split_and!; try done. by right.
  - destruct (running_step l0 r0 s l s' l' Left (running b) Hn Ha Hs Rb Hw) as (Ha' & Hu & C & W & Hpos).
    split; [|done]. exists m, l', b. split; [done|]. split; [done|].
    split; [by apply (side_ok_untouched l0 r0 s)|]. split; [|done]. destruct Hm as [->|[_ ?]]; [by left|lia].
  - rewrite Z.add_comm in Hw.
    destruct (running_step l0 r0 s l s' l' Right (running a) Hn Hb Hs Ra Hw) as (Hb' & Hu & C & W & Hpos).
    split; [|done]. exists m, a, l'. split; [done|].
    split; [by apply (side_ok_untouched l0 r0 s)|]. split; [done|]. split; [|simpl; lia].
    destruct Hm as [->|[_ ?]]; [by left|lia].
Qed.

(** A side before the relay: neither connection has a deadline. *)
Definition fresh (x : side) : Prop := halfClosed x = false ∧ failed x = false ∧ deadline (cn x) = false.

Lemma relay_inv_init l r : fresh l → fresh r → inv l r (relay l r).
Proof.
  assert (∀ x y d, fresh y → dir_ok x y x y (Read d) []) as H.
  { intros x y d (Hh & Hf & _). split; try done; [|by exists []]. exists [], []. by rewrite app_nil_r. }
  intros Hl Hr. split; [|done]. exists Wait, (Read Left), (Read Right).
  split; [done|]. split; [split; [done|by apply H]|]. split; [split; [done|by apply H]|]. split; [by left|done].
Qed.

Lemma relay_inv l r c : fresh l → fresh r → rtc (step next) (relay l r) c → inv l r c.
Proof.
  intros Hl Hr. apply (inv_reachable next (inv l r)); [by apply relay_inv_init|apply relay_inv_step].
Qed.

Definition side0 (l r : side) (e : end_) : side := match e with Left => l | Right => r end.

Lemma inv_dir l r c dst : inv l r c →
  ∃ p, p ∈ procs c ∧ dst_of p = Some dst ∧
    dir_ok (side0 l r (other dst)) (side0 l r dst) (get (shared c) (other dst)) (get (shared c) dst) p (pending dst p).
Proof.
  intros [(m & a & b & -> & [Da Ha] & [Db Hb] & _) _].
  destruct dst; [exists a|exists b]; (split; [set_solver|by split]).
Qed.

Lemma stuck_copy s p : next s p = [] → wg s ≠ 0 →
  p = Wait ∨ p = Returned ∨ (∃ d, p = Ended d) ∨
  (∃ d, p = Read d ∧ segs (cn (get s (other d))) = [] ∧ fin (cn (get s (other d))) = Silent) ∨
  (∃ d b, p = Blocked d b).
Proof.
  intros Hn Hw. destruct p; simpl in Hn; eauto 8; try done.
  - right. right. right. left. exists dst. split; [done|]. unfold read_some in Hn.
    destruct (segs _); [|done]. by destruct (fin _).
  - by destruct (Write _ _) as [? [[]|]].
Qed.

(** A direction that cannot go on: its source is silent, or its destination
    has stopped reading. *)
Definition waits_for_peer (l r : side) (c : conf) (dst : end_) : Prop :=
  (Read dst ∈ procs c ∧ segs (cn (get (shared c) (other dst))) = [] ∧
   fin (cn (get (shared c) (other dst))) = Silent) ∨
  (∃ b k, Blocked dst b ∈ procs c ∧ WBlocks k ∈ wouts (cn (side0 l r dst))).

Lemma stuck_dir l r c dst p :
  inv l r c → p ∈ procs c → dst_of p = Some dst → next (shared c) p = [] → wg (shared c) ≠ 0 →
  (∃ d, p = Ended d) ∨ waits_for_peer l r c dst.
Proof.
  intros Hi Hp Hd Hn Hw.
  destruct (stuck_copy _ _ Hn Hw) as [->|[->|[?|[(d & -> & Hs & Hf)|(d & b & ->)]]]]; try done; [by left|..];
    right; simpl in Hd; injection Hd as ->; [by left|right].
  destruct Hi as [(m & a & b' & E & [Da Ha] & [Db Hb] & Hm & _) _]. exists b.
  enough (∃ k, WBlocks k ∈ wouts (cn (side0 l r dst))) as [k Hk] by (by exists k).
  assert (∃ q, q = Blocked dst b ∧ dir_ok (side0 l r (other dst)) (side0 l r dst)
    (get (shared c) (other dst)) (get (shared c) dst) q (pending dst q)) as (q & -> & [_ _ _ _ _ _ (past & Ep & k & Hk)]).
  { rewrite E in Hp. apply list_elem_of_In in Hp. simpl in Hp.
    destruct Hp as [->|[->|[->|[]]]]; [by destruct Hm as [?|[? _]]|..]; simpl in Da, Db; simplify_eq.
    - by exists (Blocked Left b).
    - by exists (Blocked Right b). }
  exists k. rewrite Ep. apply elem_of_app. by left.
Qed.

(** C35: The relay moves bytes in both directions in order and loses none
    unless a write fails: at every moment what an end was sent is a prefix of
    what the other end's peer sends. When the relay has returned, both
    directions have ended, each with everything delivered or a failed write, and
    every end that can be half-closed was. The wait group never goes below zero.
    Neither connection has a deadline, and when nothing moves the relay has
    returned or one of its directions waits for a peer: in a read from one that
    is silent, or in a write to one that has stopped reading. *)
Theorem relay_delivers (l r : side) (c : conf) :
  fresh l → fresh r → rtc (step next) (relay l r) c →
  crashed (shared c) = false ∧
  (∀ dst, ∃ moved rest, input (cn (side0 l r (other dst))) = moved ++ rest ∧
     written (cn (get (shared c) dst)) = written (cn (side0 l r dst)) ++ moved) ∧
  (Returned ∈ procs c → ∀ dst, let x := get (shared c) dst in
     halfClosed x = hasCloseWrite x ∧
     (failed x = true ∨
      written (cn x) = written (cn (side0 l r dst)) ++ input (cn (side0 l r (other dst))))) ∧
  ((∀ p, p ∈ procs c → next (shared c) p = []) →
   Returned ∈ procs c ∨ ∃ dst, waits_for_peer l r c dst).
Proof.
  intros Hl Hr Hc. pose proof (relay_inv l r c Hl Hr Hc) as Hi. split; [apply Hi|]. split; [|split].
  - intros dst. destruct (inv_dir l r c dst Hi) as (p & _ & _ & [(moved & lost & W & I & _) _ _ _ _ _ _]).
    exists moved. eexists. by split.
  - intros Hret dst. destruct (inv_dir l r c dst Hi) as (p & Hp & Hd & [(moved & lost & W & I & HL) Hf Ho Hlv Hh _ _]).
    destruct Hi as [(m & a & b & E & [Da _] & [Db _] & Hm & Hw) _]. rewrite E in Hret, Hp.
    assert (wg (shared c) = 0) as H0.
    { destruct Hm as [->|[_ ?]]; [|done]. exfalso. apply list_elem_of_In in Hret. simpl in Hret.
      destruct Hret as [?|[->|[->|[]]]]; done. }
    assert (∃ d, p = Ended d) as [d ->].
    { destruct (running p) eqn:Er; [destruct p; try done; by eauto| |]; exfalso.
      all: apply list_elem_of_In in Hp; simpl in Hp; assert (0 <= running a ∧ 0 <= running b) by (by destruct a, b);
           destruct Hp as [<-|[<-|[<-|[]]]]; [by destruct Hm as [->|[-> _]]|lia..]. }
    simpl in *. split; [done|]. destruct (Ho eq_refl) as [_ [Hfl|[Hin _]]]; [by left|].
    destruct (failed (get (shared c) dst)) eqn:Ef; [by left|right]. rewrite W, I, (HL eq_refl), Hin. by rewrite app_nil_r.
  - intros Hst. pose proof Hi as [(m & a & b & E & [Da _] & [Db _] & Hm & Hw) _].
    destruct (decide (wg (shared c) = 0)) as [H0|H0].
    { left. destruct Hm as [->|[-> _]]; [|rewrite E; set_solver]. exfalso.
      assert (next (shared c) Wait = []) as Hx by (apply Hst; rewrite E; set_solver). simpl in Hx.
      by rewrite (proj2 (Z.eqb_eq _ _) H0) in Hx. }
    right. assert (a ∈ procs c ∧ b ∈ procs c) as [Pa Pb] by (rewrite E; set_solver).
    destruct (stuck_dir l r c Left a Hi Pa Da (Hst a Pa) H0) as [[d ->]|?]; [|by exists Left].
    destruct (stuck_dir l r c Right b Hi Pb Db (Hst b Pb) H0) as [[d' ->]|?]; [done|by exists Right].
Qed.

(** ** A run *)

Definition client (segs : list (list Z)) (e : ending) : side := mkSide (mkConn segs e false [] []) false false false.
Definition upstream (segs : list (list Z)) (e : ending) : side := mkSide (mkConn segs e false [] []) true false false.

Definition demo_start : conf := relay (client [[71]; [69; 84]] EndEOF) (upstream [[79; 75]] EndEOF).
Definition demo_end : conf := Eval vm_compute in drive next 40 [1; 2; 0]%nat demo_start.
Lemma demo_end_reached : rtc (step next) demo_start demo_end.
Proof.
  assert (drive next 40 [1; 2; 0]%nat demo_start = demo_end) as <- by (vm_compute; reflexivity).
  apply drive_sound.
Qed.

Lemma relay_delivers_witness :
  written (cn (right_ (shared demo_end))) = [71; 69; 84] ∧ written (cn (left_ (shared demo_end))) = [79; 75] ∧
  halfClosed (right_ (shared demo_end)) = true.
Proof.
  destruct (relay_delivers (client [[71]; [69; 84]] EndEOF) (upstream [[79; 75]] EndEOF) demo_end)
    as (_ & _ & H & _); [done|done|exact demo_end_reached|].
  assert (Returned ∈ procs demo_end) as Hr by (left; reflexivity).
  destruct (H Hr Left) as (_ & [Hf|W]); [discriminate Hf|].
  destruct (H Hr Right) as (Hh & [Hf|W']); [discriminate Hf|].
  split; [exact W'|split; [exact W|exact Hh]].
Defined.

(** [*tcp.Conn] embeds the interface [net.Conn], which has no CloseWrite, so
    the client's side cannot be half-closed: when the upstream server has ended
    its stream and the client waits for that end, the relay never returns. *)
Definition half_start : conf := relay (client [[71]] Silent) (upstream [[79; 75]] EndEOF).
Definition half_end : conf := Eval vm_compute in drive next 40 [1; 2; 0]%nat half_start.
Lemma half_close_lost :
  rtc (step next) half_start half_end ∧ (∀ p, p ∈ procs half_end → next (shared half_end) p = []) ∧
  procs half_end = [Wait; Ended Left; Read Right] ∧
  written (cn (left_ (shared half_end))) = [79; 75] ∧ halfClosed (left_ (shared half_end)) = false.
Proof.
  split_and!; try reflexivity.
  - assert (drive next 40 [1; 2; 0]%nat half_start = half_end) as <- by (vm_compute; reflexivity).
    apply drive_sound.
  - intros p Hp. apply list_elem_of_In in Hp. destruct Hp as [<-|[<-|[<-|[]]]]; reflexivity.
Qed.

(** A client that stops reading after one byte of the answer: the relay waits
    in the write to it, and goes on with the other direction. *)
Definition stall_start : conf :=
  relay (mkSide (mkConn [[71]] EndEOF false [WBlocks 1] []) false false false) (upstream [[79; 75]] EndEOF).
Definition stall_end : conf := Eval vm_compute in drive next 40 [1; 2; 0]%nat stall_start.
Lemma reader_stall :
  rtc (step next) stall_start stall_end ∧ (∀ p, p ∈ procs stall_end → next (shared stall_end) p = []) ∧
  procs stall_end = [Wait; Blocked Left [75]; Ended Right] ∧
  written (cn (left_ (shared stall_end))) = [79] ∧ written (cn (right_ (shared stall_end))) = [71].
Proof.
  split_and!; try reflexivity.
  - assert (drive next 40 [1; 2; 0]%nat stall_start = stall_end) as <- by (vm_compute; reflexivity).
    apply drive_sound.
  - intros p Hp. apply list_elem_of_In in Hp. destruct Hp as [<-|[<-|[<-|[]]]]; reflexivity.
Qed.
