(* ===== verification/Echo.v ===== *)
(** The echo examples ([src/examples/tcp-echo], [tcp-client], [udp-echo],
    [udp-client]) and the HTTP example ([src/examples/http-server]).

    The TCP client and the handler of the TCP server run side by side over a
    connection whose two directions hold a bounded number of bytes, deliver
    them in pieces of any size, and which may break at any moment. The UDP
    handler is composed with the model of a Conn: what its readers hand over and
    what Reply sends. *)
From S2P Require Import Prelude Interleave Text Tcp Udp UdpRead UdpSend Sys.

Local Open Scope Z_scope.

(** * Command line *)
(** [message := default; if len(os.Args) > 1 { message = os.Args[1] }] *)
Definition client_message (dflt : str) (args : list str) : str :=
  match args with _ :: m :: _ => m | _ => dflt end.

(** How a main ends: normally, having printed, or in log.Fatal. *)
Inductive exit (E : Type) := Finished (printed : str) | Fatal (e : E).
Arguments Finished {E} _.
Arguments Fatal {E} _.

(** The main of a server: Listen, then netx.NewServer(ln).Loop(). *)
Definition server_main {S E} (listen : E + S) (Loop : S → option E) : exit E :=
  match listen with
  | inl e => Fatal e
  | inr ln => match Loop ln with Some e => Fatal e | None => Finished [] end
  end.

(** The main of a client: dial, send and read, print. *)
Definition client_main {C E} (dial : E + C) (send : C → option E) (recv : C → E + str) : exit E :=
  match dial with
  | inl e => Fatal e
  | inr conn =>
      match send conn with
      | Some e => Fatal e
      | None => match recv conn with inl e => Fatal e | inr r => Finished r end
      end
  end.

(** * TCP *)
Module TcpEcho.

Definition newline : Z := 10.

(** [ReadString('\n')] on what has arrived: through the first newline. *)
Fixpoint cut_line (b : list Z) : option (list Z) :=
  match b with
  | [] => None
  | x :: r => if x =? newline then Some [x] else (x ::.) <$> cut_line r
  end.

(** The two directions, whether each was closed by its sender, and whether the
    connection is broken (by the network, or aborted by the server's shutdown). *)
Record Sh := mkSh { up : list Z; down : list Z; upFin : bool; downFin : bool; broken : bool }.

Inductive pc :=
  | CSend (rest : list Z)        (* client: Fprintln(conn, message) *)
  | CRecv (got : list Z)         (* client: ReadString *)
  | CPrint (resp : list Z)       (* client: Print(response); deferred conn.Close() *)
  | CEnd (resp : list Z)
  | CFail (got : list Z)         (* client: log.Fatal, after an error of Fprintln or ReadString *)
  | SRead                        (* server: io.Copy(c, c), c.Read *)
  | SWrite (b : list Z)          (* server: io.Copy(c, c), c.Write *)
  | SEnd                         (* handler returned, the server closed c *)
  | NBreak                       (* the connection may break *)
  | NDone.

(** The buffers of io.Copy and of bufio.Reader. *)
Definition copyBuf : nat := 32 * 1024.
Definition bufioSize : nat := 4096.

(** A transfer of at least one and at most [limit] bytes: what goes, what stays. *)
Definition chunks (b : list Z) (limit : nat) : list (list Z * list Z) :=
  (λ n, (take (S n) b, drop (S n) b)) <$> seq 0 (Nat.min limit (length b)).

#[global] Arguments chunks : simpl never.
Lemma bufs_pos : (0 < copyBuf)%nat ∧ (0 < bufioSize)%nat.
Proof. unfold copyBuf, bufioSize. lia. Qed.
#[global] Opaque copyBuf bufioSize.

Section echo.
(** What the connection holds in each direction. *)
Context (capUp capDown : nat).

Definition set_up (s : Sh) (u : list Z) : Sh := mkSh u (down s) (upFin s) (downFin s) (broken s).
Definition set_down (s : Sh) (d : list Z) : Sh := mkSh (up s) d (upFin s) (downFin s) (broken s).
Definition client_close (s : Sh) : Sh := mkSh (up s) (down s) true (downFin s) (broken s).
Definition server_close (s : Sh) : Sh := mkSh (up s) (down s) (upFin s) true (broken s).

(** log.Fatal(err): the process exits and its end of the connection is closed. *)
Definition fatal (s : Sh) (got : list Z) : Sh * pc := (client_close s, CFail got).

(** tcp-client's main, from Fprintln on. On a broken connection every write and
    read may fail. *)
Definition client (s : Sh) (p : pc) : list (Sh * pc) :=
  match p with
  | CSend rest =>
      ((λ x, (set_up s (up s ++ x.1), match x.2 with [] => CRecv [] | r => CSend r end))
        <$> chunks rest (capUp - length (up s))) ++ (if broken s then [fatal s []] else [])
  | CRecv got =>
      match cut_line got with
      | Some r => [(s, CPrint r)]
      | None =>
          match down s with
          | [] => if downFin s || broken s then [fatal s got] else []
          | d => ((λ x, (set_down s x.2, CRecv (got ++ x.1))) <$> chunks d bufioSize) ++
                 (if broken s then [fatal s got] else [])
          end
      end
  | CPrint r => [(client_close s, CEnd r)]
  | _ => []
  end.

(** tcp-echo's handler, and the close of the connection after it. Once the
    client has closed, or the connection is broken, reads and writes may fail. *)
Definition handler (s : Sh) (p : pc) : list (Sh * pc) :=
  let over := if upFin s || broken s then [(server_close s, SEnd)] else [] in
  match p with
  | SRead => ((λ x, (set_up s x.2, SWrite x.1)) <$> chunks (up s) copyBuf) ++ over
  | SWrite b =>
      ((λ x, (set_down s (down s ++ x.1), match x.2 with [] => SRead | r => SWrite r end))
        <$> chunks b (capDown - length (down s))) ++ over
  | _ => []
  end.

(** The connection breaks, or it does not. *)
Definition network (s : Sh) (p : pc) : list (Sh * pc) :=
  match p with
  | NBreak => [(mkSh (up s) (down s) (upFin s) (downFin s) true, NDone); (s, NDone)]
  | _ => []
  end.

Definition next (s : Sh) (p : pc) : list (Sh * pc) := client s p ++ handler s p ++ network s p.

Definition line (msg : list Z) : list Z := msg ++ [newline].
Definition init (msg : list Z) : conf :=
  Conf (mkSh [] [] false false false) [CSend (line msg); SRead; NBreak].

(** ** Transfers *)
Lemma elem_chunks b limit x :
  x ∈ chunks b limit → b = x.1 ++ x.2 ∧ (0 < length x.1 <= limit)%nat.
Proof.
  unfold chunks. intros (n & -> & Hn%elem_of_seq)%list_elem_of_fmap. cbn [fst snd].
  rewrite take_drop, length_take. split; [done|lia].
Qed.

Lemma chunks_some b limit : b ≠ [] → (0 < limit)%nat → ∃ x, x ∈ chunks b limit.
Proof.
  intros Hb Hl. destruct b as [|y b]; [done|]. unfold chunks.
  exists (take 1 (y :: b), drop 1 (y :: b)). apply list_elem_of_fmap. exists 0%nat. split; [done|].
  apply elem_of_seq. simpl. lia.
Qed.

(** ** Lines *)
Lemma cut_line_app a b r : cut_line a = Some r → cut_line (a ++ b) = Some r.
Proof.
  revert r. induction a as [|x a IH]; intros r; simpl; [done|].
  destruct (x =? newline); [done|]. destruct (cut_line a) eqn:E; [|done].
  by rewrite (IH _ eq_refl).
Qed.

Lemma cut_line_line msg : is_Some (cut_line (line msg)).
Proof.
  induction msg as [|x msg IH]; simpl; [eauto|]. unfold line in IH.
  destruct (x =? newline); [eauto|]. destruct IH as [r ->]. simpl. eauto.
Qed.

Lemma cut_line_whole msg : newline ∉ msg → cut_line (line msg) = Some (line msg).
Proof.
  induction msg as [|x msg IH]; simpl; [done|]. intros [Hx Hm]%not_elem_of_cons.
  destruct (Z.eqb_spec x newline); [congruence|]. unfold line in *. by rewrite IH.
Qed.

(** ** The measure *)
Definition unsent (p : pc) : list Z := match p with CSend r => r | _ => [] end.
Definition held (p : pc) : list Z := match p with SWrite b => b | _ => [] end.
Definition phase (p : pc) : nat :=
  match p with CSend _ => 3 | CRecv _ => 2 | CPrint _ | SRead | SWrite _ | NBreak => 1 | _ => 0 end.
Definition weight (p : pc) : nat := 5 * length (unsent p) + 3 * length (held p) + phase p.
Definition measure (c : conf) : nat :=
  4 * length (up (shared c)) + 2 * length (down (shared c)) + sum_list (weight <$> procs c).

Lemma next_lighter s p s' p' :
  (s', p') ∈ next s p →
  (4 * length (up s') + 2 * length (down s') + weight p' <
   4 * length (up s) + 2 * length (down s) + weight p)%nat.
Proof.
  unfold next, client, handler, network, weight, fatal. intros H.
  destruct p as [rest|got|r|r|got| |b| | |]; simpl in H; try (by inv_elem); rewrite ?app_nil_r in H.
  - apply elem_of_app in H as [(x & [= -> ->] & [-> Hx]%elem_chunks)%list_elem_of_fmap|H].
    + simpl. rewrite !length_app. destruct x.2; simpl; lia.
    + destruct (broken s); inv_elem. simpl. lia.
  - destruct (cut_line got); [inv_elem; simpl; lia|].
    destruct (down s) as [|y d] eqn:Ed; [destruct (_ || _); inv_elem; simpl; rewrite ?Ed; simpl; lia|].
    apply elem_of_app in H as [(x & [= -> ->] & [Ex Hx]%elem_chunks)%list_elem_of_fmap|H].
    + rewrite Ex. simpl. rewrite length_app. lia.
    + destruct (broken s); inv_elem. simpl. rewrite Ed. simpl. lia.
  - inv_elem. simpl. lia.
  - apply elem_of_app in H as [(x & [= -> ->] & [Ex Hx]%elem_chunks)%list_elem_of_fmap|H].
    + rewrite Ex. simpl. rewrite length_app. lia.
    + destruct (upFin s || broken s); inv_elem. simpl. lia.
  - apply elem_of_app in H as [(x & [= -> ->] & [-> Hx]%elem_chunks)%list_elem_of_fmap|H].
    + simpl. rewrite !length_app. destruct x.2; simpl; lia.
    + destruct (upFin s || broken s); inv_elem. simpl. lia.
  - inv_elem; simpl; lia.
Qed.

Lemma step_lighter c c' : step next c c' → (measure c' < measure c)%nat.
Proof.
  apply (step_total next (λ _, True) (λ s, 4 * length (up s) + 2 * length (down s))%nat weight); [|done].
  intros s ps k l s' l' _ _. apply next_lighter.
Qed.

(** ** The invariant: the line is on its way, in order *)
Definition alive (p : pc) : Prop := match p with SRead => True | SWrite b => b ≠ [] | _ => False end.

(** Of the line, [got] has arrived and [rest] is not yet sent; once the handler
    has ended, what it had is lost. *)
Definition on_its_way (msg : list Z) (s : Sh) (sv : pc) (got rest : list Z) : Prop :=
  upFin s = false ∧
  (alive sv ∧ downFin s = false ∧ line msg = got ++ down s ++ held sv ++ up s ++ rest ∨
   sv = SEnd ∧ broken s = true ∧ downFin s = true ∧ (got ++ down s) `prefix_of` line msg).

Definition client_ok (msg : list Z) (s : Sh) (cl sv : pc) : Prop :=
  match cl with
  | CSend rest => rest ≠ [] ∧ on_its_way msg s sv [] rest
  | CRecv got => on_its_way msg s sv got []
  | CPrint r => cut_line (line msg) = Some r
  | CEnd r => cut_line (line msg) = Some r ∧ upFin s = true
  | CFail _ => broken s = true ∧ upFin s = true
  | _ => False
  end.

Definition echo_inv (msg : list Z) (c : conf) : Prop :=
  ∃ cl sv nt, procs c = [cl; sv; nt] ∧ client_ok msg (shared c) cl sv ∧ (alive sv ∨ sv = SEnd) ∧
    (nt = NBreak ∨ nt = NDone).

(** The prefix that has arrived holds the line once it holds a newline. *)
Lemma on_its_way_prefix msg s sv got rest :
  on_its_way msg s sv got rest → (got ++ down s) `prefix_of` line msg.
Proof.
  intros [_ [(_ & _ & ->)|(_ & _ & _ & ?)]]; [|done]. rewrite app_assoc. by apply prefix_app_r.
Qed.
Lemma cut_line_prefix a b r : a `prefix_of` b → cut_line a = Some r → cut_line b = Some r.
Proof. intros [c ->]. apply cut_line_app. Qed.

Lemma client_step msg s cl sv s' cl' :
  client_ok msg s cl sv → (s', cl') ∈ next s cl → client_ok msg s' cl' sv.
Proof.
  intros Hok. unfold next, client, handler, network, fatal. intros H.
  destruct cl as [rest|got|r|r|got| |b| | |]; simpl in Hok, H; try done; rewrite ?app_nil_r in H.
  - destruct Hok as (Hne & Hu & Hw).
    apply elem_of_app in H as [(x & [= -> ->] & [-> Hx]%elem_chunks)%list_elem_of_fmap|H].
    + destruct Hw as [(Ha & Hd & Hl)|(-> & Hb & Hd & Hp)].
      * destruct x as [a [|y r]]; simpl in *; [|split; [done|]]; (split; [done|left]);
          split_and!; try done; rewrite Hl; simpl; by rewrite ?app_nil_r, <- ?app_assoc.
      * destruct x as [a [|y r]]; simpl in *; [|split; [done|]]; (split; [done|right]); by split_and!.
    + destruct (broken s) eqn:Eb; inv_elem. by split.
  - pose proof (on_its_way_prefix _ _ _ _ _ Hok) as Hpre. destruct Hok as (Hu & Hw).
    destruct (cut_line got) as [r|] eqn:Ec.
    + inv_elem. simpl. eapply cut_line_prefix; [|exact Ec]. etrans; [|exact Hpre]. by apply prefix_app_r.
    + assert (downFin s = true → broken s = true) as Hdb.
      { destruct Hw as [(_ & ? & _)|(_ & ? & _)]; congruence. }
      destruct (down s) as [|y d] eqn:Ed.
      { destruct (downFin s || broken s) eqn:Ef; inv_elem. simpl. split; [|done].
        apply orb_true_iff in Ef as [?|?]; auto. }
      apply elem_of_app in H as [(x & [= -> ->] & [Ex Hx]%elem_chunks)%list_elem_of_fmap|H].
      * simpl. split; [done|]. rewrite Ex in Hw. simpl.
        destruct Hw as [(Ha & Hd & Hl)|(-> & Hb & Hd & Hp)]; [left|right]; split_and!; try done;
          rewrite <- ?app_assoc in *; done.
      * destruct (broken s) eqn:Eb; inv_elem. by split.
  - inv_elem. done.
  - inv_elem.
  - inv_elem.
Qed.

(** A step of the handler leaves what has arrived in order. *)
Lemma handler_way msg s sv s' sv' got rest :
  on_its_way msg s sv got rest → (s', sv') ∈ next s sv → (alive sv ∨ sv = SEnd) →
  on_its_way msg s' sv' got rest.
Proof.
  intros [Hu Hw] H Hsv. pose proof (on_its_way_prefix msg s sv got rest (conj Hu Hw)) as Hpre.
  assert ((s', sv') ∈ (if upFin s || broken s then [(server_close s, SEnd)] else []) →
    on_its_way msg s' sv' got rest) as Hover.
  { intros Hin. rewrite Hu in Hin. simpl in Hin. destruct (broken s) eqn:Eb; inv_elem.
    split; [done|right]. split_and!; done. }
  unfold next, client, handler, network in H.
  destruct sv as [r0|g0|r0|r0|g0| |b| | |]; try (by destruct Hsv); simpl in H; rewrite ?app_nil_r in H.
  - apply elem_of_app in H as [(x & [= -> ->] & [Ex Hx]%elem_chunks)%list_elem_of_fmap|H];
      [|by apply Hover].
    assert (x.1 ≠ []) by (destruct x.1; simpl in *; [lia|done]).
    split; [done|left]. destruct Hw as [(_ & Hd & Hl)|(? & _)]; [|done]. split_and!; try done.
    rewrite Hl, Ex. simpl. by rewrite <- !app_assoc.
  - apply elem_of_app in H as [(x & [= -> ->] & [-> Hx]%elem_chunks)%list_elem_of_fmap|H];
      [|by apply Hover].
    split; [done|left]. destruct Hw as [(_ & Hd & Hl)|(? & _)]; [|done].
    destruct x as [a [|y r]]; simpl in *; split_and!; try done;
      rewrite Hl; simpl; by rewrite ?app_nil_r, <- ?app_assoc.
  - inv_elem.
Qed.

Lemma handler_alive s sv s' sv' :
  (s', sv') ∈ next s sv → (alive sv ∨ sv = SEnd) →
  (alive sv' ∨ sv' = SEnd) ∧ upFin s' = upFin s ∧ broken s' = broken s.
Proof.
  intros H Hsv. unfold next, client, handler, network in H.
  destruct sv as [r0|g0|r0|r0|g0| |b| | |]; try (by destruct Hsv); simpl in H; rewrite ?app_nil_r in H.
  - apply elem_of_app in H as [(x & [= -> ->] & [Ex Hx]%elem_chunks)%list_elem_of_fmap|H].
    + split; [left|done]. destruct x.1; simpl in *; [lia|done].
    + destruct (upFin s || broken s); inv_elem. by auto.
  - apply elem_of_app in H as [(x & [= -> ->] & [-> Hx]%elem_chunks)%list_elem_of_fmap|H].
    + split; [left|done]. by destruct x.2.
    + destruct (upFin s || broken s); inv_elem. by auto.
  - inv_elem.
Qed.

Lemma server_step msg s cl sv s' sv' :
  (alive sv ∨ sv = SEnd) → client_ok msg s cl sv → (s', sv') ∈ next s sv →
  client_ok msg s' cl sv' ∧ (alive sv' ∨ sv' = SEnd).
Proof.
  intros Hsv Hok H. destruct (handler_alive _ _ _ _ H Hsv) as (Hsv' & Eu & Eb). split; [|done].
  destruct cl; simpl in *; try done; rewrite ?Eu, ?Eb; try done;
    [destruct Hok; split; [done|]|]; by eapply handler_way.
Qed.

Lemma network_step msg s cl sv s' nt nt' :
  client_ok msg s cl sv → (nt = NBreak ∨ nt = NDone) → (s', nt') ∈ next s nt →
  client_ok msg s' cl sv ∧ nt' = NDone.
Proof.
  intros Hok [-> | ->] H; unfold next in H; simpl in H; inv_elem; (split; [|done]); try done.
  destruct cl; simpl in *; try done; unfold on_its_way in *; simpl in *; naive_solver.
Qed.

Lemma echo_reachable msg c : rtc (step next) (init msg) c → echo_inv msg c.
Proof.
  apply inv_reachable.
  - exists (CSend (line msg)), SRead, NBreak. split_and!; [done| |by left|by left].
    simpl. split; [by destruct msg|]. split; [done|left]. by split_and!.
  - intros a b (cl & sv & nt & Hps & Hok & Hsv & Hnt) Hstep.
    destruct Hstep as [i l s s' l' ps Hi Hn]. simpl in *. subst ps.
    destruct i as [|[|[|i]]]; simplify_eq/=.
    + exists l', sv, nt. split_and!; try done. by eapply client_step.
    + destruct (server_step _ _ _ _ _ _ Hsv Hok Hn). exists cl, l', nt. done.
    + destruct (network_step _ _ _ _ _ _ _ Hok Hnt Hn) as [? ->]. exists cl, sv, NDone. auto.
Qed.

(** ** Progress *)
Definition can (s : Sh) (p : pc) : Prop := next s p ≠ [].

Lemma can_step s ps i p : ps !! i = Some p → can s p → ∃ c', step next (Conf s ps) c'.
Proof.
  intros Hi Hc. unfold can in Hc. destruct (next s p) as [|[s' p'] xs] eqn:E; [done|].
  exists (Conf s' (<[i:=p']> ps)). apply (step_at _ i p); [done|]. rewrite E. left.
Qed.

Lemma fmap_chunks_can {A} (f : list Z * list Z → A) b limit xs :
  b ≠ [] → (0 < limit)%nat → (f <$> chunks b limit) ++ xs ≠ [].
Proof.
  intros Hb Hl. destruct (chunks_some b limit Hb Hl) as [x Hx].
  destruct (chunks b limit); [by apply not_elem_of_nil in Hx|done].
Qed.

Lemma read_can s : up s ≠ [] ∨ upFin s = true ∨ broken s = true → can s SRead.
Proof.
  unfold can, next, handler. simpl. rewrite app_nil_r. intros [H|H].
  - apply fmap_chunks_can; [done|apply bufs_pos].
  - assert (upFin s || broken s = true) as -> by (by apply orb_true_iff). by destruct (_ <$> _).
Qed.

Lemma write_can s b :
  b ≠ [] → (length (down s) < capDown)%nat ∨ upFin s = true ∨ broken s = true → can s (SWrite b).
Proof.
  unfold can, next, handler. simpl. rewrite app_nil_r. intros Hb [H|H].
  - apply fmap_chunks_can; [done|lia].
  - assert (upFin s || broken s = true) as -> by (by apply orb_true_iff). by destruct (_ <$> _).
Qed.

(** The handler ends once the client has closed or the connection is broken. *)
Lemma server_ends s sv :
  (alive sv ∨ sv = SEnd) → upFin s = true ∨ broken s = true → sv = SEnd ∨ can s sv.
Proof.
  intros [Ha| ->] Ho; [right|by left].
  destruct sv; try done; [apply read_can|apply write_can]; auto.
Qed.

(** A client whose line is on its way can act, or the handler can. *)
Lemma way_progress msg s cl sv :
  (0 < capUp)%nat → (length msg < capDown)%nat →
  match cl with CSend _ | CRecv _ => True | _ => False end → client_ok msg s cl sv →
  can s cl ∨ can s sv.
Proof.
  intros Hup Hdown Hcl Hok.
  assert (Hlen : length (line msg) = S (length msg)) by (unfold line; rewrite length_app; simpl; lia).
  destruct cl as [rest|got|r|r|got| |b| | |]; simpl in Hok; try done.
  - destruct Hok as (Hne & Hu & [(Ha & Hd & Hl)|(-> & Hb & Hd & Hp)]).
    + assert (length (line msg) = length (down s) + length (held sv) + length (up s) + length rest)%nat
        by (rewrite Hl, !length_app; simpl; lia).
      destruct (decide (length (up s) < capUp)%nat).
      { left. unfold can, next, client. rewrite <- app_assoc. apply fmap_chunks_can; [done|lia]. }
      right. destruct sv; try done.
      * apply read_can. left. intros E. rewrite E in *. simpl in *. lia.
      * apply write_can; [done|]. left. simpl in *. destruct b; simpl in *; [done|lia].
    + left. unfold can, next, client. rewrite Hb, <- app_assoc. by destruct (_ <$> _).
  - destruct Hok as (Hu & Hw).
    destruct (cut_line got) as [r|] eqn:Ec; [left; unfold can, next, client; by rewrite Ec|].
    destruct (down s) as [|y d] eqn:Ed.
    + destruct Hw as [(Ha & Hd & Hl)|(-> & Hb & Hd & Hp)].
      * right. destruct sv; try done.
        -- apply read_can. left. intros Hu0. rewrite Hu0 in Hl. simpl in Hl. rewrite ?app_nil_r in Hl.
           destruct (cut_line_line msg) as [r Hr]. rewrite Hl, Ec in Hr. done.
        -- apply write_can; [done|]. left. rewrite Ed. simpl. lia.
      * left. unfold can, next, client. by rewrite Ec, Ed, Hd.
    + left. unfold can, next, client. rewrite Ec, Ed, <- app_assoc.
      apply fmap_chunks_can; [done|apply bufs_pos].
Qed.

Lemma echo_progress msg c :
  (0 < capUp)%nat → (length msg < capDown)%nat → echo_inv msg c →
  (∃ c', step next c c') ∨
  ∃ cl, procs c = [cl; SEnd; NDone] ∧
    ((∃ r, cl = CEnd r ∧ cut_line (line msg) = Some r) ∨
     (∃ got, cl = CFail got ∧ broken (shared c) = true)).
Proof.
  intros Hup Hdown (cl & sv & nt & Hps & Hok & Hsv & Hnt). destruct c as [s ps]. simpl in *. subst ps.
  pose proof (can_step s [cl; sv; nt] 0 cl eq_refl) as Hc.
  pose proof (can_step s [cl; sv; nt] 1 sv eq_refl) as Hs.
  destruct Hnt as [-> | ->]; [left; by apply (can_step s [cl; sv; NBreak] 2 NBreak eq_refl)|].
  pose proof (way_progress msg s cl sv Hup Hdown) as Hway.
  destruct cl as [rest|got|r|r|got| |b| | |]; try done.
  - left. destruct (Hway I Hok); auto.
  - left. destruct (Hway I Hok); auto.
  - left. by apply Hc.
  - destruct Hok as [Hr Hu]. destruct (server_ends s sv Hsv (or_introl Hu)) as [-> |?]; [right|left; auto].
    exists (CEnd r). eauto.
  - destruct Hok as [Hb Hu]. destruct (server_ends s sv Hsv (or_introl Hu)) as [-> |?]; [right|left; auto].
    exists (CFail got). eauto.
Qed.

End echo.

(** C36: The TCP client gets its line back, or fails. The client sends a
    message without a newline, and a newline, and reads a line; the server
    copies the connection to itself; the connection delivers bytes in pieces of
    any size, holds at least the line on its way back, and may break at any
    moment, after which writes and reads fail. Then every run is finite; the
    client prints nothing but the line it sent; and in the end the handler has
    returned and the client has printed the line, or it ended in log.Fatal and
    the connection was broken. *)
Theorem tcp_echo_roundtrip capUp capDown msg c :
  (0 < capUp)%nat → (length msg < capDown)%nat → newline ∉ msg →
  rtc (step (next capUp capDown)) (init msg) c →
  (∀ c', step (next capUp capDown) c c' → (measure c' < measure c)%nat) ∧
  (∀ r, CPrint r ∈ procs c ∨ CEnd r ∈ procs c → r = line msg) ∧
  ((∀ c', ¬ step (next capUp capDown) c c') →
   procs c = [CEnd (line msg); SEnd; NDone] ∨
   (broken (shared c) = true ∧ ∃ got, procs c = [CFail got; SEnd; NDone])).
Proof.
  intros Hup Hdown Hm Hc. split; [intros c'; apply step_lighter|].
  apply echo_reachable in Hc. split.
  - destruct Hc as (cl & sv & nt & Hps & Hok & Hsv & Hnt). intros r Hr. rewrite Hps in Hr.
    rewrite !list_elem_of_In in Hr. simpl in Hr.
    assert (cl = CPrint r ∨ cl = CEnd r) as Hcl.
    { destruct Hr as [[?|[?|[?|[]]]]|[?|[?|[?|[]]]]]; auto; subst;
        by destruct Hsv as [?|?], Hnt as [?|?]. }
    destruct Hcl as [-> | ->]; simpl in Hok; [|destruct Hok as [Hok _]];
      rewrite cut_line_whole in Hok by done; by simplify_eq.
  - intros Hend.
    destruct (echo_progress capUp capDown msg c Hup Hdown Hc) as [[c' Hc']|(cl & Hps & Hcl)].
    { by destruct (Hend c'). }
    destruct Hcl as [(r & -> & Hr)|(got & -> & Hb)]; [left|right; eauto].
    rewrite cut_line_whole in Hr by done. by simplify_eq.
Qed.

(** "hi", byte by byte through windows of one and four bytes; the connection
    does not break. *)
Definition hi : list Z := [104; 105].
Definition hi_start : conf :=
  Eval vm_compute in default (init hi) (run (next 1 4) [(2, 1)]%nat (init hi)).
Definition hi_end : conf := Eval vm_compute in drive (next 1 4) 100 [0; 1]%nat hi_start.

Lemma hi_run : rtc (step (next 1 4)) (init hi) hi_end.
Proof.
  etrans; [apply (run_sound _ [(2, 1)]%nat); vm_compute; reflexivity|].
  change (rtc (step (next 1 4)) hi_start (drive (next 1 4) 100 [0; 1]%nat hi_start)). apply drive_sound.
Qed.

Lemma ends_stuck capUp capDown s r c' : ¬ step (next capUp capDown) (Conf s [CEnd r; SEnd; NDone]) c'.
Proof.
  intros H. inversion H as [i l ? ? ? ? Hi Hn]; subst.
  destruct i as [|[|[|i]]]; simplify_eq/=; by apply not_elem_of_nil in Hn.
Qed.

Lemma tcp_echo_roundtrip_witness : procs hi_end = [CEnd (line hi); SEnd; NDone].
Proof.
  destruct (tcp_echo_roundtrip 1 4 hi hi_end) as (_ & _ & H).
  - lia.
  - simpl. lia.
  - apply (bool_decide_unpack _). vm_compute. exact I.
  - exact hi_run.
  - destruct H as [H|[H _]]; [intros c'; apply ends_stuck|exact H|discriminate H].
Defined.

(** The connection breaks, and the newline does not come back. *)
Example hi_breaks :
  ∃ c, run (next 1 4) [(0, 0); (1, 0); (1, 0); (0, 0); (2, 0)]%nat (init hi) = Some c ∧
    procs (drive (next 1 4) 100 [1; 0]%nat c) = [CFail hi; SEnd; NDone].
Proof. eexists. split; [vm_compute; reflexivity|]. vm_compute. reflexivity. Qed.

(** The bound on the way back is needed: a line that exceeds both directions
    and the copy in the server stops both ends for good, as the client writes
    its whole line before it reads. *)
Example long_line_blocks :
  let c0 := default (init []) (run (next 1 1) [(2, 1)]%nat (init (hi ++ hi))) in
  let c := drive (next 1 1) 100 [0; 1]%nat c0 in
  Forall (λ p, next 1 1 (shared c) p = []) (procs c) ∧ procs c ≠ [CEnd (line (hi ++ hi)); SEnd; NDone].
Proof. vm_compute. split; [repeat constructor|done]. Qed.

End TcpEcho.

(** * HTTP *)
Module HttpExample.

(** What the handler uses of a request and sets of a response. *)
Record Request := mkRequest { Method : str; Path : str }.
Record Response := mkResponse {
  StatusCode : Z; ProtoMajor : Z; ProtoMinor : Z; Body : str; ContentLength : Z;
  Header : list (str * str); Close : bool }.

(** The format string of the response's body. *)
Definition body (r : Request) : str :=
  text "hello from go-netx" ++ [10] ++ text "method=" ++ Method r ++ [10] ++ text "path=" ++ Path r ++ [10].

Definition response (r : Request) : Response :=
  mkResponse 200 1 1 (body r) (Z.of_nat (length (body r)))
    [(text "Content-Type", text "text/plain; charset=utf-8")] true.

Section http.
(** net/http on a connection: reading a request, closing its body, writing a
    response. *)
Context {C E : Type}.
Context (ReadRequest : C → C * (E + Request)) (closeBody : Request → C → C)
        (Write : Response → C → C * option E).

Definition serveHTTP (conn : C) : C * option E :=
  match ReadRequest conn with
  | (c1, inl err) => (c1, Some err)
  | (c1, inr request) =>
      let '(c2, err) := Write (response request) c1 in (closeBody request c2, err)
  end.

(** Nothing is written for a request that cannot be read; otherwise the error
    is that of the one response written. *)
Lemma serveHTTP_cases conn :
  (∃ e, (ReadRequest conn).2 = inl e ∧ serveHTTP conn = ((ReadRequest conn).1, Some e)) ∨
  (∃ r, (ReadRequest conn).2 = inr r ∧
        (serveHTTP conn).2 = (Write (response r) (ReadRequest conn).1).2 ∧
        (serveHTTP conn).1 = closeBody r (Write (response r) (ReadRequest conn).1).1).
Proof.
  unfold serveHTTP. destruct (ReadRequest conn) as [c1 [e|r]]; simpl; [left; eauto|right].
  exists r. by destruct (Write (response r) c1).
Qed.
End http.

Lemma split_on_line a rest : 10 ∉ a → split_on 10 (a ++ 10 :: rest) = a :: split_on 10 rest.
Proof.
  induction a as [|x a IH]; simpl; [done|]. intros [Hx Ha]%not_elem_of_cons.
  destruct (Z.eqb_spec x 10); [congruence|]. by rewrite IH.
Qed.

(** A client reads the method and the path back from the lines of the body,
    whose announced length is its length. *)
Lemma body_lines r :
  10 ∉ Method r → 10 ∉ Path r →
  split_on 10 (Body (response r)) =
    [text "hello from go-netx"; text "method=" ++ Method r; text "path=" ++ Path r; []] ∧
  ContentLength (response r) = Z.of_nat (length (Body (response r))).
Proof.
  intros Hm Hp. split; [|done]. change (Body (response r)) with (body r). unfold body.
  assert (∀ s, bool_decide (10 ∉ text s) = true → 10 ∉ text s) as Ht by (intros s; apply bool_decide_eq_true).
  assert (∀ a b, 10 ∉ a → split_on 10 (a ++ [10] ++ b) = a :: split_on 10 b) as Hs
    by (intros; by apply split_on_line).
  assert ((10 ∉ (text "method=" ++ Method r)) ∧ (10 ∉ (text "path=" ++ Path r))) as [H1 H2]
    by (split; apply not_elem_of_app; (split; [by apply Ht|done])).
  rewrite Hs by (by apply Ht).
  rewrite (app_assoc (text "method=")), Hs by done.
  rewrite <- (app_nil_r [10]) at 1. rewrite (app_assoc (text "path=")), Hs by done. done.
Qed.

End HttpExample.
