(* ===== verification/Testdoc.v ===== *)
(** The tool testdoc ([src/internal/tools/testdoc/main.go]), which keeps
    docs/TESTING.md and the test code in step.

    The repository is a tree of directories and files in the order in which
    they are read; what Go's parser finds in a file is a parameter of the file.
    Messages are values of [problem]. [None] is a panic. *)
From S2P Require Import Prelude Text.

Local Open Scope Z_scope.

(** * Data *)

Record Test := mkTest { Pkg : str; Name : str; Pos : str; IDs : list str }.
Record Row := mkRow { Line : nat; Cells : list str; ID : str; Status : str }.
Record regRef := mkRef { ref_id : str; ref_line : nat }.

Definition Label (t : Test) : str := Pkg t ++ text "." ++ TrimPrefix (Name t) (text "Test").

Inductive problem :=
  | NoDirective (pos name : str)
  | UnknownCheckpoint (pos name id : str)
  | NotTested (line : nat) (id status : str)
  | Declared (line : nat) (id status : str) (n : nat)
  | StaleColumn (line : nat) (id : str)
  | UnknownRef (line : nat) (id : str)
  | NoRuntimeDoc
  | NoInternalSection (rel : str)
  | NoDesignDoc (rel : str).

(** * Regular expressions *)

Definition is_upper (c : Z) : bool := (65 <=? c) && (c <=? 90).
Definition is_digit (c : Z) : bool := (48 <=? c) && (c <=? 57).

Fixpoint span (f : Z → bool) (s : str) : str * str :=
  match s with
  | [] => ([], [])
  | c :: rest => if f c then let '(a, b) := span f rest in (c :: a, b) else ([], s)
  end.

(** [[A-Z]+-\d+] at the start of the string: the match and the rest. *)
Definition match_id (s : str) : option (str * str) :=
  let '(u, r) := span is_upper s in
  match u, r with
  | _ :: _, 45 :: r' =>
      let '(d, rest) := span is_digit r' in
      match d with [] => None | _ => Some (u ++ 45 :: d, rest) end
  | _, _ => None
  end.
(** [^[A-Z]+-\d+$] *)
Definition idRe (s : str) : bool := match match_id s with Some (_, []) => true | _ => false end.
(** [FindAllString]: every turn takes at least one byte. *)
Fixpoint find_ids (fuel : nat) (s : str) : list str :=
  match fuel, s with
  | S fuel, _ :: rest =>
      match match_id s with
      | Some (m, rest') => m :: find_ids fuel rest'
      | None => find_ids fuel rest
      end
  | _, _ => []
  end.
Definition FindAllString (s : str) : list str := find_ids (length s) s.

(** * The document *)

(** [split]: 124 is a bar. *)
Definition split (line : str) : list str := TrimSpace <$> split_on 124 (Trim 124 (TrimSpace line)).
Definition contains (cells : list str) (s : str) : bool := bool_decide (s ∈ cells).

(** [cells[len(cells)-k]] *)
Definition from_end (k : nat) (cells : list str) : option str :=
  if (k <=? length cells)%nat then cells !! (length cells - k)%nat else None.
Definition statusOf (cells : list str) : str := default [] (from_end 3 cells).

Definition is_header (cells : list str) : bool :=
  bool_decide (from_end 2 cells = Some (text "测试") ∧ from_end 1 cells = Some (text "说明")).
Definition is_regression (cells : list str) : bool :=
  bool_decide (cells !! 0%nat = Some (text "ID")) && contains cells (text "问题").

(** One turn of parseDoc's loop: the flags after line [i], its checkpoint row
    and its references. *)
Definition parse_line (st : bool * bool) (i : nat) (l : str) : (bool * bool) * option Row * list regRef :=
  let '(inCheckpoints, inRegression) := st in
  if negb (HasPrefix l (text "|")) then ((false, false), None, [])
  else
    let cells := split l in
    if is_header cells then ((true, inRegression), None, [])
    else if is_regression cells then ((inCheckpoints, true), None, [])
    else
      let c0 := default [] (cells !! 0%nat) in
      if negb (idRe c0) then (st, None, [])
      else
        (st, if inCheckpoints : bool then Some (mkRow i cells c0 (statusOf cells)) else None,
         if (inRegression : bool) && (4 <=? length cells)%nat
         then (λ part, mkRef part i) <$> FindAllString (default [] (cells !! 3%nat)) else []).

Fixpoint parse_loop (st : bool * bool) (i : nat) (lines : list str) (rows : gmap str Row) (refs : list regRef)
  : gmap str Row * list regRef :=
  match lines with
  | [] => (rows, refs)
  | l :: rest =>
      let '(st', row, rs) := parse_line st i l in
      parse_loop st' (S i) rest (match row with Some r => <[ID r := r]> rows | None => rows end) (refs ++ rs)
  end.
Definition parseDoc (lines : list str) : gmap str Row * list regRef := parse_loop (false, false) 0 lines ∅ [].

Definition render (tests : list Test) : str :=
  join (text "<br>") (sort_Strings ((λ t, text "`" ++ Label t ++ text "`") <$> tests)).

(** * Tests and their directives *)

Definition isTestFunc (name : str) : bool :=
  existsb (λ p, HasPrefix name p &&
    match drop (length p) name with [] => true | c :: _ => (65 <=? c) && (c <=? 90) end)
    [text "Test"; text "Benchmark"; text "Fuzz"].

(** [\s] of a regular expression. *)
Definition re_space (c : Z) : bool := bool_decide (c ∈ [9; 10; 12; 13; 32]).
(** [^Checks:\s*(.+)$]: the group, if it matches with something after the
    blanks. *)
Definition directiveRe (s : str) : option str :=
  if HasPrefix s (text "Checks:") then
    let rest := (span re_space (drop 7 s)).2 in
    match rest with [] => None | _ => if bool_decide (10 ∈ rest) then None else Some rest end
  else None.
(** The ids of a doc comment; [None] is no comment. 44 is a comma. *)
Definition directive_line (c : str) : list str :=
  match directiveRe (TrimSpace (TrimPrefix c (text "//"))) with
  | None => []
  | Some m => filter (λ id, id ≠ []) (TrimSpace <$> split_on 44 m)
  end.
Definition directive (doc : option (list str)) : list str :=
  match doc with None => [] | Some cs => cs ≫= directive_line end.

(** What the parser finds in a Go file. *)
Inductive decl := FuncDecl (name : str) (recv : bool) (doc : option (list str)) (pos : str) | OtherDecl.
Record gofile := mkGo { pkgName : str; decls : list decl }.

(** A directory, or a file with its bytes and what the parser makes of it. *)
Inductive node := Dir (name : str) (children : list node) | File (name : str) (raw : str) (ast : option gofile).
Definition node_name (n : node) : str := match n with Dir name _ | File name _ _ => name end.

Definition test_of (pkg : str) (d : decl) : option Test :=
  match d with
  | FuncDecl name recv doc pos =>
      if recv || negb (isTestFunc name) then None else Some (mkTest pkg name pos (directive doc))
  | OtherDecl => None
  end.
Definition file_tests (f : gofile) : list Test := omap (test_of (TrimSuffix (pkgName f) (text "_test"))) (decls f).

(** [None]: a file that does not parse ends the walk with its error. *)
Fixpoint collect (n : node) : option (list Test) :=
  match n with
  | Dir name children =>
      if bool_decide (name = text ".git") || bool_decide (name = text "testdata") then Some []
      else (fix go (ns : list node) : option (list Test) :=
              match ns with
              | [] => Some []
              | n :: rest => ts ← collect n; us ← go rest; Some (ts ++ us)
              end) children
  | File name _ ast =>
      if HasSuffix name (text "_test.go") then file_tests <$> ast else Some []
  end.
Definition no_directive (t : Test) : list problem :=
  match IDs t with [] => [NoDirective (Pos t) (Name t)] | _ => [] end.
Definition collectTests (root : node) : option (list Test * list problem) :=
  ts ← collect root; Some (ts, ts ≫= no_directive).

(** * Design documents *)

Fixpoint lookup_path (ns : list node) (path : list str) : option node :=
  match path with
  | [] => None
  | p :: rest =>
      n ← list_find (λ n, node_name n = p) ns;
      match rest, n.2 with
      | [], _ => Some n.2
      | _, Dir _ children => lookup_path children rest
      | _, File _ _ _ => None
      end
  end.
Definition read_file (ns : list node) (path : list str) : str :=
  match lookup_path ns path with Some (File _ raw _) => raw | _ => [] end.
Definition exists_ (ns : list node) (path : list str) : bool := bool_decide (is_Some (lookup_path ns path)).

Definition hasPackage (children : list node) : bool :=
  existsb (λ n, match n with
                | File name _ _ => HasSuffix name (text ".go") && negb (HasSuffix name (text "_test.go"))
                | Dir _ _ => false
                end) children.

(** A path below the root; the root itself is the empty list. *)
Definition rel_str (rel : list str) : str := match rel with [] => text "." | _ => join (text "/") rel end.
Definition design_path (rel : list str) : list str :=
  match rev rel with
  | [] => []
  | x :: rest => [text "docs"; text "design"] ++ rev rest ++ [x ++ text ".md"]
  end.

Definition skip_dir (rel : list str) (name : str) : bool :=
  (HasPrefix name (text ".") && negb (bool_decide (rel = []))) || bool_decide (name = text "testdata") ||
  bool_decide (rel_str rel = text "examples") || HasPrefix (rel_str rel) (text "examples/") ||
  bool_decide (rel_str rel = text "docs").

Section design.
Context (top : list node).

Definition check_package (rel : list str) : list problem :=
  let internal := read_file top [text "docs"; text "design"; text "internal.md"] in
  if bool_decide (rel = []) then
    if exists_ top [text "docs"; text "design"; text "runtime.md"] then [] else [NoRuntimeDoc]
  else if HasPrefix (rel_str rel) (text "internal/") then
    if negb (Contains internal (text "## " ++ rel_str rel ++ text " ")) &&
       negb (Contains internal (text "## " ++ rel_str rel ++ [10]))
    then [NoInternalSection (rel_str rel)] else []
  else if exists_ top (design_path rel) then [] else [NoDesignDoc (rel_str rel)].

Fixpoint walk_design (rel : list str) (n : node) : list problem :=
  match n with
  | File _ _ _ => []
  | Dir name children =>
      if skip_dir rel name then []
      else (if hasPackage children then check_package rel else []) ++
           (fix go (ns : list node) : list problem :=
              match ns with
              | [] => []
              | n :: rest => walk_design (rel ++ [node_name n]) n ++ go rest
              end) children
  end.
End design.
Definition checkDesignDocs (root : node) : list problem :=
  match root with Dir _ children => walk_design children [] root | File _ _ _ => [] end.

(** * The check *)

(** The tests of each checkpoint, and the ids no row has. *)
Definition group_id (rows : gmap str Row) (t : Test) (acc : gmap str (list Test) * list problem) (id : str)
  : gmap str (list Test) * list problem :=
  let '(byID, ps) := acc in
  match rows !! id with
  | None => (byID, ps ++ [UnknownCheckpoint (Pos t) (Name t) id])
  | Some _ => (<[id := default [] (byID !! id) ++ [t]]> byID, ps)
  end.
Definition group (rows : gmap str Row) (tests : list Test) : gmap str (list Test) * list problem :=
  foldl (λ acc t, foldl (group_id rows t) acc (IDs t)) (∅, []) tests.

Definition tested_status (s : str) : bool := bool_decide (s ∈ [text "✅"; text "⚠️"]).
Definition untested_status (s : str) : bool := bool_decide (s ∈ [text "❌"; text "🔧"; text "➖"; text "⚙️"]).
Definition status_problem (r : Row) (id : str) (n : nat) : list problem :=
  if tested_status (Status r) && Nat.eqb n 0 then [NotTested (S (Line r)) id (Status r)]
  else if untested_status (Status r) && negb (Nat.eqb n 0) then [Declared (S (Line r)) id (Status r) n]
  else [].

(** The text of a row: ["| " + strings.Join(r.Cells, " | ") + " |"]. *)
Definition format_row (cells : list str) : str := text "| " ++ join (text " | ") cells ++ text " |".
(** [r.Cells[len(r.Cells)-2] = want] *)
Definition set_column (cells : list str) (want : str) : list str := <[(length cells - 2)%nat := want]> cells.

(** One turn of the loop over the sorted ids. *)
Definition check_row (write : bool) (byID : gmap str (list Test)) (id : str) (r : Row) (lines : list str)
  : option (list str * list problem) :=
  let ts := default [] (byID !! id) in
  let ps := status_problem r id (length ts) in
  let want := render ts in
  have ← from_end 2 (Cells r);
  if bool_decide (have = want) then Some (lines, ps)
  else if write then Some (<[Line r := format_row (set_column (Cells r) want)]> lines, ps)
  else Some (lines, ps ++ [StaleColumn (S (Line r)) id]).

Fixpoint check_rows (write : bool) (rows : gmap str Row) (byID : gmap str (list Test)) (ids : list str)
    (lines : list str) : option (list str * list problem) :=
  match ids with
  | [] => Some (lines, [])
  | id :: rest =>
      match rows !! id with
      | None => check_rows write rows byID rest lines
      | Some r =>
          '(lines1, ps) ← check_row write byID id r lines;
          '(lines2, qs) ← check_rows write rows byID rest lines1;
          Some (lines2, ps ++ qs)
      end
  end.

Definition ref_problem (rows : gmap str Row) (x : regRef) : list problem :=
  match rows !! ref_id x with None => [UnknownRef (S (ref_line x)) (ref_id x)] | Some _ => [] end.

(** [run], past the walk and the reading of the document: the problems and the
    document afterwards. [collected] are the tests with the problems the walk
    found, [design] those of the design documents. *)
Definition run (collected : list Test * list problem) (design : list problem) (raw : str) (write : bool)
  : option (list problem * str) :=
  let '(tests, ps0) := collected in
  let lines := split_on 10 raw in
  let '(rows, regRefs) := parseDoc lines in
  let '(byID, ps1) := group rows tests in
  let ids := sort_Strings ((map_to_list rows).*1) in
  '(lines', ps2) ← check_rows write rows byID ids lines;
  Some (ps0 ++ ps1 ++ ps2 ++ (regRefs ≫= ref_problem rows) ++ design,
        if write then join [10] lines' else raw).

(** The command: [None] is a panic; an error stops it. *)
Inductive outcome := ReadError | Checked (problems : list problem) (doc : str).
Definition run_repo (root : node) (write : bool) : option outcome :=
  match collectTests root, root with
  | Some collected, Dir _ children =>
      match lookup_path children [text "docs"; text "TESTING.md"] with
      | Some (File _ raw _) =>
          '(ps, doc) ← run collected (checkDesignDocs root) raw write; Some (Checked ps doc)
      | _ => Some ReadError
      end
  | _, _ => Some ReadError
  end.
