(* ===== verification/TestdocSpec.v ===== *)
(** What testdoc's reader of docs/TESTING.md has to find, stated on the lines
    of the document without the code that finds it, and that the code finds
    exactly that.

    A checkpoint row is a line at a position: the lines from a header of a
    checkpoint table down to it all begin with a bar, and its first cell is an
    id. *)
From stdpp Require Import sorting.
From S2P Require Import Prelude Text Testdoc.

Local Open Scope Z_scope.

(** * Text *)

Lemma HasPrefix_spec s p : HasPrefix s p = true ↔ ∃ t, s = p ++ t.
Proof.
  unfold HasPrefix. rewrite bool_decide_eq_true. split.
  - intros <-. exists (drop (length p) s). by rewrite take_drop.
  - intros [t ->]. by rewrite take_app_length.
Qed.

Lemma Contains_spec s p : Contains s p = true ↔ ∃ a b, s = a ++ p ++ b.
Proof.
  induction s as [|x s IH]; simpl; rewrite orb_true_iff, HasPrefix_spec.
  - split; [intros [[t H]|]; [by exists [], t|done]|]. intros ([|] & b & H); [|done]. left. by exists b.
  - rewrite IH. split.
    + intros [[t ->]|(a & b & ->)]; [by exists [], t|by exists (x :: a), b].
    + intros ([|y a] & b & H); [left; by exists b|]. injection H as -> ->. right. by exists a, b.
Qed.

(** Does not begin with the byte. *)
Definition not_at_head (c : Z) (s : str) : Prop := head s ≠ Some c.

Lemma trim_byte_left_spec c s u :
  trim_byte_left c s = u ↔ ∃ m, s = repeat c m ++ u ∧ not_at_head c u.
Proof.
  unfold not_at_head. split.
  - intros <-. induction s as [|x s IH]; [by exists 0%nat|]. simpl. destruct (Z.eqb_spec x c) as [->|Hne].
    + destruct IH as (m & Es & Hh). exists (S m). split; [|done]. simpl. by rewrite <- Es.
    + exists 0%nat. split; [done|]. simpl. congruence.
  - intros (m & -> & Hh). induction m as [|m IH]; simpl; [|by rewrite Z.eqb_refl].
    destruct u as [|x u]; [done|]. apply trim_byte_other. simpl in Hh. congruence.
Qed.

(** [strings.Trim] takes all the bytes [c] at both ends. *)
Lemma repeat_rev {A} (c : A) n : rev (repeat c n) = repeat c n.
Proof. induction n as [|n IH]; [done|]. simpl. by rewrite IH, <- repeat_cons. Qed.

Lemma Trim_spec c s u :
  Trim c s = u ↔ ∃ m n, s = repeat c m ++ u ++ repeat c n ∧ not_at_head c u ∧ not_at_head c (rev u).
Proof.
  unfold Trim. split.
  - intros Hu. assert (trim_byte_left c (rev (trim_byte_left c s)) = rev u) as H by (rewrite <- Hu; by rewrite rev_involutive).
    apply trim_byte_left_spec in H as (n & En & Hr).
    assert (trim_byte_left c s = u ++ repeat c n) as Es.
    { rewrite <- (rev_involutive (trim_byte_left c s)), En, rev_app_distr, rev_involutive. by rewrite repeat_rev. }
    apply trim_byte_left_spec in Es as (m & -> & Hh). exists m, n. split_and!; [done| |done].
    unfold not_at_head in *. by destruct u.
  - intros (m & n & -> & Hu & Hr). destruct (decide (u = [])) as [->|Hne].
    + simpl. rewrite <- repeat_app.
      assert (trim_byte_left c (repeat c (m + n)) = []) as ->; [|done].
      apply trim_byte_left_spec. exists (m + n)%nat. by rewrite app_nil_r.
    + assert (trim_byte_left c (repeat c m ++ u ++ repeat c n) = u ++ repeat c n) as ->.
      { apply trim_byte_left_spec. exists m. split; [done|]. unfold not_at_head in *. by destruct u. }
      assert (trim_byte_left c (rev (u ++ repeat c n)) = rev u) as ->; [|apply rev_involutive].
      apply trim_byte_left_spec. exists n. split; [|done]. by rewrite rev_app_distr, repeat_rev.
Qed.

(** * Lines *)

(** A line of a table begins with a bar. *)
Definition bar (l : str) : Prop := ∃ t, l = 124 :: t.
(** The cells of a line: what is between its bars, the bars at its two ends
    and the white space around each cell left out. *)
Definition cells_of (l : str) (cells : list str) : Prop :=
  ∃ m n ps, TrimSpace l = repeat 124 m ++ join [124] ps ++ repeat 124 n ∧
    not_at_head 124 (join [124] ps) ∧ not_at_head 124 (rev (join [124] ps)) ∧
    ps ≠ [] ∧ Forall (λ p, 124 ∉ p) ps ∧ cells = TrimSpace <$> ps.
(** Capitals, a hyphen, digits. *)
Definition checkpoint_id (s : str) : Prop :=
  ∃ u d, s = u ++ 45 :: d ∧ u ≠ [] ∧ d ≠ [] ∧ Forall (λ c, 65 <= c <= 90) u ∧ Forall (λ c, 48 <= c <= 57) d.

Definition checkpoint_header (l : str) : Prop := bar l ∧ ∃ cs, cells_of l (cs ++ [text "测试"; text "说明"]).
Definition regression_header (l : str) : Prop :=
  bar l ∧ ¬ checkpoint_header l ∧ ∃ cs, cells_of l (text "ID" :: cs) ∧ text "问题" ∈ cs.

(** The header [h] stands above line [i], and the lines from the header on are
    lines of one table. *)
Definition above (header : str → Prop) (lines : list str) (i : nat) (h : str) : Prop :=
  ∃ j, (j < i)%nat ∧ lines !! j = Some h ∧ header h ∧ ∀ k x, (j <= k < i)%nat → lines !! k = Some x → bar x.
Definition below (header : str → Prop) (lines : list str) (i : nat) : Prop := ∃ h, above header lines i h.

(** A line with an id for its first cell, which is no header. *)
Definition id_line (l : str) (id : str) (cells : list str) : Prop :=
  bar l ∧ cells_of l cells ∧ head cells = Some id ∧ checkpoint_id id ∧ ¬ checkpoint_header l.

Definition checkpoint_row (lines : list str) (i : nat) (id : str) (cells : list str) : Prop :=
  ∃ l, lines !! i = Some l ∧ id_line l id cells ∧ below checkpoint_header lines i.
(** A line of the regression table refers to the ids in its fourth cell. *)
Definition reference (lines : list str) (i : nat) (x : str) : Prop :=
  ∃ l id cells c, lines !! i = Some l ∧ id_line l id cells ∧ below regression_header lines i ∧
    cells !! 3%nat = Some c ∧ x ∈ FindAllString c.

(** ** The code's tests of a line *)

Lemma bar_spec l : HasPrefix l (text "|") = true ↔ bar l.
Proof. apply HasPrefix_spec. Qed.

Lemma split_spec l cells : split l = cells ↔ cells_of l cells.
Proof.
  unfold split, cells_of. split.
  - intros <-. destruct (proj1 (Trim_spec 124 (TrimSpace l) _) eq_refl) as (m & n & E & H1 & H2).
    exists m, n, (split_on 124 (Trim 124 (TrimSpace l))). rewrite join_split.
    split_and!; try done; [apply split_on_nonempty|apply split_on_free].
  - intros (m & n & ps & E & H1 & H2 & Hne & Hf & ->).
    rewrite (proj2 (Trim_spec 124 _ (join [124] ps))) by eauto. by rewrite split_join.
Qed.

Lemma span_spec f s a b : span f s = (a, b) ↔ s = a ++ b ∧ Forall (λ c, f c = true) a ∧ ∀ c, head b = Some c → f c = false.
Proof.
  revert a b. induction s as [|x s IH]; intros a b; simpl.
  { split; [intros [= <- <-]; split_and!; try done; by constructor|]. intros (H & _). by destruct a, b. }
  destruct (f x) eqn:Ex.
  - destruct (span f s) as [a' b'] eqn:Es. destruct (proj1 (IH a' b') eq_refl) as (-> & Ha & Hb). split.
    + intros [= <- <-]. split_and!; [done|by constructor|done].
    + intros (E & Fa & Fb). destruct a as [|y a]; simpl in E.
      { subst b. specialize (Fb x eq_refl). congruence. }
      injection E as <- E. apply Forall_cons in Fa as [_ Fa].
      assert ((a', b') = (a, b)) as [= -> ->]; [|done]. apply IH. by split_and!.
  - split.
    + intros [= <- <-]. split_and!; [done|constructor|]. by intros c [= <-].
    + intros (E & Fa & Fb). destruct a as [|y a]; simpl in E; [by subst b|]. injection E as <- E.
      apply Forall_cons in Fa as [Fa _]. congruence.
Qed.

Lemma is_upper_spec c : is_upper c = true ↔ 65 <= c <= 90.
Proof. unfold is_upper. rewrite andb_true_iff, !Z.leb_le. done. Qed.
Lemma is_digit_spec c : is_digit c = true ↔ 48 <= c <= 57.
Proof. unfold is_digit. rewrite andb_true_iff, !Z.leb_le. done. Qed.

Lemma idRe_spec s : idRe s = true ↔ checkpoint_id s.
Proof.
  unfold idRe, match_id, checkpoint_id. split.
  - destruct (span is_upper s) as [u r] eqn:Eu. apply span_spec in Eu as (-> & Hu & _).
    destruct u as [|x u]; [done|]. destruct r as [|y r]; [done|].
    destruct (decide (y = 45)) as [->|Hne]; [|by destruct y as [|p|p]; try done; repeat (destruct p as [p|p|]; try done)].
    destruct (span is_digit r) as [d r2] eqn:Ed. apply span_spec in Ed as (-> & Hd & _).
    destruct d as [|z d]; [done|]. destruct r2; [|done]. intros _. exists (x :: u), (z :: d).
    rewrite app_nil_r. split_and!; try done; eapply Forall_impl; try done; intros c; [apply is_upper_spec|apply is_digit_spec].
  - intros (u & d & -> & Hu & Hd & Fu & Fd).
    rewrite (proj2 (span_spec is_upper (u ++ 45 :: d) u (45 :: d))).
    2: { split_and!; [done|eapply Forall_impl; [exact Fu|]; intros c; apply is_upper_spec|by intros c [= <-]]. }
    destruct u as [|x u]; [done|]. rewrite (proj2 (span_spec is_digit d d [])).
    2: { split_and!; [by rewrite app_nil_r|eapply Forall_impl; [exact Fd|]; intros c; apply is_digit_spec|done]. }
    by destruct d.
Qed.

(** [from_end] counts from the last cell. *)
Lemma from_end_app a b : from_end (length b) (a ++ b) = (match b with [] => None | _ => head b end).
Proof.
  unfold from_end. rewrite length_app, (proj2 (Nat.leb_le _ _)) by lia.
  replace (length a + length b - length b)%nat with (length a + 0)%nat by lia.
  rewrite lookup_app_r, Nat.add_sub_swap, Nat.sub_diag by lia. by destruct b.
Qed.

Lemma last_two cells x y :
  from_end 2 cells = Some x ∧ from_end 1 cells = Some y ↔ ∃ cs, cells = cs ++ [x; y].
Proof.
  split.
  - intros [H2 H1]. unfold from_end in *. case_match eqn:E2; [|done]. case_match eqn:E1; [|done].
    apply Nat.leb_le in E1, E2. exists (take (length cells - 2) cells).
    rewrite <- (take_drop (length cells - 2) cells) at 1. f_equal.
    rewrite (drop_S _ _ _ H2). f_equal. replace (S (length cells - 2)) with (length cells - 1)%nat by lia.
    rewrite (drop_S _ _ _ H1). f_equal. apply drop_ge. lia.
  - intros [cs ->]. split; [apply (from_end_app cs [x; y])|].
    replace (cs ++ [x; y]) with ((cs ++ [x]) ++ [y]) by (by rewrite <- app_assoc). apply (from_end_app (cs ++ [x]) [y]).
Qed.

Lemma is_header_spec l : bar l → is_header (split l) = true ↔ checkpoint_header l.
Proof.
  intros Hb. unfold is_header, checkpoint_header. rewrite bool_decide_eq_true, last_two.
  setoid_rewrite <- split_spec. naive_solver.
Qed.
Lemma is_regression_spec l : bar l → is_header (split l) = false → is_regression (split l) = true ↔ regression_header l.
Proof.
  intros Hb Hh. unfold is_regression, contains, regression_header.
  rewrite <- (is_header_spec l Hb), andb_true_iff, !bool_decide_eq_true. setoid_rewrite <- split_spec.
  rewrite Hh. destruct (split l) as [|c cs]; simpl; [naive_solver|]. split.
  - intros [[= ->] H%elem_of_cons]. destruct H as [H|H]; [by vm_compute in H|]. naive_solver.
  - intros (_ & _ & cs' & [= -> ->] & H). split; [done|by right].
Qed.

(** * Positions *)

(** The flags of parseDoc's loop before line [i]. *)
Definition flags_from (st : bool * bool) (pre : list str) : bool * bool := foldl (λ st l, (parse_line st 0 l).1.1) st pre.

Lemma parse_line_flags st i l : (parse_line st i l).1.1 = (parse_line st 0 l).1.1.
Proof.
  unfold parse_line. destruct st as [cp reg]. repeat (case_match; simpl; try done).
Qed.

(** One turn of the loop, in terms of the line. *)
Lemma parse_line_state st i l :
  ((parse_line st i l).1.1.1 = true ↔ bar l ∧ (checkpoint_header l ∨ st.1 = true)) ∧
  ((parse_line st i l).1.1.2 = true ↔ bar l ∧ (regression_header l ∨ st.2 = true)).
Proof.
  unfold parse_line. destruct st as [cp reg]. destruct (HasPrefix l (text "|")) eqn:Hb; simpl.
  2: { apply not_true_iff_false in Hb. rewrite bar_spec in Hb. naive_solver. }
  apply bar_spec in Hb. pose proof (is_header_spec l Hb) as Hh. pose proof (is_regression_spec l Hb) as Hr.
  destruct (is_header (split l)) eqn:E; simpl.
  { split; [naive_solver|]. unfold regression_header. naive_solver. }
  specialize (Hr eq_refl). destruct (is_regression (split l)) eqn:E'; simpl; [naive_solver|].
  destruct (idRe _); simpl; naive_solver.
Qed.

Lemma id_line_spec l id cells : id_line l id cells ↔
  bar l ∧ is_header (split l) = false ∧ is_regression (split l) = false ∧
  idRe (default [] (split l !! 0%nat)) = true ∧ cells = split l ∧ id = default [] (split l !! 0%nat).
Proof.
  unfold id_line. rewrite <- split_spec, <- idRe_spec. split.
  - intros (Hb & <- & Hh & Hid & Hn). rewrite <- (is_header_spec l Hb) in Hn. apply not_true_is_false in Hn.
    assert (split l !! 0%nat = Some id) as E by (by destruct (split l)). rewrite E. simpl. split_and!; try done.
    unfold is_regression. rewrite E. case_bool_decide as Hx; [|done]. injection Hx as ->. by vm_compute in Hid.
  - intros (Hb & Hh & _ & Hid & -> & ->). split_and!; try done; [by destruct (split l)|].
    rewrite <- (is_header_spec l Hb). congruence.
Qed.

(** The row of a line, if it has one, and its references. *)
Lemma parse_line_row_spec st i l r :
  (parse_line st i l).1.2 = Some r ↔
  id_line l (ID r) (Cells r) ∧ st.1 = true ∧ Line r = i ∧ Status r = statusOf (Cells r).
Proof.
  rewrite id_line_spec, <- bar_spec. unfold parse_line. destruct st as [cp reg], r as [ln cs id s]. simpl.
  destruct (HasPrefix l (text "|")); simpl; [|naive_solver]. destruct (is_header (split l)); simpl; [naive_solver|].
  destruct (is_regression (split l)); simpl; [naive_solver|]. destruct (idRe _); simpl; [|naive_solver].
  destruct cp; naive_solver.
Qed.

Lemma parse_line_refs_spec st i l x :
  x ∈ (parse_line st i l).2 ↔
  ref_line x = i ∧ st.2 = true ∧ ∃ id cells c, id_line l id cells ∧ cells !! 3%nat = Some c ∧ ref_id x ∈ FindAllString c.
Proof.
  setoid_rewrite id_line_spec. setoid_rewrite <- bar_spec. unfold parse_line. destruct st as [cp reg], x as [xid ln]. simpl.
  destruct (HasPrefix l (text "|")); simpl; [|set_solver]. destruct (is_header (split l)); simpl; [set_solver|].
  destruct (is_regression (split l)); simpl; [set_solver|]. destruct (idRe _); simpl; [|set_solver].
  destruct reg; simpl; [|set_solver].
  change (match length (split l) with S (S (S (S _))) => true | _ => false end) with (4 <=? length (split l))%nat.
  destruct (Nat.leb_spec 4 (length (split l))) as [Hl|Hl].
  - destruct (lookup_lt_is_Some_2 (split l) 3) as [c Hc]; [lia|]. rewrite Hc, list_elem_of_fmap. cbn [default from_option id]. split.
    + intros (y & [= -> ->] & Hy). split_and!; try done. by exists (default [] (split l !! 0%nat)), (split l), c.
    + intros (-> & _ & _ & _ & c' & (_ & _ & _ & _ & -> & _) & Hc' & Hx). exists xid. split; [done|]. congruence.
  - split; [by intros ?%elem_of_nil|]. intros (_ & _ & id & cells & c & (_ & _ & _ & _ & -> & _) & Hc & _).
    apply lookup_lt_Some in Hc. lia.
Qed.

Lemma below_0 H lines : ¬ below H lines 0.
Proof. intros (h & j & ? & _). lia. Qed.
Lemma below_S H lines i l : lines !! i = Some l →
  below H lines (S i) ↔ bar l ∧ (H l ∨ below H lines i).
Proof.
  intros Hl. split.
  - intros (h & j & Hj & Hh & HH & Hb). split; [apply (Hb i); [lia|done]|].
    destruct (decide (j = i)) as [->|Hne]; [left; congruence|]. right. exists h, j. split_and!; try done; [lia|].
    intros k x Hk. apply Hb. lia.
  - intros [Hbar [HH|(h & j & Hj & Hh & HH & Hb)]].
    + exists l, i. split_and!; try done; [lia|]. intros k x Hk Hx. assert (k = i) as -> by lia. congruence.
    + exists h, j. split_and!; try done; [lia|]. intros k x Hk Hx. destruct (decide (k = i)) as [->|]; [congruence|].
      apply (Hb k); [lia|done].
Qed.

(** The flags say which headers a line is below. *)
Lemma flags_below lines i : (i <= length lines)%nat →
  let st := flags_from (false, false) (take i lines) in
  (st.1 = true ↔ below checkpoint_header lines i) ∧ (st.2 = true ↔ below regression_header lines i).
Proof.
  induction i as [|i IH]; intros Hi st.
  { split; (split; [done|]); intros []%below_0. }
  destruct (lookup_lt_is_Some_2 lines i) as [l Hl]; [lia|]. destruct IH as [IH1 IH2]; [lia|].
  unfold st, flags_from. rewrite (take_S_r _ _ _ Hl), foldl_app. simpl.
  fold (flags_from (false, false) (take i lines)). destruct (parse_line_state (flags_from (false, false) (take i lines)) 0 l) as [E1 E2].
  rewrite E1, E2, !(below_S _ _ _ _ Hl), IH1, IH2. done.
Qed.

(** The checkpoint rows in the order of their lines, and the references. *)
Fixpoint emitted (st : bool * bool) (i : nat) (lines : list str) : list Row :=
  match lines with
  | [] => []
  | l :: rest =>
      let '(st', row, _) := parse_line st i l in option_list row ++ emitted st' (S i) rest
  end.
Fixpoint referred (st : bool * bool) (i : nat) (lines : list str) : list regRef :=
  match lines with
  | [] => []
  | l :: rest => let '(st', _, rs) := parse_line st i l in rs ++ referred st' (S i) rest
  end.
Definition add_row (rows : gmap str Row) (r : Row) : gmap str Row := <[ID r := r]> rows.

Lemma parse_loop_eq st i lines rows refs :
  parse_loop st i lines rows refs = (foldl add_row rows (emitted st i lines), refs ++ referred st i lines).
Proof.
  revert st i rows refs. induction lines as [|l lines IH]; intros st i rows refs; [by rewrite app_nil_r|]. simpl.
  destruct (parse_line st i l) as [[st' row] rs]. rewrite IH, <- app_assoc. by destruct row.
Qed.

Definition rows_of (lines : list str) : gmap str Row := foldl add_row ∅ (emitted (false, false) 0 lines).
Lemma parseDoc_eq lines : parseDoc lines = (rows_of lines, referred (false, false) 0 lines).
Proof. apply parse_loop_eq. Qed.

Lemma emitted_at st i lines r :
  r ∈ emitted st i lines ↔
  ∃ k l, lines !! k = Some l ∧ (parse_line (flags_from st (take k lines)) (i + k) l).1.2 = Some r.
Proof.
  revert st i. induction lines as [|l lines IH]; intros st i; simpl.
  { split; [by intros ?%elem_of_nil|]. by intros (? & ? & ? & _). }
  pose proof (parse_line_flags st i l) as Ef. destruct (parse_line st i l) as [[st' row] rs] eqn:E. simpl in Ef. subst st'.
  rewrite elem_of_app, IH. split.
  - intros [Hr|(k & x & Hk & Hr)].
    + exists 0%nat, l. split; [done|]. rewrite Nat.add_0_r. simpl. rewrite E. simpl.
      destruct row; [|by apply elem_of_nil in Hr]. by apply list_elem_of_singleton in Hr as ->.
    + exists (S k), x. split; [done|]. by replace (i + S k)%nat with (S i + k)%nat by lia.
  - intros ([|k] & x & Hk & Hr); simpl in Hk, Hr.
    + injection Hk as <-. rewrite Nat.add_0_r, E in Hr. simpl in Hr. subst row. left. by left.
    + right. exists k, x. split; [done|]. by replace (S i + k)%nat with (i + S k)%nat by lia.
Qed.
Lemma referred_at st i lines x :
  x ∈ referred st i lines ↔
  ∃ k l, lines !! k = Some l ∧ x ∈ (parse_line (flags_from st (take k lines)) (i + k) l).2.
Proof.
  revert st i. induction lines as [|l lines IH]; intros st i; simpl.
  { split; [by intros ?%elem_of_nil|]. by intros (? & ? & ? & _). }
  pose proof (parse_line_flags st i l) as Ef. destruct (parse_line st i l) as [[st' row] rs] eqn:E. simpl in Ef. subst st'.
  rewrite elem_of_app, IH. split.
  - intros [Hr|(k & y & Hk & Hr)].
    + exists 0%nat, l. split; [done|]. rewrite Nat.add_0_r. simpl. by rewrite E.
    + exists (S k), y. split; [done|]. by replace (i + S k)%nat with (S i + k)%nat by lia.
  - intros ([|k] & y & Hk & Hr); simpl in Hk, Hr.
    + injection Hk as <-. rewrite Nat.add_0_r, E in Hr. by left.
    + right. exists k, y. split; [done|]. by replace (S i + k)%nat with (i + S k)%nat by lia.
Qed.

(** The loop finds the checkpoint rows of the document and no other lines. *)
Lemma emitted_spec lines r :
  r ∈ emitted (false, false) 0 lines ↔
  checkpoint_row lines (Line r) (ID r) (Cells r) ∧ Status r = statusOf (Cells r).
Proof.
  rewrite emitted_at. unfold checkpoint_row. simpl. split.
  - intros (k & l & Hl & Hr). apply parse_line_row_spec in Hr as (Hid & Hst & -> & ?). split; [|done].
    exists l. split_and!; try done. by apply flags_below in Hst; [|apply lookup_lt_Some in Hl; lia].
  - intros [(l & Hl & Hid & Hb) Hs]. exists (Line r), l. split; [done|]. apply parse_line_row_spec.
    split_and!; try done. apply flags_below; [apply lookup_lt_Some in Hl; lia|done].
Qed.
Lemma referred_spec lines x : x ∈ referred (false, false) 0 lines ↔ reference lines (ref_line x) (ref_id x).
Proof.
  rewrite referred_at. unfold reference. simpl. split.
  - intros (k & l & Hl & Hr). apply parse_line_refs_spec in Hr as (-> & Hst & id & cells & c & ? & ? & ?).
    exists l, id, cells, c. split_and!; try done. by apply flags_below in Hst; [|apply lookup_lt_Some in Hl; lia].
  - intros (l & id & cells & c & Hl & Hid & Hb & Hc & Hx). exists (ref_line x), l. split; [done|].
    apply parse_line_refs_spec. split_and!; [done| |by exists id, cells, c].
    apply flags_below; [apply lookup_lt_Some in Hl; lia|done].
Qed.

(** Rows come in the order of their lines, so of two rows with one id the map
    keeps the lower. *)
Lemma emitted_sorted st i lines : StronglySorted (λ r r', (Line r < Line r')%nat) (emitted st i lines).
Proof.
  revert st i. induction lines as [|l lines IH]; intros st i; simpl; [constructor|].
  destruct (parse_line st i l) as [[st' row] rs] eqn:E. destruct row as [r|]; [|apply IH]. simpl. constructor; [apply IH|].
  apply Forall_forall. intros r' (k & x & Hx & Hr)%emitted_at.
  apply parse_line_row_spec in Hr as (_ & _ & -> & _).
  assert ((parse_line st i l).1.2 = Some r) as (_ & _ & -> & _)%parse_line_row_spec by (by rewrite E). lia.
Qed.

Lemma add_rows_spec rs rows id r : StronglySorted (λ r r', (Line r < Line r')%nat) rs →
  foldl add_row rows rs !! id = Some r ↔
  (r ∈ rs ∧ ID r = id ∧ ∀ r', r' ∈ rs → ID r' = id → (Line r' <= Line r)%nat) ∨
  (rows !! id = Some r ∧ ∀ r', r' ∈ rs → ID r' ≠ id).
Proof.
  intros Hs. revert rows. induction Hs as [|x rs Hs IH Hx]; intros rows; simpl; [set_solver|].
  rewrite Forall_forall in Hx. rewrite IH. unfold add_row. setoid_rewrite elem_of_cons.
  destruct (decide (ID x = id)) as [<-|Hne].
  - rewrite lookup_insert_eq. split.
    + intros [(H1 & H2 & H3)|[[= ->] H]]; left.
      * split_and!; auto. intros r' [->|]; [|auto]. specialize (Hx r H1). lia.
      * split_and!; auto. intros r' [->|H1] E; [done|]. by destruct (H r').
    + intros [([->|H1] & H2 & H3)|[_ H]]; [|left; split_and!; auto|by destruct (H x (or_introl eq_refl))].
      right. split; [done|]. intros r' H1 E. specialize (H3 r' (or_intror H1) E). specialize (Hx r' H1). lia.
  - rewrite lookup_insert_ne by done. naive_solver.
Qed.

Lemma rows_of_spec lines id r :
  rows_of lines !! id = Some r ↔
  checkpoint_row lines (Line r) id (Cells r) ∧ ID r = id ∧ Status r = statusOf (Cells r) ∧
  ∀ i cells, checkpoint_row lines i id cells → (i <= Line r)%nat.
Proof.
  unfold rows_of. rewrite add_rows_spec by apply emitted_sorted. rewrite lookup_empty. split.
  - intros [(Hr & <- & Hmax)|[? _]]; [|done]. apply emitted_spec in Hr as [Hr Hs]. split_and!; try done.
    intros i cells Hi. apply (Hmax (mkRow i cells (ID r) (statusOf cells))); [|done]. by apply emitted_spec.
  - intros (Hr & <- & Hs & Hmax). left. split_and!; [by apply emitted_spec|done|].
    intros r' [Hr' _]%emitted_spec E. rewrite E in Hr'. by eapply Hmax.
Qed.
Lemma rows_of_None lines id : rows_of lines !! id = None ↔ ∀ i cells, ¬ checkpoint_row lines i id cells.
Proof.
  split.
  - intros Hn i cells Hi.
    assert (mkRow i cells id (statusOf cells) ∈ emitted (false, false) 0 lines) as Hr by (by apply emitted_spec).
    assert (∀ rs rows, (∃ r, r ∈ rs ∧ ID r = id) ∨ is_Some (rows !! id) → is_Some (foldl add_row rows rs !! id)) as Hf.
    { induction rs as [|x rs IH]; intros rows; simpl; [intros [(r & H & _)|]; [by apply elem_of_nil in H|done]|].
      intros H. apply IH. unfold add_row. destruct (decide (ID x = id)) as [<-|Hne]; [right; by rewrite lookup_insert_eq|].
      rewrite lookup_insert_ne by done. setoid_rewrite elem_of_cons in H. naive_solver. }
    unfold rows_of in Hn. destruct (Hf (emitted (false, false) 0 lines) ∅) as [r E]; [|congruence].
    left. by exists (mkRow i cells id (statusOf cells)).
  - intros H. destruct (rows_of lines !! id) as [r|] eqn:E; [|done]. apply rows_of_spec in E as [E _]. by destruct (H _ _ E).
Qed.

(** The status is the third cell from the end. *)
Definition status_is (cells : list str) (s : str) : Prop :=
  (∃ cs a b, cells = cs ++ [s; a; b]) ∨ (length cells < 3)%nat ∧ s = [].

Lemma statusOf_spec cells s : statusOf cells = s ↔ status_is cells s.
Proof.
  unfold statusOf, status_is. destruct (decide (3 <= length cells)%nat) as [H|H].
  - assert (∃ cs x a b, cells = cs ++ [x; a; b]) as (cs & x & a & b & ->).
    { exists (take (length cells - 3) cells). destruct (drop (length cells - 3) cells) as [|x [|a [|b [|]]]] eqn:E;
        apply (f_equal length) in E as El; rewrite length_drop in El; simpl in El; try lia.
      exists x, a, b. by rewrite <- E, take_drop. }
    change (from_end 3 (cs ++ [x; a; b])) with (from_end (length [x; a; b]) (cs ++ [x; a; b])).
    rewrite from_end_app. simpl. split.
    + intros <-. left. eauto.
    + intros [(cs' & a' & b' & E)|[Hl _]]; [|rewrite length_app in Hl; simpl in Hl; lia].
      apply app_inj_2 in E as [_ E]; [congruence|done].
  - unfold from_end. rewrite (proj2 (Nat.leb_gt _ _)) by lia. simpl. split.
    + intros <-. right. split; [lia|done].
    + intros [(cs & a & b & ->)|[_ ->]]; [|done]. rewrite length_app in H. simpl in H. lia.
Qed.

(** C40: parseDoc finds exactly the checkpoint rows of the document and the
    references of the regression table. Under an id it files the lowest line
    that begins with a bar, has the id for its first cell, is no header, and
    has a header ending in the two cells for tests and note above it with
    nothing but lines of the table between; with the cells of that line and the
    third cell from the end for the status. An id without such a line is not in
    the map. A reference is an id in the fourth cell of a line of a regression
    table. *)
Theorem parseDoc_exact lines :
  (∀ id r, (parseDoc lines).1 !! id = Some r ↔
     checkpoint_row lines (Line r) id (Cells r) ∧ ID r = id ∧ status_is (Cells r) (Status r) ∧
     ∀ i cells, checkpoint_row lines i id cells → (i <= Line r)%nat) ∧
  (∀ id, (parseDoc lines).1 !! id = None ↔ ∀ i cells, ¬ checkpoint_row lines i id cells) ∧
  (∀ x, x ∈ (parseDoc lines).2 ↔ reference lines (ref_line x) (ref_id x)).
Proof.
  rewrite parseDoc_eq. split_and!; [|apply rows_of_None|apply referred_spec].
  intros id r. simpl. rewrite rows_of_spec, <- statusOf_spec. naive_solver.
Qed.

(** Three tables: one without the columns of checkpoints, one of checkpoints
    with an id twice, and one of regressions. *)
Definition sample_header : list str := [text "| ID | 检查点 | 状态 | 测试 | 说明 |"; text "|---|---|---|---|---|"].
Definition three_tables : list str :=
  [text "| ID | note |"; text "|---|---|"; text "| UDP-9 | no row |"; []] ++ sample_header ++
  [text "| UDP-1 | open | ❌ | | |"; text "| UDP-1 | read | ✅ | `udp.Read` | |"; text "text";
   text "| ID | 问题 | fixed | checks |"; text "| REG-1 | x | y | UDP-1, UDP-7 |"].

Lemma parseDoc_exact_witness :
  checkpoint_row three_tables 7 (text "UDP-1") [text "UDP-1"; text "read"; text "✅"; text "`udp.Read`"; []] ∧
  (∀ i cells, ¬ checkpoint_row three_tables i (text "UDP-9") cells) ∧
  reference three_tables 10 (text "UDP-7").
Proof.
  destruct (parseDoc_exact three_tables) as (Hs & Hn & Hr). split_and!.
  - apply (Hs (text "UDP-1") (mkRow 7 [text "UDP-1"; text "read"; text "✅"; text "`udp.Read`"; []] (text "UDP-1") (text "✅"))).
    vm_compute. reflexivity.
  - apply Hn. vm_compute. reflexivity.
  - apply (Hr (mkRef (text "UDP-7") 10)). apply (list_elem_of_lookup_2 _ 1%nat). vm_compute. reflexivity.
Defined.
