(* ===== verification/TestdocTree.v ===== *)
(** What testdoc's two walks of the repository have to find, stated on paths
    without the walks: the test functions, and the packages with their design
    documents; and that the walks find exactly that. *)
From S2P Require Import Prelude Text Testdoc TestdocSpec.

Local Open Scope Z_scope.

(** * Paths *)

(** The directory at a path below [top] and its entries. *)
Inductive dir_at : list node → list str → list node → Prop :=
  | dir_top top : dir_at top [] top
  | dir_sub top name children path ns :
      Dir name children ∈ top → dir_at children path ns → dir_at top (name :: path) ns.
Definition node_at (top : list node) (path : list str) (name : str) (n : node) : Prop :=
  ∃ ns, dir_at top path ns ∧ n ∈ ns ∧ node_name n = name.

(** A directory holds each name once, and a name has no slash. *)
Fixpoint tree_ok (n : node) : bool :=
  bool_decide (47 ∉ node_name n) &&
  (match n with
  | File _ _ _ => true
  | Dir _ children => bool_decide (NoDup (node_name <$> children)) && forallb tree_ok children
  end).
Definition top_ok (top : list node) : Prop :=
  NoDup (node_name <$> top) ∧ Forall (λ n, tree_ok n = true) top.


Lemma tree_ok_Dir name children : tree_ok (Dir name children) = true ↔ (47 ∉ name) ∧ top_ok children.
Proof.
  cbn [tree_ok node_name]. rewrite !andb_true_iff, !bool_decide_eq_true. unfold top_ok.
  by rewrite forallb_forall, Forall_forall; setoid_rewrite list_elem_of_In.
Qed.
Lemma top_ok_sub top name children : top_ok top → Dir name children ∈ top → (47 ∉ name) ∧ top_ok children.
Proof. intros [_ H] Hn. rewrite Forall_forall in H. by apply tree_ok_Dir, H. Qed.
Lemma top_ok_name top n : top_ok top → n ∈ top → 47 ∉ node_name n.
Proof.
  intros [_ H] Hn. rewrite Forall_forall in H. specialize (H n Hn). destruct n; cbn [tree_ok] in H;
    by apply andb_true_iff in H as [H%bool_decide_eq_true _].
Qed.

Lemma dir_at_ok top path ns : dir_at top path ns → top_ok top → Forall (λ x, 47 ∉ x) path ∧ top_ok ns.
Proof.
  induction 1 as [|top name children path ns Hn _ IH]; intros Ht; [done|].
  destruct (top_ok_sub _ _ _ Ht Hn) as [? [? ?]%IH]. split; [by constructor|done].
Qed.

Fixpoint node_ind' (P : node → Prop) (HD : ∀ name children, Forall P children → P (Dir name children))
    (HF : ∀ name raw ast, P (File name raw ast)) (n : node) : P n :=
  match n with
  | Dir name children =>
      HD name children ((fix go ns : Forall P ns :=
        match ns with [] => Forall_nil_2 P | n :: ns' => Forall_cons_2 P n ns' (node_ind' P HD HF n) (go ns') end) children)
  | File name raw ast => HF name raw ast
  end.

(** ** The code's look-ups *)

Lemma find_name top name n : NoDup (node_name <$> top) →
  (∃ i, list_find (λ n, node_name n = name) top = Some (i, n)) ↔ n ∈ top ∧ node_name n = name.
Proof.
  intros Hd. split.
  - intros [i (Hi & Hn & _)%list_find_Some]. split; [|done]. by eapply list_elem_of_lookup_2.
  - intros [Hn E]. apply list_elem_of_lookup_1 in Hn as [i Hi]. exists i. apply list_find_Some. split_and!; [done..|].
    intros j m Hj Hlt E'. assert (j = i); [|lia].
    eapply (NoDup_lookup _ j i (node_name n)); [exact Hd|rewrite list_lookup_fmap, Hj; simpl; congruence|].
    by rewrite list_lookup_fmap, Hi.
Qed.

Lemma lookup_path_spec top path name n : top_ok top →
  lookup_path top (path ++ [name]) = Some n ↔ node_at top path name n.
Proof.
  unfold node_at. revert top. induction path as [|p path IH]; intros top Ht; simpl.
  - pose proof (find_name top name n (proj1 Ht)) as Hf. split.
    + destruct (list_find _ top) as [[i m]|] eqn:E; [|done]. intros [= <-]. exists top. split; [constructor|].
      apply Hf. eauto.
    + intros (ns & Hd & Hn). inversion Hd; subst. apply Hf in Hn as [i ->]. done.
  - split.
    + destruct (list_find _ top) as [[i m]|] eqn:E; [|done]. simpl.
      assert (m ∈ top ∧ node_name m = p) as [Hm <-] by (apply (find_name top p m (proj1 Ht)); eauto).
      destruct m as [q children|]; [|destruct (path ++ [name]) eqn:Ep; [by destruct path|done]].
      destruct (top_ok_sub _ _ _ Ht Hm) as [_ Hc].
      assert (lookup_path children (path ++ [name]) = Some n → ∃ ns, dir_at top (q :: path) ns ∧ n ∈ ns ∧ node_name n = name) as H.
      { intros (ns & ? & ?)%(IH children Hc). exists ns. split; [|done]. by econstructor. }
      destruct (path ++ [name]) eqn:Ep; [by destruct path|exact H].
    + intros (ns & Hd & Hn). inversion Hd as [|? q children ? ? Hq Hd' E1 E2]; subst.
      destruct (proj2 (find_name top p (Dir p children) (proj1 Ht))) as [i ->]; [done|]. simpl.
      destruct (top_ok_sub _ _ _ Ht Hq) as [_ Hc].
      assert (lookup_path children (path ++ [name]) = Some n) as H by (apply IH; eauto).
      destruct (path ++ [name]) eqn:Ep; [by destruct path|exact H].
Qed.

Lemma exists_spec top path name : top_ok top → exists_ top (path ++ [name]) = true ↔ ∃ n, node_at top path name n.
Proof.
  intros Ht. unfold exists_. rewrite bool_decide_eq_true. unfold is_Some. by setoid_rewrite (lookup_path_spec top path name _ Ht).
Qed.

Lemma read_file_contains top path name sub : top_ok top → sub ≠ [] →
  Contains (read_file top (path ++ [name])) sub = true ↔
  ∃ raw ast a b, node_at top path name (File name raw ast) ∧ raw = a ++ sub ++ b.
Proof.
  intros Ht Hs. unfold read_file. setoid_rewrite <- (lookup_path_spec top path name _ Ht). rewrite Contains_spec.
  assert (∀ a b, [] ≠ a ++ sub ++ b) as Hne by (intros [|] b; simpl; [by destruct sub|done]).
  destruct (lookup_path top (path ++ [name])) as [n|] eqn:E; [|naive_solver].
  assert (node_name n = name) as En by (apply lookup_path_spec in E as (? & _ & _ & ?); done).
  destruct n as [|m raw ast]; simpl in En; [naive_solver|]. subst m. naive_solver.
Qed.

(** * Test functions *)

(** A test function of a test file outside the directories that are skipped. *)
Definition test_file (name : str) : Prop := ∃ s, name = s ++ text "_test.go".
Definition test_in (top : list node) (t : Test) : Prop :=
  ∃ path ns name raw f d, dir_at top path ns ∧ Forall (λ x, x ≠ text ".git" ∧ x ≠ text "testdata") path ∧
    File name raw (Some f) ∈ ns ∧ test_file name ∧
    d ∈ decls f ∧ test_of (TrimSuffix (pkgName f) (text "_test")) d = Some t.

Lemma HasSuffix_spec s p : HasSuffix s p = true ↔ ∃ t, s = t ++ p.
Proof.
  unfold HasSuffix. rewrite HasPrefix_spec. split; intros [t H].
  - exists (rev t). by rewrite <- (rev_involutive s), H, rev_app_distr, rev_involutive.
  - exists (rev t). by rewrite H, rev_app_distr.
Qed.

Lemma collect_Dir name children :
  collect (Dir name children) =
  if bool_decide (name = text ".git") || bool_decide (name = text "testdata") then Some []
  else mjoin <$> mapM collect children.
Proof.
  simpl. destruct (_ || _); [done|]. induction children as [|n ns IH]; [done|].
  rewrite IH. simpl. destruct (collect n) as [ts|]; [|done]. simpl. by destruct (mapM collect ns).
Qed.

Lemma collect_spec n ts : collect n = Some ts → ∀ t, t ∈ ts ↔
  match n with
  | Dir name children => (name ≠ text ".git" ∧ name ≠ text "testdata") ∧ test_in children t
  | File name _ ast => test_file name ∧ ∃ f d, ast = Some f ∧ d ∈ decls f ∧
      test_of (TrimSuffix (pkgName f) (text "_test")) d = Some t
  end.
Proof.
  revert ts. induction n as [name children IH|name raw ast] using node_ind'; intros ts.
  - rewrite collect_Dir. destruct (_ || _) eqn:E.
    { intros [= <-] t. rewrite orb_true_iff, !bool_decide_eq_true in E. set_solver. }
    rewrite orb_false_iff, !bool_decide_eq_false in E. intros (tss & Em & ->)%fmap_Some t.
    apply mapM_Some in Em. rewrite Forall_forall in IH.
    assert (t ∈ mjoin tss ↔ ∃ n us, n ∈ children ∧ collect n = Some us ∧ t ∈ us) as ->.
    { rewrite list_elem_of_join. split.
      - intros (us & Ht & [i Hi]%list_elem_of_lookup_1). destruct (Forall2_lookup_r _ _ _ _ _ Em Hi) as (n & Hn & ?).
        exists n, us. split_and!; try done. by eapply list_elem_of_lookup_2.
      - intros (n & us & [i Hi]%list_elem_of_lookup_1 & Hc & Ht). destruct (Forall2_lookup_l _ _ _ _ _ Em Hi) as (us' & Hu & Hc').
        exists us. split; [done|]. eapply list_elem_of_lookup_2. rewrite Hu. congruence. }
    unfold test_in. split.
    + intros (n & us & Hn & Hc & Ht). split; [done|]. apply (IH n Hn us Hc) in Ht. destruct n as [m cs|m raw ast].
      * destruct Ht as (Hm & path & ns & x & raw & f & d & Hd & Hp & Hrest). exists (m :: path), ns, x, raw, f, d.
        split; [by econstructor|]. split; [by constructor|done].
      * destruct Ht as (Hm & f & d & -> & ? & ?). exists [], children, m, raw, f, d. split_and!; try done; constructor.
    + intros (_ & path & ns & x & raw & f & d & Hd & Hp & Hx & Ht & Hdd & Hof). inversion Hd as [|? m cs path' ? Hm Hd']; subst.
      * apply list_elem_of_lookup_1 in Hx as Hi. destruct Hi as [i Hi]. destruct (Forall2_lookup_l _ _ _ _ _ Em Hi) as (us & _ & Hc).
        exists (File x raw (Some f)), us. split_and!; try done. apply (IH _ Hx us Hc). split; [done|]. by exists f, d.
      * apply list_elem_of_lookup_1 in Hm as Hi. destruct Hi as [i Hi]. destruct (Forall2_lookup_l _ _ _ _ _ Em Hi) as (us & _ & Hc).
        apply Forall_cons in Hp as [Hp1 Hp]. exists (Dir m cs), us. split_and!; try done. apply (IH _ Hm us Hc). split; [done|].
        by exists path', ns, x, raw, f, d.
  - simpl. destruct (HasSuffix name (text "_test.go")) eqn:E.
    + apply HasSuffix_spec in E. intros (f & -> & ->)%fmap_Some t. unfold file_tests. rewrite list_elem_of_omap.
      unfold test_file. naive_solver.
    + apply not_true_iff_false in E. rewrite HasSuffix_spec in E. intros [= <-] t. unfold test_file. set_solver.
Qed.

(** * Packages and their design documents *)

(** A directory with a Go file that is no test. *)
Definition go_package (ns : list node) : Prop :=
  ∃ name raw ast, File name raw ast ∈ ns ∧ (∃ s, name = s ++ text ".go") ∧ ¬ test_file name.
(** Hidden directories, test data, the examples and the documents. *)
Definition exempt (path : list str) : Prop :=
  Exists (λ x, (∃ s, x = text "." ++ s) ∨ x = text "testdata") path ∨
  head path = Some (text "examples") ∨ head path = Some (text "docs").

Definition design_dir : list str := [text "docs"; text "design"].
(** Where a package is documented. *)
Inductive documented (top : list node) : list str → Prop :=
  | documented_root n : node_at top design_dir (text "runtime.md") n → documented top []
  | documented_internal p path raw ast c a b :
      node_at top design_dir (text "internal.md") (File (text "internal.md") raw ast) →
      c ∈ [32; 10] → raw = a ++ (text "## " ++ join [47] (text "internal" :: p :: path) ++ [c]) ++ b →
      documented top (text "internal" :: p :: path)
  | documented_other path name n :
      (∀ p rest, path ++ [name] ≠ text "internal" :: p :: rest) →
      node_at top (design_dir ++ path) (name ++ text ".md") n → documented top (path ++ [name]).
Definition design_rule (top : list node) : Prop :=
  ∀ path ns, dir_at top path ns → ¬ exempt path → go_package ns → documented top path.

Lemma hasPackage_spec ns : hasPackage ns = true ↔ go_package ns.
Proof.
  unfold hasPackage, go_package, test_file. rewrite existsb_exists. setoid_rewrite <- HasSuffix_spec. split.
  - intros (n & Hn%list_elem_of_In & H). destruct n as [|name raw ast]; [done|]. apply andb_true_iff in H as [? ?%negb_true_iff].
    exists name, raw, ast. split_and!; try done. congruence.
  - intros (name & raw & ast & Hn & H1 & H2%not_true_is_false). exists (File name raw ast).
    split; [by apply list_elem_of_In|]. by rewrite H1, H2.
Qed.

(** A path of names is recovered from its text. *)
Lemma path_split path : path ≠ [] → Forall (λ x, 47 ∉ x) path → split_on 47 (join [47] path) = path.
Proof. apply split_join. Qed.
Lemma rel_str_eq path x : path ≠ [] → Forall (λ x, 47 ∉ x) path → 47 ∉ x → rel_str path = x ↔ path = [x].
Proof.
  intros Hne Hp Hx. assert (rel_str path = join [47] path) as -> by (by destruct path). split.
  - intros E. by rewrite <- (path_split path Hne Hp), E, split_on_none.
  - by intros ->.
Qed.
Lemma rel_str_prefix path x : path ≠ [] → Forall (λ x, 47 ∉ x) path → 47 ∉ x →
  HasPrefix (rel_str path) (x ++ [47]) = true ↔ ∃ p rest, path = x :: p :: rest.
Proof.
  intros Hne Hp Hx. assert (rel_str path = join [47] path) as -> by (by destruct path). rewrite HasPrefix_spec. split.
  - intros [t E]. rewrite <- app_assoc in E. rewrite <- (path_split path Hne Hp), E. simpl. rewrite split_on_app by done.
    destruct (split_on 47 t) as [|p rest] eqn:Et; [by apply split_on_nonempty in Et|]. eauto.
  - intros (p & rest & ->). rewrite join_cons by done. exists (join [47] (p :: rest)). by rewrite <- app_assoc.
Qed.

Lemma exempt_app path path' : exempt path → exempt (path ++ path').
Proof.
  intros [H|H]; [left; by apply Exists_app; left|right]. destruct path; [by destruct H|done].
Qed.

(** The walk skips the first exempt directory on a path. *)
Lemma skip_dir_spec path x : ¬ exempt path → Forall (λ x, 47 ∉ x) (path ++ [x]) →
  skip_dir (path ++ [x]) x = true ↔ exempt (path ++ [x]).
Proof.
  intros Hn Hs. unfold skip_dir. assert (path ++ [x] ≠ []) as Hne by (by destruct path).
  rewrite !orb_true_iff, andb_true_iff, negb_true_iff, !bool_decide_eq_true, bool_decide_eq_false, HasPrefix_spec.
  rewrite !rel_str_eq by (done || (apply (bool_decide_unpack _); vm_compute; exact I)).
  change (text "examples/") with (text "examples" ++ [47]).
  rewrite rel_str_prefix by (done || (apply (bool_decide_unpack _); vm_compute; exact I)).
  unfold exempt. rewrite Exists_app, Exists_cons, Exists_nil. destruct path as [|y path]; simpl.
  - rewrite Exists_nil. generalize (∃ t, x = 46 :: t). intros D. split.
    + intros [[[[[? _]|?]|H]|(p & rest & [=])]|H]; [tauto|tauto|injection H as ->; tauto|injection H as ->; tauto].
    + intros [[[]|[[?|?]|[]]]|[H|H]]; [left; left; left; by left|tauto|injection H as ->; tauto|injection H as ->; tauto].
  - unfold exempt in Hn. simpl in Hn. generalize dependent (∃ t, x = 46 :: t). intros D. split.
    + intros [[[[[? _]|?]|[= _ ?]]|(p & rest & [= -> _])]|[= _ ?]]; [tauto|tauto|by destruct path|tauto|by destruct path].
    + intros [[H|[[?|?]|[]]]|H]; [tauto|left; left; left; by left|tauto|tauto].
Qed.

Section design.
Context (top : list node) (Htop : top_ok top).

Lemma check_package_spec path : Forall (λ x, 47 ∉ x) path → check_package top path = [] ↔ documented top path.
Proof using Htop.
  intros Hp. unfold check_package. case_bool_decide as Hr.
  { subst path. pose proof (exists_spec top design_dir (text "runtime.md") Htop) as He.
    change (design_dir ++ [text "runtime.md"]) with [text "docs"; text "design"; text "runtime.md"] in He.
    destruct (exists_ top _); split; try done.
    - intros _. destruct (proj1 He eq_refl) as [n Hn]. by eapply documented_root.
    - inversion 1 as [n Hn| |x y n _ Hn E]; subst; [assert (false = true) by (apply He; eauto); done|by destruct x]. }
  change (text "internal/") with (text "internal" ++ [47]).
  destruct (HasPrefix (rel_str path) (text "internal" ++ [47])) eqn:Hi.
  - apply rel_str_prefix in Hi; [|done..|apply (bool_decide_unpack _); vm_compute; exact I].
    destruct Hi as (p & rest & ->).
    set (sub c := text "## " ++ rel_str (text "internal" :: p :: rest) ++ [c]).
    assert (∀ c, Contains (read_file top [text "docs"; text "design"; text "internal.md"]) (sub c) = true ↔
      ∃ raw ast a b, node_at top design_dir (text "internal.md") (File (text "internal.md") raw ast) ∧ raw = a ++ sub c ++ b) as Hc.
    { intros c. by apply (read_file_contains top design_dir (text "internal.md") (sub c)). }
    pose proof (Hc 32) as H32. pose proof (Hc 10) as H10. unfold sub in H32, H10. change (text " ") with [32].
    assert (documented top (text "internal" :: p :: rest) ↔ ∃ c raw ast a b, c ∈ [32; 10] ∧
      node_at top design_dir (text "internal.md") (File (text "internal.md") raw ast) ∧ raw = a ++ sub c ++ b) as ->.
    { split.
      - inversion 1 as [|? ? raw ast c a b Hn Hcc E|x y n Hx _ E]; subst; [by exists c, (a ++ sub c ++ b), ast, a, b|].
        by destruct (Hx p rest).
      - intros (c & raw & ast & a & b & ? & ? & ?). by eapply documented_internal. }
    destruct (Contains _ (_ ++ _ ++ [32])) eqn:E1; cbn [negb andb].
    { split; [|done]. intros _. exists 32. destruct (proj1 H32 eq_refl) as (raw & ast & a & b & ?). exists raw, ast, a, b. set_solver. }
    destruct (Contains _ (_ ++ _ ++ [10])) eqn:E2; cbn [negb andb].
    { split; [|done]. intros _. exists 10. destruct (proj1 H10 eq_refl) as (raw & ast & a & b & ?). exists raw, ast, a, b. set_solver. }
    split; [done|]. intros (c & raw & ast & a & b & Hcc & Hx). exfalso. apply list_elem_of_In in Hcc.
    destruct Hcc as [<-|[<-|[]]]; [assert (false = true) by (apply H32; eauto)|assert (false = true) by (apply H10; eauto)]; done.
  - assert (∀ p rest, path ≠ text "internal" :: p :: rest) as Hni.
    { intros p rest E. apply not_true_iff_false in Hi. apply Hi. apply rel_str_prefix; eauto.
      apply (bool_decide_unpack _); vm_compute; exact I. }
    destruct path as [|x path _] using rev_ind; [done|].
    assert (design_path (path ++ [x]) = (design_dir ++ path) ++ [x ++ text ".md"]) as ->.
    { unfold design_path. rewrite rev_app_distr. simpl. by rewrite rev_involutive. }
    pose proof (exists_spec top (design_dir ++ path) (x ++ text ".md") Htop) as He.
    destruct (exists_ top _); split; try done.
    + intros _. destruct (proj1 He eq_refl) as [n Hn]. by eapply documented_other.
    + inversion 1 as [n Hn E|? ? ? ? ? ? ? ? ? ? E|path' x' n _ Hn E]; subst;
        [by destruct path|by destruct (Hni p path0)|].
      apply app_inj_2 in E as [-> [= ->]]; [|done]. assert (false = true) by (apply He; eauto). done.
Qed.

Lemma walk_design_Dir path name children :
  walk_design top path (Dir name children) =
  if skip_dir path name then []
  else (if hasPackage children then check_package top path else []) ++
       (children ≫= λ n, walk_design top (path ++ [node_name n]) n).
Proof using.
  cbn [walk_design]. by destruct (skip_dir path name).
Qed.

Lemma bind_nil {A B} (f : A → list B) xs : xs ≫= f = [] ↔ ∀ x, x ∈ xs → f x = [].
Proof using.
  induction xs as [|x xs IH]; [split; [by intros _ ? ?%elem_of_nil|done]|]. rewrite bind_cons, app_nil, IH.
  setoid_rewrite elem_of_cons. naive_solver.
Qed.

(** Below a directory that is not skipped. *)
Lemma walk_children children path : Forall (λ x, 47 ∉ x) path → top_ok children → ¬ exempt path →
  Forall (λ n, ∀ path, Forall (λ x, 47 ∉ x) path → tree_ok n = true → ¬ exempt path →
    walk_design top (path ++ [node_name n]) n = [] ↔
    ∀ name cs path' ns, n = Dir name cs → dir_at cs path' ns → ¬ exempt (path ++ name :: path') → go_package ns →
      documented top (path ++ name :: path')) children →
  ((if hasPackage children then check_package top path else []) ++
   (children ≫= λ n, walk_design top (path ++ [node_name n]) n) = [] ↔
   ∀ path' ns, dir_at children path' ns → ¬ exempt (path ++ path') → go_package ns → documented top (path ++ path')).
Proof using Htop.
  intros Hp Hc Hn IH. rewrite app_nil, bind_nil. rewrite Forall_forall in IH. split.
  - intros [H1 H2] path' ns Hd He Hg. inversion Hd as [|? m cs q ? Hm Hd']; subst.
    + rewrite app_nil_r. apply hasPackage_spec in Hg. rewrite Hg in H1. by apply check_package_spec.
    + eapply (proj1 (IH _ Hm path Hp (proj1 (Forall_forall _ _) (proj2 Hc) _ Hm) Hn) (H2 _ Hm)); eauto.
  - intros H. split.
    + destruct (hasPackage children) eqn:E; [|done]. apply hasPackage_spec in E. apply check_package_spec; [done|].
      rewrite <- (app_nil_r path). apply (H [] children); [constructor|by rewrite app_nil_r|done].
    + intros n Hm. apply (IH n Hm path Hp (proj1 (Forall_forall _ _) (proj2 Hc) _ Hm) Hn).
      intros name cs path' ns -> Hd He Hg. eapply H; [by econstructor|done..].
Qed.

Lemma walk_design_spec n path : Forall (λ x, 47 ∉ x) path → tree_ok n = true → ¬ exempt path →
  walk_design top (path ++ [node_name n]) n = [] ↔
  ∀ name cs path' ns, n = Dir name cs → dir_at cs path' ns → ¬ exempt (path ++ name :: path') → go_package ns →
    documented top (path ++ name :: path').
Proof using Htop.
  revert path. induction n as [name children IH|name raw ast] using node_ind'; intros path Hp Hok Hn; [|naive_solver].
  apply tree_ok_Dir in Hok as [Hname Hc]. cbn [node_name]. rewrite walk_design_Dir.
  assert (Forall (λ x, 47 ∉ x) (path ++ [name])) as Hp' by (apply Forall_app; split; [done|by constructor]).
  pose proof (skip_dir_spec path name Hn Hp') as Hskip. destruct (skip_dir (path ++ [name]) name).
  - split; [|done]. intros _ ? ? path' ns [= <- <-] _ He _. exfalso. apply He.
    rewrite cons_middle, app_assoc. by apply exempt_app, Hskip.
  - rewrite walk_children by (done || (intros He; by apply Hskip in He)). split.
    + intros H ? ? path' ns [= <- <-]. rewrite cons_middle, app_assoc. apply H.
    + intros H path' ns. rewrite <- app_assoc. by apply H.
Qed.
End design.

(** checkDesignDocs reports nothing exactly when every package is documented. *)
Lemma checkDesignDocs_spec name top : name ≠ text "testdata" → top_ok top →
  checkDesignDocs (Dir name top) = [] ↔ design_rule top.
Proof.
  intros Hname Ht. unfold checkDesignDocs. rewrite walk_design_Dir.
  assert (skip_dir [] name = false) as ->.
  { unfold skip_dir. rewrite (bool_decide_eq_false_2 (name = _)) by done. rewrite andb_false_r. by vm_compute. }
  assert (¬ exempt []) as He by (unfold exempt; rewrite Exists_nil; naive_solver).
  rewrite (walk_children top Ht top []); [done|done|done|done|].
  apply Forall_forall. intros n _ path. by apply walk_design_spec.
Qed.
