(* ===== verification/TestdocThms.v ===== *)
(** What testdoc guarantees: rows are read back as they were written, a
    document that was regenerated is up to date, and a check that finds nothing
    means that the repository keeps the tool's rules. *)
From stdpp Require Import sorting.
From S2P Require Import Prelude Text Testdoc TestdocSpec TestdocTree.

Local Open Scope Z_scope.

(** * Rows are read back as written *)

Lemma trimmed_ends (a b : Z) (s : str) :
  a ∈ [96; 124] → b ∈ [96; 124] → trimmed (a :: s ++ [b]).
Proof.
  assert (∀ x, x ∈ [96; 124] → space1 x = false ∧ (∀ y, space2 x y = false) ∧ (∀ y z, space3 x y z = false) ∧
    (∀ y, space2 y x = false) ∧ (∀ y z, space3 y z x = false)) as H.
  { intros x Hx. apply list_elem_of_In in Hx. destruct Hx as [<-|[<-|[]]]; split_and!; try done;
      intros; unfold space2, space3; simpl; by rewrite ?andb_false_r. }
  intros (H1 & H2 & H3 & _)%H (G1 & _ & _ & G2 & G3)%H. split.
  - unfold begins_left. simpl. rewrite H1. simpl. destruct (s ++ [b]) as [|y [|z]]; try done; by rewrite H2, ?H3.
  - unfold begins_right. rewrite app_comm_cons, rev_app_distr. simpl. rewrite G1. simpl.
    destruct (rev s ++ [a]) as [|y [|z]]; try done; by rewrite G2, ?G3.
Qed.

Definition cell_ok (c : str) : Prop := trimmed c ∧ (124 ∉ c) ∧ (10 ∉ c).

Lemma pad_join cells : cells ≠ [] →
  32 :: join (text " | ") cells ++ [32] = join [124] ((λ c, 32 :: c ++ [32]) <$> cells).
Proof.
  induction cells as [|c cells IH]; [done|]. intros _. destruct cells as [|d cells]; [done|].
  rewrite fmap_cons, join_cons, (join_cons [124]) by done. rewrite <- IH by done.
  change (text " | ") with [32; 124; 32]. simpl. by rewrite <- !app_assoc.
Qed.

Lemma Trim_row (s : str) : Trim 124 (124 :: (32 :: s ++ [32]) ++ [124]) = 32 :: s ++ [32].
Proof.
  unfold Trim. simpl trim_byte_left at 2.
  rewrite app_comm_cons, rev_app_distr. simpl. rewrite rev_app_distr. simpl.
  by rewrite rev_app_distr, rev_involutive.
Qed.

(** Writing a row and splitting it gives its cells back. *)
Lemma split_format cells : cells ≠ [] → Forall cell_ok cells → split (format_row cells) = cells.
Proof.
  intros Hne Hc. unfold split, format_row.
  change (text "| ") with [124; 32]. change (text " |") with [32; 124].
  assert ([124; 32] ++ join (text " | ") cells ++ [32; 124] =
          124 :: (32 :: join (text " | ") cells ++ [32]) ++ [124]) as ->.
  { simpl. by rewrite <- app_assoc. }
  rewrite TrimSpace_id by (apply trimmed_ends; set_solver). rewrite Trim_row, pad_join by done.
  rewrite split_join.
  - rewrite <- list_fmap_compose. rewrite <- (list_fmap_id cells) at 2. apply Forall_fmap_ext.
    eapply Forall_impl; [exact Hc|]. intros c [Ht _]. by apply TrimSpace_pad.
  - by destruct cells.
  - apply Forall_fmap. eapply Forall_impl; [exact Hc|]. intros c (_ & Hb & _). simpl. set_solver.
Qed.

(** What [split] returns. *)
Lemma elem_rev {A} (x : A) l : x ∈ rev l ↔ x ∈ l.
Proof. rewrite !list_elem_of_In. symmetry. apply in_rev. Qed.

Lemma Trim_elem c s x : x ∈ Trim c s → x ∈ s.
Proof.
  assert (∀ t y, y ∈ trim_byte_left c t → y ∈ t) as H.
  { induction t as [|z t IH]; intros y; simpl; [done|]. destruct (z =? c); [|done]. intros ?%IH. by right. }
  unfold Trim. intros Hx%elem_rev%H%elem_rev%H. done.
Qed.

Lemma split_on_elem c s p x : p ∈ split_on c s → x ∈ p → x ∈ s.
Proof.
  revert p. induction s as [|y s IH]; intros p; simpl; [by intros ->%list_elem_of_singleton|].
  destruct (y =? c).
  { intros [->|Hp]%elem_of_cons Hx; [by apply elem_of_nil in Hx|]. right. by eapply IH. }
  destruct (split_on c s) as [|q qs] eqn:E.
  { intros ->%list_elem_of_singleton Hx%list_elem_of_singleton. subst. left. }
  intros [->|Hp]%elem_of_cons Hx.
  - apply elem_of_cons in Hx as [->|Hx]; [left|right]. apply (IH q); [left|done].
  - right. apply (IH p); [by right|done].
Qed.

Lemma split_cells l : 10 ∉ l → Forall cell_ok (split l) ∧ split l ≠ [].
Proof.
  intros Hl. split; [|unfold split; intros H; by apply fmap_nil_inv, split_on_nonempty in H].
  apply Forall_fmap, Forall_forall. intros p Hp. split_and!.
  - apply TrimSpace_trimmed.
  - intros Hx%TrimSpace_elem. pose proof (split_on_free 124 (Trim 124 (TrimSpace l))) as Hf.
    rewrite Forall_forall in Hf. by eapply Hf.
  - intros Hx%TrimSpace_elem. apply Hl. by eapply TrimSpace_elem, Trim_elem, split_on_elem.
Qed.

(** ** Columns *)

Lemma from_end_lt k cells : (0 < k <= length cells)%nat → is_Some (from_end k cells).
Proof.
  intros H. unfold from_end. rewrite (proj2 (Nat.leb_le _ _)) by lia. apply lookup_lt_is_Some_2. lia.
Qed.
Lemma from_end_set cells w : (2 <= length cells)%nat → from_end 2 (set_column cells w) = Some w.
Proof.
  intros H. unfold from_end, set_column. rewrite length_insert, (proj2 (Nat.leb_le _ _)) by lia.
  apply list_lookup_insert_eq. lia.
Qed.
Lemma from_end_set_ne k cells w : k ≠ 2%nat → (0 < k)%nat → (2 <= length cells)%nat →
  from_end k (set_column cells w) = from_end k cells.
Proof.
  intros Hk H0 Hl. unfold from_end, set_column. rewrite length_insert.
  destruct (Nat.leb_spec k (length cells)); [|done]. apply list_lookup_insert_ne. lia.
Qed.

(** A column that can be written: trimmed, on one line, and no header. *)
Definition column_ok (w : str) : Prop := cell_ok w ∧ w ≠ text "测试".

(** Writing the column of a checkpoint row keeps the row. *)
Lemma parse_line_set st i l r st' refs w :
  parse_line st i l = (st', Some r, refs) → 10 ∉ l → (3 <= length (Cells r))%nat → column_ok w →
  ∃ refs', parse_line st i (format_row (set_column (Cells r) w)) =
    (st', Some (mkRow (Line r) (set_column (Cells r) w) (ID r) (Status r)), refs').
Proof.
  intros H Hl H3 [Hw Hh]. destruct (split_cells l Hl) as [Hc Hne]. destruct st as [cp reg].
  unfold parse_line in H. destruct (HasPrefix l (text "|")); [|done]. simpl in H.
  destruct (is_header (split l)); [done|]. destruct (is_regression (split l)) eqn:Hreg; [done|].
  destruct (idRe _) eqn:Hid; [|done]. simpl in H. destruct cp; [|done].
  injection H as <- <- _. cbn [Cells Line ID Status] in *.
  set (cs := set_column (split l) w).
  assert (split (format_row cs) = cs) as Es.
  { apply split_format; [intros E%(f_equal length); unfold cs, set_column in E; rewrite length_insert in E; simpl in E; lia|].
    unfold cs, set_column. by apply Forall_insert. }
  assert (cs !! 0%nat = split l !! 0%nat) as E0.
  { unfold cs, set_column. apply list_lookup_insert_ne. lia. }
  unfold parse_line. rewrite Es. change (HasPrefix (format_row cs) (text "|")) with true. simpl.
  assert (is_header cs = false) as ->.
  { unfold is_header. apply bool_decide_eq_false_2. unfold cs. rewrite from_end_set by lia. intros [[= ?] _]. done. }
  assert (is_regression cs = false) as ->.
  { unfold is_regression. rewrite E0. destruct (bool_decide_reflect (split l !! 0%nat = Some (text "ID"))) as [Hx|]; [|done].
    exfalso. by rewrite Hx in Hid. }
  rewrite E0, Hid. simpl. eexists. f_equal. f_equal. f_equal. f_equal.
  unfold statusOf, cs. by rewrite from_end_set_ne by lia.
Qed.

(** * The rows of a document *)

Lemma parse_line_row st i l st' r refs :
  parse_line st i l = (st', Some r, refs) → Line r = i ∧ Cells r = split l.
Proof.
  unfold parse_line. destruct st as [[] reg], (negb _); try done.
  - destruct (is_header _); [done|]. destruct (is_regression _); [done|]. destruct (negb _); [done|].
    intros H. injection H as _ <- _. done.
  - destruct (is_header _); [done|]. destruct (is_regression _); [done|]. by destruct (negb _).
Qed.

(** A row knows its line. *)
Lemma emitted_line st i lines r : r ∈ emitted st i lines →
  (i <= Line r)%nat ∧ ∃ l, lines !! (Line r - i)%nat = Some l ∧ Cells r = split l.
Proof.
  revert st i. induction lines as [|l lines IH]; intros st i; simpl; [by intros ?%elem_of_nil|].
  destruct (parse_line st i l) as [[st' row] rs] eqn:E. intros [Hr|Hr]%elem_of_app.
  - destruct row as [r'|]; [|by apply elem_of_nil in Hr]. apply list_elem_of_singleton in Hr as ->.
    apply parse_line_row in E as [-> Ec]. split; [lia|]. exists l. by rewrite Nat.sub_diag.
  - apply IH in Hr as (Hle & l' & Hl' & Ec). split; [lia|]. exists l'.
    by replace (Line r - i)%nat with (S (Line r - S i)) by lia.
Qed.

Lemma add_rows_elem rs rows id r :
  foldl add_row rows rs !! id = Some r → rows !! id = Some r ∨ (r ∈ rs ∧ ID r = id).
Proof.
  revert rows. induction rs as [|x rs IH]; intros rows; simpl; [by left|].
  intros [H|[H1 H2]]%IH; [|right; set_solver]. unfold add_row in H.
  apply lookup_insert_Some in H as [[<- ->]|[_ H]]; [right; set_solver|by left].
Qed.

Lemma rows_of_elem lines id r : rows_of lines !! id = Some r → r ∈ emitted (false, false) 0 lines ∧ ID r = id.
Proof. intros [H|H]%add_rows_elem; [by rewrite lookup_empty in H|done]. Qed.

Lemma rows_of_line lines id r : rows_of lines !! id = Some r →
  ∃ l, lines !! Line r = Some l ∧ Cells r = split l.
Proof. intros [H _]%rows_of_elem. apply emitted_line in H as (_ & l & H & ?). rewrite Nat.sub_0_r in H. eauto. Qed.

(** Two rows on one line are the same row. *)
Lemma emitted_inj st i lines r r' :
  r ∈ emitted st i lines → r' ∈ emitted st i lines → Line r = Line r' → r = r'.
Proof.
  revert st i. induction lines as [|l lines IH]; intros st i; simpl; [by intros ?%elem_of_nil|].
  destruct (parse_line st i l) as [[st' row] rs] eqn:E.
  assert (∀ x y, x ∈ option_list row → y ∈ emitted st' (S i) lines → Line x ≠ Line y) as Hne.
  { intros x y Hx (Hy & _)%emitted_line. destruct row as [q|]; [|by apply elem_of_nil in Hx].
    apply list_elem_of_singleton in Hx as ->. apply parse_line_row in E as [-> _]. lia. }
  intros [Hr|Hr]%elem_of_app [Hr'|Hr']%elem_of_app El.
  - destruct row as [q|]; [|by apply elem_of_nil in Hr]. apply list_elem_of_singleton in Hr as ->.
    by apply list_elem_of_singleton in Hr' as ->.
  - by destruct (Hne r r' Hr Hr').
  - by destruct (Hne r' r Hr' Hr).
  - by eapply IH.
Qed.

Lemma rows_of_inj lines id id' r r' :
  rows_of lines !! id = Some r → rows_of lines !! id' = Some r' → Line r = Line r' → id = id'.
Proof. intros [H1 <-]%rows_of_elem [H2 <-]%rows_of_elem E. by rewrite (emitted_inj _ _ _ r r' H1 H2 E). Qed.

(** * Regenerated documents *)

(** [l'] is line [l], or its checkpoint row with another test column. *)
Definition line_rel (st : bool * bool) (i : nat) (l l' : str) : Prop :=
  l' = l ∨ ∃ st' r refs w, parse_line st i l = (st', Some r, refs) ∧ (3 <= length (Cells r))%nat ∧ column_ok w ∧
    l' = format_row (set_column (Cells r) w).
Fixpoint doc_rel (st : bool * bool) (i : nat) (lines lines' : list str) : Prop :=
  match lines, lines' with
  | [], [] => True
  | l :: ls, l' :: ls' => line_rel st i l l' ∧ doc_rel (parse_line st i l).1.1 (S i) ls ls'
  | _, _ => False
  end.
(** The same row up to its test column. *)
Definition row_rel (r r' : Row) : Prop :=
  ID r' = ID r ∧ Line r' = Line r ∧ Status r' = Status r ∧
  (Cells r' = Cells r ∨ ∃ w, Cells r' = set_column (Cells r) w).

Lemma line_rel_parse st i l l' : 10 ∉ l → line_rel st i l l' →
  (parse_line st i l').1.1 = (parse_line st i l).1.1 ∧
  option_Forall2 row_rel (parse_line st i l).1.2 (parse_line st i l').1.2.
Proof.
  intros Hl [->|(st' & r & refs & w & E & H3 & Hw & ->)].
  - split; [done|]. destruct (parse_line st i l).1.2; constructor. split_and!; try done. by left.
  - destruct (parse_line_set st i l r st' refs w E Hl H3 Hw) as [refs' ->]. rewrite E.
    split; [done|]. constructor. split_and!; try done. right. by exists w.
Qed.

Lemma doc_rel_emitted st i lines lines' : Forall (λ l, 10 ∉ l) lines → doc_rel st i lines lines' →
  Forall2 row_rel (emitted st i lines) (emitted st i lines').
Proof.
  intros Hl. revert st i lines'. induction Hl as [|l lines Hl _ IH]; intros st i [|l' lines']; simpl; try done.
  intros [Hr Hd]. destruct (line_rel_parse st i l l' Hl Hr) as [E1 E2].
  destruct (parse_line st i l) as [[st1 row] rs], (parse_line st i l') as [[st2 row'] rs']. simpl in *. subst st2.
  apply Forall2_app; [destruct E2; [by apply Forall2_cons_2; [|apply Forall2_nil_2]|apply Forall2_nil_2]|by apply IH].
Qed.

Lemma add_rows_rel rs rs' rows rows' : Forall2 row_rel rs rs' →
  (∀ id, option_Forall2 row_rel (rows !! id) (rows' !! id)) →
  ∀ id, option_Forall2 row_rel (foldl add_row rows rs !! id) (foldl add_row rows' rs' !! id).
Proof.
  intros H. revert rows rows'. induction H as [|r r' rs rs' Hr _ IH]; intros rows rows' Hm; [done|]. simpl. apply IH.
  intros id. unfold add_row. pose proof Hr as (-> & _). destruct (decide (ID r = id)) as [<-|Hne].
  - rewrite !lookup_insert_eq. by constructor.
  - rewrite !lookup_insert_ne by done. apply Hm.
Qed.

Lemma doc_rel_rows lines lines' : Forall (λ l, 10 ∉ l) lines → doc_rel (false, false) 0 lines lines' →
  ∀ id, option_Forall2 row_rel (rows_of lines !! id) (rows_of lines' !! id).
Proof.
  intros Hl Hd. apply add_rows_rel; [by apply doc_rel_emitted|].
  intros id. rewrite !lookup_empty. constructor.
Qed.

Lemma doc_rel_intro st i lines lines' :
  length lines' = length lines →
  (∀ j l l', lines !! j = Some l → lines' !! j = Some l' → l' = l ∨
     ∃ r w, r ∈ emitted st i lines ∧ Line r = (i + j)%nat ∧ (3 <= length (Cells r))%nat ∧ column_ok w ∧
       l' = format_row (set_column (Cells r) w)) →
  doc_rel st i lines lines'.
Proof.
  revert st i lines'. induction lines as [|l lines IH]; intros st i [|l' lines'] Hlen H; try done. simpl.
  simpl in H. destruct (parse_line st i l) as [[st' row] rs] eqn:E. simpl. split.
  - destruct (H 0%nat l l' eq_refl eq_refl) as [->|(r & w & Hr & Hline & H3 & Hw & ->)]; [by left|]. right.
    apply elem_of_app in Hr as [Hr|(Hr & _)%emitted_line]; [|lia].
    destruct row as [q|]; [|by apply elem_of_nil in Hr]. apply list_elem_of_singleton in Hr as ->.
    by exists st', q, rs, w.
  - apply IH; [simpl in Hlen; lia|]. intros j x x' Hx Hx'.
    destruct (H (S j) x x' Hx Hx') as [->|(r & w & Hr & Hline & Hrest)]; [by left|]. right. exists r, w.
    split; [|split; [lia|done]]. apply elem_of_app in Hr as [Hr|Hr]; [|done]. exfalso.
    destruct row as [q|]; [|by apply elem_of_nil in Hr]. apply list_elem_of_singleton in Hr as ->.
    apply parse_line_row in E as [El _]. lia.
Qed.

Section regenerate.
Context (rows : gmap str Row) (byID : gmap str (list Test)).
Context (Hinj : ∀ id id' r r', rows !! id = Some r → rows !! id' = Some r' → Line r = Line r' → id = id').

Definition want (id : str) : str := render (default [] (byID !! id)).
Definition stale (id : str) (r : Row) : Prop := from_end 2 (Cells r) ≠ Some (want id).
Definition fresh_line (id : str) (r : Row) : str := format_row (set_column (Cells r) (want id)).

Lemma check_row_write id r lines lines' ps :
  check_row true byID id r lines = Some (lines', ps) →
  ps = status_problem r id (length (default [] (byID !! id))) ∧
  (from_end 2 (Cells r) = Some (want id) ∧ lines' = lines ∨
   stale id r ∧ lines' = <[Line r := fresh_line id r]> lines).
Proof.
  unfold check_row, stale. destruct (from_end 2 (Cells r)) as [h|] eqn:E; [|done]. simpl.
  case_bool_decide as Hw; intros [= <- <-]; (split; [done|]).
  - left. by rewrite Hw.
  - right. split; [|done]. intros [= ?]. done.
Qed.

Lemma check_rows_length ids lines lines' ps :
  check_rows true rows byID ids lines = Some (lines', ps) → length lines' = length lines.
Proof using.
  revert lines ps lines'. induction ids as [|id ids IH]; intros lines ps lines'; simpl; [by intros [= <- <-]|].
  destruct (rows !! id) as [r|]; [|apply IH].
  destruct (check_row _ _ _ _ _) as [[l1 p1]|] eqn:E1; [|done]. simpl.
  destruct (check_rows _ _ _ _ l1) as [[l2 p2]|] eqn:E2; [|done]. simpl. intros [= <- <-].
  rewrite (IH _ _ _ E2). apply check_row_write in E1 as (_ & [[_ ->]|[_ ->]]); [done|apply length_insert].
Qed.

(** A line is as before or was written for the stale row on it. *)
Lemma check_rows_lines ids lines lines' ps j :
  check_rows true rows byID ids lines = Some (lines', ps) →
  lines' !! j = lines !! j ∨ ∃ id r, rows !! id = Some r ∧ Line r = j ∧ stale id r ∧ lines' !! j = Some (fresh_line id r).
Proof using.
  revert lines ps lines'. induction ids as [|id ids IH]; intros lines ps lines'; simpl; [intros [= <- <-]; by left|].
  destruct (rows !! id) as [r|] eqn:Er; [|apply IH].
  destruct (check_row _ _ _ _ _) as [[l1 p1]|] eqn:E1; [|done]. simpl.
  destruct (check_rows _ _ _ _ l1) as [[l2 p2]|] eqn:E2; [|done]. simpl. intros [= <- <-].
  destruct (IH _ _ _ E2) as [Hj|Hj]; [|by right].
  apply check_row_write in E1 as (_ & [[_ ->]|[Hs ->]]); [by left|].
  destruct (decide (Line r = j)) as [<-|Hne]; [|left; by rewrite Hj, list_lookup_insert_ne].
  destruct (decide (Line r < length lines)%nat) as [Hlt|Hge].
  - right. exists id, r. rewrite Hj, list_lookup_insert_eq by done. by split_and!.
  - left. by rewrite Hj, list_insert_ge by lia.
Qed.

Lemma check_rows_stale ids lines lines' ps id r :
  check_rows true rows byID ids lines = Some (lines', ps) → id ∈ ids → rows !! id = Some r → stale id r →
  (Line r < length lines)%nat → lines' !! Line r = Some (fresh_line id r).
Proof using Hinj.
  intros H Hid Hr Hs. revert lines ps lines' H. induction Hid as [id ids|id id' ids Hid IH]; intros lines ps lines'; simpl.
  - rewrite Hr. destruct (check_row _ _ _ _ _) as [[l1 p1]|] eqn:E1; [|done]. simpl.
    destruct (check_rows _ _ _ _ l1) as [[l2 p2]|] eqn:E2; [|done]. simpl. intros [= <- <-] Hlt.
    apply check_row_write in E1 as (_ & [[? _]|[_ ->]]); [done|].
    destruct (check_rows_lines ids _ _ _ (Line r) E2) as [->|(id' & r' & Hr' & El & _ & ->)].
    + by rewrite list_lookup_insert_eq.
    + assert (id' = id) as -> by (by eapply Hinj). congruence.
  - destruct (rows !! id') as [r'|]; [|by apply IH].
    destruct (check_row _ _ _ _ _) as [[l1 p1]|] eqn:E1; [|done]. simpl.
    destruct (check_rows _ _ _ _ l1) as [[l2 p2]|] eqn:E2; [|done]. simpl. intros [= <- <-] Hlt.
    apply (IH Hr Hs _ _ _ E2). apply check_row_write in E1 as (_ & [[_ ->]|[_ ->]]); [done|by rewrite length_insert].
Qed.

(** In an up-to-date document nothing is stale and nothing changes. *)
Lemma check_rows_clean write ids lines :
  (∀ id r, id ∈ ids → rows !! id = Some r → from_end 2 (Cells r) = Some (want id)) →
  check_rows write rows byID ids lines =
  Some (lines, ids ≫= λ id, match rows !! id with
                            | Some r => status_problem r id (length (default [] (byID !! id)))
                            | None => []
                            end).
Proof using.
  induction ids as [|id ids IH]; intros H; [done|]. simpl.
  assert (IH' := IH (λ id r Hid, H id r (list_elem_of_further _ _ _ Hid))).
  destruct (rows !! id) as [r|] eqn:Er; [|done]. unfold check_row.
  rewrite (H id r) by (done || left). simpl. rewrite bool_decide_eq_true_2 by done. simpl. by rewrite IH'.
Qed.

(** The problems of a writing run are those of the statuses. *)
Lemma check_rows_problems ids lines lines' ps :
  check_rows true rows byID ids lines = Some (lines', ps) →
  ps = ids ≫= λ id, match rows !! id with
                    | Some r => status_problem r id (length (default [] (byID !! id)))
                    | None => []
                    end.
Proof using.
  revert lines ps lines'. induction ids as [|id ids IH]; intros lines ps lines'; simpl; [by intros [= <- <-]|].
  destruct (rows !! id) as [r|]; [|apply IH].
  destruct (check_row _ _ _ _ _) as [[l1 p1]|] eqn:E1; [|done]. simpl.
  destruct (check_rows _ _ _ _ l1) as [[l2 p2]|] eqn:E2; [|done]. simpl. intros [= <- <-].
  apply check_row_write in E1 as [-> _]. by rewrite (IH _ _ _ E2).
Qed.
End regenerate.

(** * Labels *)

(** Identifiers of Go have neither bars nor line breaks. *)
Definition test_ok (t : Test) : Prop :=
  (124 ∉ Pkg t) ∧ (10 ∉ Pkg t) ∧ (124 ∉ Name t) ∧ (10 ∉ Name t).

Lemma TrimPrefix_elem s p x : x ∈ TrimPrefix s p → x ∈ s.
Proof.
  unfold TrimPrefix. case_match; [|done]. intros Hx. rewrite <- (take_drop (length p) s).
  apply elem_of_app. by right.
Qed.

Lemma join_elem sep xs x : x ∈ join sep xs → x ∈ sep ∨ ∃ y, y ∈ xs ∧ x ∈ y.
Proof.
  induction xs as [|y xs IH]; [by intros ?%elem_of_nil|].
  destruct (decide (xs = [])) as [->|Hne]; [intros Hx; right; exists y; split; [left|done]|].
  rewrite join_cons by done. rewrite !elem_of_app. intros [Hx|[Hx|Hx]]; [|by left|].
  - right. exists y. split; [left|done].
  - destruct (IH Hx) as [?|(z & Hz & ?)]; [by left|]. right. exists z. split; [by right|done].
Qed.

Lemma join_ends sep xs : xs ≠ [] → (∀ x, x ∈ xs → ∃ m, x = 96 :: m ++ [96]) →
  ∃ m, join sep xs = 96 :: m ++ [96].
Proof.
  induction xs as [|x xs IH]; [done|]. intros _ H. destruct (H x) as [m Hm]; [left|].
  destruct (decide (xs = [])) as [->|Hne]; [by exists m|]. rewrite join_cons by done.
  destruct IH as [m' ->]; [done|intros; apply H; by right|]. rewrite Hm.
  exists (m ++ [96] ++ sep ++ 96 :: m'). simpl. f_equal. rewrite <- !app_assoc. simpl. by rewrite <- app_assoc.
Qed.

(** The order of the tests does not matter. *)
Lemma render_perm ts ts' : ts ≡ₚ ts' → render ts = render ts'.
Proof. intros H. unfold render. f_equal. apply sort_Strings_perm. by rewrite H. Qed.

Lemma render_ok ts : Forall test_ok ts → column_ok (render ts).
Proof.
  intros Hts. unfold render. set (ls := sort_Strings _).
  assert (∀ x, x ∈ ls → ∃ t, t ∈ ts ∧ x = text "`" ++ Label t ++ text "`") as Hls.
  { intros x Hx. unfold ls, sort_Strings in Hx. rewrite merge_sort_Permutation in Hx.
    apply list_elem_of_fmap in Hx as (t & -> & Ht). eauto. }
  assert (∀ b, b ∈ [124; 10] → b ∉ join (text "<br>") ls) as Hb.
  { intros b Hb Hx. apply join_elem in Hx as [Hx|(y & Hy & Hx)].
    { apply list_elem_of_In in Hx, Hb. vm_compute in Hx, Hb. intuition lia. }
    apply Hls in Hy as (t & Ht & ->). rewrite Forall_forall in Hts. destruct (Hts t Ht) as (H1 & H2 & H3 & H4).
    unfold Label in Hx. rewrite !elem_of_app in Hx. rewrite list_elem_of_In in Hb.
    destruct Hx as [Hx|[[Hx|[Hx|Hx%TrimPrefix_elem]]|Hx]].
    1, 3, 5: apply list_elem_of_In in Hx; vm_compute in Hx, Hb; intuition lia.
    all: destruct Hb as [<-|[<-|[]]]; done. }
  destruct (decide (ls = [])) as [->|Hne].
  { split; [|done]. split_and!; [done|by apply not_elem_of_nil..]. }
  destruct (join_ends (text "<br>") ls Hne) as [m Em].
  { intros x (t & _ & ->)%Hls. exists (Label t). done. }
  split; [|rewrite Em; discriminate]. split_and!; [rewrite Em; apply trimmed_ends; set_solver|apply Hb; set_solver..].
Qed.

(** ** Grouping *)

Lemma group_id_cong rows rows' t acc id : (is_Some (rows !! id) ↔ is_Some (rows' !! id)) →
  group_id rows t acc id = group_id rows' t acc id.
Proof.
  intros H. unfold group_id. destruct acc as [byID ps].
  destruct (rows !! id) eqn:E, (rows' !! id) eqn:E'; try done; exfalso; rewrite !is_Some_alt in H; tauto.
Qed.
Lemma group_cong rows rows' tests : (∀ id, is_Some (rows !! id) ↔ is_Some (rows' !! id)) →
  group rows tests = group rows' tests.
Proof.
  intros H. unfold group. generalize ((∅, []) : gmap str (list Test) * list problem).
  induction tests as [|t tests IH]; intros acc; [done|]. simpl.
  assert (∀ ids a, foldl (group_id rows t) a ids = foldl (group_id rows' t) a ids) as ->; [|apply IH].
  induction ids as [|id ids IHi]; intros a; [done|]. simpl. rewrite (group_id_cong rows rows') by done. apply IHi.
Qed.

(** Only declared tests are grouped. *)
Lemma group_tests (P : Test → Prop) rows tests :
  Forall P tests → map_Forall (λ _ ts, Forall P ts) (group rows tests).1.
Proof.
  intros Ht. unfold group.
  assert (∀ acc : gmap str (list Test) * list problem, map_Forall (λ _ ts, Forall P ts) acc.1 →
    map_Forall (λ _ ts, Forall P ts) (foldl (λ acc t, foldl (group_id rows t) acc (IDs t)) acc tests).1) as H;
    [|apply H; apply map_Forall_empty].
  induction Ht as [|t tests Ht _ IH]; intros acc Hacc; [done|]. simpl. apply IH.
  revert acc Hacc. induction (IDs t) as [|id ids IHi]; intros acc Hacc; [done|]. simpl. apply IHi.
  unfold group_id. destruct acc as [byID ps]. simpl in Hacc. destruct (rows !! id); [|done]. simpl.
  apply map_Forall_insert_2; [|done]. apply Forall_app. split; [|by repeat constructor].
  destruct (byID !! id) eqn:E; [|constructor]. by apply (Hacc id).
Qed.

(** * The regenerated document *)

Definition rows_ok (lines : list str) : Prop := map_Forall (λ _ r, (3 <= length (Cells r))%nat) (rows_of lines).
Definition one_line (l : str) : Prop := 10 ∉ l.

Lemma check_rows_total rows byID ids lines : map_Forall (λ _ r, (3 <= length (Cells r))%nat) rows →
  is_Some (check_rows true rows byID ids lines).
Proof.
  intros H. revert lines. induction ids as [|id ids IH]; intros lines; [done|]. simpl.
  destruct (rows !! id) as [r|] eqn:E; [|apply IH]. apply H in E. unfold check_row.
  destruct (from_end_lt 2 (Cells r)) as [h ->]; [lia|]. simpl.
  case_bool_decide; simpl; [destruct (IH lines) as [[l ps] ->]|destruct (IH (<[Line r:=format_row (set_column (Cells r) (render (default [] (byID !! id))))]> lines)) as [[l ps] ->]]; done.
Qed.

Section settles.
Context (lines : list str) (byID : gmap str (list Test)) (lines' : list str) (ids : list str) (ps : list problem).
Let rows := rows_of lines.
Context (Hlines : Forall one_line lines) (Hrows : rows_ok lines)
        (Hcols : ∀ id, column_ok (want byID id))
        (Hids : ∀ id, is_Some (rows !! id) → id ∈ ids)
        (Hrun : check_rows true rows byID ids lines = Some (lines', ps)).

Lemma rows_line_lt id r : rows !! id = Some r → (Line r < length lines)%nat.
Proof. intros (l & Hl & _)%rows_of_line. by eapply lookup_lt_Some. Qed.

Lemma settled_rel : doc_rel (false, false) 0 lines lines'.
Proof using Hrows Hcols Hrun.
  apply doc_rel_intro; [by eapply check_rows_length|]. intros j l l' Hl Hl'.
  destruct (check_rows_lines rows byID ids lines lines' ps j Hrun) as [E|(id & r & Hr & <- & _ & E)].
  - left. congruence.
  - right. exists r, (want byID id). pose proof (Hrows id r Hr). apply rows_of_elem in Hr as [Hr _].
    rewrite E in Hl'. injection Hl' as <-. by split_and!.
Qed.

Lemma cells_one_line id r : rows !! id = Some r → Forall cell_ok (Cells r).
Proof using Hlines.
  intros (l & Hl & ->)%rows_of_line. apply split_cells. by apply (Forall_lookup_1 one_line lines _ _ Hlines Hl).
Qed.

Lemma settled_lines : Forall one_line lines'.
Proof using Hlines Hrows Hcols Hrun.
  apply Forall_lookup_2. intros j l' Hl'.
  destruct (check_rows_lines rows byID ids lines lines' ps j Hrun) as [E|(id & r & Hr & <- & _ & E)].
  - rewrite Hl' in E. by eapply Forall_lookup_1.
  - rewrite Hl' in E. injection E as ->. unfold one_line, fresh_line, format_row. rewrite !elem_of_app.
    intros [Hx|[[Hx|(y & Hy & Hx)]%join_elem|Hx]].
    1, 2, 4: apply list_elem_of_In in Hx; vm_compute in Hx; intuition lia.
    assert (Forall cell_ok (set_column (Cells r) (want byID id))) as Hc.
    { apply Forall_insert; [by eapply cells_one_line|apply Hcols]. }
    rewrite Forall_forall in Hc. destruct (Hc y Hy) as (_ & _ & Hn). done.
Qed.

Lemma settled_rows id : option_Forall2 row_rel (rows !! id) (rows_of lines' !! id).
Proof using Hlines Hrows Hcols Hrun. apply doc_rel_rows; [done|apply settled_rel]. Qed.

(** Every test column is the one wanted. *)
Lemma settled_columns id r' : rows_of lines' !! id = Some r' → from_end 2 (Cells r') = Some (want byID id).
Proof using Hlines Hrows Hcols Hids Hrun.
  intros Hr'. pose proof (settled_rows id) as H. rewrite Hr' in H.
  destruct (rows !! id) as [r|] eqn:Hr; inversion H as [? ? (_ & El & _)|]; subst.
  apply rows_of_line in Hr' as (l' & Hl' & ->). rewrite El in Hl'.
  pose proof (Hrows id r Hr) as H3. simpl in H3.
  destruct (decide (from_end 2 (Cells r) = Some (want byID id))) as [Hw|Hs].
  - destruct (check_rows_lines rows byID ids lines lines' ps (Line r) Hrun) as [E|(id2 & r2 & Hr2 & E2 & Hs2 & _)].
    + apply rows_of_line in Hr as (l & Hl & Ec). rewrite Hl, Hl' in E. injection E as ->. by rewrite <- Ec.
    + assert (id2 = id) as -> by (by eapply rows_of_inj). exfalso. apply Hs2. congruence.
  - assert (lines' !! Line r = Some (fresh_line byID id r)) as E.
    { eapply check_rows_stale; [|exact Hrun|by apply Hids|done|done|by eapply rows_line_lt].
      intros. by eapply rows_of_inj. }
    rewrite Hl' in E. injection E as ->. unfold fresh_line. rewrite split_format.
    + apply from_end_set. lia.
    + intros E%(f_equal length). unfold set_column in E. rewrite length_insert in E. simpl in E. lia.
    + apply Forall_insert; [by eapply cells_one_line|apply Hcols].
Qed.

Lemma settled_check write : check_rows write (rows_of lines') byID ids lines' = Some (lines', ps).
Proof using Hlines Hrows Hcols Hids Hrun.
  rewrite check_rows_clean by (intros id r _; apply settled_columns).
  rewrite (check_rows_problems _ _ _ _ _ _ Hrun). do 2 f_equal.
  apply list_bind_ext; [|done]. intros id. pose proof (settled_rows id) as H.
  inversion H as [r r' (_ & E1 & E2 & _)|]; subst; [|done]. unfold status_problem. by rewrite E1, E2.
Qed.
End settles.

(** * The command *)

Definition is_UnknownRef (p : problem) : bool := match p with UnknownRef _ _ => true | _ => false end.
Definition is_StaleColumn (p : problem) : bool := match p with StaleColumn _ _ => true | _ => false end.

Definition ids_of (rows : gmap str Row) : list str := sort_Strings ((map_to_list rows).*1).

Lemma ids_of_elem rows id : id ∈ ids_of rows ↔ is_Some (rows !! id).
Proof.
  unfold ids_of, sort_Strings. rewrite merge_sort_Permutation, list_elem_of_fmap. split.
  - intros ([i r] & -> & H%elem_of_map_to_list). by exists r.
  - intros [r H]. exists (id, r). split; [done|]. by apply elem_of_map_to_list.
Qed.
Lemma ids_of_cong rows rows' : (∀ id, is_Some (rows !! id) ↔ is_Some (rows' !! id)) → ids_of rows = ids_of rows'.
Proof.
  intros H. apply sort_Strings_perm, NoDup_Permutation; [apply NoDup_fst_map_to_list..|].
  intros id. pose proof (ids_of_elem rows id) as E. pose proof (ids_of_elem rows' id) as E'.
  unfold ids_of, sort_Strings in E, E'. rewrite merge_sort_Permutation in E, E'. by rewrite E, E', H.
Qed.

Lemma run_eq tests ps0 design raw write :
  run (tests, ps0) design raw write =
  '(lines', ps2) ← check_rows write (rows_of (split_on 10 raw)) (group (rows_of (split_on 10 raw)) tests).1
                     (ids_of (rows_of (split_on 10 raw))) (split_on 10 raw);
  Some (ps0 ++ (group (rows_of (split_on 10 raw)) tests).2 ++ ps2 ++
          ((parseDoc (split_on 10 raw)).2 ≫= ref_problem (rows_of (split_on 10 raw))) ++ design,
        if write then join [10] lines' else raw).
Proof.
  unfold run, ids_of. rewrite parseDoc_eq. simpl. by destruct (group _ tests).
Qed.

Lemma status_no_stale r id n p : p ∈ status_problem r id n → is_StaleColumn p = false ∧ is_UnknownRef p = false.
Proof.
  unfold status_problem. repeat case_match; try (intros ?%elem_of_nil; done);
    intros ->%list_elem_of_singleton; done.
Qed.
Lemma ref_problems_ref rows refs : filter (λ p, is_UnknownRef p = false) (refs ≫= ref_problem rows) = [].
Proof.
  induction refs as [|x refs IH]; [done|]. rewrite bind_cons, filter_app, IH, app_nil_r. unfold ref_problem.
  by case_match.
Qed.
Lemma ref_problems_stale rows refs p : p ∈ (refs ≫= ref_problem rows) → is_StaleColumn p = false.
Proof.
  rewrite list_elem_of_bind. intros (x & H & _). unfold ref_problem in H. case_match; [by apply elem_of_nil in H|].
  by apply list_elem_of_singleton in H as ->.
Qed.

Lemma group_column rows tests id : Forall test_ok tests → column_ok (want (group rows tests).1 id).
Proof.
  intros Ht. apply render_ok. destruct ((group rows tests).1 !! id) as [ts|] eqn:E; [|constructor].
  by apply (group_tests test_ok rows tests Ht) in E.
Qed.
Lemma group_no_stale rows tests p : p ∈ (group rows tests).2 → is_StaleColumn p = false.
Proof.
  unfold group.
  assert (∀ acc : gmap str (list Test) * list problem, (∀ p, p ∈ acc.2 → is_StaleColumn p = false) →
    ∀ p, p ∈ (foldl (λ acc t, foldl (group_id rows t) acc (IDs t)) acc tests).2 → is_StaleColumn p = false) as H;
    [|apply H; by intros ? ?%elem_of_nil].
  induction tests as [|t tests IH]; intros acc Hacc; [done|]. simpl. apply IH.
  revert acc Hacc. induction (IDs t) as [|id ids IHi]; intros acc Hacc; [done|]. simpl. apply IHi.
  unfold group_id. destruct acc as [byID ps]. destruct (rows !! id); [done|]. simpl in *.
  intros q [Hq|Hq]%elem_of_app; [by apply Hacc|]. by apply list_elem_of_singleton in Hq as ->.
Qed.

Lemma row_rel_is_Some o o' : option_Forall2 row_rel o o' → (is_Some o ↔ is_Some o').
Proof. intros []; split; eauto using is_Some_None; by intros []. Qed.

(** The tests that declare a checkpoint, once for each time they name it. *)
Definition declaring (id : str) (tests : list Test) : list Test :=
  tests ≫= λ t, (λ _, t) <$> filter (λ i, i = id) (IDs t).

Lemma group_ids rows t ids byID ps :
  let '(byID', ps') := foldl (group_id rows t) (byID, ps) ids in
  ps' = ps ++ (UnknownCheckpoint (Pos t) (Name t) <$> filter (λ i, rows !! i = None) ids) ∧
  ∀ id, is_Some (rows !! id) →
    default [] (byID' !! id) = default [] (byID !! id) ++ ((λ _, t) <$> filter (λ i, i = id) ids).
Proof.
  revert byID ps. induction ids as [|i ids IH]; intros byID ps; simpl; [split; intros; by rewrite app_nil_r|].
  destruct (rows !! i) as [r|] eqn:E.
  - specialize (IH (<[i:=default [] (byID !! i) ++ [t]]> byID) ps).
    destruct (foldl _ _ _) as [byID' ps']. destruct IH as [-> IH]. split.
    + by rewrite filter_cons_False by congruence.
    + intros id Hid. rewrite IH by done. destruct (decide (i = id)) as [->|Hne].
      * rewrite filter_cons_True by done. rewrite lookup_insert_eq. simpl. by rewrite <- app_assoc.
      * by rewrite filter_cons_False, lookup_insert_ne by done.
  - specialize (IH byID (ps ++ [UnknownCheckpoint (Pos t) (Name t) i])).
    destruct (foldl _ _ _) as [byID' ps']. destruct IH as [-> IH]. split.
    + rewrite filter_cons_True by done. simpl. by rewrite <- app_assoc.
    + intros id Hid. rewrite IH by done. rewrite filter_cons_False; [done|]. intros ->. rewrite E in Hid. by destruct Hid.
Qed.

Lemma group_spec rows tests :
  (group rows tests).2 = (tests ≫= λ t, UnknownCheckpoint (Pos t) (Name t) <$> filter (λ i, rows !! i = None) (IDs t)) ∧
  ∀ id, is_Some (rows !! id) → default [] ((group rows tests).1 !! id) = declaring id tests.
Proof.
  unfold group.
  assert (∀ acc : gmap str (list Test) * list problem,
    let acc' := foldl (λ acc t, foldl (group_id rows t) acc (IDs t)) acc tests in
    acc'.2 = acc.2 ++ (tests ≫= λ t, UnknownCheckpoint (Pos t) (Name t) <$> filter (λ i, rows !! i = None) (IDs t)) ∧
    ∀ id, is_Some (rows !! id) → default [] (acc'.1 !! id) = default [] (acc.1 !! id) ++ declaring id tests) as H.
  { induction tests as [|t tests IH]; intros [byID ps]; simpl; [split; intros; by rewrite app_nil_r|].
    pose proof (group_ids rows t (IDs t) byID ps) as Hg. destruct (foldl (group_id rows t) _ _) as [byID' ps'].
    destruct Hg as [-> Hg]. destruct (IH (byID', ps ++ (UnknownCheckpoint (Pos t) (Name t) <$> filter (λ i, rows !! i = None) (IDs t)))) as [E1 E2].
    split; [rewrite E1; simpl; by rewrite <- app_assoc|]. intros id Hid. rewrite E2 by done. simpl.
    rewrite Hg by done. by rewrite <- app_assoc. }
  destruct (H (∅, [])) as [E1 E2]. split; [exact E1|]. intros id Hid. rewrite E2 by done. simpl.
  by rewrite lookup_empty.
Qed.

Lemma elem_declaring id tests t : t ∈ declaring id tests ↔ t ∈ tests ∧ id ∈ IDs t.
Proof.
  unfold declaring. rewrite list_elem_of_bind. setoid_rewrite list_elem_of_fmap. setoid_rewrite list_elem_of_filter.
  naive_solver.
Qed.
Lemma declaring_nil id tests : declaring id tests = [] ↔ ∀ t, t ∈ tests → id ∉ IDs t.
Proof.
  split.
  - intros H t Ht Hid. apply (not_elem_of_nil t). rewrite <- H. by apply elem_declaring.
  - intros H. destruct (declaring id tests) as [|t ts] eqn:E; [done|]. exfalso.
    assert (t ∈ declaring id tests) as [Ht Hid]%elem_declaring by (rewrite E; left). by eapply H.
Qed.

(** ** Documents in good order *)

(** No id has two rows. *)
Definition unique_ids (lines : list str) : Prop :=
  ∀ i j id cells cells', checkpoint_row lines i id cells → checkpoint_row lines j id cells' → i = j.
(** A row has a cell for every column of its header, three at least: the id,
    the tests and the note. *)
Definition full_rows (lines : list str) : Prop :=
  ∀ i id cells h cs, checkpoint_row lines i id cells → above checkpoint_header lines i h → cells_of h cs →
    length cells = length cs ∧ (3 <= length cells)%nat.

Lemma unique_row lines r : unique_ids lines → r ∈ emitted (false, false) 0 lines → rows_of lines !! ID r = Some r.
Proof.
  intros Hu [Hr Hs]%emitted_spec. apply rows_of_spec. split_and!; try done.
  intros i cells Hi. by rewrite (Hu _ _ _ _ _ Hi Hr).
Qed.
Lemma full_row lines r : full_rows lines → r ∈ emitted (false, false) 0 lines → (3 <= length (Cells r))%nat.
Proof.
  intros Hf [Hr _]%emitted_spec. pose proof Hr as (l & _ & _ & h & Hh). pose proof Hh as (j & _ & _ & [_ [cs Hcs]] & _).
  by eapply Hf.
Qed.
Lemma full_rows_ok lines : full_rows lines → rows_ok lines.
Proof. intros Hf id r [Hr _]%rows_of_elem. by eapply full_row. Qed.

Lemma row_rel_column r r' w : (3 <= length (Cells r))%nat → row_rel r r' → from_end 2 (Cells r') = Some w →
  Cells r' = set_column (Cells r) w.
Proof.
  intros H3 (_ & _ & _ & H) Hw. destruct H as [E|[w' E]]; rewrite E in Hw |- *.
  - unfold from_end, set_column in *. case_match; [|done]. by rewrite list_insert_id.
  - rewrite from_end_set in Hw by lia. by injection Hw as ->.
Qed.

Section settled_rows.
Context (lines : list str) (tests : list Test) (lines' : list str) (ps : list problem).
Context (Hlines : Forall one_line lines) (Htests : Forall test_ok tests)
        (Hfull : full_rows lines) (Hunique : unique_ids lines).
Context (Hrun : check_rows true (rows_of lines) (group (rows_of lines) tests).1 (ids_of (rows_of lines)) lines = Some (lines', ps)).

Lemma settled_related : Forall2 row_rel (emitted (false, false) 0 lines) (emitted (false, false) 0 lines').
Proof using All.
  apply doc_rel_emitted; [done|]. eapply settled_rel; eauto using full_rows_ok, group_column.
Qed.

(** A row of the new document is that of the old one with its tests. *)
Lemma settled_cells r r' : r ∈ emitted (false, false) 0 lines → r' ∈ emitted (false, false) 0 lines' → row_rel r r' →
  Cells r' = set_column (Cells r) (render (declaring (ID r) tests)).
Proof using All.
  intros Hr Hr' Hrel. pose proof (full_row _ _ Hfull Hr) as H3. apply row_rel_column; [done..|].
  assert (unique_ids lines') as Hu'.
  { intros i j id c c' Hi Hj.
    assert (∀ i c, checkpoint_row lines' i id c → ∃ c0, checkpoint_row lines i id c0) as Hback.
    { intros i0 c0 H0. assert (mkRow i0 c0 id (statusOf c0) ∈ emitted (false, false) 0 lines') as Hx by (by apply emitted_spec).
      apply list_elem_of_lookup_1 in Hx as [k Hk]. destruct (Forall2_lookup_r _ _ _ _ _ settled_related Hk) as (q & Hq & E1 & E2 & _).
      apply list_elem_of_lookup_2, emitted_spec in Hq as [Hq _]. simpl in E1, E2. rewrite <- E1, <- E2 in Hq. eauto. }
    destruct (Hback _ _ Hi) as [? H1], (Hback _ _ Hj) as [? H2]. eauto. }
  pose proof (unique_row _ _ Hunique Hr) as Er. pose proof (unique_row _ _ Hu' Hr') as Er'.
  destruct (group_spec (rows_of lines) tests) as [_ Hg]. rewrite <- (Hg (ID r)) by eauto.
  pose proof Hrel as (Eid & _). rewrite Eid in Er'.
  eapply (settled_columns lines (group (rows_of lines) tests).1 lines'); eauto using full_rows_ok, group_column.
  intros id. apply ids_of_elem.
Qed.

Lemma settled_checkpoints i id cells' :
  checkpoint_row lines' i id cells' ↔
  ∃ cells, checkpoint_row lines i id cells ∧ cells' = set_column cells (render (declaring id tests)).
Proof using All.
  split.
  - intros Hi. assert (mkRow i cells' id (statusOf cells') ∈ emitted (false, false) 0 lines') as Hr' by (by apply emitted_spec).
    apply list_elem_of_lookup_1 in Hr' as Hk. destruct Hk as [k Hk].
    destruct (Forall2_lookup_r _ _ _ _ _ settled_related Hk) as (r & Hr & Hrel). apply list_elem_of_lookup_2 in Hr.
    pose proof (settled_cells _ _ Hr Hr' Hrel) as E. destruct Hrel as (E1 & E2 & _). simpl in E, E1, E2. subst id i.
    exists (Cells r). split; [by apply emitted_spec|done].
  - intros (cells & Hi & ->). assert (mkRow i cells id (statusOf cells) ∈ emitted (false, false) 0 lines) as Hr by (by apply emitted_spec).
    apply list_elem_of_lookup_1 in Hr as Hk. destruct Hk as [k Hk].
    destruct (Forall2_lookup_l _ _ _ _ _ settled_related Hk) as (r' & Hr' & Hrel). apply list_elem_of_lookup_2 in Hr'.
    pose proof (settled_cells _ _ Hr Hr' Hrel) as E. destruct Hrel as (E1 & E2 & _). simpl in E, E1, E2.
    apply emitted_spec in Hr' as [Hr' _]. by rewrite E, E1, E2 in Hr'.
Qed.

(** A line stays, or is a checkpoint row written anew under the column of the
    tests. *)
Lemma settled_line i : lines' !! i = lines !! i ∨
  ∃ id cells h cs, checkpoint_row lines i id cells ∧ above checkpoint_header lines i h ∧
    cells_of h (cs ++ [text "测试"; text "说明"]) ∧
    lines' !! i = Some (format_row (<[length cs := render (declaring id tests)]> cells)).
Proof using All.
  destruct (check_rows_lines _ _ _ _ _ _ i Hrun) as [?|(id & r & Hr & <- & _ & E)]; [by left|right].
  destruct (group_spec (rows_of lines) tests) as [_ Hg]. unfold fresh_line, want in E. rewrite Hg in E by done.
  apply rows_of_spec in Hr as (Hr & _). pose proof Hr as (l & _ & _ & h & Hh). pose proof Hh as (j & _ & _ & [_ [cs Hcs]] & _).
  exists id, (Cells r), h, cs. split_and!; try done. destruct (Hfull _ _ _ _ _ Hr Hh Hcs) as [Hlen _].
  rewrite length_app in Hlen. simpl in Hlen. unfold set_column in E. by replace (length (Cells r) - 2)%nat with (length cs) in E by lia.
Qed.
End settled_rows.

(** C39: [testdoc -w] settles the document. For tests named by Go identifiers
    and a document in which no id has two rows and every checkpoint row has a
    cell for every column of its header, it returns a document of as many lines,
    in which a line is as before or is a checkpoint row written anew with the
    cell under the header's test column, and no other, replaced by the tests
    that declare the checkpoint. The new document is read back with the same
    checkpoint rows at the same lines, each with its tests for its test column.
    Running the tool on it, with or without [-w], leaves it as it is, finds no
    stale column, and reports what the writing run reported (references of the
    regression table apart, which may stand in a rewritten column). *)
Theorem write_settles tests ps0 design raw :
  Forall test_ok tests → unique_ids (split_on 10 raw) → full_rows (split_on 10 raw) →
  ∃ ps raw', run (tests, ps0) design raw true = Some (ps, raw') ∧
    length (split_on 10 raw') = length (split_on 10 raw) ∧
    (∀ i, split_on 10 raw' !! i = split_on 10 raw !! i ∨
       ∃ id cells h cs, checkpoint_row (split_on 10 raw) i id cells ∧ above checkpoint_header (split_on 10 raw) i h ∧
         cells_of h (cs ++ [text "测试"; text "说明"]) ∧
         split_on 10 raw' !! i = Some (format_row (<[length cs := render (declaring id tests)]> cells))) ∧
    (∀ i id cells', checkpoint_row (split_on 10 raw') i id cells' ↔
       ∃ cells, checkpoint_row (split_on 10 raw) i id cells ∧ cells' = set_column cells (render (declaring id tests))) ∧
    ∀ write, ∃ ps', run (tests, ps0) design raw' write = Some (ps', raw') ∧
      filter (λ p, is_UnknownRef p = false) ps' = filter (λ p, is_UnknownRef p = false) ps ∧
      ∀ p, p ∈ ps' → is_StaleColumn p = true → p ∈ ps0 ++ design.
Proof.
  intros Ht Hu Hf. pose proof (full_rows_ok _ Hf) as Hr. set (lines := split_on 10 raw) in *. set (rows := rows_of lines).
  pose proof (split_on_free 10 raw : Forall one_line lines) as Hl.
  destruct (check_rows_total rows (group rows tests).1 (ids_of rows) lines Hr) as [[lines' ps2] E].
  pose proof (λ id, group_column rows tests id Ht) as Hc.
  assert (∀ id, is_Some (rows !! id) → id ∈ ids_of rows) as Hi by (intros; by apply ids_of_elem).
  pose proof (check_rows_length _ _ _ _ _ _ E) as Hlen.
  assert (split_on 10 (join [10] lines') = lines') as Es.
  { apply split_join; [|by eapply settled_lines]. intros ->. symmetry in Hlen. apply length_zero_iff_nil in Hlen.
    by eapply split_on_nonempty. }
  assert (∀ id, is_Some (rows !! id) ↔ is_Some (rows_of lines' !! id)) as Hsome.
  { intros id. by eapply row_rel_is_Some, settled_rows. }
  eexists _, (join [10] lines'). split; [rewrite run_eq; fold lines rows; by rewrite E|]. rewrite Es.
  split_and!; [done|intros i; by eapply settled_line|intros i id cells'; by eapply settled_checkpoints|].
  intros write. rewrite run_eq, Es, <- (ids_of_cong rows), <- (group_cong rows) by done.
  rewrite (settled_check _ _ _ _ _ Hl Hr Hc Hi E). eexists. split_and!.
  - simpl. f_equal. f_equal. by destruct write.
  - rewrite !filter_app, !ref_problems_ref. done.
  - intros p Hp Hst. rewrite !elem_of_app in Hp. rewrite elem_of_app.
    destruct Hp as [?|[Hp%group_no_stale|[Hp|[Hp%ref_problems_stale|?]]]]; [by left|congruence| |congruence|by right].
    rewrite (check_rows_problems _ _ _ _ _ _ E) in Hp. apply list_elem_of_bind in Hp as (id & Hp & _).
    case_match; [apply status_no_stale in Hp as [? _]; congruence|by apply elem_of_nil in Hp].
Qed.

(** The two conditions on a document, by computation. *)
Lemma unique_ids_compute lines : NoDup (ID <$> emitted (false, false) 0 lines) → unique_ids lines.
Proof.
  intros Hd i j id c c' Hi Hj.
  assert (mkRow i c id (statusOf c) ∈ emitted (false, false) 0 lines) as [a Ha]%list_elem_of_lookup_1 by (by apply emitted_spec).
  assert (mkRow j c' id (statusOf c') ∈ emitted (false, false) 0 lines) as [b Hb]%list_elem_of_lookup_1 by (by apply emitted_spec).
  assert (a = b) as -> by (eapply (NoDup_lookup _ a b id); [exact Hd|by rewrite list_lookup_fmap, Ha|by rewrite list_lookup_fmap, Hb]).
  congruence.
Qed.
Lemma full_rows_compute n lines : (3 <= n)%nat → Forall (λ r, length (Cells r) = n) (emitted (false, false) 0 lines) →
  Forall (λ l, is_header (split l) = true → length (split l) = n) lines → full_rows lines.
Proof.
  intros Hn Hr Hh i id c h cs Hi (j & _ & Hj & Hhd & _) Hcs. rewrite Forall_forall in Hr.
  assert (mkRow i c id (statusOf c) ∈ emitted (false, false) 0 lines) as Hx by (by apply emitted_spec).
  specialize (Hr _ Hx). simpl in Hr. apply split_spec in Hcs.
  pose proof (Forall_lookup_1 _ _ _ _ Hh Hj) as Hlen. simpl in Hlen. rewrite Hcs in Hlen.
  assert (is_header (split h) = true) as Eh by (destruct Hhd as [Hb ?]; apply is_header_spec; [done|by split]).
  rewrite Hcs in Eh. specialize (Hlen Eh). lia.
Qed.

(** A document with a stale row: the tool fills in its two tests. *)
Definition sample_tests : list Test :=
  [mkTest (text "udp") (text "TestRead") (text "r") [text "UDP-2"];
   mkTest (text "udp") (text "BenchmarkRead") (text "b") [text "UDP-1"; text "UDP-2"]].
Definition sample_doc : str := join [10] (sample_header ++
  [text "| UDP-1 | open | ✅ | `udp.BenchmarkRead` | |"; text "|UDP-2 | read | ✅ | old | x |"]).
Definition sample_settled : str := join [10] (sample_header ++
  [text "| UDP-1 | open | ✅ | `udp.BenchmarkRead` | |";
   text "| UDP-2 | read | ✅ | `udp.BenchmarkRead`<br>`udp.Read` | x |"]).

Ltac by_compute := apply (bool_decide_unpack _); vm_compute; exact I.

Lemma write_settles_witness :
  run (sample_tests, []) [] sample_doc true = Some ([], sample_settled) ∧
  checkpoint_row (split_on 10 sample_settled) 3 (text "UDP-2")
    [text "UDP-2"; text "read"; text "✅"; text "`udp.BenchmarkRead`<br>`udp.Read`"; text "x"] ∧
  ∃ ps, run (sample_tests, []) [] sample_settled false = Some (ps, sample_settled).
Proof.
  assert (run (sample_tests, []) [] sample_doc true = Some ([], sample_settled)) as E by (vm_compute; reflexivity).
  split; [exact E|].
  destruct (write_settles sample_tests [] [] sample_doc) as (ps & raw' & H & _ & _ & Hrows & Hw).
  - unfold sample_tests. repeat constructor; simpl; by_compute.
  - apply unique_ids_compute. by_compute.
  - apply (full_rows_compute 5); [lia|by_compute..].
  - rewrite E in H. injection H as <- <-. split; [|destruct (Hw false) as (ps' & Hps & _); by exists ps'].
    apply Hrows. exists [text "UDP-2"; text "read"; text "✅"; text "old"; text "x"]. split; [|vm_compute; reflexivity].
    apply (emitted_spec _ (mkRow 3 [text "UDP-2"; text "read"; text "✅"; text "old"; text "x"] (text "UDP-2") (text "✅"))).
    apply (list_elem_of_lookup_2 _ 1%nat). vm_compute. reflexivity.
Defined.

(** * What a check without problems means *)

(** A test column lists the labels of the tests in byte order. *)
Definition lists (c : str) (ts : list Test) : Prop :=
  ∃ ls, ls ≡ₚ ((λ t, text "`" ++ Label t ++ text "`") <$> ts) ∧ Sorted str_le ls ∧ c = join (text "<br>") ls.

Lemma render_lists c ts : c = render ts ↔ lists c ts.
Proof.
  unfold render, lists. split.
  - intros ->. eexists. split_and!; [|apply Sorted_merge_sort, _|reflexivity]. apply merge_sort_Permutation.
  - intros (ls & Hp & Hs & ->). f_equal. apply (Sorted_unique str_le); [done|apply Sorted_merge_sort, _|].
    unfold sort_Strings. by rewrite merge_sort_Permutation.
Qed.

Definition marked_tested : list str := [text "✅"; text "⚠️"].
Definition marked_untested : list str := [text "❌"; text "🔧"; text "➖"; text "⚙️"].

(** The rules of the tool, for the repository [top], the lines of its document
    and the test functions in the order of the walk. *)
Record in_step (top : list node) (lines : list str) (tests : list Test) : Prop := {
  rule_directive : ∀ t, test_in top t → IDs t ≠ [];
  rule_known : ∀ t id, test_in top t → id ∈ IDs t → ∃ i cells, checkpoint_row lines i id cells;
  rule_tested : ∀ i id cells s, checkpoint_row lines i id cells → status_is cells s → s ∈ marked_tested →
    ∃ t, test_in top t ∧ id ∈ IDs t;
  rule_untested : ∀ i id cells s, checkpoint_row lines i id cells → status_is cells s → s ∈ marked_untested →
    ∀ t, test_in top t → id ∉ IDs t;
  rule_column : ∀ i id cells, checkpoint_row lines i id cells →
    ∃ cs c note, cells = cs ++ [c; note] ∧ lists c (declaring id tests);
  rule_reference : ∀ i id, reference lines i id → ∃ j cells, checkpoint_row lines j id cells;
  rule_design : design_rule top }.


Definition row_problems (byID : gmap str (list Test)) (id : str) (r : Row) : list problem :=
  status_problem r id (length (default [] (byID !! id))) ++
  (if bool_decide (from_end 2 (Cells r) = Some (want byID id)) then [] else [StaleColumn (S (Line r)) id]).

(** A check leaves the lines alone and reports row by row. *)
Lemma check_rows_check rows byID ids lines : map_Forall (λ _ r, (2 <= length (Cells r))%nat) rows →
  check_rows false rows byID ids lines =
  Some (lines, ids ≫= λ id, match rows !! id with Some r => row_problems byID id r | None => [] end).
Proof.
  intros H. induction ids as [|id ids IH]; [done|]. simpl. destruct (rows !! id) as [r|] eqn:E; [|done].
  unfold check_row, row_problems. destruct (from_end_lt 2 (Cells r)) as [h Eh]; [apply H in E; lia|]. rewrite Eh. simpl.
  fold (want byID id). case_bool_decide as Hd; simpl; rewrite IH; simpl.
  - rewrite bool_decide_eq_true_2 by (by rewrite Hd). by rewrite app_nil_r.
  - by rewrite bool_decide_eq_false_2 by (by intros [= ?]).
Qed.

Lemma status_problem_nil r id n : status_problem r id n = [] ↔
  (tested_status (Status r) = true → n ≠ 0%nat) ∧ (untested_status (Status r) = true → n = 0%nat).
Proof.
  assert (tested_status (Status r) = true → untested_status (Status r) = true → False) as Hx.
  { unfold tested_status, untested_status. intros H1%bool_decide_eq_true H2%bool_decide_eq_true.
    apply list_elem_of_In in H1, H2. destruct H1 as [H1|[H1|[]]]; rewrite <- H1 in H2;
      vm_compute in H2; intuition discriminate. }
  unfold status_problem. destruct (tested_status _), (untested_status _), n; simpl; naive_solver.
Qed.

Lemma second_last cells c : from_end 2 cells = Some c ↔ ∃ cs note, cells = cs ++ [c; note].
Proof.
  split.
  - intros H. destruct (from_end_lt 1 cells) as [note Hn].
    { unfold from_end in H. case_match eqn:E; [|done]. apply Nat.leb_le in E. lia. }
    destruct (proj1 (last_two cells c note)) as [cs ->]; eauto.
  - intros (cs & note & ->). apply (from_end_app cs [c; note]).
Qed.

(** Some row has the id. *)
Definition has_row (lines : list str) (id : str) : Prop := ∃ i cells, checkpoint_row lines i id cells.
Lemma has_row_spec lines id : is_Some (rows_of lines !! id) ↔ has_row lines id.
Proof.
  split; [intros [r (Hr & _)%rows_of_spec]; by eexists _, _|]. intros (i & cells & H).
  destruct (rows_of lines !! id) eqn:E; [done|]. by eapply rows_of_None in H.
Qed.

(** In a document with unique ids the map has every row. *)
Lemma all_rows lines (P : str → list str → str → Prop) : unique_ids lines →
  (∀ id r, rows_of lines !! id = Some r → P id (Cells r) (Status r)) ↔
  ∀ i id cells s, checkpoint_row lines i id cells → status_is cells s → P id cells s.
Proof.
  intros Hu. split.
  - intros H i id cells s Hi <-%statusOf_spec. apply (H id (mkRow i cells id (statusOf cells))).
    apply (unique_row lines (mkRow i cells id (statusOf cells))); [done|]. by apply emitted_spec.
  - intros H id r (Hr & _ & Hs & _)%rows_of_spec. eapply H; [done|]. by apply statusOf_spec.
Qed.

(** What a check wants of a row. *)
Definition row_rules (tests : list Test) (id : str) (cells : list str) (s : str) : Prop :=
  (s ∈ marked_tested → ∃ t, t ∈ tests ∧ id ∈ IDs t) ∧
  (s ∈ marked_untested → ∀ t, t ∈ tests → id ∉ IDs t) ∧
  ∃ cs c note, cells = cs ++ [c; note] ∧ lists c (declaring id tests).

Lemma row_problems_nil rows tests id r : rows !! id = Some r →
  row_problems (group rows tests).1 id r = [] ↔ row_rules tests id (Cells r) (Status r).
Proof.
  intros Hr. unfold row_rules. destruct (group_spec rows tests) as [_ Hg]. unfold row_problems, want. rewrite Hg by done.
  rewrite app_nil, status_problem_nil. unfold tested_status, untested_status. rewrite !bool_decide_eq_true.
  assert (length (declaring id tests) = 0%nat ↔ ∀ t, t ∈ tests → id ∉ IDs t) as H0.
  { rewrite <- declaring_nil. split; [apply length_zero_iff_nil|by intros ->]. }
  assert (length (declaring id tests) ≠ 0%nat ↔ ∃ t, t ∈ tests ∧ id ∈ IDs t) as H1.
  { split.
    - destruct (declaring id tests) as [|t ts] eqn:E; [done|]. intros _. exists t. apply elem_declaring. rewrite E. left.
    - intros (t & Ht & Hid) E. by apply (proj1 H0 E t). }
  rewrite H1, H0.
  assert ((if bool_decide (from_end 2 (Cells r) = Some (render (declaring id tests))) then [] else [StaleColumn (S (Line r)) id]) = [] ↔
    ∃ cs c note, Cells r = cs ++ [c; note] ∧ lists c (declaring id tests)) as ->; [|unfold marked_tested, marked_untested; tauto].
  setoid_rewrite <- render_lists. split.
  - case_bool_decide as Hd; [|done]. intros _. apply second_last in Hd as (cs & note & E). eauto 6.
  - intros (cs & c & note & E & ->). rewrite bool_decide_eq_true_2; [done|]. apply second_last. eauto.
Qed.

(** The problems of a check, rule by rule. *)
Lemma check_problems_nil tests design raw :
  let lines := split_on 10 raw in let rows := rows_of lines in
  map_Forall (λ _ r, (2 <= length (Cells r))%nat) rows →
  ∃ ps, run (tests, tests ≫= no_directive) design raw false = Some (ps, raw) ∧
    (ps = [] ↔ (∀ t, t ∈ tests → IDs t ≠ []) ∧ (∀ t id, t ∈ tests → id ∈ IDs t → is_Some (rows !! id)) ∧
       (∀ id r, rows !! id = Some r → row_rules tests id (Cells r) (Status r)) ∧
       (∀ x, x ∈ referred (false, false) 0 lines → is_Some (rows !! ref_id x)) ∧ design = []).
Proof.
  intros lines rows Hr. rewrite run_eq, check_rows_check by done. simpl. eexists. split; [done|].
  fold lines rows. rewrite (proj1 (group_spec rows tests)), parseDoc_eq, !app_nil, !bind_nil. simpl.
  assert (∀ A B C D : Prop, (A ↔ B) → (C ↔ D) → (A ∧ C ↔ B ∧ D)) as and_cong by tauto.
  repeat apply and_cong; [| | | |done].
  - split; intros H t Ht; specialize (H t Ht); unfold no_directive in *; by destruct (IDs t).
  - split.
    + intros H t id Ht Hid. destruct (rows !! id) eqn:E; [done|]. specialize (H t Ht). apply fmap_nil_inv in H. exfalso.
      apply (not_elem_of_nil id). rewrite <- H. by apply list_elem_of_filter.
    + intros H t Ht. destruct (filter _ _) as [|i l] eqn:E; [done|]. exfalso.
      assert (i ∈ filter (λ i, rows !! i = None) (IDs t)) as [Hn Hi]%list_elem_of_filter by (rewrite E; left).
      destruct (H t i Ht Hi). congruence.
  - split.
    + intros H id r E. apply (row_problems_nil rows tests id r E). specialize (H id). rewrite E in H.
      apply H, ids_of_elem. by exists r.
    + intros H id _. destruct (rows !! id) as [r|] eqn:E; [|done]. by apply (row_problems_nil rows tests id r E), H.
  - split; intros H x Hx; specialize (H x Hx); unfold ref_problem in *; [by destruct (rows !! ref_id x)|by destruct H as [? ->]].
Qed.

(** C38: run without [-w] reports nothing exactly when the repository is in
    step with its document. The repository is a tree, its root not called .git or
    testdata, in which a directory holds each name once, its test files parse, and
    its document has no id in two rows and no checkpoint row of a single cell. The
    rules: every test function
    outside .git and testdata names a checkpoint; every checkpoint it names is a
    row of a checkpoint table; a row marked as tested has a test and one marked
    otherwise has none; every row lists in its last cell but one the labels of
    the tests that declare it, in order; an id in the regression table is that of
    a row; and every package (hidden directories, testdata, examples and docs
    apart) has its design document: runtime.md for the root, a section of
    internal.md for one below internal, a file of its name for any other. *)
Theorem check_enforces name top raw ast tests :
  name ∉ [text ".git"; text "testdata"] → top_ok top →
  node_at top [text "docs"] (text "TESTING.md") (File (text "TESTING.md") raw ast) →
  collect (Dir name top) = Some tests →
  unique_ids (split_on 10 raw) →
  (∀ i id cells, checkpoint_row (split_on 10 raw) i id cells → (2 <= length cells)%nat) →
  ∃ ps, run_repo (Dir name top) false = Some (Checked ps raw) ∧ (ps = [] ↔ in_step top (split_on 10 raw) tests).
Proof.
  intros Hname Htop Hdoc Htests Hu Hw.
  assert (∀ t, t ∈ tests ↔ test_in top t) as Ht.
  { intros t. rewrite (collect_spec _ _ Htests). set_solver. }
  destruct (check_problems_nil tests (checkDesignDocs (Dir name top)) raw) as (ps & Hrun & Hps).
  { intros id r (Hr & _)%rows_of_spec. by eapply Hw. }
  exists ps. split.
  { unfold run_repo, collectTests. rewrite Htests. cbn [mbind option_bind].
    change [text "docs"; text "TESTING.md"] with ([text "docs"] ++ [text "TESTING.md"]).
    rewrite (proj2 (lookup_path_spec _ _ _ _ Htop) Hdoc), Hrun. done. }
  rewrite Hps, (checkDesignDocs_spec name top) by (done || set_solver). clear Hps Hrun.
  rewrite (all_rows (split_on 10 raw) (row_rules tests) Hu). unfold row_rules. setoid_rewrite Ht.
  setoid_rewrite has_row_spec. split.
  - intros (H1 & H2 & H3 & H4 & H5). split; try done.
    + intros i id cells s Hi Hs. by apply (H3 i id cells s).
    + intros i id cells s Hi Hs. by apply (H3 i id cells s).
    + intros i id cells Hi. by apply (H3 i id cells (statusOf cells)); [|apply statusOf_spec].
    + intros i id Hx. apply (H4 (mkRef id i)). by apply referred_spec.
  - intros [H1 H2 H3 H4 H5 H6 H7]. split_and!; try done.
    + intros i id cells s Hi Hs. split_and!; [by eapply H3|by eapply H4|by eapply H5].
    + intros x Hx%referred_spec. by eapply H6.
Qed.

(** A repository with a root package, one below internal, and one with tests;
    its document is up to date. *)
Definition sample_ast : gofile := mkGo (text "udp_test")
  [FuncDecl (text "TestRead") false (Some [text "// Checks: UDP-2"]) (text "r"); OtherDecl;
   FuncDecl (text "BenchmarkRead") false (Some [text "// Reads."; text "// Checks: UDP-1, UDP-2"]) (text "b")].
Definition sample_top (internal : str) : list node :=
  [Dir (text "docs") [Dir (text "design") [File (text "runtime.md") [] None; File (text "internal.md") internal None;
                                           File (text "udp.md") [] None];
                      File (text "TESTING.md") sample_settled None];
   Dir (text "examples") [File (text "main.go") [] None];
   Dir (text "internal") [Dir (text "sys") [File (text "sys.go") [] None]];
   File (text "netx.go") [] None;
   Dir (text "udp") [File (text "udp.go") [] None; File (text "udp_test.go") [] (Some sample_ast)]].

Lemma check_enforces_witness :
  in_step (sample_top (text "## internal/sys (system calls)")) (split_on 10 sample_settled) sample_tests ∧
  ¬ in_step (sample_top (text "## internal/system")) (split_on 10 sample_settled) sample_tests.
Proof.
  assert (∀ internal ps, run_repo (Dir (text ".") (sample_top internal)) false = Some (Checked ps sample_settled) →
    ps = [] ↔ in_step (sample_top internal) (split_on 10 sample_settled) sample_tests) as H.
  { intros internal ps Hps.
    destruct (check_enforces (text ".") (sample_top internal) sample_settled None sample_tests) as (ps' & H1 & H2).
    - by_compute.
    - split; [by_compute|]. repeat constructor.
    - eexists. split; [eapply dir_sub; [left|constructor]|]. split; [right; left|reflexivity].
    - vm_compute. reflexivity.
    - apply unique_ids_compute. by_compute.
    - intros i id cells Hi. assert (length cells = 5%nat) as ->; [|lia].
      assert (Forall (λ r, length (Cells r) = 5%nat) (emitted (false, false) 0 (split_on 10 sample_settled))) as Hl by by_compute.
      rewrite Forall_forall in Hl. apply (Hl (mkRow i cells id (statusOf cells))).
      apply emitted_spec. split; [exact Hi|reflexivity].
    - rewrite Hps in H1. injection H1 as <-. exact H2. }
  split.
  - apply (H _ []); [vm_compute; reflexivity|reflexivity].
  - intros Hin. apply (H _ [NoInternalSection (text "internal/sys")]) in Hin; [discriminate|vm_compute; reflexivity].
Defined.


(** * Tables the tool does not expect *)

(** A checkpoint row of one cell stops the tool: [r.Cells[len(r.Cells)-2]] is
    out of range. *)
Example one_cell_row_panics :
  run ([], []) [] (join [10] (sample_header ++ [text "| UDP-1 |"])) false = None.
Proof. vm_compute. reflexivity. Qed.

(** A note left out as two adjacent bars: [Trim] takes both, the row is one
    cell short, and the tests are written over the status. *)
Example empty_note_overwrites_status :
  run ([mkTest (text "udp") (text "TestOpen") (text "o") [text "UDP-1"]], []) []
      (join [10] (sample_header ++ [text "| UDP-1 | open | ✅ | `udp.Open` ||"])) true =
  Some ([], join [10] (sample_header ++ [text "| UDP-1 | open | `udp.Open` | `udp.Open` |"])).
Proof. vm_compute. reflexivity. Qed.

(** Of two rows with one id only the last is checked: the first keeps its
    stale column and its status goes unread. *)
Example duplicate_id_unchecked :
  let doc := join [10] (sample_header ++ [text "| UDP-1 | open | ❌ | stale | |";
                                          text "| UDP-1 | open | ✅ | `udp.Open` | |"]) in
  run ([mkTest (text "udp") (text "TestOpen") (text "o") [text "UDP-1"]], []) [] doc true = Some ([], doc).
Proof. vm_compute. reflexivity. Qed.
